(* ===== verification/_CoqProject ===== *)
-Q . S2P
Prelude.v
Frames.v
Codec.v
HintFile.v
KeyDir.v
PatchMap.v
DataFile.v
DataFileProofs.v
FileScan.v
Hints.v
EngineState.v
ReadCache.v
EngineProofs.v
CheckedPuts.v
Preconditions.v
Ingest.v
Remap.v
Resume.v
Recovery.v
Merging.v
BuildProofs.v
RangedProofs.v
RecoverySpec.v
RangedLoader.v
StreamProofs.v
LogRecovery.v
RecoveryOpen.v
OpenProofs.v
OverlapProofs.v
RecoveryLoop.v
CrashRecovery.v
Db.v
Vacuum.v
Commit.v
Records.v
StageProofs.v
Faults.v
DbInv.v
Reads.v
StateChecks.v
Resuming.v
FlushProofs.v
RotationProofs.v
GroupProofs.v
CommitProofs.v
WritePath.v
EngineSteps.v
ResumeProofs.v
VacuumCopy.v
VacuumCommit.v
VacuumEngine.v
VacuumProofs.v
