(* ===== verification/Prelude.v ===== *)
(** * A verification of the ByteCaskDB storage engine

    ByteCaskDB is an embedded key-value store over append-only data files.
    A write appends records to the active file and publishes a new
    [EngineState]; reads go through an in-memory key directory that maps a
    key to the place of its newest record; a background vacuum rewrites old
    files; recovery rebuilds the key directory from the files.  This
    development models the engine, the modules under [src/bytecaskdb/], and
    proves that the parts do what they promise each other and that together
    they keep the promises of [CONTRACT.md].

    ** How the program is modelled

    A pure C++ function is a Gallina function, a function that can throw
    returns a [result], and code with effects runs in [io S]: a function from
    a state [S] to a [result] and the state after it, whether it returned or
    threw.  [S] is the file object ([FileIO]), the directory ([Disk]), the
    engine ([DB]), or the engine with its directory while vacuum runs
    ([Vac]).  A system call takes the next outcome off an oracle, so that a
    theorem about every state is one about every pattern of failing calls,
    unless it says otherwise (see Assumptions).  A call that only reads, or
    the reads of one sweep together, take one outcome; the reads of the read
    path fail as a parameter says ([ReadFaults]).  The key directory is a
    total map: where the build without keys in its leaves reads records to
    place a key, those reads are one outcome per slot of a batch, one per
    entry vacuum copies and one per bound of a scan.
    Integers are [Z], with the wrap-around of their width written out
    ([u64_add], [u64_sub], [wrap]); bytes are [list byte].  Everything is
    executable; each theorem with hypotheses has a witness that evaluates the
    definitions on a concrete input.

    Threads are modelled where their interleaving matters: a commit's stage 1
    and the barriers are atomic (they hold [write_mu_]), a flush is two steps
    with anything in between ([EngineSteps]), vacuum is interleaved with
    arbitrary runs of the engine ([VacuumProofs]), and the read cache's atomic
    operations, those of publishers included, interleave one by one
    ([ReadCache]).

    ** The parts

    Foundations: [Prelude] (this file: exceptions, the [io] monad, machine
    integers, the key order, tactics and the hint database) and [Frames] (two
    small program logics for [io]: what a program leaves alone, and what it
    ensures when it returns and when it throws).

    Bytes.  [Codec]: [serialization.cppm], [types.cppm], [data_entry.cppm],
    [hint_entry.cppm]; the records of data and hint files.  [HintFile]:
    [hint_file.cppm], compressed frames between a header and a checked
    trailer.  The codecs are exact, a hint file reads back as written and no
    byte of one is used unchecked.

    Data files.  [DataFile], [DataFileProofs], [FileScan]: [data_file.cppm]
    with the pread back-end and [batch_iterator.cppm].  Appending in chunks
    leaves all of the records or a prefix of them, whatever call fails; a
    record appended is fetched back; a sweep of arbitrary bytes yields the
    records that are there, and the committed sweep the whole units.  [Hints]:
    the hint functions of [db_rotation.cpp]; a hint lists the committed
    entries of its file, and a damaged one is rebuilt.

    In-memory state.  [KeyDir] and [EngineState]: [internals.cppm],
    [engine_state.cpp] and the plans of [bytecask.cppm].  [PatchMap]:
    [patch_map.cppm].  A key directory denotes a map from keys to values
    ([EngineProofs]), and every transition of [TransientEngineState] is its
    meaning on that map: plans ([EngineProofs]), puts checked as they are
    applied ([CheckedPuts]), preconditions ([Preconditions]), replicated
    entries ([Ingest]), a vacuumed file ([Remap]) and a resumed one
    ([Resume]).

    The engine.  [Db], [Commit], [StateChecks], [Resuming], [Vacuum],
    [Reads]: the class [DB] as [db.cpp], [db_commit.cpp], [db_state.cpp],
    [db_rotation.cpp], [db_degraded.cpp], [db_vacuum.cpp] and [db_read.cpp]
    implement it.  The abstract store is a log of commit groups with a
    published prefix.  [Records], [StageProofs], [Faults] and [DbInv] set up
    the invariant; [FlushProofs], [RotationProofs], [GroupProofs],
    [CommitProofs] and [WritePath] carry it through the write path;
    [EngineSteps] puts the steps together: every run refines a run of the
    log, whatever system calls fail, and publishes only states that pass the
    engine's own checks; what a state calls durable is on disk if no call
    failed right after one that failed.  [ResumeProofs] and [VacuumProofs] (with
    [VacuumCopy], [VacuumCommit], [VacuumEngine]) do the same for resuming
    and vacuuming, and [Reads] shows that reads return the published store.
    [ReadCache] models the per-thread cache of the published state.

    Recovery.  [Recovery], [RecoveryOpen]: [db_recovery.cpp].  [Merging],
    [BuildProofs], [RangedProofs], [RangedLoader], [StreamProofs] and
    [RecoverySpec] show that both loaders compute one reference, and
    [LogRecovery] that the reference is what the data files say.
    [OpenProofs], [OverlapProofs], [RecoveryLoop] and [CrashRecovery] are
    about the loop around them: it ends, loses no committed entry, tears one
    file at most, and after a crash restores the log.

    ** Assumptions

    Code outside the repository is a class with named laws: CRC-32C
    ([Crc32c], [Crc32cLaws]; the instance [Castagnoli] computes the checksum
    bit by bit) and zstd ([Zstd], [ZstdLaws]; the instance [Stored] stores
    blocks).  [fdatasync] makes the bytes written before it durable when it
    succeeds; after one that failed, a later success vouches for nothing.
    What the theorems on the engine say of durability is under
    [faults_apart], which stands for no call failing right after one that
    failed ([no_double_fault] of the outcomes to come); everything else they
    say holds for every pattern of failing calls, and a finding shows what the
    code does after two faults in a row.  [std::abort] is the exception
    [Panic], which runs no cleanup.

    ** Fuel

    A loop whose recursion is not structural takes fuel, and the theorems say
    that the fuel given is enough or that more changes nothing: a sweep takes
    the size of its file (a record has at least 19 bytes), an append and a
    rewrite one step per entry or byte, a batch one group per slot, a writer
    waits through three flushes at most, a merge one step per entry left, and
    recovery one pass more than there are data files.

    ** Not modelled

    The memory-mapped file and the buffer pool ([buffer_pool.cppm]): back-ends
    with the contract of the pread one, whose code is page mapping and frame
    replacement.  The nodes of the key directory's trees ([btree.cppm],
    [blind_btree.cppm]) and the array of [u32_map.cppm]: the model has the
    maps they implement.  [version_chain.cppm], [counters.cppm] and the fault
    injector: memory reclamation and instrumentation.  The queue of
    [WriteGroup] and the timing heuristics (commit delay, hint back-pressure):
    which slots form a batch is arbitrary in the model.  Replication
    ([db_replication.cpp], [change_index.cppm], [change_iterator.cppm]) beyond
    [apply_ingest].  Allocation failures, except where a finding is about
    them.  The C and C++ interfaces, the language bindings, the MariaDB plugin
    and the SQL layer are clients of the engine and are outside this
    development.

    ** This file

    The error monad, fixed-width integers, bytes and the key order, and the
    tactics and hint database the other files share. *)

From Stdlib Require Export ZArith Lia Strings.Byte.
From stdpp Require Export base list gmap strings sorting.

(** ** The scope of the development *)

Declare Scope bytecask_scope.
Delimit Scope bytecask_scope with bytecask.
#[global] Open Scope bytecask_scope.
#[global] Open Scope Z_scope.

Create HintDb bytecask.

(** ** Exceptions and results

    A C++ function that can throw returns a [result]: [Ok] with its value or
    [Err] with the exception.  The constructors are the exception classes the
    engine throws, with their messages. *)

Inductive exn : Type :=
| RuntimeError (msg : string)
| InvalidArgument (msg : string)
| SystemError (msg : string)     (* std::system_error *)
| IoError (msg : string)         (* std::system_error of a failed read: errc::io_error *)
| LogicError (msg : string)
| SequenceOverlap (file_a file_b : Z)
| DbDegraded (reason : string)
| DbFollowerMode
| DbChangeMarkerMismatch
| DbClosed
| Panic (msg : string).          (* std::abort: the process ends *)

#[export] Instance exn_eq_dec : EqDecision exn.
Proof. solve_decision. Defined.

Inductive result (A : Type) : Type :=
| Ok (a : A)
| Err (e : exn).
Arguments Ok {A} a.
Arguments Err {A} e.

#[export] Instance result_eq_dec {A} `{EqDecision A} : EqDecision (result A).
Proof. solve_decision. Defined.

#[export] Instance result_ret : MRet result := fun A a => Ok a.
#[export] Instance result_bind : MBind result :=
  fun A B f r => match r with Ok a => f a | Err e => Err e end.

(** [if (b) throw e;] as a statement. *)
Definition throw_if (b : bool) (e : exn) : result unit :=
  if b then Err e else Ok ().

Definition is_ok {A} (r : result A) : bool :=
  match r with Ok _ => true | Err _ => false end.

(** ** Effects

    Code that changes a state [S] and may throw: the state reached is kept
    when it throws. *)

Definition io (S A : Type) : Type := S -> result A * S.

#[export] Instance io_ret {S} : MRet (io S) := fun A a s => (Ok a, s).
#[export] Instance io_bind {S} : MBind (io S) :=
  fun A B f m s => match m s with (Ok a, s') => f a s' | (Err e, s') => (Err e, s') end.

Definition throw {S A} (e : exn) : io S A := fun s => (Err e, s).
Definition lift {S A} (r : result A) : io S A := fun s => (r, s).
Definition gets {S A} (f : S -> A) : io S A := fun s => (Ok (f s), s).
Definition modify {S} (f : S -> S) : io S unit := fun s => (Ok (), f s).

(** [try { m } catch (...) { h(current_exception) }]. *)
Definition try_catch {S A} (m : io S A) (h : exn -> io S A) : io S A :=
  fun s => match m s with (Ok a, s') => (Ok a, s') | (Err e, s') => h e s' end.

(** [try { m } catch (...)] as a value: the exception, if any, is a result. *)
Definition attempt {S A} (m : io S A) : io S (result A) :=
  fun s => let '(r, s') := m s in (Ok r, s').

(** [if (b) m]. *)
Definition when {S} (b : bool) (m : io S unit) : io S unit := if b then m else mret ().

(** [for (x : l) f(x)]. *)
Definition for_each {S A} (l : list A) (f : A -> io S unit) : io S unit :=
  foldr (fun x m => _ ← f x; m) (mret ()) l.

(** ** Fixed-width unsigned integers

    A [w]-bit unsigned integer is a [Z] in [0, 2^w); arithmetic that the
    source does at that width is followed by [wrap w]. *)

Definition wrap (w z : Z) : Z := z mod 2 ^ w.
Definition fits (w z : Z) : Prop := 0 <= z < 2 ^ w.
Definition fitsb (w z : Z) : bool := (0 <=? z) && (z <? 2 ^ w).

Abbreviation u64_add a b := (wrap 64 (a + b)).
Abbreviation u64_sub a b := (wrap 64 (a - b)).

(** ** Bytes and keys

    A byte is [Byte.byte]; a key or a value is a list of bytes.  Keys are
    ordered as the engine orders them: lexicographically, byte by unsigned
    byte. *)

Abbreviation bytes := (list byte).

Definition byte_to_Z (b : byte) : Z := Z.of_N (Byte.to_N b).
Definition Z_to_byte (z : Z) : byte :=
  default x00 (Byte.of_N (Z.to_N (z mod 256))).

#[export] Instance byte_eq_dec : EqDecision byte := Byte.byte_eq_dec.
#[export] Instance byte_countable : Countable byte :=
  inj_countable Byte.to_N Byte.of_N Byte.of_to_N.
#[export] Instance byte_inhabited : Inhabited byte := populate x00.

(** The size of a span, as the source's [size()]. *)
Definition size (b : bytes) : Z := Z.of_nat (length b).

Fixpoint key_compare (a b : bytes) : comparison :=
  match a, b with
  | [], [] => Eq
  | [], _ :: _ => Lt
  | _ :: _, [] => Gt
  | x :: a', y :: b' =>
      match Z.compare (byte_to_Z x) (byte_to_Z y) with
      | Eq => key_compare a' b'
      | c => c
      end
  end.

Definition key_lt (a b : bytes) : Prop := key_compare a b = Lt.
Definition key_le (a b : bytes) : Prop := key_compare a b <> Gt.
Definition key_ltb (a b : bytes) : bool :=
  match key_compare a b with Lt => true | _ => false end.
Definition key_leb (a b : bytes) : bool :=
  match key_compare a b with Gt => false | _ => true end.

(** Membership of the half-open range [from, to). *)
Definition in_range (from to k : bytes) : bool := key_leb from k && key_ltb k to.

(** ** Tactics *)

(** Splits every conjunction and existential of the context. *)
Ltac destruct_ands :=
  repeat match goal with
  | H : _ /\ _ |- _ => destruct H
  | H : exists _, _ |- _ => destruct H
  end.

(** Turns the boolean comparisons of the context and the goal into
    propositions on [Z]. *)
Ltac bool_to_prop :=
  repeat match goal with
  | H : (_ <? _) = true |- _ => apply Z.ltb_lt in H
  | H : (_ <? _) = false |- _ => apply Z.ltb_ge in H
  | H : (_ <=? _) = true |- _ => apply Z.leb_le in H
  | H : (_ <=? _) = false |- _ => apply Z.leb_gt in H
  | H : (_ =? _) = true |- _ => apply Z.eqb_eq in H
  | H : (_ =? _) = false |- _ => apply Z.eqb_neq in H
  | H : (_ && _) = true |- _ => apply andb_true_iff in H; destruct H
  | H : (_ || _) = false |- _ => apply orb_false_iff in H; destruct H
  | H : negb _ = true |- _ => apply negb_true_iff in H
  | H : negb _ = false |- _ => apply negb_false_iff in H
  end.

(** Case analysis on the scrutinee of the first [match] or [if] found. *)
Ltac case_match_eqn :=
  match goal with
  | |- context [ match ?x with _ => _ end ] => destruct x eqn:?
  end.

Ltac case_match_in H :=
  match type of H with
  | context [ match ?x with _ => _ end ] => destruct x eqn:?
  end.

(** Runs the [result] monad's binds and the lets between them. *)
Ltac monad_simpl := cbv beta zeta iota delta [mbind result_bind mret result_ret].

(** Inverts a computation in the [result] monad that is known to return. *)
Ltac ok_inv :=
  repeat match goal with
  | H : Ok _ = Ok _ |- _ => injection H as H
  | H : Err _ = Err _ |- _ => injection H as H
  | H : Ok _ = Err _ |- _ => discriminate H
  | H : Err _ = Ok _ |- _ => discriminate H
  end.

(** ** Lemmas on fixed-width integers *)

Lemma wrap_small w z : fits w z -> wrap w z = z.
Proof. intros [??]; unfold wrap; by apply Z.mod_small. Qed.

Lemma wrap_fits w z : 0 <= w -> fits w (wrap w z).
Proof.
  intros ?; unfold wrap, fits.
  assert (0 < 2 ^ w) by (apply Z.pow_pos_nonneg; lia).
  pose proof (Z.mod_pos_bound z (2 ^ w)); lia.
Qed.

Lemma fitsb_true w z : fitsb w z = true <-> fits w z.
Proof. unfold fitsb, fits; rewrite andb_true_iff; lia. Qed.

Lemma fits_mono w w' z : w <= w' -> fits w z -> fits w' z.
Proof.
  unfold fits; intros ? [??]; split; [done|].
  assert (2 ^ w <= 2 ^ w') by (destruct (Z_lt_le_dec w 0) as [Hw|?];
    [rewrite (Z.pow_neg_r 2 w Hw); apply Z.pow_nonneg; lia
    |apply Z.pow_le_mono_r; lia]).
  lia.
Qed.

#[export] Hint Resolve wrap_small wrap_fits : bytecask.

#[export] Instance Ok_inj {A} : Inj (=) (=) (@Ok A).
Proof. by intros ?? [=]. Qed.

Lemma mbind_ok {A B} (f : A -> result B) (r : result A) b :
  (r ≫= f) = Ok b <-> exists a, r = Ok a /\ f a = Ok b.
Proof. destruct r; naive_solver. Qed.

Lemma throw_if_ok b e : throw_if b e = Ok () <-> b = false.
Proof. destruct b; naive_solver. Qed.

Lemma throw_if_bind_err {A} b e (k : unit -> result A) x :
  (throw_if b e ≫= k) = Err x -> x = e \/ k () = Err x.
Proof. destruct b; cbn; naive_solver. Qed.

(** ** Lemmas on bytes and the key order *)

Lemma byte_to_Z_range b : 0 <= byte_to_Z b < 256.
Proof. pose proof (Byte.to_N_bounded b); unfold byte_to_Z; lia. Qed.

Lemma Z_to_byte_to_Z b : Z_to_byte (byte_to_Z b) = b.
Proof.
  unfold Z_to_byte. rewrite Z.mod_small by apply byte_to_Z_range.
  unfold byte_to_Z. by rewrite N2Z.id, Byte.of_to_N.
Qed.

Lemma byte_to_Z_to_byte z : byte_to_Z (Z_to_byte z) = z mod 256.
Proof.
  unfold Z_to_byte, byte_to_Z.
  assert (0 <= z mod 256 < 256) by (apply Z.mod_pos_bound; lia).
  destruct (Byte.of_N (Z.to_N (z mod 256))) as [b|] eqn:E; simpl.
  - apply Byte.to_of_N in E. rewrite E. lia.
  - apply Byte.of_N_None_iff in E. lia.
Qed.

#[export] Instance byte_to_Z_inj : Inj (=) (=) byte_to_Z.
Proof.
  intros a b E. by rewrite <-(Z_to_byte_to_Z a), E, Z_to_byte_to_Z.
Qed.

Lemma key_compare_refl a : key_compare a a = Eq.
Proof. induction a as [|x a IH]; simpl; [done|]. by rewrite Z.compare_refl. Qed.

Lemma key_compare_eq a b : key_compare a b = Eq <-> a = b.
Proof.
  split; [|intros ->; apply key_compare_refl].
  revert b; induction a as [|x a IH]; intros [|y b]; simpl; try done.
  destruct (Z.compare_spec (byte_to_Z x) (byte_to_Z y)) as [E| |]; try done.
  intros ?%IH. apply (inj byte_to_Z) in E. congruence.
Qed.

Lemma key_compare_opp a b : key_compare b a = CompOpp (key_compare a b).
Proof.
  revert b; induction a as [|x a IH]; intros [|y b]; simpl; try done.
  rewrite (Z.compare_antisym (byte_to_Z x)).
  destruct (byte_to_Z x ?= byte_to_Z y); simpl; auto.
Qed.

Lemma key_lt_trans a b c : key_lt a b -> key_lt b c -> key_lt a c.
Proof.
  unfold key_lt. revert b c; induction a as [|x a IH]; intros [|y b] [|z c]; simpl; try done.
  destruct (Z.compare_spec (byte_to_Z x) (byte_to_Z y)) as [Exy|Exy|]; try done;
  destruct (Z.compare_spec (byte_to_Z y) (byte_to_Z z)) as [Eyz|Eyz|]; try done;
  destruct (Z.compare_spec (byte_to_Z x) (byte_to_Z z)); try done; try lia.
  apply IH.
Qed.

Lemma key_lt_irrefl a : ~ key_lt a a.
Proof. unfold key_lt. by rewrite key_compare_refl. Qed.

Lemma key_ltb_spec a b : key_ltb a b = true <-> key_lt a b.
Proof. unfold key_ltb, key_lt. by destruct (key_compare a b). Qed.

Lemma key_leb_spec a b : key_leb a b = true <-> key_le a b.
Proof. unfold key_leb, key_le. by destruct (key_compare a b). Qed.

Lemma key_leb_ltb a b : key_leb a b = negb (key_ltb b a).
Proof.
  unfold key_leb, key_ltb. rewrite (key_compare_opp a b).
  by destruct (key_compare a b).
Qed.

Lemma key_le_nil k : key_le [] k.
Proof. by destruct k. Qed.
Lemma key_le_lteq a b : key_le a b <-> key_lt a b \/ a = b.
Proof.
  unfold key_le, key_lt. rewrite <-key_compare_eq.
  destruct (key_compare a b); naive_solver.
Qed.

#[export] Instance key_lt_dec : RelDecision key_lt.
Proof. intros a b. unfold key_lt. apply _. Defined.
#[export] Instance key_le_dec : RelDecision key_le.
Proof. intros a b. unfold key_le. apply _. Defined.
#[export] Instance key_lt_strict : StrictOrder key_lt.
Proof. split; [exact key_lt_irrefl | exact key_lt_trans]. Qed.

#[export] Instance key_le_total : TotalOrder key_le.
Proof.
  split; [split; [split|]|].
  - intros a. apply key_le_lteq. by right.
  - intros a b c. rewrite !key_le_lteq.
    intros [H1| ->] [H2| ->]; auto. left. by eapply key_lt_trans.
  - intros a b. rewrite !key_le_lteq. intros [H1|?] [H2|?]; auto.
    by destruct (key_lt_irrefl a (key_lt_trans _ _ _ H1 H2)).
  - intros a b. unfold trichotomy, strict, key_le.
    rewrite (key_compare_opp a b).
    destruct (key_compare a b) eqn:E; simpl;
      [right; left; by apply key_compare_eq | left | right; right]; naive_solver.
Qed.

Lemma key_lt_trichotomy a b : key_lt a b \/ a = b \/ key_lt b a.
Proof.
  unfold key_lt. rewrite (key_compare_opp a b), <-key_compare_eq.
  destruct (key_compare a b); simpl; auto.
Qed.

Lemma in_range_spec from to k :
  in_range from to k = true <-> key_le from k /\ key_lt k to.
Proof. unfold in_range. by rewrite andb_true_iff, key_leb_spec, key_ltb_spec. Qed.

(** ** Lemmas on lists and sums over maps *)

Lemma last_default {A} (x : A) l d d' : List.last (x :: l) d = List.last (x :: l) d'.
Proof. revert x. induction l as [|y l IH]; intros x; [done|apply (IH y)]. Qed.

Lemma filter_all_not {A} (P : A -> Prop) `{forall x, Decision (P x)} (l : list A) :
  (forall x, x ∈ l -> ~ P x) -> filter P l = [].
Proof.
  induction l as [|x l IH]; intros Hl; [done|].
  rewrite filter_cons, decide_False by (apply Hl; left). apply IH. set_solver.
Qed.

Lemma filter_all {A} (P : A -> Prop) `{forall x, Decision (P x)} (l : list A) :
  (forall x, x ∈ l -> P x) -> filter P l = l.
Proof.
  induction l as [|x l IH]; intros Hl; [done|].
  rewrite filter_cons, decide_True by (apply Hl; left). f_equal. apply IH. set_solver.
Qed.

Lemma StronglySorted_filter {A} (R : relation A) (P : A -> Prop)
    `{forall x, Decision (P x)} (l : list A) :
  StronglySorted R l -> StronglySorted R (filter P l).
Proof.
  induction 1 as [|x l Hs IH Hall]; [constructor|].
  rewrite filter_cons. destruct (decide (P x)); [|done]. constructor; [done|].
  rewrite Forall_forall in *. intros y Hy. apply Hall. by apply list_elem_of_filter in Hy as [_ ?].
Qed.

(** The sum of [w] over a list, and over a map. *)
Definition lsum {A} (w : A -> Z) (l : list A) : Z := foldr (fun x acc => w x + acc) 0 l.

#[global] Arguments lsum : simpl never.

Definition map_sum {A} (w : bytes -> A -> Z) (m : gmap bytes A) : Z :=
  lsum (fun p => w p.1 p.2) (map_to_list m).

Lemma lsum_nil {A} (w : A -> Z) : lsum w [] = 0.
Proof. done. Qed.

Lemma lsum_cons {A} (w : A -> Z) x l : lsum w (x :: l) = w x + lsum w l.
Proof. done. Qed.

Lemma lsum_app {A} (w : A -> Z) l l' : lsum w (l ++ l') = lsum w l + lsum w l'.
Proof. unfold lsum in *. induction l; simpl; lia. Qed.

Lemma lsum_perm {A} (w : A -> Z) l l' : l ≡ₚ l' -> lsum w l = lsum w l'.
Proof. unfold lsum. induction 1; simpl; lia. Qed.

Lemma lsum_ext {A} (w w' : A -> Z) l :
  (forall x, x ∈ l -> w x = w' x) -> lsum w l = lsum w' l.
Proof.
  induction l as [|x l IH]; intros Hw; [done|]. unfold lsum in *; simpl.
  rewrite (Hw x) by left. rewrite IH; [done|]. set_solver.
Qed.

Lemma lsum_nonneg {A} (w : A -> Z) l : (forall x, x ∈ l -> 0 <= w x) -> 0 <= lsum w l.
Proof.
  induction l as [|x l IH]; intros Hw; [done|]. unfold lsum in *; simpl.
  pose proof (Hw x ltac:(left)). assert (0 <= foldr (fun x acc => w x + acc) 0 l) by
    (apply IH; set_solver). lia.
Qed.

Lemma lsum_fmap {A B} (f : A -> B) (w : B -> Z) l : lsum w (f <$> l) = lsum (w ∘ f) l.
Proof. induction l as [|x l IH]; [done|]. by rewrite fmap_cons, !lsum_cons, IH. Qed.

Section map_sum.
Context {A : Type} (w : bytes -> A -> Z).

Lemma map_sum_empty : map_sum w ∅ = 0.
Proof. unfold map_sum. by rewrite map_to_list_empty. Qed.

Lemma map_sum_insert_new m k x :
  m !! k = None -> map_sum w (<[k := x]> m) = w k x + map_sum w m.
Proof.
  intros Hk. unfold map_sum.
  by rewrite (lsum_perm _ _ _ (map_to_list_insert m k x Hk)).
Qed.

(** What [k] contributes to the sum. *)
Definition contrib (m : gmap bytes A) (k : bytes) : Z :=
  match m !! k with Some x => w k x | None => 0 end.

Lemma map_sum_delete m k : map_sum w (delete k m) = map_sum w m - contrib m k.
Proof.
  unfold contrib. destruct (m !! k) as [x|] eqn:E.
  - rewrite <-(insert_delete_id m k x E) at 2.
    rewrite map_sum_insert_new by apply lookup_delete_eq. lia.
  - rewrite delete_id by done. lia.
Qed.

Lemma map_sum_insert m k x : map_sum w (<[k := x]> m) = map_sum w m - contrib m k + w k x.
Proof.
  rewrite <-insert_delete_eq, map_sum_insert_new by apply lookup_delete_eq.
  rewrite map_sum_delete. lia.
Qed.

Lemma map_sum_nonneg m : (forall k x, m !! k = Some x -> 0 <= w k x) -> 0 <= map_sum w m.
Proof.
  intros Hw. apply lsum_nonneg. intros [k x] Hin. apply elem_of_map_to_list in Hin. by apply Hw.
Qed.

End map_sum.

Lemma map_sum_ext {A} (w w' : bytes -> A -> Z) m :
  (forall k x, m !! k = Some x -> w k x = w' k x) -> map_sum w m = map_sum w' m.
Proof.
  intros Hw. apply lsum_ext. intros [k x] Hin. apply elem_of_map_to_list in Hin. by apply Hw.
Qed.
