(* ===== verification/Frames.v ===== *)
(** * What an effect leaves alone, and what it ensures

    [always R m]: every run of [m], whether it returns or throws, moves the
    state along the preorder [R].  One rule per construct of the [io] monad,
    collected in the hint database [frames], proves such a statement of a
    program from the statements of its parts.

    [ensures P m Q E]: from a state with [P], [m] returns in a state with [Q],
    or throws in one with [E]; again one rule per construct. *)

From S2P Require Import Prelude.

Create HintDb frames.

Section frames.
Context {S : Type} (R : S -> S -> Prop) `{!PreOrder R}.

Definition always {A} (m : io S A) : Prop := forall s, R s (m s).2.

Lemma always_ret {A} (a : A) : always (mret a).
Proof. intros s. unfold mret, io_ret. cbn. reflexivity. Qed.

Lemma always_throw {A} e : always (throw e : io S A).
Proof. intros s. cbn. reflexivity. Qed.

Lemma always_lift {A} (r : result A) : always (lift r).
Proof. intros s. cbn. reflexivity. Qed.

Lemma always_gets {A} (f : S -> A) : always (gets f).
Proof. intros s. cbn. reflexivity. Qed.

Lemma always_modify f : (forall s, R s (f s)) -> always (modify f).
Proof. intros Hf s. apply Hf. Qed.

Lemma always_bind {A B} (m : io S A) (k : A -> io S B) :
  always m -> (forall a, always (k a)) -> always (m ≫= k).
Proof.
  intros Hm Hk s. unfold mbind, io_bind. specialize (Hm s). destruct (m s) as [[a|e] s']; [|done].
  cbn in Hm. transitivity s'; [done|]. apply Hk.
Qed.

Lemma always_try_catch {A} (m : io S A) h : always m -> (forall e, always (h e)) -> always (try_catch m h).
Proof.
  intros Hm Hh s. unfold try_catch. specialize (Hm s). destruct (m s) as [[a|e] s']; [done|].
  cbn in Hm. transitivity s'; [done|]. apply Hh.
Qed.

Lemma always_attempt {A} (m : io S A) : always m -> always (attempt m).
Proof. intros Hm s. unfold attempt. specialize (Hm s). by destruct (m s). Qed.

Lemma always_when b m : always m -> always (when b m).
Proof. intros Hm. destruct b; [done|]. apply always_ret. Qed.

Lemma always_for_each {A} (l : list A) f : (forall x, always (f x)) -> always (for_each l f).
Proof.
  intros Hf. induction l as [|x l IH]; [apply always_ret|]. unfold for_each. cbn [foldr]. by apply always_bind.
Qed.
End frames.

#[export] Hint Resolve always_ret always_throw always_lift always_gets always_bind always_try_catch
  always_attempt always_when always_for_each : frames.

(** Walks a program construct by construct; [always_modify] and case analyses
    are left to the caller. *)
Ltac frame_step :=
  first [ apply always_bind | apply always_try_catch | apply always_ret | apply always_throw
        | apply always_lift | apply always_gets | apply always_attempt | apply always_when
        | apply always_for_each ].

Ltac frames :=
  repeat first [ assumption | match goal with |- PreOrder _ => apply _ end | progress intros | solve [eauto with frames] | frame_step
               | match goal with |- always _ (match ?x with _ => _ end) => destruct x end ].

(** ** Triples *)

Section triples.
Context {S : Type}.
Implicit Types P : S -> Prop.

Definition ensures {A} P (m : io S A) (Q : A -> S -> Prop) (E : S -> Prop) : Prop :=
  forall s, P s -> match m s with (Ok a, s') => Q a s' | (Err _, s') => E s' end.

Lemma ensures_weaken {A} P P' (m : io S A) (Q Q' : A -> S -> Prop) (E E' : S -> Prop) :
  ensures P' m Q' E' -> (forall s, P s -> P' s) -> (forall a s, Q' a s -> Q a s) -> (forall s, E' s -> E s) -> ensures P m Q E.
Proof. intros Hm HP HQ HE s Hs. specialize (Hm s (HP s Hs)). destruct (m s) as [[a|x] s']; auto. Qed.

Lemma ensures_pre {A} P P' (m : io S A) (Q : A -> S -> Prop) (E : S -> Prop) :
  (forall s, P s -> P' s) -> ensures P' m Q E -> ensures P m Q E.
Proof. intros HP Hm. by apply (ensures_weaken P P' m Q Q E E). Qed.

Lemma ensures_exn {A} P (m : io S A) (Q : A -> S -> Prop) (E E' : S -> Prop) :
  ensures P m Q E' -> (forall s, E' s -> E s) -> ensures P m Q E.
Proof. intros Hm HE. by apply (ensures_weaken P P m Q Q E E'). Qed.

Lemma ensures_ret {A} P (a : A) Q E : (forall s, P s -> Q a s) -> ensures P (mret a) Q E.
Proof. intros HQ s Hs. by apply HQ. Qed.

Lemma ensures_throw {A} P x (Q : A -> S -> Prop) E : (forall s, P s -> E s) -> ensures P (throw x) Q E.
Proof. intros HE s Hs. by apply HE. Qed.

Lemma ensures_lift {A} P (r : result A) Q E :
  (forall a s, r = Ok a -> P s -> Q a s) -> (forall s, P s -> E s) -> ensures P (lift r) Q E.
Proof. intros HQ HE s Hs. unfold lift. destruct r; auto. Qed.

Lemma ensures_gets {A} P (f : S -> A) Q E : (forall s, P s -> Q (f s) s) -> ensures P (gets f) Q E.
Proof. intros HQ s Hs. by apply HQ. Qed.

Lemma ensures_modify P f (Q : unit -> S -> Prop) E : (forall s, P s -> Q () (f s)) -> ensures P (modify f) Q E.
Proof. intros HQ s Hs. by apply HQ. Qed.

Lemma ensures_bind {A B} P (m : io S A) (k : A -> io S B) Q' Q E :
  ensures P m Q' E -> (forall a, ensures (Q' a) (k a) Q E) -> ensures P (m ≫= k) Q E.
Proof.
  intros Hm Hk s Hs. specialize (Hm s Hs). unfold mbind, io_bind. destruct (m s) as [[a|x] s']; [|done]. by apply Hk.
Qed.

Lemma ensures_try_catch {A} P (m : io S A) h Q E' E :
  ensures P m Q E' -> (forall x, ensures E' (h x) Q E) -> ensures P (try_catch m h) Q E.
Proof.
  intros Hm Hh s Hs. specialize (Hm s Hs). unfold try_catch. destruct (m s) as [[a|x] s']; [done|]. by apply Hh.
Qed.

Lemma ensures_for_each {A} P (l : list A) f E :
  (forall x, x ∈ l -> ensures P (f x) (fun _ => P) E) -> ensures P (for_each l f) (fun _ => P) E.
Proof.
  induction l as [|x l IH]; intros Hf; [by apply ensures_ret|]. unfold for_each. cbn [foldr].
  apply (ensures_bind _ _ _ (fun _ => P)); [apply Hf; by left|]. intros _. apply IH. intros y Hy. apply Hf. by right.
Qed.

(** What a precondition says of the initial state can be named. *)
Lemma ensures_at {A} P (m : io S A) Q E : (forall s, P s -> ensures (eq s) m Q E) -> ensures P m Q E.
Proof. intros Hm s Hs. by apply (Hm s Hs). Qed.

Lemma ensures_pure {A} (F : Prop) P (m : io S A) Q E : (F -> ensures P m Q E) -> ensures (fun s => F /\ P s) m Q E.
Proof. intros Hm s [HF Hs]. by apply Hm. Qed.

(** An operation that leaves [R]-related states keeps what [R] keeps. *)
Lemma ensures_always {A} (R : S -> S -> Prop) P (m : io S A) (Q : A -> S -> Prop) E :
  always R m -> (forall s s', R s s' -> P s -> (forall a, Q a s') /\ E s') -> ensures P m Q E.
Proof.
  intros Hm HP s Hs. specialize (Hm s). destruct (m s) as [[a|x] s']; cbn in Hm; by apply (HP s s').
Qed.
End triples.
