(* ===== verification/Codec.v ===== *)
(** * The on-disk codec

    Models [serialization.cppm] (little-endian integers, [ByteWriter],
    [ByteReader]), [types.cppm] (entry types, change markers),
    [util.cppm]'s [narrow] and [Crc32], [data_entry.cppm] (the record of a
    data file) and [hint_entry.cppm] (the record of a hint file).

    The CRC-32C routine is the third-party [crc32c::Extend]; it is the
    operation of the class [Crc32c], and [Crc32cLaws] states what the codec
    relies on.  [Castagnoli] gives a concrete instance. *)

From S2P Require Import Prelude.

(** ** serialization.cppm, util.cppm *)

Module Serialization.

Definition narrow (w v : Z) : result Z :=
  if fitsb w v then Ok v
  else Err (RuntimeError "narrowing conversion out of range").

(** [crc32c::Extend(state, data)]. *)
Class Crc32c : Type := crc32c_extend : Z -> bytes -> Z.

Class Crc32cLaws `{Crc32c} : Prop := {
  crc32c_extend_app s a b :
    crc32c_extend s (a ++ b) = crc32c_extend (crc32c_extend s a) b;
  crc32c_extend_nil s : crc32c_extend s [] = s;
  crc32c_extend_fits s a : fits 32 s -> fits 32 (crc32c_extend s a)
}.

(** The loop of [read_le<T>], [n] being [sizeof(T)].  Reading past the span
    is undefined behaviour in the source; the model reads a zero there and the
    callers' checks keep them inside. *)
Definition read_le (n : nat) (buf : bytes) (offset : nat) : Z :=
  foldl (fun v i => Z.lor v (Z.shiftl (byte_to_Z (buf !!! (offset + i)%nat))
                                      (8 * Z.of_nat i)))
        0 (seq 0 n).

Definition write_le (n : nat) (buf : bytes) (offset : nat) (v : Z) : bytes :=
  foldl (fun b i => <[(offset + i)%nat :=
                        Z_to_byte (Z.land (Z.shiftr v (8 * Z.of_nat i)) 255)]> b)
        buf (seq 0 n).

Definition subspan (b : bytes) (pos n : nat) : bytes := take n (drop pos b).

Record ByteWriter : Type := mkByteWriter {
  bw_buf : bytes;
  bw_pos : nat;
  bw_crc : option Z   (* the optional Crc32 accumulator *)
}.

Definition Crc32_update `{Crc32c} (crc : option Z) (data : bytes) : option Z :=
  (fun s => crc32c_extend s data) <$> crc.

Definition put `{Crc32c} (n : nat) (v : Z) (w : ByteWriter) : ByteWriter :=
  let buf' := write_le n (bw_buf w) (bw_pos w) v in
  mkByteWriter buf' (bw_pos w + n)
    (Crc32_update (bw_crc w) (subspan buf' (bw_pos w) n)).

(** The copy loop of [put_bytes]. *)
Definition put_bytes `{Crc32c} (data : bytes) (w : ByteWriter) : ByteWriter :=
  let buf' := foldl (fun b i => <[(bw_pos w + i)%nat := data !!! i]> b)
                    (bw_buf w) (seq 0 (length data)) in
  mkByteWriter buf' (bw_pos w + length data) (Crc32_update (bw_crc w) data).

Record ByteReader : Type := mkByteReader { br_buf : bytes; br_pos : nat }.

Definition get (n : nat) (r : ByteReader) : Z * ByteReader :=
  (read_le n (br_buf r) (br_pos r), mkByteReader (br_buf r) (br_pos r + n)).

Definition get_bytes (n : nat) (r : ByteReader) : bytes * ByteReader :=
  (subspan (br_buf r) (br_pos r) n, mkByteReader (br_buf r) (br_pos r + n)).

(** *** Reference encodings *)

Fixpoint le_split (n : nat) (v : Z) : bytes :=
  match n with
  | O => []
  | S n => Z_to_byte v :: le_split n (v / 256)
  end.

Fixpoint le_combine (l : bytes) : Z :=
  match l with
  | [] => 0
  | b :: l => byte_to_Z b + 256 * le_combine l
  end.

Lemma length_le_split n v : length (le_split n v) = n.
Proof. revert v; induction n; simpl; auto. Qed.

Lemma le_combine_range l : 0 <= le_combine l < 256 ^ Z.of_nat (length l).
Proof.
  induction l as [|b l IH]; simpl; [lia|].
  pose proof (byte_to_Z_range b).
  rewrite Nat2Z.inj_succ, Z.pow_succ_r by lia. nia.
Qed.

Lemma le_combine_split n v : le_combine (le_split n v) = v mod 256 ^ Z.of_nat n.
Proof.
  revert v; induction n as [|n IH]; intros v; simpl.
  - by rewrite Z.mod_1_r.
  - rewrite IH, byte_to_Z_to_byte, Nat2Z.inj_succ, Z.pow_succ_r by lia.
    rewrite Z.rem_mul_r; lia || (apply Z.pow_pos_nonneg; lia).
Qed.

Lemma le_split_combine l : le_split (length l) (le_combine l) = l.
Proof.
  induction l as [|b l IH]; simpl; [done|].
  pose proof (byte_to_Z_range b) as Hb. f_equal.
  - apply (inj byte_to_Z). rewrite byte_to_Z_to_byte.
    rewrite (Z.mul_comm 256), Z_mod_plus_full. by apply Z.mod_small.
  - rewrite (Z.mul_comm 256), Z.div_add, (Z.div_small _ _ Hb), Z.add_0_l by lia.
    exact IH.
Qed.

Lemma le_combine_split_fits n v :
  fits (8 * Z.of_nat n) v -> le_combine (le_split n v) = v.
Proof.
  intros [??]. rewrite le_combine_split. apply Z.mod_small.
  by rewrite (Z.pow_mul_r 2 8) in * by lia.
Qed.

Lemma le_combine_snoc l b :
  le_combine (l ++ [b]) = le_combine l + 256 ^ Z.of_nat (length l) * byte_to_Z b.
Proof.
  induction l as [|c l IH]; cbn [app le_combine length]; [lia|].
  rewrite IH, Nat2Z.inj_succ, Z.pow_succ_r by lia. nia.
Qed.

Lemma le_split_snoc n v :
  le_split (S n) v = le_split n v ++ [Z_to_byte (v / 256 ^ Z.of_nat n)].
Proof.
  revert v; induction n as [|n IH]; intros v.
  - simpl. by rewrite Z.div_1_r.
  - change (le_split (S (S n)) v) with (Z_to_byte v :: le_split (S n) (v / 256)).
    rewrite IH. cbn [app le_split]. do 3 f_equal.
    rewrite Zdiv.Zdiv_Zdiv, <-Z.pow_succ_r by lia. do 2 f_equal. lia.
Qed.

(** The loops agree with the reference encodings. *)

Lemma lor_add_disjoint a b k :
  0 <= a < 2 ^ k -> 0 <= k -> Z.lor a (Z.shiftl b k) = a + 2 ^ k * b.
Proof.
  intros Ha Hk. pose proof (Z.add_lor_land a (Z.shiftl b k)) as Hadd.
  assert (Z.land a (Z.shiftl b k) = 0) as Hz.
  { apply Z.bits_inj'. intros i Hi. rewrite Z.land_spec, Z.bits_0.
    destruct (Z_lt_le_dec i k).
    - by rewrite Z.shiftl_spec_low, andb_false_r.
    - assert (Z.testbit a i = false) as ->; [|done].
      destruct (Z.eq_dec a 0) as [->|]; [apply Z.bits_0|].
      apply Z.bits_above_log2; [lia|].
      apply Z.log2_lt_pow2; [lia|].
      apply Z.lt_le_trans with (2 ^ k); [lia|]. apply Z.pow_le_mono_r; lia. }
  rewrite Hz, (Z.shiftl_mul_pow2 b k Hk) in Hadd.
  rewrite Z.shiftl_mul_pow2 by done. lia.
Qed.

Lemma read_le_combine n buf off :
  (off + n <= length buf)%nat ->
  read_le n buf off = le_combine (subspan buf off n).
Proof.
  unfold read_le, subspan. induction n as [|n IH]; intros Hlen; [done|].
  rewrite seq_S, foldl_app. simpl foldl at 1. rewrite IH by lia. simpl plus.
  destruct (lookup_lt_is_Some_2 buf (off + n)) as [b Hb]; [lia|].
  rewrite (take_S_r (drop off buf) n b) by (by rewrite lookup_drop).
  rewrite le_combine_snoc, (list_lookup_total_correct _ _ _ Hb).
  pose proof (le_combine_range (take n (drop off buf))) as Hr.
  rewrite length_take, length_drop, Nat.min_l in * by lia.
  assert (2 ^ (8 * Z.of_nat n) = 256 ^ Z.of_nat n) as Hpow
    by (by rewrite Z.pow_mul_r by lia).
  rewrite lor_add_disjoint; rewrite ?Hpow; lia.
Qed.

Lemma subspan_app (pre x post : bytes) off n :
  off = length pre -> n = length x -> subspan (pre ++ x ++ post) off n = x.
Proof. intros -> ->. unfold subspan. by rewrite drop_app_length, take_app_length. Qed.

Lemma subspan_prefix (x post : bytes) n :
  n = length x -> subspan (x ++ post) 0 n = x.
Proof. intros ->. unfold subspan. by rewrite drop_0, take_app_length. Qed.

Lemma subspan_step (l : bytes) off n :
  drop off l = subspan l off n ++ drop (off + n) l.
Proof. unfold subspan. rewrite <-drop_drop. by rewrite take_drop. Qed.

Lemma length_subspan (l : bytes) off n :
  (off + n <= length l)%nat -> length (subspan l off n) = n.
Proof. intros ?. unfold subspan. rewrite length_take, length_drop. lia. Qed.

(** A span of three consecutive fields. *)
Lemma split_fields (l : bytes) a b c :
  length l = (a + b + c)%nat ->
  l = subspan l 0 a ++ subspan l a b ++ drop (a + b) l
  /\ length (subspan l 0 a) = a /\ length (subspan l a b) = b
  /\ length (drop (a + b) l) = c.
Proof.
  intros Hl. split_and!; [|apply length_subspan; lia..|rewrite length_drop; lia].
  rewrite <-subspan_step. apply (subspan_step l 0 a).
Qed.

Lemma le_split_subspan (l : bytes) off n :
  (off + n <= length l)%nat ->
  le_split n (le_combine (subspan l off n)) = subspan l off n.
Proof.
  intros ?. rewrite <-(length_subspan l off n) at 1 by done. apply le_split_combine.
Qed.

Lemma read_le_fits n buf off :
  (off + n <= length buf)%nat -> fits (8 * Z.of_nat n) (read_le n buf off).
Proof.
  intros Hn. rewrite read_le_combine by done.
  pose proof (le_combine_range (subspan buf off n)) as Hr.
  rewrite length_subspan in Hr by done. unfold fits. by rewrite Z.pow_mul_r by lia.
Qed.

(** Reading a field that was laid out between [pre] and [post]. *)
Lemma read_le_field (pre post : bytes) buf off n v :
  buf = pre ++ le_split n v ++ post -> off = length pre ->
  fits (8 * Z.of_nat n) v -> read_le n buf off = v.
Proof.
  intros -> -> Hv. rewrite read_le_combine by (rewrite !length_app, length_le_split; lia).
  rewrite subspan_app by by rewrite ?length_le_split. by apply le_combine_split_fits.
Qed.

(** A loop that stores [f 0 .. f (n-1)] at consecutive places. *)
Lemma foldl_insert_seq (f : nat -> byte) n buf off :
  (off + n <= length buf)%nat ->
  foldl (fun b i => <[(off + i)%nat := f i]> b) buf (seq 0 n)
  = take off buf ++ (f <$> seq 0 n) ++ drop (off + n) buf.
Proof.
  induction n as [|n IH]; intros Hlen.
  - simpl. by rewrite Nat.add_0_r, take_drop.
  - rewrite seq_S, foldl_app, fmap_app. cbn [foldl]. rewrite IH by lia.
    destruct (lookup_lt_is_Some_2 buf (off + n)) as [b Hb]; [lia|].
    rewrite (drop_S buf b (off + n)) by done.
    rewrite !(assoc_L (++)), Nat.add_0_l.
    rewrite insert_app_r_alt by (rewrite !length_app, length_take, length_fmap, length_seq; lia).
    rewrite !length_app, length_take, length_fmap, length_seq.
    replace (off + n - (off `min` length buf + n))%nat with 0%nat by lia.
    rewrite Nat.add_succ_r. simpl. by rewrite <-!(assoc_L (++)).
Qed.

Lemma le_split_seq n v :
  le_split n v = (fun i => Z_to_byte (Z.land (Z.shiftr v (8 * Z.of_nat i)) 255)) <$> seq 0 n.
Proof.
  induction n as [|n IH]; [done|]. rewrite le_split_snoc, seq_S, fmap_app, IH. simpl.
  do 2 f_equal. apply byte_to_Z_inj. rewrite !byte_to_Z_to_byte.
  rewrite (Z.land_ones _ 8), Zmod_mod, Z.shiftr_div_pow2, Z.pow_mul_r by lia. done.
Qed.

Lemma write_le_split n buf off v :
  (off + n <= length buf)%nat ->
  write_le n buf off v = take off buf ++ le_split n v ++ drop (off + n) buf.
Proof. intros ?. unfold write_le. by rewrite foldl_insert_seq, <-le_split_seq. Qed.

Lemma lookup_total_seq (data : bytes) :
  (fun i => data !!! i) <$> seq 0 (length data) = data.
Proof.
  apply list_eq. intros i. rewrite list_lookup_fmap.
  destruct (decide (i < length data)%nat).
  - rewrite lookup_seq_lt by done. simpl. by rewrite <-list_lookup_lookup_total_lt.
  - rewrite lookup_seq_ge, (lookup_ge_None_2 data) by lia. done.
Qed.

#[global] Arguments le_split : simpl never.
#[global] Arguments read_le : simpl never.
#[global] Arguments write_le : simpl never.
#[global] Arguments subspan : simpl never.
#[global] Arguments put : simpl never.
#[global] Arguments put_bytes : simpl never.

(** Closes the side conditions of a byte layout. *)
Ltac layout :=
  rewrite ?length_app, ?length_le_split, <-?(assoc_L (++)); cbn [length app];
  first [reflexivity | lia].

(** What a writer holds: [d] written so far of [t] bytes, CRC state [c]. *)
Definition writes (w : ByteWriter) (t : nat) (d : bytes) (c : option Z) : Prop :=
  length (bw_buf w) = t /\ bw_pos w = length d /\
  take (length d) (bw_buf w) = d /\ bw_crc w = c.

Lemma writes_init t c : writes (mkByteWriter (replicate t x00) 0 c) t [] c.
Proof. repeat split; simpl. apply length_replicate. Qed.

Lemma writes_done w t d c : writes w t d c -> length d = t -> bw_buf w = d.
Proof.
  intros (Hl & _ & Ht & _) Hd. rewrite Hd, <-Hl, take_ge in Ht by lia. done.
Qed.

Section writer.
Context `{Crc32c}.

Lemma writes_step w t d c x :
  writes w t d c -> (length d + length x <= t)%nat ->
  writes (mkByteWriter (take (bw_pos w) (bw_buf w) ++ x ++
                        drop (bw_pos w + length x) (bw_buf w))
                       (bw_pos w + length x) (Crc32_update (bw_crc w) x))
         t (d ++ x) (Crc32_update c x).
Proof.
  intros (Hl & Hp & Ht & Hc) Hlen. rewrite Hp, Hc, Ht. repeat split; simpl.
  - rewrite !length_app, length_drop. lia.
  - by rewrite length_app.
  - by rewrite (assoc_L (++)), take_app_length.
Qed.

Lemma put_writes w t d c n v :
  writes w t d c -> (length d + n <= t)%nat ->
  writes (put n v w) t (d ++ le_split n v) (Crc32_update c (le_split n v)).
Proof.
  intros Hw Hlen. assert (Hw' := Hw). destruct Hw' as (Hl & Hp & Ht & Hc).
  pose proof (writes_step w t d c (le_split n v) Hw) as Hs.
  rewrite length_le_split in Hs. unfold put.
  rewrite !write_le_split by lia.
  assert (subspan (take (bw_pos w) (bw_buf w) ++ le_split n v ++
            drop (bw_pos w + n) (bw_buf w)) (bw_pos w) n = le_split n v) as ->.
  { unfold subspan. rewrite drop_app_length'; [|rewrite length_take; lia].
    rewrite take_app_length'; [done|]. by rewrite length_le_split. }
  auto.
Qed.

Lemma put_bytes_writes w t d c x :
  writes w t d c -> (length d + length x <= t)%nat ->
  writes (put_bytes x w) t (d ++ x) (Crc32_update c x).
Proof.
  intros Hw Hlen. unfold put_bytes.
  assert (Hw' := Hw). destruct Hw' as (Hl & Hp & Ht & Hc).
  rewrite foldl_insert_seq, lookup_total_seq by lia. by apply writes_step.
Qed.

End writer.

End Serialization.

(** ** types.cppm *)

Module Types.

(** The discriminant of an entry.  The enum's underlying type is [uint8_t],
    so a byte outside the known set is a value too: [Unassigned]. *)
Inductive EntryType : Type :=
| Put | Delete | BulkBegin | BulkEnd | RangeDel | EChangeMarker
| Unassigned (raw : Z).

#[export] Instance EntryType_eq_dec : EqDecision EntryType.
Proof. solve_decision. Defined.

(** [static_cast<EntryType>(u8)] and back. *)
Definition entry_type_of_u8 (b : Z) : EntryType :=
  match b with
  | 1 => Put | 2 => Delete | 3 => BulkBegin | 4 => BulkEnd
  | 5 => RangeDel | 6 => EChangeMarker | _ => Unassigned b
  end.

Definition u8_of_entry_type (t : EntryType) : Z :=
  match t with
  | Put => 1 | Delete => 2 | BulkBegin => 3 | BulkEnd => 4
  | RangeDel => 5 | EChangeMarker => 6 | Unassigned b => b
  end.

Definition is_known_entry_type (t : EntryType) : bool :=
  match t with
  | Put | Delete | BulkBegin | BulkEnd | RangeDel | EChangeMarker => true
  | Unassigned _ => false
  end.

Record ChangeMarker : Type := mkChangeMarker {
  since_sequence : Z;
  id : Z
}.

#[export] Instance ChangeMarker_eq_dec : EqDecision ChangeMarker.
Proof. solve_decision. Defined.

Definition kOriginMarker : ChangeMarker := mkChangeMarker 0 0.

Record ChangeHeader : Type := mkChangeHeader {
  ch_marker : ChangeMarker;
  from_sequence : Z
}.

Definition kChangeMarkerIdBytes : nat := 8.

Definition encode_marker_id (id : Z) : bytes :=
  (fun i => Z_to_byte (Z.land (Z.shiftr id (8 * Z.of_nat i)) 255))
    <$> seq 0 kChangeMarkerIdBytes.

(** The loop stops at 8 bytes or at the end of the value. *)
Definition decode_marker_id (value : bytes) : Z :=
  foldl (fun id i => Z.lor id (Z.shiftl (byte_to_Z (value !!! i)) (8 * Z.of_nat i)))
        0 (seq 0 (kChangeMarkerIdBytes `min` length value)).

Definition kUnlimitedBytes : Z := 2 ^ 64 - 1.

Inductive Mode : Type := Leader | Follower.

#[export] Instance Mode_eq_dec : EqDecision Mode.
Proof. solve_decision. Defined.

(** [DataEntryView]/[DataEntry]: an entry, as a view or owned. *)
Record DataEntry : Type := mkDataEntry {
  de_sequence : Z;
  de_type : EntryType;
  de_key : bytes;
  de_value : bytes
}.

#[export] Instance DataEntry_eq_dec : EqDecision DataEntry.
Proof. solve_decision. Defined.

Lemma entry_type_u8_known t :
  is_known_entry_type t = true -> entry_type_of_u8 (u8_of_entry_type t) = t.
Proof. by destruct t. Qed.

Lemma u8_entry_type b : u8_of_entry_type (entry_type_of_u8 b) = b.
Proof. destruct b as [|p|p]; [done| |done]. do 3 (destruct p; try done). Qed.

Lemma u8_of_known_fits t :
  is_known_entry_type t = true -> fits 8 (u8_of_entry_type t).
Proof. by destruct t. Qed.

Lemma encode_marker_id_split i : encode_marker_id i = Serialization.le_split 8 i.
Proof. unfold encode_marker_id. by rewrite Serialization.le_split_seq. Qed.

Lemma decode_marker_id_combine v :
  length v = 8%nat -> decode_marker_id v = Serialization.le_combine v.
Proof.
  intros Hv. unfold decode_marker_id. rewrite Hv.
  pose proof (Serialization.read_le_combine 8 v 0) as Hr.
  unfold Serialization.read_le, Serialization.subspan in Hr.
  rewrite drop_0, take_ge in Hr by lia. apply Hr. lia.
Qed.

Lemma decode_encode_marker_id i :
  fits 64 i -> decode_marker_id (encode_marker_id i) = i.
Proof.
  intros Hi. rewrite encode_marker_id_split, decode_marker_id_combine;
    [|apply Serialization.length_le_split].
  by apply Serialization.le_combine_split_fits.
Qed.

End Types.

(** ** data_entry.cppm *)

Module DataEntry.
Import Serialization Types.

Record EntryHeader : Type := mkEntryHeader {
  sequence : Z;
  entry_type : EntryType;
  key_size : Z;
  value_size : Z
}.

#[export] Instance EntryHeader_eq_dec : EqDecision EntryHeader.
Proof. solve_decision. Defined.

Definition kHeaderSize : nat := 15.
Definition kEntryTypeOffset : nat := 8.
Definition kCrcSize : nat := 4.
Definition kInlineValueBytes : Z := 4096.

Definition read_header (buf : bytes) : EntryHeader :=
  let r := mkByteReader buf 0 in
  let '(seq, r) := get 8 r in
  let '(ty, r) := get 1 r in
  let '(ks, r) := get 2 r in
  let '(vs, _) := get 4 r in
  mkEntryHeader seq (entry_type_of_u8 ty) ks vs.

Section codec.
Context `{Crc32c}.

(** Fills the 19-byte scratch: the header, then the CRC of header, key and
    value. *)
Definition write_header_and_crc (hdr_crc : bytes) (sequence : Z) (et : EntryType)
    (key value : bytes) : result bytes :=
  let w := mkByteWriter hdr_crc 0 (Some 0) in
  let w := put 8 sequence w in
  let w := put 1 (u8_of_entry_type et) w in
  ks ← narrow 16 (size key);
  let w := put 2 ks w in
  vs ← narrow 32 (size value);
  let w := put 4 vs w in
  let crc := Crc32_update (Crc32_update (bw_crc w) key) value in
  let w := put 4 (default 0 crc) (mkByteWriter (bw_buf w) (bw_pos w) crc) in
  Ok (bw_buf w).

Definition record_bytes (e : Types.DataEntry) : Z :=
  Z.of_nat kHeaderSize + size (de_key e) + size (de_value e) + Z.of_nat kCrcSize.

Definition inline_bytes (e : Types.DataEntry) : Z :=
  if size (de_value e) <=? kInlineValueBytes then record_bytes e
  else record_bytes e - size (de_value e).

Definition serialize_entry (sequence : Z) (et : EntryType) (key value : bytes)
    : result bytes :=
  hdr_crc ← write_header_and_crc (replicate (kHeaderSize + kCrcSize) x00)
              sequence et key value;
  let total := (kHeaderSize + length key + length value + kCrcSize)%nat in
  let w := mkByteWriter (replicate total x00) 0 None in
  let w := put_bytes (subspan hdr_crc 0 kHeaderSize) w in
  let w := put_bytes key w in
  let w := put_bytes value w in
  let w := put_bytes (subspan hdr_crc kHeaderSize kCrcSize) w in
  Ok (bw_buf w).

Definition crc_matches (record : bytes) : bool :=
  if (length record <? kCrcSize)%nat then false
  else crc32c_extend 0 (subspan record 0 (length record - kCrcSize))
       =? read_le 4 record (length record - kCrcSize).

Definition parse_header_and_verify (buf : bytes) : result EntryHeader :=
  if (length buf <? kHeaderSize + kCrcSize)%nat then
    Err (RuntimeError "parse_header_and_verify: buffer too small")
  else
  let header := read_header buf in
  if negb (is_known_entry_type (entry_type header)) then
    Err (RuntimeError "parse_header_and_verify: unknown entry type")
  else if bool_decide (entry_type header = EChangeMarker) &&
     (negb (key_size header =? 0) ||
      negb (value_size header =? Z.of_nat kChangeMarkerIdBytes)) then
    Err (RuntimeError "parse_header_and_verify: malformed change marker")
  else if negb (size buf =? Z.of_nat kHeaderSize + key_size header
                            + value_size header + Z.of_nat kCrcSize) then
    Err (RuntimeError "parse_header_and_verify: buffer size mismatch")
  else if negb (crc_matches buf) then
    Err (RuntimeError "parse_header_and_verify: CRC mismatch")
  else Ok header.

Definition deserialize_entry (buf : bytes) : result Types.DataEntry :=
  h ← parse_header_and_verify buf;
  let r := mkByteReader (drop kHeaderSize buf) 0 in
  let '(key, r) := get_bytes (Z.to_nat (key_size h)) r in
  let '(val, _) := get_bytes (Z.to_nat (value_size h)) r in
  Ok (mkDataEntry (sequence h) (entry_type h) key val).

End codec.

(** *** The bytes of a record, and its well-formedness *)

Definition header_image (sequence : Z) (et : EntryType) (ks vs : Z) : bytes :=
  le_split 8 sequence ++ le_split 1 (u8_of_entry_type et)
  ++ le_split 2 ks ++ le_split 4 vs.

Definition body_image (e : Types.DataEntry) : bytes :=
  header_image (de_sequence e) (de_type e) (size (de_key e)) (size (de_value e))
  ++ de_key e ++ de_value e.

Definition entry_image `{Crc32c} (e : Types.DataEntry) : bytes :=
  body_image e ++ le_split 4 (crc32c_extend 0 (body_image e)).

Record valid_entry (e : Types.DataEntry) : Prop := {
  ve_sequence : fits 64 (de_sequence e);
  ve_type : is_known_entry_type (de_type e) = true;
  ve_key : fits 16 (size (de_key e));
  ve_value : fits 32 (size (de_value e));
  ve_marker : de_type e = EChangeMarker -> de_key e = [] /\ length (de_value e) = 8%nat
}.

Lemma length_header_image s t k v : length (header_image s t k v) = kHeaderSize.
Proof. unfold header_image. by rewrite !length_app, !length_le_split. Qed.

Lemma read_header_image s t k v rest :
  fits 64 s -> is_known_entry_type t = true -> fits 16 k -> fits 32 v ->
  read_header (header_image s t k v ++ rest) = mkEntryHeader s t k v.
Proof.
  intros Hs Ht Hk Hv. unfold read_header, header_image, get; cbn [br_buf br_pos Nat.add].
  f_equal.
  - by apply (read_le_field [] (le_split 1 (u8_of_entry_type t) ++ le_split 2 k
      ++ le_split 4 v ++ rest)); [layout| |].
  - rewrite <-(entry_type_u8_known t) at 2 by done. f_equal.
    apply (read_le_field (le_split 8 s) (le_split 2 k ++ le_split 4 v ++ rest));
      [layout|layout|by apply u8_of_known_fits].
  - by apply (read_le_field (le_split 8 s ++ le_split 1 (u8_of_entry_type t))
      (le_split 4 v ++ rest)); [layout|layout|].
  - by apply (read_le_field (le_split 8 s ++ le_split 1 (u8_of_entry_type t)
      ++ le_split 2 k) rest); [layout|layout|].
Qed.

(** Any 15 bytes or more are the image of the header read from them. *)
Lemma header_image_read buf :
  (kHeaderSize <= length buf)%nat ->
  let h := read_header buf in
  buf = header_image (sequence h) (entry_type h) (key_size h) (value_size h)
        ++ drop kHeaderSize buf
  /\ fits 64 (sequence h) /\ fits 16 (key_size h) /\ fits 32 (value_size h).
Proof.
  unfold kHeaderSize. intros Hlen. unfold read_header, get, header_image; cbn [br_buf br_pos Nat.add].
  cbn [sequence entry_type key_size value_size].
  rewrite u8_entry_type. split_and!;
    [|apply (read_le_fits 8); lia|apply (read_le_fits 2); lia|apply (read_le_fits 4); lia].
  rewrite !read_le_combine, !le_split_subspan by lia. rewrite <-!(assoc_L (++)).
  etrans; [apply (subspan_step buf 0 8)|f_equal].
  etrans; [apply (subspan_step buf 8 1)|f_equal].
  etrans; [apply (subspan_step buf 9 2)|f_equal].
  apply (subspan_step buf 11 4).
Qed.

Ltac entry_layout := rewrite ?length_app, ?length_header_image; unfold kHeaderSize, kCrcSize in *; layout.

Section laws.
Context `{Crc32cLaws}.

Lemma write_header_and_crc_image s t k v :
  fits 16 (size k) -> fits 32 (size v) ->
  write_header_and_crc (replicate (kHeaderSize + kCrcSize) x00) s t k v
  = Ok (header_image s t (size k) (size v)
        ++ le_split 4 (crc32c_extend 0 (body_image (mkDataEntry s t k v)))).
Proof.
  intros Hk Hv. unfold write_header_and_crc, narrow.
  rewrite (proj2 (fitsb_true 16 _) Hk), (proj2 (fitsb_true 32 _) Hv).
  monad_simpl. f_equal.
  pose proof (writes_init (kHeaderSize + kCrcSize) (Some 0)) as W.
  apply (put_writes _ _ _ _ 8 s) in W; [|entry_layout].
  apply (put_writes _ _ _ _ 1 (u8_of_entry_type t)) in W; [|entry_layout].
  apply (put_writes _ _ _ _ 2 (size k)) in W; [|entry_layout].
  apply (put_writes _ _ _ _ 4 (size v)) in W; [|entry_layout].
  set (w4 := put 4 (size v) _) in *.
  replace ((_ ++ le_split 2 _) ++ le_split 4 _) with (header_image s t (size k) (size v))
    in W by (unfold header_image; by rewrite <-!(assoc_L (++))).
  destruct W as (W1 & W2 & W3 & W4).
  set (crc := Crc32_update (Crc32_update (bw_crc w4) k) v).
  assert (W : writes (mkByteWriter (bw_buf w4) (bw_pos w4) crc) (kHeaderSize + kCrcSize)
                     (header_image s t (size k) (size v)) crc).
  { by unfold writes. }
  apply (put_writes _ _ _ _ 4 (default 0 crc)) in W;
    [|rewrite length_header_image; entry_layout].
  rewrite (writes_done _ _ _ _ W); [|rewrite length_app, length_header_image; entry_layout].
  do 2 f_equal. unfold crc. rewrite W4. simpl.
  rewrite <-!crc32c_extend_app. unfold body_image, header_image. cbn.
  by rewrite <-!(assoc_L (++)).
Qed.

Lemma serialize_entry_image e :
  fits 16 (size (de_key e)) -> fits 32 (size (de_value e)) ->
  serialize_entry (de_sequence e) (de_type e) (de_key e) (de_value e)
  = Ok (entry_image e).
Proof.
  destruct e as [s t k v]; simpl. intros Hk Hv. unfold serialize_entry.
  rewrite write_header_and_crc_image by done. monad_simpl. f_equal.
  set (h := header_image _ _ _ _). set (c := le_split 4 _).
  assert (Hh : length h = kHeaderSize) by apply length_header_image.
  assert (Hc : length c = kCrcSize) by apply length_le_split.
  assert (subspan (h ++ c) 0 kHeaderSize = h) as -> by (by apply subspan_prefix).
  assert (subspan (h ++ c) kHeaderSize kCrcSize = c) as ->
    by (rewrite <-(app_nil_r c) at 1; by apply subspan_app).
  set (total := (_ + _)%nat). pose proof (writes_init total None) as W.
  apply (put_bytes_writes _ _ _ _ h) in W; [|entry_layout].
  apply (put_bytes_writes _ _ _ _ k) in W; [|entry_layout].
  apply (put_bytes_writes _ _ _ _ v) in W; [|entry_layout].
  apply (put_bytes_writes _ _ _ _ c) in W; [|entry_layout].
  rewrite (writes_done _ _ _ _ W) by entry_layout.
  unfold entry_image, body_image. simpl. by rewrite <-!(assoc_L (++)).
Qed.

Lemma crc_matches_spec body c :
  crc_matches (body ++ le_split 4 c) = true <-> crc32c_extend 0 body = wrap 32 c.
Proof.
  unfold crc_matches. rewrite length_app, length_le_split.
  rewrite (proj2 (Nat.ltb_ge _ _)) by (unfold kCrcSize; lia).
  replace (length body + 4 - kCrcSize)%nat with (length body) by (unfold kCrcSize; lia).
  rewrite subspan_prefix by done.
  rewrite read_le_combine by (rewrite length_app, length_le_split; lia).
  rewrite <-(app_nil_r (le_split 4 c)), subspan_app by by rewrite ?length_le_split.
  rewrite le_combine_split, Z.eqb_eq. done.
Qed.

Lemma size_body_image e :
  length (body_image e) = (kHeaderSize + length (de_key e) + length (de_value e))%nat.
Proof. unfold body_image. entry_layout. Qed.

Lemma deserialize_image e : valid_entry e -> deserialize_entry (entry_image e) = Ok e.
Proof.
  intros [Hs Ht Hk Hv Hm]. destruct e as [s t k v]; simpl in *.
  unfold deserialize_entry, parse_header_and_verify.
  assert (Hlen : length (entry_image (mkDataEntry s t k v)) =
    (kHeaderSize + length k + length v + kCrcSize)%nat).
  { unfold entry_image. rewrite length_app, size_body_image. entry_layout. }
  rewrite (proj2 (Nat.ltb_ge _ _)) by lia.
  assert (Hh : read_header (entry_image (mkDataEntry s t k v))
               = mkEntryHeader s t (size k) (size v)).
  { unfold entry_image, body_image; simpl. rewrite <-!(assoc_L (++)).
    by apply read_header_image. }
  rewrite Hh. cbn [entry_type key_size value_size sequence]. rewrite Ht. cbn [negb].
  assert (bool_decide (t = EChangeMarker) && (negb (size k =? 0)
    || negb (size v =? Z.of_nat kChangeMarkerIdBytes)) = false) as ->.
  { case_bool_decide as Et; [|done]. destruct (Hm Et) as [-> Hlv].
    unfold size. by rewrite Hlv. }
  assert (size (entry_image (mkDataEntry s t k v)) = Z.of_nat kHeaderSize + size k
            + size v + Z.of_nat kCrcSize) as -> by (unfold size; lia).
  rewrite Z.eqb_refl.
  assert (crc_matches (entry_image (mkDataEntry s t k v)) = true) as ->.
  { apply crc_matches_spec. symmetry. by apply wrap_small, crc32c_extend_fits. }
  monad_simpl. unfold get_bytes.
  cbn [negb br_buf br_pos sequence entry_type key_size value_size Nat.add].
  unfold size at 1 2 3. rewrite !Nat2Z.id.
  unfold entry_image, body_image; cbn [de_key de_value de_sequence de_type].
  rewrite <-!(assoc_L (++)), drop_app_length' by (by rewrite length_header_image).
  rewrite subspan_prefix by done. by rewrite subspan_app.
Qed.

Lemma deserialize_ok_image buf e :
  deserialize_entry buf = Ok e -> valid_entry e /\ buf = entry_image e.
Proof.
  unfold deserialize_entry, parse_header_and_verify.
  destruct (Nat.ltb_spec (length buf) (kHeaderSize + kCrcSize)); [done|].
  destruct (header_image_read buf) as (Hb & Hs & Hk & Hv); [lia|].
  set (h := read_header buf) in *.
  destruct (is_known_entry_type (entry_type h)) eqn:Ht; [|done]. cbn [negb].
  destruct (bool_decide _ && _) eqn:Hm; [done|].
  destruct (Z.eqb_spec (size buf) (Z.of_nat kHeaderSize + key_size h + value_size h
    + Z.of_nat kCrcSize)) as [Hsz|]; [|done]. cbn [negb].
  destruct (crc_matches buf) eqn:Hcrc; [|done]. monad_simpl. unfold get_bytes.
  cbn [negb br_buf br_pos Nat.add]. intros He%(inj Ok).
  set (rest := drop kHeaderSize buf) in *. unfold size in Hsz.
  assert (Hrest : length rest = (Z.to_nat (key_size h) + Z.to_nat (value_size h) + kCrcSize)%nat).
  { unfold rest. rewrite length_drop. unfold fits in *. lia. }
  destruct (split_fields rest _ _ _ Hrest) as (R & Hkl & Hvl & Hcl).
  change kCrcSize with 4%nat in Hcl.
  set (k := subspan rest 0 _) in *. set (v := subspan rest (Z.to_nat (key_size h)) _) in *.
  set (c := drop (Z.to_nat (key_size h) + Z.to_nat (value_size h)) rest) in *.
  assert (Hks : size k = key_size h) by (unfold size, fits in *; lia).
  assert (Hvs : size v = value_size h) by (unfold size, fits in *; lia).
  subst e. set (e := mkDataEntry (sequence h) (entry_type h) k v).
  assert (Hbody : buf = body_image e ++ le_split 4 (le_combine c)).
  { rewrite <-Hcl, le_split_combine. unfold body_image, e.
    cbn [de_key de_value de_type de_sequence]. rewrite Hks, Hvs.
    rewrite <-!(assoc_L (++)), <-R. exact Hb. }
  split.
  - split; unfold e; cbn [de_key de_value de_type de_sequence]; rewrite ?Hks, ?Hvs; auto. intros Et.
    rewrite bool_decide_true in Hm by done. rewrite andb_true_l in Hm. bool_to_prop.
    split; [apply nil_length_inv|]; unfold kChangeMarkerIdBytes in *; lia.
  - rewrite Hbody in Hcrc |- *. apply crc_matches_spec in Hcrc.
    unfold entry_image. f_equal. rewrite Hcrc. f_equal. symmetry. apply wrap_small.
    pose proof (le_combine_range c) as Hr. by rewrite Hcl in Hr.
Qed.

Lemma serialize_entry_cases e :
  serialize_entry (de_sequence e) (de_type e) (de_key e) (de_value e)
  = if fitsb 16 (size (de_key e)) && fitsb 32 (size (de_value e))
    then Ok (entry_image e)
    else Err (RuntimeError "narrowing conversion out of range").
Proof.
  destruct (fitsb 16 (size (de_key e))) eqn:Hk;
    [destruct (fitsb 32 (size (de_value e))) eqn:Hv|]; simpl.
  - apply serialize_entry_image; by apply fitsb_true.
  - unfold serialize_entry, write_header_and_crc, narrow. by rewrite Hk, Hv.
  - unfold serialize_entry, write_header_and_crc, narrow. by rewrite Hk.
Qed.

(** C9: the data record codec is exact.  A buffer deserializes to an entry
    exactly when the entry is well formed (64-bit sequence, known type, key
    and value within their length fields, a change marker of its fixed shape)
    and serializing the entry gives that buffer: every record written reads
    back, and nothing but a written record is accepted. *)
Theorem deserialize_serialize_iff buf e :
  deserialize_entry buf = Ok e <->
  valid_entry e /\
  serialize_entry (de_sequence e) (de_type e) (de_key e) (de_value e) = Ok buf.
Proof.
  split.
  - intros [Hv ->]%deserialize_ok_image. split; [done|].
    apply serialize_entry_image; apply Hv.
  - intros [Hv Hs]. rewrite serialize_entry_image in Hs by apply Hv.
    injection Hs as <-. by apply deserialize_image.
Qed.

(** C10: [serialize_entry] is total up to its length fields.  It returns a
    buffer of exactly [record_bytes] bytes when key and value fit their 16-
    and 32-bit length fields, and throws the narrowing error otherwise. *)
Theorem serialize_entry_size e :
  match serialize_entry (de_sequence e) (de_type e) (de_key e) (de_value e) with
  | Ok buf => fits 16 (size (de_key e)) /\ fits 32 (size (de_value e))
              /\ size buf = record_bytes e
  | Err x => x = RuntimeError "narrowing conversion out of range"
             /\ ~ (fits 16 (size (de_key e)) /\ fits 32 (size (de_value e)))
  end.
Proof.
  rewrite serialize_entry_cases.
  pose proof (fitsb_true 16 (size (de_key e))). pose proof (fitsb_true 32 (size (de_value e))).
  destruct (fitsb 16 _), (fitsb 32 _); simpl; split_and?; try naive_solver.
  unfold record_bytes, size, entry_image. rewrite length_app, size_body_image, length_le_split.
  unfold kCrcSize. lia.
Qed.
End laws.

End DataEntry.

(** ** hint_entry.cppm *)

Module HintEntry.
Import Serialization Types.

Record HintEntry : Type := mkHintEntry {
  sequence : Z;
  entry_type : EntryType;
  file_offset : Z;
  key : bytes;
  value_size : Z;
  end_key : bytes;    (* non-empty only for RangeDel *)
  marker_id : Z       (* non-zero only for ChangeMarker *)
}.

#[export] Instance HintEntry_eq_dec : EqDecision HintEntry.
Proof. solve_decision. Defined.

Definition kHintHeaderSize : nat := 23.

(** A hint record carries no CRC of its own: the writer has no accumulator. *)
#[local] Instance no_crc : Crc32c := fun s _ => s.

Definition serialize_entry (sequence : Z) (et : EntryType) (file_offset value_size : Z)
    (key : bytes) : result bytes :=
  let w := mkByteWriter (replicate (kHintHeaderSize + length key) x00) 0 None in
  let w := put 8 sequence w in
  let w := put 1 (u8_of_entry_type et) w in
  let w := put 8 file_offset w in
  let w := put 4 value_size w in
  kl ← narrow 16 (size key);
  let w := put 2 kl w in
  Ok (bw_buf (put_bytes key w)).

Definition serialize_range_del_entry (sequence file_offset : Z)
    (start_key end_key : bytes) : result bytes :=
  let base_size := (kHintHeaderSize + length start_key)%nat in
  let end_key_trailer := (2 + length end_key)%nat in
  let w := mkByteWriter (replicate (base_size + end_key_trailer) x00) 0 None in
  let w := put 8 sequence w in
  let w := put 1 (u8_of_entry_type RangeDel) w in
  let w := put 8 file_offset w in
  vs ← narrow 32 (size end_key);
  let w := put 4 vs w in
  kl ← narrow 16 (size start_key);
  let w := put_bytes start_key (put 2 kl w) in
  el ← narrow 16 (size end_key);
  Ok (bw_buf (put_bytes end_key (put 2 el w))).

Definition serialize_change_marker_entry (sequence file_offset id : Z) : bytes :=
  let w := mkByteWriter (replicate (kHintHeaderSize + 8) x00) 0 None in
  let w := put 8 sequence w in
  let w := put 1 (u8_of_entry_type EChangeMarker) w in
  let w := put 8 file_offset w in
  let w := put 4 (Z.of_nat kChangeMarkerIdBytes) w in
  let w := put 2 0 w in
  bw_buf (put 8 id w).

(** The RangeDel trailer: the end key and the bytes consumed so far. *)
Definition range_del_trailer (buf : bytes) (total : nat) : result (bytes * nat) :=
  if (length buf <? total + 2)%nat then
    Err (RuntimeError "deserialize_entry (hint): truncated RangeDel end_key_len")
  else
  let end_key_len := Z.to_nat (read_le 2 buf total) in
  let total' := (total + (2 + end_key_len))%nat in
  if (length buf <? total')%nat then
    Err (RuntimeError "deserialize_entry (hint): truncated RangeDel end_key")
  else Ok (subspan buf (total + 2) end_key_len, total').

Definition change_marker_trailer (buf : bytes) (total : nat) (key_len value_size : Z)
    : result (Z * nat) :=
  if negb (key_len =? 0) || negb (value_size =? Z.of_nat kChangeMarkerIdBytes) then
    Err (RuntimeError "deserialize_entry (hint): malformed ChangeMarker entry")
  else if (length buf <? total + 8)%nat then
    Err (RuntimeError "deserialize_entry (hint): truncated ChangeMarker id")
  else Ok (read_le 8 buf total, (total + 8)%nat).

Definition deserialize_entry (buf : bytes) : result (HintEntry * nat) :=
  if (length buf <? kHintHeaderSize)%nat then
    Err (RuntimeError "deserialize_entry (hint): truncated header")
  else
  let '(sequence, r) := get 8 (mkByteReader buf 0) in
  let '(et, r) := get 1 r in
  let entry_type := entry_type_of_u8 et in
  let '(file_offset, r) := get 8 r in
  let '(value_size, r) := get 4 r in
  let '(key_len, _) := get 2 r in
  let total := (kHintHeaderSize + Z.to_nat key_len)%nat in
  if (length buf <? total)%nat then
    Err (RuntimeError "deserialize_entry (hint): truncated entry")
  else
  let key_span := subspan buf kHintHeaderSize (Z.to_nat key_len) in
  '(end_key_span, total) ←
    (if decide (entry_type = RangeDel) then range_del_trailer buf total
     else Ok ([], total));
  '(marker_id, total) ←
    (if decide (entry_type = EChangeMarker)
     then change_marker_trailer buf total key_len value_size
     else Ok (0, total));
  Ok (mkHintEntry sequence entry_type file_offset key_span value_size
        end_key_span marker_id, total).

(** *** The bytes of a hint record *)

Definition hint_image (s : Z) (et : EntryType) (off vs kl : Z) (tail : bytes) : bytes :=
  le_split 8 s ++ le_split 1 (u8_of_entry_type et) ++ le_split 8 off
  ++ le_split 4 vs ++ le_split 2 kl ++ tail.

(** Which bytes the serializers give for an entry. *)
Inductive serializes : HintEntry -> bytes -> Prop :=
| serializes_point s et off vs k buf :
    et <> RangeDel -> et <> EChangeMarker ->
    serialize_entry s et off vs k = Ok buf ->
    serializes (mkHintEntry s et off k vs [] 0) buf
| serializes_range_del s off k ek buf :
    serialize_range_del_entry s off k ek = Ok buf ->
    serializes (mkHintEntry s RangeDel off k (size ek) ek 0) buf
| serializes_marker s off i :
    serializes (mkHintEntry s EChangeMarker off [] 8 [] i)
               (serialize_change_marker_entry s off i).

Record valid_hint (h : HintEntry) : Prop := {
  vh_sequence : fits 64 (sequence h);
  vh_type : is_known_entry_type (entry_type h) = true;
  vh_offset : fits 64 (file_offset h);
  vh_value_size : fits 32 (value_size h);
  vh_marker_id : fits 64 (marker_id h)
}.

Lemma header_writes s et off vs kl t :
  (kHintHeaderSize <= t)%nat ->
  writes (put 2 kl (put 4 vs (put 8 off (put 1 (u8_of_entry_type et)
           (put 8 s (mkByteWriter (replicate t x00) 0 None))))))
    t (hint_image s et off vs kl []) None.
Proof.
  unfold kHintHeaderSize. intros Ht. pose proof (writes_init t None) as W.
  apply (put_writes _ _ _ _ 8 s) in W; [|layout].
  apply (put_writes _ _ _ _ 1 (u8_of_entry_type et)) in W; [|layout].
  apply (put_writes _ _ _ _ 8 off) in W; [|layout].
  apply (put_writes _ _ _ _ 4 vs) in W; [|layout].
  apply (put_writes _ _ _ _ 2 kl) in W; [|layout].
  rewrite <-!(assoc_L (++)) in W. unfold hint_image. rewrite app_nil_r. exact W.
Qed.

Lemma length_hint_image s et off vs kl tail :
  length (hint_image s et off vs kl tail) = (kHintHeaderSize + length tail)%nat.
Proof. unfold hint_image. layout. Qed.

Lemma hint_image_app s et off vs kl a b :
  hint_image s et off vs kl a ++ b = hint_image s et off vs kl (a ++ b).
Proof. unfold hint_image. by rewrite <-!(assoc_L (++)). Qed.

Lemma narrow_ok w v x : narrow w v = Ok x -> x = v /\ fits w v.
Proof. unfold narrow. destruct (fitsb w v) eqn:E; [|done]. apply fitsb_true in E. naive_solver. Qed.

(** What [deserialize_entry] returns once the header is read. *)
Definition after_header (buf : bytes) (s : Z) (et : EntryType) (off vs kl : Z) (k : bytes)
    : result (HintEntry * nat) :=
  '(ek, total) ← (if decide (et = RangeDel)
                  then range_del_trailer buf (kHintHeaderSize + Z.to_nat kl)
                  else Ok ([], (kHintHeaderSize + Z.to_nat kl)%nat));
  '(mid, total) ← (if decide (et = EChangeMarker)
                   then change_marker_trailer buf total kl vs else Ok (0, total));
  Ok (mkHintEntry s et off k vs ek mid, total).

Lemma hint_deserialize_image s et off vs (k tail : bytes) :
  fits 64 s -> is_known_entry_type et = true -> fits 64 off -> fits 32 vs ->
  fits 16 (size k) ->
  let buf := hint_image s et off vs (size k) (k ++ tail) in
  deserialize_entry buf = after_header buf s et off vs (size k) k.
Proof.
  intros Hs Ht Ho Hv Hk buf.
  assert (Hl : length buf = (kHintHeaderSize + length k + length tail)%nat)
    by (unfold buf; rewrite length_hint_image, length_app; lia).
  unfold deserialize_entry. rewrite (proj2 (Nat.ltb_ge _ _)) by lia.
  unfold get. cbn [br_buf br_pos Nat.add].
  rewrite (read_le_field [] (le_split 1 (u8_of_entry_type et) ++ le_split 8 off
    ++ le_split 4 vs ++ le_split 2 (size k) ++ k ++ tail) buf 0 8 s) by done.
  rewrite (read_le_field (le_split 8 s) (le_split 8 off ++ le_split 4 vs
    ++ le_split 2 (size k) ++ k ++ tail) buf 8 1 (u8_of_entry_type et))
    by (done || by apply u8_of_known_fits).
  rewrite (read_le_field (le_split 8 s ++ le_split 1 (u8_of_entry_type et))
    (le_split 4 vs ++ le_split 2 (size k) ++ k ++ tail) buf 9 8 off) by (done || layout).
  rewrite (read_le_field (le_split 8 s ++ le_split 1 (u8_of_entry_type et)
    ++ le_split 8 off) (le_split 2 (size k) ++ k ++ tail) buf 17 4 vs) by (done || layout).
  rewrite (read_le_field (le_split 8 s ++ le_split 1 (u8_of_entry_type et)
    ++ le_split 8 off ++ le_split 4 vs) (k ++ tail) buf 21 2 (size k)) by (done || layout).
  rewrite entry_type_u8_known by done.
  assert (Hkn : Z.to_nat (size k) = length k) by (unfold size; lia).
  rewrite (proj2 (Nat.ltb_ge _ _)) by lia.
  assert (subspan buf kHintHeaderSize (Z.to_nat (size k)) = k) as ->; [|done].
  unfold buf. rewrite <-(hint_image_app _ _ _ _ _ [] (k ++ tail)).
  apply subspan_app; [by rewrite length_hint_image|done].
Qed.

(** Closes a length side condition on a hint record. *)
Ltac hint_layout :=
  rewrite ?length_app, ?length_hint_image, ?length_app, ?length_le_split;
  unfold kHintHeaderSize; cbn [length]; lia.

Lemma hint_serialize_image s et off vs k buf :
  serialize_entry s et off vs k = Ok buf ->
  fits 16 (size k) /\ buf = hint_image s et off vs (size k) k.
Proof.
  unfold serialize_entry. intros (kl & [-> Hk]%narrow_ok & <-%(inj Ok))%mbind_ok.
  split; [done|]. eapply (writes_done _ (kHintHeaderSize + length k) _ None);
    [|rewrite length_hint_image; done].
  change k with ([] ++ k) at 6. rewrite <-hint_image_app.
  apply (put_bytes_writes _ _ _ None); [apply header_writes; lia|hint_layout].
Qed.

Lemma serialize_range_del_image s off k ek buf :
  serialize_range_del_entry s off k ek = Ok buf ->
  fits 16 (size k) /\ fits 16 (size ek) /\
  buf = hint_image s RangeDel off (size ek) (size k) (k ++ le_split 2 (size ek) ++ ek).
Proof.
  unfold serialize_range_del_entry.
  intros (vs & [-> _]%narrow_ok & He)%mbind_ok.
  apply mbind_ok in He as (kl & [-> Hk]%narrow_ok & He).
  apply mbind_ok in He as (el & [-> Hek]%narrow_ok & <-%(inj Ok)).
  split_and!; [done..|].
  eapply (writes_done _ (kHintHeaderSize + length k + (2 + length ek)) _ None);
    [|hint_layout].
  rewrite <-(app_nil_l (k ++ _)), <-hint_image_app, !(assoc_L (++)).
  apply (put_bytes_writes _ _ _ None); [|hint_layout].
  apply (put_writes _ _ _ None); [|hint_layout].
  apply (put_bytes_writes _ _ _ None); [|hint_layout].
  apply header_writes; lia.
Qed.

Lemma serialize_change_marker_image s off i :
  serialize_change_marker_entry s off i
  = hint_image s EChangeMarker off 8 0 (le_split 8 i).
Proof.
  unfold serialize_change_marker_entry.
  eapply (writes_done _ (kHintHeaderSize + 8) _ None); [|hint_layout].
  rewrite <-(app_nil_l (le_split 8 i)), <-hint_image_app.
  apply (put_writes _ _ _ None); [|hint_layout]. apply header_writes; lia.
Qed.

Lemma read_end_key_trailer pre ek rest :
  fits 16 (size ek) ->
  range_del_trailer (pre ++ le_split 2 (size ek) ++ ek ++ rest) (length pre)
  = Ok (ek, (length pre + (2 + length ek))%nat).
Proof.
  intros Hek. unfold range_del_trailer. rewrite !length_app, length_le_split.
  rewrite (proj2 (Nat.ltb_ge _ _)) by lia.
  rewrite (read_le_field pre (ek ++ rest) _ _ 2 (size ek)) by done.
  assert (Z.to_nat (size ek) = length ek) as -> by (unfold size; lia).
  rewrite (proj2 (Nat.ltb_ge _ _)) by lia.
  rewrite (assoc_L (++) pre), subspan_app by (done || layout). done.
Qed.

Lemma read_marker_trailer pre i rest :
  fits 64 i ->
  change_marker_trailer (pre ++ le_split 8 i ++ rest) (length pre) 0 8
  = Ok (i, (length pre + 8)%nat).
Proof.
  intros Hi. unfold change_marker_trailer. cbn [Z.eqb negb orb].
  rewrite !length_app, length_le_split, (proj2 (Nat.ltb_ge _ _)) by lia.
  by rewrite (read_le_field pre rest _ _ 8 i).
Qed.

Lemma hint_read_back h buf rest :
  serializes h buf -> valid_hint h ->
  deserialize_entry (buf ++ rest) = Ok (h, length buf).
Proof.
  intros Hser [Hs Ht Ho Hv Hm].
  destruct Hser as [s et off vs k buf Hr Hcm He|s off k ek buf He|s off i]; cbn in Hs, Ht, Ho, Hv, Hm.
  - apply hint_serialize_image in He as [Hk ->].
    rewrite hint_image_app, hint_deserialize_image by done. unfold after_header.
    rewrite (decide_False (P := et = RangeDel)) by done. monad_simpl.
    rewrite (decide_False (P := et = EChangeMarker)), length_hint_image by done.
    do 2 f_equal. unfold size; lia.
  - apply serialize_range_del_image in He as (Hk & Hek & ->).
    rewrite hint_image_app, <-(assoc_L (++)), hint_deserialize_image by done. unfold after_header.
    rewrite decide_True by done.
    rewrite <-(app_nil_l (k ++ _)), <-hint_image_app, <-!(assoc_L (++)), (assoc_L (++) _ k).
    replace (kHintHeaderSize + Z.to_nat (size k))%nat
      with (length (hint_image s RangeDel off (size ek) (size k) [] ++ k))
      by (unfold size; hint_layout).
    rewrite read_end_key_trailer by done. monad_simpl. rewrite decide_False by done.
    do 2 f_equal. hint_layout.
  - rewrite serialize_change_marker_image, hint_image_app.
    etrans; [apply (hint_deserialize_image s EChangeMarker off 8 [] (le_split 8 i ++ rest)); done|].
    unfold after_header. rewrite decide_False by done. monad_simpl.
    rewrite decide_True by done. rewrite <-hint_image_app.
    change (kHintHeaderSize + Z.to_nat (size []))%nat
      with (length (hint_image s EChangeMarker off 8 (size []) [])).
    change (size []) with 0.
    rewrite (read_marker_trailer _ i rest) by done. done.
Qed.

(** C11: hint records read back from the middle of a stream.  Whatever one of
    the three serializers wrote for a well-formed hint entry (a point entry, a
    range tombstone, a change marker), followed by any bytes, deserializes to
    that entry and consumes exactly the record. *)
Theorem hint_deserialize_serialize h buf rest :
  serializes h buf -> valid_hint h ->
  deserialize_entry (buf ++ rest) = Ok (h, length buf).
Proof. apply hint_read_back. Qed.

End HintEntry.

(** ** A concrete CRC-32C

    The bit-by-bit definition of the Castagnoli CRC (reflected polynomial
    [0x82F63B78]), an instance of the laws the codec assumes of
    [crc32c::Extend].  The witnesses evaluate the codec with it. *)

Module Castagnoli.
Import Serialization Types.

Definition crc_bit (c : Z) : Z :=
  if Z.odd c then Z.lxor (Z.shiftr c 1) 0x82F63B78 else Z.shiftr c 1.

Definition crc_byte (c : Z) (b : byte) : Z :=
  Nat.iter 8 crc_bit (Z.lxor c (byte_to_Z b)).

Definition flip32 (c : Z) : Z := Z.lxor c (2 ^ 32 - 1).

#[export] Instance crc32c : Crc32c := fun s data => flip32 (foldl crc_byte (flip32 s) data).

Lemma lxor_fits a b : fits 32 a -> fits 32 b -> fits 32 (Z.lxor a b).
Proof.
  assert (Hhi : forall z, fits 32 z <-> Z.shiftr z 32 = 0).
  { intros z. rewrite Z.shiftr_div_pow2 by lia. unfold fits. split.
    - intros ?. by apply Z.div_small.
    - intros Hz. pose proof (Z.div_mod z (2 ^ 32)). pose proof (Z.mod_pos_bound z (2 ^ 32)). lia. }
  rewrite !Hhi, Z.shiftr_lxor. by intros -> ->.
Qed.

Lemma shiftr_fits c : fits 32 c -> fits 32 (Z.shiftr c 1).
Proof.
  intros [??]. rewrite Z.shiftr_div_pow2 by lia. unfold fits in *.
  pose proof (Z.div_lt_upper_bound c (2 ^ 1) (2 ^ 32)). pose proof (Z.div_pos c (2 ^ 1)). lia.
Qed.

Lemma crc_bit_fits c : fits 32 c -> fits 32 (crc_bit c).
Proof. intros ?. unfold crc_bit. destruct (Z.odd c); auto using lxor_fits, shiftr_fits.
  apply lxor_fits; [by apply shiftr_fits|by unfold fits]. Qed.

Lemma crc_byte_fits c b : fits 32 c -> fits 32 (crc_byte c b).
Proof.
  intros Hc. unfold crc_byte.
  assert (Hx : fits 32 (Z.lxor c (byte_to_Z b))).
  { apply lxor_fits; [done|]. pose proof (byte_to_Z_range b). unfold fits. lia. }
  by do 8 apply crc_bit_fits.
Qed.

#[export] Instance crc32c_laws : Crc32cLaws.
Proof.
  split.
  - intros s a b. unfold crc32c_extend, crc32c. rewrite foldl_app. f_equal. f_equal.
    unfold flip32. by rewrite Z.lxor_assoc, Z.lxor_nilpotent, Z.lxor_0_r.
  - intros s. unfold crc32c_extend, crc32c, flip32. cbn [foldl].
    by rewrite Z.lxor_assoc, Z.lxor_nilpotent, Z.lxor_0_r.
  - intros s a Hs. unfold crc32c_extend, crc32c, flip32.
    apply lxor_fits; [|by unfold fits].
    assert (Hf : fits 32 (Z.lxor s (2 ^ 32 - 1))) 
      by (apply lxor_fits; [done|by unfold fits]).
    revert Hf. generalize (Z.lxor s (2 ^ 32 - 1)).
    induction a; simpl; auto using crc_byte_fits.
Qed.

(** The published check value of CRC-32C. *)
Example crc32c_check :
  crc32c_extend 0 [x31; x32; x33; x34; x35; x36; x37; x38; x39] = 0xE3069283.
Proof. vm_compute. reflexivity. Qed.

Definition sample : Types.DataEntry := mkDataEntry 7 Put [x61; x62] [x63].

Lemma deserialize_serialize_witness :
  exists buf, DataEntry.serialize_entry 7 Put [x61; x62] [x63] = Ok buf
              /\ DataEntry.deserialize_entry buf = Ok sample.
Proof.
  eexists. split; [vm_compute; reflexivity|].
  apply (DataEntry.deserialize_serialize_iff _ sample).
  split; [|vm_compute; reflexivity].
  split; simpl; try done; unfold fits; vm_compute; intuition congruence.
Defined.

Lemma serialize_entry_size_witness :
  exists buf, DataEntry.serialize_entry 7 Put [x61; x62] [x63] = Ok buf
              /\ size buf = DataEntry.record_bytes sample.
Proof.
  pose proof (DataEntry.serialize_entry_size sample) as W.
  destruct (DataEntry.serialize_entry 7 Put [x61; x62] [x63]) as [buf|] eqn:E.
  - exists buf. split; [done|]. unfold sample in W at 1 2 3 4. cbn [de_sequence de_type de_key de_value] in W.
    rewrite E in W. apply W.
  - vm_compute in E. discriminate.
Defined.

Lemma hint_deserialize_serialize_witness :
  exists buf,
    HintEntry.serialize_range_del_entry 9 100 [x61] [x62; x63] = Ok buf /\
    HintEntry.deserialize_entry (buf ++ [xff])
    = Ok (HintEntry.mkHintEntry 9 RangeDel 100 [x61] 2 [x62; x63] 0, length buf).
Proof.
  eexists. split; [vm_compute; reflexivity|].
  apply (HintEntry.hint_deserialize_serialize
           (HintEntry.mkHintEntry 9 RangeDel 100 [x61] 2 [x62; x63] 0)).
  - apply (HintEntry.serializes_range_del 9 100 [x61] [x62; x63]). vm_compute. reflexivity.
  - split; simpl; try done; unfold fits; vm_compute; intuition congruence.
Defined.

End Castagnoli.
