(* ===== verification/HintFile.v ===== *)
(** * Hint files

    Models [hint_file.cppm]: the writer that packs hint entries into zstd
    frames behind a header and a trailer, the pass that opens a hint file and
    checks all of it, and the scanner that reads its entries back with their
    positions.

    zstd is third-party code: the operations of the class [Zstd], with what
    the hint file relies on in [ZstdLaws].  [Stored] gives a concrete
    instance.  A failed system call of the writer leaves a temporary file
    that is never read; it is modelled where the hint is written
    ([Hints]). *)

From S2P Require Import Prelude Codec.
Import Serialization Types HintEntry.

(** ** Constants *)

Definition kHintFrameBytes : Z := 16 * 1024.
Definition kFileCrcSize : nat := 4.
Definition kFramedMagic : bytes := [x42; x43; x48; x49; x4e; x54; x5a; x81].
Definition kFramedHeaderSize : nat := 16.
Definition kFramedVersion : byte := x01.
Definition kCodecZstd : byte := x01.
Definition kMaxHintEntryBytes : Z := Z.of_nat kHintHeaderSize + 0xFFFF + 2 + 0xFFFF.
Definition kMaxFrameBytes : Z := kHintFrameBytes + kMaxHintEntryBytes.
Definition kOpenChunkBytes : Z := 256 * 1024.

Definition valid_frame_size (n : Z) : bool := n <=? kMaxFrameBytes.

(** ** zstd *)

Class Zstd : Type := {
  ZSTD_compress : bytes -> option bytes;           (* ZSTD_compressCCtx; None is an error *)
  ZSTD_findFrameCompressedSize : bytes -> option nat;
  ZSTD_getFrameContentSize : bytes -> Z;
  ZSTD_decompress : bytes -> option bytes;
  ZSTD_compressBound : Z -> Z
}.

(** What one-shot compression promises, and what a frame says of itself
    whatever follows it. *)
Class ZstdLaws `{Zstd} : Prop := {
  zstd_compresses x : fits 64 (size x) -> exists c, ZSTD_compress x = Some c;
  zstd_bound x c : ZSTD_compress x = Some c -> 0 < size c <= ZSTD_compressBound (size x);
  zstd_bound_mono n m : n <= m -> ZSTD_compressBound n <= ZSTD_compressBound m;
  zstd_frame_size x c rest :
    ZSTD_compress x = Some c -> ZSTD_findFrameCompressedSize (c ++ rest) = Some (length c);
  zstd_content_size x c rest :
    ZSTD_compress x = Some c -> ZSTD_getFrameContentSize (c ++ rest) = size x;
  zstd_decompresses x c : ZSTD_compress x = Some c -> ZSTD_decompress c = Some x;
  zstd_frame_within b n :
    ZSTD_findFrameCompressedSize b = Some n -> (0 < n <= length b)%nat;
  zstd_max_packed : ZSTD_compressBound kMaxFrameBytes <= kOpenChunkBytes   (* static_assert *)
}.

(** ** Positions *)

(** Where an entry starts: its frame, and its offset inside the decoded
    frame. *)
Record Position : Type := mkPosition { frame : nat; offset : nat }.

#[export] Instance Position_eq_dec : EqDecision Position.
Proof. solve_decision. Defined.

Definition position_ltb (a b : Position) : bool :=
  (frame a <? frame b)%nat || ((frame a =? frame b)%nat && (offset a <? offset b)%nat).

Definition position_lt (a b : Position) : Prop := position_ltb a b = true.

Section hint_file.
Context `{Zstd} `{Crc32c}.

Definition kMaxPackedFrameBytes : Z := ZSTD_compressBound kMaxFrameBytes.

(** ** The writer *)

Record HintWriter : Type := mkHintWriter {
  hw_written : bytes;      (* what the file holds *)
  hw_crc : Z;
  hw_pending : bytes       (* entries of the open frame *)
}.

Definition hint_write_bytes (data : bytes) (w : HintWriter) : HintWriter :=
  mkHintWriter (hw_written w ++ data) (crc32c_extend (hw_crc w) data) (hw_pending w).

Definition framed_header : bytes :=
  kFramedMagic ++ [kFramedVersion; kCodecZstd] ++ replicate 6 x00.

Definition OpenForWrite : HintWriter := hint_write_bytes framed_header (mkHintWriter [] 0 []).

Definition flush_frame (w : HintWriter) : result HintWriter :=
  match hw_pending w with
  | [] => Ok w
  | p =>
      match ZSTD_compress p with
      | None => Err (RuntimeError "HintFile: cannot compress a frame")
      | Some packed =>
          let w := hint_write_bytes packed w in
          Ok (mkHintWriter (hw_written w) (hw_crc w) [])
      end
  end.

Definition add_entry (entry : bytes) (w : HintWriter) : result HintWriter :=
  let w := mkHintWriter (hw_written w) (hw_crc w) (hw_pending w ++ entry) in
  if kHintFrameBytes <=? size (hw_pending w) then flush_frame w else Ok w.

Definition hint_append (sequence : Z) (et : EntryType) (file_offset : Z) (key : bytes) (value_size : Z)
    (w : HintWriter) : result HintWriter :=
  e ← serialize_entry sequence et file_offset value_size key; add_entry e w.

Definition append_range_del (sequence file_offset : Z) (start_key end_key : bytes) (w : HintWriter)
    : result HintWriter :=
  e ← serialize_range_del_entry sequence file_offset start_key end_key; add_entry e w.

Definition append_change_marker (sequence file_offset id : Z) (w : HintWriter) : result HintWriter :=
  add_entry (serialize_change_marker_entry sequence file_offset id) w.

(** The bits of a 32-bit word inverted. *)
Definition not32 (z : Z) : Z := Z.lxor z (2 ^ 32 - 1).

(** The last frame and the trailer: the file's bytes. *)
Definition hint_close (w : HintWriter) : result bytes :=
  w ← flush_frame w;
  Ok (hw_written w ++ write_le 4 (replicate kFileCrcSize x00) 0 (not32 (hw_crc w))).

(** ** The open pass *)

Record OpenPass : Type := mkOpenPass {
  op_buf : bytes;          (* buf_[0, len_) *)
  op_at : nat;             (* file offset of buf_[0] *)
  op_crc : Z
}.

(** The bytes from [at_] on that are in the buffer, reading more if fewer
    than [want] of them are. *)
Definition window (file : bytes) (end_ at_ want : nat) (p : OpenPass) : bytes * OpenPass :=
  let read_to := (op_at p + length (op_buf p))%nat in
  let need := (want `min` (end_ - at_))%nat in
  let p :=
    if (read_to <? at_ + need)%nat then
      let keep := (read_to - at_)%nat in
      let n := ((Z.to_nat kOpenChunkBytes - keep) `min` (end_ - read_to))%nat in
      let fresh := subspan file read_to n in
      mkOpenPass (subspan (op_buf p) (at_ - op_at p) keep ++ fresh) at_ (crc32c_extend (op_crc p) fresh)
    else p in
  (drop (at_ - op_at p) (op_buf p), p).

(** Where the units of the file are: the offset of each, then where they end. *)
Record HintSource : Type := mkHintSource { hsrc_file : bytes; hsrc_units : list nat }.

(** The loop over the frames; each takes at least a byte. *)
Fixpoint find_units (fuel : nat) (file : bytes) (end_ at_ : nat) (p : OpenPass)
    : result (list nat * OpenPass) :=
  match fuel with
  | O => Ok ([end_], p)
  | S fuel' =>
      if (at_ <? end_)%nat then
        let '(b, p) := window file end_ at_ (Z.to_nat kMaxPackedFrameBytes) p in
        match ZSTD_findFrameCompressedSize b with
        | None => Err (RuntimeError "HintFile: truncated or corrupt frame")
        | Some packed =>
            if negb (valid_frame_size (ZSTD_getFrameContentSize (take packed b))) then
              Err (RuntimeError "HintFile: frame of invalid size")
            else
              '(units, p) ← find_units fuel' file end_ (at_ + packed) p;
              Ok (at_ :: units, p)
        end
      else Ok ([end_], p)
  end.

Definition open_source (file : bytes) : result HintSource :=
  _ ← throw_if (length file <? kFileCrcSize)%nat
        (RuntimeError "HintFile: too small to contain a CRC trailer");
  let end_ := (length file - kFileCrcSize)%nat in
  let '(head, p) := window file end_ 0 kFramedHeaderSize (mkOpenPass [] 0 0) in
  _ ← throw_if ((length head <? length kFramedMagic)%nat
                || negb (bool_decide (take (length kFramedMagic) head = kFramedMagic)))
        (RuntimeError "HintFile: not a framed hint file");
  _ ← throw_if (length head <? kFramedHeaderSize)%nat (RuntimeError "HintFile: too small for its header");
  _ ← throw_if (negb (bool_decide (head !!! 8%nat = kFramedVersion))
                || negb (bool_decide (head !!! 9%nat = kCodecZstd)))
        (RuntimeError "HintFile: unsupported version or codec");
  '(units, p) ← find_units end_ file end_ kFramedHeaderSize p;
  _ ← throw_if (negb (not32 (op_crc p) =? read_le 4 (subspan file end_ kFileCrcSize) 0))
        (RuntimeError "HintFile: CRC mismatch");
  Ok (mkHintSource file units).

(** ** The scanner *)

Record Scanner : Type := mkScanner {
  sc_frame : bytes;        (* entries being read *)
  sc_frame_at : nat;
  sc_next_frame : nat;
  sc_pos : nat
}.

Definition unit_count (src : HintSource) : nat := (length (hsrc_units src) - 1)%nat.

Definition make_scanner : Scanner := mkScanner [] 0 0 0.

Definition load_frame (src : HintSource) (i : nat) : result Scanner :=
  if (unit_count src <=? i)%nat then Ok (mkScanner [] i (unit_count src) 0)
  else
    let at_ := hsrc_units src !!! i in
    let len := (hsrc_units src !!! S i - at_)%nat in
    let packed := subspan (hsrc_file src) at_ len in
    let n := ZSTD_getFrameContentSize packed in
    _ ← throw_if (negb (valid_frame_size n)) (RuntimeError "HintFile: frame of invalid size");
    match ZSTD_decompress packed with
    | Some got =>
        if size got =? n then Ok (mkScanner got i (S i) 0)
        else Err (RuntimeError "HintFile: frame does not decompress")
    | None => Err (RuntimeError "HintFile: frame does not decompress")
    end.

Definition position (src : HintSource) (s : Scanner) : Position :=
  if (length (sc_frame s) <=? sc_pos s)%nat && (sc_next_frame s <? unit_count src)%nat
  then mkPosition (sc_next_frame s) 0
  else mkPosition (sc_frame_at s) (sc_pos s).

(** The loop that steps over exhausted frames; [fuel] is the frames left. *)
Fixpoint find_entry (fuel : nat) (src : HintSource) (s : Scanner) : result (option Scanner) :=
  if (length (sc_frame s) <=? sc_pos s)%nat then
    if (unit_count src <=? sc_next_frame s)%nat then Ok None
    else
      match fuel with
      | O => Ok None
      | S fuel' => s ← load_frame src (sc_next_frame s); find_entry fuel' src s
      end
  else Ok (Some s).

Definition next (src : HintSource) (s : Scanner) : result (option (HintEntry * Scanner)) :=
  o ← find_entry (unit_count src - sc_next_frame s) src s;
  match o with
  | None => Ok None
  | Some s =>
      '(he, consumed) ← deserialize_entry (drop (sc_pos s) (sc_frame s));
      Ok (Some (he, mkScanner (sc_frame s) (sc_frame_at s) (sc_next_frame s) (sc_pos s + consumed)))
  end.

(** ** Whole scans

    What a scan of a file gives: its entries with the position of each, where
    it stops, and the exception it stops with, if any. *)

Record HintScan : Type := mkHintScan {
  hs_entries : list (Position * HintEntry);
  hs_end : Position;
  hs_error : option exn
}.

Fixpoint scan_entries (fuel : nat) (src : HintSource) (s : Scanner) : HintScan :=
  match fuel with
  | O => mkHintScan [] (position src s) None
  | S fuel' =>
      match next src s with
      | Err x => mkHintScan [] (position src s) (Some x)
      | Ok None => mkHintScan [] (position src s) None
      | Ok (Some (he, s')) =>
          let r := scan_entries fuel' src s' in
          mkHintScan ((position src s, he) :: hs_entries r) (hs_end r) (hs_error r)
      end
  end.

(** The decoded bytes of the units, as their headers give them: an entry takes
    at least one. *)
Definition decoded_bytes (src : HintSource) : Z :=
  lsum (fun i => ZSTD_getFrameContentSize
                   (subspan (hsrc_file src) (hsrc_units src !!! i) (hsrc_units src !!! S i - hsrc_units src !!! i)))
       (seq 0 (unit_count src)).

(** [OpenForRead] and a scan from the start. *)
Definition OpenForRead (file : bytes) : result HintScan :=
  src ← open_source file;
  Ok (scan_entries (S (Z.to_nat (decoded_bytes src))) src make_scanner).

End hint_file.

(** ** What the writer wrote *)

(** An entry and its bytes. *)
Definition hinted (p : HintEntry * bytes) : Prop := serializes p.1 p.2 /\ valid_hint p.1.

Lemma hinted_size p : hinted p -> 0 < size p.2 <= kMaxHintEntryBytes.
Proof.
  assert (Hh : size (replicate kHintHeaderSize x00) = 23) by done.
  unfold kMaxHintEntryBytes. change (Z.of_nat kHintHeaderSize) with 23.
  destruct p as [h b]. intros [Hs _]. cbn [fst snd] in *. destruct Hs as [s et off vs k buf _ _ E|s off k ek buf E|s off i].
  - apply hint_serialize_image in E as [[_ Hk] ->]. unfold size in *. rewrite length_hint_image.
    unfold kHintHeaderSize. lia.
  - apply serialize_range_del_image in E as ([_ Hk] & [_ Hek] & ->). unfold size in *.
    rewrite length_hint_image, !length_app, length_le_split. unfold kHintHeaderSize. lia.
  - rewrite serialize_change_marker_image. unfold size. rewrite length_hint_image, length_le_split.
    unfold kHintHeaderSize. lia.
Qed.

Section written.
Context `{ZstdLaws} `{Crc32cLaws}.

Definition group_bytes (g : list (HintEntry * bytes)) : bytes := concat g.*2.

(** A frame of the file: whole entries, within the size a reader accepts. *)
Record framed (g : list (HintEntry * bytes)) (c : bytes) : Prop := {
  fr_packed : ZSTD_compress (group_bytes g) = Some c;
  fr_some : g <> [];
  fr_size : size (group_bytes g) <= kMaxFrameBytes
}.

Record wrote (w : HintWriter) (gs : list (list (HintEntry * bytes))) (cs : list bytes)
    (pending : list (HintEntry * bytes)) : Prop := {
  wr_written : hw_written w = framed_header ++ concat cs;
  wr_frames : Forall2 framed gs cs;
  wr_crc : hw_crc w = crc32c_extend 0 (hw_written w);
  wr_pending : hw_pending w = group_bytes pending;
  wr_small : size (group_bytes pending) < kHintFrameBytes
}.

Lemma open_for_write_wrote : wrote OpenForWrite [] [] [].
Proof. split; try done. Qed.

Lemma group_bytes_app g g' : group_bytes (g ++ g') = group_bytes g ++ group_bytes g'.
Proof. unfold group_bytes. by rewrite fmap_app, concat_app. Qed.

Lemma group_bytes_nonempty g : g <> [] -> Forall hinted g -> 0 < size (group_bytes g).
Proof.
  intros Hne Hg. destruct g as [|p g]; [done|]. apply Forall_cons in Hg as [Hp _].
  apply hinted_size in Hp. unfold group_bytes, size in *. cbn [fmap list_fmap concat]. rewrite length_app. lia.
Qed.

Lemma flush_frame_wrote w gs cs pending :
  hw_written w = framed_header ++ concat cs -> Forall2 framed gs cs ->
  hw_crc w = crc32c_extend 0 (hw_written w) -> hw_pending w = group_bytes pending ->
  Forall hinted pending -> size (group_bytes pending) <= kMaxFrameBytes ->
  exists w' gs' cs', flush_frame w = Ok w' /\ wrote w' gs' cs' []
    /\ concat gs' = concat gs ++ pending.
Proof.
  intros W1 W2 W3 W4 Hp Hs. destruct (decide (pending = [])) as [->|Hne].
  - exists w, gs, cs. unfold flush_frame. rewrite W4. cbn. rewrite app_nil_r. split_and!; [done| |done].
    split; try done.
  - destruct (zstd_compresses (group_bytes pending)) as [c Hc].
    { split; [unfold size; lia|]. eapply Z.le_lt_trans; [exact Hs|done]. }
    exists (mkHintWriter (hw_written w ++ c) (crc32c_extend (hw_crc w) c) []), (gs ++ [pending]), (cs ++ [c]).
    split_and!.
    + unfold flush_frame. rewrite W4. pose proof (group_bytes_nonempty pending Hne Hp) as Hpos.
      destruct (group_bytes pending); [done|]. by rewrite Hc.
    + split; cbn; try done.
      * by rewrite W1, concat_app, <-app_assoc; cbn; rewrite app_nil_r.
      * apply Forall2_app; [done|]. constructor; [by split|constructor].
      * by rewrite W3, crc32c_extend_app.
    + rewrite concat_app. cbn. by rewrite app_nil_r.
Qed.

Lemma add_entry_wrote w gs cs pending p :
  wrote w gs cs pending -> Forall hinted pending -> hinted p ->
  exists w' gs' cs' pending', add_entry p.2 w = Ok w' /\ wrote w' gs' cs' pending'
    /\ Forall hinted pending' /\ concat gs' ++ pending' = concat gs ++ pending ++ [p].
Proof.
  intros [W1 W2 W3 W4 W5] Hpend Hp. pose proof (hinted_size p Hp) as Hsz. unfold add_entry. cbn [hw_pending].
  assert (Hg : hw_pending w ++ p.2 = group_bytes (pending ++ [p])).
  { rewrite group_bytes_app, W4. unfold group_bytes at 3. cbn. by rewrite app_nil_r. }
  assert (Hs : size (group_bytes (pending ++ [p])) = size (group_bytes pending) + size p.2).
  { unfold size. rewrite <-Hg, W4, length_app. lia. }
  assert (Hall : Forall hinted (pending ++ [p])) by (apply Forall_app; by rewrite Forall_singleton).
  rewrite Hg. destruct (Z.leb_spec kHintFrameBytes (size (group_bytes (pending ++ [p])))).
  - destruct (flush_frame_wrote (mkHintWriter (hw_written w) (hw_crc w) (group_bytes (pending ++ [p]))) gs cs (pending ++ [p]))
      as (w' & gs' & cs' & E & Hw & Hc); try done; [unfold kMaxFrameBytes; lia|].
    exists w', gs', cs', []. split_and!; [done..|]. by rewrite app_nil_r.
  - eexists _, gs, cs, (pending ++ [p]). split_and!; [done| |done|done]. by split.
Qed.

(** Entries added one after another. *)
Fixpoint add_entries (es : list bytes) (w : HintWriter) : result HintWriter :=
  match es with
  | [] => Ok w
  | e :: es => w ← add_entry e w; add_entries es w
  end.

Lemma add_entries_wrote ps w gs cs pending :
  wrote w gs cs pending -> Forall hinted pending -> Forall hinted ps ->
  exists w' gs' cs' pending', add_entries ps.*2 w = Ok w' /\ wrote w' gs' cs' pending'
    /\ Forall hinted pending' /\ concat gs' ++ pending' = concat gs ++ pending ++ ps.
Proof.
  intros Hw Hp Hps. revert w gs cs pending Hw Hp. induction Hps as [|p ps Hh Hps IH]; intros w gs cs pending Hw Hp.
  - exists w, gs, cs, pending. by rewrite app_nil_r.
  - destruct (add_entry_wrote w gs cs pending p) as (w1 & gs1 & cs1 & p1 & E1 & Hw1 & Hp1 & Hc1); [done..|].
    destruct (IH w1 gs1 cs1 p1) as (w2 & gs2 & cs2 & p2 & E2 & Hw2 & Hp2 & Hc2); [done..|].
    exists w2, gs2, cs2, p2. cbn [fmap list_fmap add_entries]. rewrite E1. cbn [mbind result_bind].
    split_and!; [done..|]. rewrite Hc2, app_assoc, Hc1, <-!app_assoc. done.
Qed.

(** ** The open pass over it *)

(** The buffer holds bytes of the file, and the CRC covers what was read. *)
Record pass_ok (file : bytes) (end_ : nat) (p : OpenPass) : Prop := {
  po_buf : op_buf p = subspan file (op_at p) (length (op_buf p));
  po_end : (op_at p + length (op_buf p) <= end_ <= length file)%nat;
  po_crc : op_crc p = crc32c_extend 0 (take (op_at p + length (op_buf p)) file)
}.

Lemma drop_subspan (l : bytes) o n m : drop m (subspan l o n) = subspan l (o + m) (n - m).
Proof. unfold subspan. by rewrite skipn_firstn_comm, drop_drop. Qed.

Lemma take_subspan_add (l : bytes) o n : take o l ++ subspan l o n = take (o + n) l.
Proof. unfold subspan. by rewrite take_take_drop. Qed.

Lemma length_subspan_within (l : bytes) o n : (o + n <= length l)%nat -> length (subspan l o n) = n.
Proof. intros. unfold subspan. rewrite length_take, length_drop. lia. Qed.

Lemma subspan_join (l : bytes) o n m : subspan l o n ++ subspan l (o + n) m = subspan l o (n + m).
Proof. unfold subspan. by rewrite <-drop_drop, take_take_drop. Qed.

Lemma window_spec file end_ at_ want p :
  pass_ok file end_ p -> (op_at p <= at_ <= op_at p + length (op_buf p))%nat ->
  (want <= Z.to_nat kOpenChunkBytes)%nat ->
  exists b p', window file end_ at_ want p = (b, p') /\ pass_ok file end_ p'
    /\ (op_at p' <= at_)%nat /\ (at_ + length b = op_at p' + length (op_buf p'))%nat
    /\ b = subspan file at_ (length b) /\ (want `min` (end_ - at_) <= length b)%nat.
Proof.
  intros [P1 P2 P3] Hat Hw. unfold window.
  set (read_to := (op_at p + length (op_buf p))%nat) in *.
  destruct (Nat.ltb_spec read_to (at_ + want `min` (end_ - at_))).
  - set (keep := (read_to - at_)%nat). set (n := ((Z.to_nat kOpenChunkBytes - keep) `min` (end_ - read_to))%nat).
    assert (Hk : subspan (op_buf p) (at_ - op_at p) keep = subspan file at_ keep).
    { rewrite P1. unfold subspan at 1. rewrite drop_subspan. unfold subspan. rewrite take_take.
      f_equal; [lia|]. f_equal. lia. }
    assert (Hbuf : subspan file at_ keep ++ subspan file read_to n = subspan file at_ (keep + n)).
    { replace read_to with (at_ + keep)%nat by lia. apply subspan_join. }
    assert (Hlen : length (subspan file at_ (keep + n)) = (keep + n)%nat) by (apply length_subspan_within; lia).
    eexists _, _. split; [done|]. cbn [op_buf op_at]. rewrite Nat.sub_diag, drop_0, Hk, Hbuf, Hlen.
    split_and!; try done; try lia. split; cbn [op_buf op_at op_crc]; rewrite ?Hlen; try done; try lia.
    rewrite P3, <-crc32c_extend_app. fold read_to. rewrite take_subspan_add. do 2 f_equal. lia.
  - eexists _, p. split; [done|].
    assert (Hb : drop (at_ - op_at p) (op_buf p) = subspan file at_ (read_to - at_)).
    { rewrite P1, drop_subspan. f_equal; lia. }
    rewrite Hb, length_subspan_within by lia. split_and!; try done; try lia.
Qed.

(** The offsets of the frames [cs] from [at_], and where they end. *)
Fixpoint unit_offsets (at_ : nat) (cs : list bytes) : list nat :=
  match cs with
  | [] => [at_]
  | c :: cs => at_ :: unit_offsets (at_ + length c) cs
  end.

Lemma framed_size g c : framed g c -> 0 < size c <= kOpenChunkBytes.
Proof.
  intros [F1 _ F3]. destruct (zstd_bound _ _ F1). split; [done|].
  etrans; [done|]. etrans; [by apply zstd_bound_mono|]. apply zstd_max_packed.
Qed.

Lemma find_units_spec gs cs pre tail fuel p :
  Forall2 framed gs cs ->
  let file := pre ++ concat cs ++ tail in
  let end_ := (length (pre ++ concat cs))%nat in
  pass_ok file end_ p -> (op_at p <= length pre <= op_at p + length (op_buf p))%nat ->
  (length (concat cs) <= fuel)%nat ->
  exists p', find_units fuel file end_ (length pre) p = Ok (unit_offsets (length pre) cs, p')
    /\ op_crc p' = crc32c_extend 0 (pre ++ concat cs).
Proof.
  intros Hcs. revert pre fuel p. induction Hcs as [|g c gs cs Hf Hcs IH]; intros pre fuel p file end_ Hp Hat Hfuel.
  - assert (Hend : end_ = length pre) by (unfold end_; cbn [concat]; by rewrite app_nil_r).
    exists p. split.
    + destruct fuel; cbn [find_units]; rewrite Hend, ?Nat.ltb_irrefl; done.
    + rewrite (po_crc _ _ _ Hp). pose proof (po_end _ _ _ Hp).
      unfold file. cbn [concat]. rewrite app_nil_r, take_app_length'; [done|lia].
  - pose proof (framed_size g c Hf) as Hc. destruct Hf as [F1 F2 F3]. unfold size in Hc.
    cbn [concat] in Hfuel. rewrite length_app in Hfuel. destruct fuel as [|fuel]; [lia|].
    assert (Hle : (length pre + length c <= end_)%nat)
      by (unfold end_; cbn [concat]; rewrite !length_app; lia).
    cbn [find_units]. rewrite (proj2 (Nat.ltb_lt _ _)) by lia.
    destruct (window_spec file end_ (length pre) (Z.to_nat kMaxPackedFrameBytes) p)
      as (b & p1 & E & Hp1 & Ha & Hl & Hb & Hn); [done|done| |].
    { apply Z2Nat.inj_le; [|by unfold kOpenChunkBytes|apply zstd_max_packed].
      unfold kMaxPackedFrameBytes. pose proof (zstd_bound _ _ F1). pose proof (zstd_bound_mono _ _ F3). lia. }
    rewrite E. clear E.
    assert (Hbc : (length c <= length b)%nat).
    { destruct (zstd_bound _ _ F1) as [_ Hbound]. pose proof (zstd_bound_mono _ _ F3).
      unfold kMaxPackedFrameBytes, size in *. lia. }
    assert (Hbs : exists rest, b = c ++ rest).
    { exists (subspan (concat cs ++ tail) 0 (length b - length c)).
      rewrite Hb at 1. unfold file. cbn [concat]. rewrite <-!app_assoc. unfold subspan.
      rewrite drop_app_length. rewrite firstn_app, take_ge by lia. by rewrite drop_0. }
    destruct Hbs as [rest ->]. rewrite (zstd_frame_size _ c _ F1), take_app_length.
    pose proof (zstd_content_size _ c [] F1) as Hct. rewrite app_nil_r in Hct. rewrite Hct.
    unfold valid_frame_size. rewrite (proj2 (Z.leb_le _ _)) by done. cbn [negb].
    specialize (IH (pre ++ c) fuel p1). cbv zeta in IH. rewrite <-!app_assoc in IH.
    unfold file, end_ in *. cbn [concat] in *. rewrite <-!app_assoc in *.
    destruct IH as (p2 & E2 & Hcrc); [done|rewrite length_app; lia|lia|].
    rewrite (length_app pre c) in E2. exists p2. rewrite E2. done.
Qed.

(** ** Scanning it *)

(** A source whose units decode to the groups. *)
Definition decodes (src : HintSource) (gs : list (list (HintEntry * bytes))) : Prop :=
  unit_count src = length gs
  /\ forall i g, gs !! i = Some g -> load_frame src i = Ok (mkScanner (group_bytes g) i (S i) 0).

(** The positions of entries: [n] bytes into frame [i], then the frames that
    follow. *)
Fixpoint group_positions (i n : nat) (g : list (HintEntry * bytes)) : list (Position * HintEntry) :=
  match g with
  | [] => []
  | (he, b) :: g => (mkPosition i n, he) :: group_positions i (n + length b) g
  end.

Fixpoint positions (i : nat) (gs : list (list (HintEntry * bytes))) : list (Position * HintEntry) :=
  match gs with
  | [] => []
  | g :: gs => group_positions i 0 g ++ positions (S i) gs
  end.

Lemma next_in_frame src done_ he b rest i nf :
  hinted (he, b) ->
  next src (mkScanner (group_bytes done_ ++ b ++ rest) i nf (length (group_bytes done_)))
  = Ok (Some (he, mkScanner (group_bytes done_ ++ b ++ rest) i nf (length (group_bytes done_) + length b))).
Proof.
  intros Hh. pose proof (hinted_size _ Hh) as Hs. destruct Hh as [Hser Hv]. unfold size in Hs. cbn [fst snd] in *.
  unfold next.
  assert (Hlt : (length (group_bytes done_ ++ b ++ rest) <=? length (group_bytes done_))%nat = false)
    by (apply Nat.leb_gt; rewrite !length_app; lia).
  destruct (unit_count src - _)%nat; cbn [find_entry sc_frame sc_pos]; rewrite Hlt; cbn [mbind result_bind sc_frame sc_pos];
    by rewrite drop_app_length, (hint_read_back he b rest Hser Hv).
Qed.

(** Between frames the scanner loads the next one. *)
Lemma next_frame_step src gs i g x at_ :
  decodes src gs -> gs !! i = Some g -> (0 < length (group_bytes g))%nat -> length x = at_ ->
  next src (mkScanner x (i - 1) i at_) = next src (mkScanner (group_bytes g) i (S i) 0)
  /\ position src (mkScanner x (i - 1) i at_) = mkPosition i 0.
Proof.
  intros [Hn Hd] Hi Hg <-. pose proof (lookup_lt_Some _ _ _ Hi) as Hlt. split.
  - unfold next. cbn [sc_next_frame]. rewrite Hn.
    destruct (length gs - i)%nat as [|m] eqn:Em; [lia|]. cbn [find_entry sc_frame sc_pos sc_next_frame].
    rewrite Hn, Nat.leb_refl, (proj2 (Nat.leb_gt _ _)) by lia. rewrite (Hd i g Hi). cbn [mbind result_bind].
    replace (length gs - S i)%nat with m by lia.
    destruct m; cbn [find_entry sc_frame sc_pos]; by rewrite (proj2 (Nat.leb_gt _ _)) by lia.
  - unfold position. cbn [sc_frame sc_pos sc_next_frame sc_frame_at]. by rewrite Hn, Nat.leb_refl, (proj2 (Nat.ltb_lt _ _)) by lia.
Qed.

(** Inside frame [i], after [done_], with the groups [gs_after] to come. *)
Lemma scan_entries_spec src gs i done_ todo fuel :
  decodes src gs -> gs !! i = Some (done_ ++ todo) ->
  Forall (fun g => g <> [] /\ Forall hinted g) gs ->
  (length todo + length (concat (drop (S i) gs)) < fuel)%nat ->
  let s := mkScanner (group_bytes (done_ ++ todo)) i (S i) (length (group_bytes done_)) in
  let r := scan_entries fuel src s in
  hs_entries r = group_positions i (length (group_bytes done_)) todo ++ positions (S i) (drop (S i) gs)
  /\ hs_error r = None
  /\ exists g, last gs = Some g /\ hs_end r = mkPosition (length gs - 1) (length (group_bytes g)).
Proof.
  intros Hd. revert i done_ todo. induction fuel as [|fuel IH]; intros i done_ todo Hi Hgs Hfuel; [lia|].
  assert (Hall : Forall hinted (done_ ++ todo)) by apply (Forall_lookup_1 _ _ _ _ Hgs Hi).
  destruct todo as [|[he b] todo].
  - rewrite app_nil_r in *. destruct (gs !! S i) as [g|] eqn:Hg.
    + pose proof (Forall_lookup_1 _ _ _ _ Hgs Hg) as [Hne Hhg].
      destruct g as [|[he b] g]; [done|]. clear Hne.
      assert (Hh : hinted (he, b)) by (by apply Forall_cons in Hhg as [? _]).
      pose proof (hinted_size _ Hh) as Hb. unfold size in Hb. cbn [snd] in Hb.
      assert (Hpos : (0 < length (group_bytes ((he, b) :: g)))%nat)
        by (unfold group_bytes; cbn [fmap list_fmap concat snd]; rewrite length_app; lia).
      destruct (next_frame_step src gs (S i) ((he, b) :: g) (group_bytes done_) (length (group_bytes done_)) Hd Hg Hpos)
        as [En Ep]; [done|].
      replace (S i - 1)%nat with i in * by lia.
      cbn [scan_entries]. rewrite En, Ep.
      pose proof (next_in_frame src [] he b (group_bytes g) (S i) (S (S i)) Hh) as E1.
      change (group_bytes [] ++ b ++ group_bytes g) with (group_bytes ((he, b) :: g)) in E1.
      change (length (group_bytes [])) with 0%nat in E1. cbn [Nat.add] in E1. rewrite E1.
      rewrite (drop_S gs ((he, b) :: g) (S i)) in * by done. cbn [concat] in Hfuel. rewrite length_app in Hfuel.
      destruct (IH (S i) [(he, b)] g) as (I1 & I2 & I3); [done|done| |].
      { cbn [length] in Hfuel. lia. }
      replace (length (group_bytes [(he, b)])) with (length b) in I1, I2, I3
        by (unfold group_bytes; cbn; by rewrite app_nil_r).
      cbn [app] in I1, I2, I3.
      cbn [group_positions app positions hs_entries hs_error hs_end Nat.add].
      split_and!; [by rewrite <-I1|exact I2|exact I3].
    + pose proof (lookup_ge_None_1 _ _ Hg) as Hge. rewrite (drop_ge gs (S i)) by lia.
      cbn [scan_entries]. unfold next. cbn [sc_next_frame]. destruct Hd as [Hn _]. rewrite Hn.
      replace (length gs - S i)%nat with 0%nat by lia. cbn [find_entry sc_frame sc_pos sc_next_frame].
      rewrite Nat.leb_refl, Hn, (proj2 (Nat.leb_le _ _)) by lia. cbn [mbind result_bind hs_entries hs_error hs_end].
      split_and!; [done|done|]. pose proof (lookup_lt_Some _ _ _ Hi). exists done_. split.
      * rewrite last_lookup. rewrite <-Hi. f_equal. lia.
      * unfold position. cbn [sc_frame sc_pos sc_next_frame sc_frame_at].
        rewrite Hn, (proj2 (Nat.ltb_ge _ _)), andb_false_r by lia. f_equal. lia.
  - assert (Hh : hinted (he, b)) by (apply Forall_app in Hall as [_ Hall]; by apply Forall_cons in Hall as [? _]).
    cbn [scan_entries].
    pose proof (next_in_frame src done_ he b (group_bytes todo) i (S i) Hh) as E1.
    assert (Hgb : group_bytes done_ ++ b ++ group_bytes todo = group_bytes (done_ ++ (he, b) :: todo)).
    { rewrite group_bytes_app. done. }
    rewrite Hgb in E1. rewrite E1.
    assert (Hgd : (length (group_bytes done_) + length b)%nat = length (group_bytes (done_ ++ [(he, b)]))).
    { rewrite group_bytes_app, length_app. unfold group_bytes at 3. cbn. by rewrite app_nil_r. }
    pose proof (hinted_size _ Hh) as Hb. unfold size in Hb. cbn [snd] in Hb.
    assert (Hp : position src (mkScanner (group_bytes (done_ ++ (he, b) :: todo)) i (S i) (length (group_bytes done_)))
                 = mkPosition i (length (group_bytes done_))).
    { unfold position. cbn [sc_frame sc_pos]. rewrite <-Hgb, !length_app, (proj2 (Nat.leb_gt _ _)) by lia. done. }
    rewrite Hp. specialize (IH i (done_ ++ [(he, b)]) todo). rewrite <-!app_assoc in IH. cbn [app] in IH.
    cbn [length] in Hfuel. destruct (IH Hi Hgs ltac:(lia)) as (I1 & I2 & I3). rewrite <-Hgd in I1, I2, I3.
    cbn [hs_entries hs_error hs_end group_positions app]. by rewrite I1.
Qed.

(** A scan whose entries come in the order of their positions, all before its
    end, and that ends without an exception. *)
Definition scan_ok (sc : HintScan) : Prop :=
  StronglySorted position_lt ((hs_entries sc).*1 ++ [hs_end sc]) /\ hs_error sc = None.

Lemma position_lt_spec a b :
  position_lt a b <-> (frame a < frame b)%nat \/ (frame a = frame b /\ (offset a < offset b)%nat).
Proof. unfold position_lt, position_ltb. by rewrite orb_true_iff, andb_true_iff, !Nat.ltb_lt, Nat.eqb_eq. Qed.

#[export] Instance position_lt_trans : Transitive position_lt.
Proof. intros a b c. rewrite !position_lt_spec. lia. Qed.

(** Positions inside a group lie from its start to its end. *)
Lemma group_positions_sorted i n g :
  Forall hinted g ->
  StronglySorted position_lt ((group_positions i n g).*1 ++ [mkPosition i (n + length (group_bytes g))]).
Proof.
  intros Hg. revert n. induction Hg as [|[he b] g Hh Hg IH]; intros n; cbn [group_positions fmap list_fmap app].
  - cbn. repeat constructor.
  - assert (Hn : (n + length (group_bytes ((he, b) :: g)) = n + length b + length (group_bytes g))%nat).
    { unfold group_bytes. cbn [fmap list_fmap concat snd]. rewrite length_app. lia. }
    rewrite Hn. specialize (IH (n + length b)%nat). apply hinted_size in Hh. unfold size in Hh. cbn [snd] in Hh.
    cbn [fst]. constructor; [exact IH|].
    assert (Hhd : position_lt (mkPosition i n) (mkPosition i (n + length b))) by (apply position_lt_spec; cbn; lia).
    destruct g as [|[he' b'] g].
    + cbn [group_positions fmap list_fmap app]. rewrite Forall_singleton. apply position_lt_spec. cbn. lia.
    + cbn [group_positions fmap list_fmap app fst] in *. constructor; [done|].
      apply StronglySorted_inv in IH as [_ IH]. eapply Forall_impl; [exact IH|]. intros p Hp. by etrans.
Qed.

Lemma group_positions_frame i n g p : p ∈ (group_positions i n g).*1 -> frame p = i.
Proof.
  revert n. induction g as [|[he b] g IH]; intros n; cbn [group_positions fmap list_fmap fst]; [set_solver|].
  rewrite elem_of_cons. intros [->|?]; [done|by eapply IH].
Qed.

Lemma positions_frame i gs p : p ∈ (positions i gs).*1 -> (i <= frame p)%nat.
Proof.
  revert i. induction gs as [|g gs IH]; intros i; cbn [positions]; [set_solver|].
  rewrite fmap_app, elem_of_app. intros [Hp%group_positions_frame|Hp%IH]; lia.
Qed.

Lemma positions_sorted i gs g :
  Forall (fun g => g <> [] /\ Forall hinted g) gs -> last gs = Some g ->
  StronglySorted position_lt ((positions i gs).*1 ++ [mkPosition (i + length gs - 1) (length (group_bytes g))]).
Proof.
  intros Hgs. revert i. induction Hgs as [|g' gs [_ Hg'] Hgs IH]; intros i Hl; [done|].
  cbn [positions]. pose proof (group_positions_sorted i 0 g' Hg') as Hs. destruct gs as [|g'' gs].
  - cbn in Hl. injection Hl as ->. cbn [positions length] in *. rewrite app_nil_r.
    replace (i + 1 - 1)%nat with i by lia. exact Hs.
  - rewrite fmap_app, <-app_assoc. specialize (IH (S i) Hl). cbn [length] in *.
    replace (i + S (S (length gs)) - 1)%nat with (S i + S (length gs) - 1)%nat by lia.
    apply StronglySorted_app in Hs as (_ & Hs & _).
    apply StronglySorted_app. split_and!; [|done|done].
    intros x y Hx%group_positions_frame Hy. apply position_lt_spec. left. rewrite Hx.
    apply elem_of_app in Hy as [Hy%positions_frame|Hy%list_elem_of_singleton]; [lia|]. subst y. cbn. lia.
Qed.

Lemma positions_entries i gs : (positions i gs).*2 = (concat gs).*1.
Proof.
  revert i. induction gs as [|g gs IH]; intros i; [done|]. cbn [positions concat]. rewrite !fmap_app, IH. f_equal.
  generalize 0%nat. induction g as [|[he b] g IHg]; intros n; [done|]. cbn. by rewrite IHg.
Qed.

Lemma unit_offsets_lookup at_ cs i :
  (i <= length cs)%nat -> unit_offsets at_ cs !! i = Some (at_ + length (concat (take i cs)))%nat.
Proof.
  revert at_ i. induction cs as [|c cs IH]; intros at_ [|i] Hi; cbn in *; try lia; try (f_equal; lia).
  rewrite IH by lia. rewrite length_app. f_equal. lia.
Qed.

Lemma length_unit_offsets at_ cs : length (unit_offsets at_ cs) = S (length cs).
Proof. revert at_. induction cs; intros at_; cbn; auto. Qed.

(** The bytes of the [i]-th frame. *)
Lemma unit_bytes pre cs tail i c :
  cs !! i = Some c ->
  let units := unit_offsets (length pre) cs in
  subspan (pre ++ concat cs ++ tail) (units !!! i) (units !!! S i - units !!! i) = c.
Proof.
  intros Hi units. pose proof (lookup_lt_Some _ _ _ Hi) as Hlt.
  unfold units. rewrite !list_lookup_total_alt, !unit_offsets_lookup by lia. cbn [default].
  rewrite (take_S_r cs i c) by done. rewrite concat_app, length_app. cbn [concat]. rewrite app_nil_r.
  assert (Hc : concat cs = concat (take i cs) ++ c ++ concat (drop (S i) cs)).
  { rewrite <-(take_drop_middle cs i c Hi) at 1. by rewrite concat_app. }
  rewrite Hc, <-!app_assoc, (app_assoc pre).
  apply subspan_app; [by rewrite length_app|unfold Datatypes.id; lia].
Qed.

Lemma framed_decodes gs cs pre tail :
  Forall2 framed gs cs ->
  decodes (mkHintSource (pre ++ concat cs ++ tail) (unit_offsets (length pre) cs)) gs.
Proof.
  intros Hcs. assert (Hn : unit_count (mkHintSource (pre ++ concat cs ++ tail) (unit_offsets (length pre) cs)) = length gs).
  { unfold unit_count. cbn [hsrc_units]. rewrite length_unit_offsets, (Forall2_length _ _ _ Hcs). lia. }
  split; [done|]. intros i g Hg. destruct (Forall2_lookup_l _ _ _ _ _ Hcs Hg) as (c & Hc & [F1 F2 F3]).
  unfold load_frame. rewrite Hn, (proj2 (Nat.leb_gt _ _)) by (by eapply lookup_lt_Some).
  cbn [hsrc_file hsrc_units]. rewrite (unit_bytes pre cs tail i c Hc).
  pose proof (zstd_content_size _ c [] F1) as Hs. rewrite app_nil_r in Hs. rewrite Hs.
  unfold valid_frame_size. rewrite (proj2 (Z.leb_le _ _)) by done. cbn [negb throw_if mbind result_bind].
  by rewrite (zstd_decompresses _ _ F1), Z.eqb_refl.
Qed.

(** The fuel of a scan covers the entries. *)
Lemma decoded_bytes_enough gs cs pre tail :
  Forall2 framed gs cs -> Forall (fun g => g <> [] /\ Forall hinted g) gs ->
  (length (concat gs) <= Z.to_nat (decoded_bytes (mkHintSource (pre ++ concat cs ++ tail) (unit_offsets (length pre) cs))))%nat.
Proof.
  intros Hcs Hgs. destruct (framed_decodes gs cs pre tail Hcs) as [Hn _]. unfold decoded_bytes. rewrite Hn.
  cbn [hsrc_file hsrc_units].
  rewrite (lsum_ext _ (fun i => size (group_bytes (gs !!! i)))).
  - assert (Hg : forall g, Forall hinted g -> Z.of_nat (length g) <= size (group_bytes g)).
    { induction 1 as [|[he b] g Hh Hg IH]; [done|]. apply hinted_size in Hh.
      unfold group_bytes, size in *. cbn [fmap list_fmap concat snd length] in *. rewrite length_app. lia. }
    enough (Z.of_nat (length (concat gs)) <= lsum (fun i => size (group_bytes (gs !!! i))) (seq 0 (length gs))) by lia.
    clear Hn Hcs. induction gs as [|g gs IH]; [done|]. apply Forall_cons in Hgs as [[_ Hh] Hgs].
    cbn [concat length seq]. rewrite lsum_cons, <-seq_shift, lsum_fmap, length_app.
    specialize (IH Hgs). pose proof (Hg g Hh) as Hl. cbn [list_lookup_total].
    unfold compose. change ((g :: gs) !!! 0%nat) with g. change (fun i => size (group_bytes ((g :: gs) !!! S i)))
      with (fun i => size (group_bytes (gs !!! i))). lia.
  - intros i Hi%elem_of_seq. destruct (lookup_lt_is_Some_2 gs i ltac:(lia)) as [g Hg].
    destruct (Forall2_lookup_l _ _ _ _ _ Hcs Hg) as (c & Hc & [F1 _ _]).
    rewrite (unit_bytes pre cs tail i c Hc), (list_lookup_total_correct _ _ _ Hg).
    rewrite <-(app_nil_r c). by apply zstd_content_size.
Qed.

Lemma scan_written gs cs pre tail :
  Forall2 framed gs cs -> Forall (fun g => g <> [] /\ Forall hinted g) gs ->
  let src := mkHintSource (pre ++ concat cs ++ tail) (unit_offsets (length pre) cs) in
  let sc := scan_entries (S (Z.to_nat (decoded_bytes src))) src make_scanner in
  (hs_entries sc).*2 = (concat gs).*1 /\ scan_ok sc.
Proof.
  intros Hcs Hgs src. pose proof (framed_decodes gs cs pre tail Hcs) as Hd. fold src in Hd.
  pose proof (decoded_bytes_enough gs cs pre tail Hcs Hgs) as Hfuel. fold src in Hfuel.
  clearbody src. destruct gs as [|g gs].
  - unfold make_scanner. destruct Hd as [Hn _]. cbn [scan_entries]. unfold next. rewrite Hn.
    cbn [length sc_next_frame Nat.sub find_entry sc_frame sc_pos Nat.leb]. rewrite Hn.
    cbn. split; [done|]. split; [repeat constructor|done].
  - pose proof (Forall_inv Hgs) as [Hne Hg]. pose proof (group_bytes_nonempty g Hne Hg) as Hpos. unfold size in Hpos.
    destruct (next_frame_step src (g :: gs) 0 g [] 0 Hd) as [En Ep]; [done|lia|done|]. cbn in En, Ep.
    destruct (scan_entries_spec src (g :: gs) 0 [] g (S (Z.to_nat (decoded_bytes src))) Hd) as (S1 & S2 & g' & S3 & S4);
      [done|done|cbn [drop concat] in *; rewrite length_app in Hfuel; rewrite drop_0; lia|].
    cbn [app drop] in S1, S2, S4. change (group_bytes []) with (@nil byte) in *. cbn [length] in S1, S2, S4.
    assert (Hsame : scan_entries (S (Z.to_nat (decoded_bytes src))) src make_scanner
      = scan_entries (S (Z.to_nat (decoded_bytes src))) src (mkScanner (group_bytes g) 0 1 0)).
    { unfold make_scanner. cbn [scan_entries]. rewrite En, Ep.
      assert (Hp : position src (mkScanner (group_bytes g) 0 1 0) = mkPosition 0 0).
      { unfold position. cbn [sc_frame sc_pos]. rewrite (proj2 (Nat.leb_gt _ _)) by lia. done. }
      by rewrite Hp. }
    cbv zeta. rewrite Hsame.
    assert (Hes : hs_entries (scan_entries (S (Z.to_nat (decoded_bytes src))) src (mkScanner (group_bytes g) 0 1 0))
                  = positions 0 (g :: gs)) by (rewrite S1; done).
    rewrite Hes, positions_entries. split; [done|]. split; [|exact S2]. rewrite Hes, S4.
    apply (positions_sorted 0 (g :: gs) g' Hgs S3).
Qed.

Lemma length_framed_header : length framed_header = kFramedHeaderSize.
Proof. done. Qed.

Lemma not32_fits z : fits 32 z -> fits 32 (not32 z).
Proof. intros Hz. unfold not32. apply Castagnoli.lxor_fits; [done|by unfold fits]. Qed.

(** A file the writer closed opens, and scans back. *)
Lemma open_written w gs cs :
  wrote w gs cs [] -> Forall (fun g => g <> [] /\ Forall hinted g) gs ->
  exists file sc, hint_close w = Ok file /\ OpenForRead file = Ok sc
    /\ (hs_entries sc).*2 = (concat gs).*1 /\ scan_ok sc.
Proof.
  intros [W1 W2 W3 W4 W5] Hgs. set (tail := write_le 4 (replicate kFileCrcSize x00) 0 (not32 (hw_crc w))).
  assert (Htail : tail = le_split 4 (not32 (hw_crc w))).
  { unfold tail. rewrite write_le_split by done. done. }
  set (file := framed_header ++ concat cs ++ tail). set (end_ := length (framed_header ++ concat cs)).
  assert (Hlen : length file = (end_ + kFileCrcSize)%nat).
  { unfold file, end_. rewrite Htail, app_assoc, length_app, length_le_split. done. }
  assert (Hend : (kFramedHeaderSize <= end_)%nat) by (unfold end_; rewrite length_app, length_framed_header; lia).
  assert (Hclose : hint_close w = Ok file).
  { unfold hint_close, flush_frame. rewrite W4. cbn [group_bytes fmap list_fmap concat mbind result_bind].
    fold tail. unfold file. by rewrite W1, <-app_assoc. }
  destruct (window_spec file end_ 0 kFramedHeaderSize (mkOpenPass [] 0 0)) as (head & p & E & Hp & Ha & Hl & Hb & Hn);
    [|cbn; lia|unfold kFramedHeaderSize, kOpenChunkBytes; lia|].
  { split; cbn [op_buf op_at op_crc length Nat.add]; [by unfold subspan|lia|]. by rewrite take_0, crc32c_extend_nil. }
  assert (Hhead : exists rest, head = framed_header ++ rest).
  { exists (subspan (concat cs ++ tail) 0 (length head - kFramedHeaderSize)). rewrite Hb at 1.
    unfold subspan. rewrite drop_0, drop_0. unfold file. rewrite firstn_app, take_ge, length_framed_header by
      (rewrite ?length_framed_header; lia). done. }
  destruct Hhead as [rest ->].
  destruct (find_units_spec gs cs framed_header tail end_ p W2) as (p2 & E2 & Hcrc); [done|rewrite length_framed_header; lia| |].
  { unfold end_. rewrite length_app. lia. }
  eexists file, _. split; [done|].
  assert (Hopen : open_source file = Ok (mkHintSource file (unit_offsets kFramedHeaderSize cs))).
  { unfold open_source. rewrite Hlen, (proj2 (Nat.ltb_ge (end_ + kFileCrcSize) kFileCrcSize)) by lia. cbn [throw_if mbind result_bind].
    replace (end_ + kFileCrcSize - kFileCrcSize)%nat with end_ by lia. rewrite E.
    rewrite (proj2 (Nat.ltb_ge _ (length kFramedMagic))) by (rewrite length_app; cbn; lia).
    rewrite bool_decide_eq_true_2 by done. cbn [orb negb throw_if mbind result_bind].
    rewrite (proj2 (Nat.ltb_ge _ kFramedHeaderSize)) by (rewrite length_app, length_framed_header; lia).
    rewrite !bool_decide_eq_true_2 by done. cbn [orb negb throw_if mbind result_bind].
    change kFramedHeaderSize with (length framed_header). unfold file, end_ in *. rewrite E2. cbn [mbind result_bind].
    rewrite app_assoc. unfold subspan at 1. rewrite drop_app_length, Htail, take_ge by (by rewrite length_le_split).
    rewrite (read_le_field [] [] _ 0 4 (not32 (hw_crc w))); [|by rewrite app_nil_r|done|].
    - rewrite Hcrc, <-W1, <-W3, Z.eqb_refl. cbn [negb throw_if mbind result_bind]. by rewrite <-?app_assoc.
    - apply not32_fits. rewrite W3. apply crc32c_extend_fits. by vm_compute. }
  unfold OpenForRead. rewrite Hopen. cbn [mbind result_bind]. split; [done|].
  change kFramedHeaderSize with (length framed_header). apply (scan_written gs cs framed_header tail W2 Hgs).
Qed.

(** The entries [ps] written and the file closed, opened and scanned. *)
Lemma hint_file_reads ps :
  Forall hinted ps ->
  exists w file sc, add_entries ps.*2 OpenForWrite = Ok w /\ hint_close w = Ok file
    /\ OpenForRead file = Ok sc /\ (hs_entries sc).*2 = ps.*1 /\ scan_ok sc.
Proof.
  intros Hps. destruct (add_entries_wrote ps OpenForWrite [] [] [] open_for_write_wrote)
    as (w & gs & cs & pending & E & [W1 W2 W3 W4 W5] & Hp & Hc); [done|done|].
  destruct (flush_frame_wrote w gs cs pending) as (w' & gs' & cs' & E' & Hw' & Hc'); try done.
  { unfold kMaxFrameBytes. etrans; [apply Z.lt_le_incl, W5|]. by vm_compute. }
  destruct (open_written w' gs' cs' Hw') as (file & sc & Hf & Ho & Hes & Hok).
  { assert (Hall : Forall hinted (concat gs')) by (rewrite Hc', Hc; done).
    destruct Hw' as [_ Hfr _ _ _]. revert Hall. clear -Hfr. induction Hfr as [|g c gs cs [_ F2 _] Hfr IH]; [constructor|].
    cbn [concat]. intros [Hg Hgs]%Forall_app. constructor; [done|]. by apply IH. }
  exists w, file, sc. split_and!; try done.
  - unfold hint_close in *. rewrite E'. cbn [mbind result_bind].
    assert (Hflush : flush_frame w' = Ok w') by (unfold flush_frame; by rewrite (wr_pending _ _ _ _ Hw')).
    rewrite Hflush in Hf. done.
  - by rewrite Hes, Hc', Hc.
Qed.

(** Whatever the bytes, a pass that finds every frame has read them all. *)
Lemma find_units_reads fuel file end_ at_ p us p' :
  pass_ok file end_ p -> (op_at p <= at_ <= op_at p + length (op_buf p))%nat -> (end_ - at_ <= fuel)%nat ->
  find_units fuel file end_ at_ p = Ok (us, p') -> op_crc p' = crc32c_extend 0 (take end_ file).
Proof.
  revert at_ p us. induction fuel as [|fuel IH]; intros at_ p us Hp Hat Hf E.
  - injection E as <- <-. rewrite (po_crc _ _ _ Hp). pose proof (po_end _ _ _ Hp). do 2 f_equal. lia.
  - cbn [find_units] in E. destruct (Nat.ltb_spec at_ end_).
    + destruct (window_spec file end_ at_ (Z.to_nat kMaxPackedFrameBytes) p) as (b & p1 & E1 & Hp1 & Ha & Hl & _ & _);
        [done|done|pose proof zstd_max_packed; unfold kMaxPackedFrameBytes; lia|].
      rewrite E1 in E. destruct (ZSTD_findFrameCompressedSize b) as [n|] eqn:En; [|done].
      apply zstd_frame_within in En. destruct (negb _); [done|].
      apply mbind_ok in E as ([us1 p2] & E2 & [= <- <-]).
      apply (IH (at_ + n)%nat p1 us1); [done|lia|lia|exact E2].
    + injection E as <- <-. rewrite (po_crc _ _ _ Hp). pose proof (po_end _ _ _ Hp). do 2 f_equal. lia.
Qed.

(** ** Properties *)

(** C30: a hint file reads back as it was written.  Entries appended by the
    writer, cut into compressed frames and closed with the trailer, are all
    returned by a scan of the opened file, in order, with strictly ascending
    positions and no error, for every sequence of well-formed entries. *)
Theorem hint_file_roundtrip ps :
  Forall hinted ps ->
  exists w file sc, add_entries ps.*2 OpenForWrite = Ok w /\ hint_close w = Ok file
    /\ OpenForRead file = Ok sc /\ (hs_entries sc).*2 = ps.*1 /\ scan_ok sc.
Proof. apply hint_file_reads. Qed.

(** C31: no byte of a hint file is used unchecked.  Whatever the bytes, a
    file that opens ends in the inverted CRC-32C of every byte before its
    trailer, though the pass reads it in chunks and only looks at headers. *)
Theorem open_source_checks_all file src :
  open_source file = Ok src ->
  let end_ := (length file - kFileCrcSize)%nat in
  read_le 4 (drop end_ file) 0 = not32 (crc32c_extend 0 (take end_ file)).
Proof.
  intros E end_. unfold open_source in E. apply mbind_ok in E as ([] & Hl%throw_if_ok%Nat.ltb_ge & E). fold end_ in E.
  destruct (window_spec file end_ 0 kFramedHeaderSize (mkOpenPass [] 0 0)) as (b & p & E1 & Hp & Ha & Hb & _ & Hn);
    [|cbn; lia|unfold kFramedHeaderSize, kOpenChunkBytes; lia|].
  { split; cbn [op_buf op_at op_crc length Nat.add]; [by unfold subspan|lia|by rewrite take_0, crc32c_extend_nil]. }
  rewrite E1 in E. apply mbind_ok in E as ([] & _ & E).
  apply mbind_ok in E as ([] & Hh%throw_if_ok%Nat.ltb_ge & E). apply mbind_ok in E as ([] & _ & E).
  apply mbind_ok in E as ([us p2] & E2 & E). apply mbind_ok in E as ([] & Hc%throw_if_ok & _).
  apply negb_false_iff, Z.eqb_eq in Hc. unfold subspan in Hc. rewrite take_ge in Hc by (rewrite length_drop; lia).
  rewrite <-Hc. f_equal. apply (find_units_reads end_ file end_ kFramedHeaderSize p us p2); [done|lia|lia|exact E2].
Qed.

End written.

(** ** A concrete codec

    Frames that store their content behind its length. *)

Module Stored.

#[export] Instance zstd : Zstd := {
  ZSTD_compress x := if fitsb 64 (size x) then Some (le_split 8 (size x) ++ x) else None;
  ZSTD_findFrameCompressedSize b :=
    let n := (8 + Z.to_nat (le_combine (take 8 b)))%nat in
    if (length b <? n)%nat then None else Some n;
  ZSTD_getFrameContentSize b := le_combine (take 8 b);
  ZSTD_decompress c := Some (drop 8 c);
  ZSTD_compressBound n := n + 8
}.

#[export] Instance zstd_laws : ZstdLaws.
Proof.
  assert (Hinv : forall x c, ZSTD_compress x = Some c ->
    fits 64 (size x) /\ c = le_split 8 (size x) ++ x).
  { intros x c. cbn. destruct (fitsb 64 (size x)) eqn:E; [|done]. intros [= <-]. by apply fitsb_true in E. }
  assert (Htake : forall x rest, take 8 ((le_split 8 (size x) ++ x) ++ rest) = le_split 8 (size x)).
  { intros x rest. rewrite <-app_assoc. by rewrite take_app_length' by (by rewrite length_le_split). }
  split.
  - intros x Hx. cbn. apply fitsb_true in Hx. rewrite Hx. by eexists.
  - intros x c [Hx ->]%Hinv. cbn. unfold size. rewrite length_app, length_le_split. lia.
  - intros n m. cbn. lia.
  - intros x c rest [Hx ->]%Hinv. cbn [ZSTD_findFrameCompressedSize zstd]. rewrite Htake.
    rewrite le_combine_split_fits by done. unfold size. rewrite Nat2Z.id.
    rewrite (proj2 (Nat.ltb_ge _ _)) by (rewrite !length_app, length_le_split; lia).
    by rewrite length_app, length_le_split.
  - intros x c rest [Hx ->]%Hinv. cbn [ZSTD_getFrameContentSize zstd]. rewrite Htake.
    by rewrite le_combine_split_fits by done.
  - intros x c [Hx ->]%Hinv. cbn [ZSTD_decompress zstd].
    by rewrite drop_app_length' by (by rewrite length_le_split).
  - intros b n. cbn [ZSTD_findFrameCompressedSize zstd]. destruct (Nat.ltb_spec (length b) (8 + Z.to_nat (le_combine (take 8 b)))); [done|].
    intros [= <-]. lia.
  - by vm_compute.
Qed.

End Stored.

Section witnesses.
Import Castagnoli Stored.

Definition sample_hints : list HintEntry :=
  [mkHintEntry 3 RangeDel 40 [x61] 1 [x63] 0; mkHintEntry 4 EChangeMarker 70 [] 8 [] 9;
   mkHintEntry 1 Put 0 [x61] 2 [] 0; mkHintEntry 2 Delete 21 [x62] 0 [] 0].

Definition sample_hint_bytes (h : HintEntry) : bytes :=
  match entry_type h with
  | RangeDel => match serialize_range_del_entry (sequence h) (file_offset h) (key h) (end_key h) with Ok b => b | Err _ => [] end
  | EChangeMarker => serialize_change_marker_entry (sequence h) (file_offset h) (marker_id h)
  | et => match serialize_entry (sequence h) et (file_offset h) (value_size h) (key h) with Ok b => b | Err _ => [] end
  end.

Lemma sample_hinted : Forall hinted (zip sample_hints (sample_hint_bytes <$> sample_hints)).
Proof.
  assert (Hv : Forall valid_hint sample_hints) by (repeat constructor; by vm_compute).
  apply Forall_fold_right. cbn [sample_hints fmap list_fmap zip zip_with foldr]. unfold hinted. cbn [fst snd].
  unfold sample_hints in Hv. rewrite !Forall_cons in Hv. destruct Hv as (V1 & V2 & V3 & V4 & _).
  split_and!; try done.
  - apply (serializes_range_del 3 40 [x61] [x63]). by vm_compute.
  - apply (serializes_marker 4 70 9).
  - by apply (serializes_point 1 Put 0 2 [x61]).
  - by apply (serializes_point 2 Delete 21 0 [x62]).
Defined.

Lemma hint_file_roundtrip_witness :
  exists w file sc, add_entries (sample_hint_bytes <$> sample_hints) OpenForWrite = Ok w
    /\ hint_close w = Ok file /\ OpenForRead file = Ok sc /\ (hs_entries sc).*2 = sample_hints /\ scan_ok sc.
Proof. apply (hint_file_roundtrip (zip sample_hints (sample_hint_bytes <$> sample_hints)) sample_hinted). Defined.

Definition sample_file : bytes :=
  match add_entries (sample_hint_bytes <$> sample_hints) OpenForWrite ≫= hint_close with Ok f => f | Err _ => [] end.

Lemma open_source_checks_all_witness :
  exists src, open_source sample_file = Ok src
    /\ read_le 4 (drop (length sample_file - kFileCrcSize) sample_file) 0
       = not32 (crc32c_extend 0 (take (length sample_file - kFileCrcSize) sample_file)).
Proof.
  exists (match open_source sample_file with Ok s => s | Err _ => mkHintSource [] [] end).
  split; [|eapply (open_source_checks_all sample_file)]; by vm_compute.
Defined.
End witnesses.
