(* ===== verification/KeyDir.v ===== *)
(** * The key directory and per-file statistics

    Models the first half of [internals.cppm]: the bit-packed [KeyDirEntry],
    the ownership comparator [kde_newer], the size functions, [FileStats] with
    its delta policy, change-marker lookup, and the [kd_*] functions through
    which the engine uses the key directory.

    The key directory is an ordered map from keys to entries.  The engine has
    two builds of it: one that stores keys, and the blind-leaf tree that
    reads them back from the data files and can find a key by the location of
    its record.  [KeyDirKind] selects the build; the two differ only in
    whether the operations by location apply. *)

From S2P Require Import Prelude Codec.
Import Types.

(** ** KeyDirEntry: two packed 64-bit words *)

Module KeyDirEntry.

Record t : Type := mk { word0 : Z; word1 : Z }.

#[export] Instance t_eq_dec : EqDecision t.
Proof. solve_decision. Defined.

Definition kMaxSequence : Z := 2 ^ 48 - 1.
Definition kMaxFileId : Z := 2 ^ 20 - 1.
Definition kMaxFileOffset : Z := 2 ^ 32 - 1.
Definition kMaxValueSize : Z := 2 ^ 28 - 1.

Definition check_sequence (v : Z) : result unit :=
  throw_if (kMaxSequence <? v) (RuntimeError "sequence exceeds packed limit").
Definition check_file_id (v : Z) : result unit :=
  throw_if (kMaxFileId <? v) (RuntimeError "file_id exceeds packed limit").
Definition check_file_offset (v : Z) : result unit :=
  throw_if (kMaxFileOffset <? v) (RuntimeError "file_offset exceeds packed limit").
Definition check_value_size (v : Z) : result unit :=
  throw_if (kMaxValueSize <? v) (RuntimeError "value_size exceeds packed limit").

Definition make (sequence file_offset file_id value_size : Z) : result t :=
  _ ← check_sequence sequence;
  _ ← check_file_id file_id;
  _ ← check_file_offset file_offset;
  _ ← check_value_size value_size;
  Ok (mk (Z.lor (wrap 64 (Z.shiftl sequence 16)) (Z.land file_id 0xFFFF))
         (Z.lor (Z.lor (wrap 64 (Z.shiftl file_offset 32))
                       (wrap 64 (Z.shiftl value_size 4)))
                (Z.shiftr file_id 16))).

Definition sequence (e : t) : Z := Z.shiftr (word0 e) 16.
Definition file_id (e : t) : Z :=
  let low := Z.land (word0 e) 0xFFFF in
  let high := Z.land (word1 e) 0xF in
  Z.lor (wrap 32 (Z.shiftl high 16)) low.
Definition file_offset (e : t) : Z := Z.shiftr (word1 e) 32.
Definition value_size (e : t) : Z := wrap 32 (Z.land (Z.shiftr (word1 e) 4) 0xFFFFFFF).

(** The fields a packed entry can hold. *)
Definition packable (sq off fid vs : Z) : Prop :=
  0 <= sq <= kMaxSequence /\ 0 <= off <= kMaxFileOffset /\
  0 <= fid <= kMaxFileId /\ 0 <= vs <= kMaxValueSize.

(** Bits [k, k+w) of [hi * 2^k' + lo]-style words, by arithmetic. *)
Lemma lor_shift a b k :
  0 <= k -> 0 <= b < 2 ^ k -> Z.lor (a * 2 ^ k) b = a * 2 ^ k + b.
Proof.
  intros Hk Hb. rewrite Z.lor_comm, <-Z.shiftl_mul_pow2 by done.
  rewrite Serialization.lor_add_disjoint by done. rewrite Z.shiftl_mul_pow2 by done. lia.
Qed.

Lemma make_words sq off fid vs :
  packable sq off fid vs ->
  make sq off fid vs = Ok (mk (sq * 2 ^ 16 + fid mod 2 ^ 16)
                              (off * 2 ^ 32 + (vs * 2 ^ 4 + fid / 2 ^ 16))).
Proof.
  unfold packable, kMaxSequence, kMaxFileOffset, kMaxFileId, kMaxValueSize.
  intros (Hs & Ho & Hf & Hv).
  unfold make, check_sequence, check_file_id, check_file_offset, check_value_size, throw_if.
  unfold kMaxSequence, kMaxFileOffset, kMaxFileId, kMaxValueSize.
  do 4 (rewrite (proj2 (Z.ltb_ge _ _)) by lia). monad_simpl. f_equal.
  rewrite !Z.shiftl_mul_pow2, Z.shiftr_div_pow2 by lia.
  change 0xFFFF with (Z.ones 16). rewrite Z.land_ones by lia.
  rewrite !wrap_small by (unfold fits; lia).
  assert (0 <= fid / 2 ^ 16 < 2 ^ 4) by (split; [apply Z.div_pos; lia|apply Z.div_lt_upper_bound; lia]).
  pose proof (Z.mod_pos_bound fid (2 ^ 16)).
  rewrite <-Z.lor_assoc, (lor_shift sq), (lor_shift vs), (lor_shift off) by lia. done.
Qed.

Record fields (e : t) (sq off fid vs : Z) : Prop := {
  f_sequence : sequence e = sq;
  f_offset : file_offset e = off;
  f_file_id : file_id e = fid;
  f_value_size : value_size e = vs
}.

Lemma make_fields sq off fid vs :
  packable sq off fid vs -> exists e, make sq off fid vs = Ok e /\ fields e sq off fid vs.
Proof.
  intros H. eexists. split; [by apply make_words|].
  unfold packable, kMaxSequence, kMaxFileOffset, kMaxFileId, kMaxValueSize in H.
  assert (0 <= fid / 2 ^ 16 < 2 ^ 4) by (split; [apply Z.div_pos; lia|apply Z.div_lt_upper_bound; lia]).
  pose proof (Z.mod_pos_bound fid (2 ^ 16)). pose proof (Z.div_mod fid (2 ^ 16)).
  split; unfold sequence, file_offset, file_id, value_size; cbn [word0 word1].
  - rewrite Z.shiftr_div_pow2 by lia. symmetry. apply (Z.div_unique_pos _ _ _ (fid mod 2 ^ 16)); lia.
  - rewrite Z.shiftr_div_pow2 by lia.
    symmetry. apply (Z.div_unique_pos _ _ _ (vs * 2 ^ 4 + fid / 2 ^ 16)); lia.
  - change 0xFFFF with (Z.ones 16). change 0xF with (Z.ones 4). rewrite !Z.land_ones by lia.
    assert (Hlo : (sq * 2 ^ 16 + fid mod 2 ^ 16) mod 2 ^ 16 = fid mod 2 ^ 16).
    { symmetry. apply (Z.mod_unique_pos _ _ sq); lia. }
    assert (Hhi : (off * 2 ^ 32 + (vs * 2 ^ 4 + fid / 2 ^ 16)) mod 2 ^ 4 = fid / 2 ^ 16).
    { symmetry. apply (Z.mod_unique_pos _ _ (off * 2 ^ 28 + vs)); lia. }
    rewrite Hlo, Hhi, Z.shiftl_mul_pow2, wrap_small by (unfold fits; lia).
    rewrite lor_shift by lia. lia.
  - change 0xFFFFFFF with (Z.ones 28). rewrite Z.land_ones, Z.shiftr_div_pow2 by lia.
    assert (Hd : (off * 2 ^ 32 + (vs * 2 ^ 4 + fid / 2 ^ 16)) / 2 ^ 4 = off * 2 ^ 28 + vs).
    { symmetry. apply (Z.div_unique_pos _ _ _ (fid / 2 ^ 16)); lia. }
    rewrite Hd. assert (Hm : (off * 2 ^ 28 + vs) mod 2 ^ 28 = vs).
    { symmetry. apply (Z.mod_unique_pos _ _ off); lia. }
    rewrite Hm, wrap_small by (unfold fits; lia). done.
Qed.

Lemma make_ok sq off fid vs e :
  0 <= sq -> 0 <= off -> 0 <= fid -> 0 <= vs ->
  make sq off fid vs = Ok e -> packable sq off fid vs.
Proof.
  intros ???? H. unfold make in H.
  apply mbind_ok in H as ([] & Hs%throw_if_ok & H).
  apply mbind_ok in H as ([] & Hf%throw_if_ok & H).
  apply mbind_ok in H as ([] & Ho%throw_if_ok & H).
  apply mbind_ok in H as ([] & Hv%throw_if_ok & _).
  bool_to_prop. unfold packable. lia.
Qed.

(** The accessors determine the entry. *)
Lemma entry_ext a b :
  sequence a = sequence b -> file_offset a = file_offset b ->
  file_id a = file_id b -> value_size a = value_size b -> a = b.
Proof.
  destruct a as [a0 a1], b as [b0 b1].
  unfold sequence, file_offset, file_id, value_size; cbn [word0 word1].
  change 0xFFFF with (Z.ones 16). change 0xF with (Z.ones 4).
  change 0xFFFFFFF with (Z.ones 28). rewrite !Z.land_ones, !Z.shiftr_div_pow2 by lia.
  assert (Hid : forall w0 w1, Z.lor (wrap 32 (Z.shiftl (w1 mod 2 ^ 4) 16)) (w0 mod 2 ^ 16)
                = (w1 mod 2 ^ 4) * 2 ^ 16 + w0 mod 2 ^ 16).
  { intros w0 w1. pose proof (Z.mod_pos_bound w1 (2 ^ 4)). pose proof (Z.mod_pos_bound w0 (2 ^ 16)).
    rewrite Z.shiftl_mul_pow2, wrap_small by (unfold fits; lia). rewrite lor_shift by lia. done. }
  rewrite !Hid, !wrap_small by (unfold fits; pose proof (Z.mod_pos_bound (a1 / 2 ^ 4) (2 ^ 28));
    pose proof (Z.mod_pos_bound (b1 / 2 ^ 4) (2 ^ 28)); lia).
  intros Hs Ho Hf Hv.
  assert (Hdec : forall w1, w1 = w1 / 2 ^ 32 * 2 ^ 32 + (w1 / 2 ^ 4) mod 2 ^ 28 * 2 ^ 4 + w1 mod 2 ^ 4).
  { intros w1. pose proof (Z.div_mod w1 (2 ^ 4)). pose proof (Z.div_mod (w1 / 2 ^ 4) (2 ^ 28)).
    rewrite Z.div_div in * by lia. change (2 ^ 4 * 2 ^ 28) with (2 ^ 32) in *. lia. }
  pose proof (Z.div_mod a0 (2 ^ 16)). pose proof (Z.div_mod b0 (2 ^ 16)).
  pose proof (Z.mod_pos_bound a0 (2 ^ 16)). pose proof (Z.mod_pos_bound b0 (2 ^ 16)).
  f_equal; [lia|]. rewrite (Hdec a1), (Hdec b1), Ho, Hv. lia.
Qed.

(** C12: packing a key directory entry loses nothing.  [make] returns an entry
    exactly when every field is within its bit width (48-bit sequence, 32-bit
    offset, 20-bit file id, 28-bit value size), and then the four accessors
    give the fields back. *)
Theorem make_accessors sq off fid vs :
  0 <= sq -> 0 <= off -> 0 <= fid -> 0 <= vs ->
  match make sq off fid vs with
  | Ok e => packable sq off fid vs /\ sequence e = sq /\ file_offset e = off
            /\ file_id e = fid /\ value_size e = vs
  | Err _ => ~ packable sq off fid vs
  end.
Proof.
  intros Hs Ho Hf Hv. destruct (make sq off fid vs) as [e|x] eqn:E.
  - assert (Hp : packable sq off fid vs) by (by eapply make_ok).
    destruct (make_fields _ _ _ _ Hp) as (e' & E' & []).
    assert (e' = e) as -> by congruence. auto.
  - intros Hp. destruct (make_fields _ _ _ _ Hp) as (e' & E' & _). congruence.
Qed.

Lemma make_accessors_witness :
  exists e, make 281474976710655 4294967295 1048575 268435455 = Ok e
            /\ file_id e = 1048575.
Proof.
  pose proof (make_accessors 281474976710655 4294967295 1048575 268435455
    ltac:(lia) ltac:(lia) ltac:(lia) ltac:(lia)) as W.
  destruct (make _ _ _ _) as [e|] eqn:E; [|vm_compute in E; discriminate].
  exists e. split; [done|]. apply W.
Defined.

End KeyDirEntry.

Abbreviation KeyDirEntry := KeyDirEntry.t.

(** ** Ownership and sizes *)

Section ownership.
Import KeyDirEntry.

Definition kde_newer (a b : KeyDirEntry) : result bool :=
  if negb (sequence a =? sequence b) then Ok (sequence b <? sequence a)
  else if negb (file_id a =? file_id b) then
    Err (SequenceOverlap (file_id a) (file_id b))
  else if negb (file_offset a =? file_offset b) then
    Err (RuntimeError "bytecask: corrupt database: two entries share the same sequence number but differ in physical location")
  else Ok false.

Definition entry_size (key_size value_size : Z) : Z :=
  Z.of_nat DataEntry.kHeaderSize + key_size + value_size + Z.of_nat DataEntry.kCrcSize.

Definition tombstone_size (type : EntryType) (key_size value_size : Z) : Z :=
  match type with
  | Delete | RangeDel => entry_size key_size value_size
  | _ => 0
  end.

Definition marker_size (type : EntryType) : Z :=
  match type with
  | BulkBegin | BulkEnd => entry_size 0 0
  | _ => 0
  end.

Definition change_marker_size (type : EntryType) : Z :=
  match type with
  | EChangeMarker => entry_size 0 (Z.of_nat kChangeMarkerIdBytes)
  | _ => 0
  end.

(** The scan stops at the first marker above [sequence]. *)
Fixpoint marker_at_from (at_ : ChangeMarker) (markers : list ChangeMarker) (sequence : Z)
    : ChangeMarker :=
  match markers with
  | [] => at_
  | m :: ms => if sequence <? since_sequence m then at_ else marker_at_from m ms sequence
  end.

Definition marker_at (markers : option (list ChangeMarker)) (sequence : Z) : ChangeMarker :=
  match markers with
  | None => kOriginMarker
  | Some ms => marker_at_from kOriginMarker ms sequence
  end.

End ownership.

(** ** Per-file statistics *)

Module Stats.

Record FileStats : Type := mkFileStats {
  live_bytes : Z;
  total_bytes : Z;
  min_sequence : Z;
  max_sequence : Z;
  tombstone_bytes : Z;
  marker_bytes : Z;
  change_marker_bytes : Z
}.

#[export] Instance FileStats_eq_dec : EqDecision FileStats.
Proof. solve_decision. Defined.

(** [FileStats{}]. *)
Definition FileStats_zero : FileStats := mkFileStats 0 0 0 0 0 0 0.

(** Dead Put bytes, saturating at zero. *)
Definition reclaimable_bytes (fs : FileStats) : Z :=
  let kept := wrap 64 (live_bytes fs + tombstone_bytes fs + marker_bytes fs
                       + change_marker_bytes fs) in
  if kept <? total_bytes fs then total_bytes fs - kept else 0.

Record FileStatsDelta : Type := mkDelta {
  live_added : Z;
  live_removed : Z;
  total_added : Z;
  tombstone_added : Z;
  marker_added : Z;
  change_marker_added : Z;
  d_min_sequence : Z;
  d_max_sequence : Z
}.

(** The designated initialisers the engine uses; the other fields are zero. *)
Definition d_live_removed (n : Z) : FileStatsDelta := mkDelta 0 n 0 0 0 0 0 0.
Definition d_live_added (n : Z) : FileStatsDelta := mkDelta n 0 0 0 0 0 0 0.
Definition d_put (n : Z) : FileStatsDelta := mkDelta n 0 n 0 0 0 0 0.
Definition d_tombstone (n : Z) : FileStatsDelta := mkDelta 0 0 n n 0 0 0 0.
Definition d_marker (n : Z) : FileStatsDelta := mkDelta 0 0 n 0 n 0 0 0.
Definition d_change_marker (n : Z) : FileStatsDelta := mkDelta 0 0 n 0 0 n 0 0.
Definition d_sequences (lo hi : Z) : FileStatsDelta := mkDelta 0 0 0 0 0 0 lo hi.

(** [FileStatsPolicy::apply]: the counters are [uint64_t] and wrap. *)
Definition apply (fs : FileStats) (d : FileStatsDelta) : FileStats :=
  mkFileStats
    (u64_sub (u64_add (live_bytes fs) (live_added d)) (live_removed d))
    (u64_add (total_bytes fs) (total_added d))
    (if min_sequence fs =? 0 then d_min_sequence d else min_sequence fs)
    (Z.max (max_sequence fs) (d_max_sequence d))
    (u64_add (tombstone_bytes fs) (tombstone_added d))
    (u64_add (marker_bytes fs) (marker_added d))
    (u64_add (change_marker_bytes fs) (change_marker_added d)).

(** [FileStatsPolicy::combine]. *)
Definition combine (older d : FileStatsDelta) : FileStatsDelta :=
  mkDelta
    (u64_add (live_added older) (live_added d))
    (u64_add (live_removed older) (live_removed d))
    (u64_add (total_added older) (total_added d))
    (u64_add (tombstone_added older) (tombstone_added d))
    (u64_add (marker_added older) (marker_added d))
    (u64_add (change_marker_added older) (change_marker_added d))
    (if d_min_sequence older =? 0 then d_min_sequence d else d_min_sequence older)
    (Z.max (d_max_sequence older) (d_max_sequence d)).

(** Equality modulo [2^64], the working notion for the counters. *)
Lemma wrap_add_l a b : wrap 64 (wrap 64 a + b) = wrap 64 (a + b).
Proof. unfold wrap. by rewrite Zplus_mod_idemp_l. Qed.
Lemma wrap_add_r a b : wrap 64 (a + wrap 64 b) = wrap 64 (a + b).
Proof. unfold wrap. by rewrite Zplus_mod_idemp_r. Qed.
Lemma wrap_sub_l a b : wrap 64 (wrap 64 a - b) = wrap 64 (a - b).
Proof. unfold wrap. by rewrite Zminus_mod_idemp_l. Qed.
Lemma wrap_sub_r a b : wrap 64 (a - wrap 64 b) = wrap 64 (a - b).
Proof. unfold wrap. by rewrite Zminus_mod_idemp_r. Qed.
Lemma wrap_add_sub_l a b c : wrap 64 (wrap 64 a + b - c) = wrap 64 (a + b - c).
Proof. by rewrite <-wrap_sub_l, wrap_add_l, wrap_sub_l. Qed.
Lemma wrap_add_sub_r a b c : wrap 64 (a + wrap 64 b - c) = wrap 64 (a + b - c).
Proof. by rewrite <-wrap_sub_l, wrap_add_r, wrap_sub_l. Qed.
Lemma wrap_wrap a : wrap 64 (wrap 64 a) = wrap 64 a.
Proof. unfold wrap. by rewrite Zmod_mod. Qed.

Create Rewrite HintDb u64.
#[export] Hint Rewrite wrap_add_l wrap_add_r wrap_sub_l wrap_sub_r
  wrap_add_sub_l wrap_add_sub_r wrap_wrap : u64.

(** Normalises nested wraps and compares the results as integers. *)
Ltac u64_ring := autorewrite with u64; apply (f_equal (wrap 64)); lia.

(** The law [PatchPolicy] asks of a policy. *)
Lemma apply_combine fs older d :
  apply (apply fs older) d = apply fs (combine older d).
Proof.
  unfold apply, combine; cbn. f_equal; try u64_ring.
  - destruct (Z.eqb_spec (min_sequence fs) 0) as [E|Hn]; [done|].
    by rewrite (proj2 (Z.eqb_neq _ _) Hn).
  - lia.
Qed.

(** Order of two deltas is immaterial when at most one carries sequences. *)
Lemma apply_comm fs d d' :
  d_min_sequence d' = 0 -> d_max_sequence d' = 0 ->
  apply (apply fs d) d' = apply (apply fs d') d.
Proof.
  intros Hmin Hmax. unfold apply; cbn. rewrite Hmin, Hmax. f_equal; try u64_ring; try lia.
  destruct (Z.eqb_spec (min_sequence fs) 0) as [E|Hn].
  - by destruct (d_min_sequence d =? 0) eqn:E'; bool_to_prop.
  - by rewrite !(proj2 (Z.eqb_neq _ _) Hn).
Qed.

End Stats.

(** ** The key directory

    [KeyDirHit], what a put or an erase displaced, is the displaced entry.
    The blind-leaf build reads records off the disk to tell keys apart; the
    operations here are those of the map it implements, and a failing read is
    an outcome of the code that calls them (a slot of a batch, an entry vacuum
    copies, the bound of a scan). *)

Module Dir.
Import KeyDirEntry.

(** [kKeyDirReadsKeys]: the blind-leaf build, whose operations by location
    apply. *)
Class KeyDirKind : Type := kKeyDirReadsKeys : bool.

Abbreviation KeyDirTree := (gmap bytes KeyDirEntry).

Definition kd_get (t : KeyDirTree) (k : bytes) : option KeyDirEntry := t !! k.
Definition kd_contains (t : KeyDirTree) (k : bytes) : bool := bool_decide (is_Some (t !! k)).

Definition kd_put (t : KeyDirTree) (k : bytes) (e : KeyDirEntry)
    : option KeyDirEntry * KeyDirTree := (t !! k, <[k := e]> t).
Definition kd_erase (t : KeyDirTree) (k : bytes) : option KeyDirEntry * KeyDirTree :=
  (t !! k, delete k t).

(** Two entries at one record: [to_blind_ref] of both is the same. *)
Definition same_ref (a b : KeyDirEntry) : bool :=
  (file_id a =? file_id b) && (wrap 32 (file_offset a) =? wrap 32 (file_offset b)).

Section kind.
Context `{KeyDirKind}.

(** Operations on a key whose entry was looked up earlier, [at_]; each
    declines when the key is no longer at that record. *)
Definition kd_holds (t : KeyDirTree) (k : bytes) (at_ : KeyDirEntry) : bool :=
  kKeyDirReadsKeys && match t !! k with Some e => same_ref e at_ | None => false end.

Definition kd_put_at (t : KeyDirTree) (k : bytes) (at_ e : KeyDirEntry) : option KeyDirTree :=
  if kd_holds t k at_ then Some (<[k := e]> t) else None.

Definition kd_erase_at (t : KeyDirTree) (k : bytes) (at_ : KeyDirEntry) : option KeyDirTree :=
  if kd_holds t k at_ then Some (delete k t) else None.

Definition kd_restore (t : KeyDirTree) (k : bytes) (now was : KeyDirEntry)
    : option KeyDirTree := kd_put_at t k now was.

Definition kd_remove (t : KeyDirTree) (k : bytes) (now : KeyDirEntry) : option KeyDirTree :=
  kd_erase_at t k now.

End kind.

Definition kd_hit (at_ : KeyDirEntry) : KeyDirEntry := at_.

(** The entries in key order. *)
Definition entry_le (a b : bytes * KeyDirEntry) : Prop := key_le a.1 b.1.
#[export] Instance entry_le_dec : RelDecision entry_le.
Proof. intros a b. unfold entry_le. apply _. Defined.
#[export] Instance entry_le_total : Total entry_le.
Proof. intros a b. unfold entry_le. apply (total key_le). Qed.
#[export] Instance entry_le_trans : Transitive entry_le.
Proof. intros a b c. unfold entry_le. apply transitivity. Qed.

Definition kd_begin (t : KeyDirTree) : list (bytes * KeyDirEntry) :=
  merge_sort entry_le (map_to_list t).

Definition kd_lower_bound (t : KeyDirTree) (from : bytes) : list (bytes * KeyDirEntry) :=
  filter (fun p => key_le from p.1) (kd_begin t).

Definition kd_upper_bound (t : KeyDirTree) (from : bytes) : list (bytes * KeyDirEntry) :=
  filter (fun p => key_lt from p.1) (kd_begin t).

(** The loop [for (it = lower_bound(from); ...) if (key >= to) break;]. *)
Fixpoint until (to : bytes) (l : list (bytes * KeyDirEntry)) : list (bytes * KeyDirEntry) :=
  match l with
  | [] => []
  | (k, e) :: l => if key_leb to k then [] else (k, e) :: until to l
  end.

Definition kd_range (t : KeyDirTree) (from to : bytes) : list (bytes * KeyDirEntry) :=
  until to (kd_lower_bound t from).

(** Keys in [from, to), counted no further than [limit]. *)
Definition kd_count (t : KeyDirTree) (from to : bytes) (limit : Z) : Z :=
  Z.min limit (Z.of_nat (length (kd_range t from to))).

(** Erases the collected keys one by one. *)
Definition erase_keys (t : KeyDirTree) (ks : list bytes) : KeyDirTree :=
  foldl (fun t k => (kd_erase t k).2) t ks.

(** *** Lemmas *)

Lemma kd_begin_perm t : kd_begin t ≡ₚ map_to_list t.
Proof. apply merge_sort_Permutation. Qed.

Lemma kd_begin_sorted t : Sorted entry_le (kd_begin t).
Proof. apply Sorted_merge_sort. apply _. Qed.

Lemma elem_of_kd_begin t k e : (k, e) ∈ kd_begin t <-> t !! k = Some e.
Proof. by rewrite kd_begin_perm, elem_of_map_to_list. Qed.

Lemma NoDup_kd_begin t : NoDup (kd_begin t).*1.
Proof. rewrite kd_begin_perm. apply NoDup_fst_map_to_list. Qed.

Lemma until_filter to l :
  StronglySorted entry_le l -> until to l = filter (fun p => key_lt p.1 to) l.
Proof.
  induction 1 as [|[k e] l Hs IH Hall]; [done|]. simpl.
  rewrite filter_cons. simpl. rewrite key_leb_ltb.
  destruct (key_ltb k to) eqn:E; simpl.
  - apply key_ltb_spec in E. rewrite decide_True by done. by rewrite IH.
  - assert (Hge : ~ key_lt k to) by (rewrite <-key_ltb_spec; congruence).
    rewrite decide_False by done.
    symmetry. apply filter_all_not. intros [k' e'] Hin Hlt. simpl in Hlt.
    rewrite Forall_forall in Hall. specialize (Hall _ Hin). unfold entry_le in Hall. simpl in Hall.
    apply key_le_lteq in Hall as [Hall| ->]; [|done].
    apply Hge. by eapply key_lt_trans.
Qed.

Lemma kd_begin_strong t : StronglySorted entry_le (kd_begin t).
Proof. apply Sorted_StronglySorted; [apply _|]. apply kd_begin_sorted. Qed.

Lemma kd_range_filter t from to :
  kd_range t from to
  = filter (fun p => key_lt p.1 to) (filter (fun p => key_le from p.1) (kd_begin t)).
Proof. apply until_filter. apply StronglySorted_filter, kd_begin_strong. Qed.

Lemma elem_of_kd_range t from to k e :
  (k, e) ∈ kd_range t from to <-> t !! k = Some e /\ in_range from to k = true.
Proof.
  rewrite kd_range_filter, !list_elem_of_filter, elem_of_kd_begin, in_range_spec. simpl.
  naive_solver.
Qed.

Lemma NoDup_kd_range t from to : NoDup (kd_range t from to).*1.
Proof.
  rewrite kd_range_filter. eapply sublist_NoDup; [apply NoDup_kd_begin|].
  apply fmap_sublist. etrans; apply sublist_filter.
Qed.

Lemma erase_keys_lookup t ks k :
  erase_keys t ks !! k = if decide (k ∈ ks) then None else t !! k.
Proof.
  unfold erase_keys, kd_erase. revert t. induction ks as [|k' ks IH]; intros t; simpl; [done|].
  rewrite IH. destruct (decide (k = k')) as [->|Hne].
  - rewrite lookup_delete_eq. repeat case_decide; set_solver.
  - rewrite lookup_delete_ne by done. repeat case_decide; set_solver.
Qed.

(** Erasing the keys of a range leaves the keys outside it. *)
Lemma erase_range_lookup t from to k :
  erase_keys t (kd_range t from to).*1 !! k
  = if in_range from to k then None else t !! k.
Proof.
  rewrite erase_keys_lookup. case_decide as Hin.
  - apply list_elem_of_fmap in Hin as ([k' e] & -> & Hin). simpl.
    apply elem_of_kd_range in Hin as [_ ->]. done.
  - destruct (in_range from to k) eqn:E; [|done].
    destruct (t !! k) as [e|] eqn:Ek; [|done]. exfalso. apply Hin.
    apply list_elem_of_fmap. exists (k, e). split; [done|]. by apply elem_of_kd_range.
Qed.

(** What erasing a list of present, distinct keys takes from a sum. *)
Lemma erase_keys_sum (w : bytes -> KeyDirEntry -> Z) t (l : list (bytes * KeyDirEntry)) :
  NoDup l.*1 -> (forall k e, (k, e) ∈ l -> t !! k = Some e) ->
  map_sum w (erase_keys t l.*1) = map_sum w t - lsum (fun p => w p.1 p.2) l.
Proof.
  revert t. induction l as [|[k e] l IH]; intros t Hn Hl; simpl.
  - rewrite lsum_nil. unfold erase_keys; simpl. lia.
  - apply NoDup_cons in Hn as [Hk Hn]. change (erase_keys t (k :: l.*1))
      with (erase_keys (delete k t) l.*1).
    rewrite IH; [|done|].
    + rewrite map_sum_delete, lsum_cons. unfold contrib.
      rewrite (Hl k e) by left. simpl. lia.
    + intros k' e' Hin. rewrite lookup_delete_ne; [apply Hl; by right|].
      intros ->. apply Hk. apply list_elem_of_fmap. by exists (k', e').
Qed.

Lemma erase_range_sum (w : bytes -> KeyDirEntry -> Z) t from to :
  map_sum w (erase_keys t (kd_range t from to).*1)
  = map_sum w t - lsum (fun p => w p.1 p.2) (kd_range t from to).
Proof.
  apply erase_keys_sum; [apply NoDup_kd_range|].
  intros k e Hin. by apply elem_of_kd_range in Hin as [? _].
Qed.

End Dir.
