(* ===== verification/PatchMap.v ===== *)
(** * The patch map

    Models [patch_map.cppm]: a persistent map whose versions share a base
    table and a short chain of patch runs, with the transient that records a
    commit group's changes and the freeze that pushes a run or squashes the
    chain.  The engine's per-file statistics live in one.

    The base table ([PersistentU32Table]) is a finite map.  The policy that
    says how a delta changes a value is the class [PatchPolicy], with the law
    the source asks of every policy; [FileStatsPolicy] is its instance.  The
    theorems show that reads through base and chain are those of a plain map
    with the same writes, in every order of writes and freezes. *)

From S2P Require Import Prelude KeyDir.

(** [P::apply] and [P::combine], and that applying a combined delta is
    applying the two in turn. *)
Class PatchPolicy (V D : Type) : Type := {
  p_apply : V -> D -> V;
  p_combine : D -> D -> D
}.

Class PatchPolicyLaw (V D : Type) `{PatchPolicy V D} : Prop :=
  p_apply_combine v older d : p_apply (p_apply v older) d = p_apply v (p_combine older d).

#[export] Instance FileStatsPolicy : PatchPolicy Stats.FileStats Stats.FileStatsDelta := {
  p_apply := Stats.apply;
  p_combine := Stats.combine
}.

#[export] Instance FileStatsPolicy_law : PatchPolicyLaw Stats.FileStats Stats.FileStatsDelta.
Proof. intros v o d. apply Stats.apply_combine. Qed.

(** [std::variant<V, Erased, D>]. *)
Inductive Patch (V D : Type) : Type :=
| PSet (v : V)
| PErased
| PDelta (d : D).
Arguments PSet {V D} v.
Arguments PErased {V D}.
Arguments PDelta {V D} d.

Section patch_map.
Context {V D : Type} `{PatchPolicy V D} (MaxDepth : nat).

Abbreviation Entry := (Z * Patch V D)%type.

Definition fold (older newer : Patch V D) : Patch V D :=
  match newer with
  | PDelta d =>
      match older with
      | PSet v => PSet (p_apply v d)
      | PDelta od => PDelta (p_combine od d)
      | PErased => PErased
      end
  | _ => newer
  end.

(** [std::ranges::lower_bound] by key: the first place whose key is not below. *)
Fixpoint lower_bound (entries : list Entry) (key : Z) : nat :=
  match entries with
  | [] => O
  | (k, _) :: es => if k <? key then S (lower_bound es key) else O
  end.

Definition find_patch (entries : list Entry) (key : Z) : option (Patch V D) :=
  match entries !! lower_bound entries key with
  | Some (k, p) => if k =? key then Some p else None
  | None => None
  end.

(** Base, chain of runs (newest first) and its length. *)
Record PatchMapCore : Type := mkCore {
  base : gmap Z V;
  runs : list (list Entry);
  depth : nat
}.

Record TransientPatchMap : Type := mkTransient {
  core : PatchMapCore;
  pending : list Entry;
  last : nat
}.

(** The walk down the chain: deltas met so far, newest first, until a set or
    an erase decides. *)
Fixpoint walk (key : Z) (chain : list (list Entry)) (deltas : list D)
    : option (Patch V D) * list D :=
  match chain with
  | [] => (None, deltas)
  | entries :: older =>
      match find_patch entries key with
      | None => walk key older deltas
      | Some (PDelta d) => walk key older (deltas ++ [d])
      | Some p => (Some p, deltas)
      end
  end.

Definition lookup (c : PatchMapCore) (key : Z) (pend : option (list Entry)) : option V :=
  let chain := match pend with Some es => es :: runs c | None => runs c end in
  let '(decided, deltas) := walk key chain [] in
  let value := match decided with
               | Some (PSet v) => Some v
               | Some _ => None
               | None => base c !! key
               end in
  (fun v => foldl p_apply v (rev deltas)) <$> value.

(** Every run's entries, oldest first, then the pending ones. *)
Definition for_each_run (c : PatchMapCore) (pend : option (list Entry)) : list (list Entry) :=
  rev (runs c) ++ match pend with Some es => [es] | None => [] end.

(** [std::ranges::stable_sort] by key, as a stable insertion sort. *)
Fixpoint stable_insert (e : Entry) (l : list Entry) : list Entry :=
  match l with
  | [] => [e]
  | e' :: l' => if e'.1 <=? e.1 then e' :: stable_insert e l' else e :: l
  end.
Definition stable_sort (l : list Entry) : list Entry :=
  foldl (fun acc e => stable_insert e acc) [] l.

(** Folds neighbours with one key, left to right. *)
Definition merge_step (acc : list Entry) (e : Entry) : list Entry :=
  match acc with
  | (k, p) :: acc' => if k =? e.1 then (k, fold p e.2) :: acc' else e :: acc
  | [] => [e]
  end.

Definition collect (c : PatchMapCore) (pend : option (list Entry)) : list Entry :=
  rev (foldl merge_step [] (stable_sort (concat (for_each_run c pend)))).

(** The base's entries in key order. *)
Definition base_le (a b : Z * V) : Prop := a.1 <= b.1.
#[export] Instance base_le_dec : RelDecision base_le.
Proof. intros a b. unfold base_le. apply _. Defined.
Definition base_entries (m : gmap Z V) : list (Z * V) := merge_sort base_le (map_to_list m).

Definition emit_patch_only (e : Entry) : list (Z * V) :=
  match e.2 with PSet v => [(e.1, v)] | _ => [] end.

(** The merge of [all()]: the base in key order against the patches. *)
Fixpoint emit_below (patches : list Entry) (key : Z) : list (Z * V) * list Entry :=
  match patches with
  | p :: ps => if p.1 <? key
               then let '(o, rest) := emit_below ps key in (emit_patch_only p ++ o, rest)
               else ([], patches)
  | [] => ([], [])
  end.

Fixpoint all_merge (bs : list (Z * V)) (patches : list Entry) : list (Z * V) :=
  match bs with
  | [] => concat (emit_patch_only <$> patches)
  | (key, base_value) :: bs' =>
      let '(out, patches) := emit_below patches key in
      out ++
      match patches with
      | (k, p) :: ps =>
          if k =? key then
            match p with
            | PSet v => [(key, v)]
            | PDelta d => [(key, p_apply base_value d)]
            | PErased => []
            end ++ all_merge bs' ps
          else (key, base_value) :: all_merge bs' patches
      | [] => (key, base_value) :: all_merge bs' []
      end
  end.

Definition all (c : PatchMapCore) (pend : option (list Entry)) : list (Z * V) :=
  all_merge (base_entries (base c)) (collect c pend).

Definition transient (c : PatchMapCore) : TransientPatchMap := mkTransient c [] 0.

Definition get (t : TransientPatchMap) (key : Z) : option V :=
  lookup (core t) key (Some (pending t)).

(** [record]: the entry last written is tried first. *)
Definition record (t : TransientPatchMap) (key : Z) (p : Patch V D) : TransientPatchMap :=
  let by_search :=
    let it := lower_bound (pending t) key in
    match pending t !! it with
    | Some (k, q) =>
        if k =? key
        then mkTransient (core t) (<[it := (k, fold q p)]> (pending t)) it
        else mkTransient (core t) (take it (pending t) ++ (key, p) :: drop it (pending t)) it
    | None => mkTransient (core t) (take it (pending t) ++ (key, p) :: drop it (pending t)) it
    end in
  match pending t !! last t with
  | Some (k, q) =>
      if k =? key
      then mkTransient (core t) (<[last t := (k, fold q p)]> (pending t)) (last t)
      else by_search
  | None => by_search
  end.

Definition set (t : TransientPatchMap) (key : Z) (v : V) := record t key (PSet v).
Definition erase (t : TransientPatchMap) (key : Z) := record t key PErased.
Definition patch (t : TransientPatchMap) (key : Z) (d : D) := record t key (PDelta d).

(** One entry replayed into the base table; a delta to an absent key is a
    no-op. *)
Definition replay (m : gmap Z V) (e : Entry) : gmap Z V :=
  match e.2 with
  | PSet v => <[e.1 := v]> m
  | PDelta d => alter (fun v => p_apply v d) e.1 m
  | PErased => delete e.1 m
  end.

Definition persistent (t : TransientPatchMap) : PatchMapCore :=
  let c := core t in
  match pending t with
  | [] => c
  | _ =>
      if (depth c <? MaxDepth)%nat
      then mkCore (base c) (pending t :: runs c) (S (depth c))
      else mkCore (foldl (foldl replay) (base c) (for_each_run c (Some (pending t)))) [] 0
  end.

End patch_map.
Arguments mkCore {V D}.
Arguments mkTransient {V D}.
Arguments PatchMapCore : clear implicits.
Arguments TransientPatchMap : clear implicits.

(** ** What a patch means *)

Section laws.
Context {V D : Type} `{PatchPolicyLaw V D}.

Abbreviation Entry := (Z * Patch V D)%type.

Definition den (p : Patch V D) (o : option V) : option V :=
  match p with
  | PSet v => Some v
  | PErased => None
  | PDelta d => (fun v => p_apply v d) <$> o
  end.

(** One patch per key, in key order. *)
Definition run_ok (es : list Entry) : Prop := StronglySorted Z.lt es.*1.

Definition den_run (es : list Entry) (key : Z) (o : option V) : option V :=
  match find_patch es key with Some p => den p o | None => o end.

(** The value of a key under a chain of runs, newest first. *)
Definition den_chain (m : gmap Z V) (chain : list (list Entry)) (key : Z) : option V :=
  foldr (fun es o => den_run es key o) (m !! key) chain.

Lemma den_fold q p o : den (fold q p) o = den p (den q o).
Proof.
  destruct p as [v| |d]; try done. destruct q as [v'| |d']; try done. simpl.
  destruct o as [v|]; simpl; [|done]. by rewrite p_apply_combine.
Qed.

Lemma walk_den key (m : gmap Z V) chain ds :
  (let '(decided, deltas) := walk key chain ds in
   (fun v => foldl p_apply v (rev deltas)) <$>
     match decided with Some (PSet v) => Some v | Some _ => None | None => m !! key end)
  = (fun v => foldl p_apply v (rev ds)) <$> den_chain m chain key.
Proof.
  revert ds. induction chain as [|es chain IH]; intros ds; simpl; [done|].
  unfold den_run at 1. destruct (find_patch es key) as [[v| |d]|] eqn:E; simpl; auto.
  rewrite IH, rev_app_distr. simpl. by destruct (den_chain m chain key).
Qed.

Lemma lookup_den c key pend :
  lookup c key pend
  = den_chain (base c) (match pend with Some es => es :: runs c | None => runs c end) key.
Proof.
  unfold lookup. rewrite <-(option_fmap_id (den_chain _ _ _)).
  pose proof (walk_den key (base c)
    (match pend with Some es => es :: runs c | None => runs c end) []) as W.
  destruct (walk _ _ _). exact W.
Qed.

(** *** Search in a run *)

Lemma run_ok_head k p (es : list Entry) k' p' :
  run_ok ((k, p) :: es) -> (k', p') ∈ es -> k < k'.
Proof.
  intros Hs Hin. inversion_clear Hs as [|? ? _ Hall]. rewrite Forall_forall in Hall.
  apply Hall. apply list_elem_of_fmap. by exists (k', p').
Qed.

Lemma run_ok_tail e (es : list Entry) : run_ok (e :: es) -> run_ok es.
Proof. by inversion_clear 1. Qed.

Lemma run_ok_app_r (l r : list Entry) : run_ok (l ++ r) -> run_ok r.
Proof. unfold run_ok. rewrite fmap_app. by intros (_ & _ & ?)%StronglySorted_app. Qed.

Lemma lower_bound_spec (es : list Entry) key :
  run_ok es ->
  exists l r, es = l ++ r /\ length l = lower_bound es key
    /\ (forall k p, (k, p) ∈ l -> k < key) /\ (forall k p, (k, p) ∈ r -> key <= k).
Proof.
  induction es as [|[k p] es IH]; intros Hs; simpl.
  - exists [], []. set_solver.
  - destruct (Z.ltb_spec k key).
    + destruct (IH (run_ok_tail _ _ Hs)) as (l & r & -> & Hlen & Hl & Hr).
      exists ((k, p) :: l), r. split_and!; [done|simpl; lia| |done].
      intros k' p' [[= -> ->]|?]%elem_of_cons; eauto.
    + exists [], ((k, p) :: es). split_and!; [done|done|set_solver|].
      intros k' p' [[= -> ->]|Hin]%elem_of_cons; [lia|].
      pose proof (run_ok_head _ _ _ _ _ Hs Hin). lia.
Qed.

Lemma find_patch_elem (es : list Entry) key p :
  run_ok es -> find_patch es key = Some p <-> (key, p) ∈ es.
Proof.
  intros Hs. destruct (lower_bound_spec es key Hs) as (l & r & -> & Hlen & Hl & Hr).
  unfold find_patch. rewrite <-Hlen, lookup_app_r, Nat.sub_diag by lia.
  apply run_ok_app_r in Hs. destruct r as [|[k q] r]; simpl.
  - split; [done|]. rewrite app_nil_r. intros Hin%Hl. lia.
  - destruct (Z.eqb_spec k key) as [->|Hne].
    + split; [intros [= ->]; set_solver|]. rewrite elem_of_app, elem_of_cons.
      intros [Hin%Hl|[[= ->]|Hin]]; [lia|done|].
      pose proof (run_ok_head _ _ _ _ _ Hs Hin). lia.
    + split; [done|]. rewrite elem_of_app, elem_of_cons.
      intros [Hin%Hl|[[= -> ->]|Hin]]; [lia|done|].
      pose proof (Hr k q ltac:(set_solver)).
      pose proof (run_ok_head _ _ _ _ _ Hs Hin). lia.
Qed.

Lemma find_patch_cons k p (es : list Entry) key :
  run_ok ((k, p) :: es) ->
  find_patch ((k, p) :: es) key = if k =? key then Some p else find_patch es key.
Proof.
  intros Hs. pose proof (run_ok_tail _ _ Hs) as Hs'.
  apply option_eq. intros q. rewrite find_patch_elem, elem_of_cons by done.
  destruct (Z.eqb_spec k key) as [->|Hne].
  - split; [|intros [= ->]; by left]. intros [[= ->]|Hin]; [done|].
    pose proof (run_ok_head _ _ _ _ _ Hs Hin). lia.
  - rewrite find_patch_elem by done. naive_solver.
Qed.

(** *** Recording a patch *)

Lemma run_ok_mid (l r : list Entry) key x y :
  run_ok (l ++ (key, x) :: r) -> run_ok (l ++ (key, y) :: r).
Proof. unfold run_ok. by rewrite !fmap_app. Qed.

Lemma run_ok_drop_mid (l r : list Entry) e : run_ok (l ++ e :: r) -> run_ok (l ++ r).
Proof.
  unfold run_ok. rewrite !fmap_app, !StronglySorted_app. simpl.
  intros (Hx & Hl & Hr). split_and!; [|done|by inversion_clear Hr]. set_solver.
Qed.

Lemma find_patch_mid (l r : list Entry) key x k :
  run_ok (l ++ (key, x) :: r) ->
  find_patch (l ++ (key, x) :: r) k = if key =? k then Some x else find_patch (l ++ r) k.
Proof.
  intros Hs. pose proof (run_ok_drop_mid _ _ _ Hs) as Hs'.
  apply option_eq. intros q. rewrite find_patch_elem by done.
  destruct (Z.eqb_spec key k) as [->|Hne].
  - split; [|intros [= ->]; set_solver]. intros Hin.
    assert (find_patch (l ++ (k, x) :: r) k = Some x) as E
      by (apply find_patch_elem; [done|set_solver]).
    apply find_patch_elem in Hin; [|done]. congruence.
  - rewrite find_patch_elem by done. rewrite !elem_of_app, elem_of_cons. naive_solver.
Qed.

Lemma find_patch_absent (l r : list Entry) key x :
  run_ok (l ++ (key, x) :: r) -> find_patch (l ++ r) key = None.
Proof.
  intros Hs. pose proof (run_ok_drop_mid _ _ _ Hs) as Hs'.
  destruct (find_patch (l ++ r) key) as [q|] eqn:E; [|done].
  apply find_patch_elem in E; [|done]. exfalso. unfold run_ok in Hs.
  rewrite fmap_app, StronglySorted_app in Hs. destruct Hs as (Hx & _ & Hr).
  apply elem_of_app in E as [Hin|Hin].
  - assert (key < key); [|lia]. apply Hx; [|simpl; left].
    apply list_elem_of_fmap. by exists (key, q).
  - assert (key < key); [|lia]. by apply (run_ok_head key x r key q).
Qed.

(** What [record] does to the pending run. *)
Definition recorded (es es' : list Entry) (key : Z) (p : Patch V D) : Prop :=
  run_ok es' /\
  forall k, find_patch es' k
    = if key =? k then Some (match find_patch es key with Some q => fold q p | None => p end)
      else find_patch es k.

Lemma recorded_update es key q p i :
  run_ok es -> es !! i = Some (key, q) -> recorded es (<[i := (key, fold q p)]> es) key p.
Proof.
  intros Hs Hi. pose proof (take_drop_middle es i _ Hi) as Hes.
  rewrite (insert_take_drop es i) by by eapply lookup_lt_Some.
  rewrite <-Hes in Hs. rewrite <-Hes at 1.
  pose proof (run_ok_mid _ _ _ _ (fold q p) Hs) as Hs2. split; [done|]. intros k.
  rewrite !find_patch_mid by done. rewrite Z.eqb_refl. by destruct (key =? k).
Qed.

Lemma recorded_insert es key p :
  run_ok es -> find_patch es key = None ->
  recorded es (take (lower_bound es key) es ++ (key, p) :: drop (lower_bound es key) es) key p.
Proof.
  intros Hs Hf. destruct (lower_bound_spec es key Hs) as (l & r & Hes & Hlen & Hl & Hr).
  rewrite <-Hlen. rewrite Hes at 2 3. rewrite take_app_length, drop_app_length.
  assert (Hok : run_ok (l ++ (key, p) :: r)).
  { assert (Hlt : forall k q, (k, q) ∈ r -> key < k).
    { intros k q Hin. specialize (Hr k q Hin). destruct (Z.eq_dec k key) as [->|]; [|lia].
      assert (find_patch es key = Some q); [|congruence].
      apply find_patch_elem; [done|]. rewrite Hes. set_solver. }
    unfold run_ok in *. rewrite Hes, fmap_app, StronglySorted_app in Hs.
    destruct Hs as (Hx & Hsl & Hsr). rewrite fmap_app, StronglySorted_app. simpl.
    split_and!; [|done|constructor; [done|]].
    - intros a b Ha Hb. apply elem_of_cons in Hb as [->|Hb]; [|by apply Hx].
      apply list_elem_of_fmap in Ha as ([a' q] & -> & Ha). by eapply Hl.
    - rewrite Forall_forall. intros b Hb.
      apply list_elem_of_fmap in Hb as ([b' q] & -> & Hb). by eapply Hlt. }
  split; [done|]. intros k. rewrite find_patch_mid, Hf by done. by rewrite <-Hes.
Qed.

Lemma record_recorded t key p :
  run_ok (pending t) ->
  recorded (pending t) (pending (record t key p)) key p /\ core (record t key p) = core t.
Proof.
  intros Hs.
  assert (Hsearch : forall t', t' = (let it := lower_bound (pending t) key in
    match pending t !! it with
    | Some (k, q) =>
        if k =? key
        then mkTransient (core t) (<[it := (k, fold q p)]> (pending t)) it
        else mkTransient (core t) (take it (pending t) ++ (key, p) :: drop it (pending t)) it
    | None => mkTransient (core t) (take it (pending t) ++ (key, p) :: drop it (pending t)) it
    end) -> recorded (pending t) (pending t') key p /\ core t' = core t).
  { intros t' ->. cbv zeta. destruct (pending t !! lower_bound (pending t) key) as [[k q]|] eqn:E.
    - destruct (Z.eqb_spec k key) as [->|Hne]; simpl; (split; [|done]).
      + by apply recorded_update.
      + apply recorded_insert; [done|]. unfold find_patch. rewrite E.
        by apply Z.eqb_neq in Hne as ->.
    - simpl. split; [|done]. apply recorded_insert; [done|]. unfold find_patch. by rewrite E. }
  unfold record. destruct (pending t !! last t) as [[k q]|] eqn:E; [|by apply Hsearch].
  destruct (Z.eqb_spec k key) as [->|Hne]; [|by apply Hsearch].
  simpl. split; [|done]. by apply recorded_update.
Qed.

Lemma recorded_den es es' key p k o :
  recorded es es' key p ->
  den_run es' k o = if key =? k then den p (den_run es k o) else den_run es k o.
Proof.
  intros [_ Hf]. unfold den_run. rewrite Hf. destruct (Z.eqb_spec key k) as [->|]; [|done].
  destruct (find_patch es k); [|done]. by rewrite den_fold.
Qed.

(** *** Freezing *)

Lemma replay_run (m : gmap Z V) es key :
  run_ok es -> foldl replay m es !! key = den_run es key (m !! key).
Proof.
  revert m. induction es as [|[k p] es IH]; intros m Hs; [done|]. simpl.
  rewrite IH by by eapply run_ok_tail. unfold den_run. rewrite find_patch_cons by done.
  destruct (Z.eqb_spec k key) as [->|Hne].
  - assert (find_patch es key = None) as ->.
    { destruct (find_patch es key) as [q|] eqn:E; [|done].
      apply find_patch_elem in E; [|by eapply run_ok_tail].
      pose proof (run_ok_head _ _ _ _ _ Hs E). lia. }
    destruct p; unfold replay; simpl;
      [apply lookup_insert_eq|apply lookup_delete_eq|apply lookup_alter_eq].
  - assert (replay m (k, p) !! key = m !! key) as ->; [|done].
    destruct p; unfold replay; simpl;
      [by apply lookup_insert_ne|by apply lookup_delete_ne|by apply lookup_alter_ne].
Qed.

Lemma replay_chain (m : gmap Z V) chain key :
  Forall run_ok chain ->
  foldl (foldl replay) m (rev chain) !! key = den_chain m chain key.
Proof.
  induction 1 as [|es chain Hes Hc IH]; [done|]. simpl.
  rewrite foldl_app. simpl. by rewrite replay_run, IH.
Qed.

End laws.

(** ** Refinement of a plain map *)

Inductive op (V D : Type) : Type :=
| OSet (key : Z) (v : V)
| OErase (key : Z)
| OPatch (key : Z) (d : D)
| OFreeze.   (* persistent(), then transient() of the frozen version *)
Arguments OSet {V D} key v.
Arguments OErase {V D} key.
Arguments OPatch {V D} key d.
Arguments OFreeze {V D}.

Section refinement.
Context {V D : Type} `{PatchPolicyLaw V D} (MaxDepth : nat).

Definition step (t : TransientPatchMap V D) (o : op V D) : TransientPatchMap V D :=
  match o with
  | OSet k v => set t k v
  | OErase k => erase t k
  | OPatch k d => patch t k d
  | OFreeze => transient (persistent MaxDepth t)
  end.

(** The same writes on a plain map. *)
Definition spec_step (m : gmap Z V) (o : op V D) : gmap Z V :=
  match o with
  | OSet k v => <[k := v]> m
  | OErase k => delete k m
  | OPatch k d => alter (fun v => p_apply v d) k m
  | OFreeze => m
  end.

(** Every run is sorted by key, and the chain is as long as it says and no
    longer than the fixed arrays of [lookup] and [for_each_run]. *)
Record core_ok (c : PatchMapCore V D) : Prop := {
  co_runs : Forall run_ok (runs c);
  co_depth : depth c = length (runs c);
  co_bound : (length (runs c) <= MaxDepth)%nat
}.

Definition map_ok (t : TransientPatchMap V D) : Prop := core_ok (core t) /\ run_ok (pending t).

Lemma run_ok_nil : run_ok (V := V) (D := D) [].
Proof. constructor. Qed.

Lemma persistent_ok t : map_ok t -> core_ok (persistent MaxDepth t).
Proof.
  intros [[Hr Hd Hb] Hp]. unfold persistent. destruct (pending t) as [|e es] eqn:E; [done|].
  destruct (Nat.ltb_spec (depth (core t)) MaxDepth); split; simpl; auto; lia.
Qed.

Lemma persistent_lookup t key :
  map_ok t -> lookup (persistent MaxDepth t) key None = get t key.
Proof.
  intros [[Hr Hd Hb] Hp]. unfold get, persistent. rewrite !lookup_den.
  destruct (pending t) as [|e es] eqn:E; [done|].
  destruct (Nat.ltb_spec (depth (core t)) MaxDepth); [done|].
  cbn [base runs]. unfold for_each_run.
  change (rev (runs (core t)) ++ [e :: es]) with (rev ((e :: es) :: runs (core t))).
  unfold den_chain at 1. cbn [foldr]. apply replay_chain. by constructor.
Qed.

Lemma transient_get c key : get (transient c) key = lookup c key None.
Proof. unfold get, transient. by rewrite !lookup_den. Qed.

Lemma record_get t key p k :
  map_ok t ->
  get (record t key p) k = if key =? k then den p (get t k) else get t k.
Proof.
  intros [_ Hp]. destruct (record_recorded t key p Hp) as [Hrec Hc].
  unfold get. rewrite !lookup_den, Hc. unfold den_chain. cbn [foldr].
  by apply recorded_den.
Qed.

Lemma record_ok t key p : map_ok t -> map_ok (record t key p).
Proof.
  intros [Hc Hp]. destruct (record_recorded t key p Hp) as [[Hr _] Hcore].
  split; [by rewrite Hcore|done].
Qed.

Lemma step_ok t o : map_ok t -> map_ok (step t o).
Proof.
  intros Hok. destruct o as [k v|k|k d|]; simpl.
  1-3: by apply record_ok.
  split; [by apply persistent_ok|apply run_ok_nil].
Qed.

Lemma step_get t m o :
  map_ok t -> (forall k, get t k = m !! k) -> forall k, get (step t o) k = spec_step m o !! k.
Proof.
  intros Hok Hm k. destruct o as [k' v|k'|k' d|]; simpl.
  - unfold set. rewrite record_get, Hm by done. rewrite lookup_insert.
    destruct (Z.eqb_spec k' k); [by rewrite decide_True|by rewrite decide_False].
  - unfold erase. rewrite record_get, Hm by done. rewrite lookup_delete.
    destruct (Z.eqb_spec k' k); [by rewrite decide_True|by rewrite decide_False].
  - unfold patch. rewrite record_get, Hm by done.
    destruct (Z.eqb_spec k' k) as [->|]; [by rewrite lookup_alter_eq|by rewrite lookup_alter_ne].
  - by rewrite transient_get, persistent_lookup.
Qed.

Lemma steps_refine ops t m :
  map_ok t -> (forall k, get t k = m !! k) ->
  map_ok (foldl step t ops) /\ forall k, get (foldl step t ops) k = foldl spec_step m ops !! k.
Proof.
  revert t m. induction ops as [|o ops IH]; intros t m Hok Hm; simpl; [done|].
  apply IH; [by apply step_ok|by apply step_get].
Qed.

Lemma initial_ok (m : gmap Z V) : map_ok (transient (mkCore m [] 0)).
Proof. split; [split; simpl; [done|done|lia]|apply run_ok_nil]. Qed.

(** C7: the patch map is a map.  From any base table, after any sequence of
    sets, erases, deltas and freezes (which push a run, or squash the chain
    into the base when it is [MaxDepth] long), every key reads as in a plain
    map given the same writes; and the chain never outgrows [MaxDepth], the
    size of the arrays the reader walks it with. *)
Theorem patch_map_refines (m : gmap Z V) (ops : list (op V D)) :
  let t := foldl step (transient (mkCore m [] 0)) ops in
  (forall k, get t k = foldl spec_step m ops !! k)
  /\ depth (core t) = length (runs (core t)) /\ (depth (core t) <= MaxDepth)%nat.
Proof.
  destruct (steps_refine ops (transient (mkCore m [] 0)) m (initial_ok m)) as [[[? Hd ?] _] Hg].
  { intros k. by rewrite transient_get, lookup_den. }
  cbv zeta. split_and!; [done|done|lia].
Qed.

End refinement.

Lemma patch_map_refines_witness :
  let t := foldl (step 1) (transient (mkCore ∅ [] 0))
     [OSet 1 Stats.FileStats_zero; OFreeze; OPatch 1 (Stats.d_put 20); OFreeze;
      OPatch 1 (Stats.d_live_removed 20); OFreeze] in
  Stats.total_bytes <$> get t 1 = Some 20 /\ (depth (core t) <= 1)%nat.
Proof.
  destruct (patch_map_refines (V := Stats.FileStats) (D := Stats.FileStatsDelta) 1 ∅
    [OSet 1 Stats.FileStats_zero; OFreeze; OPatch 1 (Stats.d_put 20); OFreeze;
      OPatch 1 (Stats.d_live_removed 20); OFreeze]) as (Hg & _ & Hb).
  split; [rewrite (Hg 1); vm_compute; reflexivity|exact Hb].
Defined.

(** ** Listing every entry *)

Section listing.
Context {V D : Type} `{PatchPolicyLaw V D}.

Abbreviation Entry := (Z * Patch V D)%type.

(** All the patches a list of entries holds for a key, in order. *)
Definition den_list (key : Z) (l : list Entry) (o : option V) : option V :=
  foldl (fun o e => if e.1 =? key then den e.2 o else o) o l.

Lemma den_list_app key l l' o : den_list key (l ++ l') o = den_list key l' (den_list key l o).
Proof. unfold den_list. by rewrite foldl_app. Qed.

Lemma den_list_absent key (l : list Entry) o :
  (forall k p, (k, p) ∈ l -> k <> key) -> den_list key l o = o.
Proof.
  revert o. induction l as [|[k p] l IH]; intros o Hl; [done|].
  change (den_list key ((k, p) :: l) o)
    with (den_list key l (if k =? key then den p o else o)).
  rewrite (proj2 (Z.eqb_neq k key)) by (apply (Hl k p); left).
  apply IH. intros k' p' ?. apply (Hl k' p'). by right.
Qed.

Lemma den_run_list es key o : run_ok es -> den_run es key o = den_list key es o.
Proof.
  revert o. induction es as [|[k p] es IH]; intros o Hs; [done|].
  change (den_list key ((k, p) :: es) o)
    with (den_list key es (if k =? key then den p o else o)).
  unfold den_run. rewrite find_patch_cons by done.
  destruct (Z.eqb_spec k key) as [->|Hne].
  - rewrite den_list_absent; [done|]. intros k' p' Hin ->.
    pose proof (run_ok_head _ _ _ _ _ Hs Hin). lia.
  - rewrite <-IH by by eapply run_ok_tail. done.
Qed.

Lemma den_chain_concat (m : gmap Z V) chain key :
  Forall run_ok chain ->
  den_chain m chain key = den_list key (concat (rev chain)) (m !! key).
Proof.
  induction 1 as [|es chain Hes Hc IH]; [done|]. simpl.
  rewrite concat_app, den_list_app. simpl. rewrite app_nil_r, <-IH.
  by apply den_run_list.
Qed.

(** *** The stable sort *)

Definition ascending (l : list Entry) : Prop := StronglySorted Z.le l.*1.

Lemma ascending_cons e (l : list Entry) :
  ascending (e :: l) <-> ascending l /\ forall e', e' ∈ l -> e.1 <= e'.1.
Proof.
  unfold ascending. simpl. split.
  - inversion_clear 1 as [|? ? Hl Hall]. split; [done|]. intros e' Hin.
    rewrite Forall_forall in Hall. apply Hall. apply list_elem_of_fmap. by exists e'.
  - intros [Hl Hall]. constructor; [done|]. rewrite Forall_forall. intros k Hin.
    apply list_elem_of_fmap in Hin as (e' & -> & ?). by apply Hall.
Qed.

Lemma elem_of_stable_insert e e' (l : list Entry) :
  e' ∈ stable_insert e l <-> e' = e \/ e' ∈ l.
Proof.
  induction l as [|x l IH]; simpl; [set_solver|].
  destruct (x.1 <=? e.1); rewrite ?elem_of_cons, ?IH; naive_solver.
Qed.

Lemma stable_insert_ascending e (l : list Entry) :
  ascending l -> ascending (stable_insert e l).
Proof.
  induction l as [|x l IH]; intros Hl; simpl.
  - by repeat constructor.
  - destruct (Z.leb_spec x.1 e.1).
    + apply ascending_cons in Hl as [Hl Hall]. apply ascending_cons. split; [by apply IH|].
      intros e' [->|Hin]%elem_of_stable_insert; [done|by apply Hall].
    + apply ascending_cons. split; [done|]. apply ascending_cons in Hl as [_ Hall].
      intros e' [->|Hin]%elem_of_cons; [lia|]. specialize (Hall _ Hin). lia.
Qed.

Lemma stable_insert_den key e (l : list Entry) o :
  ascending l -> den_list key (stable_insert e l) o = den_list key (l ++ [e]) o.
Proof.
  revert o. induction l as [|x l IH]; intros o Hl; cbn [stable_insert]; [done|].
  destruct (Z.leb_spec x.1 e.1).
  - apply ascending_cons in Hl as [Hl _].
    change (den_list key (x :: stable_insert e l) o)
      with (den_list key (stable_insert e l) (if x.1 =? key then den x.2 o else o)).
    by rewrite IH.
  - change (e :: x :: l) with ([e] ++ x :: l).
    rewrite !den_list_app. destruct (Z.eq_dec e.1 key) as [<-|Hne].
    + assert (Hne : forall k p, (k, p) ∈ x :: l -> k <> e.1).
      { apply ascending_cons in Hl as [_ Hall]. intros k p [<-|Hin]%elem_of_cons; simpl in *; [lia|].
        specialize (Hall _ Hin). simpl in Hall. lia. }
      by rewrite !(den_list_absent _ (x :: l)) by exact Hne.
    + rewrite !(den_list_absent _ [e]); [done|..];
        intros k p <-%list_elem_of_singleton; done.
Qed.

Lemma stable_sort_spec (l : list Entry) :
  ascending (stable_sort l) /\ forall key o, den_list key (stable_sort l) o = den_list key l o.
Proof.
  unfold stable_sort. induction l as [|e l IH] using rev_ind; [by split; [constructor|]|].
  destruct IH as [Ha Hd]. rewrite foldl_app. simpl. split.
  - by apply stable_insert_ascending.
  - intros key o. rewrite stable_insert_den by done. by rewrite !den_list_app, Hd.
Qed.

(** *** Folding neighbours *)

Lemma merge_spec (l : list Entry) :
  ascending l ->
  let out := rev (foldl merge_step [] l) in
  run_ok out /\ (forall key o, den_list key out o = den_list key l o)
  /\ (forall k, k ∈ out.*1 -> k ∈ l.*1).
Proof.
  induction l as [|e l IH] using rev_ind; intros Ha; [by split; [constructor|]|].
  assert (Hal : ascending l /\ forall e', e' ∈ l -> e'.1 <= e.1).
  { unfold ascending in *. rewrite fmap_app, StronglySorted_app in Ha. destruct Ha as (Hx & Hl & _).
    split; [done|]. intros e' Hin. apply Hx; [|simpl; set_solver].
    apply list_elem_of_fmap. by exists e'. }
  destruct Hal as [Hal Hle]. specialize (IH Hal) as (Hok & Hden & Hk).
  rewrite foldl_app. simpl. destruct (foldl merge_step [] l) as [|[k p] acc] eqn:E; simpl.
  - split_and!; [by repeat constructor| |].
    + intros key o. rewrite den_list_app. by rewrite <-Hden.
    + intros k Hin. rewrite fmap_app. set_solver.
  - simpl in Hok, Hden, Hk. destruct (Z.eqb_spec k e.1) as [->|Hne]; simpl.
    + split_and!.
      * unfold run_ok in *. by rewrite fmap_app in *.
      * intros key o. rewrite !den_list_app, <-Hden, den_list_app.
        generalize (den_list key (rev acc) o). intros o'. unfold den_list; simpl.
        destruct (e.1 =? key); [by rewrite den_fold|done].
      * intros k. rewrite !fmap_app. simpl in *. rewrite fmap_app in Hk. set_solver.
    + assert (Hkl : k < e.1).
      { assert (k ∈ l.*1) as Hkin by (apply Hk; rewrite fmap_app; set_solver).
        apply list_elem_of_fmap in Hkin as (e' & -> & Hin). specialize (Hle _ Hin). lia. }
      split_and!.
      * unfold run_ok in *. rewrite (fmap_app _ (rev acc ++ [(k, p)])), StronglySorted_app.
        split_and!; [|done|by repeat constructor].
        intros a b Ha1 Hb. simpl in Hb. apply list_elem_of_singleton in Hb as ->.
        rewrite fmap_app in Ha1, Hok. apply StronglySorted_app in Hok as (Hx & _ & _).
        apply elem_of_app in Ha1 as [Ha1|Ha1]; simpl in *.
        -- specialize (Hx a k Ha1 ltac:(set_solver)). lia.
        -- set_solver.
      * intros key o. by rewrite !(den_list_app key _ [e]), Hden.
      * intros k'. rewrite !fmap_app. rewrite fmap_app in Hk. set_solver.
Qed.

Lemma collect_spec c pend :
  Forall run_ok (runs c) -> (forall es, pend = Some es -> run_ok es) ->
  run_ok (collect c pend) /\
  forall key, den_run (collect c pend) key (base c !! key) = lookup c key pend.
Proof.
  intros Hr Hp. unfold collect.
  destruct (stable_sort_spec (concat (for_each_run c pend))) as [Ha Hd].
  destruct (merge_spec _ Ha) as (Hok & Hden & _). split; [done|]. intros key.
  rewrite den_run_list, Hden, Hd, lookup_den by done.
  destruct pend as [es|]; unfold for_each_run.
  - rewrite den_chain_concat by (constructor; auto). done.
  - rewrite den_chain_concat by done. by rewrite app_nil_r.
Qed.

(** *** The merge with the base *)

Fixpoint assoc (bs : list (Z * V)) (key : Z) : option V :=
  match bs with
  | [] => None
  | (k, v) :: bs => if k =? key then Some v else assoc bs key
  end.

Lemma assoc_elem bs key v : assoc bs key = Some v -> (key, v) ∈ bs.
Proof.
  induction bs as [|[k b] bs IH]; simpl; [done|].
  destruct (Z.eqb_spec k key) as [->|]; [intros [= ->]; left|]. intros ?%IH. by right.
Qed.

Lemma elem_of_emit (l : list Entry) k v :
  (k, v) ∈ concat (emit_patch_only <$> l) <-> (k, PSet v) ∈ l.
Proof.
  induction l as [|[k' p] l IH]; simpl; [set_solver|].
  rewrite elem_of_app, elem_of_cons, IH. unfold emit_patch_only; simpl.
  destruct p; set_solver.
Qed.

Lemma emit_below_spec (ps : list Entry) key :
  run_ok ps ->
  let '(out, rest) := emit_below ps key in
  exists low, ps = low ++ rest /\ out = concat (emit_patch_only <$> low)
    /\ (forall k p, (k, p) ∈ low -> k < key) /\ (forall k p, (k, p) ∈ rest -> key <= k).
Proof.
  induction ps as [|[k p] ps IH]; intros Hs; simpl.
  - exists []. set_solver.
  - destruct (Z.ltb_spec k key).
    + specialize (IH (run_ok_tail _ _ Hs)). destruct (emit_below ps key) as [o rest].
      destruct IH as (low & -> & -> & Hlow & Hrest).
      exists ((k, p) :: low). split_and!; [done|done| |done].
      intros k' p' [[= -> ->]|?]%elem_of_cons; eauto.
    + exists []. split_and!; [done|done|set_solver|].
      intros k' p' [[= -> ->]|Hin]%elem_of_cons; [lia|].
      pose proof (run_ok_head _ _ _ _ _ Hs Hin). lia.
Qed.

Lemma den_run_app_low (low rest : list Entry) key k o :
  run_ok (low ++ rest) -> (forall k p, (k, p) ∈ low -> k < key) -> key <= k ->
  den_run (low ++ rest) k o = den_run rest k o.
Proof.
  intros Hs Hlow Hk. rewrite !den_run_list by (done || by eapply run_ok_app_r).
  rewrite den_list_app, (den_list_absent k low); [done|]. intros k' p Hin ->.
  specialize (Hlow _ _ Hin). lia.
Qed.

Lemma den_run_app_high (low rest : list Entry) key k o :
  run_ok (low ++ rest) -> (forall k p, (k, p) ∈ rest -> key <= k) -> k < key ->
  den_run (low ++ rest) k o = den_list k low o.
Proof.
  intros Hs Hr Hk. rewrite den_run_list by done.
  rewrite den_list_app, (den_list_absent k rest); [done|]. intros k' p Hin ->.
  specialize (Hr _ _ Hin). lia.
Qed.

(** With no base entry, a run yields exactly its sets. *)
Lemma den_run_sets (l : list Entry) k v :
  run_ok l -> den_run l k None = Some v <-> (k, PSet v) ∈ l.
Proof.
  intros Hs. rewrite <-(find_patch_elem l k _ Hs). unfold den_run.
  destruct (find_patch l k) as [[| |]|]; simpl; naive_solver.
Qed.

Lemma run_ok_app_l (l r : list Entry) : run_ok (l ++ r) -> run_ok l.
Proof. unfold run_ok. rewrite fmap_app. by intros (_ & ? & _)%StronglySorted_app. Qed.

Lemma den_run_key (ps : list Entry) bs k v :
  run_ok ps -> den_run ps k (assoc bs k) = Some v ->
  (exists p, (k, p) ∈ ps) \/ (exists b, (k, b) ∈ bs).
Proof.
  intros Hs. unfold den_run. destruct (find_patch ps k) as [p|] eqn:E.
  - intros _. left. exists p. by apply find_patch_elem.
  - intros Ha. right. exists v. by apply assoc_elem.
Qed.

Definition opt_entry (key : Z) (o : option V) : list (Z * V) :=
  match o with Some v => [(key, v)] | None => [] end.

(** One base entry of the merge: the patches below it, itself, the rest. *)
Lemma all_merge_step key bv bs (ps : list Entry) :
  run_ok ps ->
  exists low ps', all_merge ((key, bv) :: bs) ps
      = concat (emit_patch_only <$> low) ++ opt_entry key (den_run ps key (Some bv))
        ++ all_merge bs ps'
    /\ run_ok low /\ run_ok ps'
    /\ (forall k p, (k, p) ∈ low -> k < key) /\ (forall k p, (k, p) ∈ ps' -> key < k)
    /\ (forall k o, k < key -> den_run ps k o = den_run low k o)
    /\ (forall k o, key < k -> den_run ps k o = den_run ps' k o).
Proof.
  intros Hs. simpl. pose proof (emit_below_spec ps key Hs) as He.
  destruct (emit_below ps key) as [out rest]. destruct He as (low & -> & -> & Hlow & Hrest).
  pose proof (run_ok_app_r _ _ Hs) as Hsr. pose proof (run_ok_app_l _ _ Hs) as Hsl.
  assert (Hlo : forall k o, k < key -> den_run (low ++ rest) k o = den_run low k o).
  { intros k o Hk. rewrite (den_run_app_high low rest key) by done. by rewrite den_run_list. }
  assert (Hhi : forall k o, key <= k -> den_run (low ++ rest) k o = den_run rest k o).
  { intros k o Hk. by apply (den_run_app_low low rest key). }
  rewrite (Hhi key) by lia. destruct rest as [|[k p] rest].
  - exists low, []. split_and!; try done; [set_solver|]. intros k o Hk. apply Hhi. lia.
  - assert (Hgt : forall k' p', (k', p') ∈ rest -> k < k')
      by (intros k' p' Hin; by eapply run_ok_head).
    pose proof (run_ok_tail _ _ Hsr) as Hst. pose proof (Hrest k p ltac:(left)) as Hkey.
    destruct (Z.eqb_spec k key) as [->|Hne].
    + exists low, rest. split_and!; try done.
      * f_equal. f_equal. unfold den_run. rewrite find_patch_cons, Z.eqb_refl by done.
        by destruct p.
      * intros k o Hk. rewrite Hhi by lia. unfold den_run. rewrite find_patch_cons by done.
        by rewrite (proj2 (Z.eqb_neq key k)) by lia.
    + exists low, ((k, p) :: rest). split_and!; try done.
      * f_equal. unfold den_run. rewrite find_patch_cons by done.
        rewrite (proj2 (Z.eqb_neq k key)) by done.
        destruct (find_patch rest key) as [q|] eqn:E; [|done].
        apply find_patch_elem in E; [|done]. specialize (Hgt _ _ E). lia.
      * intros k' p' [[= -> ->]|Hin]%elem_of_cons; [lia|]. specialize (Hgt _ _ Hin). lia.
      * intros k' o Hk'. apply Hhi. lia.
Qed.

Lemma all_merge_elem bs (ps : list Entry) k v :
  StronglySorted Z.lt bs.*1 -> run_ok ps ->
  (k, v) ∈ all_merge bs ps <-> den_run ps k (assoc bs k) = Some v.
Proof.
  revert ps. induction bs as [|[key bv] bs IH]; intros ps Hb Hs.
  - simpl. by rewrite elem_of_emit, den_run_sets.
  - simpl in Hb. inversion_clear Hb as [|? ? Hb' Hall]. rewrite Forall_forall in Hall.
    destruct (all_merge_step key bv bs ps Hs)
      as (low & ps' & -> & Hsl & Hs' & Hlow & Hhi & Hdl & Hdh).
    assert (Habs : forall k, k <= key -> assoc bs k = None).
    { intros k' Hk'. destruct (assoc bs k') as [b|] eqn:E; [|done].
      apply assoc_elem in E. assert (key < k'); [|lia]. apply Hall.
      apply list_elem_of_fmap. by exists (k', b). }
    assert (Hmid : (k, v) ∈ opt_entry key (den_run ps key (Some bv))
                   <-> k = key /\ den_run ps key (Some bv) = Some v).
    { unfold opt_entry. destruct (den_run ps key (Some bv)); [|set_solver].
      rewrite list_elem_of_singleton. naive_solver. }
    rewrite !elem_of_app, elem_of_emit, Hmid, IH by done. simpl.
    destruct (Z.lt_trichotomy k key) as [Hk|[->|Hk]].
    + rewrite (proj2 (Z.eqb_neq key k)) by lia. rewrite Habs, (Hdl k), (den_run_sets low) by (done || lia).
      split; [|by left]. intros [?|[[-> _]|Hd]]; [done|lia|].
      apply den_run_sets in Hd; [|done]. specialize (Hhi _ _ Hd). lia.
    + rewrite Z.eqb_refl. split; [|by right; left]. intros [Hin|[[_ ?]|Hd]]; [|done|].
      * specialize (Hlow _ _ Hin). lia.
      * rewrite Habs in Hd by lia. apply den_run_sets in Hd; [|done]. specialize (Hhi _ _ Hd). lia.
    + rewrite (proj2 (Z.eqb_neq key k)) by lia. rewrite (Hdh k) by done.
      split; [|by right; right]. intros [Hin|[[-> _]|?]]; [|lia|done]. specialize (Hlow _ _ Hin). lia.
Qed.

Lemma emit_sorted (l : list Entry) :
  run_ok l -> StronglySorted Z.lt (concat (emit_patch_only <$> l)).*1.
Proof.
  induction l as [|[k p] l IH]; intros Hs; [constructor|]. simpl. rewrite fmap_app.
  pose proof (run_ok_tail _ _ Hs) as Hs'. unfold emit_patch_only at 1.
  destruct p; simpl; auto. constructor; [auto|]. rewrite Forall_forall. intros k' Hin.
  apply list_elem_of_fmap in Hin as ([k'' v'] & -> & Hin). apply elem_of_emit in Hin.
  by apply (run_ok_head _ _ _ _ _ Hs Hin).
Qed.

Lemma all_merge_sorted bs (ps : list Entry) :
  StronglySorted Z.lt bs.*1 -> run_ok ps -> StronglySorted Z.lt (all_merge bs ps).*1.
Proof.
  revert ps. induction bs as [|[key bv] bs IH]; intros ps Hb Hs; [by apply emit_sorted|].
  simpl in Hb. inversion_clear Hb as [|? ? Hb' Hall]. rewrite Forall_forall in Hall.
  destruct (all_merge_step key bv bs ps Hs)
    as (low & ps' & -> & Hsl & Hs' & Hlow & Hhi & Hdl & Hdh).
  assert (Hrec : forall k, k ∈ (all_merge bs ps').*1 -> key < k).
  { intros k Hin. apply list_elem_of_fmap in Hin as ([k' v'] & -> & Hin). simpl.
    apply all_merge_elem in Hin; [|done..].
    destruct (den_run_key _ _ _ _ Hs' Hin) as [[p ?]|[b Hin']]; [by eapply Hhi|].
    apply Hall. apply list_elem_of_fmap. by exists (k', b). }
  assert (Hlo : forall k, k ∈ (concat (emit_patch_only <$> low)).*1 -> k < key).
  { intros k Hin. apply list_elem_of_fmap in Hin as ([k' v'] & -> & Hin).
    apply elem_of_emit in Hin. by eapply Hlow. }
  rewrite !fmap_app, !StronglySorted_app.
  split_and!; [|by apply emit_sorted|..|by apply IH].
  - intros a b Ha%Hlo. rewrite elem_of_app. intros [Hb|Hb%Hrec]; [|lia].
    unfold opt_entry in Hb. destruct (den_run ps key (Some bv)); set_solver.
  - intros a b Ha Hb%Hrec. unfold opt_entry in Ha.
    destruct (den_run ps key (Some bv)); set_solver.
  - unfold opt_entry. destruct (den_run ps key (Some bv)); repeat constructor.
Qed.

Lemma base_entries_spec (m : gmap Z V) :
  StronglySorted Z.lt (base_entries m).*1 /\ forall k, assoc (base_entries m) k = m !! k.
Proof.
  assert (Hp : base_entries m ≡ₚ map_to_list m) by apply merge_sort_Permutation.
  assert (Hn : NoDup (base_entries m).*1) by (rewrite Hp; apply NoDup_fst_map_to_list).
  assert (Hs : StronglySorted base_le (base_entries m)).
  { apply Sorted_StronglySorted; [intros a b c; unfold base_le; lia|].
    apply Sorted_merge_sort. intros a b. unfold base_le. lia. }
  split.
  - clear Hp. induction Hs as [|[k v] l Hl IH Hall]; [constructor|]. simpl in *.
    apply NoDup_cons in Hn as [Hk Hn]. constructor; [by apply IH|].
    apply Forall_forall. rewrite Forall_forall in Hall. intros k' Hin.
    apply list_elem_of_fmap in Hin as ([k'' v'] & -> & Hin). pose proof (Hall _ Hin) as Hle.
    unfold base_le in Hle. simpl in *. destruct (Z.eq_dec k k'') as [->|]; [|lia].
    exfalso. apply Hk. apply list_elem_of_fmap. by exists (k'', v').
  - intros k. apply option_eq. intros v. rewrite <-elem_of_map_to_list, <-Hp.
    clear Hs Hp. split; [apply assoc_elem|].
    induction (base_entries m) as [|[k' v'] l IH]; simpl in *; [set_solver|].
    apply NoDup_cons in Hn as [Hk Hn]. rewrite elem_of_cons.
    intros [[= -> ->]|Hin]; [by rewrite Z.eqb_refl|].
    destruct (Z.eqb_spec k' k) as [->|]; [|by apply IH].
    exfalso. apply Hk. apply list_elem_of_fmap. by exists (k, v).
Qed.

(** C8: [all()] lists the map.  On a well-formed version (with or without
    pending writes) it returns, in strictly ascending key order, exactly the
    pairs a lookup of each key gives: the stable sort, the neighbour folds
    and the merge with the base agree with the walk down the chain. *)
Theorem all_lists_lookup c pend :
  Forall run_ok (runs c) -> (forall es, pend = Some es -> run_ok es) ->
  StronglySorted Z.lt (all c pend).*1
  /\ forall k v, (k, v) ∈ all c pend <-> lookup c k pend = Some v.
Proof.
  intros Hr Hp. destruct (collect_spec c pend Hr Hp) as [Hok Hd].
  destruct (base_entries_spec (base c)) as [Hb Ha]. unfold all. split.
  - by apply all_merge_sorted.
  - intros k v. by rewrite all_merge_elem, Ha, Hd.
Qed.

End listing.

Lemma all_lists_lookup_witness :
  exists c : PatchMapCore Stats.FileStats Stats.FileStatsDelta,
    (all c None).*1 = [1; 3] /\ lookup c 2 None = None
    /\ StronglySorted Z.lt (all c None).*1.
Proof.
  exists (mkCore {[1 := Stats.FileStats_zero; 2 := Stats.FileStats_zero]}
       [[(2, PErased); (3, PSet Stats.FileStats_zero)]; [(1, PDelta (Stats.d_put 7))]] 2).
  split; [vm_compute; reflexivity|]. split; [vm_compute; reflexivity|].
  refine (proj1 (all_lists_lookup _ None _ _)); [|done].
  repeat constructor.
Defined.
