(* ===== verification/DataFile.v ===== *)
(** * Data files

    Models [data_file.cppm] for the pread back-end: the writable file's
    append path ([WritableFileOps]), record reads ([fetch_record]), the raw
    sweep ([DataFileIterator]) and the committed sweep
    ([CommittedEntryIterator], [batch_iterator.cppm]).

    A system call ends as the oracle of the run says: done, or failed with
    some prefix of its bytes landed, which [check_write] turns into an
    exception.  [fdatasync] makes the bytes below the logical end durable. *)

From S2P Require Import Prelude Codec.
Import Serialization Types.

(** ** File objects *)

Record DataFile : Type := mkDataFile {
  path : string;
  content : bytes;      (* what a read of the file sees *)
  logical_end : Z;      (* offset_: the next append lands here *)
  zeroed_end : Z;       (* zeros written through here *)
  capacity : Z;         (* zero-fill never extends past this; 0 = off *)
  synced_end : Z;       (* bytes below it are on disk *)
  sync_failed : bool    (* an fdatasync failed: its pages may be clean, unwritten *)
}.

#[export] Instance DataFile_eq_dec : EqDecision DataFile.
Proof. solve_decision. Defined.

(** [std::shared_ptr<DataFile>]: file objects are shared, so a state names
    them and a heap holds them. *)
Abbreviation FileRef := Z (only parsing).

Definition df_size (f : DataFile) : Z := logical_end f.

Definition set_content (c : bytes) (f : DataFile) : DataFile :=
  mkDataFile (path f) c (logical_end f) (zeroed_end f) (capacity f) (synced_end f) (sync_failed f).
Definition set_logical_end (e : Z) (f : DataFile) : DataFile :=
  mkDataFile (path f) (content f) e (zeroed_end f) (capacity f) (synced_end f) (sync_failed f).
Definition set_zeroed_end (e : Z) (f : DataFile) : DataFile :=
  mkDataFile (path f) (content f) (logical_end f) e (capacity f) (synced_end f) (sync_failed f).
Definition set_capacity (c : Z) (f : DataFile) : DataFile :=
  mkDataFile (path f) (content f) (logical_end f) (zeroed_end f) c (synced_end f) (sync_failed f).
Definition set_synced_end (e : Z) (f : DataFile) : DataFile :=
  mkDataFile (path f) (content f) (logical_end f) (zeroed_end f) (capacity f) e (sync_failed f).
Definition set_sync_failed (b : bool) (f : DataFile) : DataFile :=
  mkDataFile (path f) (content f) (logical_end f) (zeroed_end f) (capacity f) (synced_end f) b.

(** ** System calls *)

Inductive outcome : Type :=
| Done
| Fails (landed : nat).

Record FileIO : Type := mkFileIO { fio_file : DataFile; fio_oracle : list outcome }.

Definition update_file (f : DataFile -> DataFile) : io FileIO unit :=
  modify (fun s => mkFileIO (f (fio_file s)) (fio_oracle s)).

Definition next_outcome : io FileIO outcome := fun s =>
  match fio_oracle s with
  | [] => (Ok Done, s)
  | o :: os => (Ok o, mkFileIO (fio_file s) os)
  end.

(** A call that reads: a failing one changes nothing. *)
Definition read_call (what : string) : io FileIO unit :=
  o ← next_outcome;
  match o with Done => mret () | Fails _ => throw (SystemError what) end.

(** [data] written at [off]; a gap before it reads as zeros. *)
Definition overwrite (c : bytes) (off : nat) (data : bytes) : bytes :=
  take off (c ++ replicate (off - length c) x00) ++ data ++ drop (off + length data) c.

Definition write_at (off : Z) (data : bytes) (f : DataFile) : DataFile :=
  set_content (overwrite (content f) (Z.to_nat off) data) f.

(** [pwrite]/[pwritev] and [check_write]. *)
Definition pwrite (what : string) (off : Z) (data : bytes) : io FileIO unit :=
  o ← next_outcome;
  match o with
  | Done => update_file (write_at off data)
  | Fails n => _ ← update_file (write_at off (take n data)); throw (SystemError what)
  end.

(** What an [fdatasync] that returns has made durable: the bytes up to [e].
    After one that failed, Linux leaves the pages it covered clean without
    writing them, so a later one vouches for nothing until the bytes are
    written again. *)
Definition sync_to (e : Z) (f : DataFile) : DataFile :=
  if sync_failed f then f else set_synced_end (Z.max (synced_end f) e) f.

Definition fdatasync_to (what : string) (e : Z) : io FileIO unit :=
  o ← next_outcome;
  match o with
  | Done => update_file (sync_to e)
  | Fails _ => _ ← update_file (set_sync_failed true); throw (SystemError what)
  end.

Definition fdatasync (what : string) : io FileIO unit :=
  e ← gets (fun s => logical_end (fio_file s));
  fdatasync_to what e.

(** [ftruncate]: a failure may still have cut the file. *)
Definition ftruncate (what : string) (n : Z) : io FileIO unit :=
  let cut f := set_synced_end (Z.min (synced_end f) n) (set_content (take (Z.to_nat n) (content f)) f) in
  o ← next_outcome;
  match o with
  | Done => update_file cut
  | Fails O => throw (SystemError what)
  | Fails _ => _ ← update_file cut; throw (SystemError what)
  end.

(** ** Zero-fill ahead of the write cursor *)

Definition kZeroFillChunkBytes : Z := 4 * 1024 * 1024.
Definition kZeroBuf : Z := 1024 * 1024.

(** The loop writing zeros of [off, target) a buffer at a time. *)
Fixpoint zero_loop (fuel : nat) (off target : Z) : io FileIO unit :=
  match fuel with
  | O => mret ()
  | S fuel' =>
      if off <? target then
        let len := Z.min kZeroBuf (target - off) in
        _ ← pwrite "WritableFileOps::ensure_zeroed" off (replicate (Z.to_nat len) x00);
        zero_loop fuel' (off + len) target
      else mret ()
  end.

Definition zero_target (write_end : Z) (f : DataFile) : Z :=
  let chunk_end := (write_end + kZeroFillChunkBytes - 1) / kZeroFillChunkBytes * kZeroFillChunkBytes in
  Z.max write_end (Z.min chunk_end (capacity f)).

Definition ensure_zeroed (write_end : Z) : io FileIO unit :=
  f ← gets fio_file;
  if (capacity f =? 0) || (write_end <=? zeroed_end f) then mret ()
  else
    let target := zero_target write_end f in
    _ ← zero_loop (Z.to_nat ((target - zeroed_end f) / kZeroBuf + 1)) (zeroed_end f) target;
    update_file (set_zeroed_end target).

(** ** Appending *)

Section append.
Context `{Crc32c}.

Definition advance (n : Z) : io FileIO unit :=
  update_file (fun f => set_logical_end (logical_end f + n) f).

Definition append_entry (e : DataEntry) : io FileIO Z :=
  entry_offset ← gets (fun s => logical_end (fio_file s));
  hdr_crc ← lift (DataEntry.write_header_and_crc (replicate (DataEntry.kHeaderSize + DataEntry.kCrcSize) x00)
                    (de_sequence e) (de_type e) (de_key e) (de_value e));
  let iov := [take DataEntry.kHeaderSize hdr_crc; de_key e; de_value e;
              drop DataEntry.kHeaderSize hdr_crc] in
  let total := DataEntry.record_bytes e in
  _ ← ensure_zeroed (entry_offset + total);
  _ ← pwrite "WritableFileOps::append_entry" entry_offset (concat iov);
  _ ← advance total;
  mret entry_offset.

(** A piece of a chunk: a value written from the caller's bytes, or a range
    of the serialization buffer. *)
Inductive Piece : Type :=
| PExt (b : bytes)
| PBuf (at_ len : nat).

Definition piece_bytes (buf : bytes) (p : Piece) : bytes :=
  match p with PExt b => b | PBuf at_ len => subspan buf at_ len end.

(** [to_iovecs], gathered. *)
Definition gather (buf : bytes) (pieces : list Piece) : bytes :=
  concat (piece_bytes buf <$> pieces).

(** Appends [buf[from, end)] to the pieces; a buffer run before it is
    extended.  [pieces] is newest first. *)
Definition run_to_end (from : nat) (buf : bytes) (pieces : list Piece) : list Piece :=
  match pieces with
  | PBuf at_ len :: ps => PBuf at_ (len + (length buf - from)) :: ps
  | _ => PBuf from (length buf - from) :: pieces
  end.

(** Serializes one entry into the chunk. *)
Definition stage_entry (e : DataEntry) (acc : bytes * list Piece)
    : result (bytes * list Piece) :=
  let '(buf, pieces) := acc in
  hdr_crc ← DataEntry.write_header_and_crc (replicate (DataEntry.kHeaderSize + DataEntry.kCrcSize) x00)
              (de_sequence e) (de_type e) (de_key e) (de_value e);
  let from := length buf in
  let buf := buf ++ take DataEntry.kHeaderSize hdr_crc ++ de_key e in
  let crc := drop DataEntry.kHeaderSize hdr_crc in
  if DataEntry.inline_bytes e =? DataEntry.record_bytes e then
    let buf := buf ++ de_value e ++ crc in
    Ok (buf, run_to_end from buf pieces)
  else
    let pieces := PExt (de_value e) :: run_to_end from buf pieces in
    let crc_at := length buf in
    let buf := buf ++ crc in
    Ok (buf, run_to_end crc_at buf pieces).

Fixpoint stage_entries (es : list DataEntry) (acc : bytes * list Piece)
    : result (bytes * list Piece) :=
  match es with
  | [] => Ok acc
  | e :: es' => acc' ← stage_entry e acc; stage_entries es' acc'
  end.

(** The limits of one [pwritev], and of the bytes a chunk copies. *)
Record Limits : Type := mkLimits {
  max_entries : nat;
  max_bytes : Z;
  scratch_bytes : Z
}.

(** How many entries the chunk takes. *)
Fixpoint chunk_length (l : Limits) (es : list DataEntry) (taken : nat) (chunk_bytes chunk_inline : Z)
    : nat :=
  match es with
  | [] => taken
  | e :: es' =>
      if (max_entries l <=? taken)%nat then taken
      else
        let chunk_bytes := chunk_bytes + DataEntry.record_bytes e in
        let next_inline := chunk_inline + DataEntry.inline_bytes e in
        if (0 <? taken)%nat && ((max_bytes l <? chunk_bytes) || (scratch_bytes l <? next_inline))
        then taken
        else chunk_length l es' (S taken) chunk_bytes next_inline
  end.

(** [offsets_out] of a chunk that starts at [off]. *)
Fixpoint offsets_from (off : Z) (es : list DataEntry) : list Z :=
  match es with
  | [] => []
  | e :: es' => off :: offsets_from (off + DataEntry.record_bytes e) es'
  end.

Definition total_bytes (es : list DataEntry) : Z := lsum DataEntry.record_bytes es.

(** One chunk: serialize, zero-fill, write, advance. *)
Definition append_chunk (es : list DataEntry) : io FileIO (list Z) :=
  start ← gets (fun s => logical_end (fio_file s));
  '(buf, pieces) ← lift (stage_entries es ([], []));
  _ ← ensure_zeroed (start + total_bytes es);
  _ ← pwrite "WritableFileOps::append_entries" start (gather buf (rev pieces));
  _ ← advance (total_bytes es);
  mret (offsets_from start es).

(** The loop over chunks; every chunk takes at least one entry. *)
Fixpoint append_chunks (fuel : nat) (l : Limits) (es : list DataEntry) : io FileIO (list Z) :=
  match fuel with
  | O => mret []
  | S fuel' =>
      match es with
      | [] => mret []
      | _ =>
          let n := chunk_length l es 0 0 0 in
          offs ← append_chunk (take n es);
          offs' ← append_chunks fuel' l (drop n es);
          mret (offs ++ offs')
      end
  end.

Definition append_entries (l : Limits) (es : list DataEntry) : io FileIO (list Z) :=
  append_chunks (length es) l es.

End append.

Definition kMaxEntriesPerWritev : nat := 256.    (* IOV_MAX / 4 *)
Definition kMaxBytesPerWritev : Z := 2 ^ 30.

(** ** The rest of the writable file *)

Definition sync : io FileIO unit := fdatasync "WritableFileOps::sync: fdatasync failed".

(** The logical end comes down before the file does. *)
Definition truncate (new_size : Z) : io FileIO unit :=
  _ ← update_file (fun f => set_synced_end (Z.min (synced_end f) new_size) (set_logical_end new_size f));
  _ ← update_file (set_zeroed_end new_size);
  ftruncate "WritableFileOps::truncate: ftruncate failed" new_size.

Definition shrink_to_fit : io FileIO unit :=
  n ← gets (fun s => logical_end (fio_file s));
  _ ← ftruncate "WritableFileOps::shrink_to_fit: ftruncate failed" n;
  _ ← fdatasync "WritableFileOps::shrink_to_fit: fdatasync failed";
  update_file (fun f => set_zeroed_end (logical_end f) f).

Definition adopt (file_size cap : Z) : io FileIO unit :=
  _ ← update_file (set_logical_end file_size);
  _ ← update_file (set_zeroed_end file_size);
  _ ← update_file (set_capacity cap);
  if (file_size =? 0) && (0 <? cap) then ensure_zeroed 1 else mret ().

(** [rewrite_durably]: every chunk of the first [e] bytes written back where it
    was read, then synced, so that what a read returns is what the device
    holds, whatever became of earlier syncs. *)
Definition kRewriteChunk : Z := 1024 * 1024.

Fixpoint rewrite_loop (fuel : nat) (off e : Z) : io FileIO unit :=
  match fuel with
  | O => mret ()
  | S fuel' =>
      if off <? e then
        let n := Z.min kRewriteChunk (e - off) in
        _ ← read_call "bytecask: rewrite";
        buf ← gets (fun s => subspan (content (fio_file s)) (Z.to_nat off) (Z.to_nat n));
        _ ← pwrite "bytecask: rewrite" off buf;
        rewrite_loop fuel' (off + n) e
      else mret ()
  end.

Definition rewrite_durably (e : Z) : io FileIO unit :=
  f ← gets fio_file;
  let n := Z.min e (size (content f)) in
  _ ← rewrite_loop (Z.to_nat (n / kRewriteChunk + 1)) 0 n;
  o ← next_outcome;
  match o with
  | Done => update_file (fun f => set_synced_end n (set_sync_failed false f))
  | Fails _ => _ ← update_file (set_sync_failed true); throw (SystemError "bytecask: fdatasync failed")
  end.

(** ** Reading *)

Definition bytes_below (offset len e : Z) : Z := if e <=? offset then 0 else Z.min len (e - offset).

(** [pread_upto]: short only where the file ends. *)
Definition pread_upto (c : bytes) (offset len : Z) : bytes :=
  subspan c (Z.to_nat offset) (Z.to_nat len).

Definition throw_short_read : exn := IoError "bytecask: short read".

(** Bounded by the logical end. *)
Definition read_raw (f : DataFile) (offset len : Z) : result bytes :=
  let n := bytes_below offset len (logical_end f) in
  let got := pread_upto (content f) offset n in
  _ ← throw_if (size got <? n) throw_short_read;
  Ok got.

Inductive OnDamage : Type := DamageThrow | DamageStop.

#[export] Instance OnDamage_eq_dec : EqDecision OnDamage.
Proof. solve_decision. Defined.

Section reads.
Context `{Crc32c}.

(** Bytes of the record a header describes. *)
Definition header_record_bytes (h : DataEntry.EntryHeader) : Z :=
  Z.of_nat DataEntry.kHeaderSize + DataEntry.key_size h + DataEntry.value_size h
  + Z.of_nat DataEntry.kCrcSize.

Definition record_view (raw : bytes) (h : DataEntry.EntryHeader) (verify : bool) : result DataEntry :=
  _ ← (if verify then (_ ← DataEntry.parse_header_and_verify raw; Ok ()) else Ok ());
  let body := drop DataEntry.kHeaderSize raw in
  Ok (mkDataEntry (DataEntry.sequence h) (DataEntry.entry_type h)
        (subspan body 0 (Z.to_nat (DataEntry.key_size h)))
        (subspan body (Z.to_nat (DataEntry.key_size h)) (Z.to_nat (DataEntry.value_size h)))).

Definition first_read_length (offset value_size_hint e : Z) : Z :=
  let kKeyBudget := 256 in
  let kPage := 4096 in
  let hs := Z.of_nat DataEntry.kHeaderSize in
  let cs := Z.of_nat DataEntry.kCrcSize in
  let len := if value_size_hint =? 0 then Z.max (hs + kKeyBudget + cs) (kPage - offset mod kPage)
             else hs + kKeyBudget + value_size_hint + cs in
  Z.min len (if offset <? e then e - offset else 0).

(** One fetch of the first read's length, then, only when the record is
    longer, one for the rest. *)
Definition fetch_record (f : DataFile) (offset value_size_hint : Z) (verify : bool) : result DataEntry :=
  let e := logical_end f in
  let first := first_read_length offset value_size_hint e in
  _ ← throw_if (first <? Z.of_nat DataEntry.kHeaderSize)
        (RuntimeError "bytecask: record header past the end of file");
  let io_buf := pread_upto (content f) offset first in
  _ ← throw_if (size io_buf <? Z.of_nat DataEntry.kHeaderSize) throw_short_read;
  let h := DataEntry.read_header (take DataEntry.kHeaderSize io_buf) in
  let total := header_record_bytes h in
  _ ← throw_if (e <? offset + total)
        (RuntimeError "bytecask: corrupt data file - record extends past the end");
  io_buf ← (if size io_buf <? total then
              _ ← throw_if (size io_buf <? first) throw_short_read;
              let rest := pread_upto (content f) (offset + first) (total - first) in
              _ ← throw_if (size rest <? total - first) throw_short_read;
              Ok (io_buf ++ rest)
            else Ok io_buf);
  record_view (take (Z.to_nat total) io_buf) h verify.

(** ** The raw sweep *)

Record DataFileIterator : Type := mkIterator {
  it_next_offset : Z;
  it_buf : bytes;         (* buf_[0, buf_len_) *)
  it_buf_start : Z
}.

Definition iterator_at (start : Z) : DataFileIterator := mkIterator start [] 0.

Definition kChunkBytes : Z := 1024 * 1024.

(** The [len] bytes at [offset], read into the buffer unless already there. *)
Definition buffered (f : DataFile) (chunk_bytes offset len : Z) (it : DataFileIterator)
    : result (bytes * DataFileIterator) :=
  it ← (if it_buf_start it + size (it_buf it) <? offset + len then
          buf ← read_raw f offset (Z.max len chunk_bytes);
          _ ← throw_if (size buf <? len) (RuntimeError "bytecask: short read");
          Ok (mkIterator (it_next_offset it) buf offset)
        else Ok it);
  Ok (subspan (it_buf it) (Z.to_nat (offset - it_buf_start it)) (Z.to_nat len), it).

(** A header no record of the engine has. *)
Definition damaged_header (h : DataEntry.EntryHeader) : bool :=
  negb (is_known_entry_type (DataEntry.entry_type h))
  || (bool_decide (DataEntry.entry_type h = EChangeMarker)
      && negb ((DataEntry.key_size h =? 0)
               && (DataEntry.value_size h =? Z.of_nat kChangeMarkerIdBytes))).

(** [DataFileIterator::advance]: the next entry and its offset, or the end. *)
Definition iter_advance (f : DataFile) (od : OnDamage) (chunk_bytes : Z) (it : DataFileIterator)
    : result (option (DataEntry * Z) * DataFileIterator) :=
  let offset := it_next_offset it in
  let e := logical_end f in
  if e <? offset + Z.of_nat DataEntry.kHeaderSize then Ok (None, it)
  else
    '(hb, it) ← buffered f chunk_bytes offset (Z.of_nat DataEntry.kHeaderSize) it;
    let h := DataEntry.read_header hb in
    if DataEntry.sequence h =? 0 then Ok (None, it)
    else if damaged_header h then
      match od with
      | DamageStop => Ok (None, it)
      | DamageThrow => Err (RuntimeError "bytecask: unknown entry type or malformed change marker")
      end
    else
      let total := header_record_bytes h in
      if e <? offset + total then Ok (None, it)
      else
        '(raw, it) ← buffered f chunk_bytes offset total it;
        if bool_decide (od = DamageStop) && negb (DataEntry.crc_matches raw) then Ok (None, it)
        else
          entry ← record_view raw h (bool_decide (od = DamageThrow));
          Ok (Some (entry, offset), mkIterator (offset + total) (it_buf it) (it_buf_start it)).

(** The whole sweep from an iterator: the entries it yields, each with its
    offset and the offset past it, and the exception it ends with, if any.  A
    record takes at least 19 bytes, so [fuel] the file's size is enough. *)
Fixpoint sweep (fuel : nat) (f : DataFile) (od : OnDamage) (chunk_bytes : Z) (it : DataFileIterator)
    : list (DataEntry * Z * Z) * option exn :=
  match fuel with
  | O => ([], None)
  | S fuel' =>
      match iter_advance f od chunk_bytes it with
      | Err x => ([], Some x)
      | Ok (None, _) => ([], None)
      | Ok (Some (e, off), it) =>
          let '(rest, x) := sweep fuel' f od chunk_bytes it in
          ((e, off, it_next_offset it) :: rest, x)
      end
  end.

Definition sweep_file (f : DataFile) (start : Z) (od : OnDamage) : list (DataEntry * Z * Z) * option exn :=
  sweep (S (Z.to_nat (logical_end f))) f od kChunkBytes (iterator_at start).

End reads.

(** ** The committed sweep *)

(** A standalone entry, or a batch from [BulkBegin] to [BulkEnd], and the
    offset past it. *)
Abbreviation committed_unit := (list (DataEntry * Z) * Z)%type.

(** [CommittedEntryIterator::advance] over what the raw sweep yields;
    [batch] is the batch being buffered. *)
Fixpoint committed_units (od : OnDamage) (batch : option (list (DataEntry * Z)))
    (raw : list (DataEntry * Z * Z)) (err : option exn) : list committed_unit * option exn :=
  match raw with
  | [] => ([], err)                               (* an incomplete batch is discarded *)
  | (e, off, next) :: raw' =>
      match batch with
      | None =>
          if bool_decide (de_type e = BulkBegin) then committed_units od (Some [(e, off)]) raw' err
          else let '(us, x) := committed_units od None raw' err in (([(e, off)], next) :: us, x)
      | Some staged =>
          if bool_decide (de_type e = EChangeMarker) then
            match od with
            | DamageStop => ([], None)
            | DamageThrow => ([], Some (RuntimeError "bytecask: change marker inside an atomic batch"))
            end
          else if bool_decide (de_type e = BulkEnd) then
            let '(us, x) := committed_units od None raw' err in ((staged ++ [(e, off)], next) :: us, x)
          else committed_units od (Some (staged ++ [(e, off)])) raw' err
      end
  end.

(** [scan_committed]: the entries, [committed_offset()] at the end, and the
    exception the sweep ends with. *)
Record committed_scan : Type := mkCommitted {
  cs_entries : list (DataEntry * Z);
  cs_offset : Z;
  cs_error : option exn
}.

Definition scan_of_units (us : list committed_unit * option exn) : committed_scan :=
  mkCommitted (concat us.1.*1) (List.last us.1.*2 0) us.2.

Definition scan_committed `{Crc32c} (f : DataFile) (start : Z) (od : OnDamage) : committed_scan :=
  let '(raw, err) := sweep_file f start od in
  scan_of_units (committed_units od None raw err).
