(* ===== verification/DataFileProofs.v ===== *)
(** * What data files hold

    The bytes of a file below its logical end are the records appended to
    it, whatever the limits that cut an append into chunks and wherever a
    system call fails; a record is read back through any first read length;
    a sweep in any chunk size yields the records in order. *)

From S2P Require Import Prelude Codec DataFile.
Import Serialization Types.

(** ** Overwriting *)

Lemma take_overwrite n c off d :
  (n <= off)%nat -> (n <= length c)%nat -> take n (overwrite c off d) = take n c.
Proof.
  intros Hn Hc. unfold overwrite.
  rewrite take_app_le, take_take, Nat.min_l by (rewrite ?length_take, ?length_app, ?length_replicate; lia).
  by apply take_app_le.
Qed.

Lemma take_overwrite_all c off d :
  (off <= length c)%nat -> take (off + length d) (overwrite c off d) = take off c ++ d.
Proof.
  intros Hc. unfold overwrite. replace (off - length c)%nat with O by lia.
  rewrite app_nil_r, app_assoc. apply take_app_length'.
  rewrite length_app, length_take. lia.
Qed.

Lemma length_overwrite c off d :
  (off <= length c)%nat -> (length c <= length (overwrite c off d))%nat
  /\ (off + length d <= length (overwrite c off d))%nat.
Proof.
  intros Hc. unfold overwrite. rewrite !length_app, length_take, length_drop, length_app, length_replicate. lia.
Qed.

(** ** Files *)

(** The bytes a file holds for its readers. *)
Definition live (f : DataFile) : bytes := take (Z.to_nat (logical_end f)) (content f).

Record file_ok (f : DataFile) : Prop := {
  fo_end : 0 <= logical_end f <= size (content f);
  fo_zeroed : capacity f = 0 \/ logical_end f <= zeroed_end f;
  fo_synced : 0 <= synced_end f <= logical_end f
}.

Lemma length_live f : file_ok f -> size (live f) = logical_end f.
Proof. intros [H _ _]. unfold size, live in *. rewrite length_take. lia. Qed.

(** A file that differs only past its logical end. *)
Record keeps (f f' : DataFile) : Prop := {
  kp_ok : file_ok f';
  kp_end : logical_end f' = logical_end f;
  kp_live : live f' = live f;
  kp_path : path f' = path f;
  kp_capacity : capacity f' = capacity f;
  kp_synced : synced_end f' = synced_end f;
  kp_failed : sync_failed f' = sync_failed f
}.

Lemma keeps_refl f : file_ok f -> keeps f f.
Proof. by intros. Qed.

Lemma keeps_trans a b c : keeps a b -> keeps b c -> keeps a c.
Proof. intros [] []. split; congruence. Qed.

Lemma write_past_end off data f :
  file_ok f -> logical_end f <= off <= size (content f) -> keeps f (write_at off data f).
Proof.
  intros Hok Hoff. pose proof Hok as [He Hz Hs]. unfold size in *.
  destruct (length_overwrite (content f) (Z.to_nat off) data) as [Hl _]; [lia|].
  split; try done.
  - split; cbn; unfold size; try done. lia.
  - unfold live. cbn. apply take_overwrite; lia.
Qed.

(** An overwrite may start past the end of the file (a gap reads as zeros). *)
Lemma write_past_end_gap off data f :
  file_ok f -> logical_end f <= off -> keeps f (write_at off data f).
Proof.
  intros Hok Hoff. pose proof Hok as [He Hz Hs]. unfold size in *. split; try done.
  - split; cbn; unfold size, overwrite; try done.
    rewrite !length_app, length_take, length_drop, length_app, length_replicate. lia.
  - unfold live. cbn. apply take_overwrite; lia.
Qed.

(** ** System calls

    Each either does its work, or fails; with an empty oracle it does. *)

Definition quiet (s : FileIO) : Prop := fio_oracle s = [].

Lemma pwrite_cases what off data s :
  exists r s', pwrite what off data s = (r, s')
    /\ ((r = Ok () /\ fio_file s' = write_at off data (fio_file s))
        \/ (r = Err (SystemError what) /\ exists n, fio_file s' = write_at off (take n data) (fio_file s)))
    /\ (quiet s -> r = Ok () /\ quiet s').
Proof.
  destruct s as [f os]. unfold quiet, pwrite, next_outcome. cbn.
  destruct os as [|[|n] os]; cbn; eexists _, _; (split; [done|]); split; eauto; done.
Qed.

Lemma pwrite_keeps what off data s :
  file_ok (fio_file s) -> logical_end (fio_file s) <= off ->
  exists r s', pwrite what off data s = (r, s') /\ keeps (fio_file s) (fio_file s')
    /\ (quiet s -> r = Ok () /\ quiet s')
    /\ (r = Ok () -> zeroed_end (fio_file s') = zeroed_end (fio_file s)).
Proof.
  intros Hok Hoff. destruct (pwrite_cases what off data s) as (r & s' & E & Hc & Hq).
  exists r, s'. split_and!; [done| |done|].
  - destruct Hc as [[_ ->]|(_ & n & ->)]; by apply write_past_end_gap.
  - destruct Hc as [[_ ->]|(_ & n & ->)]; done.
Qed.

Lemma zero_loop_keeps fuel off target s :
  file_ok (fio_file s) -> logical_end (fio_file s) <= off ->
  exists r s', zero_loop fuel off target s = (r, s') /\ keeps (fio_file s) (fio_file s')
    /\ (quiet s -> r = Ok () /\ quiet s').
Proof.
  revert off s. induction fuel as [|fuel IH]; intros off s Hok Hoff; cbn [zero_loop].
  { exists (Ok ()), s. split_and!; [done|by apply keeps_refl|done]. }
  destruct (off <? target) eqn:Ho; [|exists (Ok ()), s; split_and!; [done|by apply keeps_refl|done]].
  apply Z.ltb_lt in Ho. unfold mbind, io_bind.
  destruct (pwrite_keeps "WritableFileOps::ensure_zeroed" off
    (replicate (Z.to_nat (Z.min kZeroBuf (target - off))) x00) s Hok Hoff)
    as (r & s1 & -> & K1 & Q1 & _).
  destruct r as [[]|x].
  - destruct (IH (off + Z.min kZeroBuf (target - off)) s1) as (r & s2 & -> & K2 & Q2);
      [apply K1|rewrite (kp_end _ _ K1); unfold kZeroBuf; lia|].
    exists r, s2. split_and!; [done|by eapply keeps_trans|]. intros [_ ?]%Q1. auto.
  - exists (Err x), s1. split_and!; [done|done|]. by intros [? _]%Q1.
Qed.

Lemma ensure_zeroed_keeps write_end s :
  file_ok (fio_file s) ->
  exists r s', ensure_zeroed write_end s = (r, s') /\ keeps (fio_file s) (fio_file s')
    /\ (quiet s -> r = Ok () /\ quiet s')
    /\ (r = Ok () -> capacity (fio_file s') = 0 \/ write_end <= zeroed_end (fio_file s')).
Proof.
  intros Hok. unfold ensure_zeroed, gets. unfold mbind at 1, io_bind at 1. cbn [fst snd].
  destruct ((capacity (fio_file s) =? 0) || (write_end <=? zeroed_end (fio_file s))) eqn:Hc.
  { exists (Ok ()), s. split_and!; [done|by apply keeps_refl|done|]. intros _.
    apply orb_true_iff in Hc as [?%Z.eqb_eq|?%Z.leb_le]; auto. }
  apply orb_false_iff in Hc as [Hcap%Z.eqb_neq Hwe%Z.leb_gt].
  pose proof Hok as [_ [?|Hz] _]; [done|].
  unfold mbind, io_bind. set (target := zero_target _ _).
  assert (Ht : write_end <= target) by apply Z.le_max_l.
  destruct (zero_loop_keeps (Z.to_nat ((target - zeroed_end (fio_file s)) / kZeroBuf + 1))
    (zeroed_end (fio_file s)) target s Hok Hz) as (r & s1 & -> & K1 & Q1).
  destruct r as [[]|x].
  - eexists _, _. split; [done|]. split_and!; [|naive_solver|intros _; right; cbn; done].
    eapply keeps_trans; [exact K1|]. destruct (kp_ok _ _ K1) as [E1 _ S1].
    split; try done. split; cbn; try done. right. rewrite (kp_end _ _ K1). lia.
  - exists (Err x), s1. split_and!; [done|done| |done]. by intros [? _]%Q1.
Qed.

(** ** Appending *)

Section append.
Context `{Crc32cLaws}.

(** What an entry becomes on disk. *)
Definition image (e : DataEntry) : bytes := DataEntry.entry_image e.
Definition images (es : list DataEntry) : bytes := concat (image <$> es).

(** The entries an engine appends. *)
Definition writable (e : DataEntry) : Prop := size (de_key e) < 2 ^ 16 /\ size (de_value e) < 2 ^ 32.

Lemma image_pieces e :
  writable e -> exists hdr crc,
    DataEntry.write_header_and_crc (replicate (DataEntry.kHeaderSize + DataEntry.kCrcSize) x00)
      (de_sequence e) (de_type e) (de_key e) (de_value e) = Ok (hdr ++ crc)
    /\ length hdr = DataEntry.kHeaderSize /\ length crc = DataEntry.kCrcSize
    /\ image e = hdr ++ de_key e ++ de_value e ++ crc.
Proof.
  intros [Hk Hv]. eexists _, _. split.
  { apply DataEntry.write_header_and_crc_image; unfold fits, size in *; lia. }
  split_and!; [apply DataEntry.length_header_image|apply length_le_split|].
  unfold image, DataEntry.entry_image, DataEntry.body_image. destruct e; cbn.
  by rewrite <-!app_assoc.
Qed.

Lemma length_image e : size (image e) = DataEntry.record_bytes e.
Proof.
  unfold image, DataEntry.entry_image, size, DataEntry.record_bytes, size.
  rewrite length_app, DataEntry.size_body_image, length_le_split.
  unfold DataEntry.kHeaderSize, DataEntry.kCrcSize. lia.
Qed.

Lemma length_images es : size (images es) = total_bytes es.
Proof.
  unfold images, total_bytes. induction es as [|e es IH]; [done|].
  cbn [fmap list_fmap concat]. unfold size in *. rewrite length_app, Nat2Z.inj_add, lsum_cons, IH.
  pose proof (length_image e) as He. unfold size in He. lia.
Qed.

Lemma images_app es es' : images (es ++ es') = images es ++ images es'.
Proof. unfold images. by rewrite fmap_app, concat_app. Qed.

(** The pieces (newest first) gather to [d]; a buffer run on top ends where
    the buffer does. *)
Record staged (buf : bytes) (pieces : list Piece) (d : bytes) : Prop := {
  sg_gather : gather buf (rev pieces) = d;
  sg_inside : Forall (fun p => match p with PBuf a n => (a + n <= length buf)%nat | PExt _ => True end) pieces;
  sg_top : match pieces with PBuf a n :: _ => (a + n = length buf)%nat | _ => True end
}.

Lemma gather_snoc buf ps p : gather buf (rev (p :: ps)) = gather buf (rev ps) ++ piece_bytes buf p.
Proof. unfold gather. cbn [rev]. rewrite fmap_app, concat_app. cbn. by rewrite app_nil_r. Qed.

Lemma gather_extend buf ext ps :
  Forall (fun p => match p with PBuf a n => (a + n <= length buf)%nat | PExt _ => True end) ps ->
  gather (buf ++ ext) (rev ps) = gather buf (rev ps).
Proof.
  induction ps as [|p ps IH]; intros Hp; [done|]. apply Forall_cons in Hp as [Hp1 Hp].
  rewrite !gather_snoc, IH by done. f_equal. destruct p as [b|a n]; [done|]. cbn. unfold subspan.
  rewrite drop_app_le, take_app_le by (rewrite ?length_drop; lia). done.
Qed.

Lemma run_to_end_staged buf ext pieces d :
  staged buf pieces d -> staged (buf ++ ext) (run_to_end (length buf) (buf ++ ext) pieces) (d ++ ext).
Proof.
  intros [Hg Hin Ht]. assert (Hin' : Forall (fun p => match p with PBuf a n => (a + n <= length (buf ++ ext))%nat
    | PExt _ => True end) pieces).
  { eapply Forall_impl; [exact Hin|]. intros [|a n] ?; [done|]. rewrite length_app. lia. }
  assert (Hnew : subspan (buf ++ ext) (length buf) (length (buf ++ ext) - length buf) = ext).
  { unfold subspan. rewrite drop_app_length. apply take_ge. rewrite length_app. lia. }
  unfold run_to_end. destruct pieces as [|[b|a n] ps].
  - split; [rewrite gather_snoc; cbn [piece_bytes]; by rewrite Hnew, <-Hg| |].
    + apply Forall_singleton. rewrite length_app. lia.
    + rewrite length_app. lia.
  - split; [rewrite gather_snoc, gather_extend by done; cbn [piece_bytes]; by rewrite Hnew, Hg| |].
    + apply Forall_cons. split; [rewrite length_app; lia|done].
    + rewrite length_app. lia.
  - apply Forall_cons in Hin as [_ Hin]. split.
    + rewrite gather_snoc, gather_extend by done. rewrite gather_snoc in Hg. cbn [piece_bytes] in *.
      rewrite <-Hg, <-app_assoc. f_equal. unfold subspan in *.
      rewrite length_app. replace (n + (length buf + length ext - length buf))%nat with (n + length ext)%nat by lia.
      rewrite drop_app_le by lia. rewrite take_app_ge by (rewrite length_drop; lia).
      rewrite length_drop. replace (n + length ext - (length buf - a))%nat with (length ext) by lia.
      f_equal; [rewrite take_ge by (rewrite length_drop; lia); done|by apply take_ge].
    + apply Forall_cons in Hin' as [_ Hin']. apply Forall_cons. split; [rewrite length_app; lia|done].
    + rewrite length_app. lia.
Qed.

Lemma stage_entry_staged e buf pieces d :
  writable e -> staged buf pieces d ->
  exists buf' pieces', stage_entry e (buf, pieces) = Ok (buf', pieces') /\ staged buf' pieces' (d ++ image e).
Proof.
  intros Hw Hs. destruct (image_pieces e Hw) as (hdr & crc & E & Hh & Hc & Hi).
  unfold stage_entry. rewrite E. cbn [mbind result_bind].
  rewrite take_app_length', drop_app_length' by done.
  destruct (DataEntry.inline_bytes e =? DataEntry.record_bytes e).
  - eexists _, _. split; [done|]. rewrite Hi.
    replace ((buf ++ hdr ++ de_key e) ++ de_value e ++ crc) with (buf ++ hdr ++ de_key e ++ de_value e ++ crc)
      by (by rewrite <-!app_assoc).
    by apply run_to_end_staged.
  - eexists _, _. split; [done|]. rewrite Hi.
    pose proof (run_to_end_staged buf (hdr ++ de_key e) pieces d Hs) as [G1 I1 _].
    assert (S2 : staged (buf ++ hdr ++ de_key e)
      (PExt (de_value e) :: run_to_end (length buf) (buf ++ hdr ++ de_key e) pieces)
      ((d ++ hdr ++ de_key e) ++ de_value e)).
    { split; [by rewrite gather_snoc, G1|by apply Forall_cons|done]. }
    apply (run_to_end_staged _ crc) in S2.
    replace (d ++ hdr ++ de_key e ++ de_value e ++ crc) with (((d ++ hdr ++ de_key e) ++ de_value e) ++ crc)
      by (by rewrite <-!app_assoc). exact S2.
Qed.

Lemma stage_entries_images es buf pieces d :
  Forall writable es -> staged buf pieces d ->
  exists buf' pieces', stage_entries es (buf, pieces) = Ok (buf', pieces')
    /\ gather buf' (rev pieces') = d ++ images es.
Proof.
  revert buf pieces d. induction es as [|e es IH]; intros buf pieces d Hw Hs.
  { exists buf, pieces. split; [done|]. unfold images. cbn. rewrite app_nil_r. apply Hs. }
  apply Forall_cons in Hw as [Hw1 Hw].
  destruct (stage_entry_staged e buf pieces d Hw1 Hs) as (b1 & p1 & E1 & S1).
  destruct (IH b1 p1 _ Hw S1) as (b2 & p2 & E2 & G2).
  exists b2, p2. cbn [stage_entries]. rewrite E1. cbn [mbind result_bind]. split; [done|].
  rewrite G2. unfold images. cbn [fmap list_fmap concat]. by rewrite <-app_assoc.
Qed.

(** ** The append path

    [appended f f' es]: [f'] is [f] with the records of [es] added, and
    possibly more past its logical end. *)
Record appended (f f' : DataFile) (es : list DataEntry) : Prop := {
  ap_ok : file_ok f';
  ap_end : logical_end f' = logical_end f + total_bytes es;
  ap_live : live f' = live f ++ images es;
  ap_path : path f' = path f;
  ap_capacity : capacity f' = capacity f;
  ap_synced : synced_end f' = synced_end f;
  ap_failed : sync_failed f' = sync_failed f
}.

Lemma appended_keeps f f' : keeps f f' -> appended f f' [].
Proof.
  intros []. split; try done.
  - unfold total_bytes. rewrite lsum_nil. lia.
  - unfold images. cbn. by rewrite app_nil_r.
Qed.

Lemma total_bytes_app es es' : total_bytes (es ++ es') = total_bytes es + total_bytes es'.
Proof. apply lsum_app. Qed.

Lemma appended_trans a b c es es' :
  appended a b es -> appended b c es' -> appended a c (es ++ es').
Proof.
  intros [] []. split; try congruence.
  - rewrite total_bytes_app. lia.
  - rewrite images_app, app_assoc. congruence.
Qed.

Lemma total_bytes_nonneg es : 0 <= total_bytes es.
Proof.
  apply lsum_nonneg. intros e _. unfold DataEntry.record_bytes, size. lia.
Qed.

(** The write of a chunk at the logical end, and the move over it. *)
Lemma write_and_advance f es :
  file_ok f -> capacity f = 0 \/ logical_end f + total_bytes es <= zeroed_end f ->
  let g := write_at (logical_end f) (images es) f in
  appended f (set_logical_end (logical_end g + total_bytes es) g) es.
Proof.
  intros Hok Hz g. pose proof Hok as [He _ Hs]. pose proof (total_bytes_nonneg es) as Ht.
  pose proof (length_images es) as Hl. unfold size in *.
  destruct (length_overwrite (content f) (Z.to_nat (logical_end f)) (images es)) as [_ Hlen]; [lia|].
  assert (Hn : Z.to_nat (logical_end f + total_bytes es)
               = (Z.to_nat (logical_end f) + length (images es))%nat) by lia.
  split; try done.
  - split; unfold g, size; cbn [logical_end content zeroed_end capacity synced_end set_logical_end write_at
      set_content]; [lia|done|lia].
  - unfold live, g. cbn [logical_end content set_logical_end write_at set_content]. rewrite Hn. apply take_overwrite_all. lia.
Qed.

(** The records of [es] written at the logical end. *)
Lemma write_at_end_spec {A} what es (a : A) s :
  file_ok (fio_file s) ->
  exists r s', (_ ← ensure_zeroed (logical_end (fio_file s) + total_bytes es);
                _ ← pwrite what (logical_end (fio_file s)) (images es);
                _ ← advance (total_bytes es); mret a) s = (r, s')
    /\ (quiet s -> is_ok r = true /\ quiet s')
    /\ match r with
       | Ok a' => a' = a /\ appended (fio_file s) (fio_file s') es
       | Err _ => keeps (fio_file s) (fio_file s')
       end.
Proof.
  intros Hok. unfold mbind at 1, io_bind at 1.
  destruct (ensure_zeroed_keeps (logical_end (fio_file s) + total_bytes es) s Hok)
    as (r & s1 & -> & K1 & Q1 & Z1).
  destruct r as [[]|x]; [|exists (Err x), s1; split_and!; [done|by intros [? _]%Q1|done]].
  specialize (Z1 eq_refl). rewrite <-(kp_end _ _ K1) in Z1 |- *.
  unfold mbind at 1, io_bind at 1.
  destruct (pwrite_cases what (logical_end (fio_file s1)) (images es) s1) as (r & s2 & -> & C2 & Q2).
  destruct C2 as [[-> Hf2]|(-> & n & Hf2)].
  - eexists _, _. split; [done|]. split; [naive_solver|]. split; [done|]. cbn [fio_file].
    apply (appended_trans _ (fio_file s1) _ [] es); [by apply appended_keeps|].
    rewrite Hf2. apply write_and_advance; [apply K1|done].
  - eexists _, _. split; [done|]. split; [intros [_ ?]%Q1; naive_solver|].
    eapply keeps_trans; [exact K1|]. rewrite Hf2. apply write_past_end_gap; [apply K1|done].
Qed.

Lemma append_chunk_spec es s :
  file_ok (fio_file s) -> Forall writable es ->
  exists r s', append_chunk es s = (r, s') /\ (quiet s -> is_ok r = true /\ quiet s')
    /\ match r with
       | Ok offs => offs = offsets_from (logical_end (fio_file s)) es
                    /\ appended (fio_file s) (fio_file s') es
       | Err _ => keeps (fio_file s) (fio_file s')
       end.
Proof.
  intros Hok Hw. unfold append_chunk, gets. unfold mbind at 1, io_bind at 1. cbv beta iota.
  destruct (stage_entries_images es [] [] [] Hw) as (buf & pieces & E & G); [by split|].
  rewrite app_nil_l in G. unfold lift. rewrite E. unfold mbind at 1, io_bind at 1. cbv beta iota.
  rewrite G. by apply write_at_end_spec.
Qed.

Lemma append_entry_spec e s :
  file_ok (fio_file s) -> writable e ->
  exists r s', append_entry e s = (r, s') /\ (quiet s -> is_ok r = true /\ quiet s')
    /\ match r with
       | Ok off => off = logical_end (fio_file s) /\ appended (fio_file s) (fio_file s') [e]
       | Err _ => keeps (fio_file s) (fio_file s')
       end.
Proof.
  intros Hok Hw. destruct (image_pieces e Hw) as (hdr & crc & E & Hh & Hc & Hi).
  unfold append_entry, gets. unfold mbind at 1, io_bind at 1. cbv beta iota.
  unfold lift. rewrite E. unfold mbind at 1, io_bind at 1. cbv beta iota zeta.
  rewrite take_app_length', drop_app_length' by done.
  replace (concat [hdr; de_key e; de_value e; crc]) with (images [e]) by (unfold images; cbn; by rewrite Hi, !app_nil_r).
  replace (DataEntry.record_bytes e) with (total_bytes [e]) by (unfold total_bytes; rewrite lsum_cons, lsum_nil; lia).
  by apply write_at_end_spec.
Qed.

Lemma chunk_length_bounds l es taken cb ci :
  (taken <= chunk_length l es taken cb ci <= taken + length es)%nat.
Proof.
  revert taken cb ci. induction es as [|e es IH]; intros taken cb ci; cbn [chunk_length length]; [lia|].
  destruct (max_entries l <=? taken)%nat; [lia|]. case_match; [lia|].
  specialize (IH (S taken) (cb + DataEntry.record_bytes e) (ci + DataEntry.inline_bytes e)). lia.
Qed.

Lemma chunk_length_pos l e es :
  (0 < max_entries l)%nat -> (1 <= chunk_length l (e :: es) 0 0 0 <= length (e :: es))%nat.
Proof.
  intros Hm. cbn [chunk_length]. rewrite (proj2 (Nat.leb_gt _ _)) by lia. cbn [Nat.ltb Nat.leb andb].
  pose proof (chunk_length_bounds l es 1 (0 + DataEntry.record_bytes e) (0 + DataEntry.inline_bytes e)).
  cbn [length]. lia.
Qed.

Lemma offsets_from_app off es es' :
  offsets_from off (es ++ es') = offsets_from off es ++ offsets_from (off + total_bytes es) es'.
Proof.
  revert off. induction es as [|e es IH]; intros off; cbn [app offsets_from].
  - unfold total_bytes. by rewrite lsum_nil, Z.add_0_r.
  - rewrite IH. unfold total_bytes. by rewrite lsum_cons, Z.add_assoc.
Qed.

Lemma append_chunks_spec l fuel es s :
  (0 < max_entries l)%nat -> file_ok (fio_file s) -> Forall writable es -> (length es <= fuel)%nat ->
  exists r s', append_chunks fuel l es s = (r, s') /\ (quiet s -> is_ok r = true /\ quiet s')
    /\ match r with
       | Ok offs => offs = offsets_from (logical_end (fio_file s)) es
                    /\ appended (fio_file s) (fio_file s') es
       | Err _ => exists n, (n < length es)%nat /\ appended (fio_file s) (fio_file s') (take n es)
       end.
Proof.
  intros Hm. revert es s. induction fuel as [|fuel IH]; intros es s Hok Hw Hf.
  { destruct es; [|cbn in Hf; lia]. eexists _, s. split; [done|]. split; [done|].
    split; [done|by apply appended_keeps, keeps_refl]. }
  cbn [append_chunks]. destruct es as [|e es].
  { eexists _, s. split; [done|]. split; [done|]. split; [done|by apply appended_keeps, keeps_refl]. }
  set (all := e :: es) in *. destruct (chunk_length_pos l e es Hm) as [Hn1 Hn2]. fold all in Hn1, Hn2.
  set (n := chunk_length l all 0 0 0) in *.
  destruct (append_chunk_spec (take n all) s Hok) as (r & s1 & E1 & Q1 & R1); [by apply Forall_take|].
  unfold mbind at 1, io_bind at 1. rewrite E1. destruct r as [offs|x].
  2: { exists (Err x), s1. split; [done|]. split; [by intros [? _]%Q1|].
       exists O. split; [cbn; lia|]. by apply appended_keeps. }
  destruct R1 as [Ho1 A1].
  destruct (IH (drop n all) s1) as (r & s2 & E2 & Q2 & R2);
    [apply A1|by apply Forall_drop|rewrite length_drop; lia|].
  unfold mbind, io_bind. rewrite E2. destruct r as [offs'|x].
  - destruct R2 as [Ho2 A2]. eexists _, s2. split; [done|]. split; [naive_solver|].
    rewrite Ho1, Ho2, (ap_end _ _ _ A1), <-offsets_from_app, take_drop. split; [done|].
    rewrite <-(take_drop n all). by eapply appended_trans.
  - eexists _, s2. split; [done|]. split; [intros [_ ?]%Q1; naive_solver|].
    destruct R2 as (n2 & Hn & A2). rewrite length_drop in Hn. exists (n + n2)%nat. split; [lia|].
    rewrite <-(take_take_drop all n n2). by eapply appended_trans.
Qed.

End append.

(** C19: an append writes records, all or a prefix.  Whatever the limits that
    cut a batch into [pwritev] calls and wherever a system call fails,
    [append_entries] leaves the bytes already in the file alone.  When it
    returns, the file's readable bytes are the old ones followed by every
    record of the batch, each at the offset returned for it; when it throws,
    by the records of some proper prefix of the batch.  If no call fails, it
    returns. *)
Theorem append_entries_spec `{Crc32cLaws} l es s :
  (0 < max_entries l)%nat -> file_ok (fio_file s) -> Forall writable es ->
  exists r s', append_entries l es s = (r, s') /\ (fio_oracle s = [] -> is_ok r = true)
    /\ match r with
       | Ok offs => offs = offsets_from (logical_end (fio_file s)) es
                    /\ appended (fio_file s) (fio_file s') es
       | Err _ => exists n, (n < length es)%nat /\ appended (fio_file s) (fio_file s') (take n es)
       end.
Proof.
  intros Hm Hok Hw.
  destruct (append_chunks_spec l (length es) es s Hm Hok Hw (Nat.le_refl _)) as (r & s' & E & Q & R).
  exists r, s'. split; [done|]. split; [by intros [? _]%Q|done].
Qed.

(** ** Reading records back *)

Section reading.
Context `{Crc32cLaws}.

(** The header of an entry's record. *)
Definition header_of (e : DataEntry) : DataEntry.EntryHeader :=
  DataEntry.mkEntryHeader (de_sequence e) (de_type e) (size (de_key e)) (size (de_value e)).

Lemma image_header e rest :
  DataEntry.valid_entry e ->
  take DataEntry.kHeaderSize (image e ++ rest) = take DataEntry.kHeaderSize (image e)
  /\ DataEntry.read_header (take DataEntry.kHeaderSize (image e)) = header_of e.
Proof.
  intros [Hs Ht Hk Hv _]. destruct (image_pieces e) as (hdr & crc & _ & Hh & _ & Hi); [split; apply Hk || apply Hv|].
  split.
  - rewrite Hi, <-app_assoc, !take_app_length' by done. done.
  - unfold image, DataEntry.entry_image, DataEntry.body_image. rewrite <-app_assoc.
    rewrite take_app_length' by (by rewrite DataEntry.length_header_image).
    rewrite <-(app_nil_r (DataEntry.header_image _ _ _ _)). by apply DataEntry.read_header_image.
Qed.

Lemma parse_image e : DataEntry.valid_entry e -> is_ok (DataEntry.parse_header_and_verify (image e)) = true.
Proof.
  intros Hv. pose proof (DataEntry.deserialize_image e Hv) as Hd. unfold DataEntry.deserialize_entry in Hd.
  unfold image. by destruct (DataEntry.parse_header_and_verify _).
Qed.

Lemma record_view_image e verify :
  DataEntry.valid_entry e -> record_view (image e) (header_of e) verify = Ok e.
Proof.
  intros Hv. pose proof (parse_image e Hv) as Hp. unfold record_view.
  assert (Hbody : drop DataEntry.kHeaderSize (image e)
    = de_key e ++ de_value e ++ drop (length (DataEntry.body_image e)) (image e)).
  { unfold image, DataEntry.entry_image. rewrite (drop_app_length (DataEntry.body_image e)).
    unfold DataEntry.body_image.
    rewrite <-app_assoc, drop_app_length' by (by rewrite DataEntry.length_header_image).
    by rewrite <-app_assoc. }
  assert (Hview : subspan (drop DataEntry.kHeaderSize (image e)) 0 (length (de_key e)) = de_key e
    /\ subspan (drop DataEntry.kHeaderSize (image e)) (length (de_key e)) (length (de_value e)) = de_value e).
  { rewrite Hbody. unfold subspan. rewrite drop_0, take_app_length, drop_app_length, take_app_length. done. }
  destruct Hview as [Hk Hval]. unfold header_of, size.
  cbn [DataEntry.key_size DataEntry.value_size DataEntry.sequence DataEntry.entry_type].
  rewrite !Nat2Z.id, Hk, Hval.
  assert (Hc : (if verify then _ ← DataEntry.parse_header_and_verify (image e); Ok () else Ok ()) = Ok ())
    by (destruct verify; [by destruct (DataEntry.parse_header_and_verify (image e))|done]).
  rewrite Hc. cbn [mbind result_bind]. by destruct e.
Qed.

Lemma header_record_bytes_of e : header_record_bytes (header_of e) = DataEntry.record_bytes e.
Proof. done. Qed.

(** Reads below the logical end. *)
Lemma pread_live f offset len :
  file_ok f -> 0 <= offset -> 0 <= len -> offset + len <= logical_end f ->
  pread_upto (content f) offset len = subspan (live f) (Z.to_nat offset) (Z.to_nat len).
Proof.
  intros [He _ _] Ho Hl Hb. unfold pread_upto, live, subspan. rewrite skipn_firstn_comm, take_take.
  f_equal. lia.
Qed.

Lemma length_subspan_live f offset len :
  file_ok f -> 0 <= offset -> 0 <= len -> offset + len <= logical_end f ->
  size (subspan (live f) (Z.to_nat offset) (Z.to_nat len)) = len.
Proof.
  intros Hok Ho Hl Hb. pose proof (length_live f Hok) as Hlen. unfold size, subspan in *.
  rewrite length_take, length_drop. lia.
Qed.

Lemma fetch_record_image f pre e post hint verify :
  file_ok f -> live f = pre ++ image e ++ post -> DataEntry.valid_entry e -> 0 <= hint ->
  fetch_record f (size pre) hint verify = Ok e.
Proof.
  intros Hok Hlive Hv Hh. pose proof (length_live f Hok) as Hlen. rewrite Hlive in Hlen.
  pose proof (length_image e) as Hie. unfold size in Hlen, Hie. rewrite !length_app in Hlen.
  assert (Hrb : 19 <= DataEntry.record_bytes e)
    by (unfold DataEntry.record_bytes, DataEntry.kHeaderSize, DataEntry.kCrcSize, size; lia).
  unfold fetch_record. set (first := first_read_length _ _ _).
  assert (Hfirst : 15 <= first <= logical_end f - size pre).
  { unfold first, first_read_length, DataEntry.kHeaderSize, DataEntry.kCrcSize, size.
    rewrite (proj2 (Z.ltb_lt _ _)) by lia. destruct (hint =? 0); lia. }
  unfold size in Hfirst.
  rewrite (proj2 (Z.ltb_ge first (Z.of_nat DataEntry.kHeaderSize))) by (unfold DataEntry.kHeaderSize; lia). cbn [throw_if mbind result_bind].
  rewrite pread_live by (unfold size; done || lia).
  assert (Hb : forall n, 0 <= n -> size pre + n <= logical_end f ->
    subspan (live f) (Z.to_nat (size pre)) (Z.to_nat n) = take (Z.to_nat n) (image e ++ post)).
  { intros n _ _. rewrite Hlive. unfold subspan, size. by rewrite Nat2Z.id, drop_app_length. }
  rewrite length_subspan_live by (unfold size; done || lia).
  rewrite (proj2 (Z.ltb_ge first (Z.of_nat DataEntry.kHeaderSize))) by (unfold DataEntry.kHeaderSize; lia). cbn [throw_if mbind result_bind].
  rewrite Hb by (unfold size; lia). rewrite take_take, Nat.min_l by (unfold DataEntry.kHeaderSize; lia).
  destruct (image_header e post Hv) as [-> ->]. rewrite header_record_bytes_of.
  rewrite (proj2 (Z.ltb_ge (logical_end f) (size pre + DataEntry.record_bytes e))) by (unfold size; lia). cbn [throw_if mbind result_bind].
  assert (Htotal : take (Z.to_nat (DataEntry.record_bytes e)) (image e ++ post) = image e)
    by (rewrite <-Hie, Nat2Z.id; apply take_app_length).
  destruct (Z.ltb_spec first (DataEntry.record_bytes e)) as [Hlt|Hge].
  - rewrite (proj2 (Z.ltb_ge first first)) by lia. cbn [throw_if mbind result_bind].
    rewrite pread_live by (unfold size; done || lia).
    rewrite length_subspan_live by (unfold size; done || lia).
    rewrite (proj2 (Z.ltb_ge (_ - first) (_ - first))) by lia. cbn [throw_if mbind result_bind].
    replace (take (Z.to_nat first) (image e ++ post)
       ++ subspan (live f) (Z.to_nat (size pre + first)) (Z.to_nat (DataEntry.record_bytes e - first)))
      with (image e); [rewrite take_ge by lia; by apply record_view_image|].
    rewrite <-Htotal at 1. unfold subspan, size. rewrite Hlive.
    replace (Z.to_nat (Z.of_nat (length pre) + first)) with (length pre + Z.to_nat first)%nat by lia.
    rewrite <-drop_drop, drop_app_length, take_take_drop. f_equal. lia.
  - cbn [mbind result_bind]. rewrite take_take, Nat.min_l by lia. rewrite Htotal.
    by apply record_view_image.
Qed.
End reading.
