(* ===== verification/FileScan.v ===== *)
(** * Sweeping data files

    [DataFileIterator] yields the records of a file in order, in any chunk
    size, up to the first place that ends a sweep; [CommittedEntryIterator]
    groups them into units and drops a batch that never ended.  Appending
    entries and sweeping the file again gives the entries back. *)

From S2P Require Import Prelude Codec DataFile DataFileProofs.
Import Serialization Types.

(** ** The raw sweep *)

Section sweeps.
Context `{Crc32cLaws}.

(** What the buffer of a sweep holds: a range of the file at or before the
    next offset. *)
Record held (f : DataFile) (it : DataFileIterator) : Prop := {
  hd_start : 0 <= it_buf_start it <= it_next_offset it;
  hd_buf : it_buf it = subspan (live f) (Z.to_nat (it_buf_start it)) (length (it_buf it))
}.

Lemma held_start f start : 0 <= start -> held f (iterator_at start).
Proof. intros ?. by split; [cbn; lia|]. Qed.

(** Part of a range of bytes. *)
Lemma subspan_part (l buf : bytes) a off n :
  buf = subspan l a (length buf) -> (a <= off)%nat -> (off + n <= a + length buf)%nat ->
  subspan buf (off - a) n = subspan l off n.
Proof.
  intros Hb Ha Hn. rewrite Hb. unfold subspan in *.
  rewrite skipn_firstn_comm, take_take, drop_drop. f_equal; [lia|f_equal; lia].
Qed.

Lemma read_raw_live f offset len :
  file_ok f -> 0 <= offset <= logical_end f -> 0 <= len ->
  exists n, read_raw f offset len = Ok (subspan (live f) (Z.to_nat offset) (Z.to_nat n))
    /\ size (subspan (live f) (Z.to_nat offset) (Z.to_nat n)) = n
    /\ n = Z.min len (logical_end f - offset).
Proof.
  intros Hok Ho Hl. unfold read_raw. exists (Z.min len (logical_end f - offset)).
  replace (bytes_below _ _ _) with (Z.min len (logical_end f - offset))
    by (unfold bytes_below; destruct (Z.leb_spec (logical_end f) offset); lia).
  rewrite pread_live, length_subspan_live by (done || lia). by rewrite Z.ltb_irrefl.
Qed.

Lemma buffered_live f chunk it offset len :
  file_ok f -> held f it -> it_next_offset it = offset -> 0 <= len -> offset + len <= logical_end f ->
  exists it', buffered f chunk offset len it
                = Ok (subspan (live f) (Z.to_nat offset) (Z.to_nat len), it')
    /\ held f it' /\ it_next_offset it' = offset.
Proof.
  intros Hok [Hs Hb] Hoff Hl Hend. unfold buffered.
  destruct (Z.ltb_spec (it_buf_start it + size (it_buf it)) (offset + len)) as [Hlt|Hge].
  - destruct (read_raw_live f offset (Z.max len chunk) Hok) as (n & E & Hn & Hmin); [lia..|].
    rewrite E. monad_simpl. rewrite Hn. rewrite (proj2 (Z.ltb_ge n len)) by lia.
    cbn [throw_if it_buf it_buf_start]. exists (mkIterator (it_next_offset it) (subspan (live f) (Z.to_nat offset) (Z.to_nat n)) offset).
    split; [|split]; [| |done].
    + rewrite Z.sub_diag. change (Z.to_nat 0) with O. unfold subspan. rewrite drop_0, take_take.
      replace (Z.to_nat len `min` Z.to_nat n)%nat with (Z.to_nat len) by lia. done.
    + split; cbn [it_buf it_buf_start it_next_offset]; [lia|]. unfold size in Hn. f_equal. lia.
  - monad_simpl. exists it. split; [|done]. do 2 f_equal. unfold size in Hge.
    replace (Z.to_nat (offset - it_buf_start it)) with (Z.to_nat offset - Z.to_nat (it_buf_start it))%nat by lia.
    apply subspan_part; [done|lia|lia].
Qed.

(** Where a sweep ends: fewer bytes than a header, a zeroed header, a record
    that runs past the end, and under [DamageStop] a damaged record. *)
Definition ends_sweep (od : OnDamage) (tail : bytes) : bool :=
  (size tail <? Z.of_nat DataEntry.kHeaderSize)
  || let h := DataEntry.read_header (take DataEntry.kHeaderSize tail) in
     (DataEntry.sequence h =? 0)
     || if damaged_header h then bool_decide (od = DamageStop)
        else (size tail <? header_record_bytes h)
             || bool_decide (od = DamageStop)
                && negb (DataEntry.crc_matches (take (Z.to_nat (header_record_bytes h)) tail)).

(** The sweep's view of entries that lie one after another from [off]. *)
Fixpoint spread (off : Z) (es : list DataEntry) : list (DataEntry * Z * Z) :=
  match es with
  | [] => []
  | e :: es' => (e, off, off + DataEntry.record_bytes e)
                :: spread (off + DataEntry.record_bytes e) es'
  end.

Definition sweepable (e : DataEntry) : Prop := DataEntry.valid_entry e /\ de_sequence e <> 0.

Lemma undamaged_header e : DataEntry.valid_entry e -> damaged_header (header_of e) = false.
Proof.
  intros [_ Ht _ _ Hm]. unfold damaged_header, header_of. cbn [DataEntry.entry_type DataEntry.key_size
    DataEntry.value_size]. rewrite Ht. cbn [negb orb].
  case_bool_decide as E; [|done]. destruct (Hm E) as [-> Hl]. unfold size. by rewrite Hl.
Qed.

Lemma crc_matches_image e : DataEntry.crc_matches (image e) = true.
Proof. apply DataEntry.crc_matches_spec. symmetry. by apply wrap_small, crc32c_extend_fits. Qed.

Lemma live_range f pre d post :
  live f = pre ++ d ++ post -> subspan (live f) (Z.to_nat (size pre)) (length d) = d.
Proof.
  intros ->. unfold subspan, size. by rewrite Nat2Z.id, drop_app_length, take_app_length.
Qed.

Lemma iter_advance_entry f od chunk it pre e post :
  file_ok f -> held f it -> it_next_offset it = size pre -> live f = pre ++ image e ++ post ->
  sweepable e ->
  exists it', iter_advance f od chunk it = Ok (Some (e, size pre), it')
    /\ held f it' /\ it_next_offset it' = size pre + DataEntry.record_bytes e.
Proof.
  intros Hok Hh Hoff Hlive [Hv Hseq]. unfold iter_advance. rewrite Hoff.
  pose proof (length_live f Hok) as Hlen. rewrite Hlive in Hlen.
  pose proof (length_image e) as Hie. unfold size in Hlen, Hie. rewrite !length_app in Hlen.
  assert (Hrb : 19 <= DataEntry.record_bytes e)
    by (unfold DataEntry.record_bytes, DataEntry.kHeaderSize, DataEntry.kCrcSize, size; lia).
  assert (Hhs : Z.of_nat DataEntry.kHeaderSize = 15) by done.
  assert (Hsp : size pre = Z.of_nat (length pre)) by done.
  rewrite (proj2 (Z.ltb_ge (logical_end f) _)) by lia.
  destruct (buffered_live f chunk it (size pre) (Z.of_nat DataEntry.kHeaderSize) Hok Hh Hoff)
    as (it1 & -> & Hh1 & Hoff1); [lia..|]. monad_simpl.
  replace (DataEntry.read_header _) with (header_of e); cycle 1.
  { destruct (image_header e post Hv) as [E <-]. rewrite <-E, Hlive. unfold subspan, size.
    by rewrite !Nat2Z.id, drop_app_length. }
  unfold header_of at 1. cbn [DataEntry.sequence]. rewrite (proj2 (Z.eqb_neq _ _)) by done.
  rewrite (undamaged_header e Hv), header_record_bytes_of.
  rewrite (proj2 (Z.ltb_ge (logical_end f) _)) by lia.
  destruct (buffered_live f chunk it1 (size pre) (DataEntry.record_bytes e) Hok Hh1 Hoff1)
    as (it2 & -> & [Hs2 Hb2] & Hoff2); [lia..|].
  replace (Z.to_nat (DataEntry.record_bytes e)) with (length (image e)) by lia.
  rewrite (live_range f pre (image e) post Hlive), crc_matches_image, andb_false_r.
  rewrite record_view_image by done. eexists. split; [done|]. split; [|done].
  split; cbn [it_buf it_buf_start it_next_offset]; [lia|done].
Qed.

Lemma iter_advance_end f od chunk it pre tail :
  file_ok f -> held f it -> it_next_offset it = size pre -> live f = pre ++ tail ->
  ends_sweep od tail = true -> exists it', iter_advance f od chunk it = Ok (None, it').
Proof.
  intros Hok Hh Hoff Hlive Hend. unfold iter_advance. rewrite Hoff.
  pose proof (length_live f Hok) as Hlen. rewrite Hlive in Hlen. unfold size in Hlen. rewrite length_app in Hlen.
  assert (Htail : forall n, 0 <= n -> subspan (live f) (Z.to_nat (size pre)) (Z.to_nat n) = take (Z.to_nat n) tail)
    by (intros n _; rewrite Hlive; unfold subspan, size; by rewrite Nat2Z.id, drop_app_length).
  unfold ends_sweep in Hend.
  destruct (Z.ltb_spec (logical_end f) (size pre + Z.of_nat DataEntry.kHeaderSize)) as [|Hge]; [by eexists|].
  destruct (buffered_live f chunk it (size pre) (Z.of_nat DataEntry.kHeaderSize) Hok Hh Hoff)
    as (it1 & -> & Hh1 & Hoff1); [lia..|]. monad_simpl. rewrite Htail, Nat2Z.id by lia.
  rewrite (proj2 (Z.ltb_ge (size tail) _)) in Hend by (unfold size in *; lia). cbn [orb] in Hend.
  set (h := DataEntry.read_header _) in *.
  destruct (DataEntry.sequence h =? 0); [by eexists|]. cbn [orb] in Hend.
  destruct (damaged_header h).
  { apply bool_decide_eq_true in Hend as ->. by eexists. }
  destruct (Z.ltb_spec (logical_end f) (size pre + header_record_bytes h)) as [|Hge']; [by eexists|].
  rewrite (proj2 (Z.ltb_ge (size tail) _)) in Hend by (unfold size in *; lia). cbn [orb] in Hend.
  assert (Hpos : 0 <= header_record_bytes h).
  { destruct (DataEntry.header_image_read (take DataEntry.kHeaderSize tail)) as (_ & _ & [? _] & [? _]);
      [rewrite length_take; unfold size in Hge; lia|]. unfold header_record_bytes, h. lia. }
  destruct (buffered_live f chunk it1 (size pre) (header_record_bytes h) Hok Hh1 Hoff1)
    as (it2 & -> & _); [lia..|]. rewrite Htail by done. rewrite Hend. by eexists.
Qed.

Lemma images_cons e es : images (e :: es) = image e ++ images es.
Proof. done. Qed.

Lemma size_app (a b : bytes) : size (a ++ b) = size a + size b.
Proof. unfold size. rewrite length_app. lia. Qed.

Lemma record_bytes_pos e : 19 <= DataEntry.record_bytes e.
Proof. unfold DataEntry.record_bytes, DataEntry.kHeaderSize, DataEntry.kCrcSize, size. lia. Qed.

Lemma read_header_take buf :
  (DataEntry.kHeaderSize <= length buf)%nat ->
  DataEntry.read_header (take DataEntry.kHeaderSize buf) = DataEntry.read_header buf.
Proof.
  unfold DataEntry.kHeaderSize. intros Hlen.
  assert (E : forall off n, (off + n <= 15)%nat -> read_le n (take 15 buf) off = read_le n buf off).
  { intros off n Hn. rewrite !read_le_combine by (rewrite ?length_take; lia). f_equal.
    unfold subspan. rewrite skipn_firstn_comm, take_take. f_equal. lia. }
  unfold DataEntry.read_header, get. cbn [br_buf br_pos Nat.add]. by rewrite !E by lia.
Qed.

(** A record with an undamaged header, its length and a matching CRC is the
    image of an entry. *)
Lemma undamaged_record raw :
  let h := DataEntry.read_header raw in
  size raw = header_record_bytes h -> (DataEntry.kHeaderSize <= length raw)%nat ->
  damaged_header h = false -> DataEntry.crc_matches raw = true ->
  exists e, DataEntry.valid_entry e /\ raw = image e.
Proof.
  intros h Hsz Hlen Hd Hcrc.
  assert (E : DataEntry.parse_header_and_verify raw = Ok h).
  { unfold DataEntry.parse_header_and_verify. fold h.
    destruct (DataEntry.header_image_read raw Hlen) as (_ & _ & [Hk _] & [Hv _]). fold h in Hk, Hv.
    unfold damaged_header in Hd. apply orb_false_iff in Hd as [Ht%negb_false_iff Hm].
    unfold header_record_bytes, size in *.
    rewrite (proj2 (Nat.ltb_ge _ _)) by lia. rewrite Ht, Hcrc, (proj2 (Z.eqb_eq (Z.of_nat (length raw)) _)) by lia.
    cbn [negb]. by rewrite <-negb_andb, Hm. }
  destruct (DataEntry.deserialize_entry raw) as [e|x] eqn:Ed.
  - apply DataEntry.deserialize_ok_image in Ed as [Hv ->]. by exists e.
  - unfold DataEntry.deserialize_entry in Ed. rewrite E in Ed. done.
Qed.

Lemma record_view_checks raw h e :
  record_view raw h true = Ok e -> DataEntry.crc_matches raw = true.
Proof.
  unfold record_view, DataEntry.parse_header_and_verify.
  repeat (case_match_eqn; try done). destruct (DataEntry.crc_matches raw); done.
Qed.

(** What holds where a sweep does not end: a whole header, and unless it is
    damaged a whole record. *)
Lemma not_ends_sweep od tail :
  ends_sweep od tail = false ->
  let h := DataEntry.read_header (take DataEntry.kHeaderSize tail) in
  let raw := take (Z.to_nat (header_record_bytes h)) tail in
  (DataEntry.kHeaderSize <= length tail)%nat /\ DataEntry.sequence h <> 0
  /\ ((od = DamageThrow /\ damaged_header h = true)
      \/ damaged_header h = false /\ header_record_bytes h <= size tail
         /\ (od = DamageStop -> DataEntry.crc_matches raw = true)).
Proof.
  intros Hend h raw. unfold ends_sweep in Hend. fold h in Hend. fold raw in Hend.
  apply orb_false_iff in Hend as [Hlen%Z.ltb_ge Hend]. apply orb_false_iff in Hend as [Hs%Z.eqb_neq Hend].
  split; [unfold size in Hlen; lia|]. split; [done|].
  destruct (damaged_header h); [left|right].
  - apply bool_decide_eq_false in Hend. by destruct od.
  - apply orb_false_iff in Hend as [Hr%Z.ltb_ge Hc]. split_and!; [done..|].
    intros ->. rewrite bool_decide_eq_true_2 in Hc by done. by apply negb_false_iff in Hc.
Qed.

Lemma header_record_bytes_bound h :
  fits 16 (DataEntry.key_size h) -> fits 32 (DataEntry.value_size h) -> 19 <= header_record_bytes h.
Proof. intros [? _] [? _]. unfold header_record_bytes, DataEntry.kHeaderSize, DataEntry.kCrcSize. lia. Qed.

(** A whole undamaged record at the head of [tail] is an entry's. *)
Lemma record_at_head tail :
  let h := DataEntry.read_header (take DataEntry.kHeaderSize tail) in
  let raw := take (Z.to_nat (header_record_bytes h)) tail in
  (DataEntry.kHeaderSize <= length tail)%nat -> DataEntry.sequence h <> 0 ->
  damaged_header h = false -> header_record_bytes h <= size tail -> DataEntry.crc_matches raw = true ->
  exists e post, sweepable e /\ tail = image e ++ post.
Proof.
  intros h raw Hlen Hs Hd Hr Hc.
  destruct (DataEntry.header_image_read (take DataEntry.kHeaderSize tail)) as (_ & _ & Hk & Hv);
    [rewrite length_take; lia|].
  pose proof (header_record_bytes_bound h Hk Hv) as Hb. unfold size in Hr.
  assert (Hraw : length raw = Z.to_nat (header_record_bytes h)) by (unfold raw; rewrite length_take; lia).
  assert (Hh : DataEntry.read_header raw = h).
  { rewrite <-read_header_take by (rewrite Hraw; unfold DataEntry.kHeaderSize; lia).
    unfold raw, h. rewrite take_take, Nat.min_l; [done|]. fold h. unfold DataEntry.kHeaderSize. lia. }
  destruct (undamaged_record raw) as (e & He & Hi);
    [rewrite Hh; unfold size; lia|rewrite Hraw; unfold DataEntry.kHeaderSize; lia|by rewrite Hh|done|].
  exists e, (drop (Z.to_nat (header_record_bytes h)) tail). split.
  - split; [done|]. destruct (image_header e [] He) as [_ E].
    rewrite <-Hi, read_header_take, Hh in E by (rewrite Hraw; unfold DataEntry.kHeaderSize; lia).
    rewrite E in Hs. done.
  - rewrite <-Hi. symmetry. apply take_drop.
Qed.

(** Damage under [DamageThrow] throws. *)
Lemma iter_advance_throws f chunk it pre tail :
  let h := DataEntry.read_header (take DataEntry.kHeaderSize tail) in
  file_ok f -> held f it -> it_next_offset it = size pre -> live f = pre ++ tail ->
  ends_sweep DamageThrow tail = false ->
  (damaged_header h = true
   \/ DataEntry.crc_matches (take (Z.to_nat (header_record_bytes h)) tail) = false) ->
  exists x, iter_advance f DamageThrow chunk it = Err x.
Proof.
  intros h Hok Hh Hoff Hlive Hend Hdam. destruct (not_ends_sweep _ _ Hend) as (Hlen & Hs & Hrec).
  pose proof (length_live f Hok) as Hll. rewrite Hlive, size_app in Hll.
  assert (Htail : forall n, subspan (live f) (Z.to_nat (size pre)) n = take n tail)
    by (intros n; rewrite Hlive; unfold subspan, size; by rewrite Nat2Z.id, drop_app_length).
  unfold iter_advance. rewrite Hoff, (proj2 (Z.ltb_ge (logical_end f) _)) by (unfold size in *; lia).
  destruct (buffered_live f chunk it (size pre) (Z.of_nat DataEntry.kHeaderSize) Hok Hh Hoff)
    as (it1 & -> & Hh1 & Hoff1); [unfold size in *; lia..|]. monad_simpl. rewrite Htail, Nat2Z.id.
  fold h. rewrite (proj2 (Z.eqb_neq _ _)) by done.
  destruct (damaged_header h) eqn:Hd; [by eexists|]. destruct Hdam as [|Hc]; [done|].
  destruct Hrec as [[_ ?]|(_ & Hr & _)]; [unfold h in *; congruence|]. fold h in Hr.
  rewrite (proj2 (Z.ltb_ge (logical_end f) _)) by lia.
  destruct (DataEntry.header_image_read (take DataEntry.kHeaderSize tail)) as (_ & _ & Hk & Hv);
    [rewrite length_take; lia|].
  pose proof (header_record_bytes_bound h Hk Hv) as Hb.
  destruct (buffered_live f chunk it1 (size pre) (header_record_bytes h) Hok Hh1 Hoff1)
    as (it2 & -> & _); [lia..|]. rewrite Htail. cbn [bool_decide andb].
  destruct (record_view _ h _) as [e|x] eqn:Ev; [|by exists x].
  apply record_view_checks in Ev. congruence.
Qed.

(** Wherever a sweep that throws at damage ends, one that stops at it ends too. *)
Lemma ends_sweep_stop od tail : ends_sweep od tail = true -> ends_sweep DamageStop tail = true.
Proof.
  unfold ends_sweep. destruct od; [|done]. intros [->|Hend]%orb_true_iff; [done|]. apply orb_true_iff. right.
  apply orb_true_iff in Hend as [->|Hend]; [done|]. apply orb_true_iff. right.
  destruct (damaged_header _); [done|]. apply orb_true_iff in Hend as [->|Hend]; [done|]. by rewrite bool_decide_eq_false_2 in Hend.
Qed.

(** A record does not end a sweep. *)
Lemma record_not_end e post : sweepable e -> ends_sweep DamageStop (image e ++ post) = false.
Proof.
  intros [Hv Hs]. destruct (image_header e post Hv) as [Ht Hh]. rewrite <-Ht in Hh. pose proof (length_image e) as Hie.
  assert (Hrb : 19 <= DataEntry.record_bytes e) by (unfold DataEntry.record_bytes, DataEntry.kHeaderSize, DataEntry.kCrcSize, size; lia).
  unfold ends_sweep. rewrite Hh, (undamaged_header e Hv), header_record_bytes_of, size_app. unfold header_of. cbn [DataEntry.sequence].
  rewrite (proj2 (Z.eqb_neq _ _)) by done. rewrite !(proj2 (Z.ltb_ge _ _)) by (unfold size in *; change (Z.of_nat DataEntry.kHeaderSize) with 15; lia).
  replace (Z.to_nat (DataEntry.record_bytes e)) with (length (image e)) by (unfold size in Hie; lia).
  rewrite take_app_length, crc_matches_image. done.
Qed.

Lemma damage_ends_sweep tail :
  let h := DataEntry.read_header (take DataEntry.kHeaderSize tail) in
  damaged_header h = true \/ DataEntry.crc_matches (take (Z.to_nat (header_record_bytes h)) tail) = false ->
  ends_sweep DamageStop tail = true.
Proof.
  intros h Hd. unfold ends_sweep. fold h. destruct (damaged_header h); [by rewrite bool_decide_eq_true_2, !orb_true_r|].
  destruct Hd as [|Hc]; [done|]. rewrite Hc, bool_decide_eq_true_2 by done. by rewrite !orb_true_r.
Qed.

(** One step of the sweep over any bytes at all. *)
Lemma iter_advance_cases f od chunk it pre tail :
  file_ok f -> held f it -> it_next_offset it = size pre -> live f = pre ++ tail ->
  match iter_advance f od chunk it with
  | Err _ => od = DamageThrow /\ ends_sweep od tail = false /\ ends_sweep DamageStop tail = true
  | Ok (None, _) => ends_sweep od tail = true
  | Ok (Some (e, off), it') =>
      exists post, tail = image e ++ post /\ sweepable e /\ off = size pre
        /\ held f it' /\ it_next_offset it' = size pre + DataEntry.record_bytes e
  end.
Proof.
  intros Hok Hh Hoff Hlive. destruct (ends_sweep od tail) eqn:Hend.
  { by destruct (iter_advance_end f od chunk it pre tail) as [it' ->]. }
  destruct (not_ends_sweep _ _ Hend) as (Hlen & Hs & Hrec).
  set (h := DataEntry.read_header _) in *.
  destruct (DataEntry.crc_matches (take (Z.to_nat (header_record_bytes h)) tail)) eqn:Hc;
    destruct (damaged_header h) eqn:Hd.
  all: try (destruct od; [|naive_solver];
    destruct (iter_advance_throws f chunk it pre tail) as [x ->]; [done..|by auto|];
    split_and!; [done..|]; apply damage_ends_sweep; by auto).
  destruct Hrec as [[_ ?]|(_ & Hr & _)]; [done|].
  destruct (record_at_head tail) as (e & post & He & ->); [done..|].
  destruct (iter_advance_entry f od chunk it pre e post) as (it' & -> & ? & ?); [done..|]. by exists post.
Qed.

(** A sweep of any bytes: the records that lie one after another from the
    start, and it ends where a sweep ends or throws where it meets damage. *)
Lemma sweep_parses f od chunk fuel it pre tail :
  file_ok f -> held f it -> it_next_offset it = size pre -> live f = pre ++ tail ->
  (length tail < fuel)%nat ->
  exists es rest x, sweep fuel f od chunk it = (spread (size pre) es, x)
    /\ tail = images es ++ rest /\ Forall sweepable es
    /\ ends_sweep od rest = bool_decide (x = None) /\ (x <> None -> od = DamageThrow)
    /\ ends_sweep DamageStop rest = true.
Proof.
  intros Hok. revert it pre tail. induction fuel as [|fuel IH]; intros it pre tail Hh Hoff Hlive Hfuel; [lia|].
  pose proof (iter_advance_cases f od chunk it pre tail Hok Hh Hoff Hlive) as Hstep.
  cbn [sweep]. destruct (iter_advance f od chunk it) as [[[[e off]|] it']|x].
  - destruct Hstep as (post & -> & He & -> & Hh' & Hoff').
    assert (E : size (pre ++ image e) = size pre + DataEntry.record_bytes e)
      by (by rewrite size_app, length_image).
    destruct (IH it' (pre ++ image e) post) as (es & rest & x & Hsw & -> & Hes & Hend & Hx & Hst);
      [done|congruence|by rewrite <-app_assoc| |].
    { pose proof (length_image e) as Hie. pose proof (record_bytes_pos e). unfold size in Hie.
      rewrite length_app in Hfuel. lia. }
    exists (e :: es), rest, x. rewrite Hsw. split_and!; [by cbn [spread]; rewrite E, Hoff'| |by constructor|done..].
    by rewrite images_cons, app_assoc.
  - exists [], tail, None. split_and!; try done. by eapply ends_sweep_stop.
  - exists [], tail, (Some x). destruct Hstep as (-> & -> & ?). by rewrite bool_decide_eq_false_2.
Qed.

Lemma sweep_file_parses f od pre tail :
  file_ok f -> live f = pre ++ tail ->
  exists es rest x, sweep_file f (size pre) od = (spread (size pre) es, x)
    /\ tail = images es ++ rest /\ Forall sweepable es
    /\ ends_sweep od rest = bool_decide (x = None) /\ (x <> None -> od = DamageThrow)
    /\ ends_sweep DamageStop rest = true.
Proof.
  intros Hok Hlive. unfold sweep_file. apply sweep_parses; try done.
  - apply held_start. unfold size. lia.
  - pose proof (length_live f Hok) as Hl. rewrite Hlive, !size_app in Hl. unfold size in *. lia.
Qed.

Lemma sweep_entries f od chunk es fuel it pre tail :
  file_ok f -> held f it -> it_next_offset it = size pre -> live f = pre ++ images es ++ tail ->
  Forall sweepable es -> ends_sweep od tail = true -> (length es < fuel)%nat ->
  sweep fuel f od chunk it = (spread (size pre) es, None).
Proof.
  intros Hok Hh Hoff Hlive Hes Hend Hfuel. revert fuel it pre Hh Hoff Hlive Hfuel.
  induction Hes as [|e es He Hes IH]; intros [|fuel] it pre Hh Hoff Hlive Hfuel; cbn in Hfuel; try lia; cbn [sweep].
  - by destruct (iter_advance_end f od chunk it pre tail) as [it' ->].
  - rewrite images_cons, <-app_assoc in Hlive.
    destruct (iter_advance_entry f od chunk it pre e (images es ++ tail)) as (it' & -> & Hh' & Hoff'); [done..|].
    assert (E : size (pre ++ image e) = size pre + DataEntry.record_bytes e)
      by (by rewrite size_app, length_image).
    rewrite (IH fuel it' (pre ++ image e)); [|done|congruence|by rewrite <-app_assoc|lia].
    cbn [spread]. by rewrite E, Hoff'.
Qed.

Lemma length_le_images es : Z.of_nat (length es) <= size (images es).
Proof.
  rewrite length_images. unfold total_bytes. induction es as [|e es IH]; [done|].
  rewrite lsum_cons. pose proof (record_bytes_pos e). cbn [length]. lia.
Qed.

Lemma sweep_file_entries f od es pre tail :
  file_ok f -> live f = pre ++ images es ++ tail -> Forall sweepable es -> ends_sweep od tail = true ->
  sweep_file f (size pre) od = (spread (size pre) es, None).
Proof.
  intros Hok Hlive Hes Hend. unfold sweep_file. apply sweep_entries with (tail := tail); try done.
  - apply held_start. unfold size. lia.
  - pose proof (length_live f Hok) as Hl. rewrite Hlive, !size_app in Hl.
    pose proof (length_le_images es). unfold size in *. lia.
Qed.
End sweeps.

(** ** Committed units *)

(** A unit a writer appends in one piece: an entry outside a batch, or a batch
    with its two markers and no change marker inside. *)
Inductive unit_of : list DataEntry -> Prop :=
| unit_single e : de_type e <> BulkBegin -> unit_of [e]
| unit_batch b es e :
    de_type b = BulkBegin -> de_type e = BulkEnd ->
    Forall (fun x => de_type x <> BulkEnd /\ de_type x <> EChangeMarker) es ->
    unit_of (b :: es ++ [e]).

(** A batch that never ended. *)
Inductive unended : list DataEntry -> Prop :=
| unended_none : unended []
| unended_batch b es :
    de_type b = BulkBegin ->
    Forall (fun x => de_type x <> BulkEnd /\ de_type x <> EChangeMarker) es ->
    unended (b :: es).

Definition with_offsets (off : Z) (es : list DataEntry) : list (DataEntry * Z) :=
  zip es (offsets_from off es).

(** The units of [us] as they lie in the file from [off]. *)
Fixpoint units_from (off : Z) (us : list (list DataEntry)) : list committed_unit :=
  match us with
  | [] => []
  | u :: us' => (with_offsets off u, off + total_bytes u) :: units_from (off + total_bytes u) us'
  end.

Lemma spread_app off es es' :
  spread off (es ++ es') = spread off es ++ spread (off + total_bytes es) es'.
Proof.
  revert off. induction es as [|e es IH]; intros off; cbn [spread app].
  - unfold total_bytes. rewrite lsum_nil. by rewrite Z.add_0_r.
  - rewrite IH. unfold total_bytes. rewrite lsum_cons. do 3 f_equal. lia.
Qed.

Lemma length_offsets_from off es : length (offsets_from off es) = length es.
Proof. revert off. induction es; intros off; cbn; auto. Qed.

Lemma with_offsets_app off es es' :
  with_offsets off (es ++ es') = with_offsets off es ++ with_offsets (off + total_bytes es) es'.
Proof.
  unfold with_offsets. rewrite offsets_from_app. apply zip_with_app.
  by rewrite length_offsets_from.
Qed.

Lemma with_offsets_split off es pre p post :
  with_offsets off es = pre ++ p :: post -> p.2 = off + total_bytes pre.*1 /\ es = pre.*1 ++ p.1 :: post.*1.
Proof.
  revert off es. induction pre as [|q pre IH]; intros off [|e es]; try done; unfold with_offsets; cbn [offsets_from zip zip_with app].
  - intros [= <- <-]. cbn. unfold total_bytes. rewrite lsum_nil, fst_zip; [split; [lia|done]|]. by rewrite length_offsets_from.
  - intros [= <- E]. destruct (IH _ _ E) as [-> ->]. cbn. unfold total_bytes. rewrite lsum_cons. split; [lia|done].
Qed.

Lemma with_offsets_nodup off es : NoDup (with_offsets off es).*2.
Proof.
  apply NoDup_alt. intros i j o Hi Hj. rewrite !list_lookup_fmap in Hi, Hj.
  destruct (with_offsets off es !! i) as [p|] eqn:Ei, (with_offsets off es !! j) as [q|] eqn:Ej; try done.
  assert (Hpq : p.2 = q.2) by (cbn in Hi, Hj; congruence).
  pose proof (take_drop_middle _ _ _ Ei) as Si. pose proof (take_drop_middle _ _ _ Ej) as Sj.
  symmetry in Si, Sj. apply with_offsets_split in Si as [Oi _]. apply with_offsets_split in Sj as [Oj _].
  rewrite <-Hpq, Oi in Oj. clear Oi Hpq.
  assert (Hlt : forall i j p, (i < j)%nat -> with_offsets off es !! i = Some p ->
    total_bytes (take i (with_offsets off es)).*1 < total_bytes (take j (with_offsets off es)).*1).
  { clear. intros i j p Hij Hp. replace j with (i + (j - i))%nat by lia. rewrite <-(take_take_drop _ i (j - i)), fmap_app, total_bytes_app.
    rewrite (drop_S _ _ _ Hp). destruct (j - i)%nat as [|n] eqn:E; [lia|]. cbn [firstn take fmap list_fmap].
    unfold total_bytes at 3. rewrite lsum_cons. pose proof (record_bytes_pos p.1).
    pose proof (total_bytes_nonneg (take n (drop (S i) (with_offsets off es))).*1). unfold total_bytes in *. lia. }
  destruct (lt_eq_lt_dec i j) as [[Hij|]|Hij]; [|done|].
  - pose proof (Hlt i j p Hij Ei). lia.
  - pose proof (Hlt j i q Hij Ej). lia.
Qed.

(** Inside a batch, entries are buffered. *)
Lemma committed_units_staged od staged off es raw err :
  Forall (fun x => de_type x <> BulkEnd /\ de_type x <> EChangeMarker) es ->
  committed_units od (Some staged) (spread off es ++ raw) err
  = committed_units od (Some (staged ++ with_offsets off es)) raw err.
Proof.
  intros Hes. revert staged off. induction Hes as [|x es [H1 H2] Hes IH]; intros staged off.
  - by rewrite app_nil_r.
  - cbn [spread app committed_units]. rewrite !bool_decide_eq_false_2 by done.
    rewrite IH. cbn [with_offsets offsets_from zip zip_with]. by rewrite <-app_assoc.
Qed.

Lemma committed_units_unit od off u raw err :
  unit_of u ->
  committed_units od None (spread off u ++ raw) err
  = let '(us, x) := committed_units od None raw err in
    ((with_offsets off u, off + total_bytes u) :: us, x).
Proof.
  assert (Ht : forall e, total_bytes [e] = DataEntry.record_bytes e)
    by (intros e; unfold total_bytes; rewrite lsum_cons, lsum_nil; lia).
  destruct 1 as [e He|b es e Hb He Hes].
  - cbn [spread app committed_units]. rewrite bool_decide_eq_false_2 by done. by rewrite Ht.
  - change (b :: es ++ [e]) with ([b] ++ es ++ [e]). rewrite !spread_app, <-!app_assoc.
    cbn [spread app committed_units]. rewrite bool_decide_eq_true_2 by done.
    rewrite committed_units_staged by done. cbn [committed_units].
    rewrite bool_decide_eq_false_2, bool_decide_eq_true_2 by congruence.
    change (b :: es ++ [e]) with ([b] ++ es ++ [e]).
    rewrite !with_offsets_app, !total_bytes_app, !Ht. cbn [with_offsets offsets_from zip zip_with].
    destruct (committed_units _ _ _ _). rewrite <-app_assoc. do 3 f_equal. lia.
Qed.

Lemma committed_units_units od off us rest err :
  Forall unit_of us -> unended rest ->
  committed_units od None (spread off (concat us ++ rest)) err = (units_from off us, err).
Proof.
  intros Hus Hrest. revert off. induction Hus as [|u us Hu Hus IH]; intros off.
  - destruct Hrest as [|b es Hb Hes]; [done|]. cbn [concat app spread committed_units units_from].
    rewrite bool_decide_eq_true_2 by done.
    rewrite <-(app_nil_r (spread _ es)). by rewrite committed_units_staged.
  - cbn [concat units_from]. rewrite <-app_assoc, spread_app, committed_units_unit by done.
    by rewrite IH.
Qed.

Lemma concat_units_from off us : concat (units_from off us).*1 = with_offsets off (concat us).
Proof.
  revert off. induction us as [|u us IH]; intros off; [done|].
  cbn [units_from fmap list_fmap fst concat]. by rewrite with_offsets_app, IH.
Qed.

Lemma last_units_from off us d :
  List.last (units_from off us).*2 d = if decide (us = []) then d else off + total_bytes (concat us).
Proof.
  revert off d. induction us as [|u us IH]; intros off d; [done|].
  rewrite decide_False by done. cbn [concat]. rewrite total_bytes_app.
  destruct us as [|u' us].
  - cbn. unfold total_bytes. rewrite lsum_nil. lia.
  - change (List.last (units_from (off + total_bytes u) (u' :: us)).*2 d
            = off + (total_bytes u + total_bytes (concat (u' :: us)))).
    rewrite IH, decide_False by done. lia.
Qed.

(** ** Records within an append *)

Lemma fits_lt w z : fits w z -> z < 2 ^ w.
Proof. by intros []. Qed.

Lemma offsets_from_lookup off es i e :
  es !! i = Some e -> offsets_from off es !! i = Some (off + total_bytes (take i es)).
Proof.
  revert off i. induction es as [|x es IH]; intros off [|i] Hi; try done; cbn [offsets_from take lookup list_lookup].
  - unfold total_bytes. by rewrite lsum_nil, Z.add_0_r.
  - rewrite (IH _ i) by done. unfold total_bytes. rewrite lsum_cons. f_equal. lia.
Qed.

Lemma images_split `{Crc32c} es i e :
  es !! i = Some e -> images es = images (take i es) ++ image e ++ images (drop (S i) es).
Proof. intros Hi. rewrite <-(take_drop_middle es i e Hi) at 1. by rewrite images_app. Qed.

(** ** Properties *)

(** C20: what was appended can be fetched.  When [append_entries] returns, an
    entry of the batch is read back by [fetch_record] from the offset returned
    for it, whatever the length of the first read ([value_size_hint]) and
    with the checksum verified or not. *)
Theorem append_then_fetch `{Crc32cLaws} l es s offs s' i e hint verify :
  (0 < max_entries l)%nat -> file_ok (fio_file s) -> Forall DataEntry.valid_entry es ->
  append_entries l es s = (Ok offs, s') -> es !! i = Some e -> 0 <= hint ->
  exists off, offs !! i = Some off /\ fetch_record (fio_file s') off hint verify = Ok e.
Proof.
  intros Hm Hok Hv Ha Hi Hh.
  assert (Hw : Forall writable es) by (eapply Forall_impl; [exact Hv|]; intros x []; split; apply fits_lt; done).
  destruct (append_chunks_spec l (length es) es s Hm Hok Hw (Nat.le_refl _)) as (r & s1 & E & _ & R).
  unfold append_entries in Ha. rewrite Ha in E. injection E as <- <-. destruct R as [-> [Hok' _ Hlive _ _ _ _]].
  exists (size (live (fio_file s) ++ images (take i es))). split.
  - rewrite size_app, length_live, length_images by done. by apply offsets_from_lookup with e.
  - apply fetch_record_image with (post := images (drop (S i) es)); try done.
    + by rewrite Hlive, <-app_assoc, <-images_split.
    + by eapply Forall_lookup_1.
Qed.

(** C21: a sweep reads any bytes for what they are.  Over arbitrary file
    contents [DataFileIterator] yields exactly the records that lie one after
    another from the start, each with a correct checksum, a known type and a
    nonzero sequence, and stops at the first place that is not one ([rest] does
    not begin with such a record): it ends there ([ends_sweep]), or under
    [OnDamage::Throw] throws if the place is damage rather than a torn or
    zeroed tail. *)
Theorem sweep_file_reads_records `{Crc32cLaws} f od pre tail :
  file_ok f -> live f = pre ++ tail ->
  exists es rest x, sweep_file f (size pre) od = (spread (size pre) es, x)
    /\ tail = images es ++ rest /\ Forall sweepable es
    /\ ends_sweep od rest = bool_decide (x = None) /\ (x <> None -> od = DamageThrow)
    /\ ends_sweep DamageStop rest = true /\ (forall e post, sweepable e -> rest <> image e ++ post).
Proof.
  intros Hok Hl. destruct (sweep_file_parses f od pre tail Hok Hl) as (es & rest & x & E & Ht & Hes & Hod & Hx & Hend). exists es, rest, x.
  split_and!; try done. intros e post He ->. by rewrite record_not_end in Hend.
Qed.

Lemma scan_committed_eq `{Crc32cLaws} f od us rest pre tail :
  file_ok f -> live f = pre ++ images (concat us ++ rest) ++ tail ->
  Forall unit_of us -> unended rest -> Forall sweepable (concat us ++ rest) ->
  ends_sweep od tail = true ->
  scan_committed f (size pre) od
  = mkCommitted (with_offsets (size pre) (concat us))
      (if decide (us = []) then 0 else size pre + total_bytes (concat us)) None.
Proof.
  intros Hok Hlive Hus Hrest Hsw Hend. unfold scan_committed.
  rewrite (sweep_file_entries f od (concat us ++ rest) pre tail) by done.
  rewrite committed_units_units by done. unfold scan_of_units. cbn [fst snd].
  by rewrite concat_units_from, last_units_from.
Qed.

(** C22: the committed sweep yields whole units.  On a file whose records are
    units [us] (single entries and closed batches) followed by a batch that
    never ended and by anything that ends a sweep, [scan_committed] yields the
    entries of the units with their offsets, none of the open batch, without
    throwing, and [committed_offset()] is the end of the last unit. *)
Theorem scan_committed_units `{Crc32cLaws} f od us rest pre tail :
  file_ok f -> live f = pre ++ images (concat us ++ rest) ++ tail ->
  Forall unit_of us -> unended rest -> Forall sweepable (concat us ++ rest) ->
  ends_sweep od tail = true ->
  scan_committed f (size pre) od
  = mkCommitted (with_offsets (size pre) (concat us))
      (if decide (us = []) then 0 else size pre + total_bytes (concat us)) None.
Proof. apply scan_committed_eq. Qed.

(** ** The committed entries of any bytes *)

(** How a sweep ends does not change the units it has passed. *)
Lemma committed_units_indep od od' batch raw err err' :
  (committed_units od batch raw err).1 = (committed_units od' batch raw err').1.
Proof.
  revert batch. induction raw as [|[[e off] n] raw IH]; intros batch; [done|]. cbn [committed_units].
  destruct batch as [staged|].
  - destruct (bool_decide (de_type e = EChangeMarker)); [by destruct od, od'|].
    destruct (bool_decide (de_type e = BulkEnd)); [|apply IH]. specialize (IH None).
    destruct (committed_units od None raw err), (committed_units od' None raw err'). cbn in *. by rewrite IH.
  - destruct (bool_decide (de_type e = BulkBegin)); [apply IH|]. specialize (IH None).
    destruct (committed_units od None raw err), (committed_units od' None raw err'). cbn in *. by rewrite IH.
Qed.

(** Any entries split into units, and a rest that is no unit. *)
Lemma committed_units_split od es :
  exists us rest, es = concat us ++ rest /\ Forall unit_of us
    /\ forall off err, (committed_units od None (spread off es) err).1 = units_from off us.
Proof.
  assert (Hgen : forall n es, (length es <= n)%nat -> exists us rest, es = concat us ++ rest /\ Forall unit_of us
    /\ forall off err, (committed_units od None (spread off es) err).1 = units_from off us); [|by eapply Hgen].
  assert (Hbatch : forall es, Forall (fun x => de_type x <> BulkEnd /\ de_type x <> EChangeMarker) es
    \/ exists pre e post, es = pre ++ e :: post /\ (de_type e = BulkEnd \/ de_type e = EChangeMarker)
         /\ Forall (fun x => de_type x <> BulkEnd /\ de_type x <> EChangeMarker) pre).
  { intros l. induction l as [|x l IH]; [by left|]. destruct (decide (de_type x = BulkEnd \/ de_type x = EChangeMarker)) as [Hx|Hx].
    - right. by exists [], x, l.
    - destruct IH as [IH|(pre & e & post & -> & He & Hp)]; [left; constructor; naive_solver|].
      right. exists (x :: pre), e, post. split_and!; [done..|]. constructor; naive_solver. }
  induction n as [|n IH]; intros l Hn; (destruct l as [|e l]; [by exists [], []|cbn in Hn; try lia]).
  destruct (decide (de_type e = BulkBegin)) as [Hb|Hb].
  - destruct (Hbatch l) as [Hall|(pre & x & post & -> & Hx & Hp)].
    { exists [], (e :: l). split_and!; [done..|]. intros off err. rewrite <-(app_nil_r (spread off (e :: l))). cbn [spread app committed_units].
      rewrite bool_decide_eq_true_2, committed_units_staged by done. done. }
    destruct Hx as [Hx|Hx].
    + destruct (IH post) as (us & rest & -> & Hus & Hcu). { rewrite length_app in Hn. cbn in Hn. lia. }
      exists ((e :: pre ++ [x]) :: us), rest. split_and!; [cbn; by rewrite <-!app_assoc|by constructor; [constructor|]|].
      intros off err. cbn [units_from]. rewrite <-(Hcu _ err).
      replace (e :: pre ++ x :: concat us ++ rest) with ((e :: pre ++ [x]) ++ concat us ++ rest) by (cbn; by rewrite <-app_assoc).
      rewrite spread_app, committed_units_unit by (by constructor). by destruct (committed_units _ _ _ _).
    + exists [], (e :: pre ++ x :: post). split_and!; [done..|]. intros off err. change (e :: pre ++ x :: post) with ([e] ++ pre ++ x :: post).
      rewrite !spread_app. cbn [spread app committed_units]. rewrite bool_decide_eq_true_2, committed_units_staged by done.
      cbn [committed_units]. rewrite bool_decide_eq_true_2 by done. by destruct od.
  - destruct (IH l) as (us & rest & -> & Hus & Hcu); [lia|]. exists ([e] :: us), rest. split_and!; [done|by constructor; [constructor|]|].
    intros off err. cbn [units_from]. rewrite <-(Hcu _ err). change (e :: concat us ++ rest) with ([e] ++ concat us ++ rest).
    rewrite spread_app, committed_units_unit by (by constructor). by destruct (committed_units _ _ _ _).
Qed.

(** Any file is its committed units and a rest, and a committed sweep yields
    the units' entries whatever it does at damage. *)
Lemma scan_committed_parses `{Crc32cLaws} f :
  file_ok f ->
  exists us rest, live f = images (concat us) ++ rest /\ Forall unit_of us /\ Forall sweepable (concat us)
    /\ cs_error (scan_committed f 0 DamageStop) = None
    /\ forall od, cs_entries (scan_committed f 0 od) = with_offsets 0 (concat us)
                 /\ cs_offset (scan_committed f 0 od) = total_bytes (concat us).
Proof.
  intros Hok. assert (Hsw : exists es rest, live f = images es ++ rest /\ Forall sweepable es
    /\ forall od, exists x, sweep_file f 0 od = (spread 0 es, x) /\ (od = DamageStop -> x = None)).
  { destruct (sweep_file_parses f DamageThrow [] (live f) Hok) as (es & rest & x & Hs & Hl & Hes & _ & _ & Hst); [done|].
    exists es, rest. split_and!; [done..|]. intros []; [by exists x|].
    exists None. split; [|done]. apply (sweep_file_entries f DamageStop es [] rest); done. }
  destruct Hsw as (es & rest & Hl & Hes & Hsw). destruct (committed_units_split DamageStop es) as (us & rest' & -> & Hus & Hcu).
  exists us, (images rest' ++ rest). rewrite Forall_app in Hes. destruct Hes as [Hes _].
  split_and!; [by rewrite Hl, images_app, app_assoc|done|done| |].
  - unfold scan_committed. destruct (Hsw DamageStop) as (x & -> & ->); [|done]. unfold scan_of_units. cbn [cs_error snd].
    clear. generalize (@None (list (DataEntry * Z))) as b. generalize (spread 0 (concat us ++ rest')) as raw.
    induction raw as [|[[e off] n] raw IH]; intros b; [done|]. cbn [committed_units]. destruct b; repeat case_match_eqn; try done; cbn;
      specialize (IH None); by rewrite Heqp in IH.
  - intros od. unfold scan_committed. destruct (Hsw od) as (x & -> & _). unfold scan_of_units. cbn [cs_entries cs_offset].
    rewrite (committed_units_indep od DamageStop None _ x None), Hcu, concat_units_from, last_units_from. split; [done|].
    destruct (decide (us = [])) as [->|]; [done|lia].
Qed.

(** A file cut at its committed offset holds the same committed entries. *)
Lemma scan_committed_cut `{Crc32cLaws} f f' :
  file_ok f -> file_ok f' -> live f' = take (Z.to_nat (cs_offset (scan_committed f 0 DamageStop))) (live f) ->
  forall od od', cs_entries (scan_committed f' 0 od) = cs_entries (scan_committed f 0 od').
Proof.
  intros Hok Hok' Hl od od'. destruct (scan_committed_parses f Hok) as (us & rest & Hlive & Hus & Hsw & _ & Hscan).
  destruct (Hscan DamageStop) as [_ Hoff]. rewrite Hoff, Hlive, <-length_images in Hl. unfold size in Hl. rewrite Nat2Z.id, take_app_length in Hl.
  destruct (Hscan od') as [-> _]. pose proof (scan_committed_eq f' od us [] [] [] Hok') as E. rewrite !app_nil_r in E.
  change (size []) with 0 in E. rewrite E; try done. constructor.
Qed.

(** The file starts with the units [us]. *)
Record starts_with `{Crc32c} (f : DataFile) (us : list (list DataEntry)) : Prop := {
  sw_units : Forall unit_of us;
  sw_sweep : Forall sweepable (concat us);
  sw_live : images (concat us) `prefix_of` live f
}.

Lemma committed_units_app od off us raw err :
  Forall unit_of us ->
  (committed_units od None (spread off (concat us) ++ raw) err).1 = units_from off us ++ (committed_units od None raw err).1.
Proof.
  intros Hus. revert off. induction Hus as [|u us Hu _ IH]; intros off; [done|].
  cbn [concat units_from app]. rewrite spread_app, <-app_assoc, committed_units_unit by done.
  specialize (IH (off + total_bytes u)). destruct (committed_units od None _ err). cbn in *. by rewrite IH.
Qed.

(** A committed sweep yields every unit the file starts with. *)
Lemma starts_with_scanned `{Crc32cLaws} f us :
  file_ok f -> starts_with f us -> exists us', starts_with f (us ++ us')
    /\ forall od, cs_entries (scan_committed f 0 od) = with_offsets 0 (concat (us ++ us'))
                 /\ cs_offset (scan_committed f 0 od) = total_bytes (concat (us ++ us')).
Proof.
  intros Hok [Hu Hsw [tail Hl]].
  destruct (sweep_file_parses f DamageStop (images (concat us)) tail Hok Hl) as (es & rest & x & _ & -> & Hes & _ & _ & Hend).
  assert (Hall : live f = [] ++ images (concat us ++ es) ++ rest) by (by rewrite Hl, images_app, <-app_assoc).
  pose proof (sweep_file_entries f DamageStop (concat us ++ es) [] rest Hok Hall ltac:(by apply Forall_app) Hend) as Es. change (size []) with 0 in Es.
  destruct (committed_units_split DamageStop es) as (us' & rest' & -> & Hus' & Hcu). exists us'.
  rewrite Forall_app in Hes. destruct Hes as [Hes _]. split.
  - split; [by apply Forall_app|by rewrite concat_app, Forall_app|]. exists (images rest' ++ rest).
    by rewrite Hl, concat_app, !images_app, <-!app_assoc.
  - destruct (scan_committed_parses f Hok) as (us2 & _ & _ & _ & _ & _ & Hscan).
    assert (Hc : cs_entries (scan_committed f 0 DamageStop) = with_offsets 0 (concat (us ++ us'))).
    { unfold scan_committed, scan_of_units. rewrite Es. cbn [cs_entries]. rewrite spread_app, committed_units_app, Hcu by done.
      rewrite concat_app, with_offsets_app, fmap_app, concat_app, !concat_units_from. do 2 f_equal. }
    assert (concat us2 = concat (us ++ us')) as <-; [|done].
    destruct (Hscan DamageStop) as [E _]. rewrite Hc in E. apply (f_equal (fmap fst)) in E. unfold with_offsets in E.
    rewrite !fst_zip in E; [done|..]; by rewrite length_offsets_from.
Qed.

(** Whole units and nothing else. *)
Definition framed `{Crc32c} (f : DataFile) : Prop := exists us, starts_with f us /\ live f = images (concat us).

Lemma framed_empty `{Crc32c} f : live f = [] -> framed f.
Proof. intros Hl. exists []. split; [|done]. split; [done|constructor|]. cbn. by rewrite Hl. Qed.

Lemma framed_same `{Crc32c} f f' : live f' = live f -> framed f -> framed f'.
Proof. intros Hl (us & [? ? ?] & E). exists us. split; [split; [done|done|by rewrite Hl]|by rewrite Hl]. Qed.

(** ** Witnesses *)

Module ScanFixture.
Import Castagnoli.

Definition entry (s : Z) (t : EntryType) (k v : bytes) : DataEntry := mkDataEntry s t k v.
Definition put_a : DataEntry := entry 1 Put [x61] [x01; x02].
Definition batch : list DataEntry :=
  [entry 2 BulkBegin [] []; entry 3 Put [x62] [x03]; entry 4 Delete [x61] []; entry 5 BulkEnd [] []].
Definition open_batch : list DataEntry := [entry 6 BulkBegin [] []; entry 7 Put [x63] []].

Definition empty_file : DataFile := mkDataFile "000001.data" [] 0 0 0 0 false.
(** Two entries of a batch go into one [pwritev]; the second call fails after
    five bytes. *)
Definition limits : Limits := mkLimits 2 (2 ^ 30) (2 ^ 20).
Definition failing : FileIO := mkFileIO empty_file [Done; Fails 5].

(** A file with a unit, a batch, an open batch and four zero bytes. *)
Definition written : bytes := images (concat [[put_a]; batch] ++ open_batch) ++ replicate 4 x00.
Definition file : DataFile := mkDataFile "000001.data" written (size written) 0 0 0 false.

Lemma empty_file_ok : file_ok empty_file.
Proof. split; [by vm_compute|by left|by vm_compute]. Defined.

Lemma file_is_ok : file_ok file.
Proof. split; [by vm_compute|by left|by vm_compute]. Defined.

Lemma entries_sweepable : Forall sweepable (concat [[put_a]; batch] ++ open_batch).
Proof. repeat constructor; by vm_compute. Defined.
End ScanFixture.

Section witnesses.
Import Castagnoli ScanFixture.

Lemma append_then_fetch_witness :
  exists off, offsets_from 0 batch !! 1%nat = Some off
    /\ fetch_record (fio_file (append_entries limits batch (mkFileIO empty_file [])).2) off 0 true
       = Ok (entry 3 Put [x62] [x03]).
Proof.
  apply (append_then_fetch limits batch (mkFileIO empty_file [])); [cbn; lia|apply empty_file_ok| | |done|lia].
  - repeat constructor; by vm_compute.
  - by vm_compute.
Defined.

Lemma sweep_file_reads_records_witness :
  exists es rest x, sweep_file file (size []) DamageThrow = (spread (size []) es, x)
    /\ written = images es ++ rest /\ Forall sweepable es
    /\ ends_sweep DamageThrow rest = bool_decide (x = None) /\ (x <> None -> DamageThrow = DamageThrow)
    /\ ends_sweep DamageStop rest = true /\ (forall e post, sweepable e -> rest <> image e ++ post).
Proof. apply (sweep_file_reads_records file DamageThrow [] written file_is_ok). by vm_compute. Defined.

Lemma scan_committed_units_witness :
  scan_committed file 0 DamageThrow
  = mkCommitted (with_offsets 0 (put_a :: batch)) (total_bytes (put_a :: batch)) None.
Proof.
  apply (scan_committed_units file DamageThrow [[put_a]; batch] open_batch [] (replicate 4 x00) file_is_ok).
  - by vm_compute.
  - apply Forall_cons_2; [by constructor|]. apply Forall_cons_2; [|constructor].
    apply (unit_batch (entry 2 BulkBegin [] []) [entry 3 Put [x62] [x03]; entry 4 Delete [x61] []]); [done..|].
    by repeat constructor.
  - by repeat constructor.
  - apply entries_sweepable.
  - by vm_compute.
Defined.

Lemma append_entries_spec_witness :
  exists r s', append_entries limits batch failing = (r, s')
    /\ (fio_oracle failing = [] -> is_ok r = true)
    /\ match r with
       | Ok offs => offs = offsets_from 0 batch /\ appended empty_file (fio_file s') batch
       | Err _ => exists n, (n < length batch)%nat /\ appended empty_file (fio_file s') (take n batch)
       end.
Proof.
  apply (append_entries_spec limits batch failing); [cbn; lia|apply empty_file_ok|].
  repeat constructor; by vm_compute.
Defined.
End witnesses.
