(* ===== verification/Hints.v ===== *)
(** * Hints of data files

    Models the hint functions of [db_rotation.cpp]: [flush_hints_for], which
    writes the hint file of a data file from its committed entries, and
    [open_hint_or_rebuild] / [open_hint_or_skip], which open one, rebuilding
    it from its data file when it is damaged.

    The database directory is a [Disk]: the data files and the hint files by
    the stem of their names, and how the coming system calls end.  Every
    system call of the hint writer before its file is complete has the same
    effect when it fails, a temporary file left behind, so the calls that
    write before the cut of the tail take one outcome and those after it
    another. *)

From S2P Require Import Prelude Codec HintFile KeyDir DataFile DataFileProofs FileScan.
Import Serialization Types.

(** ** The directory *)

(** How the open of a hint file can fail: a call fails, or a read does. *)
Inductive ReadFailure : Type := OpenFails (msg : string) | ReadFails (msg : string).

Definition read_exn (r : ReadFailure) : exn :=
  match r with OpenFails msg => SystemError msg | ReadFails msg => IoError msg end.

Record Disk : Type := mkDisk {
  d_data : gmap string DataFile;       (* the .data files *)
  d_hints : gmap string bytes;         (* the .hint files *)
  d_tmp : gset string;                 (* the .hint.tmp files *)
  d_data_tmp : gmap string DataFile;   (* the .data.tmp files *)
  d_oracle : list outcome;             (* how the coming system calls end *)
  d_reads : list (option ReadFailure)  (* how the coming opens of hint files end *)
}.

Definition set_data (x : gmap string DataFile) (d : Disk) : Disk :=
  mkDisk x (d_hints d) (d_tmp d) (d_data_tmp d) (d_oracle d) (d_reads d).
Definition set_hints (x : gmap string bytes) (d : Disk) : Disk :=
  mkDisk (d_data d) x (d_tmp d) (d_data_tmp d) (d_oracle d) (d_reads d).
Definition set_tmp (x : gset string) (d : Disk) : Disk :=
  mkDisk (d_data d) (d_hints d) x (d_data_tmp d) (d_oracle d) (d_reads d).
Definition set_data_tmp (x : gmap string DataFile) (d : Disk) : Disk :=
  mkDisk (d_data d) (d_hints d) (d_tmp d) x (d_oracle d) (d_reads d).
Definition set_disk_oracle (x : list outcome) (d : Disk) : Disk :=
  mkDisk (d_data d) (d_hints d) (d_tmp d) (d_data_tmp d) x (d_reads d).
Definition set_reads (x : list (option ReadFailure)) (d : Disk) : Disk :=
  mkDisk (d_data d) (d_hints d) (d_tmp d) (d_data_tmp d) (d_oracle d) x.

(** A system call with no effect of its own when it fails. *)
Definition disk_call (what : string) : io Disk unit := fun d =>
  match d_oracle d with
  | [] => (Ok (), d)
  | Done :: os => (Ok (), set_disk_oracle os d)
  | Fails _ :: os => (Err (SystemError what), set_disk_oracle os d)
  end.

Section hints.
Context `{Zstd} `{Crc32c}.

(** [HintFile::OpenForRead] of the hint of [stem]. *)
Definition open_hint (stem : string) : io Disk HintScan := fun d =>
  match d_reads d with
  | Some r :: rs => (Err (read_exn r), set_reads rs d)
  | rs =>
      (match d_hints d !! stem with
       | Some b => OpenForRead b
       | None => Err (SystemError "HintFile: cannot open for read")
       end, set_reads (tail rs) d)
  end.

(** ** Writing a hint *)

Record Staged : Type := mkStaged {
  st_seq : Z; st_file_off : Z; st_val_size : Z; st_key : bytes; st_type : EntryType
}.

(** Key ascending, and within a key sequence descending. *)
Definition staged_lt (a b : Staged) : bool :=
  match key_compare (st_key a) (st_key b) with
  | Lt => true
  | Eq => st_seq b <? st_seq a
  | Gt => false
  end.

Definition staged_le (a b : Staged) : Prop := staged_lt b a = false.

#[export] Instance staged_le_dec : RelDecision staged_le.
Proof. intros a b. unfold staged_le. apply _. Defined.

(** The loop over the committed entries: what goes to the hint at once, and
    what is staged; [arena] is the size of the key arena. *)
Fixpoint stage_hints (es : list (DataEntry * Z)) (w : HintWriter) (staged : list Staged) (arena : Z)
    : result (HintWriter * list Staged) :=
  match es with
  | [] => Ok (w, staged)
  | (e, off) :: es =>
      match de_type e with
      | BulkBegin | BulkEnd =>
          w ← hint_append (de_sequence e) (de_type e) off [] 0 w; stage_hints es w staged arena
      | EChangeMarker =>
          w ← append_change_marker (de_sequence e) off (decode_marker_id (de_value e)) w;
          stage_hints es w staged arena
      | RangeDel =>
          w ← append_range_del (de_sequence e) off (de_key e) (de_value e) w; stage_hints es w staged arena
      | _ =>
          vs ← narrow 32 (size (de_value e));
          _ ← narrow 32 arena;
          _ ← narrow 32 (size (de_key e));
          stage_hints es w (staged ++ [mkStaged (de_sequence e) off vs (de_key e) (de_type e)])
            (arena + size (de_key e))
      end
  end.

(** The sorted run, behind what was written already. *)
Fixpoint append_staged (staged : list Staged) (w : HintWriter) : result HintWriter :=
  match staged with
  | [] => Ok w
  | e :: staged =>
      w ← hint_append (st_seq e) (st_type e) (st_file_off e) (st_key e) (st_val_size e) w;
      append_staged staged w
  end.

(** [if (cut)]: the temporary file goes when the cut throws. *)
Definition run_cut (cut : option (Z -> io Disk unit)) (stem : string) (end_ : Z) : io Disk unit :=
  match cut with
  | Some c => try_catch (c end_) (fun ex => _ ← modify (fun d => set_tmp (d_tmp d ∖ {[stem]}) d); throw ex)
  | None => mret ()
  end.

Definition flush_hints_for (file : DataFile) (cut : option (Z -> io Disk unit)) : io Disk unit :=
  let stem := path file in
  present ← gets (fun d => bool_decide (is_Some (d_hints d !! stem)));
  if present : bool then mret ()
  else
    _ ← disk_call "HintFile: cannot open for write";
    _ ← modify (fun d => set_tmp ({[stem]} ∪ d_tmp d) d);
    let committed := scan_committed file 0 (match cut with Some _ => DamageStop | None => DamageThrow end) in
    '(w, staged) ← lift (stage_hints (cs_entries committed) OpenForWrite [] 0);
    _ ← lift (match cs_error committed with Some ex => Err ex | None => Ok () end);
    _ ← disk_call "HintFile::append";
    _ ← run_cut cut stem (cs_offset committed);
    w ← lift (append_staged (merge_sort staged_le staged) w);
    b ← lift (hint_close w);
    _ ← disk_call "HintFile::close";
    _ ← disk_call "rename";
    _ ← modify (fun d => set_hints (<[stem := b]> (d_hints d)) (set_tmp (d_tmp d ∖ {[stem]}) d));
    disk_call "sync_directory".

(** [flush_hints(s)], over the file objects of the sealed files in id order. *)
Definition flush_hints (sealed : list DataFile) : io Disk unit :=
  for_each sealed (fun f => flush_hints_for f None).

(** ** Opening a hint *)

Definition is_file_damage (e : exn) : bool :=
  match e with
  | SystemError _ => false
  | IoError _ => true
  | RuntimeError _ | SequenceOverlap _ _ | DbDegraded _ | DbFollowerMode | DbChangeMarkerMismatch => true
  | InvalidArgument _ | LogicError _ | DbClosed | Panic _ => false
  end.

Definition open_hint_or_rebuild (data_file : DataFile) (stem : string) : io Disk HintScan :=
  try_catch (open_hint stem) (fun e =>
    if negb (is_file_damage e) then throw e
    else
      _ ← disk_call "remove";
      _ ← modify (fun d => set_hints (delete stem (d_hints d)) d);
      _ ← flush_hints_for data_file None;
      open_hint stem).

Definition open_hint_or_skip (data_file : DataFile) (stem : string) (strict : bool)
    : io Disk (option HintScan) :=
  try_catch (h ← open_hint_or_rebuild data_file stem; mret (Some h)) (fun e =>
    if strict || negb (is_file_damage e) then throw e else mret None).

End hints.

(** ** What a hint lists *)

Definition is_data (t : EntryType) : bool :=
  match t with BulkBegin | BulkEnd | EChangeMarker | RangeDel => false | _ => true end.

(** The hint entry of a committed entry. *)
Definition hint_of (p : DataEntry * Z) : HintEntry.HintEntry :=
  let '(e, off) := p in
  match de_type e with
  | BulkBegin | BulkEnd => HintEntry.mkHintEntry (de_sequence e) (de_type e) off [] 0 [] 0
  | EChangeMarker => HintEntry.mkHintEntry (de_sequence e) EChangeMarker off [] 8 [] (decode_marker_id (de_value e))
  | RangeDel => HintEntry.mkHintEntry (de_sequence e) RangeDel off (de_key e) (size (de_value e)) (de_value e) 0
  | t => HintEntry.mkHintEntry (de_sequence e) t off (de_key e) (size (de_value e)) [] 0
  end.

Definition staged_of (p : DataEntry * Z) : Staged :=
  mkStaged (de_sequence p.1) p.2 (size (de_value p.1)) (de_key p.1) (de_type p.1).

Definition hint_of_staged (e : Staged) : HintEntry.HintEntry :=
  HintEntry.mkHintEntry (st_seq e) (st_type e) (st_file_off e) (st_key e) (st_val_size e) [] 0.

(** The head in scan order, then the run sorted by key. *)
Definition hint_head (es : list (DataEntry * Z)) : list HintEntry.HintEntry :=
  hint_of <$> filter (fun p => is_data (de_type p.1) = false) es.
Definition hint_run (es : list (DataEntry * Z)) : list HintEntry.HintEntry :=
  hint_of_staged <$> merge_sort staged_le (staged_of <$> filter (fun p => is_data (de_type p.1) = true) es).

(** What an entry the engine wrote is: its range end and its marker id fit,
    and markers carry no key. *)
Record hintable (p : DataEntry * Z) : Prop := {
  hb_valid : DataEntry.valid_entry p.1;
  hb_offset : fits 64 p.2;
  hb_range : de_type p.1 = RangeDel -> fits 16 (size (de_value p.1))
}.

Lemma is_data_known t : is_known_entry_type t = true -> is_data t = true -> t = Put \/ t = Delete.
Proof. destruct t; naive_solver. Qed.

Lemma narrow_fits w v : fits w v -> narrow w v = Ok v.
Proof. intros Hf%fitsb_true. unfold narrow. by rewrite Hf. Qed.

Lemma serialize_entry_ok sq et off vs k :
  fits 16 (size k) -> et <> RangeDel -> et <> EChangeMarker ->
  exists b, HintEntry.serialize_entry sq et off vs k = Ok b
    /\ HintEntry.serializes (HintEntry.mkHintEntry sq et off k vs [] 0) b.
Proof.
  intros Hk H1 H2. assert (E : exists b, HintEntry.serialize_entry sq et off vs k = Ok b).
  { unfold HintEntry.serialize_entry. rewrite narrow_fits by done. by eexists. }
  destruct E as [b E]. exists b. split; [done|]. by constructor.
Qed.

Lemma serialize_range_del_ok sq off k ek :
  fits 16 (size k) -> fits 16 (size ek) ->
  exists b, HintEntry.serialize_range_del_entry sq off k ek = Ok b
    /\ HintEntry.serializes (HintEntry.mkHintEntry sq RangeDel off k (size ek) ek 0) b.
Proof.
  intros Hk Hek. assert (E : exists b, HintEntry.serialize_range_del_entry sq off k ek = Ok b).
  { unfold HintEntry.serialize_range_del_entry. rewrite (narrow_fits 32) by (eapply fits_mono; [|exact Hek]; lia).
    cbn [mbind result_bind]. rewrite (narrow_fits 16 (size k)) by done. cbn [mbind result_bind].
    rewrite narrow_fits by done. by eexists. }
  destruct E as [b E]. exists b. split; [done|]. by constructor.
Qed.

Lemma mbind_assoc {A B C} (r : result A) (f : A -> result B) (g : B -> result C) :
  ((r ≫= f) ≫= g) = (r ≫= fun a => f a ≫= g).
Proof. by destruct r. Qed.

Abbreviation data_of es := (filter (fun p : DataEntry * Z => is_data (de_type p.1) = true) es).
Abbreviation key_bytes es := (lsum (fun p : DataEntry * Z => size (de_key p.1)) es).

Section indexes.
Context `{Zstd} `{Crc32c}.

Lemma add_entries_app a b w : add_entries (a ++ b) w = (add_entries a w ≫= add_entries b).
Proof.
  revert w. induction a as [|x a IH]; intros w; [done|]. cbn [app add_entries].
  destruct (add_entry x w); [|done]. cbn [mbind result_bind]. apply IH.
Qed.

(** An entry of the head is written at once. *)
Lemma stage_hints_head e off :
  hintable (e, off) -> is_data (de_type e) = false ->
  exists b, hinted (hint_of (e, off), b) /\ forall es w staged arena,
    stage_hints ((e, off) :: es) w staged arena = (add_entry b w ≫= fun w => stage_hints es w staged arena).
Proof.
  intros [[Hseq Hk Hkey Hval Hm] Ho Hr] Hd. cbn [fst snd] in *.
  assert (Hpoint : forall t, de_type e = t -> (t = BulkBegin \/ t = BulkEnd) ->
    exists b, hinted (HintEntry.mkHintEntry (de_sequence e) t off [] 0 [] 0, b) /\ forall es w staged arena,
      stage_hints ((e, off) :: es) w staged arena = (add_entry b w ≫= fun w => stage_hints es w staged arena)).
  { intros t Et Ht. destruct (serialize_entry_ok (de_sequence e) t off 0 []) as (b & E & Hb); [done|destruct Ht; congruence..|].
    exists b. split; [split; [done|split; cbn; try done; by destruct Ht as [-> | ->]]|]. intros. cbn [stage_hints]. unfold hint_append.
    destruct Ht as [-> | ->]; rewrite Et, E; done. }
  destruct (de_type e) eqn:Et; try done; unfold hint_of; rewrite Et; auto.
  - destruct (serialize_range_del_ok (de_sequence e) off (de_key e) (de_value e)) as (b & E & Hb); [done|by apply Hr|].
    exists b. split; [split; [done|by split]|]. intros. cbn [stage_hints]. rewrite Et. unfold append_range_del. by rewrite E.
  - eexists. split; [split; [apply HintEntry.serializes_marker|]|].
    + split; try done. cbn [HintEntry.marker_id]. destruct Hm as [_ Hm]; [done|]. rewrite decode_marker_id_combine by done.
      pose proof (le_combine_range (de_value e)) as Hr'. rewrite Hm in Hr'. done.
    + intros. cbn [stage_hints]. by rewrite Et.
Qed.

Lemma stage_hints_data e off es w staged arena :
  hintable (e, off) -> is_data (de_type e) = true -> fits 32 arena ->
  stage_hints ((e, off) :: es) w staged arena
  = stage_hints es w (staged ++ [staged_of (e, off)]) (arena + size (de_key e)).
Proof.
  intros [[Hseq Hk Hkey Hval _] Ho _] Hd Ha. cbn [fst snd] in *.
  destruct (is_data_known _ Hk Hd) as [Et|Et]; cbn [stage_hints]; rewrite Et, (narrow_fits 32 (size (de_value e))) by done;
    cbn [mbind result_bind]; rewrite (narrow_fits 32 arena) by done; cbn [mbind result_bind];
    rewrite (narrow_fits 32 (size (de_key e))) by (eapply fits_mono; [|exact Hkey]; lia);
    cbn [mbind result_bind]; unfold staged_of; cbn [fst snd]; by rewrite Et.
Qed.

(** The loop adds the bytes of the head and stages the rest. *)
Lemma stage_hints_spec es :
  Forall hintable es ->
  exists ps, ps.*1 = hint_head es /\ Forall hinted ps /\ forall w staged arena,
    0 <= arena -> arena + key_bytes es < 2 ^ 32 ->
    stage_hints es w staged arena = (add_entries ps.*2 w ≫= fun w => Ok (w, staged ++ (staged_of <$> data_of es))).
Proof.
  induction 1 as [|[e off] es Hh Hes (ps & P1 & P2 & P3)].
  { exists []. split_and!; [done..|]. intros. cbn. by rewrite app_nil_r. }
  assert (Hrest : 0 <= key_bytes es) by (apply lsum_nonneg; intros; unfold size; lia).
  assert (Hsz : 0 <= size (de_key e)) by (unfold size; lia).
  unfold hint_head in *. rewrite filter_cons. cbn [fst]. destruct (is_data (de_type e)) eqn:Hd.
  - exists ps. rewrite decide_False by done. split_and!; [done..|]. intros w staged arena Ha Hs.
    rewrite lsum_cons in Hs. cbn [fst] in Hs. rewrite stage_hints_data by (done || (split; lia)).
    rewrite P3 by lia. rewrite filter_cons. cbn [fst]. rewrite Hd, decide_True by done. by rewrite <-app_assoc.
  - destruct (stage_hints_head e off Hh Hd) as (b & Hb & E).
    exists ((hint_of (e, off), b) :: ps). rewrite decide_True by done. cbn [fmap list_fmap fst snd].
    split_and!; [by rewrite P1|by constructor|]. intros w staged arena Ha Hs. rewrite lsum_cons in Hs. cbn [fst] in Hs.
    rewrite E. rewrite filter_cons. cbn [fst]. rewrite Hd, decide_False by done. cbn [add_entries].
    rewrite mbind_assoc. destruct (add_entry b w) as [w1|]; [|done]. cbn [mbind result_bind]. apply P3; lia.
Qed.

Record stageable (e : Staged) : Prop := {
  sb_key : fits 16 (size (st_key e));
  sb_seq : fits 64 (st_seq e);
  sb_off : fits 64 (st_file_off e);
  sb_val : fits 32 (st_val_size e);
  sb_type : st_type e = Put \/ st_type e = Delete
}.

Lemma append_staged_spec es :
  Forall stageable es ->
  exists ps, ps.*1 = hint_of_staged <$> es /\ Forall hinted ps /\ forall w, append_staged es w = add_entries ps.*2 w.
Proof.
  induction 1 as [|e es [S1 S2 S3 S4 S5] Hes (ps & P1 & P2 & P3)].
  { by exists []. }
  destruct (serialize_entry_ok (st_seq e) (st_type e) (st_file_off e) (st_val_size e) (st_key e)) as (b & E & Hb);
    [done|destruct S5; congruence..|].
  exists ((hint_of_staged e, b) :: ps). cbn [fmap list_fmap fst snd]. split_and!; [by rewrite P1| |].
  - constructor; [|done]. split; [done|]. split; cbn; try done. by destruct S5 as [-> | ->].
  - intros w. cbn [append_staged add_entries]. unfold hint_append. rewrite E. cbn [mbind result_bind].
    destruct (add_entry b w); [|done]. apply P3.
Qed.
End indexes.

Lemma disk_call_cases what d :
  exists r os, disk_call what d = (r, set_disk_oracle os d) /\ (d_oracle d = [] -> r = Ok () /\ os = []).
Proof.
  unfold disk_call. destruct d as [da h t dt [|[|n] os] rs]; cbn; eexists _, _; by split; [done..|].
Qed.

(** ** The shape of a hint *)

(** A head of range tombstones and keyless entries, then Puts and Deletes in
    key order: what recovery asks of a hint. *)
Definition sorted_hint (es : list HintEntry.HintEntry) : Prop :=
  exists head run, es = head ++ run
    /\ Forall (fun h => is_data (HintEntry.entry_type h) = false) head
    /\ Forall (fun h => HintEntry.entry_type h = Put \/ HintEntry.entry_type h = Delete) run
    /\ StronglySorted key_le (HintEntry.key <$> run).

Lemma staged_lt_spec a b :
  staged_lt a b = true <-> key_lt (st_key a) (st_key b) \/ (st_key a = st_key b /\ st_seq b < st_seq a).
Proof.
  unfold staged_lt, key_lt. rewrite <-key_compare_eq.
  destruct (key_compare (st_key a) (st_key b)) eqn:E; rewrite ?Z.ltb_lt; naive_solver.
Qed.

Lemma staged_le_spec a b :
  staged_le a b <-> key_lt (st_key a) (st_key b) \/ (st_key a = st_key b /\ st_seq b <= st_seq a).
Proof.
  unfold staged_le. rewrite <-not_true_iff_false, staged_lt_spec.
  destruct (key_lt_trichotomy (st_key a) (st_key b)) as [Hk|[Hk|Hk]].
  - split; [auto|]. intros _ [H1|[H1 _]].
    + by destruct (key_lt_irrefl _ (key_lt_trans _ _ _ Hk H1)).
    + rewrite H1 in Hk. by apply key_lt_irrefl in Hk.
  - rewrite Hk. split; [intros Hn; right; split; [done|]|intros [Hx|[_ Hx]] [Hy|[_ Hy]]]; try by apply key_lt_irrefl in Hx.
    + destruct (Z.le_gt_cases (st_seq b) (st_seq a)); [done|]. exfalso. apply Hn. right. split; [done|lia].
    + by apply key_lt_irrefl in Hy.
    + lia.
  - split; [naive_solver|]. intros [H1|[H1 _]].
    + by destruct (key_lt_irrefl _ (key_lt_trans _ _ _ Hk H1)).
    + rewrite H1 in Hk. by apply key_lt_irrefl in Hk.
Qed.

#[export] Instance staged_le_total : Total staged_le.
Proof.
  intros a b. rewrite !staged_le_spec.
  destruct (key_lt_trichotomy (st_key a) (st_key b)) as [Hk|[Hk|Hk]]; auto.
  rewrite Hk. destruct (Z.le_ge_cases (st_seq a) (st_seq b)); auto.
Qed.

#[export] Instance staged_le_trans : Transitive staged_le.
Proof.
  intros a b c. rewrite !staged_le_spec. intros [H1|[H1 H1']] [H2|[H2 H2']].
  - left. by eapply key_lt_trans.
  - left. by rewrite <-H2.
  - left. by rewrite H1.
  - right. split; [congruence|lia].
Qed.

Lemma hint_run_sorted es : StronglySorted key_le (HintEntry.key <$> hint_run es).
Proof.
  unfold hint_run. rewrite <-list_fmap_compose.
  assert (Hs : StronglySorted staged_le (merge_sort staged_le (staged_of <$> data_of es)))
    by (apply StronglySorted_merge_sort; apply _).
  revert Hs. generalize (merge_sort staged_le (staged_of <$> data_of es)) as l.
  induction 1 as [|x l Hs IH Hx]; cbn; [constructor|]. constructor; [done|].
  rewrite Forall_fmap. eapply Forall_impl; [exact Hx|]. intros y Hy%staged_le_spec.
  apply key_le_lteq. cbn. naive_solver.
Qed.

Lemma hint_of_staged_of p : hintable p -> is_data (de_type p.1) = true -> hint_of_staged (staged_of p) = hint_of p.
Proof. destruct p as [e off]. intros _ Hd. unfold hint_of, hint_of_staged, staged_of. cbn in *. by destruct (de_type e). Qed.

(** A hint lists every committed entry once. *)
Lemma hint_lists_all es : Forall hintable es -> hint_head es ++ hint_run es ≡ₚ hint_of <$> es.
Proof.
  intros Hes. unfold hint_head, hint_run. rewrite merge_sort_Permutation, <-list_fmap_compose.
  induction Hes as [|p es Hp Hes IH]; [done|]. rewrite !filter_cons. destruct (is_data (de_type p.1)) eqn:Hd.
  - rewrite decide_False, decide_True by done. cbn [fmap list_fmap]. rewrite <-Permutation_middle. cbn [compose].
    rewrite hint_of_staged_of by done. by constructor.
  - rewrite decide_True, decide_False by done. cbn [fmap list_fmap app]. by constructor.
Qed.

Lemma hint_lists_sorted es : Forall hintable es -> sorted_hint (hint_head es ++ hint_run es).
Proof.
  intros Hes. rewrite Forall_forall in Hes. exists (hint_head es), (hint_run es). split_and!; [done| | |apply hint_run_sorted].
  - apply Forall_fmap, Forall_forall. intros [e off] [Hd Hp]%list_elem_of_filter. cbn in *. by destruct (de_type e).
  - apply Forall_fmap, Forall_forall. intros e He. rewrite merge_sort_Permutation in He. cbn.
    apply list_elem_of_fmap in He as (p & -> & [Hd Hp]%list_elem_of_filter). cbn.
    apply is_data_known; [|done]. apply (Hes p Hp).
Qed.

Section written_hints.
Context `{ZstdLaws} `{Crc32cLaws}.

(** The bytes of a hint that lists the committed entries [ces]. *)
Definition hint_lists (ces : list (DataEntry * Z)) (b : bytes) : Prop :=
  exists sc, OpenForRead b = Ok sc /\ scan_ok sc /\ (hs_entries sc).*2 = hint_head ces ++ hint_run ces.

Lemma staged_stageable es : Forall hintable es -> Forall stageable (merge_sort staged_le (staged_of <$> data_of es)).
Proof.
  intros Hes. apply Forall_forall. intros e He. rewrite merge_sort_Permutation in He.
  apply list_elem_of_fmap in He as (p & -> & [Hd Hp]%list_elem_of_filter).
  rewrite Forall_forall in Hes. destruct (Hes p Hp) as [[]]. split; cbn; try done. by apply is_data_known.
Qed.

(** The writer's own steps do not fail, and give such a hint. *)
Lemma hint_bytes es :
  Forall hintable es -> key_bytes es < 2 ^ 32 ->
  exists w w' b, stage_hints es OpenForWrite [] 0 = Ok (w, staged_of <$> data_of es)
    /\ append_staged (merge_sort staged_le (staged_of <$> data_of es)) w = Ok w'
    /\ hint_close w' = Ok b /\ hint_lists es b.
Proof.
  intros Hes Hk. destruct (stage_hints_spec es Hes) as (ps & P1 & P2 & P3).
  destruct (append_staged_spec _ (staged_stageable es Hes)) as (qs & Q1 & Q2 & Q3).
  destruct (hint_file_reads (ps ++ qs)) as (w' & b & sc & E & Hc & Ho & He & Hok); [by apply Forall_app|].
  rewrite fmap_app, add_entries_app in E. apply mbind_ok in E as (w & E1 & E2).
  exists w, w', b. rewrite P3, E1, Q3 by (done || lia). split_and!; [done..|].
  exists sc. split_and!; [done..|]. by rewrite He, fmap_app, P1, Q1.
Qed.

(** A hint is written whole or not at all, whatever calls fail. *)
Lemma flush_hints_for_spec f cut d :
  let od := match cut with Some _ => DamageStop | None => DamageThrow end in
  let ces := cs_entries (scan_committed f 0 od) in
  d_hints d !! path f = None -> Forall hintable ces -> key_bytes ces < 2 ^ 32 ->
  cs_error (scan_committed f 0 od) = None ->
  (forall c, cut = Some c -> forall d, d_hints (c (cs_offset (scan_committed f 0 od)) d).2 = d_hints d) ->
  exists r d', flush_hints_for f cut d = (r, d')
    /\ ((r <> Ok () /\ d_hints d' = d_hints d)
        \/ exists b, hint_lists ces b /\ d_hints d' = <[path f := b]> (d_hints d))
    /\ (cut = None -> (d_oracle d = [] -> r = Ok () /\ d_oracle d' = []) /\ d_data d' = d_data d /\ d_reads d' = d_reads d).
Proof.
  intros od ces Hno Hh Hk He Hcut. destruct (hint_bytes ces Hh Hk) as (w & w' & b & E1 & E2 & E3 & Hl).
  unfold flush_hints_for, gets, modify, lift, throw, mbind, io_bind, mret, io_ret. fold od. rewrite Hno, bool_decide_eq_false_2 by apply is_Some_None. cbv beta iota zeta.
  destruct (disk_call_cases "HintFile: cannot open for write" d) as ([[]|ex] & os & -> & Q0); cbv beta iota;
    [|eexists _, _; split; [done|]; split; [by left|naive_solver]].
  change (match cut with Some _ => DamageStop | None => DamageThrow end) with od. fold ces. rewrite E1. cbv beta iota. rewrite He. cbv beta iota.
  match goal with |- context [disk_call _ ?d0] => set (d1 := d0) end.
  assert (Hd1 : d_hints d1 = d_hints d /\ (d_oracle d = [] -> d_oracle d1 = []) /\ d_data d1 = d_data d
    /\ d_reads d1 = d_reads d) by (split_and!; [done|cbn; naive_solver|done..]).
  clearbody d1. clear os Q0. destruct Hd1 as (Hd1 & Q0 & Hda & Hre).
  destruct (disk_call_cases "HintFile::append" d1) as ([[]|ex] & os & -> & Q1); cbv beta iota;
    [|eexists _, _; split; [done|]; split; [by left|naive_solver]].
  assert (Hc : exists r2 d2, run_cut cut (path f) (cs_offset (scan_committed f 0 od)) (set_disk_oracle os d1) = (r2, d2)
    /\ d_hints d2 = d_hints d
    /\ (cut = None -> r2 = Ok () /\ d_oracle d2 = os /\ d_data d2 = d_data d /\ d_reads d2 = d_reads d)).
  { unfold run_cut. destruct cut as [c|]; [|by eexists _, _].
    specialize (Hcut c eq_refl (set_disk_oracle os d1)). unfold try_catch.
    destruct (c _ _) as [[[]|ex] d2]; cbn in *; eexists _, _; (split; [done|]); cbn; (split; [congruence|done]). }
  destruct Hc as (r2 & d2 & -> & Hd2 & Q2).
  destruct r2 as [[]|ex]; cbv beta iota; [|eexists _, _; split; [done|]; split; [by left|naive_solver]].
  rewrite E2. cbv beta iota. rewrite E3. cbv beta iota.
  destruct (disk_call_cases "HintFile::close" d2) as ([[]|ex] & os2 & -> & Q3); cbv beta iota;
    [|eexists _, _; split; [done|]; split; [by left|naive_solver]].
  destruct (disk_call_cases "rename" (set_disk_oracle os2 d2)) as ([[]|ex] & os3 & -> & Q4); cbv beta iota;
    [|eexists _, _; split; [done|]; split; [by left|naive_solver]].
  match goal with |- context [disk_call _ ?d0] => destruct (disk_call_cases "sync_directory" d0) as (r4 & os4 & -> & Q5) end.
  eexists _, _. split; [done|]. split; [right; exists b; split; [done|]; cbn; by rewrite Hd2|].
  cbn in Q4, Q5. naive_solver.
Qed.

(** A file that holds units, a batch that never ended and a tail that ends a
    sweep. *)
Record holds_units (f : DataFile) (us : list (list DataEntry)) : Prop := {
  hu_ok : file_ok f;
  hu_rest : exists rest tail, live f = images (concat us ++ rest) ++ tail /\ unended rest
              /\ Forall sweepable (concat us ++ rest) /\ ends_sweep DamageThrow tail = true
              /\ ends_sweep DamageStop tail = true;
  hu_units : Forall unit_of us;
  hu_hintable : Forall hintable (with_offsets 0 (concat us));
  hu_keys : key_bytes (with_offsets 0 (concat us)) < 2 ^ 32
}.

Lemma holds_units_scan f us od :
  holds_units f us ->
  cs_entries (scan_committed f 0 od) = with_offsets 0 (concat us) /\ cs_error (scan_committed f 0 od) = None.
Proof.
  intros [Hok (rest & tail & Hl & Hr & Hs & He1 & He2) Hu _ _].
  pose proof (scan_committed_eq f od us rest [] tail Hok) as E. change (size []) with 0 in E.
  rewrite E; try done. by destruct od.
Qed.

Lemma flush_hints_units f us d :
  holds_units f us -> d_hints d !! path f = None ->
  exists r d', flush_hints_for f None d = (r, d')
    /\ ((r <> Ok () /\ d_hints d' = d_hints d)
        \/ exists b, hint_lists (with_offsets 0 (concat us)) b /\ d_hints d' = <[path f := b]> (d_hints d))
    /\ (d_oracle d = [] -> r = Ok () /\ d_oracle d' = []) /\ d_data d' = d_data d /\ d_reads d' = d_reads d.
Proof.
  intros Hu Hno. destruct (holds_units_scan f us DamageThrow Hu) as [E1 E2]. destruct Hu as [_ _ _ Hh Hk].
  destruct (flush_hints_for_spec f None d) as (r & d' & E & Hor & Hq); try done; [by rewrite E1..|].
  exists r, d'. rewrite E1 in Hor. naive_solver.
Qed.

Lemma open_for_read_damage b e : OpenForRead b = Err e -> is_file_damage e = true.
Proof.
  assert (Hfu : forall fuel file end_ at_ p e, find_units fuel file end_ at_ p = Err e -> is_file_damage e = true).
  { induction fuel as [|fuel IH]; intros file end_ at_ p e'; cbn [find_units]; [done|].
    destruct (at_ <? end_)%nat; [|done]. destruct (window _ _ _ _ _) as [w p1].
    destruct (ZSTD_findFrameCompressedSize w); [|by intros [= <-]]. destruct (negb _); [by intros [= <-]|].
    destruct (find_units _ _ _ _ _) as [[us p2]|] eqn:E; cbn; [done|]. intros [= <-]. by eapply IH. }
  unfold OpenForRead. destruct (open_source b) as [src|x] eqn:E1; cbn [mbind result_bind]; [done|]. intros [= <-].
  unfold open_source in E1.
  apply throw_if_bind_err in E1 as [->|E1]; [done|]. destruct (window _ _ _ _ _) as [w p].
  do 3 (apply throw_if_bind_err in E1 as [->|E1]; [done|]).
  destruct (find_units _ _ _ _ _) as [[us p2]|x'] eqn:E2; cbn [mbind result_bind] in E1; [|injection E1 as <-; by eapply Hfu].
  apply throw_if_bind_err in E1 as [->|E1]; done.
Qed.

(** A hint that lists the committed entries, damaged in any way that does not
    open, or that a read fails on, is rebuilt. *)
Lemma open_hint_or_rebuild_lists f us b d :
  holds_units f us -> d_hints d !! path f = Some b -> d_oracle d = [] ->
  (d_reads d = [] \/ exists msg, d_reads d = [Some (ReadFails msg)]) ->
  (forall sc, OpenForRead b = Ok sc -> hint_lists (with_offsets 0 (concat us)) b) ->
  exists sc d', open_hint_or_rebuild f (path f) d = (Ok sc, d')
    /\ scan_ok sc /\ (hs_entries sc).*2 = hint_head (with_offsets 0 (concat us)) ++ hint_run (with_offsets 0 (concat us))
    /\ d_data d' = d_data d /\ d_oracle d' = [] /\ d_reads d' = []
    /\ (d_reads d = [] -> forall sc0, OpenForRead b = Ok sc0 -> sc = sc0 /\ d_hints d' = d_hints d)
    /\ exists b', hint_lists (with_offsets 0 (concat us)) b' /\ d_hints d' = <[path f := b']> (d_hints d).
Proof.
  intros Hu Hb Ho Hr Hgood.
  destruct (open_hint (path f) d) as [[sc|e] d1] eqn:E1.
  - assert (Hd1 : d_data d1 = d_data d /\ d_oracle d1 = [] /\ d_reads d1 = [] /\ d_hints d1 = d_hints d /\ OpenForRead b = Ok sc).
    { revert E1. unfold open_hint. rewrite Hb. destruct Hr as [-> |[msg ->]]; [|done]. intros [= <- <-]. done. }
    destruct Hd1 as (Hd1 & Ho1 & Hr1 & Hh1 & Hs). pose proof (Hgood sc Hs) as Hl. destruct Hl as (sc' & E' & Hok & Hes). rewrite Hs in E'. injection E' as <-.
    exists sc, d1. unfold open_hint_or_rebuild, try_catch. rewrite E1. split_and!; try done; [intros _ sc0 E0; split; [congruence|done]|].
    exists b. split; [by apply (Hgood sc)|]. by rewrite Hh1, insert_id.
  - assert (Hbad : d_reads d = [] -> forall sc0, OpenForRead b <> Ok sc0).
    { intros Er sc0 E0. revert E1. unfold open_hint. by rewrite Er, Hb, E0. }
    assert (He : is_file_damage e = true /\ d_reads d1 = [] /\ d_oracle d1 = [] /\ d_data d1 = d_data d /\ d_hints d1 = d_hints d).
    { revert E1. unfold open_hint. rewrite Hb. destruct Hr as [-> |[msg ->]]; intros [= Hx <-]; cbn.
      - split; [by apply (open_for_read_damage b)|done].
      - by subst e. }
    destruct He as (He & Hr1 & Ho1 & Hda1 & Hh1).
    unfold open_hint_or_rebuild, try_catch. rewrite E1, He. cbn [negb]. unfold mbind, io_bind, modify.
    destruct (disk_call_cases "remove" d1) as (r & os & -> & Hq). destruct (Hq Ho1) as [-> ->].
    destruct (flush_hints_units f us (set_hints (delete (path f) (d_hints (set_disk_oracle [] d1))) (set_disk_oracle [] d1)) Hu)
      as (r & d2 & E2 & Hor & Hq2 & Hda2 & Hre2); [by apply lookup_delete_eq|]. destruct (Hq2 eq_refl) as [-> Ho2].
    rewrite E2. destruct Hor as [[? _]|(b' & Hl & Hh)]; [done|]. pose proof Hl as (sc & Hs & Hok & Hes).
    exists sc. unfold open_hint. rewrite Hre2. cbn [d_reads set_hints set_disk_oracle]. rewrite Hr1, Hh, lookup_insert_eq, Hs.
    eexists. split; [done|]. split_and!; try done; [cbn; by rewrite Hda2|intros Er sc0 E0; by destruct (Hbad Er sc0)|]. exists b'. split; [done|]. cbn.
    rewrite Hh. cbn [set_hints d_hints set_disk_oracle]. by rewrite Hh1, insert_delete_eq.
Qed.

(** ** Properties *)

(** C28: the hint of a data file lists its committed entries.  Whatever
    system calls fail, [flush_hints_for] leaves no hint or one that opens and
    scans to exactly the entries of the file's committed units (none of an
    unfinished batch, nothing of the tail), in the shape recovery needs: range
    tombstones and keyless entries first, then Puts and Deletes in key order.
    It succeeds when no call fails. *)
Theorem flush_hints_for_lists f us d :
  holds_units f us -> d_hints d !! path f = None ->
  exists r d', flush_hints_for f None d = (r, d') /\ (d_oracle d = [] -> r = Ok ())
    /\ ((r <> Ok () /\ d_hints d' = d_hints d)
        \/ exists b sc, d_hints d' = <[path f := b]> (d_hints d) /\ OpenForRead b = Ok sc /\ scan_ok sc
             /\ (hs_entries sc).*2 ≡ₚ hint_of <$> with_offsets 0 (concat us) /\ sorted_hint (hs_entries sc).*2).
Proof.
  intros Hu Hno. destruct (flush_hints_units f us d Hu Hno) as (r & d' & E & Hor & Hq & _).
  exists r, d'. split_and!; [done|intros Ho; by apply (Hq Ho)|]. destruct Hor as [?|(b & (sc & Ho & Hok & Hes) & Hh)]; [by left|right].
  exists b, sc. rewrite Hes. split_and!; try done; [apply hint_lists_all|apply hint_lists_sorted]; apply Hu.
Qed.

(** C29: a damaged hint costs nothing.  When the hint of a file does not open,
    by any damage, or its read fails with EIO, [open_hint_or_rebuild] returns a
    scan of exactly the file's committed entries, rebuilt from the data file,
    as long as no other call fails.  A hint that opens is used as it is: the
    scan is the hint's own and no hint is written. *)
Theorem open_hint_or_rebuild_recovers f us b d :
  holds_units f us -> d_hints d !! path f = Some b -> d_oracle d = [] ->
  (d_reads d = [] \/ exists msg, d_reads d = [Some (ReadFails msg)]) ->
  (forall sc, OpenForRead b = Ok sc -> hint_lists (with_offsets 0 (concat us)) b) ->
  exists sc d', open_hint_or_rebuild f (path f) d = (Ok sc, d')
    /\ scan_ok sc /\ (hs_entries sc).*2 ≡ₚ hint_of <$> with_offsets 0 (concat us)
    /\ sorted_hint (hs_entries sc).*2 /\ d_data d' = d_data d
    /\ (d_reads d = [] -> forall sc0, OpenForRead b = Ok sc0 -> sc = sc0 /\ d_hints d' = d_hints d).
Proof.
  intros Hu Hb Ho Hr Hg. destruct (open_hint_or_rebuild_lists f us b d Hu Hb Ho Hr Hg) as (sc & d' & E & Hok & Hes & Hda & _ & _ & Hsame & _).
  exists sc, d'. rewrite Hes. split_and!; try done; [apply hint_lists_all|apply hint_lists_sorted]; apply Hu.
Qed.

End written_hints.

(** ** Witnesses *)

Section witnesses.
Import Castagnoli Stored ScanFixture.

Lemma file_holds_units : holds_units file [[put_a]; batch].
Proof.
  split; [apply file_is_ok| | | |by vm_compute].
  - exists open_batch, (replicate 4 x00). split_and!; [by vm_compute|by repeat constructor|apply entries_sweepable|by vm_compute..].
  - apply Forall_cons_2; [by constructor|]. apply Forall_cons_2; [|constructor].
    apply (unit_batch (entry 2 BulkBegin [] []) [entry 3 Put [x62] [x03]; entry 4 Delete [x61] []]); [done..|].
    by repeat constructor.
  - repeat constructor; by vm_compute.
Defined.

Definition disk0 : Disk := mkDisk ∅ ∅ ∅ ∅ [Done; Fails 0] [].
Definition torn_disk : Disk := mkDisk ∅ {[ "000001.data" := [x00; x01] ]} ∅ ∅ [] [].

Lemma flush_hints_for_lists_witness :
  exists r d', flush_hints_for file None disk0 = (r, d') /\ (d_oracle disk0 = [] -> r = Ok ())
    /\ ((r <> Ok () /\ d_hints d' = d_hints disk0)
        \/ exists b sc, d_hints d' = <[path file := b]> (d_hints disk0) /\ OpenForRead b = Ok sc /\ scan_ok sc
             /\ (hs_entries sc).*2 ≡ₚ hint_of <$> with_offsets 0 (concat [[put_a]; batch])
             /\ sorted_hint (hs_entries sc).*2).
Proof. apply (flush_hints_for_lists file [[put_a]; batch] disk0 file_holds_units). by vm_compute. Defined.

Lemma open_hint_or_rebuild_recovers_witness :
  exists sc d', open_hint_or_rebuild file "000001.data" torn_disk = (Ok sc, d')
    /\ scan_ok sc /\ (hs_entries sc).*2 ≡ₚ hint_of <$> with_offsets 0 (concat [[put_a]; batch])
    /\ sorted_hint (hs_entries sc).*2 /\ d_data d' = d_data torn_disk
    /\ (d_reads torn_disk = [] -> forall sc0, OpenForRead [x00; x01] = Ok sc0 -> sc = sc0 /\ d_hints d' = d_hints torn_disk).
Proof.
  apply (open_hint_or_rebuild_recovers file [[put_a]; batch] [x00; x01] torn_disk file_holds_units);
    [by vm_compute|done|by left|]. intros sc E. exfalso. revert E. by vm_compute.
Defined.
End witnesses.
