(* ===== verification/EngineState.v ===== *)
(** * Engine state transitions

    Models [EngineState] ([internals.cppm]), [WritePlan] ([bytecask.cppm]) and
    [TransientEngineState] ([engine_state.cpp]): the mutable working copy on
    which the write path applies a plan, ingests replicated entries, replays
    a resumed file, remaps a vacuumed file, rotates, and which it then freezes.

    The per-file statistics are a plain map with the deltas of
    [FileStatsPolicy]; [PatchMap] shows that the patch map the engine keeps
    them in reads as that map.  A transition that can throw returns a
    [result]. *)

From S2P Require Import Prelude Codec KeyDir DataFile.
Import Types Stats Dir.

(** ** State *)

Record EngineState : Type := mkEngineState {
  key_dir : KeyDirTree;
  files : gmap Z FileRef;
  file_stats : gmap Z FileStats;
  active_file_id : Z;
  next_file_id : Z;
  next_seq : Z;
  durable_seq : Z;
  sync_requested_seq : Z;
  mode : Mode;
  degraded : bool;
  degraded_reason : string;
  closed : bool;
  change_markers : option (list ChangeMarker)
}.

(** [EngineState{}]: the member initialisers. *)
Definition EngineState_init : EngineState :=
  mkEngineState ∅ ∅ ∅ 0 0 1 0 0 Leader false "" false None.

Definition state_marker_at (s : EngineState) (sequence : Z) : ChangeMarker :=
  marker_at (change_markers s) sequence.

Definition is_write_allowed (s : EngineState) : bool :=
  bool_decide (mode s = Leader) && negb (degraded s) && negb (closed s).

Definition is_ingestion_allowed (s : EngineState) : bool :=
  bool_decide (mode s = Follower) && negb (degraded s) && negb (closed s).

Definition degraded_copy (s : EngineState) (reason : string) : EngineState :=
  mkEngineState (key_dir s) (files s) (file_stats s) (active_file_id s) (next_file_id s)
    (next_seq s) (durable_seq s) (sync_requested_seq s) (mode s) true reason (closed s)
    (change_markers s).

(** Sequences, mode and reason are kept; files, key directory and markers
    are not. *)
Definition closed_copy (s : EngineState) : EngineState :=
  mkEngineState ∅ ∅ ∅ (active_file_id s) (next_file_id s) (next_seq s) (durable_seq s)
    (sync_requested_seq s) (mode s) (degraded s) (degraded_reason s) true None.

(** [PendingRecord]: a put placed in the active file but not written yet. *)
Record PendingRecord : Type := mkPending {
  pr_sequence : Z;
  pr_value_size : Z;
  pr_key : bytes
}.

Definition pending_slot (file_id offset : Z) : Z :=
  Z.lor (wrap 64 (Z.shiftl file_id 32)) offset.

(** The working copy.  It carries no [closed] flag. *)
Record TransientEngineState : Type := mkTransientState {
  t_key_dir : KeyDirTree;
  t_files : gmap Z FileRef;
  t_pending : gmap Z PendingRecord;
  t_file_stats : gmap Z FileStats;
  t_active_file_id : Z;
  t_next_file_id : Z;
  t_next_seq : Z;
  t_durable_seq : Z;
  t_sync_requested_seq : Z;
  t_mode : Mode;
  t_degraded : bool;
  t_degraded_reason : string;
  t_change_markers : option (list ChangeMarker)
}.

Definition transient (s : EngineState) : TransientEngineState :=
  mkTransientState (key_dir s) (files s) ∅ (file_stats s) (active_file_id s)
    (next_file_id s) (next_seq s) (durable_seq s) (sync_requested_seq s) (mode s)
    (degraded s) (degraded_reason s) (change_markers s).

Definition persistent (t : TransientEngineState) : EngineState :=
  mkEngineState (t_key_dir t) (t_files t) (t_file_stats t) (t_active_file_id t)
    (t_next_file_id t) (t_next_seq t) (t_durable_seq t) (t_sync_requested_seq t)
    (t_mode t) (t_degraded t) (t_degraded_reason t) false (t_change_markers t).

(** Assignments to one member. *)
Definition set_key_dir (x : KeyDirTree) (t : TransientEngineState) :=
  mkTransientState x (t_files t) (t_pending t) (t_file_stats t) (t_active_file_id t)
    (t_next_file_id t) (t_next_seq t) (t_durable_seq t) (t_sync_requested_seq t)
    (t_mode t) (t_degraded t) (t_degraded_reason t) (t_change_markers t).
Definition set_files (x : gmap Z FileRef) (t : TransientEngineState) :=
  mkTransientState (t_key_dir t) x (t_pending t) (t_file_stats t) (t_active_file_id t)
    (t_next_file_id t) (t_next_seq t) (t_durable_seq t) (t_sync_requested_seq t)
    (t_mode t) (t_degraded t) (t_degraded_reason t) (t_change_markers t).
Definition set_pending (x : gmap Z PendingRecord) (t : TransientEngineState) :=
  mkTransientState (t_key_dir t) (t_files t) x (t_file_stats t) (t_active_file_id t)
    (t_next_file_id t) (t_next_seq t) (t_durable_seq t) (t_sync_requested_seq t)
    (t_mode t) (t_degraded t) (t_degraded_reason t) (t_change_markers t).
Definition set_file_stats (x : gmap Z FileStats) (t : TransientEngineState) :=
  mkTransientState (t_key_dir t) (t_files t) (t_pending t) x (t_active_file_id t)
    (t_next_file_id t) (t_next_seq t) (t_durable_seq t) (t_sync_requested_seq t)
    (t_mode t) (t_degraded t) (t_degraded_reason t) (t_change_markers t).
Definition set_active_file_id (x : Z) (t : TransientEngineState) :=
  mkTransientState (t_key_dir t) (t_files t) (t_pending t) (t_file_stats t) x
    (t_next_file_id t) (t_next_seq t) (t_durable_seq t) (t_sync_requested_seq t)
    (t_mode t) (t_degraded t) (t_degraded_reason t) (t_change_markers t).
Definition set_next_file_id (x : Z) (t : TransientEngineState) :=
  mkTransientState (t_key_dir t) (t_files t) (t_pending t) (t_file_stats t)
    (t_active_file_id t) x (t_next_seq t) (t_durable_seq t) (t_sync_requested_seq t)
    (t_mode t) (t_degraded t) (t_degraded_reason t) (t_change_markers t).
Definition set_next_seq (x : Z) (t : TransientEngineState) :=
  mkTransientState (t_key_dir t) (t_files t) (t_pending t) (t_file_stats t)
    (t_active_file_id t) (t_next_file_id t) x (t_durable_seq t) (t_sync_requested_seq t)
    (t_mode t) (t_degraded t) (t_degraded_reason t) (t_change_markers t).
Definition set_durable_seq (x : Z) (t : TransientEngineState) :=
  mkTransientState (t_key_dir t) (t_files t) (t_pending t) (t_file_stats t)
    (t_active_file_id t) (t_next_file_id t) (t_next_seq t) x (t_sync_requested_seq t)
    (t_mode t) (t_degraded t) (t_degraded_reason t) (t_change_markers t).
Definition set_sync_requested_seq (x : Z) (t : TransientEngineState) :=
  mkTransientState (t_key_dir t) (t_files t) (t_pending t) (t_file_stats t)
    (t_active_file_id t) (t_next_file_id t) (t_next_seq t) (t_durable_seq t) x
    (t_mode t) (t_degraded t) (t_degraded_reason t) (t_change_markers t).
Definition set_change_markers (x : option (list ChangeMarker)) (t : TransientEngineState) :=
  mkTransientState (t_key_dir t) (t_files t) (t_pending t) (t_file_stats t)
    (t_active_file_id t) (t_next_file_id t) (t_next_seq t) (t_durable_seq t)
    (t_sync_requested_seq t) (t_mode t) (t_degraded t) (t_degraded_reason t) x.
Definition apply_set_mode (x : Mode) (t : TransientEngineState) :=
  mkTransientState (t_key_dir t) (t_files t) (t_pending t) (t_file_stats t)
    (t_active_file_id t) (t_next_file_id t) (t_next_seq t) (t_durable_seq t)
    (t_sync_requested_seq t) x (t_degraded t) (t_degraded_reason t) (t_change_markers t).
Definition set_degraded (x : bool) (reason : string) (t : TransientEngineState) :=
  mkTransientState (t_key_dir t) (t_files t) (t_pending t) (t_file_stats t)
    (t_active_file_id t) (t_next_file_id t) (t_next_seq t) (t_durable_seq t)
    (t_sync_requested_seq t) (t_mode t) x reason (t_change_markers t).
Definition apply_degrade (reason : string) := set_degraded true reason.
Definition apply_clear_degraded := set_degraded false "".

(** [file_stats_.patch(id, delta)]: a delta to an absent file is a no-op. *)
Definition patch_stats (id : Z) (d : FileStatsDelta) (t : TransientEngineState) :=
  set_file_stats (alter (fun fs => apply fs d) id (t_file_stats t)) t.

(** ** Write plans *)

Module Plan.

Inductive Precondition : Type := PNone | MustExist | MustBeAbsent | MustBeUnchanged.

#[export] Instance Precondition_eq_dec : EqDecision Precondition.
Proof. solve_decision. Defined.

Inductive WriteOp : Type :=
| PointPut (key value : bytes)
| PointDel (key : bytes)
| OpRangeDel (from to : bytes).

Record SizeLimits : Type := mkLimits { max_key_bytes : Z; max_value_bytes : Z }.

Record WritePlan : Type := mkPlan {
  snap : option EngineState;
  limits : SizeLimits;
  writes : list WriteOp;
  guards : list (bytes * Precondition);  (* std::map: in key order *)
  range_guards : list (bytes * bytes);
  snap_entries : list (option KeyDirEntry)
}.

Definition empty_plan (s : option EngineState) (l : SizeLimits) : WritePlan :=
  mkPlan s l [] [] [] [].

Definition check_key_size (size limit : Z) : result unit :=
  throw_if (limit <? size) (InvalidArgument "key size exceeds limit").
Definition check_value_size (size limit : Z) : result unit :=
  throw_if (limit <? size) (InvalidArgument "value size exceeds limit").
Definition check_range (from to : bytes) : result unit :=
  throw_if (negb (key_ltb from to))
    (InvalidArgument "range [from, to) is empty: from must sort before to").

Definition add_write (p : WritePlan) (w : WriteOp) : WritePlan :=
  mkPlan (snap p) (limits p) (writes p ++ [w]) (guards p) (range_guards p) (snap_entries p).

Definition put (p : WritePlan) (key value : bytes) : result WritePlan :=
  _ ← check_key_size (size key) (max_key_bytes (limits p));
  _ ← check_value_size (size value) (max_value_bytes (limits p));
  Ok (add_write p (PointPut key value)).

Definition del (p : WritePlan) (key : bytes) : result WritePlan :=
  _ ← check_key_size (size key) (max_key_bytes (limits p));
  Ok (add_write p (PointDel key)).

Definition del_range (p : WritePlan) (from to : bytes) : result WritePlan :=
  _ ← check_key_size (size from) (max_key_bytes (limits p));
  _ ← check_key_size (size to) (max_key_bytes (limits p));
  _ ← check_range from to;
  Ok (add_write p (OpRangeDel from to)).

(** [guards_[key]] of a [std::map], then the assignment. *)
Fixpoint set_precondition_in (gs : list (bytes * Precondition)) (key : bytes)
    (pre : Precondition) : result (list (bytes * Precondition)) :=
  match gs with
  | [] => Ok [(key, pre)]
  | (k, g) :: gs' =>
      match key_compare key k with
      | Lt => Ok ((key, pre) :: gs)
      | Eq => if bool_decide (g <> PNone) && bool_decide (g <> pre)
              then Err (LogicError "WritePlan: contradictory guards on same key")
              else Ok ((k, pre) :: gs')
      | Gt => gs'' ← set_precondition_in gs' key pre; Ok ((k, g) :: gs'')
      end
  end.

Definition set_precondition (p : WritePlan) (key : bytes) (pre : Precondition)
    : result WritePlan :=
  gs ← set_precondition_in (guards p) key pre;
  Ok (mkPlan (snap p) (limits p) (writes p) gs (range_guards p) (snap_entries p)).

Definition ensure_present (p : WritePlan) (key : bytes) : result WritePlan :=
  _ ← check_key_size (size key) (max_key_bytes (limits p));
  set_precondition p key MustExist.

Definition ensure_absent (p : WritePlan) (key : bytes) : result WritePlan :=
  _ ← check_key_size (size key) (max_key_bytes (limits p));
  set_precondition p key MustBeAbsent.

Definition ensure_unchanged (p : WritePlan) (key : bytes) : result WritePlan :=
  _ ← check_key_size (size key) (max_key_bytes (limits p));
  _ ← throw_if (bool_decide (snap p = None))
        (LogicError "WritePlan::ensure_unchanged requires a snapshot");
  set_precondition p key MustBeUnchanged.

Definition ensure_range_unchanged (p : WritePlan) (from to : bytes) : result WritePlan :=
  _ ← check_key_size (size from) (max_key_bytes (limits p));
  _ ← check_key_size (size to) (max_key_bytes (limits p));
  _ ← check_range from to;
  _ ← throw_if (bool_decide (snap p = None))
        (LogicError "WritePlan::ensure_range_unchanged requires a snapshot");
  Ok (mkPlan (snap p) (limits p) (writes p) (guards p) (range_guards p ++ [(from, to)])
        (snap_entries p)).

Definition is_empty (p : WritePlan) : bool :=
  match writes p, guards p, range_guards p with [], [], [] => true | _, _, _ => false end.

Definition write_count (p : WritePlan) : nat := length (writes p).

Definition op_bytes (w : WriteOp) : Z :=
  match w with
  | PointPut k v => entry_size (size k) (size v)
  | PointDel k => entry_size (size k) 0
  | OpRangeDel f t => entry_size (size f) (size t)
  end.

Definition write_bytes (p : WritePlan) : Z :=
  let bytes := foldl (fun acc w => u64_add acc (op_bytes w)) 0 (writes p) in
  if (1 <? length (writes p))%nat
  then u64_add bytes (2 * (Z.of_nat DataEntry.kHeaderSize + Z.of_nat DataEntry.kCrcSize))
  else bytes.

(** The snapshot's entry of each point write's key. *)
Definition resolve_snapshot_entries (p : WritePlan) : WritePlan :=
  match snap p with
  | None => p
  | Some s =>
      mkPlan (snap p) (limits p) (writes p) (guards p) (range_guards p)
        ((fun w => match w with
                   | PointPut k _ | PointDel k => kd_get (key_dir s) k
                   | OpRangeDel _ _ => None
                   end) <$> writes p)
  end.

(** The key directory a plan's snapshot reads; a plan without one has no use
    for it (the builders refuse the guards that would). *)
Definition snap_dir (p : WritePlan) : KeyDirTree :=
  match snap p with Some s => key_dir s | None => ∅ end.

Definition snapshot_entry (p : WritePlan) (i : nat) (key : bytes) : option KeyDirEntry :=
  match snap_entries p !! i with
  | Some e => e
  | None => kd_get (snap_dir p) key
  end.

Definition resolved_entry (p : WritePlan) (i : nat) : option KeyDirEntry :=
  match snap_entries p !! i with Some e => e | None => None end.

End Plan.
Import Plan.

(** ** Markers *)

Definition append_marker (m : ChangeMarker) (t : TransientEngineState)
    : TransientEngineState :=
  set_change_markers (Some (default [] (t_change_markers t) ++ [m])) t.

Definition apply_change_marker (sequence id : Z) (t : TransientEngineState)
    : TransientEngineState :=
  let sz := change_marker_size EChangeMarker in
  let t := patch_stats (t_active_file_id t)
             (mkDelta 0 0 sz 0 0 sz sequence sequence) t in
  let t := if t_next_seq t <=? sequence then set_next_seq (u64_add sequence 1) t else t in
  append_marker (mkChangeMarker sequence id) t.

(** ** Preconditions *)

Section transitions.
Context `{KeyDirKind}.

Definition head_latest (t : TransientEngineState) : Z := u64_sub (t_next_seq t) 1.

Definition read_seq (t : TransientEngineState) (cur : option KeyDirEntry) : Z :=
  match cur with Some e => KeyDirEntry.sequence e | None => head_latest t end.

Definition seq_or_0 (e : option KeyDirEntry) : Z :=
  match e with Some e => KeyDirEntry.sequence e | None => 0 end.

(** What a check found: the plan lost to [rests_on], or held so far. *)
Inductive CheckOutcome : Type := Lost (rests_on : Z) | Held (held_on : Z).

Fixpoint check_guards (t : TransientEngineState) (sd : KeyDirTree)
    (gs : list (bytes * Precondition)) (held_on : Z) : CheckOutcome :=
  match gs with
  | [] => Held held_on
  | (key, pre) :: gs' =>
      let cur := kd_get (t_key_dir t) key in
      match pre with
      | MustExist =>
          match cur with
          | None => Lost (read_seq t None)
          | Some _ => check_guards t sd gs' (Z.max held_on (read_seq t cur))
          end
      | MustBeAbsent =>
          match cur with
          | Some _ => Lost (read_seq t cur)
          | None => check_guards t sd gs' (Z.max held_on (read_seq t cur))
          end
      | MustBeUnchanged =>
          if seq_or_0 cur =? seq_or_0 (kd_get sd key)
          then check_guards t sd gs' (Z.max held_on (read_seq t cur))
          else Lost (read_seq t cur)
      | PNone => check_guards t sd gs' held_on
      end
  end.

(** The first key of the head's range whose sequence the snapshot does not
    hold, then the first key of the snapshot's range the head lacks. *)
Fixpoint changed_in_head (sd : KeyDirTree) (l : list (bytes * KeyDirEntry)) : option Z :=
  match l with
  | [] => None
  | (k, e) :: l' =>
      if KeyDirEntry.sequence e =? seq_or_0 (kd_get sd k) then changed_in_head sd l'
      else Some (KeyDirEntry.sequence e)
  end.

Definition deleted_in_head (kd : KeyDirTree) (l : list (bytes * KeyDirEntry)) : bool :=
  existsb (fun p => negb (kd_contains kd p.1)) l.

Definition range_changed (t : TransientEngineState) (sd : KeyDirTree) (from to : bytes)
    : option Z :=
  match changed_in_head sd (kd_range (t_key_dir t) from to) with
  | Some r => Some r
  | None => if deleted_in_head (t_key_dir t) (kd_range sd from to)
            then Some (head_latest t) else None
  end.

Fixpoint check_range_guards (t : TransientEngineState) (sd : KeyDirTree)
    (rgs : list (bytes * bytes)) (held_on : Z) : CheckOutcome :=
  match rgs with
  | [] => Held held_on
  | (from, to) :: rgs' =>
      match range_changed t sd from to with
      | Some r => Lost r
      | None => check_range_guards t sd rgs' (head_latest t)
      end
  end.

(** The write-write check of one point write: the head is asked by location
    first. *)
Definition point_conflict (t : TransientEngineState) (p : WritePlan) (i : nat) (key : bytes)
    : option Z :=
  let snap_entry := snapshot_entry p i key in
  if match snap_entry with Some e => kd_holds (t_key_dir t) key e | None => false end
  then None
  else
    let cur := kd_get (t_key_dir t) key in
    let conflict :=
      match snap_entry, cur with
      | None, Some _ => true                                  (* appeared *)
      | Some _, None => true                                  (* deleted *)
      | Some s, Some c => negb (KeyDirEntry.sequence c =? KeyDirEntry.sequence s)
      | None, None => false
      end in
    if conflict then Some (read_seq t cur) else None.

Definition write_conflict (t : TransientEngineState) (p : WritePlan) (i : nat) (w : WriteOp)
    : option Z :=
  match w with
  | PointPut k _ | PointDel k => point_conflict t p i k
  | OpRangeDel from to => range_changed t (snap_dir p) from to
  end.

Fixpoint check_writes (t : TransientEngineState) (p : WritePlan) (i : nat)
    (ws : list WriteOp) : option Z :=
  match ws with
  | [] => None
  | w :: ws' =>
      match write_conflict t p i w with
      | Some r => Some r
      | None => check_writes t p (S i) ws'
      end
  end.

(** The boolean result and [rests_on]. *)
Definition validate_preconditions (t : TransientEngineState) (p : WritePlan)
    (defer_puts : bool) : bool * Z :=
  match check_guards t (snap_dir p) (guards p) 0 with
  | Lost r => (false, r)
  | Held h =>
      match check_range_guards t (snap_dir p) (range_guards p) h with
      | Lost r => (false, r)
      | Held h =>
          match snap p with
          | Some _ =>
              if defer_puts then (true, h)
              else match check_writes t p 0 (writes p) with
                   | Some r => (false, r)
                   | None => (true, h)
                   end
          | None => (true, h)
          end
      end
  end.

(** ** Entries of a plan *)

Definition op_entry (seq : Z) (w : WriteOp) : DataEntry :=
  match w with
  | PointPut k v => mkDataEntry seq Put k v
  | PointDel k => mkDataEntry seq Delete k []
  | OpRangeDel f t => mkDataEntry seq RangeDel f t
  end.

Fixpoint op_entries (seq : Z) (ws : list WriteOp) : list DataEntry * Z :=
  match ws with
  | [] => ([], seq)
  | w :: ws' => let '(es, seq') := op_entries (u64_add seq 1) ws' in (op_entry seq w :: es, seq')
  end.

Definition prepare_write (t : TransientEngineState) (p : WritePlan) : list DataEntry :=
  let wc := write_count p in
  if (wc =? 0)%nat then []
  else
    let multi := (1 <? wc)%nat in
    let seq := t_next_seq t in
    let '(first, seq) := if multi then ([mkDataEntry seq BulkBegin [] []], u64_add seq 1)
                         else ([], seq) in
    let '(body, seq) := op_entries seq (writes p) in
    first ++ body ++ (if multi then [mkDataEntry seq BulkEnd [] []] else []).

(** ** Applying a plan *)

(** A no-op for a key directory that stores its keys. *)
Definition note_pending (offset sequence : Z) (key : bytes) (value_size : Z)
    (t : TransientEngineState) : TransientEngineState :=
  if kKeyDirReadsKeys
  then set_pending (<[pending_slot (t_active_file_id t) offset :=
                        mkPending sequence value_size key]> (t_pending t)) t
  else t.

(** [if (existing) patch(existing->file_id(), {.live_removed = ...})]. *)
Definition remove_live (key : bytes) (existing : option KeyDirEntry)
    (t : TransientEngineState) : TransientEngineState :=
  match existing with
  | Some e => patch_stats (KeyDirEntry.file_id e)
                (d_live_removed (entry_size (size key) (KeyDirEntry.value_size e))) t
  | None => t
  end.

Definition advance_seq (t : TransientEngineState) : TransientEngineState :=
  set_next_seq (u64_add (t_next_seq t) 1) t.

(** An update of a key still at the resolved record goes by that location;
    anything else is placed by key. *)
Definition place (kd : KeyDirTree) (key : bytes) (at_ : option KeyDirEntry) (e : KeyDirEntry)
    : option KeyDirEntry * KeyDirTree :=
  match at_ with
  | Some a => match kd_put_at kd key a e with
              | Some kd' => (Some (kd_hit a), kd')
              | None => kd_put kd key e
              end
  | None => kd_put kd key e
  end.

Definition displace (kd : KeyDirTree) (key : bytes) (at_ : option KeyDirEntry)
    : option KeyDirEntry * KeyDirTree :=
  match at_ with
  | Some a => match kd_erase_at kd key a with
              | Some kd' => (Some (kd_hit a), kd')
              | None => kd_erase kd key
              end
  | None => kd_erase kd key
  end.

Definition apply_put (key value : bytes) (at_ : option KeyDirEntry) (offset : Z)
    (t : TransientEngineState) : result TransientEngineState :=
  val_size ← Serialization.narrow 32 (size value);
  let t := note_pending offset (t_next_seq t) key val_size t in
  entry ← KeyDirEntry.make (t_next_seq t) offset (t_active_file_id t) val_size;
  let '(existing, kd) := place (t_key_dir t) key at_ entry in
  let t := remove_live key existing (set_key_dir kd t) in
  let sz := entry_size (size key) val_size in
  let t := patch_stats (t_active_file_id t) (d_put sz) t in
  Ok (advance_seq t).

Definition apply_del (key : bytes) (at_ : option KeyDirEntry) (t : TransientEngineState)
    : TransientEngineState :=
  let '(existing, kd) := displace (t_key_dir t) key at_ in
  let t := remove_live key existing (set_key_dir kd t) in
  let del_sz := entry_size (size key) 0 in
  advance_seq (patch_stats (t_active_file_id t) (d_tombstone del_sz) t).

(** Takes the live bytes of the collected entries from their files. *)
Definition remove_live_all (l : list (bytes * KeyDirEntry)) (t : TransientEngineState)
    : TransientEngineState :=
  foldl (fun t p => remove_live p.1 (Some p.2) t) t l.

(** Collects the keys of [from, to), then erases them. *)
Definition erase_range (from to : bytes) (t : TransientEngineState) : TransientEngineState :=
  let l := kd_range (t_key_dir t) from to in
  let t := remove_live_all l t in
  set_key_dir (erase_keys (t_key_dir t) l.*1) t.

Definition apply_range_del (from to : bytes) (t : TransientEngineState)
    : TransientEngineState :=
  let t := erase_range from to t in
  let rd_sz := entry_size (size from) (size to) in
  advance_seq (patch_stats (t_active_file_id t) (d_tombstone rd_sz) t).

Definition apply_op (w : WriteOp) (at_ : option KeyDirEntry) (offset : Z)
    (t : TransientEngineState) : result TransientEngineState :=
  match w with
  | PointPut k v => apply_put k v at_ offset t
  | PointDel k => Ok (apply_del k at_ t)
  | OpRangeDel f to => Ok (apply_range_del f to t)
  end.

(** The loop over the writes, [offsets] from [io_idx] on. *)
Fixpoint apply_ops (p : WritePlan) (w_idx : nat) (ws : list WriteOp) (offsets : list Z)
    (t : TransientEngineState) : result TransientEngineState :=
  match ws with
  | [] => Ok t
  | w :: ws' =>
      t' ← apply_op w (resolved_entry p w_idx) (hd 0 offsets) t;
      apply_ops p (S w_idx) ws' (tl offsets) t'
  end.

(** A [BulkBegin] or [BulkEnd] of the active file. *)
Definition apply_marker (t : TransientEngineState) : TransientEngineState :=
  advance_seq (patch_stats (t_active_file_id t) (d_marker (marker_size BulkBegin)) t).

Definition apply_writes (p : WritePlan) (offsets : list Z) (t : TransientEngineState)
    : result TransientEngineState :=
  let multi := (1 <? write_count p)%nat in
  let batch_start_seq := t_next_seq t in
  let '(t, offsets) := if multi then (apply_marker t, tl offsets) else (t, offsets) in
  t ← apply_ops p 0 (writes p) offsets t;
  let t := if multi then apply_marker t else t in
  Ok (patch_stats (t_active_file_id t)
        (d_sequences batch_start_seq (u64_sub (t_next_seq t) 1)) t).

(** ** Puts checked by the descents that apply them *)

Definition is_point_put (w : WriteOp) : bool :=
  match w with PointPut _ _ => true | _ => false end.

Definition can_apply_puts_checked (p : WritePlan) : bool :=
  kKeyDirReadsKeys &&
  bool_decide (is_Some (snap p)) && negb (bool_decide (writes p = [])) &&
  (length (snap_entries p) =? length (writes p))%nat &&
  forallb is_point_put (writes p).

Record Undo : Type := mkUndo {
  u_key : bytes;
  u_now : KeyDirEntry;            (* where the plan put the key *)
  u_was : option KeyDirEntry      (* what it replaced; none for an insert *)
}.

(** Takes back one change by location. *)
Definition undo_one (kd : KeyDirTree) (u : Undo) : result KeyDirTree :=
  match (match u_was u with
         | Some was => kd_restore kd (u_key u) (u_now u) was
         | None => kd_remove kd (u_key u) (u_now u)
         end) with
  | Some kd' => Ok kd'
  | None => Err (LogicError "apply_puts_checked: undo found a key moved from where the plan put it")
  end.

(** [undo] is newest first. *)
Fixpoint undo_all (kd : KeyDirTree) (undo : list Undo) : result KeyDirTree :=
  match undo with
  | [] => Ok kd
  | u :: undo' => kd' ← undo_one kd u; undo_all kd' undo'
  end.

(** Takes back every change, the pending records placed so far ([noted], the
    failed put's included) and the sequences. *)
Definition abandon (first_seq : Z) (noted : list Z) (undo : list Undo)
    (t : TransientEngineState) : result (bool * TransientEngineState) :=
  kd ← undo_all (t_key_dir t) undo;
  let pending := foldl (fun pd off => delete (pending_slot (t_active_file_id t) off) pd)
                       (t_pending t) noted in
  Ok (false, set_next_seq first_seq (set_pending pending (set_key_dir kd t))).

(** The statistics of a confirmed plan, as [apply_writes] would leave them. *)
Definition record_checked (multi : bool) (first_seq put_bytes : Z) (undo : list Undo)
    (t : TransientEngineState) : TransientEngineState :=
  let markers := if multi then 2 * marker_size BulkBegin else 0 in
  let t := patch_stats (t_active_file_id t)
             (mkDelta put_bytes 0 (u64_add put_bytes markers) 0 markers 0
                first_seq (u64_sub (t_next_seq t) 1)) t in
  foldl (fun t u => remove_live (u_key u) (u_was u) t) t undo.

Fixpoint puts_checked_loop (p : WritePlan) (first_seq : Z) (w_idx : nat) (ws : list WriteOp)
    (offsets noted : list Z) (undo : list Undo) (put_bytes : Z) (t : TransientEngineState)
    : result (bool * TransientEngineState) :=
  match ws with
  | [] =>
      let multi := (1 <? write_count p)%nat in
      let t := if multi then advance_seq t else t in
      Ok (true, record_checked multi first_seq put_bytes (rev undo) t)
  | w :: ws' =>
      '(key, value) ← (match w with
                       | PointPut k v => Ok (k, v)
                       | _ => Err (LogicError "bad_variant_access")   (* std::get *)
                       end);
      let offset := hd 0 offsets in
      val_size ← Serialization.narrow 32 (size value);
      let t := note_pending offset (t_next_seq t) key val_size t in
      entry ← KeyDirEntry.make (t_next_seq t) offset (t_active_file_id t) val_size;
      let next undo' kd' :=
        puts_checked_loop p first_seq (S w_idx) ws' (tl offsets) (noted ++ [offset]) undo'
          (u64_add put_bytes (entry_size (size key) val_size))
          (advance_seq (set_key_dir kd' t)) in
      match resolved_entry p w_idx with
      | Some at_ =>
          match kd_put_at (t_key_dir t) key at_ entry with
          | None => abandon first_seq (noted ++ [offset]) undo t
          | Some kd' => next (mkUndo key entry (Some (kd_hit at_)) :: undo) kd'
          end
      | None =>
          let '(was, kd') := kd_put (t_key_dir t) key entry in
          let undo' := mkUndo key entry was :: undo in
          match was with
          | Some _ => abandon first_seq (noted ++ [offset]) undo' (set_key_dir kd' t)
          | None => next undo' kd'
          end
      end
  end.

Definition apply_puts_checked (p : WritePlan) (offsets : list Z) (t : TransientEngineState)
    : result (bool * TransientEngineState) :=
  let multi := (1 <? write_count p)%nat in
  let first_seq := t_next_seq t in
  let '(t, offsets) := if multi then (advance_seq t, tl offsets) else (t, offsets) in
  puts_checked_loop p first_seq 0 (writes p) offsets [] [] 0 t.

(** ** Ingest *)

(** One replicated entry at [offset] of the active file. *)
Definition ingest_one (e : DataEntry) (offset : Z) (t : TransientEngineState)
    : result TransientEngineState :=
  match de_type e with
  | BulkBegin | BulkEnd =>
      Ok (patch_stats (t_active_file_id t) (d_marker (marker_size (de_type e))) t)
  | EChangeMarker =>
      let t := patch_stats (t_active_file_id t)
                 (d_change_marker (change_marker_size (de_type e))) t in
      Ok (append_marker (mkChangeMarker (de_sequence e) (decode_marker_id (de_value e))) t)
  | Put =>
      val_size ← Serialization.narrow 32 (size (de_value e));
      let t := note_pending offset (de_sequence e) (de_key e) val_size t in
      entry ← KeyDirEntry.make (de_sequence e) offset (t_active_file_id t) val_size;
      let '(existing, kd) := kd_put (t_key_dir t) (de_key e) entry in
      let t := remove_live (de_key e) existing (set_key_dir kd t) in
      Ok (patch_stats (t_active_file_id t) (d_put (entry_size (size (de_key e)) val_size)) t)
  | Delete =>
      let '(existing, kd) := kd_erase (t_key_dir t) (de_key e) in
      let t := remove_live (de_key e) existing (set_key_dir kd t) in
      Ok (patch_stats (t_active_file_id t) (d_tombstone (entry_size (size (de_key e)) 0)) t)
  | RangeDel =>
      let t := erase_range (de_key e) (de_value e) t in
      Ok (patch_stats (t_active_file_id t)
            (d_tombstone (entry_size (size (de_key e)) (size (de_value e)))) t)
  | Unassigned _ => Ok t
  end.

Fixpoint ingest_loop (entries : list DataEntry) (offsets : list Z) (max_seq : Z)
    (t : TransientEngineState) : result (Z * TransientEngineState) :=
  match entries with
  | [] => Ok (max_seq, t)
  | e :: es =>
      let max_seq := if max_seq <? de_sequence e then de_sequence e else max_seq in
      t' ← ingest_one e (hd 0 offsets) t;
      ingest_loop es (tl offsets) max_seq t'
  end.

Definition apply_ingest (entries : list DataEntry) (offsets : list Z)
    (t : TransientEngineState) : result TransientEngineState :=
  match entries with
  | [] => Ok t
  | e0 :: _ =>
      '(max_seq, t) ← ingest_loop entries offsets 0 t;
      let t := if t_next_seq t <=? max_seq then set_next_seq (u64_add max_seq 1) t else t in
      Ok (patch_stats (t_active_file_id t) (d_sequences (de_sequence e0) max_seq) t)
  end.

(** ** Rotation and file ids *)

Definition apply_rotate_file (sealed_old new_file : FileRef) (new_file_id : Z)
    (t : TransientEngineState) : TransientEngineState :=
  let t := set_files (<[t_active_file_id t := sealed_old]> (t_files t)) t in
  let t := set_active_file_id new_file_id t in
  let t := set_files (<[t_active_file_id t := new_file]> (t_files t)) t in
  set_file_stats (<[t_active_file_id t := FileStats_zero]> (t_file_stats t)) t.

Definition file_ids_left (t : TransientEngineState) : Z :=
  if KeyDirEntry.kMaxFileId <? t_next_file_id t then 0
  else KeyDirEntry.kMaxFileId - t_next_file_id t + 1.

Definition file_ids_exhausted : exn :=
  RuntimeError "file id space exhausted: this process has used all file ids. Reopen the database to renumber its files.".

Definition reserve_file_id (t : TransientEngineState) : result (Z * TransientEngineState) :=
  if file_ids_left t =? 0 then Err file_ids_exhausted
  else Ok (t_next_file_id t, set_next_file_id (t_next_file_id t + 1) t).

(** ** Vacuum *)

Record VacuumMapping : Type := mkMapping {
  vm_key : bytes;
  new_offset : Z;
  vm_sequence : Z;
  vm_value_size : Z
}.

Record VacuumScanResult : Type := mkScan {
  cancelled : bool;
  mappings : list VacuumMapping;
  vs_live_bytes : Z;
  vs_total_bytes : Z;
  vs_min_sequence : Z;
  vs_max_sequence : Z;
  vs_tombstone_bytes : Z;
  vs_marker_bytes : Z;
  vs_change_marker_bytes : Z;
  tombstones_dropped : Z
}.

(** Moves one live entry, if the key is still at that sequence; otherwise its
    bytes are not live in the destination. *)
Definition remap_one (dest_file_id : Z) (acc : Z * TransientEngineState) (m : VacuumMapping)
    : result (Z * TransientEngineState) :=
  let '(live, t) := acc in
  let moved := match kd_get (t_key_dir t) (vm_key m) with
               | Some cur => KeyDirEntry.sequence cur =? vm_sequence m
               | None => false
               end in
  if moved then
    e ← KeyDirEntry.make (vm_sequence m) (new_offset m) dest_file_id (vm_value_size m);
    Ok (live, set_key_dir (kd_put (t_key_dir t) (vm_key m) e).2 t)
  else Ok (u64_sub live (entry_size (size (vm_key m)) (vm_value_size m)), t).

Fixpoint remap_all (dest_file_id : Z) (ms : list VacuumMapping)
    (acc : Z * TransientEngineState) : result (Z * TransientEngineState) :=
  match ms with
  | [] => Ok acc
  | m :: ms' => acc' ← remap_one dest_file_id acc m; remap_all dest_file_id ms' acc'
  end.

Definition apply_vacuum (old_file_id : Z) (scan : VacuumScanResult)
    (new_sealed_file : option FileRef) (dest_file_id : Z) (t : TransientEngineState)
    : result TransientEngineState :=
  match new_sealed_file with
  | None =>
      _ ← throw_if (negb (bool_decide (mappings scan = [])))
            (LogicError "apply_vacuum: live entries without a destination");
      let t := set_files (delete old_file_id (t_files t)) t in
      Ok (set_file_stats (delete old_file_id (t_file_stats t)) t)
  | Some f =>
      let t := set_files (<[dest_file_id := f]> (t_files t)) t in
      '(live, t) ← remap_all dest_file_id (mappings scan) (vs_live_bytes scan, t);
      let t := set_files (delete old_file_id (t_files t)) t in
      let fs := delete old_file_id (t_file_stats t) in
      Ok (set_file_stats
            (<[dest_file_id := mkFileStats live (vs_total_bytes scan) (vs_min_sequence scan)
                 (vs_max_sequence scan) (vs_tombstone_bytes scan) (vs_marker_bytes scan)
                 (vs_change_marker_bytes scan)]> fs) t)
  end.

(** ** Resume *)

Record ResumeEntry : Type := mkResume {
  re_sequence : Z;
  re_type : EntryType;
  re_offset : Z;
  re_value_size : Z;
  re_key : bytes;
  re_range_end : bytes;
  re_marker_id : Z
}.

(** One committed entry replayed with sequence-wins resolution. *)
Definition resume_one (file_id : Z) (e : ResumeEntry) (t : TransientEngineState)
    : result TransientEngineState :=
  match re_type e with
  | Put =>
      let existing := kd_get (t_key_dir t) (re_key e) in
      if match existing with
         | None => true
         | Some x => KeyDirEntry.sequence x <? re_sequence e
         end then
        let t := remove_live (re_key e) existing t in
        let t := patch_stats file_id
                   (d_live_added (entry_size (size (re_key e)) (re_value_size e))) t in
        entry ← KeyDirEntry.make (re_sequence e) (re_offset e) file_id (re_value_size e);
        Ok (set_key_dir (kd_put (t_key_dir t) (re_key e) entry).2 t)
      else Ok t
  | Delete =>
      match kd_get (t_key_dir t) (re_key e) with
      | Some x =>
          if KeyDirEntry.sequence x <? re_sequence e then
            let t := remove_live (re_key e) (Some x) t in
            Ok (set_key_dir (kd_erase (t_key_dir t) (re_key e)).2 t)
          else Ok t
      | None => Ok t
      end
  | RangeDel =>
      let l := filter (fun p => KeyDirEntry.sequence p.2 < re_sequence e)
                 (kd_range (t_key_dir t) (re_key e) (re_range_end e)) in
      let t := remove_live_all l t in
      Ok (set_key_dir (erase_keys (t_key_dir t) l.*1) t)
  | EChangeMarker =>
      if match t_change_markers t with
         | None => true
         | Some ms => since_sequence (List.last ms kOriginMarker) <? re_sequence e
         end
      then Ok (append_marker (mkChangeMarker (re_sequence e) (re_marker_id e)) t)
      else Ok t
  | BulkBegin | BulkEnd | Unassigned _ => Ok t
  end.

(** The file's bounds and byte counts, rebuilt from its entries. *)
Record ResumeAcc : Type := mkResumeAcc {
  ra_max_seq : Z;
  ra_seq_min : Z;
  ra_seq_max : Z;
  ra_tomb : Z;
  ra_mark : Z;
  ra_cm : Z
}.

Definition resume_acc (a : ResumeAcc) (e : ResumeEntry) : ResumeAcc :=
  mkResumeAcc
    (if ra_max_seq a <? re_sequence e then re_sequence e else ra_max_seq a)
    (if ra_seq_min a =? 0 then re_sequence e else ra_seq_min a)
    (if ra_seq_max a <? re_sequence e then re_sequence e else ra_seq_max a)
    (u64_add (ra_tomb a) (tombstone_size (re_type e) (size (re_key e)) (size (re_range_end e))))
    (u64_add (ra_mark a) (marker_size (re_type e)))
    (u64_add (ra_cm a) (change_marker_size (re_type e))).

Fixpoint resume_loop (file_id : Z) (entries : list ResumeEntry) (a : ResumeAcc)
    (t : TransientEngineState) : result (ResumeAcc * TransientEngineState) :=
  match entries with
  | [] => Ok (a, t)
  | e :: es => t' ← resume_one file_id e t; resume_loop file_id es (resume_acc a e) t'
  end.

Definition apply_resume (file_id : Z) (entries : list ResumeEntry) (valid_offset : Z)
    (t : TransientEngineState) : result TransientEngineState :=
  '(a, t) ← resume_loop file_id entries (mkResumeAcc 0 0 0 0 0 0) t;
  let t := if t_next_seq t <=? ra_max_seq a
           then set_next_seq (u64_add (ra_max_seq a) 1) t else t in
  Ok (match t_file_stats t !! file_id with
      | Some fs =>
          set_file_stats
            (<[file_id := mkFileStats (live_bytes fs) valid_offset (ra_seq_min a)
                 (ra_seq_max a) (ra_tomb a) (ra_mark a) (ra_cm a)]> (t_file_stats t)) t
      | None => t
      end).

(** ** Queries and sequence bookkeeping *)

(** [size_of] is [DataFile::size()] of a file object. *)
Definition is_rotation_needed (size_of : FileRef -> Z) (t : TransientEngineState)
    (threshold : Z) : bool :=
  match t_files t !! t_active_file_id t with
  | Some f => threshold <=? size_of f
  | None => false
  end.

Definition apply_sync (batch_max_seq : Z) (t : TransientEngineState) : TransientEngineState :=
  if t_durable_seq t <? batch_max_seq then set_durable_seq batch_max_seq t else t.

Definition note_sync_requested (seq : Z) (t : TransientEngineState) : TransientEngineState :=
  set_sync_requested_seq (Z.max (t_sync_requested_seq t) seq) t.

End transitions.
