(* ===== verification/ReadCache.v ===== *)
(** * Publishing a state and reading it through a per-thread cache

    Readers do not load the published state of a [DB] each time: a thread
    keeps the last one it loaded in a slot of its own and serves it as long as
    two counters, [publishing_] and [state_gen_], say that nothing was
    published since ([load_state_for_read], [db_state.cpp]).  The raw
    [store_state] and [publish_degraded_if_healthy] ([bytecask.cppm]) maintain
    the counters; several threads can be inside them at once.  Other threads
    take idle entries, and those of a [DB] that closes, out of the slots.

    Here each atomic load, store and exchange is one step, and the threads'
    steps interleave in any order.  A published state is known by its place in
    the order in which the exchanges put states in [state_], which is what the
    claim on recency needs.  A [DB] opened at the address of a destroyed one
    goes on under that address.  Taking a generation and storing it are two
    steps, so that publishers can store theirs in any order.  The counter behind [next_state_gen] is an
    unbounded integer. *)

From S2P Require Import Prelude Codec KeyDir EngineState.
Import Types.

(** ** State *)

(** What readers and publishers share of one [DB]. *)
Record Cell : Type := mkCell {
  published : list EngineState;   (* the states [state_] has held, the last is the current one *)
  publishing : Z;
  state_gen : Z
}.

Record ReadCacheEntry : Type := mkEntry {
  owner : Z;                      (* the address of the DB *)
  e_state : option nat;           (* place of the state among the owner's, [None] when reset *)
  e_gen : option Z;               (* [None] is [kNoStateGen] *)
  used_epoch : Z
}.

Inductive ReadCacheSlot : Type := Empty | InUse | Obsolete | Holds (e : ReadCacheEntry).

(** Where a read of [db] is; [from] counts the states published before it
    began. *)
Inductive ReadPc : Type :=
| RIdle
| RClaim (db : Z) (from : nat)
| ROwn (db : Z) (from : nat) (e : option ReadCacheEntry)
| RBusy (db : Z) (from : nat) (e : ReadCacheEntry)
| RGen (db : Z) (from : nat) (e : ReadCacheEntry) (busy : Z)
| RState (db : Z) (from : nat) (e : ReadCacheEntry) (busy gen : Z)
| RTouch (db : Z) (from : nat) (e : ReadCacheEntry)
| RGuard (db : Z) (from : nat) (e : ReadCacheEntry).

(** Where a publication is. *)
Inductive PubPc : Type :=
| PIdle
| PRaise (s : EngineState)                     (* before publishing_.fetch_add *)
| PExchange (s : EngineState)
| PGen (at_ : nat)                             (* exchanged; before next_state_gen() *)
| PStore (at_ : nat) (gen : Z)                 (* before state_gen_.store *)
| PLower
| PLoad (reason : string)                      (* publish_degraded_if_healthy *)
| PHealthy (reason : string) (current : nat)   (* the loop's test *)
| PRaiseCas (reason : string) (current : nat)
| PCas (reason : string) (current : nat)
| PRetry (reason : string) (current : nat).    (* lost the exchange *)

Record Reader : Type := mkReader { r_slot : ReadCacheSlot; r_pc : ReadPc }.
Record Writer : Type := mkWriter { w_db : Z; w_pc : PubPc }.

Record World : Type := mkWorld {
  dbs : gmap Z Cell;
  next_gen : Z;                   (* the counter of next_state_gen *)
  epoch : Z;
  writers : list Writer;
  readers : list Reader
}.

Definition set_cell (db : Z) (c : Cell) (w : World) : World :=
  mkWorld (<[db := c]> (dbs w)) (next_gen w) (epoch w) (writers w) (readers w).
Definition set_writer (t : nat) (x : Writer) (w : World) : World :=
  mkWorld (dbs w) (next_gen w) (epoch w) (<[t := x]> (writers w)) (readers w).
Definition set_reader (t : nat) (r : Reader) (w : World) : World :=
  mkWorld (dbs w) (next_gen w) (epoch w) (writers w) (<[t := r]> (readers w)).
Definition set_next_gen (n : Z) (w : World) : World := mkWorld (dbs w) n (epoch w) (writers w) (readers w).
Definition set_epoch (n : Z) (w : World) : World := mkWorld (dbs w) (next_gen w) n (writers w) (readers w).

Definition set_publishing (n : Z) (c : Cell) : Cell := mkCell (published c) n (state_gen c).
Definition set_gen (g : Z) (c : Cell) : Cell := mkCell (published c) (publishing c) g.
Definition exchange (s : EngineState) (c : Cell) : Cell := mkCell (published c ++ [s]) (publishing c) (state_gen c).

(** The place of the state [state_] points to. *)
Definition current_of (c : Cell) : nat := pred (length (published c)).

(** ** Reading *)

(** [claim]. *)
Definition claim (s : ReadCacheSlot) : option ReadCacheEntry :=
  match s with Holds e => Some e | _ => None end.

(** The entry a read of [db] works with: its own, or one with no state. *)
Definition own (db : Z) (e : option ReadCacheEntry) : ReadCacheEntry :=
  match e with
  | Some e => if owner e =? db then e else mkEntry db None None (used_epoch e)
  | None => mkEntry db None None 0
  end.

Definition touch (now : Z) (e : ReadCacheEntry) : ReadCacheEntry := mkEntry (owner e) (e_state e) (e_gen e) now.

(** One step of [load_state_for_read], or the end of the guard's extent.  A
    closed state gives the slot back and throws. *)
Definition read_step (w : World) (r : Reader) : option Reader :=
  match r_pc r with
  | RIdle => None
  | RClaim db from => Some (mkReader InUse (ROwn db from (claim (r_slot r))))
  | ROwn db from e => Some (mkReader (r_slot r) (RBusy db from (own db e)))
  | RBusy db from e => c ← dbs w !! db; Some (mkReader (r_slot r) (RGen db from e (publishing c)))
  | RGen db from e busy =>
      c ← dbs w !! db;
      let gen := state_gen c in
      Some (mkReader (r_slot r)
              (if negb (busy =? 0) || negb (bool_decide (e_gen e = Some gen)) then RState db from e busy gen else RTouch db from e))
  | RState db from e busy gen =>
      c ← dbs w !! db;
      Some (mkReader (r_slot r)
              (RTouch db from (mkEntry (owner e) (Some (current_of c)) (if negb (busy =? 0) then None else Some gen) (used_epoch e))))
  | RTouch db from e =>
      c ← dbs w !! db;
      p ← e_state e;
      s ← published c !! p;
      let e := touch (epoch w) e in
      Some (if closed s then mkReader (Holds e) RIdle else mkReader (r_slot r) (RGuard db from e))
  | RGuard db from e => Some (mkReader (Holds e) RIdle)
  end.

(** ** Publishing *)

(** One step of [store_state], or of [publish_degraded_if_healthy]. *)
Definition publish_step (t : nat) (x : Writer) (w : World) : option World :=
  let db := w_db x in
  let goto pc := set_writer t (mkWriter db pc) in
  c ← dbs w !! db;
  match w_pc x with
  | PIdle => None
  | PRaise s => Some (goto (PExchange s) (set_cell db (set_publishing (publishing c + 1) c) w))
  | PExchange s => Some (goto (PGen (length (published c))) (set_cell db (exchange s c) w))
  | PGen at_ => let g := next_gen w + 1 in Some (goto (PStore at_ g) (set_next_gen g w))
  | PStore _ g => Some (goto PLower (set_cell db (set_gen g c) w))
  | PLower => Some (goto PIdle (set_cell db (set_publishing (publishing c - 1) c) w))
  | PLoad reason => Some (goto (PHealthy reason (current_of c)) w)
  | PHealthy reason current =>
      s ← published c !! current;
      Some (goto (if degraded s then PIdle else PRaiseCas reason current) w)
  | PRaiseCas reason current => Some (goto (PCas reason current) (set_cell db (set_publishing (publishing c + 1) c) w))
  | PCas reason current =>
      s ← published c !! current;
      if bool_decide (current = current_of c)
      then Some (goto (PGen (length (published c))) (set_cell db (exchange (degraded_copy s reason) c) w))
      else Some (goto (PRetry reason (current_of c)) w)
  | PRetry reason current => Some (goto (PHealthy reason current) (set_cell db (set_publishing (publishing c - 1) c) w))
  end.

(** ** The threads *)

Inductive Action : Type :=
| Read (t : nat) (db : Z)                      (* a read begins *)
| ReadStep (t : nat)
| Store (t : nat) (db : Z) (s : EngineState)   (* store_state is called *)
| Refuse (t : nat) (db : Z) (reason : string)  (* publish_degraded_if_healthy is called *)
| PublishStep (t : nat)
| Scrape                                       (* the epoch advances *)
| Take (t : nat)                               (* a scrape or a close takes the entry of a slot *)
| Open (db : Z) (s : EngineState).             (* a DB comes to be at the address *)

(** No call on the [DB] is under way. *)
Definition quiet (db : Z) (w : World) : bool :=
  forallb (fun x => negb (w_db x =? db) || match w_pc x with PIdle => true | _ => false end) (writers w)
  && forallb (fun r => match r_pc r with
                       | RIdle => true
                       | RClaim d _ | ROwn d _ _ | RBusy d _ _ | RGen d _ _ _ | RState d _ _ _ _ | RTouch d _ _ | RGuard d _ _ => negb (d =? db)
                       end) (readers w).

Definition act (a : Action) (w : World) : option World :=
  match a with
  | Read t db =>
      r ← readers w !! t; c ← dbs w !! db;
      match r_pc r with RIdle => Some (set_reader t (mkReader (r_slot r) (RClaim db (length (published c)))) w) | _ => None end
  | ReadStep t => r ← readers w !! t; r' ← read_step w r; Some (set_reader t r' w)
  | Store t db s =>
      x ← writers w !! t;
      match w_pc x with PIdle => Some (set_writer t (mkWriter db (PRaise s)) w) | _ => None end
  | Refuse t db reason =>
      x ← writers w !! t;
      match w_pc x with PIdle => Some (set_writer t (mkWriter db (PLoad reason)) w) | _ => None end
  | PublishStep t => x ← writers w !! t; publish_step t x w
  | Scrape => Some (set_epoch (epoch w + 1) w)
  | Take t =>
      r ← readers w !! t;
      match r_slot r with Holds _ => Some (set_reader t (mkReader Obsolete (r_pc r)) w) | _ => None end
  | Open db s =>
      if quiet db w then
        let g := next_gen w + 1 in
        Some (set_next_gen g (set_cell db (mkCell (default [] (published <$> dbs w !! db) ++ [s]) 0 g) w))
      else None
  end.

Definition steps (w w' : World) : Prop := exists a, act a w = Some w'.

(** A process in which no [DB] was opened yet, with its threads. *)
Definition started (writers readers : nat) : World :=
  mkWorld ∅ 0 1 (replicate writers (mkWriter 0 PIdle)) (replicate readers (mkReader Empty RIdle)).

(** ** The invariant *)

(** A publication between its raise and its lowering of [publishing_]. *)
Definition raised (x : Writer) : bool :=
  match w_pc x with PExchange _ | PGen _ | PStore _ _ | PLower | PCas _ _ | PRetry _ _ => true | _ => false end.

Definition raised_at (db : Z) (x : Writer) : Z := if (w_db x =? db) && raised x then 1 else 0.

(** The publisher of the [q]th state of [db] has not stored its generation. *)
Definition waits (db : Z) (q : nat) (x : Writer) : Prop :=
  w_db x = db /\ (w_pc x = PGen q \/ exists g, w_pc x = PStore q g).

(** A generation that was given out and not stored yet. *)
Definition holds_gen (g : Z) (x : Writer) : Prop := exists q, w_pc x = PStore q g.
Definition taken (w : World) (g : Z) : Prop := exists t x, writers w !! t = Some x /\ holds_gen g x.

(** A generation no reader has seen. *)
Definition unseen (w : World) (g : Z) : Prop := taken w g \/ next_gen w < g.

Definition seen (w : World) (g : Z) : Prop := g <= next_gen w /\ ~ taken w g.

Definition cell_ok (w : World) (db : Z) (c : Cell) : Prop :=
  published c <> [] /\ seen w (state_gen c) /\ publishing c = lsum (raised_at db) (writers w).

(** An entry whose generation is still the current one misses only states whose
    publishers have not stored a generation yet.  Generations are stored in any
    order, each of them once. *)
Definition entry_ok (w : World) (e : ReadCacheEntry) : Prop :=
  forall g, e_gen e = Some g -> seen w g /\ exists c p,
    dbs w !! owner e = Some c /\ e_state e = Some p /\ (p < length (published c))%nat
    /\ (state_gen c = g -> forall q, (p < q < length (published c))%nat ->
          exists t x, writers w !! t = Some x /\ waits (owner e) q x).

Definition begun (w : World) (db : Z) (from : nat) : Prop :=
  exists c, dbs w !! db = Some c /\ (from <= length (published c))%nat.

(** No state published before the read began waits for its generation. *)
Definition settled (w : World) (db : Z) (from : nat) : Prop :=
  forall t x q, writers w !! t = Some x -> waits db q x -> (from <= q)%nat.

(** The entry's state is there, and no older than the newest when the read
    began. *)
Definition recent (w : World) (db : Z) (from : nat) (e : ReadCacheEntry) : Prop :=
  owner e = db /\ exists c p, dbs w !! db = Some c /\ e_state e = Some p /\ (from <= S p <= length (published c))%nat.

Definition pc_ok (w : World) (pc : ReadPc) : Prop :=
  match pc with
  | RIdle => True
  | RClaim db from => begun w db from
  | ROwn db from e => begun w db from /\ (forall x, e = Some x -> entry_ok w x)
  | RBusy db from e => begun w db from /\ owner e = db /\ entry_ok w e
  | RGen db from e busy => begun w db from /\ owner e = db /\ entry_ok w e /\ (busy = 0 -> settled w db from)
  | RState db from e busy gen => begun w db from /\ owner e = db /\ seen w gen
  | RTouch db from e | RGuard db from e => entry_ok w e /\ recent w db from e
  end.

Definition reader_ok (w : World) (r : Reader) : Prop :=
  pc_ok w (r_pc r) /\ forall e, r_slot r = Holds e -> entry_ok w e.

Record world_ok (w : World) : Prop := {
  wo_cells : map_Forall (cell_ok w) (dbs w);
  wo_readers : Forall (reader_ok w) (readers w);
  wo_taken : forall g, taken w g -> g <= next_gen w;
  wo_once : forall g t t' x x', writers w !! t = Some x -> writers w !! t' = Some x' -> holds_gen g x -> holds_gen g x' -> t = t'
}.

(** ** What a publication's step changes *)

Record later (w w' : World) : Prop := {
  lt_cells : forall db c, dbs w !! db = Some c -> exists c', dbs w' !! db = Some c'
    /\ (length (published c) <= length (published c'))%nat
    /\ (unseen w (state_gen c')
        \/ state_gen c' = state_gen c /\ forall q, (length (published c) <= q < length (published c'))%nat ->
             exists t x, writers w' !! t = Some x /\ waits db q x);
  lt_gen : next_gen w <= next_gen w';
  lt_taken : forall g, taken w' g -> unseen w g;
  lt_kept : forall t x db q, writers w !! t = Some x -> waits db q x ->
    (exists x', writers w' !! t = Some x' /\ waits db q x') \/ exists c', dbs w' !! db = Some c' /\ unseen w (state_gen c');
  lt_new : forall t x' db q, writers w' !! t = Some x' -> waits db q x' ->
    (exists x, writers w !! t = Some x /\ waits db q x) \/ forall c, dbs w !! db = Some c -> (length (published c) <= q)%nat
}.

Lemma seen_unseen w g : seen w g -> unseen w g -> False.
Proof. intros [? ?] [?|?]; [done|lia]. Qed.

Lemma seen_later w w' g : later w w' -> seen w g -> seen w' g.
Proof.
  intros L Hg. split; [pose proof (lt_gen _ _ L); destruct Hg; lia|]. intros Ht. apply (seen_unseen w g Hg). by apply (lt_taken _ _ L).
Qed.

Lemma entry_ok_later w w' e : later w w' -> entry_ok w e -> entry_ok w' e.
Proof.
  intros L He g Hg. destruct (He g Hg) as (Hle & c & p & Hc & Hp & Hlt & Hq). split; [by eapply seen_later|].
  destruct (lt_cells _ _ L _ _ Hc) as (c' & Hc' & Hl & Hn). exists c', p. split_and!; [done|done|lia|].
  intros <- q Hpq. destruct Hn as [Hu|[E Hn]]; [by destruct (seen_unseen w (state_gen c'))|].
  destruct (decide (q < length (published c))%nat) as [Hlo|]; [|apply Hn; lia].
  destruct (Hq (eq_sym E) q) as (t & x & Ht & Hw); [lia|]. destruct (lt_kept _ _ L _ _ _ _ Ht Hw) as [(x' & ? & ?)|(c2 & Hc2 & ?)]; [by exists t, x'|].
  assert (c2 = c') as -> by congruence. by destruct (seen_unseen w (state_gen c')).
Qed.

Lemma begun_later w w' db from : later w w' -> begun w db from -> begun w' db from.
Proof.
  intros L (c & Hc & Hf). destruct (lt_cells _ _ L _ _ Hc) as (c' & Hc' & Hl & _). exists c'. split; [done|lia].
Qed.

Lemma settled_later w w' db from : later w w' -> begun w db from -> settled w db from -> settled w' db from.
Proof.
  intros L (c & Hc & Hf) Hs t x q Ht Hw. destruct (lt_new _ _ L _ _ _ _ Ht Hw) as [(x0 & ? & ?)|Hn]; [by eapply Hs|]. specialize (Hn c Hc). lia.
Qed.

Lemma recent_later w w' db from e : later w w' -> recent w db from e -> recent w' db from e.
Proof.
  intros L (Ho & c & p & Hc & Hp & Hb). split; [done|]. destruct (lt_cells _ _ L _ _ Hc) as (c' & Hc' & Hl & _).
  exists c', p. split_and!; [done|done|lia|lia].
Qed.

Create HintDb read_cache.
#[local] Hint Resolve seen_later entry_ok_later begun_later settled_later recent_later : read_cache.

Lemma reader_ok_later w w' r : later w w' -> reader_ok w r -> reader_ok w' r.
Proof.
  intros L [Hpc Hs]. split; [|eauto with read_cache]. destruct (r_pc r); cbn [pc_ok] in *; try done.
  - eauto with read_cache.
  - destruct Hpc. split; eauto with read_cache.
  - destruct Hpc as (? & ? & ?). split_and!; eauto with read_cache.
  - destruct Hpc as (? & ? & ? & Hb). split_and!; eauto with read_cache.
  - destruct Hpc as (? & ? & ?). split_and!; eauto with read_cache.
  - destruct Hpc. split; eauto with read_cache.
  - destruct Hpc. split; eauto with read_cache.
Qed.

(** The readers' own steps leave what entries are judged by alone. *)
Lemma same_later w w' : dbs w' = dbs w -> next_gen w' = next_gen w -> writers w' = writers w -> later w w'.
Proof.
  intros E1 E2 E3. split; unfold taken; rewrite ?E1, ?E2, ?E3; [|done|by left|left; by exists x|left; by exists x'].
  intros db c Hc. exists c. split_and!; [done|done|]. right. split; [done|]. lia.
Qed.

Lemma world_ok_same w w' :
  world_ok w -> dbs w' = dbs w -> next_gen w' = next_gen w -> writers w' = writers w ->
  Forall (reader_ok w') (readers w') -> world_ok w'.
Proof.
  intros [Hc _ Ht Ho] E1 E2 E3 Hr. split; [|done|unfold taken; by rewrite E2, E3|by rewrite E3]. rewrite E1. eapply map_Forall_impl; [exact Hc|].
  intros db c. unfold cell_ok, seen, taken. by rewrite E2, E3.
Qed.

Lemma lsum_insert {A} (f : A -> Z) l i x y : l !! i = Some y -> lsum f (<[i := x]> l) = lsum f l - f y + f x.
Proof.
  revert i. induction l as [|z l IH]; intros [|i] Hi; [done|done| |].
  - injection Hi as ->. cbn [insert list_insert]. rewrite !lsum_cons. lia.
  - change (<[S i := x]> (z :: l)) with (z :: <[i := x]> l). rewrite !lsum_cons, (IH i) by done. lia.
Qed.

Lemma raised_at_ne db db' pc : db' <> db -> raised_at db (mkWriter db' pc) = 0.
Proof. intros Hne. unfold raised_at. cbn [w_db]. by rewrite (proj2 (Z.eqb_neq _ _)). Qed.

Lemma raised_at_pos db l : 0 <= lsum (raised_at db) l /\ (lsum (raised_at db) l = 0 -> forall t x, l !! t = Some x -> raised_at db x = 0).
Proof.
  induction l as [|y l [IH1 IH2]]; [done|]. rewrite lsum_cons. assert (0 <= raised_at db y) by (unfold raised_at; by destruct (_ && _)).
  split; [lia|]. intros E [|t] x Ht; cbn in Ht; [injection Ht as <-; lia|]. apply (IH2 ltac:(lia) t x Ht).
Qed.

(** What a step of a publisher of [db] must keep: it stores the generation it
    holds, or leaves [state_gen_] alone; it takes a new generation, or none. *)
Lemma publish_keeps t x w c c' pc g :
  world_ok w -> writers w !! t = Some x -> dbs w !! w_db x = Some c ->
  next_gen w <= g -> published c' <> [] -> (length (published c) <= length (published c'))%nat ->
  publishing c' = publishing c - raised_at (w_db x) x + raised_at (w_db x) (mkWriter (w_db x) pc) ->
  (holds_gen (state_gen c') x
   \/ state_gen c' = state_gen c
      /\ (forall q, (length (published c) <= q < length (published c'))%nat -> waits (w_db x) q (mkWriter (w_db x) pc))
      /\ (forall q, waits (w_db x) q x -> waits (w_db x) q (mkWriter (w_db x) pc))) ->
  (forall q, waits (w_db x) q (mkWriter (w_db x) pc) -> waits (w_db x) q x \/ (length (published c) <= q)%nat) ->
  (forall g', holds_gen g' (mkWriter (w_db x) pc) -> next_gen w < g' <= g) ->
  world_ok (set_writer t (mkWriter (w_db x) pc) (set_next_gen g (set_cell (w_db x) c' w))).
Proof.
  intros W Ht Hc Hg Hne Hlen Hpub Hgen Hnew Hhold. set (w' := set_writer _ _ _).
  assert (Hlt : (t < length (writers w))%nat) by (by eapply lookup_lt_Some).
  assert (Hwr : forall t' x', writers w' !! t' = Some x' -> (t' = t /\ x' = mkWriter (w_db x) pc) \/ (t' <> t /\ writers w !! t' = Some x')).
  { intros t' x'. cbn [w' writers set_writer set_next_gen set_cell]. destruct (decide (t' = t)) as [->|]; [|rewrite list_lookup_insert_ne by done; auto].
    rewrite list_lookup_insert_eq by done. intros [= <-]. by left. }
  assert (Hput : writers w' !! t = Some (mkWriter (w_db x) pc)) by (cbn; by rewrite list_lookup_insert_eq).
  assert (Htk : forall g', taken w' g' -> unseen w g').
  { intros g' (t' & x' & Ht' & Hh). destruct (Hwr _ _ Ht') as [[-> ->]|[_ ?]]; [right; by apply Hhold|left; by exists t', x']. }
  assert (Hunseen : holds_gen (state_gen c') x -> unseen w (state_gen c')) by (intros ?; left; by exists t, x).
  assert (L : later w w').
  { split; [|done|done|..].
    - intros db c0 Hc0. cbn [w' dbs set_writer set_next_gen set_cell]. destruct (decide (db = w_db x)) as [->|].
      + assert (c0 = c) as -> by congruence. exists c'. rewrite lookup_insert_eq. split_and!; [done|done|].
        destruct Hgen as [?|(? & Hn & _)]; [left; auto|right]. split; [done|]. intros q Hql. exists t. eexists. split; [exact Hput|by apply Hn].
      + exists c0. rewrite lookup_insert_ne by done. split_and!; [done|done|]. right. split; [done|]. lia.
    - intros t0 x0 db q Ht0 Hw0. destruct (decide (t0 = t)) as [->|]; [|left; exists x0; cbn; by rewrite list_lookup_insert_ne].
      assert (x0 = x) as -> by congruence. pose proof (proj1 Hw0) as <-. destruct Hgen as [?|(_ & _ & Hk)]; [right|left; eauto].
      exists c'. cbn. rewrite lookup_insert_eq. auto.
    - intros t0 x0 db q Ht0 Hw0. destruct (Hwr _ _ Ht0) as [[-> ->]|[_ ?]]; [|left; by exists x0]. pose proof (proj1 Hw0) as E. cbn in E. subst db.
      destruct (Hnew q Hw0) as [?|?]; [left; by exists x|right]. intros c0 Hc0. by assert (c0 = c) as -> by congruence. }
  pose proof W as [Hcs Hrs Hle Honce]. split.
  - intros db c0. cbn [w' dbs set_writer set_next_gen set_cell]. intros [[<- <-]|[Hne0 Hc0]]%lookup_insert_Some.
    + destruct (Hcs _ _ Hc) as (_ & Hs & Ep). split_and!; [done| |cbn; rewrite (lsum_insert _ _ _ _ x) by done; lia].
      destruct Hgen as [Hx|[-> _]]; [|by eapply seen_later]. split; [cbn; etrans; [apply Hle; by exists t, x|done]|].
      intros (t' & x' & Ht' & Hh). destruct (Hwr _ _ Ht') as [[-> ->]|[Hn' Ht0]].
      * apply Hhold in Hh. pose proof (Hle (state_gen c') ltac:(by exists t, x)). lia.
      * apply Hn'. by apply (Honce (state_gen c') t' t x' x).
    + destruct (Hcs _ _ Hc0) as (H1 & H2 & Ep). split_and!; [done|by eapply seen_later|]. cbn. rewrite (lsum_insert _ _ _ _ x) by done.
      assert (Hx : x = mkWriter (w_db x) (w_pc x)) by by destruct x. rewrite Hx, !raised_at_ne by done. lia.
  - eapply Forall_impl; [exact Hrs|]. intros r. by apply reader_ok_later.
  - intros g' (t' & x' & Ht' & Hh). cbn. destruct (Hwr _ _ Ht') as [[-> ->]|[_ Ht0]]; [by apply Hhold|]. etrans; [apply Hle; by exists t', x'|done].
  - intros g' t1 t2 x1 x2 H1 H2 G1 G2. assert (Hnot : forall t' x', writers w !! t' = Some x' -> holds_gen g' x' -> ~ holds_gen g' (mkWriter (w_db x) pc)).
    { intros t' x' Ht' Hh Hp%Hhold. pose proof (Hle g' ltac:(by exists t', x')). lia. }
    destruct (Hwr _ _ H1) as [[-> ->]|[_ E1]], (Hwr _ _ H2) as [[-> ->]|[_ E2]]; [done|by destruct (Hnot t2 x2)|by destruct (Hnot t1 x1)|by apply (Honce g' t1 t2 x1 x2)].
Qed.

Lemma set_cell_same w db c : dbs w !! db = Some c -> set_cell db c w = w.
Proof. intros Hc. destruct w. unfold set_cell. cbn in *. by rewrite insert_id. Qed.

(** No state of [x]'s waits for its generation. *)
Definition unwaiting (pc : PubPc) : Prop := match pc with PGen _ | PStore _ _ => False | _ => True end.

Lemma unwaiting_waits db q x : unwaiting (w_pc x) -> ~ waits db q x.
Proof. intros Hu [_ [E|[g E]]]; by rewrite E in Hu. Qed.

Lemma unwaiting_holds g x : unwaiting (w_pc x) -> ~ holds_gen g x.
Proof. intros Hu [q E]. by rewrite E in Hu. Qed.

Lemma publish_step_ok t x w w' : world_ok w -> writers w !! t = Some x -> publish_step t x w = Some w' -> world_ok w'.
Proof.
  intros W Ht. unfold publish_step. destruct (dbs w !! w_db x) as [c|] eqn:Hc; [|done]. cbn [mbind option_bind].
  destruct (wo_cells _ W _ _ Hc) as (Hne & Hg & _).
  assert (Hkeep : forall pc c', published c' = published c -> state_gen c' = state_gen c ->
    publishing c' = publishing c - raised_at (w_db x) x + raised_at (w_db x) (mkWriter (w_db x) pc) ->
    unwaiting (w_pc x) -> unwaiting pc -> world_ok (set_writer t (mkWriter (w_db x) pc) (set_cell (w_db x) c' w))).
  { intros pc c' E1 E2 E3 H1 H2. apply (publish_keeps t x w c c' pc (next_gen w)); try done; rewrite ?E1; try done.
    - right. split_and!; [done|lia|]. intros q Hq. by apply unwaiting_waits in Hq.
    - intros q Hq. by apply unwaiting_waits in Hq.
    - intros g' Hq. by apply unwaiting_holds in Hq. }
  assert (Hgoto : forall pc, raised_at (w_db x) x = raised_at (w_db x) (mkWriter (w_db x) pc) ->
    unwaiting (w_pc x) -> unwaiting pc -> world_ok (set_writer t (mkWriter (w_db x) pc) w)).
  { intros pc E H1 H2. specialize (Hkeep pc c eq_refl eq_refl ltac:(lia) H1 H2).
    replace w with (set_cell (w_db x) c w) by by apply set_cell_same. done. }
  assert (Hpush : forall s, raised_at (w_db x) x = 1 -> unwaiting (w_pc x) ->
    world_ok (set_writer t (mkWriter (w_db x) (PGen (length (published c)))) (set_cell (w_db x) (exchange s c) w))).
  { intros s E H1. apply (publish_keeps t x w c (exchange s c) _ (next_gen w)); try done; cbn [published state_gen publishing exchange].
    - by destruct (published c).
    - rewrite length_app. lia.
    - unfold raised_at at 2. cbn. rewrite Z.eqb_refl. cbn. lia.
    - right. rewrite length_app. cbn. split_and!; [done| |intros q Hq; by apply unwaiting_waits in Hq]. intros q Hq. split; [done|left]. cbn. f_equal. lia.
    - intros q [_ [[= <-]|[? ?]]]; [by right|done].
    - by intros g' [? ?]. }
  assert (Hr : forall pc, raised_at (w_db x) (mkWriter (w_db x) pc) = if raised (mkWriter 0 pc) then 1 else 0)
    by (intros pc; unfold raised_at; cbn [w_db]; by rewrite Z.eqb_refl).
  assert (Hx : raised_at (w_db x) x = if raised (mkWriter 0 (w_pc x)) then 1 else 0) by (rewrite <-Hr; by destruct x).
  destruct (w_pc x) eqn:Epc; cbn [raised w_pc] in Hx.
  - done.
  - intros [= <-]. apply Hkeep; try done. cbn [publishing set_publishing]. rewrite Hr, Hx. cbn. lia.
  - intros [= <-]. by apply Hpush.
  - intros [= <-]. replace (set_next_gen (next_gen w + 1) w) with (set_next_gen (next_gen w + 1) (set_cell (w_db x) c w))
      by (by rewrite (set_cell_same w (w_db x) c)).
    apply (publish_keeps t x w c c (PStore at_ (next_gen w + 1)) (next_gen w + 1)); try done; [lia|rewrite Hr, Hx; cbn; lia| | |].
    + right. split_and!; [done|lia|]. intros q [_ [E|[g E]]]; rewrite Epc in E; [injection E as ->|done]. split; [done|right]. by eexists.
    + intros q [_ [E|[g [= <- _]]]]; [done|left]. split; [done|by left].
    + intros g' [q [= _ <-]]. lia.
  - intros [= <-]. apply (publish_keeps t x w c (set_gen gen c) PLower (next_gen w)); try done; [cbn [publishing set_gen]; rewrite Hr, Hx; cbn; lia| | |].
    + left. by exists at_.
    + intros q Hq. by apply unwaiting_waits in Hq.
    + intros g' Hq. by apply unwaiting_holds in Hq.
  - intros [= <-]. apply Hkeep; try done. cbn [publishing set_publishing]. rewrite Hr, Hx. cbn. lia.
  - intros [= <-]. apply Hgoto; try done. by rewrite Hr, Hx.
  - destruct (published c !! current) as [s|]; [|done]. intros [= <-]. apply Hgoto; [by destruct (degraded s); rewrite Hr, Hx|done|by destruct (degraded s)].
  - intros [= <-]. apply Hkeep; try done. cbn [publishing set_publishing]. rewrite Hr, Hx. cbn. lia.
  - destruct (published c !! current) as [s|]; [|done]. cbn [mbind option_bind]. destruct (bool_decide _); intros [= <-]; [by apply Hpush|].
    apply Hgoto; try done. by rewrite Hr, Hx.
  - intros [= <-]. apply Hkeep; try done. cbn [publishing set_publishing]. rewrite Hr, Hx. cbn. lia.
Qed.

(** ** A read's steps *)

Lemma current_of_S c : published c <> [] -> S (current_of c) = length (published c).
Proof. unfold current_of. destruct (published c); [done|]. intros _. cbn. lia. Qed.

Lemma entry_ok_ungenerated w db p u : entry_ok w (mkEntry db p None u).
Proof. by intros g. Qed.

Lemma entry_ok_touch w n e : entry_ok w e -> entry_ok w (touch n e).
Proof. done. Qed.

Lemma own_ok w db e : (forall x, e = Some x -> entry_ok w x) -> owner (own db e) = db /\ entry_ok w (own db e).
Proof.
  intros He. unfold own. destruct e as [e|]; [|split; [done|apply entry_ok_ungenerated]].
  destruct (Z.eqb_spec (owner e) db) as [<-|]; [split; [done|by apply He]|split; [done|apply entry_ok_ungenerated]].
Qed.

(** With no publication between its raise and its lowering, none waits for its
    generation. *)
Lemma quiet_settled w db c from : world_ok w -> dbs w !! db = Some c -> publishing c = 0 -> settled w db from.
Proof.
  intros W Hc Hp t x q Ht [Hdb Hq]. destruct (wo_cells _ W _ _ Hc) as (_ & _ & E). rewrite Hp in E. symmetry in E.
  pose proof (proj2 (raised_at_pos db (writers w)) E _ _ Ht) as Hr. exfalso. revert Hr. unfold raised_at, raised. rewrite Hdb, Z.eqb_refl.
  destruct Hq as [->|[g ->]]; done.
Qed.

(** The cached state may be served: whatever was published since it was loaded
    was published after the read began. *)
Lemma cached_recent w db c from e :
  dbs w !! db = Some c -> owner e = db -> entry_ok w e -> settled w db from -> begun w db from -> e_gen e = Some (state_gen c) ->
  recent w db from e.
Proof.
  intros Hc Ho He Hs (c' & Hc' & Hf) Hg. assert (c' = c) as -> by congruence. split; [done|].
  destruct (He _ Hg) as (_ & c2 & p & Hc2 & Hp & Hlt & Hq). rewrite Ho in *. assert (c2 = c) as -> by congruence.
  exists c, p. split_and!; [done|done| |lia]. destruct (decide (from <= S p)%nat) as [|Hn]; [done|].
  destruct (Hq eq_refl (S p)) as (t & x & Ht & Hw); [lia|]. pose proof (Hs _ _ _ Ht Hw). lia.
Qed.

Lemma read_step_ok w r r' : world_ok w -> reader_ok w r -> read_step w r = Some r' -> reader_ok w r'.
Proof.
  intros W [Hpc Hs] E. unfold read_step in E. destruct (r_pc r) as [|db from|db from e|db from e|db from e busy|db from e busy gen|db from e|db from e] eqn:Er;
    cbn [pc_ok] in Hpc; [done|..].
  - injection E as <-. split; [|done]. split; [done|]. intros x Hx. apply Hs. destruct (r_slot r); try done. by injection Hx as ->.
  - injection E as <-. destruct Hpc as [Hb He]. destruct (own_ok w db e He) as [Ho Hok]. by split.
  - destruct Hpc as (Hb & Ho & He). destruct (dbs w !! db) as [c|] eqn:Hc; [|done]. injection E as <-. split; [|done].
    split_and!; [done|done|done|]. intros Hp. by eapply quiet_settled.
  - destruct Hpc as (Hb & Ho & He & Hq). destruct (dbs w !! db) as [c|] eqn:Hc; [|done]. injection E as <-. split; [|done]. cbn [r_pc].
    destruct (Z.eqb_spec busy 0) as [Hz|]; cbn [negb orb pc_ok].
    + destruct (bool_decide_reflect (e_gen e = Some (state_gen c))) as [Hg|]; cbn [negb pc_ok].
      * split; [done|]. by eapply cached_recent; eauto.
      * split_and!; [done|done|]. apply (wo_cells _ W _ _ Hc).
    + split_and!; [done|done|]. apply (wo_cells _ W _ _ Hc).
  - destruct Hpc as (Hb & Ho & Hg). destruct (dbs w !! db) as [c|] eqn:Hc; [|done]. injection E as <-. split; [|done].
    destruct (wo_cells _ W _ _ Hc) as (Hne & _). apply current_of_S in Hne. destruct Hb as (c' & Hc' & Hf). assert (c' = c) as -> by congruence. split.
    + intros g. cbn [owner e_state e_gen]. destruct (negb _); [done|]. intros [= <-]. split; [done|]. exists c, (current_of c). rewrite Ho.
      split_and!; [done|done|lia|]. lia.
    + split; [done|]. exists c, (current_of c). split_and!; [done|done|lia|lia].
  - destruct Hpc as (He & Hr). destruct (dbs w !! db) as [c|] eqn:Hc; [|done]. cbn in E. destruct (e_state e) as [p|]; [|done]. cbn in E.
    destruct (published c !! p) as [s|]; [|done]. cbn in E. injection E as <-. destruct (closed s); split; cbn; try done. by intros x [= <-].
  - injection E as <-. destruct Hpc as [He _]. split; [done|]. by intros x [= <-].
Qed.

(** ** Every step *)

Lemma set_reader_ok t r w : world_ok w -> reader_ok w r -> world_ok (set_reader t r w).
Proof.
  intros W Hr. apply (world_ok_same w); try done. cbn [readers set_reader]. apply Forall_insert.
  - eapply Forall_impl; [apply W|]. intros x. by apply reader_ok_later, same_later.
  - by eapply reader_ok_later; [apply same_later|].
Qed.

(** A call enters a publication. *)
Lemma enter_ok t x db pc w :
  world_ok w -> writers w !! t = Some x -> raised x = false -> unwaiting (w_pc x) ->
  raised (mkWriter db pc) = false -> unwaiting pc -> world_ok (set_writer t (mkWriter db pc) w).
Proof.
  intros W Ht Hx Hxq Hr Hrq. assert (Hlt : (t < length (writers w))%nat) by (by eapply lookup_lt_Some). set (w' := set_writer _ _ _).
  assert (Hwr : forall t' x', writers w' !! t' = Some x' -> x' = mkWriter db pc \/ writers w !! t' = Some x').
  { intros t' x'. cbn [w' writers set_writer]. destruct (decide (t' = t)) as [->|]; [|rewrite list_lookup_insert_ne by done; auto].
    rewrite list_lookup_insert_eq by done. intros [= <-]. by left. }
  assert (Hh : forall g t' x', writers w' !! t' = Some x' -> holds_gen g x' -> writers w !! t' = Some x').
  { intros g t' x' [->|?]%Hwr Hg; [by apply unwaiting_holds in Hg|done]. }
  assert (Htk : forall g, taken w' g -> taken w g) by (intros g (t' & x' & Ht' & Hg); exists t', x'; eauto).
  assert (L : later w w').
  { split; [|done|left; auto|intros t0 x0 d q Ht0 Hw0; left|intros t0 x0 d q Ht0 Hw0; left].
    - intros d c Hc. exists c. split_and!; [done|done|]. right. split; [done|]. lia.
    - exists x0. cbn. destruct (decide (t0 = t)) as [->|]; [|by rewrite list_lookup_insert_ne]. assert (x0 = x) as -> by congruence. by apply unwaiting_waits in Hw0.
    - exists x0. destruct (Hwr _ _ Ht0) as [->|?]; [by apply unwaiting_waits in Hw0|done]. }
  pose proof W as [Hcs Hrs Hle Ho]. split; [|eapply Forall_impl; [exact Hrs|]; intros r; by apply reader_ok_later|intros g Hg; by apply Hle, Htk|].
  - intros d c Hc. destruct (Hcs d c Hc) as (H1 & H2 & E). split_and!; [done|by eapply seen_later|]. cbn [w' writers set_writer].
    rewrite (lsum_insert _ _ _ _ x) by done. unfold raised_at at 2 3. rewrite Hx, Hr, !andb_false_r. lia.
  - intros g t1 t2 x1 x2 H1 H2 G1 G2. apply (Ho g t1 t2 x1 x2); eauto.
Qed.

Lemma quiet_unraised db w : quiet db w = true -> lsum (raised_at db) (writers w) = 0.
Proof.
  unfold quiet. intros [Hw _]%andb_true_iff. induction (writers w) as [|x l IH]; [done|]. cbn [forallb] in Hw. apply andb_true_iff in Hw as [Hx Hl].
  rewrite lsum_cons, IH by done. unfold raised_at, raised. destruct (w_db x =? db); [|done]. cbn in *. by destruct (w_pc x).
Qed.

Lemma open_ok db s w :
  world_ok w -> quiet db w = true ->
  world_ok (set_next_gen (next_gen w + 1) (set_cell db (mkCell (default [] (published <$> dbs w !! db) ++ [s]) 0 (next_gen w + 1)) w)).
Proof.
  intros W Hq. set (w' := set_next_gen _ _). assert (L : later w w').
  { split; cbn [w' dbs writers next_gen set_next_gen set_cell]; [|lia|by left|left; by exists x|left; by exists x'].
    intros d c Hc. destruct (decide (d = db)) as [->|].
    - eexists. rewrite lookup_insert_eq, Hc. split_and!; [done|cbn; rewrite length_app; lia|]. left. right. cbn. lia.
    - exists c. rewrite lookup_insert_ne by done. split_and!; [done|done|]. right. split; [done|]. lia. }
  destruct W as [Hcs Hrs Hle Ho]. split; [|eapply Forall_impl; [exact Hrs|]; intros r; by apply reader_ok_later|cbn; intros g Hg%Hle; lia|done].
  intros d c. cbn [w' dbs writers next_gen set_next_gen set_cell]. intros [[<- <-]|[Hne Hc]]%lookup_insert_Some.
  - split_and!; [cbn; by destruct (default _ _)| |cbn; by rewrite quiet_unraised]. split; [cbn; lia|]. intros Hg%Hle. cbn in Hg. lia.
  - destruct (Hcs d c Hc) as (H1 & H2 & E). split_and!; [done|by eapply seen_later|done].
Qed.

Lemma act_ok a w w' : world_ok w -> act a w = Some w' -> world_ok w'.
Proof.
  intros W. destruct a as [t db|t|t db s|t db reason|t| |t|db s]; cbn [act].
  - destruct (readers w !! t) as [r|] eqn:Hr; [|done]. cbn. destruct (dbs w !! db) as [c|] eqn:Hc; [|done]. cbn. destruct (r_pc r) eqn:Ep; try done.
    intros [= <-]. apply set_reader_ok; [done|]. pose proof (Forall_lookup_1 _ _ _ _ (wo_readers _ W) Hr) as [_ Hs]. split; [|done]. by exists c.
  - destruct (readers w !! t) as [r|] eqn:Hr; [|done]. cbn. destruct (read_step w r) as [r'|] eqn:E; [|done]. intros [= <-].
    apply set_reader_ok; [done|]. eapply read_step_ok; [done| |done]. by apply (Forall_lookup_1 _ _ _ _ (wo_readers _ W) Hr).
  - destruct (writers w !! t) as [x|] eqn:Hx; [|done]. cbn. destruct (w_pc x) eqn:Ep; try done. intros [= <-].
    apply (enter_ok t x); try done; [unfold raised; by rewrite Ep|by rewrite Ep].
  - destruct (writers w !! t) as [x|] eqn:Hx; [|done]. cbn. destruct (w_pc x) eqn:Ep; try done. intros [= <-].
    apply (enter_ok t x); try done; [unfold raised; by rewrite Ep|by rewrite Ep].
  - destruct (writers w !! t) as [x|] eqn:Hx; [|done]. cbn. by apply publish_step_ok.
  - intros [= <-]. apply (world_ok_same w); try done. eapply Forall_impl; [apply W|]. intros r. by apply reader_ok_later, same_later.
  - destruct (readers w !! t) as [r|] eqn:Hr; [|done]. cbn. destruct (r_slot r) eqn:Es; try done. intros [= <-].
    apply set_reader_ok; [done|]. pose proof (Forall_lookup_1 _ _ _ _ (wo_readers _ W) Hr) as [Hp _]. by split.
  - destruct (quiet db w) eqn:Hq; [|done]. intros [= <-]. by apply open_ok.
Qed.

Lemma started_ok n m : world_ok (started n m).
Proof.
  assert (Hno : forall t x, writers (started n m) !! t = Some x -> unwaiting (w_pc x)) by (intros t x [-> _]%lookup_replicate; done).
  split; [apply map_Forall_empty|by apply Forall_replicate| |].
  - intros g (t & x & Ht & Hg). by apply (unwaiting_holds g x) in Hg; [|eapply Hno].
  - intros g t t' x x' Ht _ Hg. by apply (unwaiting_holds g x) in Hg; [|eapply Hno].
Qed.

Lemma reachable_ok n m w : rtc steps (started n m) w -> world_ok w.
Proof.
  intros Hr. assert (W : world_ok (started n m)) by apply started_ok. induction Hr as [|w w1 w2 [a Ha] _ IH]; [done|]. apply IH. by eapply act_ok.
Qed.

(** ** Properties *)

(** The steps a read has left. *)
Definition steps_left (pc : ReadPc) : nat :=
  match pc with
  | RIdle => 0 | RGuard _ _ _ => 1 | RTouch _ _ _ => 2 | RState _ _ _ _ _ => 3
  | RGen _ _ _ _ => 4 | RBusy _ _ _ => 5 | ROwn _ _ _ => 6 | RClaim _ _ => 7
  end.

(** C36: a read sees every state published before it began.  Whatever order
    the steps of readers, publishers, scrapes and reopened databases are taken
    in, the state a read is given is one of the database it asked for, and no
    older than the newest one published when the read began, whether it came
    from the thread's cache or was loaded.  And a read is wait-free: it is
    never stuck, and each of its own steps brings it closer to its end. *)
Theorem read_sees_published n m w t r :
  rtc steps (started n m) w -> readers w !! t = Some r ->
  (forall db from e, r_pc r = RGuard db from e -> owner e = db /\ exists c p, dbs w !! db = Some c /\ e_state e = Some p
     /\ is_Some (published c !! p) /\ (from <= S p)%nat)
  /\ (r_pc r <> RIdle -> exists r', read_step w r = Some r' /\ (steps_left (r_pc r') < steps_left (r_pc r))%nat).
Proof.
  intros W%reachable_ok Hr. destruct (Forall_lookup_1 _ _ _ _ (wo_readers _ W) Hr) as [Hpc _]. split.
  - intros db from e E. rewrite E in Hpc. destruct Hpc as (_ & Ho & c & p & Hc & Hp & Hf). split; [done|].
    exists c, p. split_and!; [done|done| |lia]. apply lookup_lt_is_Some. lia.
  - unfold read_step. destruct (r_pc r) as [|db from|db from e|db from e|db from e busy|db from e busy gen|db from e|db from e]; cbn [pc_ok] in Hpc; intros Hne;
      [done|eexists; split; [done|cbn; lia]..| | | | |eexists; split; [done|cbn; lia]].
    + destruct Hpc as [(c & -> & _) _]. eexists. split; [done|]. cbn. lia.
    + destruct Hpc as [(c & -> & _) _]. eexists. split; [done|]. cbn. destruct (_ || _); cbn; lia.
    + destruct Hpc as [(c & -> & _) _]. eexists. split; [done|]. cbn. lia.
    + destruct Hpc as (_ & _ & c & p & -> & -> & Hf). cbn. destruct (lookup_lt_is_Some_2 (published c) p ltac:(lia)) as [s ->].
      eexists. split; [done|]. destruct (closed s); cbn; lia.
Qed.

Module ReadCacheFixture.
Definition run (acts : list Action) (w : World) : option World := foldl (fun o a => w ← o; act a w) (Some w) acts.

Lemma run_steps acts w w' : run acts w = Some w' -> rtc steps w w'.
Proof.
  unfold run. revert w. induction acts as [|a acts IH]; intros w; cbn [foldl]; [by intros [= ->]|]. cbn [mbind option_bind].
  destruct (act a w) as [w1|] eqn:E; [intros Hr; eapply rtc_l; [by exists a|by apply IH]|].
  assert (Hn : foldl (fun o a => w ← o; act a w) None acts = None) by (clear; induction acts; [done|by cbn]). by rewrite Hn.
Defined.

Definition state (n : Z) : EngineState := mkEngineState ∅ ∅ ∅ 0 1 n 0 0 Leader false "" false None.

(** A read that fills the cache, a publication, and a read begun after its
    exchange and before its generation is stored. *)
Definition acts : list Action :=
  [Open 7 (state 1); Read 0 7] ++ replicate 7 (ReadStep 0) ++ [Store 0 7 (state 2); PublishStep 0; PublishStep 0; Read 0 7]
  ++ replicate 4 (ReadStep 0) ++ [PublishStep 0; PublishStep 0] ++ replicate 2 (ReadStep 0).
End ReadCacheFixture.

Lemma read_sees_published_witness :
  exists w r e, rtc steps (started 1 1) w /\ readers w !! 0%nat = Some r /\ r_pc r = RGuard 7 2 e /\ owner e = 7 /\ e_state e = Some 1%nat
    /\ exists c p, dbs w !! 7 = Some c /\ e_state e = Some p /\ is_Some (published c !! p) /\ (2 <= S p)%nat.
Proof.
  destruct (ReadCacheFixture.run ReadCacheFixture.acts (started 1 1)) as [w|] eqn:E; [|by vm_compute in E].
  assert (Hr : rtc steps (started 1 1) w) by (by apply (ReadCacheFixture.run_steps ReadCacheFixture.acts)).
  vm_compute in E. injection E as <-. eexists _, _, _. split; [exact Hr|]. split; [reflexivity|]. split; [reflexivity|]. split; [reflexivity|]. split; [reflexivity|].
  apply (read_sees_published 1 1 _ 0 _ Hr eq_refl). reflexivity.
Defined.
