(* ===== verification/EngineProofs.v ===== *)
(** * Correctness of the engine state transitions

    The abstract store is a map from keys to values.  A key directory is read
    against the records the data files hold ([records]); [view] is the store
    it denotes.  The theorems show that applying a plan, by key or by
    location, is the plan's meaning on the abstract store, that the live-byte
    accounting stays exact modulo [2^64], and that sequences stay unique and
    below the next one. *)

From S2P Require Import Prelude Codec KeyDir DataFile EngineState.
Import Types Stats Dir Plan.

(** ** Live bytes *)

Definition live_weight (f : Z) (k : bytes) (e : KeyDirEntry) : Z :=
  if KeyDirEntry.file_id e =? f then entry_size (size k) (KeyDirEntry.value_size e) else 0.

(** Bytes of file [f] the key directory references. *)
Definition live_sum (f : Z) (kd : KeyDirTree) : Z := map_sum (live_weight f) kd.

(** Each file's counter is that sum, as a 64-bit integer. *)
Definition live_ok (kd : KeyDirTree) (stats : gmap Z FileStats) : Prop :=
  forall f fs, stats !! f = Some fs -> live_bytes fs = wrap 64 (live_sum f kd).

Definition patch_at (id : Z) (d : FileStatsDelta) (stats : gmap Z FileStats) : gmap Z FileStats :=
  alter (fun fs => apply fs d) id stats.

Definition rm_live (key : bytes) (o : option KeyDirEntry) (stats : gmap Z FileStats)
    : gmap Z FileStats :=
  match o with
  | Some e => patch_at (KeyDirEntry.file_id e)
                (d_live_removed (entry_size (size key) (KeyDirEntry.value_size e))) stats
  | None => stats
  end.

Lemma remove_live_stats key o t :
  remove_live key o t = set_file_stats (rm_live key o (t_file_stats t)) t.
Proof. destruct o; [done|]. by destruct t. Qed.

(** A delta that leaves live bytes alone. *)
Definition not_live (d : FileStatsDelta) : Prop := live_added d = 0 /\ live_removed d = 0.

(** No key references the file. *)
Lemma live_sum_none f kd :
  (forall k e, kd !! k = Some e -> KeyDirEntry.file_id e <> f) -> live_sum f kd = 0.
Proof.
  intros Hn. unfold live_sum. rewrite (map_sum_ext _ (fun _ _ => 0)).
  - unfold map_sum. induction (map_to_list kd) as [|x l IH]; [done|]. rewrite lsum_cons. cbn in *. lia.
  - intros k e Hk. unfold live_weight. by rewrite (proj2 (Z.eqb_neq _ _)) by by eapply Hn.
Qed.

Lemma live_ok_patch kd stats id d :
  live_ok kd stats -> not_live d -> live_ok kd (patch_at id d stats).
Proof.
  intros Hok [Ha Hr] f fs. unfold patch_at. destruct (decide (id = f)) as [->|Hne].
  - rewrite lookup_alter_eq. destruct (stats !! f) as [fs0|] eqn:E; [|done].
    intros [= <-]. unfold apply; simpl. rewrite Ha, Hr, (Hok _ _ E).
    rewrite Z.add_0_r, Z.sub_0_r. by autorewrite with u64.
  - rewrite lookup_alter_ne by done. apply Hok.
Qed.

Lemma live_ok_remove kd stats key :
  live_ok kd stats -> live_ok (delete key kd) (rm_live key (kd !! key) stats).
Proof.
  intros Hok f fs. unfold live_sum. rewrite map_sum_delete. unfold contrib.
  destruct (kd !! key) as [e|] eqn:Ek; simpl.
  - unfold patch_at, live_weight. destruct (Z.eqb_spec (KeyDirEntry.file_id e) f) as [->|Hne].
    + rewrite lookup_alter_eq. destruct (stats !! f) as [fs0|] eqn:E; [|done].
      intros [= <-]. unfold apply; simpl. rewrite (Hok _ _ E). unfold live_sum.
      rewrite Z.add_0_r. by autorewrite with u64.
    + rewrite lookup_alter_ne, Z.sub_0_r by done. apply Hok.
  - rewrite Z.sub_0_r. apply Hok.
Qed.

Lemma live_ok_add kd stats key e d :
  live_ok kd stats -> kd !! key = None ->
  live_added d = entry_size (size key) (KeyDirEntry.value_size e) -> live_removed d = 0 ->
  live_ok (<[key := e]> kd) (patch_at (KeyDirEntry.file_id e) d stats).
Proof.
  intros Hok Hk Ha Hr f fs. unfold live_sum. rewrite map_sum_insert_new by done.
  unfold patch_at, live_weight at 1. destruct (Z.eqb_spec (KeyDirEntry.file_id e) f) as [->|Hne].
  - rewrite lookup_alter_eq. destruct (stats !! f) as [fs0|] eqn:E; [|done].
    intros [= <-]. unfold apply; simpl. rewrite (Hok _ _ E), Ha, Hr. unfold live_sum.
    autorewrite with u64. apply (f_equal (wrap 64)). lia.
  - rewrite lookup_alter_ne by done. rewrite Z.add_0_l. apply Hok.
Qed.

(** Replacing or inserting one key. *)
Lemma live_ok_put kd stats key e d :
  live_ok kd stats ->
  live_added d = entry_size (size key) (KeyDirEntry.value_size e) -> live_removed d = 0 ->
  live_ok (<[key := e]> kd)
          (patch_at (KeyDirEntry.file_id e) d (rm_live key (kd !! key) stats)).
Proof.
  intros Hok Ha Hr. rewrite <-insert_delete_eq. apply live_ok_add; try done.
  - by apply live_ok_remove.
  - apply lookup_delete_eq.
Qed.

Definition rm_live_all (l : list (bytes * KeyDirEntry)) (stats : gmap Z FileStats)
    : gmap Z FileStats :=
  foldl (fun st p => rm_live p.1 (Some p.2) st) stats l.

Lemma remove_live_all_stats l t :
  remove_live_all l t = set_file_stats (rm_live_all l (t_file_stats t)) t.
Proof.
  unfold remove_live_all, rm_live_all. revert t. induction l as [|p l IH]; intros t; simpl.
  - by destruct t.
  - by rewrite IH.
Qed.

Lemma live_ok_erase kd stats (l : list (bytes * KeyDirEntry)) :
  live_ok kd stats -> NoDup l.*1 -> (forall k e, (k, e) ∈ l -> kd !! k = Some e) ->
  live_ok (erase_keys kd l.*1) (rm_live_all l stats).
Proof.
  revert kd stats. induction l as [|[k e] l IH]; intros kd stats Hok Hn Hl; simpl; [done|].
  apply NoDup_cons in Hn as [Hk Hn].
  change (erase_keys kd (k :: l.*1)) with (erase_keys (delete k kd) l.*1).
  change (rm_live_all ((k, e) :: l) stats) with (rm_live_all l (rm_live k (Some e) stats)).
  apply IH; [|done|].
  - pose proof (live_ok_remove kd stats k Hok) as Hr. by rewrite (Hl k e) in Hr by left.
  - intros k' e' Hin. rewrite lookup_delete_ne; [apply Hl; by right|].
    intros ->. apply Hk. apply list_elem_of_fmap. by exists (k', e').
Qed.

(** Which files have statistics does not change. *)
Lemma patch_at_dom id d stats f : is_Some (patch_at id d stats !! f) <-> is_Some (stats !! f).
Proof. unfold patch_at. apply lookup_alter_is_Some. Qed.

Lemma rm_live_dom key o stats f : is_Some (rm_live key o stats !! f) <-> is_Some (stats !! f).
Proof. destruct o; [apply patch_at_dom|done]. Qed.

Lemma rm_live_all_dom l stats f : is_Some (rm_live_all l stats !! f) <-> is_Some (stats !! f).
Proof.
  unfold rm_live_all. revert stats. induction l as [|p l IH]; intros stats; simpl; [done|].
  rewrite IH. destruct p as [k e]. apply (rm_live_dom k (Some e)).
Qed.

(** ** Records and the store they denote *)

(** The record at an offset of a file. *)
Abbreviation records := (Z -> Z -> option DataEntry).

(** The entry [e] of key [k] names a put of [k], with its sequence and size. *)
Record resolves (recs : records) (k : bytes) (e : KeyDirEntry) : Prop := {
  rs_offset : 0 <= KeyDirEntry.file_offset e < 2 ^ 32;
  rs_record : exists v,
    recs (KeyDirEntry.file_id e) (KeyDirEntry.file_offset e)
    = Some (mkDataEntry (KeyDirEntry.sequence e) Put k v)
    /\ size v = KeyDirEntry.value_size e
}.

Definition kd_resolves (recs : records) (kd : KeyDirTree) : Prop :=
  map_Forall (resolves recs) kd.

Definition value_of (recs : records) (e : KeyDirEntry) : option bytes :=
  de_value <$> recs (KeyDirEntry.file_id e) (KeyDirEntry.file_offset e).

(** The store a key directory denotes. *)
Definition view (recs : records) (kd : KeyDirTree) : gmap bytes bytes :=
  omap (value_of recs) kd.

(** The abstract store: what each write means. *)
Definition kv_op (w : WriteOp) (m : gmap bytes bytes) : gmap bytes bytes :=
  match w with
  | PointPut k v => <[k := v]> m
  | PointDel k => delete k m
  | OpRangeDel f t => filter (fun p => in_range f t p.1 = false) m
  end.

Definition kv_ops (ws : list WriteOp) (m : gmap bytes bytes) : gmap bytes bytes :=
  foldl (fun m w => kv_op w m) m ws.

Lemma view_insert recs kd k e v :
  value_of recs e = Some v -> view recs (<[k := e]> kd) = <[k := v]> (view recs kd).
Proof. intros Hv. unfold view. by apply omap_insert_Some. Qed.

Lemma view_delete recs kd k : view recs (delete k kd) = delete k (view recs kd).
Proof. unfold view. apply omap_delete. Qed.

Lemma view_erase_range recs kd from to :
  view recs (erase_keys kd (kd_range kd from to).*1)
  = filter (fun p => in_range from to p.1 = false) (view recs kd).
Proof.
  apply map_eq. intros k. unfold view. rewrite lookup_omap, erase_range_lookup.
  rewrite map_lookup_filter, lookup_omap.
  destruct (kd !! k) as [e|]; destruct (in_range from to k) eqn:Er; simpl; try done;
    destruct (value_of recs e) as [v|]; simpl; try done; case_guard; simpl in *; congruence.
Qed.

Lemma resolves_value recs k e :
  resolves recs k e -> exists v, value_of recs e = Some v /\ size v = KeyDirEntry.value_size e.
Proof. intros [_ (v & Hr & Hs)]. exists v. unfold value_of. by rewrite Hr. Qed.

(** Two entries of one key at one record are the same entry. *)
Lemma same_ref_resolves recs k a b :
  resolves recs k a -> resolves recs k b -> same_ref a b = true -> a = b.
Proof.
  intros [Ha (va & Hra & Hsa)] [Hb (vb & Hrb & Hsb)] Hs.
  unfold same_ref in Hs. bool_to_prop. rewrite !wrap_small in * by (unfold fits; lia).
  assert (Hrec : recs (KeyDirEntry.file_id a) (KeyDirEntry.file_offset a)
               = recs (KeyDirEntry.file_id b) (KeyDirEntry.file_offset b)) by congruence.
  rewrite Hra, Hrb in Hrec. injection Hrec as Hseq Hval.
  apply KeyDirEntry.entry_ext; congruence.
Qed.

(** ** The by-location path *)

Section by_location.
Context `{KeyDirKind} (recs : records).

(** A key still at a record resolved earlier is that entry. *)
Lemma kd_holds_entry kd key a :
  kd_resolves recs kd -> resolves recs key a -> kd_holds kd key a = true ->
  kd !! key = Some a.
Proof.
  intros Hkd Ha Hh. unfold kd_holds in Hh. apply andb_true_iff in Hh as [_ Hh].
  destruct (kd !! key) as [c|] eqn:E; [|done]. f_equal.
  by apply (same_ref_resolves recs key); [apply Hkd| |].
Qed.

Lemma place_by_key kd key at_ e :
  kd_resolves recs kd -> (forall a, at_ = Some a -> resolves recs key a) ->
  place kd key at_ e = kd_put kd key e.
Proof.
  intros Hkd Hat. unfold place, kd_put_at, kd_hit. destruct at_ as [a|]; [|done].
  destruct (kd_holds kd key a) eqn:Hh; [|done].
  unfold kd_put. by rewrite (kd_holds_entry kd key a) by auto.
Qed.

Lemma displace_by_key kd key at_ :
  kd_resolves recs kd -> (forall a, at_ = Some a -> resolves recs key a) ->
  displace kd key at_ = kd_erase kd key.
Proof.
  intros Hkd Hat. unfold displace, kd_erase_at, kd_hit. destruct at_ as [a|]; [|done].
  destruct (kd_holds kd key a) eqn:Hh; [|done].
  unfold kd_erase. by rewrite (kd_holds_entry kd key a) by auto.
Qed.

End by_location.

(** ** Counters other than live bytes *)

Definition fs_fits (fs : FileStats) : Prop :=
  fits 64 (total_bytes fs) /\ fits 64 (tombstone_bytes fs) /\ fits 64 (marker_bytes fs)
  /\ fits 64 (change_marker_bytes fs) /\ 0 <= min_sequence fs /\ 0 <= max_sequence fs.

Definition no_live (fs : FileStats) : FileStats :=
  mkFileStats 0 (total_bytes fs) (min_sequence fs) (max_sequence fs) (tombstone_bytes fs)
    (marker_bytes fs) (change_marker_bytes fs).

Definition no_live_delta (d : FileStatsDelta) : FileStatsDelta :=
  mkDelta 0 0 (total_added d) (tombstone_added d) (marker_added d) (change_marker_added d)
    (d_min_sequence d) (d_max_sequence d).

Lemma no_live_apply fs d : no_live (apply fs d) = apply (no_live fs) (no_live_delta d).
Proof. reflexivity. Qed.

Lemma apply_fits fs d :
  fs_fits fs -> 0 <= d_min_sequence d -> fs_fits (apply fs d).
Proof.
  intros (?&?&?&?&?&?) Hd. unfold fs_fits, apply; simpl.
  split_and!; try (apply wrap_fits; lia); [destruct (min_sequence fs =? 0)|]; lia.
Qed.

Definition d_zero : FileStatsDelta := mkDelta 0 0 0 0 0 0 0 0.

Lemma apply_d_zero fs : fs_fits fs -> apply (no_live fs) d_zero = no_live fs.
Proof.
  intros (?&?&?&?&?&?). unfold apply, no_live; simpl. rewrite !Z.add_0_r, Z.sub_0_r.
  rewrite !(wrap_small 64) by (done || (unfold fits; lia)).
  rewrite Z.max_l by done. f_equal. by destruct (Z.eqb_spec (min_sequence fs) 0).
Qed.

Definition stats_fit (stats : gmap Z FileStats) : Prop := map_Forall (fun _ fs => fs_fits fs) stats.

(** [stats'] is [stats] with file [a]'s counters moved by [d], live bytes
    aside. *)
Definition counted (a : Z) (d : FileStatsDelta) (stats stats' : gmap Z FileStats) : Prop :=
  stats_fit stats' /\
  forall f, no_live <$> stats' !! f
    = (fun fs => if f =? a then apply (no_live fs) d else no_live fs) <$> stats !! f.

Lemma stats_fit_patch id d stats :
  stats_fit stats -> 0 <= d_min_sequence d -> stats_fit (patch_at id d stats).
Proof.
  intros Hfit Hd f fs. unfold patch_at. rewrite lookup_alter.
  case_decide; [|apply Hfit]. destruct (stats !! id) as [fs0|] eqn:E; [|done].
  intros [= <-]. apply apply_fits; [by eapply Hfit|done].
Qed.

Lemma counted_refl a stats : stats_fit stats -> counted a d_zero stats stats.
Proof.
  intros Hfit. split; [done|]. intros f. destruct (stats !! f) as [fs|] eqn:E; [|done]. simpl.
  destruct (f =? a); [|done]. by rewrite apply_d_zero by by eapply Hfit.
Qed.

Lemma counted_patch a d d' stats stats' :
  counted a d stats stats' -> 0 <= d_min_sequence d' ->
  counted a (combine d (no_live_delta d')) stats (patch_at a d' stats').
Proof.
  intros [Hfit Hc] Hd. split; [by apply stats_fit_patch|]. intros f. specialize (Hc f).
  unfold patch_at. rewrite lookup_alter. case_decide as Ha.
  - subst f. rewrite Z.eqb_refl in *. destruct (stats' !! a) as [fs'|] eqn:E', (stats !! a) as [fs|] eqn:E;
      simpl in *; try done. apply (inj Some) in Hc. by rewrite no_live_apply, Hc, apply_combine.
  - rewrite (proj2 (Z.eqb_neq f a)) in * by congruence. done.
Qed.

Lemma counted_rm_live a d key o stats stats' :
  counted a d stats stats' -> counted a d stats (rm_live key o stats').
Proof.
  intros [Hfit Hc]. destruct o as [e|]; [|done]. split; [by apply stats_fit_patch|].
  intros f. rewrite <-Hc. unfold rm_live, patch_at. rewrite lookup_alter. case_decide as Hf; [|done].
  rewrite Hf. destruct (stats' !! f) as [fs'|] eqn:E'; simpl; [|done]. f_equal.
  rewrite no_live_apply. by apply apply_d_zero, (Hfit f).
Qed.

Lemma counted_rm_live_all a d l stats stats' :
  counted a d stats stats' -> counted a d stats (rm_live_all l stats').
Proof.
  unfold rm_live_all. revert stats'. induction l as [|p l IH]; intros stats' Hc; simpl; [done|].
  apply IH. by apply (counted_rm_live a d p.1 (Some p.2)).
Qed.

(** What an entry adds to its file's counters. *)
Definition entry_counts (e : DataEntry) : FileStatsDelta :=
  mkDelta 0 0 (entry_size (size (de_key e)) (size (de_value e)))
    (tombstone_size (de_type e) (size (de_key e)) (size (de_value e)))
    (marker_size (de_type e)) (change_marker_size (de_type e)) 0 0.

Definition entries_counts (es : list DataEntry) : FileStatsDelta :=
  foldl (fun d e => combine d (entry_counts e)) d_zero es.

Lemma entries_counts_snoc es e :
  entries_counts (es ++ [e]) = combine (entries_counts es) (entry_counts e).
Proof. unfold entries_counts. by rewrite foldl_app. Qed.

(** ** The invariant of the working copy *)

Record wf (recs : records) (t : TransientEngineState) : Prop := {
  wf_resolves : kd_resolves recs (t_key_dir t);
  wf_live : live_ok (t_key_dir t) (t_file_stats t);
  wf_fit : stats_fit (t_file_stats t);
  wf_files : forall k e, t_key_dir t !! k = Some e ->
               is_Some (t_file_stats t !! KeyDirEntry.file_id e);
  wf_active : is_Some (t_file_stats t !! t_active_file_id t);
  wf_active_id : 0 <= t_active_file_id t <= KeyDirEntry.kMaxFileId;
  wf_next : 0 < t_next_seq t;
  wf_seq : forall k e, t_key_dir t !! k = Some e ->
             0 < KeyDirEntry.sequence e < t_next_seq t;
  wf_uniq : forall k k' e e', t_key_dir t !! k = Some e -> t_key_dir t !! k' = Some e' ->
              KeyDirEntry.sequence e = KeyDirEntry.sequence e' -> k = k'
}.

(** The members a write does not touch. *)
Record same_rest (t t' : TransientEngineState) : Prop := {
  sr_files : t_files t' = t_files t;
  sr_active : t_active_file_id t' = t_active_file_id t;
  sr_next_file : t_next_file_id t' = t_next_file_id t;
  sr_durable : t_durable_seq t' = t_durable_seq t;
  sr_sync : t_sync_requested_seq t' = t_sync_requested_seq t;
  sr_mode : t_mode t' = t_mode t;
  sr_degraded : t_degraded t' = t_degraded t;
  sr_reason : t_degraded_reason t' = t_degraded_reason t;
  sr_markers : t_change_markers t' = t_change_markers t
}.

#[export] Instance same_rest_refl : Reflexive same_rest.
Proof. by intros t. Qed.
#[export] Instance same_rest_trans : Transitive same_rest.
Proof. intros a b c [] []. split; congruence. Qed.

(** Growing the key directory by one resolved entry with the next sequence. *)
Lemma wf_step recs t t' :
  wf recs t -> same_rest t t' -> t_next_seq t <= t_next_seq t' ->
  stats_fit (t_file_stats t') ->
  (forall f, is_Some (t_file_stats t !! f) -> is_Some (t_file_stats t' !! f)) ->
  live_ok (t_key_dir t') (t_file_stats t') ->
  (forall k e, t_key_dir t' !! k = Some e ->
     t_key_dir t !! k = Some e \/
     (resolves recs k e /\ KeyDirEntry.file_id e = t_active_file_id t
      /\ KeyDirEntry.sequence e = t_next_seq t /\ t_next_seq t < t_next_seq t'
      /\ forall k' e', t_key_dir t' !! k' = Some e' -> k' <> k -> t_key_dir t !! k' = Some e')) ->
  wf recs t'.
Proof.
  intros [] Hr Hn Hfit Hdom Hlive Hkd. pose proof (sr_active _ _ Hr) as Ha.
  split; rewrite ?Ha; auto; try lia.
  - intros k e Hk. destruct (Hkd k e Hk) as [?|[? _]]; [by apply wf_resolves0|done].
  - intros k e Hk. destruct (Hkd k e Hk) as [?|(_ & -> & _)]; eauto.
  - intros k e Hk. destruct (Hkd k e Hk) as [Hk'|(_ & _ & -> & ? & _)];
      [specialize (wf_seq0 _ _ Hk')|]; lia.
  - intros k k' e e' Hk Hk' Heq. destruct (decide (k' = k)) as [->|Hne]; [done|].
    destruct (Hkd k e Hk) as [Hk0|(_ & _ & Hse & _ & Ho)],
      (Hkd k' e' Hk') as [Hk1|(_ & _ & Hse' & _ & Ho')].
    + eauto.
    + specialize (wf_seq0 _ _ Hk0). lia.
    + specialize (wf_seq0 _ _ Hk1). lia.
    + specialize (Ho k' e' Hk' Hne). specialize (wf_seq0 _ _ Ho). lia.
Qed.

(** An entry of the key directory is an old one, or one of the active file with
    a sequence from [t_next_seq t] on. *)
Definition old_or_new (t t' : TransientEngineState) : Prop :=
  forall k e, t_key_dir t' !! k = Some e ->
    t_key_dir t !! k = Some e
    \/ (KeyDirEntry.file_id e = t_active_file_id t /\ t_next_seq t <= KeyDirEntry.sequence e).

(** One write of a plan, done. *)
Record op_step (recs : records) (w : WriteOp) (t t' : TransientEngineState) : Prop := {
  os_wf : wf recs t';
  os_rest : same_rest t t';
  os_seq : t_next_seq t' = t_next_seq t + 1;
  os_view : view recs (t_key_dir t') = kv_op w (view recs (t_key_dir t));
  os_new : old_or_new t t';
  os_count : forall stats0 d,
    counted (t_active_file_id t) d stats0 (t_file_stats t) ->
    counted (t_active_file_id t) (combine d (entry_counts (op_entry (t_next_seq t) w)))
      stats0 (t_file_stats t')
}.

(** The fields of a put fit a packed entry. *)
Definition op_fits (w : WriteOp) (offset : Z) : Prop :=
  match w with
  | PointPut _ v => size v <= KeyDirEntry.kMaxValueSize
                    /\ 0 <= offset <= KeyDirEntry.kMaxFileOffset
  | _ => True
  end.

Definition op_key (w : WriteOp) : bytes :=
  match w with PointPut k _ | PointDel k => k | OpRangeDel f _ => f end.

Section steps.
Context `{KeyDirKind} (recs : records).

Lemma size_nonneg b : 0 <= size b.
Proof. unfold size. lia. Qed.

Lemma advance_seq_next t :
  0 < t_next_seq t -> t_next_seq t <= KeyDirEntry.kMaxSequence ->
  u64_add (t_next_seq t) 1 = t_next_seq t + 1.
Proof. intros. apply wrap_small. unfold fits, KeyDirEntry.kMaxSequence in *. lia. Qed.

Lemma op_step_intro w t t' :
  wf recs t -> same_rest t t' -> t_next_seq t' = t_next_seq t + 1 ->
  live_ok (t_key_dir t') (t_file_stats t') ->
  (forall f, is_Some (t_file_stats t !! f) -> is_Some (t_file_stats t' !! f)) ->
  (forall k e, t_key_dir t' !! k = Some e ->
     t_key_dir t !! k = Some e \/
     (resolves recs k e /\ KeyDirEntry.file_id e = t_active_file_id t
      /\ KeyDirEntry.sequence e = t_next_seq t
      /\ forall k' e', t_key_dir t' !! k' = Some e' -> k' <> k -> t_key_dir t !! k' = Some e')) ->
  view recs (t_key_dir t') = kv_op w (view recs (t_key_dir t)) ->
  (forall stats0 d,
    counted (t_active_file_id t) d stats0 (t_file_stats t) ->
    counted (t_active_file_id t) (combine d (entry_counts (op_entry (t_next_seq t) w)))
      stats0 (t_file_stats t')) ->
  op_step recs w t t'.
Proof.
  intros Hwf Hr Hn Hlive Hdom Hkd Hview Hcount. split; auto;
    [|intros k e Hk; destruct (Hkd k e Hk) as [?|(? & ? & ? & _)]; [by left|right; lia]].
  apply (wf_step recs t); auto; try lia.
  - apply (Hcount _ _ (counted_refl _ _ (wf_fit _ _ Hwf))).
  - intros k e Hk. destruct (Hkd k e Hk) as [?|(?&?&?&?)]; [by left|right]. split_and!; auto; lia.
Qed.

(** A placed put packs into an entry that resolves to it. *)
Lemma put_made act n off k v :
  0 <= act <= KeyDirEntry.kMaxFileId -> 0 < n <= KeyDirEntry.kMaxSequence ->
  op_fits (PointPut k v) off -> recs act off = Some (op_entry n (PointPut k v)) ->
  Serialization.narrow 32 (size v) = Ok (size v)
  /\ exists e, KeyDirEntry.make n off act (size v) = Ok e /\ resolves recs k e
     /\ value_of recs e = Some v
     /\ KeyDirEntry.fields e n off act (size v).
Proof.
  intros Hid Hn [Hv Hoff] Hrec. pose proof (size_nonneg v) as Hv0. split.
  - unfold Serialization.narrow.
    by rewrite (proj2 (fitsb_true 32 (size v)))
      by (unfold fits, KeyDirEntry.kMaxValueSize in *; lia).
  - destruct (KeyDirEntry.make_fields n off act (size v)) as (e & -> & Hf).
    { unfold KeyDirEntry.packable. lia. }
    exists e. pose proof Hf as [Es Eo Ef Ev]. split_and!; [done| | |done].
    + split; [rewrite Eo; unfold KeyDirEntry.kMaxFileOffset in *; lia|]. exists v.
      by rewrite Ef, Eo, Es, Ev.
    + unfold value_of. by rewrite Ef, Eo, Hrec.
Qed.

Lemma apply_put_step k v at_ off t :
  wf recs t -> t_next_seq t <= KeyDirEntry.kMaxSequence -> op_fits (PointPut k v) off ->
  (forall a, at_ = Some a -> resolves recs k a) ->
  recs (t_active_file_id t) off = Some (op_entry (t_next_seq t) (PointPut k v)) ->
  exists t', apply_put k v at_ off t = Ok t' /\ op_step recs (PointPut k v) t t'.
Proof.
  intros Hwf Hseq Hfit Hat Hrec. unfold apply_put.
  pose proof (wf_active_id _ _ Hwf) as Hid. pose proof (wf_next _ _ Hwf) as Hn0.
  destruct (put_made (t_active_file_id t) (t_next_seq t) off k v) as (-> & e & He & Hres & Hval & Hf);
    [done|lia|done|done|]. destruct Hf as [Es Eo Ef Ev].
  cbn [mbind result_bind].
  set (t1 := note_pending off (t_next_seq t) k (size v) t).
  assert (Hkd1 : t_key_dir t1 = t_key_dir t) by (unfold t1, note_pending; by case_match).
  assert (Hst1 : t_file_stats t1 = t_file_stats t) by (unfold t1, note_pending; by case_match).
  assert (Hns1 : t_next_seq t1 = t_next_seq t) by (unfold t1, note_pending; by case_match).
  assert (Hr1 : same_rest t t1) by (unfold t1, note_pending; by case_match).
  pose proof (sr_active _ _ Hr1) as Ha1. rewrite Hns1, Ha1, He.
  cbn [mbind result_bind]. rewrite Hkd1.
  rewrite (place_by_key recs (t_key_dir t) k at_ e (wf_resolves _ _ Hwf) Hat).
  unfold kd_put. rewrite remove_live_stats. eexists. split; [reflexivity|].
  set (t' := advance_seq _).
  assert (Hkd : t_key_dir t' = <[k := e]> (t_key_dir t)) by done.
  assert (Hst : t_file_stats t' = patch_at (t_active_file_id t) (d_put (entry_size (size k) (size v)))
                  (rm_live k (t_key_dir t !! k) (t_file_stats t))).
  { rewrite <-Hst1, <-Ha1. done. }
  assert (Hn : t_next_seq t' = t_next_seq t + 1).
  { rewrite <-advance_seq_next, <-Hns1 by done. done. }
  apply op_step_intro; rewrite ?Hkd, ?Hst, ?Hn; try done.
  - by destruct Hr1; split.
  - rewrite <-Ef. apply live_ok_put; simpl; rewrite ?Ev; [apply Hwf|done|done].
  - intros f Hf. by apply patch_at_dom, rm_live_dom.
  - intros k' e' [[-> ->]|[Hne Hk']]%lookup_insert_Some; [right|by left].
    rewrite Ef, Es. split_and!; [done..|].
    intros k'' e'' Hk'' Hne. by rewrite lookup_insert_ne in Hk''.
  - by rewrite (view_insert recs _ k e v).
  - intros stats0 d Hc. apply (counted_patch _ _ (d_put _)); [by apply counted_rm_live|done].
Qed.

Lemma apply_del_step k at_ t :
  wf recs t -> t_next_seq t <= KeyDirEntry.kMaxSequence ->
  (forall a, at_ = Some a -> resolves recs k a) ->
  op_step recs (PointDel k) t (apply_del k at_ t).
Proof.
  intros Hwf Hseq Hat. unfold apply_del.
  rewrite (displace_by_key recs (t_key_dir t) k at_ (wf_resolves _ _ Hwf) Hat).
  unfold kd_erase. rewrite remove_live_stats. set (t' := advance_seq _).
  assert (Hst : t_file_stats t' = patch_at (t_active_file_id t) (d_tombstone (entry_size (size k) 0))
                  (rm_live k (t_key_dir t !! k) (t_file_stats t))) by done.
  assert (Hn : t_next_seq t' = t_next_seq t + 1)
    by (by rewrite <-advance_seq_next by (done || apply Hwf)).
  apply op_step_intro; rewrite ?Hst, ?Hn; try done.
  - apply live_ok_patch; [|done]. apply live_ok_remove, Hwf.
  - intros f Hf. by apply patch_at_dom, rm_live_dom.
  - intros k' e' Hk'. left. change (delete k (t_key_dir t) !! k' = Some e') in Hk'.
    by apply lookup_delete_Some in Hk' as [_ ?].
  - apply view_delete.
  - intros stats0 d Hc. apply (counted_patch _ _ (d_tombstone _)); [by apply counted_rm_live|done].
Qed.

Lemma erase_range_live kd stats from to :
  live_ok kd stats ->
  live_ok (erase_keys kd (kd_range kd from to).*1) (rm_live_all (kd_range kd from to) stats).
Proof.
  intros Hl. apply live_ok_erase; [done|apply NoDup_kd_range|].
  intros k e Hin. by apply elem_of_kd_range in Hin as [? _].
Qed.

Lemma apply_range_del_step from to t :
  wf recs t -> t_next_seq t <= KeyDirEntry.kMaxSequence ->
  op_step recs (OpRangeDel from to) t (apply_range_del from to t).
Proof.
  intros Hwf Hseq. unfold apply_range_del, erase_range. rewrite remove_live_all_stats.
  set (t' := advance_seq _).
  assert (Hn : t_next_seq t' = t_next_seq t + 1)
    by (by rewrite <-advance_seq_next by (done || apply Hwf)).
  assert (Hst : t_file_stats t' = patch_at (t_active_file_id t)
      (d_tombstone (entry_size (size from) (size to)))
      (rm_live_all (kd_range (t_key_dir t) from to) (t_file_stats t))) by done.
  apply op_step_intro; rewrite ?Hst, ?Hn; try done.
  - apply live_ok_patch; [|done]. apply erase_range_live, Hwf.
  - intros f Hf. by apply patch_at_dom, rm_live_all_dom.
  - intros k' e' Hk'. left. change (erase_keys (t_key_dir t)
      (kd_range (t_key_dir t) from to).*1 !! k' = Some e') in Hk'.
    rewrite erase_range_lookup in Hk'.
    by destruct (in_range from to k').
  - apply view_erase_range.
  - intros stats0 d Hc. apply (counted_patch _ _ (d_tombstone _)); [by apply counted_rm_live_all|done].
Qed.

Lemma apply_op_step w at_ off t :
  wf recs t -> t_next_seq t <= KeyDirEntry.kMaxSequence -> op_fits w off ->
  (forall a, at_ = Some a -> resolves recs (op_key w) a) ->
  recs (t_active_file_id t) off = Some (op_entry (t_next_seq t) w) ->
  exists t', apply_op w at_ off t = Ok t' /\ op_step recs w t t'.
Proof.
  intros Hwf Hseq Hfit Hat Hrec. destruct w as [k v|k|f to]; simpl.
  - by apply apply_put_step.
  - eexists. split; [done|]. by apply apply_del_step.
  - eexists. split; [done|]. by apply apply_range_del_step.
Qed.

End steps.

(** ** A whole plan *)

(** A run of appended entries: what the working copy [t'] holds after them. *)
Record run_step (recs : records) (ws : list WriteOp) (es : list DataEntry)
    (t t' : TransientEngineState) : Prop := {
  rn_wf : wf recs t';
  rn_rest : same_rest t t';
  rn_seq : t_next_seq t' = t_next_seq t + Z.of_nat (length es);
  rn_view : view recs (t_key_dir t') = kv_ops ws (view recs (t_key_dir t));
  rn_new : old_or_new t t';
  rn_count : forall stats0 d,
    counted (t_active_file_id t) d stats0 (t_file_stats t) ->
    counted (t_active_file_id t) (foldl (fun d e => combine d (entry_counts e)) d es)
      stats0 (t_file_stats t')
}.

Lemma run_step_nil recs t : wf recs t -> run_step recs [] [] t t.
Proof. intros. split; try done; [simpl; lia|by left]. Qed.

Lemma run_step_app recs ws ws' es es' a b c :
  run_step recs ws es a b -> run_step recs ws' es' b c ->
  run_step recs (ws ++ ws') (es ++ es') a c.
Proof.
  intros [Hw1 Hr1 Hs1 Hv1 Ho1 Hc1] [Hw2 Hr2 Hs2 Hv2 Ho2 Hc2]. split.
  - done.
  - by etrans.
  - rewrite length_app. lia.
  - unfold kv_ops in *. by rewrite foldl_app, Hv2, Hv1.
  - intros k e [?|[Hf Hq]]%Ho2; [by apply Ho1|right]. rewrite Hf, (sr_active _ _ Hr1). split; [done|lia].
  - intros stats0 d Hc. rewrite foldl_app. rewrite (sr_active _ _ Hr1) in Hc2. auto.
Qed.

Lemma op_step_run recs w t t' :
  op_step recs w t t' -> run_step recs [w] [op_entry (t_next_seq t) w] t t'.
Proof. intros []. by split. Qed.

Fixpoint ops_from (seq : Z) (ws : list WriteOp) : list DataEntry :=
  match ws with
  | [] => []
  | w :: ws' => op_entry seq w :: ops_from (seq + 1) ws'
  end.

Lemma length_ops_from seq ws : length (ops_from seq ws) = length ws.
Proof. revert seq. induction ws; intros; simpl; auto. Qed.

Lemma op_entries_from seq ws :
  0 <= seq -> seq + Z.of_nat (length ws) < 2 ^ 64 ->
  op_entries seq ws = (ops_from seq ws, seq + Z.of_nat (length ws)).
Proof.
  revert seq. induction ws as [|w ws IH]; intros seq H0 Hb; cbn [op_entries ops_from length] in *.
  - by rewrite Z.add_0_r.
  - rewrite Nat2Z.inj_succ in *. rewrite wrap_small by (unfold fits; lia).
    rewrite IH by lia. f_equal. lia.
Qed.

Definition bulk_begin (seq : Z) : DataEntry := mkDataEntry seq BulkBegin [] [].
Definition bulk_end (seq : Z) : DataEntry := mkDataEntry seq BulkEnd [] [].

(** The entries of a plan, with the sequences written out. *)
Lemma prepare_write_shape t p :
  0 <= t_next_seq t -> t_next_seq t + Z.of_nat (length (writes p)) + 2 < 2 ^ 64 ->
  prepare_write t p =
  match writes p with
  | [] => []
  | [w] => [op_entry (t_next_seq t) w]
  | ws => bulk_begin (t_next_seq t) :: ops_from (t_next_seq t + 1) ws
          ++ [bulk_end (t_next_seq t + 1 + Z.of_nat (length ws))]
  end.
Proof.
  intros H0 Hb. unfold prepare_write, write_count.
  destruct (writes p) as [|w [|w' ws]] eqn:E; [done|done|].
  cbn [length Nat.eqb]. cbv zeta.
  replace (1 <? S (S (length ws)))%nat with true by (symmetry; apply Nat.ltb_lt; lia).
  cbn [length] in Hb. rewrite !Nat2Z.inj_succ in Hb.
  rewrite wrap_small by (unfold fits; lia).
  rewrite op_entries_from by (cbn [length]; lia). done.
Qed.

Section plans.
Context `{KeyDirKind} (recs : records).

(** Each write of [ws] is where its entry was placed. *)
Fixpoint placed (act seq : Z) (ws : list WriteOp) (offsets : list Z) : Prop :=
  match ws with
  | [] => True
  | w :: ws' =>
      recs act (hd 0 offsets) = Some (op_entry seq w) /\ op_fits w (hd 0 offsets)
      /\ placed act (seq + 1) ws' (tl offsets)
  end.

Lemma apply_ops_run p idx ws offsets t :
  wf recs t -> t_next_seq t + Z.of_nat (length ws) <= KeyDirEntry.kMaxSequence + 1 ->
  placed (t_active_file_id t) (t_next_seq t) ws offsets ->
  (forall i w a, ws !! i = Some w -> resolved_entry p (idx + i) = Some a ->
     resolves recs (op_key w) a) ->
  exists t', apply_ops p idx ws offsets t = Ok t'
             /\ run_step recs ws (ops_from (t_next_seq t) ws) t t'.
Proof.
  revert idx offsets t. induction ws as [|w ws IH]; intros idx offsets t Hwf Hseq Hpl Hat.
  - exists t. split; [done|]. by apply run_step_nil.
  - simpl in Hpl, Hseq. destruct Hpl as (Hrec & Hfit & Hpl).
    destruct (apply_op_step recs w (resolved_entry p idx) (hd 0 offsets) t) as (t1 & E1 & S1);
      [done|lia|done| |done|].
    { intros a Ha. apply (Hat 0%nat w a); [done|]. by rewrite Nat.add_0_r. }
    pose proof (os_seq _ _ _ _ S1) as Hn1. pose proof (sr_active _ _ (os_rest _ _ _ _ S1)) as Ha1.
    destruct (IH (S idx) (tl offsets) t1) as (t2 & E2 & S2).
    + apply S1.
    + lia.
    + by rewrite Hn1, Ha1.
    + intros i w' a Hi Ha. apply (Hat (S i) w' a); [done|]. by rewrite Nat.add_succ_r.
    + exists t2. cbn [apply_ops]. rewrite E1. split; [done|].
      rewrite Hn1 in S2.
      exact (run_step_app recs [w] ws [op_entry (t_next_seq t) w] _ t t1 t2 (op_step_run _ _ _ _ S1) S2).
Qed.

Lemma apply_marker_run e t :
  wf recs t -> t_next_seq t <= KeyDirEntry.kMaxSequence ->
  e = bulk_begin (t_next_seq t) \/ e = bulk_end (t_next_seq t) ->
  run_step recs [] [e] t (apply_marker t).
Proof.
  intros Hwf Hseq He. pose proof (wf_next _ _ Hwf) as Hn0.
  assert (Hn : t_next_seq (apply_marker t) = t_next_seq t + 1)
    by (by rewrite <-advance_seq_next).
  assert (Hec : entry_counts e = no_live_delta (d_marker (marker_size BulkBegin)))
    by (destruct He as [-> | ->]; done).
  assert (Hc : forall stats0 d, counted (t_active_file_id t) d stats0 (t_file_stats t) ->
    counted (t_active_file_id t) (combine d (entry_counts e)) stats0
      (t_file_stats (apply_marker t))).
  { intros stats0 d Hd. rewrite Hec. by apply counted_patch. }
  split; [|done|done|done|by left|exact Hc].
  apply (wf_step recs t); try done.
  - lia.
  - apply (Hc _ _ (counted_refl _ _ (wf_fit _ _ Hwf))).
  - intros f Hf. by apply patch_at_dom.
  - apply live_ok_patch; [apply Hwf|done].
  - intros k e' Hk. by left.
Qed.

Lemma wf_patch id d t :
  wf recs t -> not_live d -> 0 <= d_min_sequence d -> wf recs (patch_stats id d t).
Proof.
  intros Hwf Hd Hmin. apply (wf_step recs t); try done.
  - apply stats_fit_patch; [apply Hwf|done].
  - intros f Hf. by apply patch_at_dom.
  - apply live_ok_patch; [apply Hwf|done].
  - intros k e Hk. by left.
Qed.

Definition value_fits (w : WriteOp) : Prop :=
  match w with PointPut _ v => size v <= KeyDirEntry.kMaxValueSize | _ => True end.

(** The last sequence a plan takes: with more than one write, the [BulkEnd]'s. *)
Definition last_assigned (t : TransientEngineState) (p : WritePlan) : Z :=
  t_next_seq t + Z.of_nat (length (writes p)) + (if (1 <? length (writes p))%nat then 1 else -1).

Lemma last_assigned_room t p :
  last_assigned t p <= KeyDirEntry.kMaxSequence ->
  t_next_seq t + Z.of_nat (length (writes p)) + 2 < 2 ^ 64
  /\ t_next_seq t + Z.of_nat (length (writes p)) <= KeyDirEntry.kMaxSequence + 1.
Proof.
  unfold last_assigned, KeyDirEntry.kMaxSequence. destruct (1 <? length (writes p))%nat; lia.
Qed.

(** The appended entries are where the plan's offsets say, and their fields
    fit a packed entry. *)
Record plan_placed (t : TransientEngineState) (p : WritePlan) (offsets : list Z) : Prop := {
  pp_entries : Forall2 (fun e o => recs (t_active_file_id t) o = Some e)
                 (prepare_write t p) offsets;
  pp_offsets : Forall (fun o => 0 <= o <= KeyDirEntry.kMaxFileOffset) offsets;
  pp_values : Forall value_fits (writes p);
  pp_seq : last_assigned t p <= KeyDirEntry.kMaxSequence;
  pp_snap : forall i w a, writes p !! i = Some w -> resolved_entry p i = Some a ->
              resolves recs (op_key w) a
}.

Lemma placed_intro act seq ws offs rest :
  Forall2 (fun e o => recs act o = Some e) (ops_from seq ws) offs ->
  Forall (fun o => 0 <= o <= KeyDirEntry.kMaxFileOffset) offs -> Forall value_fits ws ->
  placed act seq ws (offs ++ rest).
Proof.
  revert seq offs. induction ws as [|w ws IH]; intros seq offs H2 Ho Hv; [done|].
  cbn [ops_from] in H2. apply Forall2_cons_inv_l in H2 as (o & offs' & Hr & H2 & ->).
  apply Forall_cons in Ho as [Ho1 Ho]. apply Forall_cons in Hv as [Hv1 Hv].
  cbn [placed app hd tl]. split_and!; [done| |by apply IH].
  destruct w; [|done..]. by split.
Qed.

Lemma run_step_sequences ws es a b lo hi :
  wf recs a -> run_step recs ws es a b -> 0 <= lo ->
  let c := patch_stats (t_active_file_id b) (d_sequences lo hi) b in
  wf recs c /\ same_rest a c /\ t_next_seq c = t_next_seq b
  /\ view recs (t_key_dir c) = kv_ops ws (view recs (t_key_dir a))
  /\ counted (t_active_file_id a) (combine (entries_counts es) (d_sequences lo hi))
       (t_file_stats a) (t_file_stats c).
Proof.
  intros Hwa [Hw Hr Hs Hv _ Hc] Hlo c. pose proof (sr_active _ _ Hr) as Ha. split_and!.
  - by apply wf_patch.
  - by destruct Hr; split.
  - done.
  - done.
  - unfold c. rewrite Ha. apply (counted_patch _ _ (d_sequences lo hi)); [|done].
    apply Hc, counted_refl, Hwa.
Qed.

(** The body of [apply_writes]: markers and writes, before the sequences are
    recorded. *)
Lemma plan_run p offsets t :
  wf recs t -> plan_placed t p offsets -> writes p <> [] ->
  exists t', apply_writes p offsets t
             = Ok (patch_stats (t_active_file_id t')
                     (d_sequences (t_next_seq t) (u64_sub (t_next_seq t') 1)) t')
             /\ run_step recs (writes p) (prepare_write t p) t t'.
Proof.
  intros Hwf [He Ho Hv Hs Hsn] Hne. pose proof (wf_next _ _ Hwf) as Hn0.
  destruct (last_assigned_room t p Hs) as [Hroom Hmax].
  rewrite prepare_write_shape in * by lia.
  unfold apply_writes, write_count. unfold last_assigned in Hs.
  destruct (writes p) as [|w [|w' ws]] eqn:Ew; [done| |].
  - cbn [length Nat.ltb Nat.leb] in *.
    destruct (apply_ops_run p 0 [w] offsets t) as (t' & E & R); [done|simpl; lia| |done|].
    { rewrite <-(app_nil_r offsets). by apply placed_intro. }
    exists t'. rewrite E. split; [done|exact R].
  - set (wl := w :: w' :: ws) in *. replace (1 <? length wl)%nat with true in * by done.
    apply Forall2_cons_inv_l in He as (o & offs & _ & He & ->).
    apply Forall2_app_inv_l in He as (o1 & o2 & He & _ & ->).
    apply Forall_cons in Ho as [_ Ho]. apply Forall_app in Ho as [Ho _].
    pose proof (apply_marker_run (bulk_begin (t_next_seq t)) t Hwf ltac:(lia) ltac:(by left)) as R1.
    assert (Hn1 : t_next_seq (apply_marker t) = t_next_seq t + 1)
      by (rewrite (rn_seq _ _ _ _ _ R1); done).
    destruct (apply_ops_run p 0 wl (o1 ++ o2) (apply_marker t)) as (t2 & E & R2);
      [apply R1|lia| |done|].
    { rewrite Hn1. by apply placed_intro. }
    rewrite Hn1 in R2.
    assert (Hn2 : t_next_seq t2 = t_next_seq t + 1 + Z.of_nat (length wl)).
    { rewrite (rn_seq _ _ _ _ _ R2), Hn1, length_ops_from. lia. }
    assert (R3 : run_step recs [] [bulk_end (t_next_seq t + 1 + Z.of_nat (length wl))]
                   t2 (apply_marker t2)).
    { apply apply_marker_run; [apply R2|lia|]. right. by rewrite Hn2. }
    exists (apply_marker t2). cbn [tl]. rewrite E. split; [done|].
    pose proof (run_step_app _ _ _ _ _ _ _ _ R1 (run_step_app _ _ _ _ _ _ _ _ R2 R3)) as R.
    rewrite app_nil_l, app_nil_r in R. exact R.
Qed.

Lemma prepare_write_length t p :
  0 <= t_next_seq t -> t_next_seq t + Z.of_nat (length (writes p)) + 2 < 2 ^ 64 ->
  writes p <> [] ->
  Z.of_nat (length (prepare_write t p)) =
  Z.of_nat (length (writes p)) + (if (1 <? length (writes p))%nat then 2 else 0).
Proof.
  intros. rewrite prepare_write_shape by done.
  destruct (writes p) as [|w [|w' ws]]; [done|done|].
  set (wl := w :: w' :: ws). replace (1 <? length wl)%nat with true by done.
  cbn [length]. rewrite length_app, length_ops_from. cbn [length]. lia.
Qed.

(** C3: applying a plan is the plan's meaning on the store.  On a well-formed
    working copy, with the plan's entries appended where the offsets say and
    within the packed limits, [apply_writes] cannot fail (where the key
    directory reads no records to place keys, or those reads succeed); the
    store the key directory denotes becomes the old one with the writes applied
    in order (puts, deletes, range deletes, the last write of a key winning),
    one sequence is taken per appended entry, markers included, and nothing but
    key directory, statistics, sequences and pending records changes.  This
    holds in both key directory builds, by key or by location. *)
Theorem apply_writes_refines p offsets t :
  wf recs t -> plan_placed t p offsets -> writes p <> [] ->
  exists t', apply_writes p offsets t = Ok t' /\ wf recs t' /\ same_rest t t'
    /\ view recs (t_key_dir t') = kv_ops (writes p) (view recs (t_key_dir t))
    /\ t_next_seq t' = t_next_seq t + Z.of_nat (length (prepare_write t p)).
Proof.
  intros Hwf Hpl Hne. destruct (plan_run p offsets t Hwf Hpl Hne) as (t' & E & R).
  pose proof (wf_next _ _ Hwf).
  destruct (run_step_sequences _ _ _ _ (t_next_seq t) (u64_sub (t_next_seq t') 1) Hwf R)
    as (Hw & Hr & Hn & Hv & _); [lia|].
  eexists. split_and!; [exact E|exact Hw|exact Hr|exact Hv|].
  etrans; [exact Hn|]. apply R.
Qed.

(** C6: a plan's statistics are those of its entries.  After [apply_writes],
    every other file's counters are unchanged apart from live bytes, and the
    active file's total, tombstone and marker bytes have grown (modulo
    [2^64]) by what its appended entries occupy, its minimum sequence set if
    it had none and its maximum raised to the last appended sequence. *)
Theorem apply_writes_counts p offsets t :
  wf recs t -> plan_placed t p offsets -> writes p <> [] ->
  exists t', apply_writes p offsets t = Ok t'
    /\ counted (t_active_file_id t)
         (combine (entries_counts (prepare_write t p))
            (d_sequences (t_next_seq t)
               (t_next_seq t + Z.of_nat (length (prepare_write t p)) - 1)))
         (t_file_stats t) (t_file_stats t').
Proof.
  intros Hwf Hpl Hne. destruct (plan_run p offsets t Hwf Hpl Hne) as (t' & E & R).
  pose proof (wf_next _ _ Hwf).
  assert (Hlast : u64_sub (t_next_seq t') 1
                  = t_next_seq t + Z.of_nat (length (prepare_write t p)) - 1).
  { rewrite (rn_seq _ _ _ _ _ R). apply wrap_small. destruct Hpl as [_ _ _ Hs _].
    destruct (last_assigned_room t p Hs) as [Hroom Hmax].
    rewrite prepare_write_length by (done || lia).
    unfold fits, KeyDirEntry.kMaxSequence in *. destruct (1 <? length (writes p))%nat; lia. }
  destruct (run_step_sequences _ _ _ _ (t_next_seq t) (u64_sub (t_next_seq t') 1) Hwf R)
    as (_ & _ & _ & _ & Hc); [lia|].
  eexists. split; [exact E|]. by rewrite Hlast in Hc |- *.
Qed.

End plans.

(** ** A concrete store *)

(** One file of the blind build holding [a = 1] at sequence 1, and a batch
    appended to it at the offsets 30, 49, 70, 110 and 130. *)
Module Fixture.

#[export] Instance blind : KeyDirKind := true.

Definition ka : bytes := ["a"%byte].
Definition kb : bytes := ["b"%byte].
Definition kc : bytes := ["c"%byte].
Definition one : bytes := ["1"%byte].
Definition two : bytes := ["2"%byte].

Definition old_entry : KeyDirEntry :=
  match KeyDirEntry.make 1 0 1 1 with Ok e => e | Err _ => KeyDirEntry.mk 0 0 end.

Definition store : TransientEngineState :=
  mkTransientState {[ ka := old_entry ]} ∅ ∅
    {[ 1 := mkFileStats (entry_size 1 1) (entry_size 1 1) 1 1 0 0 0 ]}
    1 2 2 1 0 Leader false "" None.

Definition snapshot : EngineState := persistent store.

Definition size_limits : SizeLimits := mkLimits 65535 65535.

Definition batch : WritePlan :=
  mkPlan None size_limits [PointPut kb two; PointDel ka; OpRangeDel ka kb] [] [] [].

Definition offsets : list Z := [30; 49; 70; 110; 130].

(** The log: the old record and what [ws] appends. *)
Definition log (p : WritePlan) : records := fun f o =>
  if f =? 1 then
    if o =? 0 then Some (mkDataEntry 1 Put ka one)
    else (list_to_map (zip offsets (prepare_write store p)) : gmap Z DataEntry) !! o
  else None.

Lemma store_wf p : wf (log p) store.
Proof.
  split; unfold store; cbn [t_key_dir t_file_stats t_active_file_id t_next_seq].
  - intros k e [<- <-]%lookup_singleton_Some. split; [by vm_compute|].
    exists one. split; reflexivity.
  - intros f fs [<- <-]%lookup_singleton_Some. by vm_compute.
  - intros f fs [<- <-]%lookup_singleton_Some. by vm_compute.
  - intros k e [<- <-]%lookup_singleton_Some. by eexists.
  - by eexists.
  - by vm_compute.
  - by vm_compute.
  - intros k e [<- <-]%lookup_singleton_Some. by vm_compute.
  - intros k k' e e' [<- _]%lookup_singleton_Some [<- _]%lookup_singleton_Some. done.
Qed.

Lemma batch_placed : plan_placed (log batch) store batch offsets.
Proof.
  split.
  - change (prepare_write store batch) with
      [bulk_begin 2; op_entry 3 (PointPut kb two); op_entry 4 (PointDel ka);
       op_entry 5 (OpRangeDel ka kb); bulk_end 6].
    repeat (apply Forall2_cons_2; [reflexivity|]). apply Forall2_nil_2.
  - repeat (apply Forall_cons_2; [by vm_compute|]). by apply Forall_nil_2.
  - repeat (apply Forall_cons_2; [by vm_compute|]). by apply Forall_nil_2.
  - by vm_compute.
  - intros i w a _ Ha. done.
Qed.

End Fixture.
Import Fixture.

Lemma apply_writes_refines_witness :
  exists t', apply_writes batch offsets store = Ok t'
    /\ view (log batch) (t_key_dir t') = {[ kb := two ]}.
Proof.
  destruct (apply_writes_refines (log batch) batch offsets
    store (store_wf _) batch_placed ltac:(done))
    as (t' & E & _ & _ & V & _).
  exists t'. split; [exact E|]. rewrite V. vm_compute. reflexivity.
Defined.

Lemma apply_writes_counts_witness :
  exists t', apply_writes batch offsets store = Ok t'
    /\ (no_live <$> t_file_stats t' !! 1)
       = Some (mkFileStats 0 (21 + 19 + 21 + 20 + 21 + 19) 1 6 (20 + 21) (2 * 19) 0).
Proof.
  destruct (apply_writes_counts (log batch) batch offsets
    store (store_wf _) batch_placed ltac:(done)) as (t' & E & _ & C).
  exists t'. split; [exact E|]. rewrite (C 1). vm_compute. reflexivity.
Defined.
