(* ===== verification/CheckedPuts.v ===== *)
(** * Puts checked by the descents that apply them

    [TransientEngineState::apply_puts_checked] folds a snapshot plan's
    write-write checks into the descents that apply its puts, and takes
    everything back when one cannot be confirmed.  This file shows it is the
    two-pass path: confirmed, it is the write-write check holding followed by
    [apply_writes], to the same state; not confirmed, nothing has changed. *)

From S2P Require Import Prelude Codec KeyDir DataFile EngineState EngineProofs.
Import Types Stats Dir Plan.

(** ** Statistics patches commute *)

Definition zero_seq (d : FileStatsDelta) : Prop := d_min_sequence d = 0 /\ d_max_sequence d = 0.

Lemma patch_at_comm i j d d' st :
  zero_seq d' -> patch_at i d (patch_at j d' st) = patch_at j d' (patch_at i d st).
Proof.
  intros [Hmin Hmax]. unfold patch_at. destruct (decide (i = j)) as [->|Hne].
  - rewrite !alter_alter_eq. apply map_eq. intros f. rewrite !lookup_alter.
    case_decide; [|done]. destruct (st !! j); [|done]. simpl. f_equal. symmetry. by apply apply_comm.
  - by rewrite alter_alter_ne.
Qed.

Lemma patch_at_combine i d d' st :
  patch_at i d' (patch_at i d st) = patch_at i (combine d d') st.
Proof.
  unfold patch_at. rewrite alter_alter_eq. apply map_eq. intros f. rewrite !lookup_alter.
  case_decide; [|done]. destruct (st !! i); [|done]. simpl. f_equal. apply apply_combine.
Qed.

Lemma rm_live_patch i d key o st :
  patch_at i d (rm_live key o st) = rm_live key o (patch_at i d st).
Proof. destruct o; [|done]. by apply patch_at_comm. Qed.

Definition rm_undo (us : list Undo) (st : gmap Z FileStats) : gmap Z FileStats :=
  foldl (fun st u => rm_live (u_key u) (u_was u) st) st us.

Lemma rm_undo_patch i d us st :
  patch_at i d (rm_undo us st) = rm_undo us (patch_at i d st).
Proof.
  unfold rm_undo. revert st. induction us as [|u us IH]; intros st; simpl; [done|].
  by rewrite IH, rm_live_patch.
Qed.

Lemma rm_undo_snoc us u st : rm_undo (us ++ [u]) st = rm_live (u_key u) (u_was u) (rm_undo us st).
Proof. unfold rm_undo. by rewrite foldl_app. Qed.

(** The delta of puts worth [pb] bytes and [mk] bytes of batch markers. *)
Definition puts_delta (pb mk : Z) : FileStatsDelta := mkDelta pb 0 (u64_add pb mk) 0 mk 0 0 0.

Lemma combine_put pb mk sz :
  fits 64 mk -> combine (puts_delta pb mk) (d_put sz) = puts_delta (u64_add pb sz) mk.
Proof.
  intros Hm. unfold combine, puts_delta; simpl.
  f_equal; rewrite ?Z.add_0_r; try u64_ring; try (by apply wrap_small).
Qed.

Lemma combine_marker pb mk m :
  fits 64 pb -> combine (puts_delta pb mk) (d_marker m) = puts_delta pb (u64_add mk m).
Proof.
  intros Hp. unfold combine, puts_delta; simpl.
  f_equal; rewrite ?Z.add_0_r; try u64_ring; try (by apply wrap_small).
Qed.

Lemma combine_sequences pb mk lo hi :
  fits 64 pb -> fits 64 mk -> 0 <= hi ->
  combine (puts_delta pb mk) (d_sequences lo hi)
  = mkDelta pb 0 (u64_add pb mk) 0 mk 0 lo hi.
Proof.
  intros Hp Hm Hh. unfold combine, puts_delta; simpl.
  f_equal; rewrite ?Z.add_0_r; autorewrite with u64; try done; try (by apply wrap_small). lia.
Qed.

Lemma patch_zero recs t i :
  wf recs t -> patch_at i (puts_delta 0 0) (t_file_stats t) = t_file_stats t.
Proof.
  intros Hwf. apply map_eq. intros f. unfold patch_at. rewrite lookup_alter.
  case_decide as Hf; [|done]. subst. destruct (t_file_stats t !! f) as [fs|] eqn:E; [|done].
  simpl. f_equal. destruct (wf_fit _ _ Hwf f fs E) as (?&?&?&?&?&?).
  assert (Hl : fits 64 (live_bytes fs))
    by (rewrite (wf_live _ _ Hwf f fs E); apply wrap_fits; lia).
  destruct fs as [l tot mn mx tb mb cb]. unfold apply; simpl in *.
  rewrite !Z.add_0_r, Z.sub_0_r, !wrap_small by (rewrite ?wrap_small; done).
  rewrite Z.max_l by done. f_equal. by destruct (Z.eqb_spec mn 0).
Qed.

(** ** The loop *)

Lemma state_eta t :
  set_file_stats (t_file_stats t)
    (set_next_seq (t_next_seq t) (set_pending (t_pending t) (set_key_dir (t_key_dir t) t))) = t.
Proof. by destruct t. Qed.

Lemma working_eta t :
  set_next_seq (t_next_seq t) (set_pending (t_pending t) (set_key_dir (t_key_dir t) t)) = t.
Proof. by destruct t. Qed.

Lemma restored t kd pd n :
  set_next_seq (t_next_seq t) (set_pending (t_pending t) (set_key_dir (t_key_dir t)
    (set_next_seq n (set_pending pd (set_key_dir kd t))))) = t.
Proof. by destruct t. Qed.

Section checked.
Context `{KeyDirKind} (recs : records) (t0 : TransientEngineState) (p : WritePlan).
Context (Hkind : kKeyDirReadsKeys = true) (Hwf : wf recs t0).

(** The working copy: the loop changes only these members of [t0]. *)
Definition working (kd : KeyDirTree) (pd : gmap Z PendingRecord) (n : Z) : TransientEngineState :=
  set_next_seq n (set_pending pd (set_key_dir kd t0)).

Definition slot_of (o : Z) : Z := pending_slot (t_active_file_id t0) o.
Definition slot_free (o : Z) : Prop := t_pending t0 !! slot_of o = None.

(** [pd] adds only the slots of [noted] to the pending records of [t0]. *)
Definition pending_over (noted : list Z) (pd : gmap Z PendingRecord) : Prop :=
  forall s, s ∉ (slot_of <$> noted) -> pd !! s = t_pending t0 !! s.

Lemma pending_over_note noted o r pd :
  pending_over noted pd -> pending_over (noted ++ [o]) (<[slot_of o := r]> pd).
Proof.
  intros Hp s. rewrite fmap_app, list_fmap_singleton, elem_of_app, list_elem_of_singleton. intros Hs.
  rewrite lookup_insert_ne by naive_solver. apply Hp. naive_solver.
Qed.

Lemma pending_undone noted pd :
  pending_over noted pd -> Forall slot_free noted ->
  foldl (fun pd off => delete (slot_of off) pd) pd noted = t_pending t0.
Proof.
  revert pd. induction noted as [|o noted IH]; intros pd Hp Hf; simpl.
  - apply map_eq. intros s. apply Hp. by apply not_elem_of_nil.
  - apply Forall_cons in Hf as [Ho Hf]. apply IH; [|done]. intros s Hs.
    rewrite lookup_delete. case_decide as E; [by rewrite <-E|].
    apply Hp. rewrite fmap_cons, elem_of_cons. intros [?|?]; [by apply E|done].
Qed.

Lemma abandon_undoes kd pd n undo noted :
  undo_all kd undo = Ok (t_key_dir t0) -> pending_over noted pd -> Forall slot_free noted ->
  abandon (t_next_seq t0) noted undo (working kd pd n) = Ok (false, t0).
Proof.
  intros Hu Hp Hf. unfold abandon. cbn [working t_key_dir set_next_seq set_pending set_key_dir].
  rewrite Hu. cbn [mbind result_bind]. do 2 f_equal.
  change (t_active_file_id _) with (t_active_file_id t0).
  change (fun (pd : gmap Z PendingRecord) off => delete (pending_slot (t_active_file_id t0) off) pd)
    with (fun (pd : gmap Z PendingRecord) off => delete (slot_of off) pd).
  rewrite pending_undone by done. apply restored.
Qed.

Lemma same_ref_refl e : same_ref e e = true.
Proof. unfold same_ref. by rewrite !Z.eqb_refl. Qed.

Lemma kd_holds_insert kd k e : kd_holds (<[k := e]> kd) k e = true.
Proof. unfold kd_holds. by rewrite Hkind, lookup_insert_eq, same_ref_refl. Qed.

Lemma undo_one_insert kd k e :
  undo_one (<[k := e]> kd) (mkUndo k e (kd !! k)) = Ok kd.
Proof.
  unfold undo_one, kd_restore, kd_remove, kd_put_at, kd_erase_at. cbn [u_was u_key u_now].
  rewrite kd_holds_insert. destruct (kd !! k) as [w|] eqn:E.
  - by rewrite insert_insert_eq, insert_id.
  - by rewrite delete_insert_id.
Qed.

(** After some puts: [mk] bytes of markers, [pb] bytes of puts. *)
Record chk_inv (noted : list Z) (undo : list Undo) (pb : Z)
    (kd : KeyDirTree) (pd : gmap Z PendingRecord) (n : Z) : Prop := {
  ci_undo : undo_all kd undo = Ok (t_key_dir t0);
  ci_pending : pending_over noted pd;
  ci_free : Forall slot_free noted;
  ci_resolves : kd_resolves recs kd;
  ci_old : forall k e, kd !! k = Some e -> KeyDirEntry.sequence e < t_next_seq t0 ->
             t_key_dir t0 !! k = Some e;
  ci_none : forall k, kd !! k = None -> t_key_dir t0 !! k = None;
  ci_bytes : fits 64 pb;
  ci_next : t_next_seq t0 <= n
}.

Lemma chk_inv_start n : t_next_seq t0 <= n -> chk_inv [] [] 0 (t_key_dir t0) (t_pending t0) n.
Proof. intros Hn. split; try done; [by apply Hwf]. Qed.

Lemma chk_inv_put noted undo pb kd pd n o r k e sz :
  chk_inv noted undo pb kd pd n -> slot_free o -> resolves recs k e ->
  KeyDirEntry.sequence e = n -> u64_add n 1 = n + 1 ->
  chk_inv (noted ++ [o]) (mkUndo k e (kd !! k) :: undo) (u64_add pb sz)
    (<[k := e]> kd) (<[slot_of o := r]> pd) (u64_add n 1).
Proof.
  intros [] Ho He Hs Hn. split.
  - cbn [undo_all]. by rewrite undo_one_insert.
  - by apply pending_over_note.
  - apply Forall_app. by split; [|apply Forall_singleton].
  - apply map_Forall_insert_2; done.
  - intros k' e' [[<- <-]|[_ ?]]%lookup_insert_Some ?; [lia|auto].
  - intros k' [? ?]%lookup_insert_None. auto.
  - by apply wrap_fits.
  - lia.
Qed.

(** The two-pass twin of the working copy: the same, its statistics kept put
    by put. *)
Definition twin (undo : list Undo) (pb mk : Z) (t : TransientEngineState) : TransientEngineState :=
  set_file_stats
    (rm_undo (rev undo) (patch_at (t_active_file_id t0) (puts_delta pb mk) (t_file_stats t0))) t.

Lemma twin_put undo pb mk k e was kd pd n sz :
  fits 64 mk ->
  twin (mkUndo k e was :: undo) (u64_add pb sz) mk (working kd pd n)
  = set_file_stats (patch_at (t_active_file_id t0) (d_put sz)
      (rm_live k was (t_file_stats (twin undo pb mk (working kd pd n))))) (working kd pd n).
Proof.
  intros Hm. unfold twin. cbn [rev t_file_stats set_file_stats]. f_equal.
  rewrite rm_undo_snoc, rm_live_patch, rm_undo_patch, patch_at_combine, combine_put by done.
  done.
Qed.

(** What the two-pass path does after its last put. *)
Definition finish_two_pass (t : TransientEngineState) : TransientEngineState :=
  let t := if (1 <? write_count p)%nat then apply_marker t else t in
  patch_stats (t_active_file_id t) (d_sequences (t_next_seq t0) (u64_sub (t_next_seq t) 1)) t.

Lemma remove_live_undo us t :
  foldl (fun t u => remove_live (u_key u) (u_was u) t) t us
  = set_file_stats (rm_undo us (t_file_stats t)) t.
Proof.
  unfold rm_undo. revert t. induction us as [|u us IH]; intros t; simpl; [by destruct t|].
  rewrite IH, remove_live_stats. done.
Qed.

Lemma rm_undo_sequences i us pb mk lo hi st :
  fits 64 pb -> fits 64 mk -> 0 <= hi ->
  rm_undo us (patch_at i (mkDelta pb 0 (u64_add pb mk) 0 mk 0 lo hi) st)
  = patch_at i (d_sequences lo hi) (rm_undo us (patch_at i (puts_delta pb mk) st)).
Proof.
  intros. by rewrite rm_undo_patch, patch_at_combine, combine_sequences.
Qed.

Lemma finish_same undo pb kd pd n :
  fits 64 pb ->
  record_checked (1 <? write_count p)%nat (t_next_seq t0) pb (rev undo)
    (if (1 <? write_count p)%nat then advance_seq (working kd pd n) else working kd pd n)
  = finish_two_pass
      (twin undo pb (if (1 <? write_count p)%nat then marker_size BulkBegin else 0)
         (working kd pd n)).
Proof.
  intros Hp. unfold record_checked, finish_two_pass. rewrite remove_live_undo.
  assert (Hr : forall m, 0 <= u64_sub m 1) by (intros m; apply wrap_fits; lia).
  set (st := t_file_stats t0). set (a := t_active_file_id t0). set (lo := t_next_seq t0).
  destruct (1 <? write_count p)%nat.
  - set (n' := u64_add n 1). set (mk := marker_size BulkBegin).
    change (set_file_stats (rm_undo (rev undo) (patch_at a
        (mkDelta pb 0 (u64_add pb (2 * mk)) 0 (2 * mk) 0 lo (u64_sub n' 1)) st)) (working kd pd n')
      = set_file_stats (patch_at a (d_sequences lo (u64_sub n' 1)) (patch_at a (d_marker mk)
          (rm_undo (rev undo) (patch_at a (puts_delta pb mk) st)))) (working kd pd n')).
    f_equal. by rewrite rm_undo_sequences, (rm_undo_patch a (d_marker mk)), patch_at_combine,
      combine_marker.
  - change (set_file_stats (rm_undo (rev undo) (patch_at a
        (mkDelta pb 0 (u64_add pb 0) 0 0 0 lo (u64_sub n 1)) st)) (working kd pd n)
      = set_file_stats (patch_at a (d_sequences lo (u64_sub n 1))
          (rm_undo (rev undo) (patch_at a (puts_delta pb 0) st))) (working kd pd n)).
    f_equal. by rewrite rm_undo_sequences.
Qed.

(** One put of each path, the key being where the plan saw it. *)
Lemma apply_put_twin undo pb mk kd pd n off k v e at_ :
  fits 64 mk -> kd_resolves recs kd -> (forall a, at_ = Some a -> resolves recs k a) ->
  Serialization.narrow 32 (size v) = Ok (size v) ->
  KeyDirEntry.make n off (t_active_file_id t0) (size v) = Ok e ->
  apply_put k v at_ off (twin undo pb mk (working kd pd n))
  = Ok (twin (mkUndo k e (kd !! k) :: undo) (u64_add pb (entry_size (size k) (size v))) mk
          (working (<[k := e]> kd) (<[slot_of off := mkPending n (size v) k]> pd) (u64_add n 1))).
Proof.
  intros Hm Hkd Hat Hv He. rewrite twin_put by done. unfold apply_put, note_pending.
  rewrite Hv, Hkind. cbn [mbind result_bind].
  cbn [t_next_seq set_pending twin working set_file_stats set_next_seq set_key_dir t_active_file_id].
  rewrite He. cbn [mbind result_bind t_key_dir].
  rewrite (place_by_key recs kd k at_ e Hkd Hat). unfold kd_put. cbv beta zeta iota.
  rewrite remove_live_stats. done.
Qed.

Lemma holds_no_conflict idx k a :
  snap_entries p !! idx = Some (Some a) -> t_key_dir t0 !! k = Some a ->
  point_conflict t0 p idx k = None.
Proof.
  intros Hs Hk. unfold point_conflict, snapshot_entry, kd_holds.
  by rewrite Hs, Hkind, Hk, same_ref_refl.
Qed.

Lemma absent_no_conflict idx k :
  snap_entries p !! idx = Some None -> t_key_dir t0 !! k = None ->
  point_conflict t0 p idx k = None.
Proof. intros Hs Hk. unfold point_conflict, snapshot_entry, kd_get. by rewrite Hs, Hk. Qed.

(** What the plan's snapshot says of the keys it puts. *)
Definition snapshot_known (idx : nat) (ws : list WriteOp) : Prop :=
  forall i w, ws !! i = Some w -> exists o, snap_entries p !! (idx + i)%nat = Some o
    /\ forall a, o = Some a -> resolves recs (op_key w) a /\ KeyDirEntry.sequence a < t_next_seq t0.

(** The descent finds the key as the snapshot had it. *)
Definition confirmed (so : option KeyDirEntry) (k : bytes) (kd : KeyDirTree) : bool :=
  match so with Some a => kd_holds kd k a | None => bool_decide (kd !! k = None) end.

Lemma confirmed_no_conflict noted undo pb kd pd n idx k so :
  chk_inv noted undo pb kd pd n -> snap_entries p !! idx = Some so ->
  (forall a, so = Some a -> resolves recs k a /\ KeyDirEntry.sequence a < t_next_seq t0) ->
  confirmed so k kd = true -> point_conflict t0 p idx k = None.
Proof.
  intros Hi Hso Hres Hc. destruct so as [a|]; cbn [confirmed] in Hc.
  - destruct (Hres a eq_refl) as [Ha Hs]. apply (holds_no_conflict _ _ a Hso).
    apply (ci_old _ _ _ _ _ _ Hi); [|done].
    by apply (kd_holds_entry recs); [apply Hi| |].
  - apply (absent_no_conflict _ _ Hso), (ci_none _ _ _ _ _ _ Hi).
    by apply bool_decide_eq_true in Hc.
Qed.

Lemma loop_put noted undo pb kd pd n idx k v o e so ws offs :
  chk_inv noted undo pb kd pd n -> snap_entries p !! idx = Some so ->
  (forall a, so = Some a -> resolves recs k a) -> slot_free o ->
  Serialization.narrow 32 (size v) = Ok (size v) ->
  KeyDirEntry.make n o (t_active_file_id t0) (size v) = Ok e ->
  puts_checked_loop p (t_next_seq t0) idx (PointPut k v :: ws) (o :: offs) noted undo pb
    (working kd pd n)
  = if confirmed so k kd
    then puts_checked_loop p (t_next_seq t0) (S idx) ws offs (noted ++ [o])
           (mkUndo k e (kd !! k) :: undo) (u64_add pb (entry_size (size k) (size v)))
           (working (<[k := e]> kd) (<[slot_of o := mkPending n (size v) k]> pd) (u64_add n 1))
    else Ok (false, t0).
Proof.
  intros Hi Hso Hres Ho Hv He. set (r := mkPending n (size v) k).
  assert (Hp' : pending_over (noted ++ [o]) (<[slot_of o := r]> pd))
    by (apply pending_over_note, Hi).
  assert (Hf' : Forall slot_free (noted ++ [o]))
    by (apply Forall_app; split; [apply Hi|by apply Forall_singleton]).
  cbn [puts_checked_loop mbind result_bind hd tl]. rewrite Hv. unfold note_pending. rewrite Hkind.
  cbn [mbind result_bind].
  change (set_pending _ (working kd pd n)) with (working kd (<[slot_of o := r]> pd) n).
  change (t_next_seq (working _ _ _)) with n. cbn [t_active_file_id working set_next_seq set_pending set_key_dir].
  rewrite He. cbn [mbind result_bind]. unfold resolved_entry. rewrite Hso.
  destruct so as [a|]; cbn [confirmed].
  - unfold kd_put_at, kd_hit. change (t_key_dir (working _ _ _)) with kd. destruct (kd_holds kd k a) eqn:Hh.
    + rewrite (kd_holds_entry recs kd k a) by (auto; apply Hi). done.
    + apply abandon_undoes; [apply Hi|done..].
  - unfold kd_put. change (t_key_dir (working _ _ _)) with kd. destruct (kd !! k) as [w|] eqn:E; cbn [bool_decide].
    + rewrite bool_decide_eq_false_2 by done.
      apply (abandon_undoes (<[k := e]> kd)); [|done..].
      cbn [undo_all]. rewrite <-E, undo_one_insert. apply Hi.
    + rewrite bool_decide_eq_true_2 by done. done.
Qed.

Definition loop_result (mk : Z) (idx : nat) (ws : list WriteOp) (offs : list Z)
    (twin0 : TransientEngineState) (r : result (bool * TransientEngineState)) : Prop :=
  match r with
  | Ok (true, t') => check_writes t0 p idx ws = None
                     /\ exists t2, apply_ops p idx ws offs twin0 = Ok t2 /\ t' = finish_two_pass t2
  | Ok (false, t') => t' = t0
  | Err _ => False
  end.

(** Ready for the puts [ws]. *)
Record loop_pre (idx : nat) (ws : list WriteOp) (offs noted : list Z) (undo : list Undo) (pb : Z)
    (kd : KeyDirTree) (pd : gmap Z PendingRecord) (n : Z) : Prop := {
  lp_inv : chk_inv noted undo pb kd pd n;
  lp_puts : Forall (fun w => is_point_put w = true) ws;
  lp_snap : snapshot_known idx ws;
  lp_placed : placed recs (t_active_file_id t0) n ws offs;
  lp_length : (length ws <= length offs)%nat;
  lp_free : Forall slot_free offs;
  lp_seq : n + Z.of_nat (length ws) <= KeyDirEntry.kMaxSequence + 1
}.

Lemma loop_pre_cons idx w ws offs noted undo pb kd pd n :
  loop_pre idx (w :: ws) offs noted undo pb kd pd n ->
  exists k v o offs' e so,
    w = PointPut k v /\ offs = o :: offs' /\ slot_free o /\ snap_entries p !! idx = Some so
    /\ (forall a, so = Some a -> resolves recs k a /\ KeyDirEntry.sequence a < t_next_seq t0)
    /\ Serialization.narrow 32 (size v) = Ok (size v)
    /\ KeyDirEntry.make n o (t_active_file_id t0) (size v) = Ok e
    /\ loop_pre (S idx) ws offs' (noted ++ [o]) (mkUndo k e (kd !! k) :: undo)
         (u64_add pb (entry_size (size k) (size v))) (<[k := e]> kd)
         (<[slot_of o := mkPending n (size v) k]> pd) (u64_add n 1).
Proof.
  pose proof (wf_next _ _ Hwf) as Hn0. pose proof (wf_active_id _ _ Hwf) as Hid.
  intros [Hi Hput Hsn Hpl Hlen Hfree Hseq].
  apply Forall_cons in Hput as [Hw Hput]. destruct w as [k v| |]; [|done..].
  destruct offs as [|o offs]; [simpl in Hlen; lia|].
  apply Forall_cons in Hfree as [Ho Hfree]. cbn [length] in Hseq, Hlen.
  rewrite Nat2Z.inj_succ in Hseq. destruct Hpl as (Hrec & Hfit & Hpl). cbn [hd tl] in *.
  pose proof (ci_next _ _ _ _ _ _ Hi) as Hnn.
  destruct (put_made recs (t_active_file_id t0) n o k v) as (Hv & e & He & Hres & _ & Hf);
    [done|lia|done|done|].
  assert (Hn1 : u64_add n 1 = n + 1)
    by (apply wrap_small; unfold fits, KeyDirEntry.kMaxSequence in *; lia).
  destruct (Hsn 0%nat (PointPut k v) eq_refl) as (so & Hso & Hres'). rewrite Nat.add_0_r in Hso.
  exists k, v, o, offs, e, so. split_and!; try done. split; rewrite ?Hn1; try done; try lia.
  - rewrite <-Hn1. apply chk_inv_put; try done. apply Hf.
  - intros i w Hiw. destruct (Hsn (S i) w Hiw) as (o' & ? & ?). exists o'.
    by rewrite Nat.add_succ_r in *.
Qed.

Lemma puts_checked_loop_spec mk ws idx offs noted undo pb kd pd n :
  mk = (if (1 <? write_count p)%nat then marker_size BulkBegin else 0) ->
  loop_pre idx ws offs noted undo pb kd pd n ->
  loop_result mk idx ws offs (twin undo pb mk (working kd pd n))
    (puts_checked_loop p (t_next_seq t0) idx ws offs noted undo pb (working kd pd n)).
Proof.
  intros Hmk. assert (Hm : fits 64 mk) by (subst mk; by case_match).
  revert idx offs noted undo pb kd pd n. induction ws as [|w ws IH];
    intros idx offs noted undo pb kd pd n Hpre; pose proof (lp_inv _ _ _ _ _ _ _ _ _ Hpre) as Hi.
  { cbn [puts_checked_loop apply_ops loop_result check_writes]. split; [done|].
    eexists. split; [done|]. rewrite finish_same by apply Hi. by subst mk. }
  apply loop_pre_cons in Hpre as (k & v & o & offs' & e & so & -> & -> & Ho & Hso & Hres & Hv & He & Hpre).
  rewrite (loop_put _ _ _ _ _ _ _ _ _ _ e so) by (try done; intros a ->; by apply Hres).
  destruct (confirmed so k kd) eqn:Hc; [|done].
  assert (Hap := apply_put_twin undo pb mk kd pd n o k v e (resolved_entry p idx) Hm
    (ci_resolves _ _ _ _ _ _ Hi)).
  apply IH in Hpre. unfold loop_result in *.
  cbn [check_writes write_conflict apply_ops apply_op hd tl].
  rewrite Hap by (try done; unfold resolved_entry; rewrite Hso; intros a ->; by apply Hres).
  by rewrite (confirmed_no_conflict _ _ _ _ _ _ _ _ _ Hi Hso Hres Hc).
Qed.

Lemma confirmed_refl kd k : confirmed (kd !! k) k kd = true.
Proof.
  unfold confirmed, kd_holds. destruct (kd !! k) eqn:E.
  - by rewrite Hkind, same_ref_refl.
  - by apply bool_decide_eq_true.
Qed.

Lemma puts_checked_loop_confirms ws idx offs noted undo pb kd pd n :
  loop_pre idx ws offs noted undo pb kd pd n ->
  NoDup (op_key <$> ws) ->
  (forall i w, ws !! i = Some w -> snap_entries p !! (idx + i)%nat = Some (kd !! op_key w)) ->
  exists t', puts_checked_loop p (t_next_seq t0) idx ws offs noted undo pb (working kd pd n)
             = Ok (true, t').
Proof.
  revert idx offs noted undo pb kd pd n. induction ws as [|w ws IH];
    intros idx offs noted undo pb kd pd n Hpre Hnd Hkey; pose proof (lp_inv _ _ _ _ _ _ _ _ _ Hpre) as Hi.
  { eexists. reflexivity. }
  apply loop_pre_cons in Hpre as (k & v & o & offs' & e & so & -> & -> & Ho & Hso & Hres & Hv & He & Hpre).
  rewrite (loop_put _ _ _ _ _ _ _ _ _ _ e so) by (try done; intros a ->; by apply Hres).
  pose proof (Hkey 0%nat (PointPut k v) eq_refl) as Hk. rewrite Nat.add_0_r, Hso in Hk.
  apply (inj Some) in Hk as ->. cbn [op_key]. rewrite confirmed_refl.
  rewrite fmap_cons in Hnd. apply NoDup_cons in Hnd as [Hnin Hnd].
  apply (IH _ _ _ _ _ _ _ _ Hpre Hnd). intros i w Hiw.
  rewrite Nat.add_succ_comm, (Hkey (S i) w Hiw), lookup_insert_ne; [done|].
  intros E. apply Hnin. cbn [op_key]. rewrite E. apply list_elem_of_fmap_2, (list_elem_of_lookup_2 _ i), Hiw.
Qed.

(** A plan the checked path accepts, its puts placed by the append. *)
Record checked_plan (offsets : list Z) : Prop := {
  cp_accepted : can_apply_puts_checked p = true;
  cp_placed : plan_placed recs t0 p offsets;
  cp_free : Forall slot_free offsets;
  cp_older : forall i a, snap_entries p !! i = Some (Some a) ->
               KeyDirEntry.sequence a < t_next_seq t0
}.

Lemma accepted_plan :
  can_apply_puts_checked p = true ->
  length (snap_entries p) = length (writes p) /\ writes p <> []
  /\ Forall (fun w => is_point_put w = true) (writes p).
Proof.
  unfold can_apply_puts_checked. rewrite !andb_true_iff, negb_true_iff, bool_decide_eq_false.
  intros ((((_ & _) & Hne) & Hlen%Nat.eqb_eq) & Hput). split_and!; [done|done|].
  rewrite forallb_forall in Hput. apply Forall_forall. intros w Hw. apply Hput.
  by apply list_elem_of_In.
Qed.

Definition start_seq : Z := if (1 <? write_count p)%nat then u64_add (t_next_seq t0) 1 else t_next_seq t0.
Definition put_offsets (offsets : list Z) : list Z := if (1 <? write_count p)%nat then tl offsets else offsets.
Definition start_marker : Z := if (1 <? write_count p)%nat then marker_size BulkBegin else 0.

Lemma checked_loop_pre offsets :
  checked_plan offsets ->
  loop_pre 0 (writes p) (put_offsets offsets) [] [] 0 (t_key_dir t0) (t_pending t0) start_seq.
Proof.
  intros [Hacc Hpl Hfree Hold]. apply accepted_plan in Hacc as (Hlen & Hne & Hput).
  destruct Hpl as [He Ho Hv Hs Hsn]. pose proof (wf_next _ _ Hwf) as Hn0.
  destruct (last_assigned_room t0 p Hs) as [Hroom Hmax]. rewrite prepare_write_shape in He by lia.
  assert (Hsnap : snapshot_known 0 (writes p)).
  { intros i w Hi. cbn [Nat.add].
    destruct (lookup_lt_is_Some_2 (snap_entries p) i) as [o Hio];
      [rewrite Hlen; by eapply lookup_lt_Some|].
    exists o. split; [done|]. intros a ->. split; [|by eapply Hold].
    apply (Hsn i w a Hi). unfold resolved_entry. by rewrite Hio. }
  assert (Hn1 : u64_add (t_next_seq t0) 1 = t_next_seq t0 + 1)
    by (apply wrap_small; unfold fits, KeyDirEntry.kMaxSequence in *; lia).
  unfold put_offsets, start_seq, write_count, last_assigned in *.
  destruct (writes p) as [|w [|w' ws]] eqn:Ew; [done| |].
  - cbn [length Nat.ltb Nat.leb] in *. rewrite <-(app_nil_r offsets) at 1.
    split; try done; [by apply chk_inv_start|rewrite app_nil_r..].
    + rewrite <-(app_nil_r offsets). by apply placed_intro.
    + by rewrite <-(Forall2_length _ _ _ He).
    + done.
  - set (wl := w :: w' :: ws) in *. replace (1 <? length wl)%nat with true in * by done.
    apply Forall2_cons_inv_l in He as (o & offs & _ & He & ->).
    apply Forall2_app_inv_l in He as (o1 & o2 & He & _ & ->).
    apply Forall_cons in Ho as [_ Ho]. apply Forall_app in Ho as [Ho _].
    apply Forall_cons in Hfree as [_ Hfree]. rewrite Hn1. cbn [tl].
    split; try done; [apply chk_inv_start; lia|by apply placed_intro| |lia].
    apply Forall2_length in He. rewrite length_ops_from in He. rewrite length_app. lia.
Qed.

Lemma checked_start offsets :
  apply_puts_checked p offsets t0
  = puts_checked_loop p (t_next_seq t0) 0 (writes p) (put_offsets offsets) [] [] 0
      (working (t_key_dir t0) (t_pending t0) start_seq).
Proof.
  unfold apply_puts_checked, put_offsets, start_seq, working.
  destruct (1 <? write_count p)%nat; [done|by rewrite working_eta].
Qed.

Lemma two_pass_start offsets :
  apply_writes p offsets t0
  = t2 ← apply_ops p 0 (writes p) (put_offsets offsets)
           (twin [] 0 start_marker (working (t_key_dir t0) (t_pending t0) start_seq));
    Ok (finish_two_pass t2).
Proof.
  unfold apply_writes, put_offsets, start_marker, start_seq, finish_two_pass.
  destruct (1 <? write_count p)%nat.
  - done.
  - unfold twin, rm_undo, working. cbn [rev foldl]. rewrite (patch_zero recs) by done.
    by rewrite state_eta.
Qed.

End checked.

Lemma checked_or_restored `{KeyDirKind} recs t p offsets :
  wf recs t -> checked_plan recs t p offsets ->
  match apply_puts_checked p offsets t with
  | Ok (true, t') => check_writes t p 0 (writes p) = None /\ apply_writes p offsets t = Ok t'
  | Ok (false, t') => t' = t
  | Err _ => False
  end.
Proof.
  intros Hwf Hcp. pose proof (cp_accepted _ _ _ _ Hcp) as Hacc.
  assert (Hkind : kKeyDirReadsKeys = true)
    by (unfold can_apply_puts_checked in Hacc; by destruct kKeyDirReadsKeys).
  rewrite (checked_start t p), (two_pass_start recs t p Hwf).
  pose proof (puts_checked_loop_spec recs t p Hkind Hwf (start_marker p) (writes p) 0
    (put_offsets p offsets) _ _ _ _ _ _ eq_refl (checked_loop_pre recs t p Hwf _ Hcp)) as Hr.
  unfold loop_result in Hr.
  destruct (puts_checked_loop _ _ _ _ _ _ _ _ _) as [[[] t']|]; [|done..].
  destruct Hr as (Hc & t2 & -> & ->). done.
Qed.

(** C4: the one-pass path is the two-pass path.  For a plan of puts that
    [can_apply_puts_checked] accepts, [apply_puts_checked] never fails.  When
    it confirms the plan, the write-write check of [validate_preconditions]
    holds and the state is exactly what [apply_writes] gives, statistics,
    pending records and sequences included.  When it does not, the state is
    the one it was given: every change was taken back. *)
Theorem apply_puts_checked_two_pass `{KeyDirKind} recs t p offsets :
  wf recs t -> checked_plan recs t p offsets ->
  match apply_puts_checked p offsets t with
  | Ok (true, t') => check_writes t p 0 (writes p) = None /\ apply_writes p offsets t = Ok t'
  | Ok (false, t') => t' = t
  | Err _ => False
  end.
Proof. apply checked_or_restored. Qed.

(** C5: the one-pass path confirms whatever is still in place.  If every
    key the plan puts is in the head exactly as the plan's snapshot resolved
    it and no key is put twice, [apply_puts_checked] confirms the plan. *)
Theorem apply_puts_checked_confirms `{KeyDirKind} recs t p offsets :
  wf recs t -> checked_plan recs t p offsets -> NoDup (op_key <$> writes p) ->
  (forall i w, writes p !! i = Some w -> snap_entries p !! i = Some (t_key_dir t !! op_key w)) ->
  exists t', apply_puts_checked p offsets t = Ok (true, t').
Proof.
  intros Hwf Hcp Hnd Hkey. pose proof (cp_accepted _ _ _ _ Hcp) as Hacc.
  assert (Hkind : kKeyDirReadsKeys = true)
    by (unfold can_apply_puts_checked in Hacc; by destruct kKeyDirReadsKeys).
  rewrite (checked_start t p).
  exact (puts_checked_loop_confirms recs t p Hkind Hwf _ _ _ _ _ _ _ _ _
    (checked_loop_pre recs t p Hwf _ Hcp) Hnd Hkey).
Qed.

(** ** A concrete plan *)

Module CheckedFixture.
Import Fixture.

(** Puts an existing key and a new one, on a snapshot of the store. *)
Definition puts : WritePlan :=
  resolve_snapshot_entries
    (mkPlan (Some snapshot) size_limits [PointPut ka two; PointPut kb one] [] [] []).

Definition put_places : list Z := [30; 49; 70; 110].

Lemma puts_checked_plan : checked_plan (log puts) store puts put_places.
Proof.
  split.
  - reflexivity.
  - split.
    + change (prepare_write store puts) with
        [bulk_begin 2; op_entry 3 (PointPut ka two); op_entry 4 (PointPut kb one); bulk_end 5].
      repeat (apply Forall2_cons_2; [reflexivity|]). apply Forall2_nil_2.
    + repeat (apply Forall_cons_2; [by vm_compute|]). by apply Forall_nil_2.
    + repeat (apply Forall_cons_2; [by vm_compute|]). by apply Forall_nil_2.
    + by vm_compute.
    + intros [|[|i]] w a Hw Ha; [|done..]. injection Hw as <-.
      change (Some old_entry = Some a) in Ha. injection Ha as <-.
      apply (wf_resolves _ _ (store_wf puts)). reflexivity.
  - repeat (apply Forall_cons_2; [reflexivity|]). by apply Forall_nil_2.
  - intros [|[|i]] a Ha; [|done..]. change (Some (Some old_entry) = Some (Some a)) in Ha.
    injection Ha as <-. by vm_compute.
Qed.

End CheckedFixture.
Import Fixture CheckedFixture.

Lemma apply_puts_checked_two_pass_witness :
  match apply_puts_checked puts put_places store with
  | Ok (true, t') => apply_writes puts put_places store = Ok t'
  | _ => False
  end.
Proof.
  pose proof (apply_puts_checked_two_pass (log puts) store puts put_places
    (store_wf _) puts_checked_plan) as H.
  assert (B : match apply_puts_checked puts put_places store with
              | Ok (b, _) => b = true | Err _ => False end) by (vm_compute; reflexivity).
  destruct (apply_puts_checked puts put_places store) as [[b t']|]; [|done].
  subst b. apply H.
Defined.

Lemma apply_puts_checked_confirms_witness :
  exists t', apply_puts_checked puts put_places store = Ok (true, t').
Proof.
  apply (apply_puts_checked_confirms (log puts) store puts put_places
    (store_wf _) puts_checked_plan).
  - apply (bool_decide_unpack _). vm_compute. exact I.
  - intros [|[|i]] w Hw; [injection Hw as <-; reflexivity..|done].
Defined.
