(* ===== verification/Preconditions.v ===== *)
(** * What a plan's preconditions mean

    [TransientEngineState::validate_preconditions] decides whether a plan
    still holds on the head: its point guards, its range guards and, for a
    plan with a snapshot, that nothing it writes changed since.  This file
    gives each a meaning on the two key directories and shows the check
    decides it, and what sequence its outcome rests on. *)

From S2P Require Import Prelude Codec KeyDir DataFile EngineState EngineProofs.
Import Types Stats Dir Plan.

(** ** Meaning *)

(** A key is at the same version in two key directories: in neither, or in
    both under one sequence (vacuum may have moved it). *)
Definition same_version (a b : option KeyDirEntry) : Prop :=
  match a, b with
  | None, None => True
  | Some x, Some y => KeyDirEntry.sequence x = KeyDirEntry.sequence y
  | _, _ => False
  end.

Definition unchanged (head snap : KeyDirTree) (k : bytes) : Prop :=
  same_version (head !! k) (snap !! k).

Definition unchanged_range (head snap : KeyDirTree) (r : bytes * bytes) : Prop :=
  forall k, in_range r.1 r.2 k = true -> unchanged head snap k.

Definition guard_holds (head snap : KeyDirTree) (g : bytes * Precondition) : Prop :=
  match g.2 with
  | MustExist => is_Some (head !! g.1)
  | MustBeAbsent => head !! g.1 = None
  | MustBeUnchanged => unchanged head snap g.1
  | PNone => True
  end.

Definition write_unchanged (head snap : KeyDirTree) (w : WriteOp) : Prop :=
  match w with
  | PointPut k _ | PointDel k => unchanged head snap k
  | OpRangeDel f t => unchanged_range head snap (f, t)
  end.

(** Every entry carries a sequence the engine assigned. *)
Definition sequenced (kd : KeyDirTree) : Prop :=
  map_Forall (fun _ e => 0 < KeyDirEntry.sequence e) kd.

Lemma seq_or_0_same head snap k :
  sequenced head -> sequenced snap ->
  seq_or_0 (head !! k) = seq_or_0 (snap !! k) <-> unchanged head snap k.
Proof.
  intros Hh Hs. unfold unchanged, seq_or_0. pose proof (Hh k) as Hhk. pose proof (Hs k) as Hsk.
  destruct (head !! k), (snap !! k); simpl; try done.
  - specialize (Hhk _ eq_refl). lia.
  - specialize (Hsk _ eq_refl). lia.
Qed.

(** ** Each check decides its meaning *)

Section checks.
Context `{KeyDirKind} (recs : records) (t : TransientEngineState) (sd : KeyDirTree).
Context (Hwf : wf recs t) (Hsd : sequenced sd).

Lemma head_sequenced : sequenced (t_key_dir t).
Proof. intros k e Hk. by apply (wf_seq _ _ Hwf k e). Qed.

Lemma head_latest_eq : t_next_seq t <= KeyDirEntry.kMaxSequence -> head_latest t = t_next_seq t - 1.
Proof.
  intros Hn. pose proof (wf_next _ _ Hwf). apply wrap_small.
  unfold fits, KeyDirEntry.kMaxSequence in *. lia.
Qed.

Lemma read_seq_bound k :
  t_next_seq t <= KeyDirEntry.kMaxSequence -> 0 <= read_seq t (t_key_dir t !! k) < t_next_seq t.
Proof.
  intros Hn. unfold read_seq. rewrite (head_latest_eq Hn). pose proof (wf_next _ _ Hwf).
  destruct (t_key_dir t !! k) as [e|] eqn:E; [|lia].
  pose proof (wf_seq _ _ Hwf k e E). lia.
Qed.

(** What a loop of checks leaves: lost on some sequence [P], or held. *)
Definition decides (o : CheckOutcome) (holds : Prop) (lost held : Z -> Prop) : Prop :=
  match o with
  | Lost r => ~ holds /\ lost r
  | Held h => holds /\ held h
  end.

Definition is_read (r : Z) : Prop := exists k, r = read_seq t (t_key_dir t !! k).

Lemma check_guards_decides gs h0 :
  decides (check_guards t sd gs h0) (Forall (guard_holds (t_key_dir t) sd) gs) is_read
    (fun h => h0 <= h
       /\ (h = h0 \/ is_read h)
       /\ forall k pre, (k, pre) ∈ gs -> pre <> PNone -> read_seq t (t_key_dir t !! k) <= h).
Proof.
  revert h0. induction gs as [|[k pre] gs IH]; intros h0; cbn [check_guards].
  { split; [done|]. split_and!; [lia|by left|]. by intros k pre ?%not_elem_of_nil. }
  assert (Hcont : guard_holds (t_key_dir t) sd (k, pre) ->
    forall h1, (pre = PNone /\ h1 = h0) \/ h1 = Z.max h0 (read_seq t (t_key_dir t !! k)) ->
    decides (check_guards t sd gs h1) (Forall (guard_holds (t_key_dir t) sd) ((k, pre) :: gs)) is_read
    (fun h => h0 <= h /\ (h = h0 \/ is_read h) /\ forall k' pre', (k', pre') ∈ (k, pre) :: gs ->
       pre' <> PNone -> read_seq t (t_key_dir t !! k') <= h)).
  { intros Hg h1 Hh1. specialize (IH h1). unfold decides in *.
    destruct (check_guards t sd gs h1) as [r|h].
    - destruct IH as [Hn Hr]. split; [|done]. by intros [_ ?]%Forall_cons.
    - destruct IH as [Hf (Hle & Hrd & Hall)]. split; [by apply Forall_cons|]. split_and!.
      + lia.
      + destruct Hrd as [->|]; [|by right]. destruct Hh1 as [[_ ->]| ->]; [by left|].
        destruct (Z.max_spec h0 (read_seq t (t_key_dir t !! k))) as [[_ ->]|[_ ->]];
          [right; by eexists|by left].
      + intros k' pre' [[= -> ->]|Hin]%elem_of_cons Hp; [|by eapply Hall].
        destruct Hh1 as [[-> _]| ->]; [done|]. lia. }
  assert (Hlose : ~ guard_holds (t_key_dir t) sd (k, pre) -> forall r, is_read r ->
    ~ Forall (guard_holds (t_key_dir t) sd) ((k, pre) :: gs) /\ is_read r).
  { intros Hg r Hr. split; [|done]. by intros [? _]%Forall_cons. }
  unfold guard_holds in Hcont, Hlose; cbn [fst snd] in *.
  unfold kd_get.
  destruct pre.
  - apply Hcont; [done|by left].
  - destruct (t_key_dir t !! k) as [e|] eqn:E.
    + apply Hcont; [done|by right].
    + apply Hlose; [by intros [? ?]|]. exists k. by rewrite E.
  - destruct (t_key_dir t !! k) as [e|] eqn:E.
    + apply Hlose; [done|]. exists k. by rewrite E.
    + apply Hcont; [done|by right].
  - pose proof (seq_or_0_same (t_key_dir t) sd k head_sequenced Hsd) as Hsame.
    destruct (Z.eqb_spec (seq_or_0 (t_key_dir t !! k)) (seq_or_0 (sd !! k))) as [Heq|Hne].
    + apply Hcont; [by apply Hsame|by right].
    + apply Hlose; [by rewrite <-Hsame|]. by exists k.
Qed.

Definition is_read_or_latest (r : Z) : Prop := is_read r \/ r = head_latest t.

Lemma changed_in_head_spec l :
  (forall k e, (k, e) ∈ l -> t_key_dir t !! k = Some e) ->
  match changed_in_head sd l with
  | None => forall k e, (k, e) ∈ l -> unchanged (t_key_dir t) sd k
  | Some r => is_read r /\ exists k e, (k, e) ∈ l /\ ~ unchanged (t_key_dir t) sd k
  end.
Proof.
  induction l as [|[k e] l IH]; intros Hl; cbn [changed_in_head].
  { by intros k e ?%not_elem_of_nil. }
  pose proof (Hl k e ltac:(by left)) as Hk. unfold kd_get.
  pose proof (seq_or_0_same (t_key_dir t) sd k head_sequenced Hsd) as Hsame.
  rewrite Hk in Hsame. cbn [seq_or_0] in Hsame.
  destruct (Z.eqb_spec (KeyDirEntry.sequence e) (seq_or_0 (sd !! k))) as [Heq|Hne].
  - specialize (IH ltac:(intros; apply Hl; by right)). case_match.
    + destruct IH as (? & k' & e' & ? & ?). split; [done|]. exists k', e'. split; [by right|done].
    + intros k' e' [[= -> ->]|Hin]%elem_of_cons; [by apply Hsame|eauto].
  - split; [exists k; by rewrite Hk|]. exists k, e. split; [by left|]. by rewrite <-Hsame.
Qed.

Lemma deleted_in_head_spec l :
  deleted_in_head (t_key_dir t) l = true <-> exists k e, (k, e) ∈ l /\ t_key_dir t !! k = None.
Proof.
  unfold deleted_in_head. rewrite existsb_exists. split.
  - intros ([k e] & Hin%list_elem_of_In & Hc). exists k, e. split; [done|].
    apply negb_true_iff, bool_decide_eq_false in Hc. by apply eq_None_not_Some.
  - intros (k & e & Hin & Hk). exists (k, e). split; [by apply list_elem_of_In|].
    apply negb_true_iff, bool_decide_eq_false, eq_None_not_Some, Hk.
Qed.

Lemma range_changed_spec from to :
  match range_changed t sd from to with
  | None => unchanged_range (t_key_dir t) sd (from, to)
  | Some r => ~ unchanged_range (t_key_dir t) sd (from, to) /\ is_read_or_latest r
  end.
Proof.
  unfold range_changed, unchanged_range. cbn [fst snd].
  pose proof (changed_in_head_spec (kd_range (t_key_dir t) from to)) as Hc.
  destruct (changed_in_head sd _) as [r|].
  - destruct Hc as (Hr & k & e & [_ Hin]%elem_of_kd_range & Hne).
    { by intros k e [? _]%elem_of_kd_range. }
    split; [|by left]. intros Hall. by apply Hne, Hall.
  - assert (Hhead : forall k e, t_key_dir t !! k = Some e -> in_range from to k = true ->
      unchanged (t_key_dir t) sd k).
    { intros k e Hk Hin. eapply Hc; [by intros ? ? [? _]%elem_of_kd_range|].
      by apply elem_of_kd_range. }
    destruct (deleted_in_head (t_key_dir t) (kd_range sd from to)) eqn:Hd.
    + apply deleted_in_head_spec in Hd as (k & e & [Hs Hin]%elem_of_kd_range & Hk).
      split; [|by right]. intros Hall. specialize (Hall k Hin). unfold unchanged in Hall.
      by rewrite Hk, Hs in Hall.
    + intros k Hin. destruct (t_key_dir t !! k) as [e|] eqn:Hk; [by eapply Hhead|].
      unfold unchanged. rewrite Hk. destruct (sd !! k) as [e|] eqn:Hs; [|done].
      assert (deleted_in_head (t_key_dir t) (kd_range sd from to) = true); [|congruence].
      apply deleted_in_head_spec. exists k, e. split; [by apply elem_of_kd_range|done].
Qed.

Lemma check_range_guards_decides rgs h0 :
  decides (check_range_guards t sd rgs h0) (Forall (unchanged_range (t_key_dir t) sd) rgs)
    is_read_or_latest (fun h => h = match rgs with [] => h0 | _ => head_latest t end).
Proof.
  revert h0. induction rgs as [|[from to] rgs IH]; intros h0; cbn [check_range_guards]; [done|].
  pose proof (range_changed_spec from to) as Hr. destruct (range_changed t sd from to) as [r|].
  - destruct Hr as [Hn Hr]. split; [|done]. by intros [? _]%Forall_cons.
  - specialize (IH (head_latest t)). unfold decides in *.
    destruct (check_range_guards t sd rgs (head_latest t)) as [r|h].
    + destruct IH as [Hn Hl]. split; [|done]. by intros [_ ?]%Forall_cons.
    + destruct IH as [Hf ->]. split; [by apply Forall_cons|by destruct rgs].
Qed.

End checks.

(** ** The whole check *)

Section validate.
Context `{KeyDirKind} (recs : records) (t : TransientEngineState) (p : WritePlan).

(** The plan's snapshot is of this store, and its resolved entries, if any,
    are the snapshot's. *)
Record snapshot_of : Prop := {
  so_sequenced : sequenced (snap_dir p);
  so_resolves : kd_resolves recs (snap_dir p);
  so_entries : forall i o, snap_entries p !! i = Some o ->
    exists w, writes p !! i = Some w
      /\ forall k, w = PointDel k \/ (exists v, w = PointPut k v) -> o = snap_dir p !! k
}.

Context (Hwf : wf recs t) (Hso : snapshot_of).

Lemma snapshot_entry_key i w k :
  writes p !! i = Some w -> w = PointDel k \/ (exists v, w = PointPut k v) ->
  snapshot_entry p i k = snap_dir p !! k.
Proof.
  intros Hw Hk. unfold snapshot_entry. destruct (snap_entries p !! i) as [o|] eqn:E; [|done].
  destruct (so_entries Hso i o E) as (w' & Hw' & Ho). assert (w' = w) as -> by congruence. auto.
Qed.

Lemma point_conflict_spec i k :
  snapshot_entry p i k = snap_dir p !! k ->
  match point_conflict t p i k with
  | None => unchanged (t_key_dir t) (snap_dir p) k
  | Some r => ~ unchanged (t_key_dir t) (snap_dir p) k /\ is_read t r
  end.
Proof.
  intros Hs. unfold point_conflict, kd_get. rewrite Hs. unfold unchanged.
  destruct (snap_dir p !! k) as [s|] eqn:Es.
  - destruct (kd_holds (t_key_dir t) k s) eqn:Hh.
    + by rewrite (kd_holds_entry recs _ k s (wf_resolves _ _ Hwf) (so_resolves Hso k s Es) Hh).
    + destruct (t_key_dir t !! k) as [c|] eqn:Ec; cbn [same_version].
      * destruct (Z.eqb_spec (KeyDirEntry.sequence c) (KeyDirEntry.sequence s)); cbn [negb]; [done|].
        split; [done|]. exists k. by rewrite Ec.
      * split; [tauto|]. exists k. by rewrite Ec.
  - destruct (t_key_dir t !! k) as [c|] eqn:Ec; cbn [same_version]; [|done].
    split; [tauto|]. exists k. by rewrite Ec.
Qed.

Lemma check_writes_spec ws idx :
  (forall i w, ws !! i = Some w -> writes p !! (idx + i)%nat = Some w) ->
  match check_writes t p idx ws with
  | None => Forall (write_unchanged (t_key_dir t) (snap_dir p)) ws
  | Some r => ~ Forall (write_unchanged (t_key_dir t) (snap_dir p)) ws /\ is_read_or_latest t r
  end.
Proof.
  revert idx. induction ws as [|w ws IH]; intros idx Hidx; cbn [check_writes]; [done|].
  assert (Hw : match write_conflict t p idx w with
    | None => write_unchanged (t_key_dir t) (snap_dir p) w
    | Some r => ~ write_unchanged (t_key_dir t) (snap_dir p) w /\ is_read_or_latest t r end).
  { pose proof (Hidx 0%nat w eq_refl) as H0. rewrite Nat.add_0_r in H0.
    destruct w as [k v|k|f to]; cbn [write_conflict write_unchanged].
    - pose proof (point_conflict_spec idx k (snapshot_entry_key idx _ k H0 ltac:(eauto))) as Hp.
      case_match; [|done]. destruct Hp. split; [done|by left].
    - pose proof (point_conflict_spec idx k (snapshot_entry_key idx _ k H0 ltac:(eauto))) as Hp.
      case_match; [|done]. destruct Hp. split; [done|by left].
    - apply (range_changed_spec recs t (snap_dir p) Hwf (so_sequenced Hso)). }
  destruct (write_conflict t p idx w) as [r|].
  - destruct Hw. split; [|done]. by intros [? _]%Forall_cons.
  - specialize (IH (S idx)). destruct (check_writes t p (S idx) ws) as [r|].
    + destruct IH as [Hn ?]; [intros i w' Hi; rewrite Nat.add_succ_comm; by apply Hidx|].
      split; [|done]. by intros [_ ?]%Forall_cons.
    + apply Forall_cons. split; [done|]. apply IH.
      intros i w' Hi. rewrite Nat.add_succ_comm. by apply Hidx.
Qed.

(** The plan holds on the head. *)
Definition plan_holds (defer_puts : bool) : Prop :=
  Forall (guard_holds (t_key_dir t) (snap_dir p)) (guards p)
  /\ Forall (unchanged_range (t_key_dir t) (snap_dir p)) (range_guards p)
  /\ (is_Some (snap p) -> defer_puts = false ->
      Forall (write_unchanged (t_key_dir t) (snap_dir p)) (writes p)).

Lemma read_or_latest_bound r :
  t_next_seq t <= KeyDirEntry.kMaxSequence -> is_read_or_latest t r -> 0 <= r < t_next_seq t.
Proof.
  intros Hn [[k ->]| ->]; [by apply (read_seq_bound recs)|].
  rewrite (head_latest_eq recs t Hwf Hn). pose proof (wf_next _ _ Hwf). lia.
Qed.

(** A plan that holds rests at or above every version its guards read. *)
Definition rests_above_reads (r : Z) : Prop :=
  (forall k pre, (k, pre) ∈ guards p -> pre <> PNone ->
     range_guards p = [] -> read_seq t (t_key_dir t !! k) <= r)
  /\ (range_guards p <> [] -> r = head_latest t)
  /\ (r = 0 \/ is_read_or_latest t r).

Lemma validate_cases defer_puts :
  match validate_preconditions t p defer_puts with
  | (true, r) => plan_holds defer_puts /\ rests_above_reads r
  | (false, r) => ~ plan_holds defer_puts /\ is_read_or_latest t r
  end.
Proof.
  unfold validate_preconditions, plan_holds.
  pose proof (check_guards_decides recs t (snap_dir p) Hwf (so_sequenced Hso) (guards p) 0) as Hg.
  unfold decides in Hg. destruct (check_guards t (snap_dir p) (guards p) 0) as [r|h].
  { destruct Hg as [Hn Hr]. split; [tauto|by left]. }
  destruct Hg as [Hg (_ & Hrd & Hall)].
  pose proof (check_range_guards_decides recs t (snap_dir p) Hwf (so_sequenced Hso)
    (range_guards p) h) as Hr.
  unfold decides in Hr. destruct (check_range_guards t (snap_dir p) (range_guards p) h) as [r|h'].
  { destruct Hr as [Hn Hr]. split; [tauto|done]. }
  destruct Hr as [Hr Hh'].
  assert (Habove : rests_above_reads h').
  { unfold rests_above_reads. split_and!.
    - intros k pre Hin Hp Hnil. rewrite Hnil in Hh'. subst h'. eauto.
    - intros Hne. by destruct (range_guards p).
    - subst h'. destruct (range_guards p); [|by right; right].
      destruct Hrd; [by left|by right; left]. }
  destruct (snap p) as [s|] eqn:Es.
  - destruct defer_puts; [split; [|done]; split_and!; done|].
    pose proof (check_writes_spec (writes p) 0 ltac:(done)) as Hw.
    destruct (check_writes t p 0 (writes p)) as [r|].
    + destruct Hw as [Hn ?]. split; [|done]. intros (_ & _ & Hf). by apply Hn, Hf.
    + split; [|done]. split_and!; done.
  - split; [|done]. split_and!; try done; by intros [? ?].
Qed.

End validate.

(** C15: the check decides the plan's meaning.  [validate_preconditions]
    accepts a plan exactly when every key guard holds on the head, every
    guarded range is, key by key, at the version the plan's snapshot saw, and
    (with a snapshot, unless the puts are checked as they are applied) so is
    every key and range the plan writes.  An entry vacuum moved keeps its
    sequence and is no change; asking the head by location first does not
    alter the answer. *)
Theorem validate_preconditions_decides `{KeyDirKind} recs t p defer_puts :
  wf recs t -> snapshot_of recs p ->
  (validate_preconditions t p defer_puts).1 = true <-> plan_holds t p defer_puts.
Proof.
  intros Hwf Hso. pose proof (validate_cases recs t p Hwf Hso defer_puts) as Hc.
  destruct (validate_preconditions t p defer_puts) as [[] r]; cbn [fst].
  - by destruct Hc.
  - split; [done|]. by destruct Hc.
Qed.

(** C16: an outcome rests on what was read.  Whether a plan holds or loses,
    [rests_on] is a sequence already assigned, so a caller that waits for it
    to be durable does not wait for ever.  For a plan that holds it is at
    least the sequence of every entry its guards read, and the head's latest
    once a guard read a key that is absent or a whole range. *)
Theorem validate_rests_on `{KeyDirKind} recs t p defer_puts :
  wf recs t -> snapshot_of recs p -> t_next_seq t <= KeyDirEntry.kMaxSequence ->
  let '(held, rests_on) := validate_preconditions t p defer_puts in
  0 <= rests_on < t_next_seq t
  /\ (held = true ->
      (forall k pre e, (k, pre) ∈ guards p -> pre <> PNone -> t_key_dir t !! k = Some e ->
         KeyDirEntry.sequence e <= rests_on)
      /\ (forall k pre, (k, pre) ∈ guards p -> pre <> PNone -> t_key_dir t !! k = None ->
         rests_on = t_next_seq t - 1)
      /\ (range_guards p <> [] -> rests_on = t_next_seq t - 1)).
Proof.
  intros Hwf Hso Hn. pose proof (validate_cases recs t p Hwf Hso defer_puts) as Hc.
  pose proof (head_latest_eq recs t Hwf Hn) as Hl. pose proof (wf_next _ _ Hwf) as Hn0.
  destruct (validate_preconditions t p defer_puts) as [[] r]; destruct Hc as [_ Hr].
  2: { split; [by apply (read_or_latest_bound recs)|done]. }
  destruct Hr as (Hg & Hrg & Hrest). rewrite Hl in Hrg.
  assert (Hb : 0 <= r < t_next_seq t)
    by (destruct Hrest as [->|]; [lia|by apply (read_or_latest_bound recs)]).
  split; [done|]. intros _. split_and!.
  - intros k pre e Hin Hp Hk. pose proof (wf_seq _ _ Hwf k e Hk).
    destruct (range_guards p) eqn:E; [|rewrite Hrg by done; lia].
    specialize (Hg k pre Hin Hp eq_refl). by rewrite Hk in Hg.
  - intros k pre Hin Hp Hk. destruct (range_guards p) eqn:E; [|by apply Hrg].
    specialize (Hg k pre Hin Hp eq_refl). rewrite Hk in Hg. cbn [read_seq] in Hg. lia.
  - done.
Qed.

(** ** Witnesses *)

Module GuardFixture.
Import Fixture.

(** A plan that guards a key it read, an absent key and a range. *)
Definition guarded : WritePlan :=
  resolve_snapshot_entries
    (mkPlan (Some snapshot) size_limits [PointPut ka two; OpRangeDel kb kc]
       [(ka, MustBeUnchanged); (kb, MustBeAbsent)] [(kb, kc)] []).

Lemma guarded_snapshot : snapshot_of (log batch) guarded.
Proof.
  split.
  - change (snap_dir guarded) with ({[ ka := old_entry ]} : KeyDirTree). intros k e [<- <-]%lookup_singleton_Some. by vm_compute.
  - apply (wf_resolves _ _ (store_wf batch)).
  - intros [|[|i]] o Ho; [|injection Ho as <-|done].
    + injection Ho as <-. exists (PointPut ka two). split; [done|].
      intros k [Hd|[v Hp]]; [done|]. by injection Hp as <- _.
    + exists (OpRangeDel kb kc). split; [done|]. intros k [Hd|[v Hp]]; done.
Qed.

End GuardFixture.
Import Fixture GuardFixture.

Lemma validate_preconditions_decides_witness : plan_holds store guarded false.
Proof.
  apply (validate_preconditions_decides (log batch) store guarded false (store_wf _)
    guarded_snapshot). vm_compute. reflexivity.
Defined.

Lemma validate_rests_on_witness :
  (validate_preconditions store guarded false) = (true, 1) /\ 0 <= 1 < t_next_seq store.
Proof.
  assert (E : validate_preconditions store guarded false = (true, 1)) by (vm_compute; reflexivity).
  pose proof (validate_rests_on (log batch) store guarded false (store_wf _) guarded_snapshot
    ltac:(by vm_compute)) as H.
  rewrite E in H. split; [done|apply H].
Defined.
