(* ===== verification/Ingest.v ===== *)
(** * Ingesting replicated entries

    [TransientEngineState::apply_ingest] applies entries a leader sequenced.
    A follower that ingests what a leader's plan wrote reaches the leader's
    state, and any run of new entries, promotions included, changes the store
    by their meaning. *)

From S2P Require Import Prelude Codec KeyDir DataFile EngineState EngineProofs.
Import Types Stats Dir Plan.

Lemma set_next_seq_id t : set_next_seq (t_next_seq t) t = t.
Proof. by destruct t. Qed.

Lemma set_next_seq_twice a b t : set_next_seq a (set_next_seq b t) = set_next_seq a t.
Proof. done. Qed.

Lemma wf_later recs t n :
  wf recs t -> t_next_seq t <= n -> wf recs (set_next_seq n t).
Proof.
  intros Hwf Hn. pose proof (wf_next _ _ Hwf).
  split; try apply Hwf; cbn [set_next_seq t_next_seq t_key_dir]; [lia|].
  intros k e Hk. pose proof (wf_seq _ _ Hwf k e Hk). lia.
Qed.

Section ingest.
Context `{KeyDirKind} (recs : records).

(** One entry, ingested or applied: the same but for the sequence counter,
    which ingest moves once at the end. *)
Lemma ingest_op w seq o t :
  ingest_one (op_entry seq w) o t
  = t2 ← apply_op w None o (set_next_seq seq t); Ok (set_next_seq (t_next_seq t) t2).
Proof.
  destruct w as [k v|k|f to]; cbn [ingest_one op_entry de_type de_key de_value de_sequence apply_op].
  - unfold apply_put. destruct (Serialization.narrow 32 (size v)) as [vs|]; [|done].
    cbn [mbind result_bind]. unfold note_pending. destruct kKeyDirReadsKeys.
    all: cbn [t_next_seq set_next_seq set_pending t_active_file_id];
      destruct (KeyDirEntry.make _ _ _ _) as [e|]; [|done];
      cbn [mbind result_bind place kd_put t_key_dir];
      rewrite !remove_live_stats; reflexivity.
  - unfold apply_del, displace, kd_erase. cbn [t_key_dir set_next_seq].
    rewrite !remove_live_stats. reflexivity.
  - unfold apply_range_del, erase_range. cbn [t_key_dir set_next_seq].
    rewrite !remove_live_all_stats. reflexivity.
Qed.

Lemma apply_op_by_key w at_ o t :
  wf recs t -> (forall a, at_ = Some a -> resolves recs (op_key w) a) ->
  apply_op w at_ o t = apply_op w None o t.
Proof.
  intros Hwf Hat. destruct w as [k v|k|f to]; cbn [apply_op op_key] in *; [| |done].
  - unfold apply_put. destruct (Serialization.narrow 32 (size v)) as [vs|]; [|done].
    cbn [mbind result_bind]. destruct (KeyDirEntry.make _ _ _ _) as [e|]; [|done].
    cbn [mbind result_bind].
    assert (Hkd : t_key_dir (note_pending o (t_next_seq t) k vs t) = t_key_dir t)
      by (unfold note_pending; by case_match).
    rewrite Hkd. by rewrite (place_by_key recs (t_key_dir t) k at_ e (wf_resolves _ _ Hwf) Hat).
  - unfold apply_del. by rewrite (displace_by_key recs (t_key_dir t) k at_ (wf_resolves _ _ Hwf) Hat).
Qed.

(** The highest sequence after [len] entries from [n]. *)
Definition max_after (mx n : Z) (len : nat) : Z :=
  match len with O => mx | _ => n + Z.of_nat len - 1 end.

Lemma ingest_ops p idx ws offs es mx n t :
  wf recs (set_next_seq n t) -> n + Z.of_nat (length ws) <= KeyDirEntry.kMaxSequence + 1 -> mx < n ->
  placed recs (t_active_file_id t) n ws offs ->
  (forall i w a, ws !! i = Some w -> resolved_entry p (idx + i) = Some a ->
     resolves recs (op_key w) a) ->
  exists t2, apply_ops p idx ws offs (set_next_seq n t) = Ok t2
    /\ ingest_loop (ops_from n ws ++ es) offs mx t
       = ingest_loop es (drop (length ws) offs) (max_after mx n (length ws))
           (set_next_seq (t_next_seq t) t2).
Proof.
  revert idx offs mx n t. induction ws as [|w ws IH]; intros idx offs mx n t Hwf Hseq Hmx Hpl Hat.
  { eexists. split; [done|]. cbn [ops_from app length max_after drop].
    by rewrite set_next_seq_twice, set_next_seq_id. }
  cbn [length] in Hseq. rewrite Nat2Z.inj_succ in Hseq. destruct Hpl as (Hrec & Hfit & Hpl).
  assert (Hat0 : forall a, resolved_entry p idx = Some a -> resolves recs (op_key w) a)
    by (intros a Ha; apply (Hat 0%nat w a); [done|by rewrite Nat.add_0_r]).
  destruct (apply_op_step recs w None (hd 0 offs) (set_next_seq n t)) as (t1 & E1 & S1);
    [done|cbn; lia|done|done|done|].
  pose proof (os_seq _ _ _ _ S1) as Hn1. pose proof (sr_active _ _ (os_rest _ _ _ _ S1)) as Ha1.
  cbn [t_next_seq set_next_seq t_active_file_id] in Hn1, Ha1.
  destruct (IH (S idx) (tl offs) n (n + 1) (set_next_seq (t_next_seq t) t1)) as (t2 & E2 & L2).
  - rewrite set_next_seq_twice, <-Hn1, set_next_seq_id. apply S1.
  - lia.
  - lia.
  - cbn [t_active_file_id set_next_seq]. by rewrite Ha1.
  - intros i w' a Hi Ha. apply (Hat (S i) w' a); [done|]. by rewrite Nat.add_succ_r.
  - exists t2. cbn [apply_ops ops_from app ingest_loop length].
    rewrite (apply_op_by_key _ (resolved_entry p idx)), E1 by done. cbn [mbind result_bind].
    rewrite set_next_seq_twice, <-Hn1, set_next_seq_id in E2. split; [exact E2|].
    rewrite ingest_op, E1. cbn [mbind result_bind].
    replace (de_sequence (op_entry n w)) with n by (by destruct w).
    rewrite (proj2 (Z.ltb_lt mx n)) by done. rewrite L2. cbn [t_next_seq set_next_seq].
    f_equal; [destruct offs; [by destruct (length ws)|done]|].
    destruct (length ws); cbn [max_after]; lia.
Qed.

(** The end of [apply_ingest], once the loop reached [n - 1]. *)
Lemma ingest_finish first mx n t :
  t_next_seq t <= mx -> mx + 1 = n -> 0 < n <= KeyDirEntry.kMaxSequence + 1 ->
  (let t1 := if t_next_seq t <=? mx then set_next_seq (u64_add mx 1) t else t in
   patch_stats (t_active_file_id t1) (d_sequences first mx) t1)
  = (let t1 := set_next_seq n t in
     patch_stats (t_active_file_id t1) (d_sequences first (u64_sub (t_next_seq t1) 1)) t1).
Proof.
  intros Ht <- Hn. cbv zeta. rewrite (proj2 (Z.leb_le _ _)) by done.
  cbn [t_next_seq set_next_seq].
  rewrite !wrap_small by (unfold fits, KeyDirEntry.kMaxSequence in *; lia).
  by rewrite Z.add_simpl_r.
Qed.

Lemma ingest_single p w offsets t :
  wf recs t -> t_next_seq t <= KeyDirEntry.kMaxSequence ->
  placed recs (t_active_file_id t) (t_next_seq t) [w] offsets ->
  (forall i w' a, [w] !! i = Some w' -> resolved_entry p i = Some a -> resolves recs (op_key w') a) ->
  apply_ingest [op_entry (t_next_seq t) w] offsets t
  = t2 ← apply_ops p 0 [w] offsets t;
    Ok (patch_stats (t_active_file_id t2)
          (d_sequences (t_next_seq t) (u64_sub (t_next_seq t2) 1)) t2).
Proof.
  intros Hwf Hs Hpl Hsn. pose proof (wf_next _ _ Hwf) as Hn0.
  destruct (ingest_ops p 0 [w] offsets [] 0 (t_next_seq t) t) as (t2 & E & L);
    [by rewrite set_next_seq_id|cbn [length]; lia|lia|done|done|].
  destruct (apply_ops_run recs p 0 [w] offsets t) as (t2' & E' & R); [done|cbn [length]; lia|done|done|].
  rewrite set_next_seq_id in E. rewrite E in E'. injection E' as <-.
  pose proof (rn_seq _ _ _ _ _ R) as Hn2. cbn [length ops_from] in Hn2.
  cbn [apply_ingest]. cbn [ops_from app] in L. rewrite L, E. cbn [ingest_loop mbind result_bind].
  replace (de_sequence (op_entry (t_next_seq t) w)) with (t_next_seq t) by (by destruct w).
  cbn [length max_after]. f_equal.
  rewrite (ingest_finish (t_next_seq t) _ (t_next_seq t2)) by (cbn [t_next_seq set_next_seq]; lia).
  by rewrite set_next_seq_twice, set_next_seq_id.
Qed.

Lemma ingest_batch p ws o offs t :
  wf recs t -> ws <> [] ->
  t_next_seq t + Z.of_nat (length ws) + 1 <= KeyDirEntry.kMaxSequence ->
  placed recs (t_active_file_id t) (t_next_seq t + 1) ws offs ->
  (forall i w' a, ws !! i = Some w' -> resolved_entry p i = Some a -> resolves recs (op_key w') a) ->
  apply_ingest (bulk_begin (t_next_seq t) :: ops_from (t_next_seq t + 1) ws
                ++ [bulk_end (t_next_seq t + 1 + Z.of_nat (length ws))]) (o :: offs) t
  = t2 ← apply_ops p 0 ws offs (apply_marker t);
    Ok (patch_stats (t_active_file_id t2)
          (d_sequences (t_next_seq t) (u64_sub (t_next_seq (apply_marker t2)) 1)) (apply_marker t2)).
Proof.
  intros Hwf Hne Hs Hpl Hsn. pose proof (wf_next _ _ Hwf) as Hn0.
  assert (Hn1 : t_next_seq (apply_marker t) = t_next_seq t + 1) by (apply (advance_seq_next t); lia).
  pose proof (apply_marker_run recs (bulk_begin (t_next_seq t)) t Hwf ltac:(lia) ltac:(by left)) as R1.
  set (t1 := patch_stats (t_active_file_id t) (d_marker (marker_size BulkBegin)) t).
  assert (Ht1 : set_next_seq (t_next_seq t + 1) t1 = apply_marker t) by (rewrite <-Hn1; done).
  destruct (ingest_ops p 0 ws offs [bulk_end (t_next_seq t + 1 + Z.of_nat (length ws))]
    (t_next_seq t) (t_next_seq t + 1) t1) as (t2 & E & L);
    [rewrite Ht1; apply R1|lia|lia|done|done|].
  destruct (apply_ops_run recs p 0 ws offs (apply_marker t)) as (t2' & E' & R);
    [apply R1|lia|by rewrite Hn1|done|].
  rewrite Ht1, E' in E. injection E as ->. rewrite E'.
  pose proof (rn_seq _ _ _ _ _ R) as Hn2. rewrite length_ops_from, Hn1 in Hn2.
  cbn [apply_ingest ingest_loop ingest_one bulk_begin de_type de_sequence mbind result_bind hd tl].
  rewrite (proj2 (Z.ltb_lt 0 _)) by done. fold t1. rewrite L.
  cbn [ingest_loop ingest_one bulk_end de_type de_sequence mbind result_bind].
  rewrite (proj2 (Z.ltb_lt (max_after _ _ _) _)) by (destruct ws; [done|cbn [length max_after]; lia]).
  f_equal. set (t3 := patch_stats _ _ (set_next_seq _ t2)).
  rewrite (ingest_finish (t_next_seq t) _ (t_next_seq t2 + 1) t3);
    [|change (t_next_seq t3) with (t_next_seq t); lia|lia|lia].
  unfold apply_marker, advance_seq. cbn [t_next_seq patch_stats set_file_stats].
  rewrite (wrap_small 64 (t_next_seq t2 + 1)) by (unfold fits, KeyDirEntry.kMaxSequence in *; lia).
  done.
Qed.

End ingest.

(** C17: a follower that ingests a plan reaches the leader's state.  On the
    same state, with the same offsets, [apply_ingest] of the entries
    [prepare_write] made of a plan gives exactly what [apply_writes] gives
    for the plan: key directory, statistics, pending records and sequences. *)
Theorem apply_ingest_follows_plan `{KeyDirKind} recs p offsets t :
  wf recs t -> plan_placed recs t p offsets -> writes p <> [] ->
  apply_ingest (prepare_write t p) offsets t = apply_writes p offsets t.
Proof.
  intros Hwf [He Ho Hv Hs Hsn] Hne. pose proof (wf_next _ _ Hwf) as Hn0.
  destruct (last_assigned_room t p Hs) as [Hroom Hmax]. rewrite prepare_write_shape in * by lia.
  unfold apply_writes, write_count, last_assigned in *. destruct (writes p) as [|w [|w' ws]] eqn:Ew; [done| |].
  - apply (ingest_single recs); [done|cbn [length Nat.ltb Nat.leb] in *; lia| |done].
    rewrite <-(app_nil_r offsets). by apply placed_intro.
  - set (wl := w :: w' :: ws) in *. replace (1 <? length wl)%nat with true in * by done.
    apply Forall2_cons_inv_l in He as (o & offs & _ & He & ->).
    apply Forall2_app_inv_l in He as (o1 & o2 & He & _ & ->).
    apply Forall_cons in Ho as [_ Ho]. apply Forall_app in Ho as [Ho _].
    apply (ingest_batch recs); [done|done|done| |done]. by apply placed_intro.
Qed.

(** ** Entries of any kind *)

(** What an entry means on the store. *)
Definition kv_entry (e : DataEntry) (m : gmap bytes bytes) : gmap bytes bytes :=
  match de_type e with
  | Put => kv_op (PointPut (de_key e) (de_value e)) m
  | Delete => kv_op (PointDel (de_key e)) m
  | RangeDel => kv_op (OpRangeDel (de_key e) (de_value e)) m
  | _ => m
  end.

(** The promotion an entry records. *)
Definition entry_marker (e : DataEntry) : list ChangeMarker :=
  match de_type e with
  | EChangeMarker => [mkChangeMarker (de_sequence e) (decode_marker_id (de_value e))]
  | _ => []
  end.

Definition marker_list (t : TransientEngineState) : list ChangeMarker :=
  default [] (t_change_markers t).

(** An entry a leader can have appended, as the follower placed it. *)
Record ingestible (recs : records) (act : Z) (e : DataEntry) (off : Z) : Prop := {
  ig_known : is_known_entry_type (de_type e) = true;
  ig_delete : de_type e = Delete -> de_value e = [];
  ig_placed : recs act off = Some e;
  ig_offset : 0 <= off <= KeyDirEntry.kMaxFileOffset;
  ig_value : size (de_value e) <= KeyDirEntry.kMaxValueSize
}.

Record ingest_step (recs : records) (es : list DataEntry) (n : Z)
    (t t' : TransientEngineState) : Prop := {
  is_wf : wf recs (set_next_seq n t');
  is_next : t_next_seq t' = t_next_seq t;
  is_active : t_active_file_id t' = t_active_file_id t;
  is_view : view recs (t_key_dir t') = foldl (fun m e => kv_entry e m) (view recs (t_key_dir t)) es;
  is_markers : marker_list t' = marker_list t ++ (es ≫= entry_marker)
}.

Lemma ingest_step_trans recs es es' n n' a b c :
  ingest_step recs es n a b -> ingest_step recs es' n' b c -> ingest_step recs (es ++ es') n' a c.
Proof.
  intros [] []. split; try congruence.
  - by rewrite foldl_app, <-is_view0.
  - by rewrite bind_app, is_markers1, is_markers0, app_assoc.
Qed.

Lemma ingest_step_intro recs e t t' seq :
  wf recs (set_next_seq seq t) -> 0 < seq <= KeyDirEntry.kMaxSequence ->
  wf recs (set_next_seq seq t') -> t_next_seq t' = t_next_seq t ->
  t_active_file_id t' = t_active_file_id t -> t_key_dir t' = t_key_dir t ->
  (forall m, kv_entry e m = m) -> marker_list t' = marker_list t ++ entry_marker e ->
  ingest_step recs [e] (seq + 1) t t'.
Proof.
  intros Hwf Hs Hwf' Hn Ha Hkd Hkv Hm. split; try done.
  - apply (wf_later recs (set_next_seq seq t')); [done|]. cbn. lia.
  - cbn [foldl]. by rewrite Hkv, Hkd.
  - by rewrite Hm, bind_singleton.
Qed.

Section any.
Context `{KeyDirKind} (recs : records).

Lemma ingest_op_step w seq off t :
  wf recs (set_next_seq seq t) -> seq <= KeyDirEntry.kMaxSequence ->
  op_fits w off -> recs (t_active_file_id t) off = Some (op_entry seq w) ->
  exists t', ingest_one (op_entry seq w) off t = Ok t'
             /\ ingest_step recs [op_entry seq w] (seq + 1) t t'.
Proof.
  intros Hwf Hs Hfit Hrec.
  destruct (apply_op_step recs w None off (set_next_seq seq t)) as (t2 & E & S);
    [done|done|done|done|done|].
  rewrite ingest_op, E. eexists. split; [done|]. destruct S as [Sw Sr Sn Sv _].
  cbn [t_next_seq set_next_seq t_key_dir] in Sn, Sv. split.
  - by rewrite set_next_seq_twice, <-Sn, set_next_seq_id.
  - done.
  - apply (sr_active _ _ Sr).
  - cbn [foldl t_key_dir set_next_seq]. rewrite Sv. by destruct w.
  - unfold marker_list. cbn [t_change_markers set_next_seq]. rewrite (sr_markers _ _ Sr).
    rewrite bind_singleton. destruct w; by rewrite app_nil_r.
Qed.

Lemma ingest_one_step e off t :
  wf recs (set_next_seq (de_sequence e) t) -> de_sequence e <= KeyDirEntry.kMaxSequence ->
  ingestible recs (t_active_file_id t) e off ->
  exists t', ingest_one e off t = Ok t' /\ ingest_step recs [e] (de_sequence e + 1) t t'.
Proof.
  intros Hwf Hs [Hk Hd Hp Ho Hv]. pose proof (wf_next _ _ Hwf) as Hn0.
  cbn [t_next_seq set_next_seq] in Hn0.
  destruct e as [seq ty k v]. cbn [de_sequence de_type de_key de_value] in *.
  destruct ty; try done.
  - by apply (ingest_op_step (PointPut k v)).
  - rewrite Hd in * by done. by apply (ingest_op_step (PointDel k)).
  - eexists. split; [done|]. apply ingest_step_intro; try done; [|by rewrite app_nil_r].
    by apply (wf_patch recs (t_active_file_id t) (d_marker (marker_size BulkBegin))) in Hwf.
  - eexists. split; [done|]. apply ingest_step_intro; try done; [|by rewrite app_nil_r].
    by apply (wf_patch recs (t_active_file_id t) (d_marker (marker_size BulkBegin))) in Hwf.
  - by apply (ingest_op_step (OpRangeDel k v)).
  - eexists. split; [done|]. apply ingest_step_intro; try done.
    apply (wf_patch recs (t_active_file_id t) (d_change_marker (change_marker_size EChangeMarker)))
      in Hwf; [|done|done].
    by destruct Hwf; split.
Qed.

Fixpoint seqs_from (n : Z) (es : list DataEntry) : Prop :=
  match es with
  | [] => True
  | e :: es' => n <= de_sequence e /\ seqs_from (de_sequence e + 1) es'
  end.

(** The next sequence after the entries. *)
Definition next_after (n : Z) (es : list DataEntry) : Z :=
  foldl (fun _ e => de_sequence e + 1) n es.

Lemma next_after_last e es mx n : next_after n (e :: es) = List.last (de_sequence <$> e :: es) mx + 1.
Proof.
  revert e n. unfold next_after. induction es as [|e' es IH]; intros e n; [done|].
  cbn [foldl] in *. rewrite (IH e' (de_sequence e + 1)). done.
Qed.

Lemma seqs_from_last n e es mx :
  seqs_from n (e :: es) -> Forall (fun e => de_sequence e <= KeyDirEntry.kMaxSequence) (e :: es) ->
  n <= List.last (de_sequence <$> e :: es) mx <= KeyDirEntry.kMaxSequence.
Proof.
  revert n e. induction es as [|e' es IH]; intros n e [Hge Hs] Hb; apply Forall_cons in Hb as [Hb1 Hb].
  - cbn. lia.
  - specialize (IH _ _ Hs Hb). cbn [fmap list_fmap List.last] in *. lia.
Qed.

Lemma ingest_loop_step es offs mx n t :
  wf recs (set_next_seq n t) -> seqs_from n es -> 0 <= mx < n ->
  Forall (fun e => de_sequence e <= KeyDirEntry.kMaxSequence) es ->
  Forall2 (ingestible recs (t_active_file_id t)) es offs ->
  exists t', ingest_loop es offs mx t = Ok (List.last (de_sequence <$> es) mx, t')
    /\ ingest_step recs es (next_after n es) t t'.
Proof.
  revert offs mx n t. induction es as [|e es IH]; intros offs mx n t Hwf Hseq Hmx Hb Hig.
  { exists t. split; [done|]. split; try done. by rewrite app_nil_r. }
  destruct Hseq as [Hge Hseq]. apply Forall_cons in Hb as [Hb1 Hb].
  apply Forall2_cons_inv_l in Hig as (o & offs' & Hig1 & Hig & ->).
  destruct (ingest_one_step e o t) as (t1 & E1 & S1); [|done|done|].
  { apply (wf_later recs (set_next_seq n t)); done. }
  destruct (IH offs' (de_sequence e) (de_sequence e + 1) t1) as (t2 & E2 & S2);
    [apply S1|done|lia|done|by rewrite (is_active _ _ _ _ _ S1)|].
  exists t2. cbn [ingest_loop hd tl]. rewrite (proj2 (Z.ltb_lt mx _)) by lia.
  rewrite E1. cbn [mbind result_bind]. rewrite E2. split.
  - destruct es as [|e' es]; [done|]. do 2 f_equal. apply (last_default (de_sequence e')).
  - apply (ingest_step_trans recs [e] es _ _ _ _ _ S1 S2).
Qed.

End any.

(** C18: ingest applies what the entries mean.  For a run of new entries with
    ascending sequences, placed in the active file, [apply_ingest] cannot
    fail; the store becomes the old one with each entry's meaning applied in
    order, the next sequence is one past the last entry's, the promotions
    among them are appended to the marker list, and the state stays well
    formed. *)
Theorem apply_ingest_refines `{KeyDirKind} recs es offsets t :
  wf recs t -> es <> [] -> seqs_from (t_next_seq t) es ->
  Forall (fun e => de_sequence e <= KeyDirEntry.kMaxSequence) es ->
  Forall2 (ingestible recs (t_active_file_id t)) es offsets ->
  exists t', apply_ingest es offsets t = Ok t' /\ wf recs t'
    /\ view recs (t_key_dir t') = foldl (fun m e => kv_entry e m) (view recs (t_key_dir t)) es
    /\ t_next_seq t' = List.last (de_sequence <$> es) 0 + 1
    /\ marker_list t' = marker_list t ++ (es ≫= entry_marker).
Proof.
  intros Hwf Hne Hseq Hb Hig. pose proof (wf_next _ _ Hwf) as Hn0.
  destruct (ingest_loop_step recs es offsets 0 (t_next_seq t) t) as (t1 & E & S);
    [by rewrite set_next_seq_id|done|lia|done|done|].
  destruct es as [|e es]; [done|]. pose proof (next_after_last e es 0 (t_next_seq t)) as Hl.
  pose proof (seqs_from_last _ _ _ 0 Hseq Hb) as Hlast.
  destruct S as [Sw Sn Sa Sv Sm]. cbn [apply_ingest]. rewrite E. cbn [mbind result_bind].
  rewrite (proj2 (Z.leb_le _ _)) by lia. eexists. split; [done|].
  rewrite wrap_small by (unfold fits, KeyDirEntry.kMaxSequence in *; lia). rewrite <-Hl.
  split_and!; [|done..]. apply wf_patch; [done|done|]. destruct Hseq. cbn [d_min_sequence d_sequences]. lia.
Qed.

(** ** Witnesses *)

Import Fixture.

Lemma apply_ingest_follows_plan_witness :
  apply_ingest (prepare_write store batch) offsets store = apply_writes batch offsets store.
Proof.
  apply (apply_ingest_follows_plan (log batch) batch offsets store (store_wf _) batch_placed).
  done.
Defined.

Module IngestFixture.

(** A put, a promotion and a delete, with a gap in the sequences. *)
Definition replicated : list DataEntry :=
  [mkDataEntry 2 Put kb two; mkDataEntry 5 EChangeMarker [] (encode_marker_id 77);
   mkDataEntry 6 Delete ka []].

Definition places : list Z := [30; 49; 70].

Definition replica : records := fun f o =>
  if f =? 1 then
    if o =? 0 then Some (mkDataEntry 1 Put ka one)
    else (list_to_map (zip places replicated) : gmap Z DataEntry) !! o
  else None.

Lemma replica_wf : wf replica store.
Proof.
  destruct (store_wf batch). split; try done.
  change (t_key_dir store) with ({[ ka := old_entry ]} : KeyDirTree). intros k e [<- <-]%lookup_singleton_Some. split; [by vm_compute|].
  exists one. split; reflexivity.
Qed.

End IngestFixture.
Import IngestFixture.

Lemma apply_ingest_refines_witness :
  exists t', apply_ingest replicated places store = Ok t'
    /\ view replica (t_key_dir t') = {[ kb := two ]}
    /\ t_next_seq t' = 7 /\ marker_list t' = [mkChangeMarker 5 77].
Proof.
  destruct (apply_ingest_refines replica replicated places store replica_wf)
    as (t' & E & _ & V & N & M).
  - done.
  - by vm_compute.
  - repeat (apply Forall_cons_2; [by vm_compute|]). by apply Forall_nil_2.
  - repeat (apply Forall2_cons_2; [by split; vm_compute|]). apply Forall2_nil_2.
  - exists t'. split; [exact E|]. split; [|split].
    + rewrite V. vm_compute. reflexivity.
    + rewrite N. reflexivity.
    + rewrite M. reflexivity.
Defined.
