(* ===== verification/Remap.v ===== *)
(** * Vacuum's state transition

    [TransientEngineState::apply_vacuum] replaces a file by its compacted
    copy: the entries copied are remapped to their new offsets, unless the
    key was written again since the scan.  The store does not change, the old
    file is no longer named, and the new file's live bytes are right. *)

From S2P Require Import Prelude Codec KeyDir DataFile EngineState EngineProofs.
Import Types Stats Dir Plan.

Definition mapping_size (m : VacuumMapping) : Z := entry_size (size (vm_key m)) (vm_value_size m).

(** The mapping's record in the destination, a copy of the one the key is at
    if it still has that sequence. *)
Record mapping_ok (recs : records) (old dest : Z) (kd : KeyDirTree) (m : VacuumMapping) : Prop := {
  mo_packs : 0 <= vm_sequence m <= KeyDirEntry.kMaxSequence
             /\ 0 <= new_offset m <= KeyDirEntry.kMaxFileOffset
             /\ 0 <= vm_value_size m <= KeyDirEntry.kMaxValueSize;
  mo_copy : exists v, recs dest (new_offset m) = Some (mkDataEntry (vm_sequence m) Put (vm_key m) v)
              /\ size v = vm_value_size m
              /\ forall cur, kd !! vm_key m = Some cur -> KeyDirEntry.sequence cur = vm_sequence m ->
                   KeyDirEntry.file_id cur = old /\ value_of recs cur = Some v
}.

(** What a remapped key directory keeps of the one before. *)
Record remapped (recs : records) (old dest : Z) (ms : list VacuumMapping)
    (kd kd' : KeyDirTree) : Prop := {
  rm_resolves : kd_resolves recs kd';
  rm_view : view recs kd' = view recs kd;
  rm_versions : forall k, KeyDirEntry.sequence <$> kd' !! k = KeyDirEntry.sequence <$> kd !! k;
  rm_others : forall f, f <> old -> f <> dest -> live_sum f kd' = live_sum f kd;
  rm_where : forall k e, kd' !! k = Some e ->
    (exists m, m ∈ ms /\ vm_key m = k /\ KeyDirEntry.fields e (vm_sequence m) (new_offset m) dest (vm_value_size m)) \/
    (kd !! k = Some e /\ forall m, m ∈ ms -> vm_key m = k -> vm_sequence m <> KeyDirEntry.sequence e)
}.

Section remap.
Context `{KeyDirKind} (recs : records) (old dest : Z).
Context (Hdest : 0 <= dest <= KeyDirEntry.kMaxFileId) (Hod : old <> dest).

Lemma live_sum_insert f kd k e :
  live_sum f (<[k := e]> kd)
  = live_sum f kd - match kd !! k with Some x => live_weight f k x | None => 0 end + live_weight f k e.
Proof. unfold live_sum. by rewrite map_sum_insert. Qed.

(** One entry moved. *)
Lemma remap_moves kd m cur :
  kd_resolves recs kd -> mapping_ok recs old dest kd m ->
  kd !! vm_key m = Some cur -> KeyDirEntry.sequence cur = vm_sequence m ->
  exists e, KeyDirEntry.make (vm_sequence m) (new_offset m) dest (vm_value_size m) = Ok e
    /\ remapped recs old dest [m] kd (<[vm_key m := e]> kd)
    /\ live_sum dest (<[vm_key m := e]> kd) = live_sum dest kd + mapping_size m.
Proof.
  intros Hkd [(Hs & Ho & Hv) (v & Hrec & Hsz & Hcur)] Hk Hseq.
  destruct (Hcur cur Hk Hseq) as [Hf Hval].
  destruct (KeyDirEntry.make_fields (vm_sequence m) (new_offset m) dest (vm_value_size m))
    as (e & E & Hfs); [done|]. pose proof Hfs as [Es Eo Ef Ev].
  assert (Hval' : value_of recs e = Some v) by (unfold value_of; by rewrite Ef, Eo, Hrec).
  exists e. split_and!; [done| |].
  - split.
    + apply map_Forall_insert_2; [|done]. split; [rewrite Eo; unfold KeyDirEntry.kMaxFileOffset in *; lia|].
      exists v. by rewrite Ef, Eo, Es, Ev.
    + rewrite (view_insert recs kd _ e v Hval'). apply insert_id. unfold view.
      by rewrite lookup_omap, Hk.
    + intros k. destruct (decide (k = vm_key m)) as [->|Hne].
      * rewrite lookup_insert_eq, Hk. cbn [fmap option_fmap option_map]. congruence.
      * by rewrite lookup_insert_ne.
    + intros f Hfo Hfd. rewrite live_sum_insert, Hk. unfold live_weight.
      rewrite Hf, Ef, !(proj2 (Z.eqb_neq _ _)) by congruence. lia.
    + intros k e' [[<- <-]|[Hne Hk']]%lookup_insert_Some; [left; exists m; by split; [left|]|right].
      split; [done|]. intros m' ->%list_elem_of_singleton ?. done.
  - rewrite live_sum_insert, Hk. unfold live_weight, mapping_size.
    rewrite Hf, Ef, Ev, Z.eqb_refl, (proj2 (Z.eqb_neq _ _)) by congruence. lia.
Qed.

Lemma remapped_refl kd ms :
  kd_resolves recs kd ->
  (forall k e m, kd !! k = Some e -> m ∈ ms -> vm_key m = k -> vm_sequence m <> KeyDirEntry.sequence e) ->
  remapped recs old dest ms kd kd.
Proof. intros Hkd Hms. split; try done. intros k e Hk. right. split; [done|]. intros m. by apply Hms. Qed.

Lemma remapped_app ms ms' a b c :
  remapped recs old dest ms a b -> remapped recs old dest ms' b c ->
  remapped recs old dest (ms ++ ms') a c.
Proof.
  intros [_ V1 S1 O1 W1] [R2 V2 S2 O2 W2]. split; [done|congruence| | |].
  - intros k. by rewrite S2, S1.
  - intros f Ho Hd. by rewrite O2, O1.
  - intros k e Hk. destruct (W2 k e Hk) as [(m & Hm & ?)|[Hk1 Hn2]]; [left; exists m; rewrite elem_of_app; tauto|].
    destruct (W1 k e Hk1) as [(m & Hm & ?)|[Hk0 Hn1]]; [left; exists m; rewrite elem_of_app; tauto|right]. split; [done|].
    intros m [Hm|Hm]%elem_of_app; [by apply Hn1|by apply Hn2].
Qed.

Lemma remap_one_step kd m t live R :
  kd_resolves recs kd -> mapping_ok recs old dest kd m ->
  live = wrap 64 (live_sum dest kd + mapping_size m + R) ->
  exists kd' live', remap_one dest (live, set_key_dir kd t) m = Ok (live', set_key_dir kd' t)
    /\ remapped recs old dest [m] kd kd' /\ live' = wrap 64 (live_sum dest kd' + R)
    /\ forall k, k <> vm_key m -> kd' !! k = kd !! k.
Proof.
  intros Hkd Hm Hlive. unfold remap_one, kd_get. cbn [t_key_dir set_key_dir].
  destruct (match kd !! vm_key m with
            | Some cur => KeyDirEntry.sequence cur =? vm_sequence m | None => false end) eqn:Hmv.
  - destruct (kd !! vm_key m) as [cur|] eqn:Hk; [|done]. apply Z.eqb_eq in Hmv.
    destruct (remap_moves kd m cur Hkd Hm Hk Hmv) as (e & E & Hr & Hl). rewrite E.
    cbn [mbind result_bind kd_put snd].
    exists (<[vm_key m := e]> kd), live. split_and!; [done|done| |].
    + by rewrite Hl.
    + intros k Hne. by rewrite lookup_insert_ne.
  - exists kd, (u64_sub live (mapping_size m)). split_and!; [done| | |done].
    + apply remapped_refl; [done|]. intros k e m' Hk ->%list_elem_of_singleton <- Hseq.
      rewrite Hk, Hseq, Z.eqb_refl in Hmv. done.
    + rewrite Hlive, Stats.wrap_sub_l. f_equal. lia.
Qed.

Lemma mapping_ok_agree kd kd' m :
  kd' !! vm_key m = kd !! vm_key m -> mapping_ok recs old dest kd m -> mapping_ok recs old dest kd' m.
Proof. intros Heq [Hp Hc]. split; [done|]. by rewrite Heq. Qed.

Lemma remap_all_spec ms kd t live :
  kd_resolves recs kd -> Forall (mapping_ok recs old dest kd) ms -> NoDup (vm_key <$> ms) ->
  live = wrap 64 (live_sum dest kd + lsum mapping_size ms) ->
  exists kd' live', remap_all dest ms (live, set_key_dir kd t) = Ok (live', set_key_dir kd' t)
    /\ remapped recs old dest ms kd kd' /\ live' = wrap 64 (live_sum dest kd').
Proof.
  revert kd live. induction ms as [|m ms IH]; intros kd live Hkd Hms Hnd Hlive.
  - exists kd, live. split_and!; [done| |by rewrite Z.add_0_r in Hlive].
    apply remapped_refl; [done|]. by intros k e m _ ?%not_elem_of_nil.
  - apply Forall_cons in Hms as [Hm Hms]. rewrite fmap_cons in Hnd.
    apply NoDup_cons in Hnd as [Hnin Hnd]. rewrite lsum_cons in Hlive.
    destruct (remap_one_step kd m t live (lsum mapping_size ms) Hkd Hm) as (kd1 & l1 & E1 & R1 & L1 & A1);
      [by rewrite Hlive, Z.add_assoc|].
    destruct (IH kd1 l1) as (kd2 & l2 & E2 & R2 & L2); [apply R1| |done|done|].
    { apply Forall_forall. intros m' Hm'. rewrite Forall_forall in Hms.
      apply (mapping_ok_agree kd); [|by apply Hms]. apply A1. intros Heq. apply Hnin. rewrite <-Heq.
      by apply list_elem_of_fmap_2. }
    exists kd2, l2. cbn [remap_all]. rewrite E1. cbn [mbind result_bind]. split_and!; [done| |done].
    apply (remapped_app [m] ms _ _ _ R1 R2).
Qed.

End remap.

(** What the scan of [old] into [dest] gives the commit. *)
Record scan_of (recs : records) (t : TransientEngineState) (old dest : Z)
    (scan : VacuumScanResult) : Prop := {
  sc_ids : old <> dest /\ 0 <= dest <= KeyDirEntry.kMaxFileId;
  sc_sealed : old <> t_active_file_id t;
  sc_fresh : t_file_stats t !! dest = None;
  sc_mappings : Forall (mapping_ok recs old dest (t_key_dir t)) (mappings scan);
  sc_keys : NoDup (vm_key <$> mappings scan);
  sc_complete : forall k e, t_key_dir t !! k = Some e -> KeyDirEntry.file_id e = old ->
    exists m, m ∈ mappings scan /\ vm_key m = k /\ vm_sequence m = KeyDirEntry.sequence e;
  sc_live : vs_live_bytes scan = wrap 64 (lsum mapping_size (mappings scan));
  sc_counts : fs_fits (mkFileStats (vs_live_bytes scan) (vs_total_bytes scan) (vs_min_sequence scan)
                (vs_max_sequence scan) (vs_tombstone_bytes scan) (vs_marker_bytes scan)
                (vs_change_marker_bytes scan))
}.

(** The statistics and key directory after the commit are well formed. *)
Lemma wf_remapped recs t kd' stats' files' :
  wf recs t -> kd_resolves recs kd' ->
  (forall k, KeyDirEntry.sequence <$> kd' !! k = KeyDirEntry.sequence <$> t_key_dir t !! k) ->
  live_ok kd' stats' -> stats_fit stats' -> is_Some (stats' !! t_active_file_id t) ->
  (forall k e, kd' !! k = Some e -> is_Some (stats' !! KeyDirEntry.file_id e)) ->
  wf recs (set_file_stats stats' (set_files files' (set_key_dir kd' t))).
Proof.
  intros Hwf Hres Hver Hlive Hfit Hact Hfiles.
  assert (Hv : forall k e, kd' !! k = Some e ->
    exists e0, t_key_dir t !! k = Some e0 /\ KeyDirEntry.sequence e0 = KeyDirEntry.sequence e).
  { intros k e Hk. specialize (Hver k). rewrite Hk in Hver. cbn in Hver.
    destruct (t_key_dir t !! k) as [e0|]; [|done]. exists e0. split; [done|]. by injection Hver. }
  split; cbn [t_key_dir t_file_stats t_active_file_id t_next_seq set_file_stats set_files set_key_dir];
    try done; try apply Hwf.
  - intros k e Hk. destruct (Hv k e Hk) as (e0 & Hk0 & <-). by apply (wf_seq _ _ Hwf k).
  - intros k k' e e' Hk Hk' Heq. destruct (Hv k e Hk) as (e0 & Hk0 & He0).
    destruct (Hv k' e' Hk') as (e1 & Hk1 & He1). apply (wf_uniq _ _ Hwf k k' e0 e1); congruence.
Qed.

Lemma vacuum_live recs t old dest kd' fs' :
  wf recs t -> live_bytes fs' = wrap 64 (live_sum dest kd') ->
  (forall f, f <> old -> f <> dest -> live_sum f kd' = live_sum f (t_key_dir t)) ->
  live_ok kd' (<[dest := fs']> (delete old (t_file_stats t))).
Proof.
  intros Hwf Hl Ho f fs [[<- <-]|[Hne Hfs]]%lookup_insert_Some; [done|].
  apply lookup_delete_Some in Hfs as [Hne' Hfs].
  rewrite Ho by done. by apply (wf_live _ _ Hwf).
Qed.

(** The state the commit publishes. *)
Definition vacuumed (old dest : Z) (scan : VacuumScanResult) (f : FileRef) (kd' : KeyDirTree) (live : Z) (t : TransientEngineState)
    : TransientEngineState :=
  set_file_stats
    (<[dest := mkFileStats live (vs_total_bytes scan) (vs_min_sequence scan) (vs_max_sequence scan)
         (vs_tombstone_bytes scan) (vs_marker_bytes scan) (vs_change_marker_bytes scan)]> (delete old (t_file_stats t)))
    (set_files (delete old (<[dest := f]> (t_files t))) (set_key_dir kd' t)).

Lemma apply_vacuum_moves `{KeyDirKind} recs t old dest scan f :
  wf recs t -> scan_of recs t old dest scan ->
  exists kd' live, apply_vacuum old scan (Some f) dest t = Ok (vacuumed old dest scan f kd' live t)
    /\ wf recs (vacuumed old dest scan f kd' live t) /\ remapped recs old dest (mappings scan) (t_key_dir t) kd'
    /\ (forall k e, kd' !! k = Some e -> KeyDirEntry.file_id e <> old).
Proof.
  intros Hwf [[Hod Hd] Hact Hfresh Hms Hnd Hcomp Hlive Hcnt]. cbn [apply_vacuum].
  assert (Hzero : live_sum dest (t_key_dir t) = 0).
  { apply live_sum_none. intros k e Hk <-.
    destruct (wf_files _ _ Hwf k e Hk) as [fs Hfs]. by rewrite Hfresh in Hfs. }
  set (t0 := set_files (<[dest := f]> (t_files t)) t).
  assert (Ht0 : set_key_dir (t_key_dir t) t0 = t0) by by destruct t.
  destruct (remap_all_spec recs old dest Hd Hod (mappings scan) (t_key_dir t) t0 (vs_live_bytes scan))
    as (kd' & live & E & Rm & L); [apply Hwf|done|done|by rewrite Hzero|].
  rewrite Ht0 in E. rewrite E. cbn [mbind result_bind]. exists kd', live. split; [done|].
  pose proof Rm as [Rr Rv Rs Ro Rw].
  assert (Hold : forall k e, kd' !! k = Some e -> KeyDirEntry.file_id e <> old).
  { intros k e Hk Hf. destruct (Rw k e Hk) as [(m & _ & _ & Hm)|[Hk0 Hn]]; [destruct Hm; congruence|].
    destruct (Hcomp k e Hk0 Hf) as (m & Hm & Hkey & Hseq). by apply (Hn m). }
  split_and!; [|done|done].
  apply (wf_remapped recs t); try done; [by apply (vacuum_live recs t old)|..].
  - apply map_Forall_insert_2; [done|]. apply map_Forall_delete, Hwf.
  - rewrite lookup_insert_is_Some', lookup_delete_is_Some. right. split; [done|apply Hwf].
  - intros k e Hk. rewrite lookup_insert_is_Some', lookup_delete_is_Some.
    destruct (Rw k e Hk) as [(m & _ & _ & Hm)|[Hk0 _]]; [left; symmetry; apply Hm|right].
    split; [|by eapply (wf_files _ _ Hwf)]. intros Heq. by apply (Hold k e).
Qed.

(** C14: compaction changes nothing a reader can see.  Committing the scan of
    a sealed file into its compacted copy cannot fail; the store the key
    directory denotes is the same, every key keeps its sequence (so no
    snapshot check takes the move for a change), no entry names the old file
    any more, and the state, with the live bytes of the new file computed
    from what the scan copied less what was overwritten since, is well
    formed. *)
Theorem apply_vacuum_preserves `{KeyDirKind} recs t old dest scan f :
  wf recs t -> scan_of recs t old dest scan ->
  exists t', apply_vacuum old scan (Some f) dest t = Ok t' /\ wf recs t'
    /\ view recs (t_key_dir t') = view recs (t_key_dir t)
    /\ (forall k, KeyDirEntry.sequence <$> t_key_dir t' !! k
                  = KeyDirEntry.sequence <$> t_key_dir t !! k)
    /\ (forall k e, t_key_dir t' !! k = Some e -> KeyDirEntry.file_id e <> old)
    /\ t_files t' = delete old (<[dest := f]> (t_files t)) /\ t_file_stats t' !! old = None.
Proof.
  intros Hwf Hsc. destruct (apply_vacuum_moves recs t old dest scan f Hwf Hsc) as (kd' & live & E & W & R & Hold).
  eexists. split; [exact E|]. split_and!; try done; [apply R|apply R|].
  cbn. rewrite lookup_insert_ne, lookup_delete_eq; [done|]. apply not_eq_sym, (sc_ids _ _ _ _ _ Hsc).
Qed.

(** ** Witness *)

Module RemapFixture.
Import Fixture.

(** The store of [Fixture] after a rotation to file 2, its file 1 compacted
    into file 3. *)
Definition rotated : TransientEngineState :=
  set_active_file_id 2
    (set_file_stats (<[2 := FileStats_zero]> (t_file_stats store)) store).

Definition compacted : records := fun f o =>
  if (f =? 1) && (o =? 0) then Some (mkDataEntry 1 Put ka one)
  else if (f =? 3) && (o =? 7) then Some (mkDataEntry 1 Put ka one) else None.

Definition copy : FileRef := 3.

Definition scan : VacuumScanResult :=
  mkScan false [mkMapping ka 7 1 1] (entry_size 1 1) (entry_size 1 1) 1 1 0 0 0 0.

Lemma rotated_wf : wf compacted rotated.
Proof.
  split; cbn [t_key_dir t_file_stats t_active_file_id t_next_seq rotated set_active_file_id
    set_file_stats store].
  - intros k e [<- <-]%lookup_singleton_Some. split; [by vm_compute|].
    exists one. split; reflexivity.
  - intros f fs [[<- <-]|[_ [<- <-]%lookup_singleton_Some]]%lookup_insert_Some; by vm_compute.
  - intros f fs [[<- <-]|[_ [<- <-]%lookup_singleton_Some]]%lookup_insert_Some; by vm_compute.
  - intros k e [<- <-]%lookup_singleton_Some. by eexists.
  - by eexists.
  - by vm_compute.
  - by vm_compute.
  - intros k e [<- <-]%lookup_singleton_Some. by vm_compute.
  - intros k k' e e' [<- _]%lookup_singleton_Some [<- _]%lookup_singleton_Some. done.
Qed.

Lemma scan_rotated : scan_of compacted rotated 1 3 scan.
Proof.
  split; try done.
  - apply Forall_singleton. split; [by vm_compute|]. exists one. split_and!; [done|done|].
    change (t_key_dir rotated) with ({[ ka := old_entry ]} : KeyDirTree).
    intros cur [_ <-]%lookup_singleton_Some _. done.
  - apply (bool_decide_unpack _). vm_compute. exact I.
  - change (t_key_dir rotated) with ({[ ka := old_entry ]} : KeyDirTree).
    intros k e [<- <-]%lookup_singleton_Some _. exists (mkMapping ka 7 1 1).
    split_and!; [by left|done|done].
Qed.

End RemapFixture.
Import Fixture RemapFixture.

Lemma apply_vacuum_preserves_witness :
  exists t', apply_vacuum 1 scan (Some copy) 3 rotated = Ok t'
    /\ view compacted (t_key_dir t') = {[ ka := one ]}.
Proof.
  destruct (apply_vacuum_preserves compacted rotated 1 3 scan copy rotated_wf scan_rotated)
    as (t' & E & _ & V & _).
  exists t'. split; [exact E|]. rewrite V. vm_compute. reflexivity.
Defined.
