(* ===== verification/Resume.v ===== *)
(** * Replaying a file on resume

    [TransientEngineState::apply_resume] replays every committed entry of the
    active file over a key directory that already reflects some prefix of
    them, resolving each key by sequence.  The result is what applying all of
    the file's entries in order to the store before the file gives, whatever
    prefix had been published when the engine degraded. *)

From S2P Require Import Prelude Codec KeyDir DataFile EngineState EngineProofs.
Import Types Stats Dir Plan.

(** ** One key *)

(** The entry decides the key. *)
Definition affects (e : ResumeEntry) (k : bytes) : bool :=
  match re_type e with
  | Put | Delete => bool_decide (re_key e = k)
  | RangeDel => in_range (re_key e) (re_range_end e) k
  | _ => false
  end.

(** What a put makes of its key; nothing for the others. *)
Definition made (file_id : Z) (e : ResumeEntry) : option KeyDirEntry :=
  match re_type e with
  | Put => match KeyDirEntry.make (re_sequence e) (re_offset e) file_id (re_value_size e) with
           | Ok x => Some x | Err _ => None end
  | _ => None
  end.

Definition older (o : option KeyDirEntry) (s : Z) : bool :=
  match o with Some x => KeyDirEntry.sequence x <? s | None => true end.

(** Applied in order, and resolved by sequence. *)
Definition in_order (file_id : Z) (k : bytes) (o : option KeyDirEntry) (e : ResumeEntry)
    : option KeyDirEntry := if affects e k then made file_id e else o.
Definition by_sequence (file_id : Z) (k : bytes) (o : option KeyDirEntry) (e : ResumeEntry)
    : option KeyDirEntry := if affects e k && older o (re_sequence e) then made file_id e else o.

(** The entries of a file ascend. *)
Definition file_order (es : list ResumeEntry) : Prop := StronglySorted Z.lt (re_sequence <$> es).

Lemma file_order_snoc es e :
  file_order (es ++ [e]) -> file_order es /\ forall e', e' ∈ es -> re_sequence e' < re_sequence e.
Proof.
  unfold file_order. rewrite fmap_app. intros (Hc & Hl & _)%StronglySorted_app. split; [done|].
  intros e' He'. apply Hc; [by apply list_elem_of_fmap_2|by left].
Qed.

Section one_key.
Context (file_id : Z) (k : bytes).

(** A put packs, and its entry carries its sequence. *)
Definition packs (e : ResumeEntry) : Prop :=
  re_type e = Put -> KeyDirEntry.packable (re_sequence e) (re_offset e) file_id (re_value_size e).

Lemma made_sequence e x : packs e -> made file_id e = Some x -> KeyDirEntry.sequence x = re_sequence e.
Proof.
  unfold made, packs. destruct (re_type e); try done. intros Hp.
  destruct (KeyDirEntry.make_fields _ _ _ _ (Hp eq_refl)) as (y & -> & [Hs _ _ _]). by intros [= <-].
Qed.

(** The last entry that decides the key. *)
Definition decider (es : list ResumeEntry) : option ResumeEntry :=
  last (filter (fun e => affects e k = true) es).

Lemma decider_snoc es e :
  decider (es ++ [e]) = if affects e k then Some e else decider es.
Proof.
  unfold decider. rewrite filter_app. destruct (affects e k) eqn:Ha.
  - by rewrite filter_cons_True, filter_nil, last_snoc.
  - by rewrite filter_cons_False, filter_nil, app_nil_r by congruence.
Qed.

Lemma decider_elem es e : decider es = Some e -> e ∈ es /\ affects e k = true.
Proof.
  intros [Ha He]%last_Some_elem_of%list_elem_of_filter. done.
Qed.

Lemma in_order_decider o es :
  foldl (in_order file_id k) o es = match decider es with Some e => made file_id e | None => o end.
Proof.
  induction es as [|e es IH] using rev_ind; [done|].
  rewrite foldl_app, decider_snoc. cbn [foldl]. unfold in_order at 1. rewrite IH.
  by destruct (affects e k).
Qed.

(** Resolution by sequence leaves the old entry, none, or one of the file's. *)
Lemma by_sequence_origin o es :
  Forall packs es ->
  foldl (by_sequence file_id k) o es = o
  \/ forall x, foldl (by_sequence file_id k) o es = Some x ->
       exists e, e ∈ es /\ KeyDirEntry.sequence x = re_sequence e.
Proof.
  induction es as [|e es IH] using rev_ind; [by left|]. intros [Hp He]%Forall_app.
  rewrite Forall_singleton in He. rewrite foldl_app. cbn [foldl]. unfold by_sequence at 1 3.
  destruct (affects e k && _).
  - right. intros x Hx. exists e. split; [set_solver|by apply made_sequence].
  - destruct (IH Hp) as [?|Hx]; [by left|right]. intros x Hx'. destruct (Hx x Hx') as (e' & ? & ?).
    exists e'. set_solver.
Qed.

(** The old entry is older than what decides the key, or is it. *)
Definition settled (o : option KeyDirEntry) (es : list ResumeEntry) : Prop :=
  forall e x, decider es = Some e -> o = Some x ->
    KeyDirEntry.sequence x < re_sequence e \/ made file_id e = o.

Lemma by_sequence_decider o es :
  Forall packs es -> file_order es -> settled o es ->
  foldl (by_sequence file_id k) o es
  = match decider es with Some e => made file_id e | None => o end.
Proof.
  induction es as [|e es IH] using rev_ind; [done|].
  intros [Hp He]%Forall_app [Hord Hlt]%file_order_snoc Hset. unfold settled in *.
  rewrite foldl_app, decider_snoc in *. cbn [foldl]. unfold by_sequence at 1.
  destruct (affects e k) eqn:Ha; cbn [andb]; [|by apply IH].
  pose proof (by_sequence_origin o es Hp) as Hor.
  destruct (foldl (by_sequence file_id k) o es) as [y|] eqn:Ey; [|done]. cbn [older].
  destruct (Z.ltb_spec (KeyDirEntry.sequence y) (re_sequence e)) as [|Hge]; [done|].
  destruct Hor as [Ho|Hy].
  - destruct (Hset e y eq_refl (eq_sym Ho)) as [?|Hm]; [lia|]. by rewrite Hm.
  - destruct (Hy y eq_refl) as (e' & He' & Hs). specialize (Hlt e' He'). lia.
Qed.

(** Resolving by sequence over a prefix already applied in order gives the
    whole file applied in order. *)
Lemma by_sequence_over_prefix o es1 es2 :
  Forall packs (es1 ++ es2) -> file_order (es1 ++ es2) ->
  (forall e x, e ∈ es1 ++ es2 -> o = Some x -> KeyDirEntry.sequence x < re_sequence e) ->
  foldl (by_sequence file_id k) (foldl (in_order file_id k) o es1) (es1 ++ es2)
  = foldl (in_order file_id k) o (es1 ++ es2).
Proof.
  intros Hp Hord Hold. set (o1 := foldl (in_order file_id k) o es1).
  pose proof (in_order_decider o es1) as Ho1. fold o1 in Ho1.
  assert (Hdec : decider (es1 ++ es2) = match decider es2 with Some e => Some e | None => decider es1 end).
  { unfold decider. rewrite filter_app, last_app. done. }
  assert (Hset : settled o1 (es1 ++ es2)).
  { intros e x He Hx. pose proof (decider_elem _ _ He) as [Hin _]. rewrite Hdec in He.
    destruct (decider es1) as [e1|] eqn:E1.
    - destruct (decider_elem _ _ E1) as [Hin1 _]. destruct (decider es2) as [e2|] eqn:E2.
      + injection He as ->. destruct (decider_elem _ _ E2) as [Hin2 _]. left.
        rewrite Ho1 in Hx. rewrite Forall_forall in Hp.
        rewrite (made_sequence e1 x) by (try done; apply Hp; set_solver).
        unfold file_order in Hord. rewrite fmap_app in Hord.
        apply StronglySorted_app in Hord as (Hc & _ & _).
        by apply Hc; apply list_elem_of_fmap_2.
      + injection He as ->. right. congruence.
    - left. apply Hold; [done|congruence]. }
  rewrite (by_sequence_decider _ _ Hp Hord Hset), in_order_decider, Hdec.
  destruct (decider es2); [done|]. by destruct (decider es1).
Qed.

End one_key.

(** ** The key directory *)

Definition replay_entry (file_id : Z) (kd : KeyDirTree) (e : ResumeEntry) : KeyDirTree :=
  match re_type e with
  | Put => match made file_id e with Some x => <[re_key e := x]> kd | None => kd end
  | Delete => delete (re_key e) kd
  | RangeDel => filter (fun p => in_range (re_key e) (re_range_end e) p.1 = false) kd
  | _ => kd
  end.

(** The entries of the file applied in order. *)
Definition replay (file_id : Z) (es : list ResumeEntry) (kd : KeyDirTree) : KeyDirTree :=
  foldl (replay_entry file_id) kd es.

Lemma made_put file_id e : packs file_id e -> re_type e = Put -> is_Some (made file_id e).
Proof.
  intros Hp Ht. unfold made. rewrite Ht.
  destruct (KeyDirEntry.make_fields _ _ _ _ (Hp Ht)) as (y & -> & _). by eexists.
Qed.

Lemma replay_entry_lookup file_id kd e k :
  packs file_id e -> replay_entry file_id kd e !! k = in_order file_id k (kd !! k) e.
Proof.
  intros Hp. unfold replay_entry, in_order, affects. destruct (re_type e) eqn:Ht; try done.
  - destruct (made_put _ _ Hp Ht) as [x Hx]. rewrite Hx. case_bool_decide as Hk.
    + subst k. by rewrite lookup_insert_eq.
    + by rewrite lookup_insert_ne.
  - case_bool_decide as Hk.
    + subst k. rewrite lookup_delete_eq. unfold made. by rewrite Ht.
    + by rewrite lookup_delete_ne.
  - unfold made. rewrite Ht, map_lookup_filter. destruct (in_range _ _ k) eqn:Hr.
    + destruct (kd !! k) as [x|]; [|done]. cbn. by rewrite option_guard_False by congruence.
    + destruct (kd !! k) as [x|]; [|done]. cbn. by rewrite option_guard_True.
Qed.

Lemma replay_lookup file_id es kd k :
  Forall (packs file_id) es -> replay file_id es kd !! k = foldl (in_order file_id k) (kd !! k) es.
Proof.
  revert kd. unfold replay. induction es as [|e es IH]; intros kd Hp; [done|].
  apply Forall_cons in Hp as [Hp1 Hp]. cbn [foldl]. by rewrite IH, replay_entry_lookup.
Qed.

(** ** The working copy *)

(** The part of [wf] that does not speak of sequences. *)
Record linked (recs : records) (t : TransientEngineState) : Prop := {
  lk_resolves : kd_resolves recs (t_key_dir t);
  lk_live : live_ok (t_key_dir t) (t_file_stats t);
  lk_fit : stats_fit (t_file_stats t);
  lk_files : forall k e, t_key_dir t !! k = Some e ->
               is_Some (t_file_stats t !! KeyDirEntry.file_id e)
}.

Lemma wf_linked recs t : wf recs t -> linked recs t.
Proof. by intros []. Qed.

(** Counters that differ in live bytes only. *)
Record same_bounds (fs fs' : FileStats) : Prop := {
  sb_total : wrap 64 (total_bytes fs') = wrap 64 (total_bytes fs);
  sb_min : min_sequence fs' = min_sequence fs;
  sb_max : Z.max (max_sequence fs') 0 = Z.max (max_sequence fs) 0
}.

Definition bounds_kept (stats stats' : gmap Z FileStats) : Prop :=
  forall f fs', stats' !! f = Some fs' -> exists fs, stats !! f = Some fs /\ same_bounds fs fs'.

#[local] Instance bounds_kept_refl : Reflexive bounds_kept.
Proof. intros stats f fs Hf. by exists fs. Qed.
#[local] Instance bounds_kept_trans : Transitive bounds_kept.
Proof.
  intros a b c H1 H2 f fs (fs1 & (fs2 & ? & [])%H1 & [])%H2. exists fs2. split; [done|]. split; congruence.
Qed.

Lemma bounds_kept_patch id add rem stats : bounds_kept stats (patch_at id (mkDelta add rem 0 0 0 0 0 0) stats).
Proof.
  intros f fs'. unfold patch_at. destruct (decide (f = id)) as [->|Hne]; [|rewrite lookup_alter_ne by done; intros; by exists fs'].
  rewrite lookup_alter_eq. destruct (stats !! id) as [fs|]; [|done]. intros [= <-]. exists fs. split; [done|].
  split; cbn [apply total_bytes min_sequence max_sequence total_added d_min_sequence d_max_sequence].
  - unfold wrap. by rewrite Z.add_0_r, Zmod_mod.
  - by destruct (Z.eqb_spec (min_sequence fs) 0).
  - lia.
Qed.

Lemma bounds_kept_rm_live key o stats : bounds_kept stats (rm_live key o stats).
Proof. destruct o; [apply bounds_kept_patch|done]. Qed.

Lemma bounds_kept_rm_live_all l stats : bounds_kept stats (rm_live_all l stats).
Proof.
  unfold rm_live_all. revert stats. induction l as [|[k e] l IH]; intros stats; [done|]. cbn [foldl].
  etrans; [apply (bounds_kept_rm_live k (Some e))|apply IH].
Qed.

(** What replaying entries of [file_id] leaves alone. *)
Record same_frame (t t' : TransientEngineState) : Prop := {
  sf_active : t_active_file_id t' = t_active_file_id t;
  sf_next : t_next_seq t' = t_next_seq t;
  sf_files : t_files t' = t_files t;
  sf_dom : forall f, is_Some (t_file_stats t' !! f) <-> is_Some (t_file_stats t !! f);
  sf_next_file : t_next_file_id t' = t_next_file_id t;
  sf_durable : t_durable_seq t' = t_durable_seq t;
  sf_requested : t_sync_requested_seq t' = t_sync_requested_seq t;
  sf_bounds : bounds_kept (t_file_stats t) (t_file_stats t')
}.

Lemma same_frame_trans a b c : same_frame a b -> same_frame b c -> same_frame a c.
Proof. intros [] []. split; try congruence; [intros f; by rewrite sf_dom1, sf_dom0|by etrans]. Qed.

(** A replayed put names its record in the file. *)
Record replayable (recs : records) (file_id : Z) (e : ResumeEntry) : Prop := {
  rp_packs : packs file_id e;
  rp_record : re_type e = Put -> exists v,
    recs file_id (re_offset e) = Some (mkDataEntry (re_sequence e) Put (re_key e) v)
    /\ size v = re_value_size e
}.

Lemma stats_fit_rm_live key o stats : stats_fit stats -> stats_fit (rm_live key o stats).
Proof. destruct o; [|done]. intros. by apply stats_fit_patch. Qed.

Lemma stats_fit_rm_live_all l stats : stats_fit stats -> stats_fit (rm_live_all l stats).
Proof.
  unfold rm_live_all. revert stats. induction l as [|[k e] l IH]; intros stats Hf; [done|].
  apply IH. by apply (stats_fit_rm_live k (Some e)).
Qed.

Section resume.
Context `{KeyDirKind} (recs : records) (file_id : Z).

(** One replayed entry, done. *)
Record resume_step (e : ResumeEntry) (t t' : TransientEngineState) : Prop := {
  rs_linked : linked recs t';
  rs_lookup : forall k, t_key_dir t' !! k = by_sequence file_id k (t_key_dir t !! k) e;
  rs_frame : same_frame t t'
}.

Lemma resume_step_id e t :
  linked recs t -> (forall k, by_sequence file_id k (t_key_dir t !! k) e = t_key_dir t !! k) ->
  resume_step e t t.
Proof. intros Hl Hk. by split. Qed.

Lemma resume_put_step e t :
  linked recs t -> replayable recs file_id e -> re_type e = Put ->
  is_Some (t_file_stats t !! file_id) ->
  exists t', resume_one file_id e t = Ok t' /\ resume_step e t t'.
Proof.
  intros [Hres Hlive Hfit Hfiles] [Hp Hrec] Ht Hfile.
  destruct (KeyDirEntry.make_fields _ _ _ _ (Hp Ht)) as (x & Hx & [Es Eo Ef Ev]).
  assert (Hmade : made file_id e = Some x) by (unfold made; by rewrite Ht, Hx).
  assert (Hby : forall k o, by_sequence file_id k o e
    = if bool_decide (re_key e = k) && older o (re_sequence e) then Some x else o)
    by (intros; unfold by_sequence, affects; by rewrite Ht, Hmade).
  unfold resume_one, kd_get. rewrite Ht. fold (older (t_key_dir t !! re_key e) (re_sequence e)).
  destruct (older (t_key_dir t !! re_key e) (re_sequence e)) eqn:Hold.
  - rewrite Hx. cbn [mbind result_bind]. eexists. split; [done|].
    rewrite remove_live_stats. cbn [kd_put snd]. split.
    + split; cbn [t_key_dir t_file_stats patch_stats set_file_stats set_key_dir].
      * apply map_Forall_insert_2; [|done]. destruct (Hp Ht) as (_ & ? & _).
        split; [rewrite Eo; unfold KeyDirEntry.kMaxFileOffset in *; lia|].
        destruct (Hrec Ht) as (v & Hv & Hsz). exists v. by rewrite Ef, Eo, Es, Ev.
      * rewrite <-Ef. by apply live_ok_put; cbn; rewrite ?Ev.
      * apply stats_fit_patch; [by apply stats_fit_rm_live|done].
      * intros k e' [[<- <-]|[_ Hk]]%lookup_insert_Some; apply patch_at_dom, rm_live_dom;
          [by rewrite Ef|eauto].
    + intros k. rewrite Hby. cbn [t_key_dir patch_stats set_file_stats set_key_dir].
      case_bool_decide as Hk; [subst k; by rewrite lookup_insert_eq, Hold|].
      by rewrite lookup_insert_ne.
    + split; try done; cbn [t_file_stats patch_stats set_file_stats set_key_dir].
      * intros f. etrans; [apply patch_at_dom|apply rm_live_dom].
      * etrans; [apply bounds_kept_rm_live|apply bounds_kept_patch].
  - eexists. split; [done|]. apply resume_step_id; [done|]. intros k. rewrite Hby.
    case_bool_decide as Hk; [|done]. subst k. by rewrite Hold.
Qed.

Lemma resume_delete_step e t :
  linked recs t -> re_type e = Delete ->
  exists t', resume_one file_id e t = Ok t' /\ resume_step e t t'.
Proof.
  intros Hl Ht. pose proof Hl as [Hres Hlive Hfit Hfiles].
  assert (Hby : forall k o, by_sequence file_id k o e
    = if bool_decide (re_key e = k) && older o (re_sequence e) then None else o)
    by (intros; unfold by_sequence, affects, made; by rewrite Ht).
  unfold resume_one, kd_get. rewrite Ht. destruct (t_key_dir t !! re_key e) as [x|] eqn:Hk.
  2: { eexists. split; [done|]. apply resume_step_id; [done|]. intros k. rewrite Hby.
       case_bool_decide as E; [|done]. subst k. by rewrite Hk. }
  destruct (KeyDirEntry.sequence x <? re_sequence e) eqn:Hold.
  2: { eexists. split; [done|]. apply resume_step_id; [done|]. intros k. rewrite Hby.
       case_bool_decide as E; [|done]. subst k. rewrite Hk. cbn [older]. by rewrite Hold. }
  eexists. split; [done|]. rewrite remove_live_stats. cbn [kd_erase snd].
  split.
  - split; cbn [t_key_dir t_file_stats set_file_stats set_key_dir].
    + by apply map_Forall_delete.
    + rewrite <-Hk. by apply live_ok_remove.
    + by apply stats_fit_rm_live.
    + intros k e' [_ Hk']%lookup_delete_Some. apply rm_live_dom; eauto.
  - intros k. rewrite Hby. cbn [t_key_dir set_file_stats set_key_dir].
    case_bool_decide as E; [subst k|by rewrite lookup_delete_ne].
    rewrite lookup_delete_eq, Hk. cbn [older]. by rewrite Hold.
  - split; try done; [intros f; apply (rm_live_dom (re_key e) (Some x))|apply (bounds_kept_rm_live (re_key e) (Some x))].
Qed.

Lemma resume_range_step e t :
  linked recs t -> re_type e = RangeDel ->
  exists t', resume_one file_id e t = Ok t' /\ resume_step e t t'.
Proof.
  intros [Hres Hlive Hfit Hfiles] Ht. unfold resume_one. rewrite Ht.
  set (l := filter _ (kd_range (t_key_dir t) (re_key e) (re_range_end e))).
  assert (Hl : forall k x, (k, x) ∈ l <-> KeyDirEntry.sequence x < re_sequence e
    /\ t_key_dir t !! k = Some x /\ in_range (re_key e) (re_range_end e) k = true)
    by (intros; unfold l; by rewrite list_elem_of_filter, elem_of_kd_range).
  assert (Hlk : forall k, k ∈ l.*1 <-> exists x, (k, x) ∈ l).
  { intros k. rewrite list_elem_of_fmap. split; [intros ([k' x] & -> & ?); by exists x|].
    intros (x & ?). by exists (k, x). }
  eexists. split; [done|]. rewrite remove_live_all_stats. split.
  - split; cbn [t_key_dir t_file_stats set_file_stats set_key_dir].
    + intros k x. rewrite erase_keys_lookup. case_decide; [done|]. apply Hres.
    + apply live_ok_erase; [done| |intros k x Hin; by apply Hl in Hin as (_ & ? & _)].
      eapply sublist_NoDup; [apply NoDup_kd_range|]. apply fmap_sublist, sublist_filter.
    + by apply stats_fit_rm_live_all.
    + intros k x. rewrite erase_keys_lookup. case_decide; [done|]. intros Hk.
      apply rm_live_all_dom. eauto.
  - intros k. cbn [t_key_dir set_file_stats set_key_dir]. rewrite erase_keys_lookup.
    unfold by_sequence, affects, made. rewrite Ht. case_decide as Hin.
    + apply Hlk in Hin as (x & (Hs & Hk & ->)%Hl). rewrite Hk. cbn [older andb].
      by rewrite (proj2 (Z.ltb_lt _ _)).
    + destruct (in_range _ _ k) eqn:Hr; [|done]. destruct (t_key_dir t !! k) as [x|] eqn:Hk; [|done].
      cbn [older andb]. destruct (Z.ltb_spec (KeyDirEntry.sequence x) (re_sequence e)); [|done].
      exfalso. apply Hin, Hlk. exists x. by apply Hl.
  - split; try done; [intros f; apply rm_live_all_dom|apply bounds_kept_rm_live_all].
Qed.

Lemma resume_one_step e t :
  linked recs t -> replayable recs file_id e -> is_Some (t_file_stats t !! file_id) ->
  exists t', resume_one file_id e t = Ok t' /\ resume_step e t t'.
Proof.
  intros Hl Hr Hf. destruct (re_type e) eqn:Ht;
    [by apply resume_put_step|by apply resume_delete_step| | |by apply resume_range_step| |];
    (unfold resume_one; rewrite Ht).
  3: destruct (match t_change_markers t with None => _ | Some _ => _ end).
  all: eexists; split; [done|]; split;
    [by destruct Hl; split|by intros k; unfold by_sequence, affects; rewrite Ht|by split].
Qed.

Lemma resume_loop_step es a t :
  linked recs t -> Forall (replayable recs file_id) es -> is_Some (t_file_stats t !! file_id) ->
  exists t', resume_loop file_id es a t = Ok (foldl resume_acc a es, t')
    /\ linked recs t' /\ same_frame t t'
    /\ forall k, t_key_dir t' !! k = foldl (by_sequence file_id k) (t_key_dir t !! k) es.
Proof.
  revert a t. induction es as [|e es IH]; intros a t Hl Hr Hf.
  { exists t. done. }
  apply Forall_cons in Hr as [Hr1 Hr].
  destruct (resume_one_step e t Hl Hr1 Hf) as (t1 & E1 & [Hl1 Hk1 Hf1]).
  destruct (IH (resume_acc a e) t1 Hl1 Hr) as (t2 & E2 & Hl2 & Hf2 & Hk2); [by apply Hf1|].
  exists t2. cbn [resume_loop foldl]. rewrite E1. cbn [mbind result_bind]. split_and!; try done.
  - by eapply same_frame_trans.
  - intros k. by rewrite Hk2, Hk1.
Qed.

End resume.

(** ** The file's bounds *)

Record acc_ok (a : ResumeAcc) : Prop := {
  ao_tomb : fits 64 (ra_tomb a);
  ao_mark : fits 64 (ra_mark a);
  ao_cm : fits 64 (ra_cm a);
  ao_min : 0 <= ra_seq_min a;
  ao_max : 0 <= ra_seq_max a
}.

Lemma acc_ok_fold es a :
  acc_ok a -> Forall (fun e => 0 < re_sequence e) es -> acc_ok (foldl resume_acc a es).
Proof.
  revert a. induction es as [|e es IH]; intros a Ha Hes; [done|].
  apply Forall_cons in Hes as [He Hes]. apply IH; [|done]. destruct Ha.
  split; cbn [resume_acc ra_tomb ra_mark ra_cm ra_seq_min ra_seq_max];
    try (by apply wrap_fits); case_match; lia.
Qed.

Lemma max_seq_fold es a :
  let m := ra_max_seq (foldl resume_acc a es) in
  ra_max_seq a <= m /\ (forall e, e ∈ es -> re_sequence e <= m)
  /\ (m = ra_max_seq a \/ exists e, e ∈ es /\ m = re_sequence e).
Proof.
  revert a. induction es as [|e es IH]; intros a; cbn [foldl].
  { split_and!; [lia|by intros e ?%not_elem_of_nil|by left]. }
  destruct (IH (resume_acc a e)) as (Hle & Hall & Hor). cbv zeta in *.
  set (m := ra_max_seq (foldl _ _ es)) in *. unfold resume_acc in Hle, Hor.
  cbn [ra_max_seq] in Hle, Hor.
  destruct (Z.ltb_spec (ra_max_seq a) (re_sequence e)); split_and!.
  - lia.
  - intros e' [->|?]%elem_of_cons; [lia|auto].
  - right. destruct Hor as [->|(e' & ? & ->)]; [exists e|exists e']; set_solver.
  - lia.
  - intros e' [->|?]%elem_of_cons; [lia|auto].
  - destruct Hor as [->|(e' & ? & ->)]; [by left|right; exists e'; set_solver].
Qed.

Lemma file_order_inj es e e' :
  file_order es -> e ∈ es -> e' ∈ es -> re_sequence e = re_sequence e' -> e = e'.
Proof.
  unfold file_order. induction es as [|x es IH]; [by intros _ ?%not_elem_of_nil|].
  rewrite fmap_cons. intros [Hs Hx]%StronglySorted_inv He He' Heq. rewrite Forall_forall in Hx.
  apply elem_of_cons in He as [->|He], He' as [->|He']; try done.
  - specialize (Hx (re_sequence e') ltac:(by apply list_elem_of_fmap_2)). lia.
  - specialize (Hx (re_sequence e) ltac:(by apply list_elem_of_fmap_2)). lia.
  - auto.
Qed.

(** ** The store before the file *)

Record before_file (base : KeyDirTree) (es : list ResumeEntry) : Prop := {
  bf_seq : forall k x, base !! k = Some x -> 0 < KeyDirEntry.sequence x;
  bf_older : forall k x e, base !! k = Some x -> e ∈ es -> KeyDirEntry.sequence x < re_sequence e;
  bf_uniq : forall k k' x x', base !! k = Some x -> base !! k' = Some x' ->
              KeyDirEntry.sequence x = KeyDirEntry.sequence x' -> k = k'
}.

Lemma replay_origin file_id es base k x :
  Forall (packs file_id) es -> replay file_id es base !! k = Some x ->
  base !! k = Some x
  \/ exists e, e ∈ es /\ re_type e = Put /\ re_key e = k /\ KeyDirEntry.sequence x = re_sequence e.
Proof.
  intros Hp. rewrite replay_lookup, in_order_decider by done.
  destruct (decider k es) as [e|] eqn:E; [|by left]. intros Hm. right. exists e.
  destruct (decider_elem _ _ _ E) as [Hin Ha]. rewrite Forall_forall in Hp.
  pose proof (made_sequence file_id e x (Hp e Hin) Hm) as Hs.
  unfold made in Hm. unfold affects in Ha. destruct (re_type e); try done.
  by apply bool_decide_eq_true in Ha.
Qed.

Lemma replay_uniq file_id es base k k' x x' :
  Forall (packs file_id) es -> file_order es -> before_file base es ->
  replay file_id es base !! k = Some x -> replay file_id es base !! k' = Some x' ->
  KeyDirEntry.sequence x = KeyDirEntry.sequence x' -> k = k'.
Proof.
  intros Hp Ho [_ Hold Huniq] Hx Hx' Heq.
  apply (replay_origin _ _ _ _ _ Hp) in Hx as [Hx|(e & He & _ & <- & Hs)];
    apply (replay_origin _ _ _ _ _ Hp) in Hx' as [Hx'|(e' & He' & _ & <- & Hs')].
  - eauto.
  - specialize (Hold _ _ _ Hx He'). lia.
  - specialize (Hold _ _ _ Hx' He). lia.
  - by rewrite (file_order_inj es e e') by (done || congruence).
Qed.

(** The file as its scan collected it. *)
Record scanned_file (recs : records) (file_id : Z) (base : KeyDirTree) (es : list ResumeEntry) : Prop := {
  sn_replayable : Forall (replayable recs file_id) es;
  sn_order : file_order es;
  sn_seq : Forall (fun e => 0 < re_sequence e <= KeyDirEntry.kMaxSequence) es;
  sn_base : before_file base es
}.

Lemma replay_by_sequence recs file_id base es1 es2 kd :
  scanned_file recs file_id base (es1 ++ es2) ->
  (forall k, kd !! k = foldl (by_sequence file_id k) (replay file_id es1 base !! k) (es1 ++ es2)) ->
  kd = replay file_id (es1 ++ es2) base.
Proof.
  intros [Hr Ho _ Hb] Hk. apply map_eq. intros k.
  assert (Hp : Forall (packs file_id) (es1 ++ es2)) by (eapply Forall_impl; [exact Hr|]; by intros e []).
  rewrite Hk, !replay_lookup by (try done; by apply Forall_app in Hp as [? _]).
  apply by_sequence_over_prefix; [done|done|]. intros e x He Hx. by eapply (bf_older _ _ Hb).
Qed.

(** The counters of the resumed file, rebuilt. *)
Lemma resume_stats recs t file_id a valid_offset fs :
  linked recs t -> acc_ok a -> fits 64 valid_offset -> t_file_stats t !! file_id = Some fs ->
  linked recs (set_file_stats (<[file_id := mkFileStats (live_bytes fs) valid_offset (ra_seq_min a)
     (ra_seq_max a) (ra_tomb a) (ra_mark a) (ra_cm a)]> (t_file_stats t)) t).
Proof.
  intros [Hres Hlive Hfit Hfiles] [] Hv Hfs. split; cbn [t_key_dir t_file_stats set_file_stats]; try done.
  - intros f fs' [[<- <-]|[_ ?]]%lookup_insert_Some; [by apply (Hlive _ _ Hfs)|by apply Hlive].
  - by apply map_Forall_insert_2.
  - intros k e Hk. apply lookup_insert_is_Some'. right. eauto.
Qed.

Lemma wf_replayed recs file_id base es t n :
  linked recs t -> scanned_file recs file_id base es -> t_key_dir t = replay file_id es base ->
  is_Some (t_file_stats t !! t_active_file_id t) ->
  0 <= t_active_file_id t <= KeyDirEntry.kMaxFileId -> t_next_seq t = n -> 0 < n ->
  (forall e, e ∈ es -> re_sequence e < n) -> (forall k x, base !! k = Some x -> KeyDirEntry.sequence x < n) ->
  wf recs t.
Proof.
  intros [] [Hr Ho Hs Hb] Hkd Hact Hid Hn Hn0 Hes Hbase.
  assert (Hp : Forall (packs file_id) es) by (eapply Forall_impl; [exact Hr|]; by intros e []).
  split; try done; rewrite ?Hn, ?Hkd; [done| |].
  - intros k x Hx. rewrite Forall_forall in Hs.
    destruct (replay_origin _ _ _ _ _ Hp Hx) as [Hbx|(e & He & _ & _ & ->)].
    + split; [by eapply (bf_seq _ _ Hb)|by eapply Hbase].
    + split; [by apply Hs|by apply Hes].
  - intros k k' x x' Hx Hx'. by eapply replay_uniq.
Qed.

(** The bounds of a file's sequences: both zero, or positive and in order. *)
Definition bounds_coherent (lo hi : Z) : Prop := (lo = 0 /\ hi = 0) \/ 0 < lo <= hi.

Lemma bounds_fold es a :
  Forall (fun e => 0 < re_sequence e) es -> bounds_coherent (ra_seq_min a) (ra_seq_max a) ->
  bounds_coherent (ra_seq_min (foldl resume_acc a es)) (ra_seq_max (foldl resume_acc a es)).
Proof.
  revert a. induction es as [|e es IH]; intros a Hes Ha; [done|]. apply Forall_cons in Hes as [He Hes]. apply IH; [done|].
  unfold bounds_coherent in *. cbn [resume_acc ra_seq_min ra_seq_max].
  destruct (Z.eqb_spec (ra_seq_min a) 0), (Z.ltb_spec (ra_seq_max a) (re_sequence e)); lia.
Qed.

(** What replaying a file gives. *)
Record resumed_from (recs : records) (file_id : Z) (base : KeyDirTree) (es : list ResumeEntry) (valid_offset : Z)
    (t t' : TransientEngineState) : Prop := {
  rf_wf : wf recs t';
  rf_key_dir : t_key_dir t' = replay file_id es base;
  rf_next : t_next_seq t <= t_next_seq t' <= Z.max (t_next_seq t) (KeyDirEntry.kMaxSequence + 1);
  rf_above : forall e, e ∈ es -> re_sequence e < t_next_seq t';
  rf_active : t_active_file_id t' = t_active_file_id t;
  rf_files : t_files t' = t_files t;
  rf_next_file : t_next_file_id t' = t_next_file_id t;
  rf_durable : t_durable_seq t' = t_durable_seq t;
  rf_requested : t_sync_requested_seq t' = t_sync_requested_seq t;
  rf_dom : forall f, is_Some (t_file_stats t' !! f) <-> is_Some (t_file_stats t !! f);
  rf_other : forall f fs', f <> file_id -> t_file_stats t' !! f = Some fs' -> exists fs, t_file_stats t !! f = Some fs /\ same_bounds fs fs';
  rf_file : forall fs', t_file_stats t' !! file_id = Some fs' ->
    total_bytes fs' = valid_offset /\ bounds_coherent (min_sequence fs') (max_sequence fs');
  rf_markers : exists t1 a, resume_loop file_id es (mkResumeAcc 0 0 0 0 0 0) t = Ok (a, t1) /\ t_change_markers t' = t_change_markers t1
}.

Lemma apply_resume_from `{KeyDirKind} recs file_id base es1 es2 valid_offset t :
  wf recs t -> t_key_dir t = replay file_id es1 base ->
  scanned_file recs file_id base (es1 ++ es2) ->
  (forall k x, base !! k = Some x -> KeyDirEntry.sequence x < t_next_seq t) ->
  is_Some (t_file_stats t !! file_id) -> fits 64 valid_offset ->
  exists t', apply_resume file_id (es1 ++ es2) valid_offset t = Ok t' /\ resumed_from recs file_id base (es1 ++ es2) valid_offset t t'.
Proof.
  intros Hwf Hkd Hsf Hbase Hfile Hv. pose proof (wf_next _ _ Hwf) as Hn0.
  set (a0 := mkResumeAcc 0 0 0 0 0 0).
  destruct (resume_loop_step recs file_id (es1 ++ es2) a0 t (wf_linked _ _ Hwf) (sn_replayable _ _ _ _ Hsf)
    Hfile) as (t1 & E & Hl & [Fa Fn Ff Fd F5 F6 F7 F8] & Hk).
  set (a := foldl resume_acc a0 (es1 ++ es2)) in *.
  assert (Ha : acc_ok a).
  { apply acc_ok_fold; [done|]. eapply Forall_impl; [apply (sn_seq _ _ _ _ Hsf)|]. cbn. lia. }
  destruct (max_seq_fold (es1 ++ es2) a0) as (H0 & Hmax & Hor). fold a in H0, Hmax, Hor.
  assert (Hm : 0 <= ra_max_seq a <= KeyDirEntry.kMaxSequence).
  { destruct Hor as [->|(e & He & ->)]; [done|]. pose proof (sn_seq _ _ _ _ Hsf) as Hs.
    rewrite Forall_forall in Hs. specialize (Hs e He). cbn in Hs. lia. }
  rewrite Hkd in Hk. apply (replay_by_sequence recs) in Hk; [|done].
  unfold apply_resume. fold a0. rewrite E. cbn [mbind result_bind].
  set (t2 := if t_next_seq t1 <=? ra_max_seq a then _ else t1).
  assert (Hn2 : t_next_seq t2 = Z.max (t_next_seq t) (ra_max_seq a + 1)).
  { unfold t2. destruct (Z.leb_spec (t_next_seq t1) (ra_max_seq a)); cbn [t_next_seq set_next_seq]; [|lia].
    rewrite wrap_small by (unfold fits, KeyDirEntry.kMaxSequence in *; lia). lia. }
  assert (H2 : linked recs t2 /\ t_key_dir t2 = t_key_dir t1 /\ t_file_stats t2 = t_file_stats t1
               /\ t_active_file_id t2 = t_active_file_id t1 /\ t_files t2 = t_files t1 /\ t_next_file_id t2 = t_next_file_id t1
               /\ t_durable_seq t2 = t_durable_seq t1 /\ t_sync_requested_seq t2 = t_sync_requested_seq t1
               /\ t_change_markers t2 = t_change_markers t1).
  { unfold t2. destruct Hl. case_match; by split_and!. }
  destruct H2 as (Hl2 & Hk2 & Hf2 & Ha2 & Hfi2 & Hnf2 & Hd2 & Hr2 & Hm2). clearbody t2.
  destruct (proj2 (Fd file_id) Hfile) as [fs Hfs]. rewrite Hf2, Hfs, <-Hf2.
  assert (Hdom : forall f, is_Some (<[file_id := mkFileStats (live_bytes fs) valid_offset (ra_seq_min a) (ra_seq_max a) (ra_tomb a) (ra_mark a) (ra_cm a)]>
    (t_file_stats t2) !! f) <-> is_Some (t_file_stats t !! f)).
  { intros f. rewrite lookup_insert_is_Some', Hf2, Fd. split; [intros [->|]; done|by right]. }
  eexists. split; [done|].
  split; cbn [t_key_dir t_next_seq t_active_file_id t_files t_next_file_id t_durable_seq t_sync_requested_seq t_change_markers t_file_stats set_file_stats];
    rewrite ?Hk2, ?Ha2, ?Hfi2, ?Hnf2, ?Hd2, ?Hr2, ?Hm2, ?Hn2; try done; try lia.
  - apply (wf_replayed recs file_id base (es1 ++ es2) _ (t_next_seq t2)).
    + apply (resume_stats recs); [done|done|done|by rewrite Hf2].
    + done.
    + by rewrite <-Hk, <-Hk2.
    + cbn [t_file_stats t_active_file_id set_file_stats]. apply Hdom. rewrite Ha2, Fa. apply Hwf.
    + cbn [t_active_file_id set_file_stats]. rewrite Ha2, Fa. apply Hwf.
    + done.
    + lia.
    + intros e He. specialize (Hmax e He). lia.
    + intros k x Hx. specialize (Hbase k x Hx). lia.
  - intros e He. specialize (Hmax e He). lia.
  - intros f fs' Hne. rewrite lookup_insert_ne by done. rewrite Hf2. apply F8.
  - intros fs'. rewrite lookup_insert_eq. intros [= <-]. cbn. split; [done|]. apply bounds_fold; [|by left].
    eapply Forall_impl; [apply (sn_seq _ _ _ _ Hsf)|]. cbn. lia.
  - by exists t1, a.
Qed.

(** C13: resume rebuilds the published state from the file.  Let the active
    file hold the committed entries [es1 ++ es2] over a store [base], and let
    the state being resumed reflect only [es1].  Replaying the whole file
    with [apply_resume] cannot fail and gives the key directory that applying
    every entry in order to [base] gives, so nothing is lost, nothing deleted
    comes back and nothing is applied twice; the next sequence is past every
    entry of the file, and live bytes and statistics are consistent again. *)
Theorem apply_resume_replays `{KeyDirKind} recs file_id base es1 es2 valid_offset t :
  wf recs t -> t_key_dir t = replay file_id es1 base ->
  scanned_file recs file_id base (es1 ++ es2) ->
  (forall k x, base !! k = Some x -> KeyDirEntry.sequence x < t_next_seq t) ->
  is_Some (t_file_stats t !! file_id) -> fits 64 valid_offset ->
  exists t', apply_resume file_id (es1 ++ es2) valid_offset t = Ok t' /\ wf recs t'
    /\ t_key_dir t' = replay file_id (es1 ++ es2) base
    /\ t_next_seq t <= t_next_seq t'
    /\ forall e, e ∈ es1 ++ es2 -> re_sequence e < t_next_seq t'.
Proof.
  intros Hwf Hkd Hsf Hbase Hfile Hv.
  destruct (apply_resume_from recs file_id base es1 es2 valid_offset t Hwf Hkd Hsf Hbase Hfile Hv) as (t' & E & []).
  exists t'. by destruct rf_next0.
Qed.

(** ** Witness *)

Module ResumeFixture.
Import Fixture.

(** The store of [Fixture] with two entries written but never published. *)
Definition published : list ResumeEntry := [mkResume 1 Put 0 1 ka [] 0].
Definition unpublished : list ResumeEntry :=
  [mkResume 2 Put 30 1 kb [] 0; mkResume 3 Delete 49 0 ka [] 0].

Definition disk : records := fun f o =>
  if f =? 1 then
    if o =? 0 then Some (mkDataEntry 1 Put ka one)
    else if o =? 30 then Some (mkDataEntry 2 Put kb two)
    else if o =? 49 then Some (mkDataEntry 3 Delete ka []) else None
  else None.

Lemma disk_wf : wf disk store.
Proof.
  destruct (store_wf batch). split; try done.
  change (t_key_dir store) with ({[ ka := old_entry ]} : KeyDirTree).
  intros k e [<- <-]%lookup_singleton_Some. split; [by vm_compute|].
  exists one. split; reflexivity.
Qed.

Lemma disk_scanned : scanned_file disk 1 ∅ (published ++ unpublished).
Proof.
  split.
  - apply Forall_cons_2; [|apply Forall_cons_2; [|apply Forall_singleton]].
    + split; [by vm_compute|]. intros _. by exists one.
    + split; [by vm_compute|]. intros _. by exists two.
    + split; by intros ?.
  - unfold file_order. repeat (constructor; [|repeat constructor]). constructor.
  - repeat (apply Forall_cons_2; [by vm_compute|]). by apply Forall_nil_2.
  - split; by intros ? ?; rewrite lookup_empty.
Qed.

End ResumeFixture.
Import Fixture ResumeFixture.

Lemma apply_resume_replays_witness :
  exists t', apply_resume 1 (published ++ unpublished) 70 store = Ok t'
    /\ view disk (t_key_dir t') = {[ kb := two ]}.
Proof.
  destruct (apply_resume_replays disk 1 ∅ published unpublished 70 store disk_wf)
    as (t' & E & _ & K & _).
  - vm_compute. reflexivity.
  - exact disk_scanned.
  - intros k x Hx. rewrite lookup_empty in Hx. done.
  - by eexists.
  - by vm_compute.
  - exists t'. split; [exact E|]. rewrite K. vm_compute. reflexivity.
Defined.
