(* ===== verification/Recovery.v ===== *)
(** * Loading the key directory from hints

    Models the two loaders of [db_recovery.cpp]: [recovery_load_ranged], which
    merges the hints of each worker's files into a tree
    ([recovery_build_sorted]) and then merges the trees range by range, and
    [recovery_load_streams], which merges the hint files themselves range by
    range (the blind key directory's path).

    Workers touch different files, so the bodies of [recovery_parallel_for]
    run one after another in the model; every one runs, and the exception
    rethrown is the first in index order.  A binary heap of cursor indexes is
    modelled as the list of the cursors it holds, [pop_heap] taking a cursor
    with the least key.  [sample_separators] picks keys off the inner nodes of
    a B+ tree, which the model of a tree as a map does not have: it is an
    argument, and nothing depends on what it returns. *)

From S2P Require Import Prelude Codec HintFile KeyDir DataFile EngineState Hints.
Import Serialization Types Stats Dir.

(** ** Data *)

Record RecoveredFile : Type := mkRecovered {
  rf_file_id : Z;
  rf_data_file : DataFile;
  rf_hint_path : string;          (* the stem *)
  rf_total_bytes : Z
}.

Record RangeTombstone : Type := mkRangeTombstone {
  rt_start : bytes; rt_end : bytes; rt_seq : Z; rt_file_id : Z; rt_needed : bool
}.

Record PointTombstone : Type := mkPointTombstone { pt_seq : Z; pt_file_id : Z }.

(** [tombstones[key]] before anything is stored there. *)
Definition PointTombstone_zero : PointTombstone := mkPointTombstone 0 0.

(** A hint entry that owns its key. *)
Record HintRecord : Type := mkHintRecord {
  hr_sequence : Z; hr_type : EntryType; hr_file_offset : Z; hr_value_size : Z; hr_key : bytes
}.

Definition assign (he : HintEntry.HintEntry) : HintRecord :=
  mkHintRecord (HintEntry.sequence he) (HintEntry.entry_type he) (HintEntry.file_offset he)
    (HintEntry.value_size he) (HintEntry.key he).

Record NeededTombstones : Type := mkNeeded { nt_horizon : Z; nt_sequences : list Z }.

Definition NeededTombstones_none : NeededTombstones := mkNeeded 0 [].

Definition rt_covers (k : bytes) (rt : RangeTombstone) : bool := in_range (rt_start rt) (rt_end rt) k.

Definition need_range (rt : RangeTombstone) : RangeTombstone :=
  mkRangeTombstone (rt_start rt) (rt_end rt) (rt_seq rt) (rt_file_id rt) true.

(** The marker list recovery publishes: sorted by sequence, null when empty. *)
Definition marker_le (a b : ChangeMarker) : Prop := since_sequence a <= since_sequence b.
#[export] Instance marker_le_dec : RelDecision marker_le.
Proof. intros a b. unfold marker_le. apply _. Defined.

Definition sorted_markers (markers : list ChangeMarker) : option (list ChangeMarker) :=
  match markers with [] => None | _ => Some (merge_sort marker_le markers) end.

(** [std::ranges::unique] of a sorted vector. *)
Fixpoint unique (l : list Z) : list Z :=
  match l with
  | x :: ((y :: _) as l') => if x =? y then unique l' else x :: unique l'
  | _ => l
  end.

Definition recovery_needed_tombstones (point : list Z) (ranges : list RangeTombstone) (horizon : Z)
    (skipped_files : bool) : NeededTombstones :=
  if skipped_files then NeededTombstones_none
  else
    let point := point ++ (rt_seq <$> filter (fun rt => rt_needed rt = true) ranges) in
    mkNeeded horizon (unique (merge_sort Z.le point)).

(** [recovery_parallel_for]: every body runs; the first exception is
    rethrown. *)
Fixpoint parallel_for {S A} (bodies : list (io S A)) : io S (list A) :=
  match bodies with
  | [] => mret []
  | body :: bodies =>
      r ← attempt body;
      rs ← attempt (parallel_for bodies);
      lift (a ← r; l ← rs; Ok (a :: l))
  end.

(** ** Marking the tombstones still needed *)

Abbreviation match_ := (HintRecord * Z)%type (only parsing).    (* an entry and its file *)

Definition older_put_elsewhere (matches : list (HintRecord * Z)) (seq file : Z) : bool :=
  existsb (fun p => bool_decide (hr_type p.1 = Put) && (hr_sequence p.1 <? seq) && negb (p.2 =? file)) matches.

Definition recovery_mark_needed (key : bytes) (matches : list (HintRecord * Z))
    (ranges : list RangeTombstone) (needed : list Z) : list RangeTombstone * list Z :=
  let needed :=
    foldl (fun needed p =>
             if bool_decide (hr_type p.1 = Delete) && older_put_elsewhere matches (hr_sequence p.1) p.2
             then needed ++ [hr_sequence p.1] else needed) needed matches in
  (map (fun rt =>
          if rt_needed rt then rt
          else if negb (rt_covers key rt) then rt
          else if older_put_elsewhere matches (rt_seq rt) (rt_file_id rt) then need_range rt else rt) ranges,
   needed).

(** ** Cursors over hint files *)

(** A scanner's entries still to come, its file, the newest entry of the key
    it sits on ([has_cur]) and the first of the following key
    ([has_lookahead]). *)
Record Cursor : Type := mkCursor {
  cu_scanner : list HintEntry.HintEntry;
  cu_error : option exn;                (* what the scanner throws at its end *)
  cu_file_id : Z;
  cu_cur : option HintRecord;
  cu_lookahead : option HintRecord
}.

Section cursors.
(** What a pass notes of every entry it steps over, the bound of its range,
    and what it says of a hint out of order. *)
Context {S : Type} (note : Z -> HintEntry.HintEntry -> S -> S) (below_hi : bytes -> bool) (unsorted : string).

(** The next Put or Delete. *)
Fixpoint next_data (file_id : Z) (err : option exn) (es : list HintEntry.HintEntry)
    : io S (option HintEntry.HintEntry * list HintEntry.HintEntry) :=
  match es with
  | [] => match err with Some ex => throw ex | None => mret (None, []) end
  | he :: es =>
      _ ← modify (note file_id he);
      match HintEntry.entry_type he with
      | RangeDel => throw (RuntimeError "bytecask: range tombstone inside a sorted hint run")
      | Put | Delete => mret (Some he, es)
      | _ => next_data file_id err es
      end
  end.

(** The rest of [load]: entries of the cursor's key are collapsed into the
    newest, up to the first of the next key.  A data entry is read per step, so
    the entries left are fuel enough. *)
Fixpoint collapse (fuel : nat) (c : Cursor) (cur : HintRecord) : io S Cursor :=
  match fuel with
  | O => mret (mkCursor [] (cu_error c) (cu_file_id c) (Some cur) None)
  | Datatypes.S fuel' =>
      '(o, es) ← next_data (cu_file_id c) (cu_error c) (cu_scanner c);
      let c := mkCursor es (cu_error c) (cu_file_id c) (Some cur) None in
      match o with
      | None => mret c
      | Some he =>
          match key_compare (HintEntry.key he) (hr_key cur) with
          | Lt => throw (RuntimeError unsorted)
          | Eq => collapse fuel' c (if hr_sequence cur <? HintEntry.sequence he then assign he else cur)
          | Gt => mret (mkCursor es (cu_error c) (cu_file_id c) (Some cur) (Some (assign he)))
          end
      end
  end.

(** Parks the cursor on the newest entry of its next key below the bound, or
    empties it. *)
Definition load (c : Cursor) : io S Cursor :=
  '(o, es) ← match cu_lookahead c with
             | Some r => mret (Some r, cu_scanner c)
             | None =>
                 '(o, es) ← next_data (cu_file_id c) (cu_error c) (cu_scanner c);
                 mret (assign <$> o, es)
             end;
  let c := mkCursor es (cu_error c) (cu_file_id c) None None in
  match o with
  | None => mret c
  | Some cur => if negb (below_hi (hr_key cur)) then mret c
                else collapse (Datatypes.S (length es)) c cur
  end.

Fixpoint load_all (cs : list Cursor) : io S (list Cursor) :=
  match cs with
  | [] => mret []
  | c :: cs => c ← load c; cs ← load_all cs; mret (c :: cs)
  end.

End cursors.

(** *** The heap of cursors *)

Definition cu_key (c : Cursor) : bytes := match cu_cur c with Some r => hr_key r | None => [] end.

Definition has_cur (c : Cursor) : bool := match cu_cur c with Some _ => true | None => false end.

(** [pop_heap] and [pop_back]: a cursor with the least key, and the rest. *)
Fixpoint pop_min (c : Cursor) (heap : list Cursor) : Cursor * list Cursor :=
  match heap with
  | [] => (c, [])
  | d :: heap =>
      if key_ltb (cu_key d) (cu_key c) then let '(m, rest) := pop_min d heap in (m, c :: rest)
      else let '(m, rest) := pop_min c heap in (m, d :: rest)
  end.

(** The loop that pops the other cursors on the same key. *)
Fixpoint pop_same (fuel : nat) (key : bytes) (heap : list Cursor) : list Cursor * list Cursor :=
  match fuel, heap with
  | S fuel', c :: heap' =>
      let '(m, rest) := pop_min c heap' in
      if bool_decide (cu_key m = key) then
        let '(same, rest) := pop_same fuel' key rest in (m :: same, rest)
      else ([], heap)
  | _, _ => ([], heap)
  end.

Definition cursor_matches (cs : list Cursor) : list (HintRecord * Z) :=
  omap (fun c => (fun r => (r, cu_file_id c)) <$> cu_cur c) cs.

(** Entries left in the cursors: each pass of a merge takes one at least. *)
Definition cursors_left (cs : list Cursor) : nat :=
  sum_list ((fun c => length (cu_scanner c) + length (option_list (cu_cur c)) + length (option_list (cu_lookahead c)))%nat <$> cs).

(** *** The bulk loaders *)

Definition kBTreeMaxKeyBytes : Z := 65535.

(** [BulkLoader::append]: keys must come strictly ascending; the caller sees
    to that. *)
Definition bulk_append (key : bytes) (e : KeyDirEntry) (out : list (bytes * KeyDirEntry))
    : result (list (bytes * KeyDirEntry)) :=
  if kBTreeMaxKeyBytes <? size key then Err (LogicError "BulkLoader: key exceeds 65535 bytes")
  else Ok (out ++ [(key, e)]).

(** [BlindBulkLoader::append] checks it.  A packed entry's file id has 20 bits,
    so [check_ref] never refuses it. *)
Definition blind_append (key : bytes) (e : KeyDirEntry) (out : list (bytes * KeyDirEntry))
    : result (list (bytes * KeyDirEntry)) :=
  _ ← throw_if (kBTreeMaxKeyBytes <? size key) (LogicError "BlindBTree: key exceeds 65535 bytes");
  match last out with
  | Some (prev, _) => if key_ltb prev key then Ok (out ++ [(key, e)])
                      else Err (InvalidArgument "BlindBulkLoader: keys not ascending")
  | None => Ok (out ++ [(key, e)])
  end.

Definition record_entry (r : HintRecord) (file_id : Z) : result KeyDirEntry :=
  KeyDirEntry.make (hr_sequence r) (hr_file_offset r) file_id (hr_value_size r).

(** ** recovery_build_sorted *)

(** What the pass notes of the entries: the highest sequence, and the
    statistics of the files. *)
Record Noted : Type := mkNoted { no_max_seq : Z; no_stats : gmap Z FileStats }.

Definition note_stats (fs : FileStats) (he : HintEntry.HintEntry) : FileStats :=
  let seq := HintEntry.sequence he in
  mkFileStats (live_bytes fs) (total_bytes fs)
    (if (min_sequence fs =? 0) || (seq <? min_sequence fs) then seq else min_sequence fs)
    (if max_sequence fs <? seq then seq else max_sequence fs)
    (u64_add (tombstone_bytes fs)
       (tombstone_size (HintEntry.entry_type he) (size (HintEntry.key he)) (size (HintEntry.end_key he))))
    (u64_add (marker_bytes fs) (marker_size (HintEntry.entry_type he)))
    (u64_add (change_marker_bytes fs) (change_marker_size (HintEntry.entry_type he))).

Definition note (file_id : Z) (he : HintEntry.HintEntry) (n : Noted) : Noted :=
  mkNoted (if no_max_seq n <? HintEntry.sequence he then HintEntry.sequence he else no_max_seq n)
    (<[file_id := note_stats (default FileStats_zero (no_stats n !! file_id)) he]> (no_stats n)).

(** [FileStats{0, total_bytes}]. *)
Definition initial_stats (total : Z) : FileStats := mkFileStats 0 total 0 0 0 0 0.

(** What a worker collects besides. *)
Record Heads : Type := mkHeads {
  hd_ranges : list RangeTombstone;
  hd_markers : list ChangeMarker;
  hd_skipped : bool;
  hd_cursors : list Cursor
}.

(** The head of one file, up to its first Put or Delete. *)
Fixpoint read_head (file_id : Z) (err : option exn) (es : list HintEntry.HintEntry)
    (ranges : list RangeTombstone) (markers : list ChangeMarker)
    : io Noted (list RangeTombstone * list ChangeMarker * Cursor) :=
  match es with
  | [] =>
      match err with
      | Some ex => throw ex
      | None => mret (ranges, markers, mkCursor [] None file_id None None)
      end
  | he :: es =>
      _ ← modify (note file_id he);
      match HintEntry.entry_type he with
      | RangeDel =>
          read_head file_id err es
            (ranges ++ [mkRangeTombstone (HintEntry.key he) (HintEntry.end_key he) (HintEntry.sequence he) file_id false])
            markers
      | BulkBegin | BulkEnd => read_head file_id err es ranges markers
      | EChangeMarker =>
          read_head file_id err es ranges
            (markers ++ [mkChangeMarker (HintEntry.sequence he) (HintEntry.marker_id he)])
      | _ => mret (ranges, markers, mkCursor es err file_id None (Some (assign he)))
      end
  end.

(** What the merge builds. *)
Record Merged : Type := mkMerged {
  mg_out : list (bytes * KeyDirEntry);
  mg_tombstones : gmap bytes PointTombstone;
  mg_ranges : list RangeTombstone;
  mg_needed : list Z
}.

(** The entry with the highest sequence, the first of equals. *)
Definition newest (best : HintRecord * Z) (same : list (HintRecord * Z)) : HintRecord * Z :=
  foldl (fun w p => if hr_sequence w.1 <? hr_sequence p.1 then p else w) best same.

Definition record_tombstones (key : bytes) (matches : list (HintRecord * Z))
    (tombstones : gmap bytes PointTombstone) : gmap bytes PointTombstone :=
  foldl (fun ts p =>
           if bool_decide (hr_type p.1 = Delete) then
             let slot := default PointTombstone_zero (ts !! key) in
             <[key := if pt_seq slot <? hr_sequence p.1 then mkPointTombstone (hr_sequence p.1) p.2 else slot]> ts
           else ts) tombstones matches.

Definition range_suppresses (ranges : list RangeTombstone) (key : bytes) (seq : Z) : bool :=
  existsb (fun rt => (seq <? rt_seq rt) && rt_covers key rt) ranges.

(** One key of the merge: [best] was popped first. *)
Definition merge_key (key : bytes) (best : HintRecord * Z) (same : list (HintRecord * Z)) (m : Merged)
    : result Merged :=
  let '(winner, winner_file) := newest best same in
  let matches := best :: same in
  let tombstones := record_tombstones key matches (mg_tombstones m) in
  let '(ranges, needed) := recovery_mark_needed key matches (mg_ranges m) (mg_needed m) in
  out ← (if bool_decide (hr_type winner = Put) && negb (range_suppresses ranges key (hr_sequence winner)) then
           e ← record_entry winner winner_file;
           bulk_append key e (mg_out m)
         else Ok (mg_out m));
  Ok (mkMerged out tombstones ranges needed).

Definition kUnsortedBuild : string :=
  "bytecask: hint file is not sorted — recovery_build_sorted needs the sorted hint files flush_hints_for writes".

(** The merge over the heap of cursors. *)
Fixpoint merge_sorted (fuel : nat) (heap : list Cursor) (m : Merged) : io Noted Merged :=
  match fuel, heap with
  | S fuel', c :: heap' =>
      let '(best, rest) := pop_min c heap' in
      let key := cu_key best in
      let '(same, rest) := pop_same (length rest) key rest in
      m ← lift (match cu_cur best with
                | Some r => merge_key key (r, cu_file_id best) (cursor_matches same) m
                | None => Ok m
                end);
      loaded ← load_all note (fun _ => true) kUnsortedBuild (best :: same);
      merge_sorted fuel' (rest ++ filter (fun c => has_cur c = true) loaded) m
  | _, _ => mret m
  end.

Record RecoveryResult : Type := mkRecoveryResult {
  rr_key_dir : list (bytes * KeyDirEntry);       (* the loader's entries, in order *)
  rr_tombstones : gmap bytes PointTombstone;
  rr_range_tombstones : list RangeTombstone;
  rr_max_seq : Z;
  rr_file_stats : gmap Z FileStats;
  rr_needed : list Z;
  rr_skipped : bool;
  rr_markers : list ChangeMarker
}.

Section loaders.
Context `{Zstd} `{Crc32c}.

(** Phase A.  Only a file that cannot be opened is skipped. *)
Fixpoint read_heads (strict : bool) (files : list RecoveredFile) (h : Heads) (n : Noted)
    : io Disk (Heads * Noted) :=
  match files with
  | [] => mret (h, n)
  | f :: files =>
      hint ← open_hint_or_skip (rf_data_file f) (rf_hint_path f) strict;
      match hint with
      | None => read_heads strict files (mkHeads (hd_ranges h) (hd_markers h) true (hd_cursors h)) n
      | Some sc =>
          match read_head (rf_file_id f) (hs_error sc) (hs_entries sc).*2 (hd_ranges h) (hd_markers h) n with
          | (Ok (ranges, markers, c), n) =>
              read_heads strict files (mkHeads ranges markers (hd_skipped h) (hd_cursors h ++ [c])) n
          | (Err ex, _) => throw ex
          end
      end
  end.

(** Phase B: every cursor is loaded, then the runs are merged. *)
Definition merge_runs (h : Heads) : io Noted Merged :=
  cursors ← load_all note (fun _ => true) kUnsortedBuild (hd_cursors h);
  let heap := filter (fun c => has_cur c = true) cursors in
  merge_sorted (cursors_left heap) heap (mkMerged [] ∅ (hd_ranges h) []).

Definition recovery_build_sorted (strict : bool) (files : list RecoveredFile) : io Disk RecoveryResult :=
  let stats0 := list_to_map ((fun f => (rf_file_id f, initial_stats (rf_total_bytes f))) <$> files) in
  '(h, n) ← read_heads strict files (mkHeads [] [] false []) (mkNoted 0 stats0);
  match merge_runs h n with
  | (Ok m, n) =>
      mret (mkRecoveryResult (mg_out m) (mg_tombstones m) (mg_ranges m) (no_max_seq n) (no_stats n)
              (mg_needed m) (hd_skipped h) (hd_markers h))
  | (Err ex, _) => throw ex
  end.

(** ** recovery_load_ranged *)

(** Files go to workers round-robin. *)
Definition worker_files (W : nat) (files : list RecoveredFile) : list (list RecoveredFile) :=
  (fun w => omap (fun p => if (p.1 mod W =? w)%nat then Some p.2 else None) (imap pair files)) <$> seq 0 W.

(** Phase 3: the union of the parts' metadata. *)
Record Union : Type := mkUnion {
  un_tombstones : gmap bytes PointTombstone;
  un_ranges : list RangeTombstone;
  un_needed : list Z;
  un_stats : gmap Z FileStats;
  un_markers : list ChangeMarker;
  un_max_seq : Z;
  un_skipped : bool
}.

Definition union_tombstones (ts part : gmap bytes PointTombstone) : gmap bytes PointTombstone :=
  union_with (fun existing tomb => Some (if pt_seq existing <? pt_seq tomb then tomb else existing)) ts
    ((fun tomb => if 0 <? pt_seq tomb then tomb else PointTombstone_zero) <$> part).

Definition union_part (u : Union) (part : RecoveryResult) : Union :=
  mkUnion (union_tombstones (un_tombstones u) (rr_tombstones part))
    (un_ranges u ++ rr_range_tombstones part)
    (un_needed u ++ rr_needed part)
    (un_stats u ∪ rr_file_stats part)
    (un_markers u ++ rr_markers part)
    (Z.max (un_max_seq u) (rr_max_seq part))
    (un_skipped u || rr_skipped part).

Definition union_parts (parts : list RecoveryResult) : Union :=
  foldl union_part (mkUnion ∅ [] [] ∅ [] 0 false) parts.

(** [R] parts cut at evenly spaced samples, without repeats. *)
Fixpoint unique_keys (l : list bytes) : list bytes :=
  match l with
  | x :: ((y :: _) as l') => if bool_decide (x = y) then unique_keys l' else x :: unique_keys l'
  | _ => l
  end.

Definition kOversample : nat := 8.

Definition range_splitters (sample_separators : list (bytes * KeyDirEntry) -> nat -> list bytes) (R : nat)
    (parts : list RecoveryResult) : list bytes :=
  if (R <=? 1)%nat then []
  else
    let pool := merge_sort key_le
                  (concat ((fun part => sample_separators (rr_key_dir part) (R * kOversample)%nat) <$> parts)) in
    unique_keys (omap (fun r => pool !! (r * length pool / R)%nat) (seq 1 (R - 1))).

(** The bounds of range [r]: the first has no lower one, the last no upper. *)
Definition range_lo (splitters : list bytes) (r : nat) : bytes :=
  match r with O => [] | S r' => default [] (splitters !! r') end.
Definition range_hi (splitters : list bytes) (r : nat) : option bytes := splitters !! r.

Definition below (hi : option bytes) (k : bytes) : bool :=
  match hi with None => true | Some h => key_ltb k h end.

Definition above (lo k : bytes) : bool := bool_decide (lo = []) || key_ltb lo k.

(** The range tombstones that reach into the slice, with their indexes. *)
Definition reaching (lo : bytes) (hi : option bytes) (ranges : list RangeTombstone) : list (nat * RangeTombstone) :=
  filter (fun p => below hi (rt_start p.2) && above lo (rt_end p.2) = true) (imap pair ranges).

Record RangeOut : Type := mkRangeOut {
  ro_run : list (bytes * KeyDirEntry);
  ro_live : gmap Z Z;
  ro_needed : list Z;
  ro_needed_ranges : list nat           (* indexes into range_tombstones *)
}.

(** The cursors of a range merge: what is left of each part's entries in the
    slice.  [best]: the least key they sit on, by a linear scan. *)
Definition least_key (cursors : list (list (bytes * KeyDirEntry))) : option bytes :=
  foldl (fun best c =>
           match c with
           | [] => best
           | (k, _) :: _ => match best with Some b => if key_ltb k b then Some k else best | None => Some k end
           end) None cursors.

(** Those on [key], the first of them first. *)
Definition entries_on (key : bytes) (cursors : list (list (bytes * KeyDirEntry))) : list KeyDirEntry :=
  omap (fun c => match c with (k, e) :: _ => if bool_decide (k = key) then Some e else None | [] => None end) cursors.

(** [++cursors[i].it] for the matches. *)
Definition advance_on (key : bytes) (cursors : list (list (bytes * KeyDirEntry))) : list (list (bytes * KeyDirEntry)) :=
  (fun c => match c with (k, _) :: c' => if bool_decide (k = key) then c' else c | [] => c end) <$> cursors.

Fixpoint newest_entry (winner : KeyDirEntry) (es : list KeyDirEntry) : result KeyDirEntry :=
  match es with
  | [] => Ok winner
  | e :: es => newer ← kde_newer e winner; newest_entry (if newer : bool then e else winner) es
  end.

(** [while (tomb != end && tomb->first < key) ++tomb]. *)
Fixpoint skip_tombs (key : bytes) (tombs : list (bytes * PointTombstone)) : list (bytes * PointTombstone) :=
  match tombs with
  | (k, t) :: tombs' => if key_ltb k key then skip_tombs key tombs' else tombs
  | [] => []
  end.

Definition tomb_on (key : bytes) (tombs : list (bytes * PointTombstone)) : option PointTombstone :=
  match tombs with
  | (k, t) :: _ => if bool_decide (k = key) then Some t else None
  | [] => None
  end.

(** One key of a range merge. *)
Definition range_key (rts : list (nat * RangeTombstone)) (key : bytes) (on_key : option PointTombstone)
    (matches : list KeyDirEntry) (winner : KeyDirEntry) (o : RangeOut) : result RangeOut :=
  let needed := concat ((fun e => match on_key with
                                  | Some t => if KeyDirEntry.sequence e <? pt_seq t then [pt_seq t] else []
                                  | None => []
                                  end) <$> matches) in
  let needed_ranges :=
    concat ((fun e => fst <$> filter (fun p => (KeyDirEntry.sequence e <? rt_seq p.2)
                                               && negb (KeyDirEntry.file_id e =? rt_file_id p.2)
                                               && rt_covers key p.2 = true) rts) <$> matches) in
  let dropped :=
    match on_key with Some t => KeyDirEntry.sequence winner <? pt_seq t | None => false end
    || range_suppresses rts.*2 key (KeyDirEntry.sequence winner) in
  '(run, live) ← (if dropped then Ok (ro_run o, ro_live o)
                  else
                    run ← bulk_append key winner (ro_run o);
                    let fid := KeyDirEntry.file_id winner in
                    Ok (run, <[fid := u64_add (default 0 (ro_live o !! fid))
                                        (entry_size (size key) (KeyDirEntry.value_size winner))]> (ro_live o)));
  Ok (mkRangeOut run live (ro_needed o ++ needed) (ro_needed_ranges o ++ needed_ranges)).

Fixpoint range_merge (fuel : nat) (rts : list (nat * RangeTombstone))
    (cursors : list (list (bytes * KeyDirEntry))) (tombs : list (bytes * PointTombstone)) (o : RangeOut)
    : result RangeOut :=
  match fuel, least_key cursors with
  | S fuel', Some key =>
      match entries_on key cursors with
      | best :: others =>
          winner ← newest_entry best others;
          let tombs := skip_tombs key tombs in
          o ← range_key rts key (tomb_on key tombs) (best :: others) winner o;
          range_merge fuel' rts (advance_on key cursors) tombs o
      | [] => Ok o
      end
  | _, _ => Ok o
  end.

(** [std::map] iterates in key order. *)
Definition tomb_le (a b : bytes * PointTombstone) : Prop := key_le a.1 b.1.
#[export] Instance tomb_le_dec : RelDecision tomb_le.
Proof. intros a b. unfold tomb_le. apply _. Defined.

Definition sorted_tombs (ts : gmap bytes PointTombstone) : list (bytes * PointTombstone) :=
  merge_sort tomb_le (map_to_list ts).

(** The slice of a part: from [lower_bound(lo)] up to [hi]. *)
Definition part_slice (lo : bytes) (hi : option bytes) (part : RecoveryResult) : list (bytes * KeyDirEntry) :=
  let from := filter (fun p => key_le lo p.1) (rr_key_dir part) in
  match hi with Some h => until h from | None => from end.

(** Phase 4 for one range. *)
Definition merge_range (parts : list RecoveryResult) (u : Union) (splitters : list bytes) (r : nat) : result RangeOut :=
  let lo := range_lo splitters r in
  let hi := range_hi splitters r in
  let cursors := part_slice lo hi <$> parts in
  range_merge (sum_list (length <$> cursors)) (reaching lo hi (un_ranges u)) cursors
    (filter (fun p => key_le lo p.1) (sorted_tombs (un_tombstones u))) (mkRangeOut [] ∅ [] []).

(** The first exception in index order, or every value. *)
Fixpoint all_ok {A} (rs : list (result A)) : result (list A) :=
  match rs with
  | [] => Ok []
  | r :: rs => a ← r; l ← all_ok rs; Ok (a :: l)
  end.

Definition add_live (acc live : gmap Z Z) : gmap Z Z :=
  union_with (fun a b => Some (u64_add a b)) acc live.

Definition set_live (live : gmap Z Z) (fid : Z) (fs : FileStats) : FileStats :=
  mkFileStats (default 0 (live !! fid)) (total_bytes fs) (min_sequence fs) (max_sequence fs)
    (tombstone_bytes fs) (marker_bytes fs) (change_marker_bytes fs).

(** [range_tombstones[idx].needed = true]. *)
Definition mark_indexes (idxs : list nat) (ranges : list RangeTombstone) : list RangeTombstone :=
  foldl (fun rs i => alter need_range i rs) ranges idxs.

Definition with_recovered (s : EngineState) (kd : KeyDirTree) (next : Z) (stats : gmap Z FileStats)
    (markers : option (list ChangeMarker)) : EngineState :=
  mkEngineState kd (files s) stats (active_file_id s) (next_file_id s) next (durable_seq s)
    (sync_requested_seq s) (mode s) (degraded s) (degraded_reason s) (closed s) markers.

(** Phase 5. *)
Definition finish_ranged (s : EngineState) (u : Union) (outs : list RangeOut) : EngineState * NeededTombstones :=
  let live := foldl add_live ∅ (ro_live <$> outs) in
  let needed := un_needed u ++ concat (ro_needed <$> outs) in
  let ranges := mark_indexes (concat (ro_needed_ranges <$> outs)) (un_ranges u) in
  (with_recovered s (list_to_map (concat (ro_run <$> outs))) (u64_add (un_max_seq u) 1)
     (map_imap (fun fid fs => Some (set_live live fid fs)) (un_stats u)) (sorted_markers (un_markers u)),
   recovery_needed_tombstones needed ranges (un_max_seq u) (un_skipped u)).

Definition recovery_load_ranged (sample_separators : list (bytes * KeyDirEntry) -> nat -> list bytes)
    (s : EngineState) (files : list RecoveredFile) (recovery_threads : nat) (strict : bool)
    : io Disk (EngineState * NeededTombstones) :=
  match files with
  | [] => mret (s, NeededTombstones_none)
  | _ =>
      let W := (length files `min` recovery_threads)%nat in
      parts ← parallel_for (recovery_build_sorted strict <$> worker_files W files);
      let u := union_parts parts in
      let splitters := range_splitters sample_separators W parts in
      outs ← lift (all_ok (merge_range parts u splitters <$> seq 0 (S (length splitters))));
      mret (finish_ranged s u outs)
  end.

(** ** recovery_load_streams *)

Definition kFenceStep : nat := 4096.

(** A key and the position of its first entry. *)
Record Fence : Type := mkFence { fe_key : bytes; fe_at : Position }.

Record FileRun : Type := mkFileRun {
  fr_hint : option HintScan;          (* empty: skipped *)
  fr_data_start : Position;
  fr_fences : list Fence;
  fr_ranges : list RangeTombstone;
  fr_stats : FileStats;
  fr_max_seq : Z;
  fr_markers : list ChangeMarker
}.

(** Phase 1, the loop over one file's entries.  [prev]: the last key seen. *)
Fixpoint scan_run (file_id : Z) (err : option exn) (end_ : Position) (es : list (Position * HintEntry.HintEntry))
    (in_data : bool) (next_fence : Position) (prev : option bytes) (run : FileRun) : result FileRun :=
  match es with
  | [] =>
      match err with
      | Some ex => Err ex
      | None => Ok (if in_data then run
                    else mkFileRun (fr_hint run) end_ (fr_fences run) (fr_ranges run) (fr_stats run)
                           (fr_max_seq run) (fr_markers run))
      end
  | (at_, he) :: es =>
      let run := mkFileRun (fr_hint run) (fr_data_start run) (fr_fences run) (fr_ranges run)
                   (note_stats (fr_stats run) he) (Z.max (fr_max_seq run) (HintEntry.sequence he)) (fr_markers run) in
      match HintEntry.entry_type he with
      | BulkBegin | BulkEnd => scan_run file_id err end_ es in_data next_fence prev run
      | EChangeMarker =>
          scan_run file_id err end_ es in_data next_fence prev
            (mkFileRun (fr_hint run) (fr_data_start run) (fr_fences run) (fr_ranges run) (fr_stats run) (fr_max_seq run)
               (fr_markers run ++ [mkChangeMarker (HintEntry.sequence he) (HintEntry.marker_id he)]))
      | RangeDel =>
          if in_data then Err (RuntimeError "bytecask: range tombstone inside a sorted hint run")
          else
            scan_run file_id err end_ es in_data next_fence prev
              (mkFileRun (fr_hint run) (fr_data_start run) (fr_fences run)
                 (fr_ranges run ++ [mkRangeTombstone (HintEntry.key he) (HintEntry.end_key he) (HintEntry.sequence he) file_id false])
                 (fr_stats run) (fr_max_seq run) (fr_markers run))
      | _ =>
          let run := if in_data then run
                     else mkFileRun (fr_hint run) at_ (fr_fences run) (fr_ranges run) (fr_stats run)
                            (fr_max_seq run) (fr_markers run) in
          if bool_decide (prev = Some (HintEntry.key he)) then scan_run file_id err end_ es true next_fence prev run
          else
            let '(run, next_fence) :=
              if position_ltb at_ next_fence then (run, next_fence)
              else (mkFileRun (fr_hint run) (fr_data_start run) (fr_fences run ++ [mkFence (HintEntry.key he) at_])
                      (fr_ranges run) (fr_stats run) (fr_max_seq run) (fr_markers run),
                    mkPosition (frame at_) ((offset at_ / kFenceStep + 1) * kFenceStep)) in
            scan_run file_id err end_ es true next_fence (Some (HintEntry.key he)) run
      end
  end.

Definition scan_file (strict : bool) (f : RecoveredFile) : io Disk FileRun :=
  hint ← open_hint_or_skip (rf_data_file f) (rf_hint_path f) strict;
  let run := mkFileRun hint (mkPosition 0 0) [] [] (initial_stats (rf_total_bytes f)) 0 [] in
  match hint with
  | None => mret run
  | Some sc => lift (scan_run (rf_file_id f) (hs_error sc) (hs_end sc) (hs_entries sc) false (mkPosition 0 0) None run)
  end.

(** A worker scans its files one after another, up to the first that throws;
    [runs[f]] of a file is set by the worker that scans it. *)
Definition FileRun_empty : FileRun := mkFileRun None (mkPosition 0 0) [] [] FileStats_zero 0 [].

Fixpoint scan_files (strict : bool) (files : list (nat * RecoveredFile)) : io Disk (list (nat * FileRun)) :=
  match files with
  | [] => mret []
  | (i, f) :: files =>
      run ← scan_file strict f;
      l ← scan_files strict files;
      mret ((i, run) :: l)
  end.

Definition scan_worker (strict : bool) (files : list RecoveredFile) (W w : nat) : io Disk (list (nat * FileRun)) :=
  scan_files strict (filter (fun p => (p.1 mod W)%nat = w) (imap pair files)).

Definition file_runs (n : nat) (scanned : list (list (nat * FileRun))) : list FileRun :=
  (fun f => default FileRun_empty ((list_to_map (concat scanned) : gmap nat FileRun) !! f)) <$> seq 0 n.

(** Phase 2: the pooled fences cut into [W] parts; a repeat adds no range. *)
Definition stream_splitters (W : nat) (runs : list FileRun) : list bytes :=
  if (W <=? 1)%nat then []
  else
    let pool := merge_sort key_le (concat ((fun run => fe_key <$> fr_fences run) <$> runs)) in
    foldl (fun splitters r =>
             match pool !! (r * length pool / W)%nat with
             | None => splitters
             | Some k =>
                 match last splitters with
                 | Some back => if key_ltb back k then splitters ++ [k] else splitters
                 | None => [k]
                 end
             end) [] (seq 1 (W - 1)).

(** [std::prev(lower_bound(fences, lo))]: the last fence below [lo]. *)
Fixpoint fence_below (lo : bytes) (fences : list Fence) (start : Position) : Position :=
  match fences with
  | fe :: fences => if key_ltb (fe_key fe) lo then fence_below lo fences (fe_at fe) else start
  | [] => start
  end.

(** [scanner.seek(p)]. *)
Fixpoint seek (p : Position) (es : list (Position * HintEntry.HintEntry)) : list (Position * HintEntry.HintEntry) :=
  match es with
  | (q, he) :: es' => if position_ltb q p then seek p es' else es
  | [] => []
  end.

(** Steps over the keys below [lo], up to the first that is not. *)
Fixpoint skip_below (lo : bytes) (err : option exn) (es : list HintEntry.HintEntry)
    : result (option HintRecord * list HintEntry.HintEntry) :=
  match es with
  | [] => match err with Some ex => Err ex | None => Ok (None, []) end
  | he :: es =>
      match HintEntry.entry_type he with
      | RangeDel => Err (RuntimeError "bytecask: range tombstone inside a sorted hint run")
      | Put | Delete => if key_ltb (HintEntry.key he) lo then skip_below lo err es else Ok (Some (assign he), es)
      | _ => skip_below lo err es
      end
  end.

Definition kUnsorted : string :=
  "bytecask: hint file is not sorted — recovery needs the sorted hint files flush_hints_for writes".

(** [load] here notes nothing. *)
Definition stream_load (hi : option bytes) (c : Cursor) : result Cursor :=
  (load (S := unit) (fun _ _ s => s) (below hi) kUnsorted c ()).1.

Fixpoint stream_load_all (hi : option bytes) (cs : list Cursor) : result (list Cursor) :=
  match cs with
  | [] => Ok []
  | c :: cs => c ← stream_load hi c; cs ← stream_load_all hi cs; Ok (c :: cs)
  end.

(** The cursor of one file in a range, parked. *)
Definition open_cursor (lo : bytes) (hi : option bytes) (file_id : Z) (sc : HintScan) (run : FileRun) : result Cursor :=
  let start := if bool_decide (lo = []) then fr_data_start run
               else fence_below lo (fr_fences run) (fr_data_start run) in
  let es := (seek start (hs_entries sc)).*2 in
  '(lookahead, es) ← (if bool_decide (lo = []) then Ok (None, es) else skip_below lo (hs_error sc) es);
  stream_load hi (mkCursor es (hs_error sc) file_id None lookahead).

Fixpoint open_cursors (lo : bytes) (hi : option bytes) (runs : list (Z * FileRun)) : result (list Cursor) :=
  match runs with
  | [] => Ok []
  | (file_id, run) :: runs =>
      match fr_hint run with
      | None => open_cursors lo hi runs
      | Some sc =>
          c ← open_cursor lo hi file_id sc run;
          cs ← open_cursors lo hi runs;
          Ok (if has_cur c then c :: cs else cs)
      end
  end.

Record StreamOut : Type := mkStreamOut {
  so_run : list (bytes * KeyDirEntry);
  so_live : gmap Z Z;
  so_needed : list Z;
  so_ranges : list RangeTombstone
}.

(** The newest entry of a key, as a record and as a packed entry. *)
Fixpoint stream_newest (winner : HintRecord) (entry : KeyDirEntry) (same : list (HintRecord * Z))
    : result (HintRecord * KeyDirEntry) :=
  match same with
  | [] => Ok (winner, entry)
  | (r, file) :: same =>
      e ← record_entry r file;
      newer ← kde_newer e entry;
      if newer : bool then stream_newest r e same else stream_newest winner entry same
  end.

Definition stream_key (rts : list RangeTombstone) (key : bytes) (best : HintRecord * Z)
    (same : list (HintRecord * Z)) (o : StreamOut) : result StreamOut :=
  e ← record_entry best.1 best.2;
  '(winner, entry) ← stream_newest best.1 e same;
  let '(ranges, needed) := recovery_mark_needed key (best :: same) (so_ranges o) (so_needed o) in
  if bool_decide (hr_type winner = Put) && negb (range_suppresses rts key (KeyDirEntry.sequence entry)) then
    run ← blind_append key entry (so_run o);
    let fid := KeyDirEntry.file_id entry in
    Ok (mkStreamOut run
          (<[fid := u64_add (default 0 (so_live o !! fid)) (entry_size (size key) (KeyDirEntry.value_size entry))]> (so_live o))
          needed ranges)
  else Ok (mkStreamOut (so_run o) (so_live o) needed ranges).

Fixpoint stream_merge (fuel : nat) (hi : option bytes) (rts : list RangeTombstone) (heap : list Cursor) (o : StreamOut)
    : result StreamOut :=
  match fuel, heap with
  | S fuel', c :: heap' =>
      let '(best, rest) := pop_min c heap' in
      let key := cu_key best in
      let '(same, rest) := pop_same (length rest) key rest in
      o ← match cu_cur best with
          | Some r => stream_key rts key (r, cu_file_id best) (cursor_matches same) o
          | None => Ok o
          end;
      loaded ← stream_load_all hi (best :: same);
      stream_merge fuel' hi rts (rest ++ filter (fun c => has_cur c = true) loaded) o
  | _, _ => Ok o
  end.

(** Phase 3 for one range. *)
Definition stream_range (runs : list (Z * FileRun)) (ranges : list RangeTombstone) (splitters : list bytes) (r : nat)
    : result StreamOut :=
  let lo := range_lo splitters r in
  let hi := range_hi splitters r in
  let rts := filter (fun rt => below hi (rt_start rt) && above lo (rt_end rt) = true) ranges in
  cursors ← open_cursors lo hi runs;
  stream_merge (cursors_left cursors) hi rts cursors (mkStreamOut [] ∅ [] rts).

(** Phase 4. *)
Definition finish_streams (s : EngineState) (runs : list (Z * FileRun)) (outs : list StreamOut)
    : EngineState * NeededTombstones :=
  let max_seq := foldl (fun m run => Z.max m (fr_max_seq run)) 0 runs.*2 in
  let live := foldl add_live ∅ (so_live <$> outs) in
  let needed := concat ((fun o => so_needed o ++ (rt_seq <$> filter (fun rt => rt_needed rt = true) (so_ranges o))) <$> outs) in
  let skipped := existsb (fun run => negb (bool_decide (is_Some (fr_hint run)))) runs.*2 in
  (with_recovered s (list_to_map (concat (so_run <$> outs))) (u64_add max_seq 1)
     (foldl (fun m p => <[p.1 := set_live live p.1 (fr_stats p.2)]> m) ∅ runs)
     (sorted_markers (concat (fr_markers <$> runs.*2))),
   recovery_needed_tombstones needed [] max_seq skipped).

Definition recovery_load_streams (s : EngineState) (files : list RecoveredFile) (recovery_threads : nat) (strict : bool)
    : io Disk (EngineState * NeededTombstones) :=
  match files with
  | [] => mret (s, NeededTombstones_none)
  | _ =>
      let W := (length files `min` recovery_threads)%nat in
      scanned ← parallel_for (scan_worker strict files W <$> seq 0 W);
      let runs := zip (rf_file_id <$> files) (file_runs (length files) scanned) in
      let ranges := concat (fr_ranges <$> runs.*2) in
      let splitters := stream_splitters W runs.*2 in
      outs ← lift (all_ok (stream_range runs ranges splitters <$> seq 0 (S (length splitters))));
      mret (finish_streams s runs outs)
  end.

End loaders.
