(* ===== verification/Merging.v ===== *)
(** * Merging sorted runs

    What the cursors and the heap of [Recovery] do to sorted runs of entries,
    whatever a pass notes and wherever it stops: a cursor gives the newest
    entry of each key of its run in key order, and a merge meets every key of
    the runs once, in key order, with the newest entry each run has for it. *)

From S2P Require Import Prelude Codec HintFile KeyDir DataFile EngineState Hints Recovery.
Import Serialization Types Stats Dir.

Lemma StronglySorted_sublist {A} (R : relation A) (l l' : list A) :
  StronglySorted R l' -> l `sublist_of` l' -> StronglySorted R l.
Proof.
  intros Hs Hl. induction Hl as [|x l l' Hl IH|x l l' Hl IH]; [constructor|..].
  - apply StronglySorted_inv in Hs as [Hs Hx]. constructor; [by apply IH|].
    rewrite Forall_forall in *. intros y Hy. apply Hx. by eapply elem_of_sublist.
  - apply StronglySorted_inv in Hs as [Hs _]. by apply IH.
Qed.

Lemma list_elem_of_concat {A} (x : A) (ls : list (list A)) : x ∈ concat ls <-> exists l, x ∈ l /\ l ∈ ls.
Proof. rewrite list_elem_of_In, in_concat. setoid_rewrite list_elem_of_In. naive_solver. Qed.

(** ** Runs *)

Definition run_sorted (l : list HintRecord) : Prop := StronglySorted key_le (hr_key <$> l).

(** The newest record of a key in a run: the highest sequence, the first of
    equals. *)
Definition newer_of (k : bytes) (best : option HintRecord) (r : HintRecord) : option HintRecord :=
  if decide (hr_key r = k) then
    match best with
    | Some b => if hr_sequence b <? hr_sequence r then Some r else best
    | None => Some r
    end
  else best.

Definition run_newest (k : bytes) (l : list HintRecord) : option HintRecord := foldl (newer_of k) None l.

Lemma newer_of_foldl k l best :
  match foldl (newer_of k) best l with
  | Some r => (Some r = best \/ (r ∈ l /\ hr_key r = k))
              /\ (forall b, best = Some b -> hr_sequence b <= hr_sequence r)
              /\ forall x, x ∈ l -> hr_key x = k -> hr_sequence x <= hr_sequence r
  | None => best = None /\ forall x, x ∈ l -> hr_key x <> k
  end.
Proof.
  revert best. induction l as [|x l IH]; intros best; cbn [foldl].
  { destruct best; [|set_solver]. split_and!; [by left| |set_solver]. intros b [= ->]. lia. }
  specialize (IH (newer_of k best x)).
  assert (Hstep : match newer_of k best x with
    | Some r => (Some r = best \/ (r = x /\ hr_key r = k)) /\ (forall b, best = Some b -> hr_sequence b <= hr_sequence r)
                /\ (hr_key x = k -> hr_sequence x <= hr_sequence r)
    | None => best = None /\ hr_key x <> k end).
  { unfold newer_of. destruct (decide (hr_key x = k)) as [Hk|Hk]; destruct best as [b|]; try (naive_solver lia).
    destruct (Z.ltb_spec (hr_sequence b) (hr_sequence x)); split_and!; auto; intros; simplify_eq; lia. }
  destruct (foldl _ _ l) as [r|]; destruct (newer_of k best x) as [y|]; try naive_solver.
  - destruct IH as (I1 & I2 & I3), Hstep as (S1 & S2 & S3). specialize (I2 y eq_refl). split_and!.
    + destruct I1 as [[= ->]|[I1 I1']]; [|right; set_solver]. destruct S1 as [S1|[-> S1]]; [by left|right; set_solver].
    + intros b Hb. specialize (S2 b Hb). lia.
    + intros z Hz Hk. apply elem_of_cons in Hz as [->|Hz]; [specialize (S3 Hk); lia|by apply I3].
  - destruct IH as (I1 & I2 & I3), Hstep as [-> S2]. split_and!; [right|done|].
    + destruct I1 as [?|[I1 I1']]; [done|set_solver].
    + intros z Hz Hk. apply elem_of_cons in Hz as [->|Hz]; [done|by apply I3].
  - destruct IH as [_ IH], Hstep as [-> S2]. split; [done|]. intros z Hz. apply elem_of_cons in Hz as [->|Hz]; auto.
Qed.

Lemma run_newest_some k l r :
  run_newest k l = Some r ->
  r ∈ l /\ hr_key r = k /\ forall x, x ∈ l -> hr_key x = k -> hr_sequence x <= hr_sequence r.
Proof.
  intros E. pose proof (newer_of_foldl k l None) as Hf. unfold run_newest in E. rewrite E in Hf. naive_solver.
Qed.

Lemma run_newest_none k l : run_newest k l = None <-> forall x, x ∈ l -> hr_key x <> k.
Proof.
  pose proof (newer_of_foldl k l None) as Hf. unfold run_newest. destruct (foldl _ _ _); naive_solver.
Qed.

Lemma newer_of_skip k l best : (forall x, x ∈ l -> hr_key x <> k) -> foldl (newer_of k) best l = best.
Proof.
  revert best. induction l as [|x l IH]; intros best Hl; [done|]. cbn [foldl].
  unfold newer_of at 2. rewrite decide_False by (apply Hl; left). apply IH. set_solver.
Qed.

Lemma run_newest_app_l k l l' : (forall x, x ∈ l' -> hr_key x <> k) -> run_newest k (l ++ l') = run_newest k l.
Proof. intros. unfold run_newest. rewrite foldl_app. by apply newer_of_skip. Qed.

Lemma run_newest_app_r k l l' : (forall x, x ∈ l -> hr_key x <> k) -> run_newest k (l ++ l') = run_newest k l'.
Proof. intros. unfold run_newest. rewrite foldl_app. by rewrite (newer_of_skip k l). Qed.

#[global] Arguments run_newest : simpl never.

(** ** What a cursor does to its run *)

(** The records of a data run. *)
Definition data_run (es : list HintEntry.HintEntry) : Prop :=
  Forall (fun h => HintEntry.entry_type h = Put \/ HintEntry.entry_type h = Delete) es.

(** A cursor over a sorted run of data entries, and what it has not given. *)
Definition to_come (c : Cursor) : list HintRecord := option_list (cu_lookahead c) ++ (assign <$> cu_scanner c).

Record cursor_ok (c : Cursor) : Prop := {
  co_data : data_run (cu_scanner c);
  co_error : cu_error c = None;
  co_sorted : run_sorted (to_come c)
}.

Section cursor.
Context {St : Type} (note : Z -> HintEntry.HintEntry -> St -> St) (hi : option bytes) (unsorted : string).

Definition note_all (f : Z) (es : list HintEntry.HintEntry) (s : St) : St := foldl (fun s he => note f he s) s es.

Lemma note_all_app f a b s : note_all f (a ++ b) s = note_all f b (note_all f a s).
Proof. apply foldl_app. Qed.

Lemma next_data_cons f he es s :
  (HintEntry.entry_type he = Put \/ HintEntry.entry_type he = Delete) ->
  next_data note f None (he :: es) s = (Ok (Some he, es), note f he s).
Proof. intros Ht. cbn [next_data]. unfold modify, mbind, io_bind. by destruct Ht as [-> | ->]. Qed.

(** The records of the key absorbed, the newest kept. *)
Lemma collapse_spec fuel c cur s :
  data_run (cu_scanner c) -> cu_error c = None ->
  StronglySorted key_le (hr_key cur :: (hr_key ∘ assign <$> cu_scanner c)) -> (length (cu_scanner c) < fuel)%nat ->
  exists same consumed r c',
    collapse note unsorted fuel c cur s = (Ok c', note_all (cu_file_id c) consumed s)
    /\ cu_scanner c = consumed ++ cu_scanner c' /\ cu_file_id c' = cu_file_id c /\ cursor_ok c'
    /\ (assign <$> cu_scanner c) = same ++ to_come c' /\ Forall (fun x => hr_key x = hr_key cur) same
    /\ cu_cur c' = Some r /\ foldl (newer_of (hr_key cur)) (Some cur) same = Some r
    /\ Forall (fun x => key_lt (hr_key cur) (hr_key x)) (to_come c').
Proof.
  destruct c as [es err f cc lk]. cbn [cu_scanner cu_error cu_file_id]. intros Hd -> Hs Hf.
  revert es cc lk cur s Hd Hs Hf. induction fuel as [|fuel IH]; intros es cc lk cur s Hd Hs Hf; [lia|].
  cbn [collapse cu_file_id cu_error cu_scanner]. unfold mbind at 1, io_bind at 1.
  destruct es as [|he es].
  { exists [], [], cur, (mkCursor [] None f (Some cur) None). cbn.
    split_and!; try done. split; cbn; [constructor|done|constructor]. }
  apply Forall_cons in Hd as [Ht Hd]. rewrite next_data_cons by done.
  apply StronglySorted_inv in Hs as [Hs Hall]. cbn [fmap list_fmap compose] in Hall, Hs.
  pose proof (Forall_inv Hall) as Hle. cbn in Hle. apply key_le_lteq in Hle.
  destruct (key_compare (HintEntry.key he) (hr_key cur)) eqn:Ec.
  - apply key_compare_eq in Ec.
    set (cur' := if hr_sequence cur <? HintEntry.sequence he then assign he else cur).
    assert (Hk' : hr_key cur' = hr_key cur) by (unfold cur'; by destruct (_ <? _)).
    destruct (IH es (Some cur) None cur' (note f he s)) as (same & cons & r & c' & E & E1 & E2 & E3 & E4 & E5 & E6 & E7 & E8).
    + done.
    + rewrite Hk', <-Ec. exact Hs.
    + cbn in Hf. lia.
    + exists (assign he :: same), (he :: cons), r, c'. cbn [length] in *.
      rewrite Hk' in *. split_and!; try done.
      * cbn [app]. by rewrite E1.
      * cbn [fmap list_fmap app]. by rewrite E4.
      * by constructor.
      * cbn [foldl]. rewrite <-E7. f_equal. unfold newer_of. rewrite decide_True by done. unfold cur'. by destruct (_ <? _).
  - exfalso. destruct Hle as [Hle|Hle].
    + by apply (key_lt_irrefl (hr_key cur)), (key_lt_trans _ (HintEntry.key he)).
    + rewrite Hle in Ec. by rewrite key_compare_refl in Ec.
  - exists [], [he], cur, (mkCursor es None f (Some cur) (Some (assign he))). split_and!; try done.
    + split; cbn [cu_scanner cu_error]; [done..|].
      change (StronglySorted key_le (hr_key (assign he) :: (hr_key <$> (assign <$> es)))).
      rewrite <-list_fmap_compose. exact Hs.
    + change (Forall (fun x => key_lt (hr_key cur) (hr_key x)) (assign he :: (assign <$> es))).
      assert (Hlt : key_lt (hr_key cur) (HintEntry.key he)).
      { unfold key_lt. rewrite key_compare_opp, Ec. done. }
      constructor; [done|]. apply StronglySorted_inv in Hs as [_ Hs]. rewrite Forall_fmap in Hs.
      rewrite Forall_fmap. eapply Forall_impl; [exact Hs|]. cbn. intros x Hx.
      apply key_le_lteq in Hx as [Hx|<-]; [by eapply key_lt_trans|done].
Qed.

(** The records below the bound. *)
Definition in_slice (l : list HintRecord) : list HintRecord := filter (fun x => below hi (hr_key x) = true) l.

(** A cursor parked on the first key of [l], the rest of which is to come. *)
Record parked (c : Cursor) (l : list HintRecord) : Prop := {
  pk_ok : cursor_ok c;
  pk_cur : exists r same, cu_cur c = Some r /\ l = same ++ in_slice (to_come c)
    /\ Forall (fun x => hr_key x = hr_key r) same /\ run_newest (hr_key r) same = Some r
    /\ Forall (fun x => key_lt (hr_key r) (hr_key x)) (to_come c)
}.

Lemma below_le k k' : key_le k k' -> below hi k' = true -> below hi k = true.
Proof.
  unfold below. destruct hi as [h|]; [|done]. rewrite !key_ltb_spec, key_le_lteq.
  intros [Hk| ->] Hk'; [by eapply key_lt_trans|done].
Qed.

Lemma in_slice_same k l : below hi k = true -> Forall (fun x => hr_key x = k) l -> in_slice l = l.
Proof.
  intros Hk Hl. apply filter_all. rewrite Forall_forall in Hl. intros x Hx. by rewrite (Hl x Hx).
Qed.

Lemma in_slice_none r l : run_sorted (r :: l) -> below hi (hr_key r) = false -> in_slice (r :: l) = [].
Proof.
  unfold run_sorted. rewrite fmap_cons. intros [_ Hs]%StronglySorted_inv Hr. apply filter_all_not.
  rewrite Forall_fmap, Forall_forall in Hs.
  intros x Hx Hb. rewrite elem_of_cons in Hx. destruct Hx as [->|Hx]; [congruence|].
  specialize (Hs x Hx). rewrite (below_le _ _ Hs Hb) in Hr. done.
Qed.

(** From the first record on. *)
Lemma load_first es f cur s :
  data_run es -> run_sorted (cur :: (assign <$> es)) ->
  exists consumed c',
    (if negb (below hi (hr_key cur)) then mret (mkCursor es None f None None)
     else collapse note unsorted (S (length es)) (mkCursor es None f None None) cur) s
    = (Ok c', note_all f consumed s)
    /\ es = consumed ++ cu_scanner c' /\ cu_file_id c' = f
    /\ (length (to_come c') + length (option_list (cu_cur c')) <= S (length es))%nat
    /\ ((in_slice (cur :: (assign <$> es)) = [] /\ cu_cur c' = None /\ hi <> None)
        \/ parked c' (in_slice (cur :: (assign <$> es)))).
Proof.
  intros Hd Hs. destruct (below hi (hr_key cur)) eqn:Hb; cbn [negb].
  - destruct (collapse_spec (S (length es)) (mkCursor es None f None None) cur s)
      as (same & cons & r & c' & E & E1 & E2 & E3 & E4 & E5 & E6 & E7 & E8); try done.
    { unfold run_sorted in Hs. rewrite fmap_cons in Hs. cbn [cu_scanner]. rewrite list_fmap_compose. exact Hs. }
    { cbn. lia. }
    cbn [cu_scanner cu_file_id] in *. exists cons, c'. split_and!; try done.
    { rewrite E6. apply (f_equal length) in E4. rewrite length_app, length_fmap in E4. cbn. lia. }
    right. split; [done|].
    assert (Hr : run_newest (hr_key cur) (cur :: same) = Some r).
    { unfold run_newest. cbn [foldl]. unfold newer_of at 2. by rewrite decide_True. }
    destruct (run_newest_some _ _ _ Hr) as (_ & Hk & _).
    exists r, (cur :: same). rewrite Hk. split_and!; try done; [|by constructor].
    rewrite E4. change (cur :: same ++ to_come c') with ((cur :: same) ++ to_come c').
    unfold in_slice. rewrite filter_app. f_equal. apply (in_slice_same (hr_key cur)); [done|by constructor].
  - exists [], (mkCursor es None f None None). split_and!; try done.
    { unfold to_come. cbn. rewrite length_fmap. lia. }
    left. split_and!; [by apply in_slice_none|done|].
    intros ->. done.
Qed.

Lemma load_spec c s :
  cursor_ok c ->
  exists consumed c', load note (below hi) unsorted c s = (Ok c', note_all (cu_file_id c) consumed s)
    /\ cu_scanner c = consumed ++ cu_scanner c' /\ cu_file_id c' = cu_file_id c
    /\ (length (to_come c') + length (option_list (cu_cur c')) <= length (to_come c))%nat
    /\ ((in_slice (to_come c) = [] /\ cu_cur c' = None /\ (hi = None -> cu_scanner c' = []))
        \/ parked c' (in_slice (to_come c))).
Proof.
  destruct c as [es err f cc [r|]]; intros [Hd He Hs]; cbn [cu_scanner cu_error cu_file_id] in *; subst err;
    unfold load; cbn [cu_lookahead cu_scanner cu_error cu_file_id]; unfold mbind, io_bind, mret, io_ret.
  - change (to_come (mkCursor es None f cc (Some r))) with (r :: (assign <$> es)) in *.
    destruct (load_first es f r s Hd Hs) as (cons & c' & E & E1 & E2 & El & E3). exists cons, c'. split_and!; try done.
    { cbn. by rewrite length_fmap. }
    destruct E3 as [(E3 & E4 & E5)|E3]; [left; split_and!; try done|by right].
  - change (to_come (mkCursor es None f cc None)) with (assign <$> es) in *. destruct es as [|he es].
    + exists [], (mkCursor [] None f None None). split_and!; try done. left. by split_and!.
    + apply Forall_cons in Hd as [Ht Hd]. rewrite next_data_cons by done. cbn [fmap option_fmap option_map].
      destruct (load_first es f (assign he) (note f he s) Hd Hs) as (cons & c' & E & E1 & E2 & El & E3).
      exists (he :: cons), c'. split_and!; try done; [cbn; by rewrite <-E1|cbn; by rewrite length_fmap|].
      destruct E3 as [(E3 & E4 & E5)|E3]; [left; split_and!; try done|by right].
Qed.
End cursor.

(** ** The heap *)

Lemma pop_min_spec c heap m rest :
  pop_min c heap = (m, rest) -> m :: rest ≡ₚ c :: heap /\ forall d, d ∈ rest -> key_le (cu_key m) (cu_key d).
Proof.
  revert c m rest. induction heap as [|d heap IH]; intros c m rest; cbn [pop_min].
  { intros [= <- <-]. set_solver. }
  destruct (key_ltb (cu_key d) (cu_key c)) eqn:Ek.
  - destruct (pop_min d heap) as [m' rest'] eqn:E. intros [= <- <-]. destruct (IH d m' rest' E) as [Hp Hm].
    split.
    + by rewrite Permutation_swap, Hp.
    + intros x [->|Hx]%elem_of_cons; [|by apply Hm]. apply key_ltb_spec in Ek.
      assert (Hd : d ∈ m' :: rest') by (rewrite Hp; left).
      apply elem_of_cons in Hd as [->|Hd]; [apply key_le_lteq; by left|].
      etrans; [by apply Hm|apply key_le_lteq; by left].
  - destruct (pop_min c heap) as [m' rest'] eqn:E. intros [= <- <-]. destruct (IH c m' rest' E) as [Hp Hm].
    assert (Hcd : key_le (cu_key c) (cu_key d)) by (apply key_leb_spec; by rewrite key_leb_ltb, Ek).
    split.
    + rewrite Permutation_swap, Hp. by apply Permutation_swap.
    + intros x [->|Hx]%elem_of_cons; [|by apply Hm].
      assert (Hc : c ∈ m' :: rest') by (rewrite Hp; left).
      apply elem_of_cons in Hc as [->|Hc]; [done|]. etrans; [by apply Hm|done].
Qed.

Lemma pop_same_spec fuel key heap same rest :
  (length heap <= fuel)%nat -> (forall d, d ∈ heap -> key_le key (cu_key d)) ->
  pop_same fuel key heap = (same, rest) ->
  same ++ rest ≡ₚ heap /\ (forall d, d ∈ same -> cu_key d = key) /\ forall d, d ∈ rest -> key_lt key (cu_key d).
Proof.
  revert heap same rest. induction fuel as [|fuel IH]; intros heap same rest Hl Hk; cbn [pop_same].
  { destruct heap; [|cbn in Hl; lia]. intros [= <- <-]. set_solver. }
  destruct heap as [|c heap]; [intros [= <- <-]; set_solver|].
  destruct (pop_min c heap) as [m rest0] eqn:E. destruct (pop_min_spec _ _ _ _ E) as [Hp Hm].
  assert (Hin : m ∈ c :: heap) by (rewrite <-Hp; left).
  case_bool_decide as Em.
  - destruct (pop_same fuel key rest0) as [same' rest'] eqn:E'. intros [= <- <-].
    assert (Hlen : length rest0 = length heap) by (apply Permutation_length in Hp; cbn in Hp; lia).
    destruct (IH rest0 same' rest') as (I1 & I2 & I3); [cbn in Hl; lia| |done|].
    { intros d Hd. apply Hk. rewrite <-Hp. by right. }
    split_and!; [cbn; by rewrite I1|set_solver|done].
  - intros [= <- <-]. split_and!; [done|set_solver|]. intros d Hd.
    assert (Hlt : key_lt key (cu_key m)).
    { pose proof (Hk m Hin) as Hx. apply key_le_lteq in Hx as [?| ->]; done. }
    rewrite <-Hp in Hd. apply elem_of_cons in Hd as [->|Hd]; [done|].
    specialize (Hm d Hd). apply key_le_lteq in Hm as [?|<-]; [by eapply key_lt_trans|done].
Qed.

(** ** Traces

    The keys a merge meets, in order, with the newest record of each run. *)

Definition at_key (k : bytes) (ls : list (Z * list HintRecord)) : list (HintRecord * Z) :=
  omap (fun p => (fun r => (r, p.1)) <$> run_newest k p.2) ls.

Record trace_of (ls : list (Z * list HintRecord)) (tr : list (bytes * list (HintRecord * Z))) : Prop := {
  tr_sorted : StronglySorted key_lt tr.*1;
  tr_match : forall k ms, (k, ms) ∈ tr -> ms <> [] /\ ms ≡ₚ at_key k ls;
  tr_all : forall f l r, (f, l) ∈ ls -> r ∈ l -> hr_key r ∈ tr.*1
}.

Lemma elem_of_at_key k ls r f :
  (r, f) ∈ at_key k ls <-> exists l, (f, l) ∈ ls /\ run_newest k l = Some r.
Proof.
  unfold at_key. rewrite list_elem_of_omap. split.
  - intros ([f' l] & Hin & Hr). cbn in Hr. destruct (run_newest k l) as [r'|] eqn:E; [|done]. injection Hr as -> ->. eauto.
  - intros (l & Hin & Hr). exists (f, l). cbn. by rewrite Hr.
Qed.

#[export] Instance at_key_perm k : Proper ((≡ₚ) ==> (≡ₚ)) (at_key k).
Proof.
  intros a b Hab. unfold at_key. induction Hab as [|[f l] a b Hab IH|[f l] [f' l'] a|a b c Hab IH1 Hbc IH2]; cbn; [done|..].
  - destruct (run_newest k l); cbn; [by constructor|done].
  - destruct (run_newest k l), (run_newest k l'); cbn; try done. apply Permutation_swap.
  - by rewrite IH1.
Qed.

Lemma trace_of_perm ls ls' tr : ls ≡ₚ ls' -> trace_of ls tr -> trace_of ls' tr.
Proof.
  intros Hp [T1 T2 T3]. split; [done| |].
  - intros k ms Hk. destruct (T2 k ms Hk) as [? Hm]. split; [done|]. by rewrite Hm, Hp.
  - intros f l r Hl. apply (T3 f l). by rewrite Hp.
Qed.

Lemma trace_of_nil ls : (forall f l, (f, l) ∈ ls -> l = []) -> trace_of ls [].
Proof. intros Hl. split; [constructor|set_solver|]. intros f l r Hin Hr. rewrite (Hl f l Hin) in Hr. set_solver. Qed.

(** A key in front of a trace of what is left. *)
Lemma trace_of_cons k ms ls ls' tr :
  trace_of ls' tr -> ms <> [] -> ms ≡ₚ at_key k ls ->
  (forall f l r, (f, l) ∈ ls' -> r ∈ l -> key_lt k (hr_key r)) ->
  (forall k', k' <> k -> at_key k' ls ≡ₚ at_key k' ls') ->
  (forall f l r, (f, l) ∈ ls -> r ∈ l -> hr_key r = k \/ exists l', (f, l') ∈ ls' /\ r ∈ l') ->
  trace_of ls ((k, ms) :: tr).
Proof.
  intros [T1 T2 T3] Hne Hms Hlt Hsame Hkeep.
  assert (Hk : forall k' ms', (k', ms') ∈ tr -> key_lt k k').
  { intros k' ms' Hin. destruct (T2 k' ms' Hin) as [Hn Hp]. destruct ms' as [|[r f] ms']; [done|].
    assert (Hrf : (r, f) ∈ at_key k' ls') by (rewrite <-Hp; left).
    apply elem_of_at_key in Hrf as (l & Hl & (Hr & <- & _)%run_newest_some). by eapply Hlt. }
  split; cbn [fmap list_fmap fst].
  - constructor; [done|]. rewrite Forall_fmap, Forall_forall. intros [k' ms'] Hin. by eapply Hk.
  - intros k' ms' [[= -> ->]|Hin]%elem_of_cons; [done|]. destruct (T2 k' ms' Hin) as [Hn Hp]. split; [done|].
    rewrite Hp. symmetry. apply Hsame. intros ->. by apply (key_lt_irrefl k), (Hk k ms').
  - intros f l r Hl Hr. rewrite elem_of_cons. destruct (Hkeep f l r Hl Hr) as [->|(l' & Hl' & Hr')]; [by left|right; by eapply T3].
Qed.

(** ** One pass of a merge *)

Section pass.
Context (hi : option bytes).

(** What a cursor has to come below the bound, with its file. *)
Definition slice_left (c : Cursor) : Z * list HintRecord := (cu_file_id c, in_slice hi (to_come c)).

(** The runs the cursors of a heap still hold. *)
Definition runs_of (g : list (Cursor * list HintRecord)) : list (Z * list HintRecord) :=
  (fun p => (cu_file_id p.1, p.2)) <$> g.

Record parked_on (c : Cursor) (l : list HintRecord) : Prop := {
  po_cur : exists r, cu_cur c = Some r /\ run_newest (cu_key c) l = Some r;
  po_least : forall x, x ∈ l -> key_le (cu_key c) (hr_key x);
  po_left : forall x, x ∈ in_slice hi (to_come c) -> key_lt (cu_key c) (hr_key x);
  po_other : forall k, k <> cu_key c -> run_newest k l = run_newest k (in_slice hi (to_come c));
  po_keep : forall x, x ∈ l -> hr_key x = cu_key c \/ x ∈ in_slice hi (to_come c)
}.

Lemma parked_parked_on c l : parked hi c l -> parked_on c l.
Proof.
  intros [_ (r & same & Hc & -> & Hs & Hn & Ht)]. assert (Hk : cu_key c = hr_key r) by (unfold cu_key; by rewrite Hc).
  rewrite Forall_forall in Hs, Ht.
  assert (Ht' : forall x, x ∈ in_slice hi (to_come c) -> key_lt (hr_key r) (hr_key x)).
  { intros x [_ Hx]%list_elem_of_filter. by apply Ht. }
  split; rewrite ?Hk; try done.
  - exists r. split; [done|]. rewrite run_newest_app_l; [done|]. intros x Hx E. apply Ht' in Hx. rewrite E in Hx.
    by apply key_lt_irrefl in Hx.
  - intros x [Hx|Hx]%elem_of_app; apply key_le_lteq; [right; symmetry; by apply Hs|left; by apply Ht'].
  - intros k Hne. apply run_newest_app_r. intros x Hx E. apply Hne. rewrite <-E. by apply Hs.
  - intros x [Hx|Hx]%elem_of_app; [left; by apply Hs|by right].
Qed.

(** The cursors popped, and those left. *)
Lemma heap_pop_spec (g : list (Cursor * list HintRecord)) c heap best rest0 same rest :
  g.*1 = c :: heap -> pop_min c heap = (best, rest0) -> pop_same (length rest0) (cu_key best) rest0 = (same, rest) ->
  exists gm gr : list (Cursor * list HintRecord), g ≡ₚ gm ++ gr /\ gm.*1 = best :: same /\ gr.*1 = rest
    /\ (forall p, p ∈ gm -> cu_key p.1 = cu_key best) /\ (forall p, p ∈ gr -> key_lt (cu_key best) (cu_key p.1)).
Proof.
  intros Hg E1 E2. destruct (pop_min_spec _ _ _ _ E1) as [P1 M1].
  destruct (pop_same_spec _ _ _ _ _ (Nat.le_refl _) M1 E2) as (P2 & M2 & M3).
  assert (Hp : (best :: same) ++ rest ≡ₚ g.*1) by (cbn; by rewrite P2, P1, Hg).
  apply Permutation_map_inv in Hp as (g' & Hg' & Hpg). 
  exists (take (length (best :: same)) g'), (drop (length (best :: same)) g').
  assert (Hm : (take (length (best :: same)) g').*1 = best :: same).
  { rewrite fmap_take. change (map fst g') with (g'.*1) in Hg'. rewrite <-Hg'. by rewrite take_app_length. }
  assert (Hr : (drop (length (best :: same)) g').*1 = rest).
  { rewrite fmap_drop. change (map fst g') with (g'.*1) in Hg'. rewrite <-Hg'. by rewrite drop_app_length. }
  split_and!; [by rewrite take_drop|done|done| |].
  - intros p Hp%(list_elem_of_fmap_2 fst). rewrite Hm in Hp. apply elem_of_cons in Hp as [->|Hp]; [done|by apply M2].
  - intros p Hp%(list_elem_of_fmap_2 fst). rewrite Hr in Hp. by apply M3.
Qed.

Lemma at_key_popped k (gm : list (Cursor * list HintRecord)) :
  (forall p, p ∈ gm -> parked_on p.1 p.2 /\ cu_key p.1 = k) ->
  at_key k (runs_of gm) = cursor_matches gm.*1
  /\ forall k', k' <> k -> at_key k' (runs_of gm) = at_key k' (slice_left <$> gm.*1).
Proof.
  induction gm as [|[c l] gm IH]; intros Hg; [done|].
  destruct IH as [I1 I2]; [intros; apply Hg; by right|].
  destruct (Hg (c, l) ltac:(left)) as [[(r & Hr & Hn) _ _ Ho _] Hk]. cbn [fst snd] in *. split.
  - unfold at_key, cursor_matches in *. cbn [runs_of fmap list_fmap omap list_omap fst snd]. rewrite <-Hk, Hn, Hr. cbn.
    rewrite Hk. by f_equal.
  - intros k' Hk'. specialize (I2 k' Hk'). unfold at_key in *. cbn [runs_of fmap list_fmap omap list_omap fst snd].
    rewrite Ho by congruence. by rewrite <-I2.
Qed.

Lemma at_key_left k (gr : list (Cursor * list HintRecord)) :
  (forall p, p ∈ gr -> parked_on p.1 p.2 /\ key_lt k (cu_key p.1)) -> at_key k (runs_of gr) = [].
Proof.
  induction gr as [|[c l] gr IH]; intros Hg; [done|].
  unfold at_key in *. cbn [runs_of fmap list_fmap omap list_omap fst snd].
  destruct (Hg (c, l) ltac:(left)) as [[_ Hl _ _ _] Hk]. cbn [fst snd] in *.
  rewrite (proj2 (run_newest_none k l)).
  - cbn. apply IH. intros; apply Hg; by right.
  - intros x Hx E. apply Hl in Hx. rewrite E in Hx. apply key_le_lteq in Hx as [Hx|Hx].
    + by destruct (key_lt_irrefl _ (key_lt_trans _ _ _ Hk Hx)).
    + rewrite Hx in Hk. by apply key_lt_irrefl in Hk.
Qed.

(** The key popped, in front of what the loaded cursors and the rest give. *)
Lemma trace_of_pass (g gm gr : list (Cursor * list HintRecord)) k tr :
  g ≡ₚ gm ++ gr -> gm <> [] ->
  (forall p, p ∈ g -> parked hi p.1 p.2) -> (forall p, p ∈ gm -> cu_key p.1 = k) ->
  (forall p, p ∈ gr -> key_lt k (cu_key p.1)) ->
  trace_of ((slice_left <$> gm.*1) ++ runs_of gr) tr ->
  trace_of (runs_of g) ((k, cursor_matches gm.*1) :: tr).
Proof.
  intros Hg Hne Hpk Hm Hr Ht.
  assert (Hon : forall p, p ∈ gm \/ p ∈ gr -> parked_on p.1 p.2).
  { intros p Hp. apply parked_parked_on, Hpk. rewrite Hg. set_solver. }
  assert (Hperm : runs_of g ≡ₚ runs_of gm ++ runs_of gr) by (unfold runs_of; by rewrite Hg, fmap_app).
  apply (trace_of_perm (runs_of gm ++ runs_of gr)); [by rewrite Hperm|].
  destruct (at_key_popped k gm) as [A1 A2]; [naive_solver|].
  assert (A3 : forall k', at_key k' (runs_of gm ++ runs_of gr) = at_key k' (runs_of gm) ++ at_key k' (runs_of gr)).
  { intros. apply omap_app. }
  eapply trace_of_cons; [exact Ht| | | | |].
  - destruct gm as [|[c l] gm]; [done|]. destruct (Hon (c, l)) as [(r & Hc & _) _ _ _ _]; [set_solver|].
    cbn in *. by rewrite Hc.
  - rewrite A3, A1, at_key_left; [by rewrite app_nil_r|]. intros p Hp. split; [by apply Hon; right|by apply Hr].
  - intros f l r [Hl|Hl]%elem_of_app Hx.
    + rewrite <-list_fmap_compose in Hl. apply list_elem_of_fmap in Hl as (p & [= -> ->] & Hp).
      rewrite <-(Hm p Hp). by apply (po_left _ _ (Hon p (or_introl Hp))).
    + apply list_elem_of_fmap in Hl as (p & [= -> ->] & Hp). pose proof (po_least _ _ (Hon p (or_intror Hp)) r Hx) as Hle.
      apply key_le_lteq in Hle as [Hle|<-]; [eapply key_lt_trans; [by apply Hr|done]|by apply Hr].
  - intros k' Hk'. rewrite A3, A2 by done. unfold at_key. by rewrite omap_app.
  - intros f l r [Hl|Hl]%elem_of_app Hx.
    + apply list_elem_of_fmap in Hl as (p & [= -> ->] & Hp). destruct (po_keep _ _ (Hon p (or_introl Hp)) r Hx) as [->|Hin].
      * left. by apply Hm.
      * right. exists (in_slice hi (to_come p.1)). split; [|done]. apply elem_of_app. left.
        rewrite <-list_fmap_compose. by apply (list_elem_of_fmap_2' (slice_left ∘ fst) _ p).
    + right. exists l. split; [|done]. apply elem_of_app. by right.
Qed.

(** Runs that are used up add nothing. *)
Lemma trace_of_empties (es ls : list (Z * list HintRecord)) tr : Forall (fun p => p.2 = []) es -> trace_of ls tr -> trace_of (es ++ ls) tr.
Proof.
  intros He [T1 T2 T3]. assert (Hat : forall k, at_key k (es ++ ls) = at_key k ls).
  { intros k. unfold at_key. rewrite omap_app. induction He as [|[f l] es Hl He IH]; [done|].
    cbn [fst snd] in Hl. subst l. cbn. exact IH. }
  split; [done| |].
  - intros k ms Hk. rewrite Hat. by apply T2.
  - intros f l r [Hl|Hl]%elem_of_app Hr; [|by eapply T3]. rewrite Forall_forall in He. specialize (He _ Hl). cbn in He. set_solver.
Qed.

(** ** Loading the cursors popped *)

(** A cursor before and after [load]. *)
Record loaded (c c' : Cursor) : Prop := {
  ld_file : cu_file_id c' = cu_file_id c;
  ld_less : (length (to_come c') + length (option_list (cu_cur c')) <= length (to_come c))%nat;
  ld_next : (in_slice hi (to_come c) = [] /\ cu_cur c' = None /\ (hi = None -> cu_scanner c' = []))
            \/ parked hi c' (in_slice hi (to_come c))
}.

Definition cursor_left (c : Cursor) : nat :=
  (length (cu_scanner c) + length (option_list (cu_cur c)) + length (option_list (cu_lookahead c)))%nat.

Lemma cursors_left_cons c cs : cursors_left (c :: cs) = (cursor_left c + cursors_left cs)%nat.
Proof. done. Qed.

Lemma cursors_left_app a b : cursors_left (a ++ b) = (cursors_left a + cursors_left b)%nat.
Proof. induction a as [|c a IH]; [done|]. cbn [app]. rewrite !cursors_left_cons, IH. lia. Qed.

Lemma cursors_left_perm a b : a ≡ₚ b -> cursors_left a = cursors_left b.
Proof. induction 1; rewrite ?cursors_left_cons; lia. Qed.

Lemma cursor_left_to_come c : cursor_left c = (length (to_come c) + length (option_list (cu_cur c)))%nat.
Proof. unfold cursor_left, to_come. rewrite length_app, length_fmap. lia. Qed.

(** The cursors still parked, as a heap with its runs. *)
Lemma loaded_heap cs cs' :
  Forall2 loaded cs cs' ->
  exists (gl : list (Cursor * list HintRecord)) empties, filter (fun c => has_cur c = true) cs' = gl.*1
    /\ (forall p, p ∈ gl -> parked hi p.1 p.2)
    /\ slice_left <$> cs ≡ₚ empties ++ runs_of gl /\ Forall (fun p => p.2 = []) empties
    /\ (cursors_left gl.*1 <= sum_list_with (fun c => length (to_come c)) cs)%nat.
Proof.
  induction 1 as [|c c' cs cs' [L1 L2 L3] Hl (gl & em & I1 & I2 & I3 & I4 & I5)].
  { exists [], []. split_and!; try done. set_solver. }
  cbn [fmap list_fmap sum_list_with]. rewrite filter_cons. destruct L3 as [(L3 & L4 & _)|L3].
  - exists gl, ((cu_file_id c, []) :: em). rewrite decide_False by (unfold has_cur; by rewrite L4).
    split_and!; try done; [|by constructor|lia]. cbn [app]. rewrite <-I3. unfold slice_left at 1. by rewrite L3.
  - destruct (parked_parked_on _ _ L3) as [(r' & Hr' & _) _ _ _ _].
    exists ((c', in_slice hi (to_come c)) :: gl), em. rewrite decide_True by (unfold has_cur; by rewrite Hr').
    cbn [fmap list_fmap fst]. split_and!; try done.
    + by rewrite I1.
    + intros p [->|Hin]%elem_of_cons; [done|by apply I2].
    + rewrite I3. unfold runs_of at 2. cbn [fmap list_fmap fst snd]. rewrite L1. unfold slice_left.
      by rewrite Permutation_middle.
    + rewrite cursors_left_cons. pose proof (cursor_left_to_come c'). lia.
Qed.

(** A parked cursor holds one entry more than it has to come. *)
Lemma parked_left (g : list (Cursor * list HintRecord)) :
  (forall p, p ∈ g -> parked hi p.1 p.2) ->
  cursors_left g.*1 = (sum_list_with (fun c => length (to_come c)) g.*1 + length g)%nat.
Proof.
  induction g as [|[c l] g IH]; intros Hp; [done|]. cbn [fmap list_fmap fst length sum_list_with].
  rewrite cursors_left_cons, IH by (intros; apply Hp; by right).
  destruct (parked_parked_on c l (Hp (c, l) ltac:(left))) as [(r & Hr & _) _ _ _ _].
  rewrite cursor_left_to_come, Hr. cbn. lia.
Qed.

(** What one pass does to a heap: the popped cursors can be loaded; once they
    are, the new heap holds less, and the trace gains the key popped. *)
Lemma heap_pass (g : list (Cursor * list HintRecord)) c heap best rest0 same rest :
  (forall p, p ∈ g -> parked hi p.1 p.2) -> g.*1 = c :: heap ->
  pop_min c heap = (best, rest0) -> pop_same (length rest0) (cu_key best) rest0 = (same, rest) ->
  c :: heap ≡ₚ (best :: same) ++ rest /\ Forall cursor_ok (best :: same) /\ is_Some (cu_cur best)
  /\ forall cs', Forall2 loaded (best :: same) cs' ->
       exists g', rest ++ filter (fun c => has_cur c = true) cs' = g'.*1
         /\ (forall p, p ∈ g' -> parked hi p.1 p.2) /\ (cursors_left g'.*1 < cursors_left (c :: heap))%nat
         /\ forall tr, trace_of (runs_of g') tr ->
              trace_of (runs_of g) ((cu_key best, cursor_matches (best :: same)) :: tr).
Proof.
  intros Hp Hc E1 E2. destruct (heap_pop_spec g c heap best rest0 same rest Hc E1 E2) as (gm & gr & Hg & Hm & Hr & Hmk & Hrk).
  assert (Hpm : forall p, p ∈ gm -> parked hi p.1 p.2) by (intros p ?; apply Hp; rewrite Hg; set_solver).
  assert (Hperm : c :: heap ≡ₚ (best :: same) ++ rest) by (by rewrite <-Hc, <-Hm, <-Hr, <-fmap_app, Hg).
  split_and!; [done| | |].
  - rewrite <-Hm. apply Forall_fmap, Forall_forall. intros p Hin. apply (Hpm p Hin).
  - destruct gm as [|[c' l'] gm]; [done|]. cbn in Hm. injection Hm as -> _.
    destruct (parked_parked_on best l' (Hpm (best, l') ltac:(left))) as [(r & ? & _) _ _ _ _]. by exists r.
  - intros cs' Hl. rewrite <-Hm in Hl |- *.
    destruct (loaded_heap gm.*1 cs' Hl) as (gl & em & G1 & G2 & G3 & G4 & G5).
    exists (gr ++ gl). split_and!.
    + by rewrite G1, fmap_app, Hr.
    + intros p [Hin|Hin]%elem_of_app; [|by apply G2]. apply Hp. rewrite Hg. set_solver.
    + rewrite (cursors_left_perm _ _ Hperm), <-Hm, <-Hr, fmap_app, !cursors_left_app.
      rewrite (parked_left gm Hpm). destruct gm as [|pm gm]; [done|]. cbn [length] in *. lia.
    + intros tr T. apply (trace_of_pass g gm gr); try done; [by destruct gm|].
      apply (trace_of_perm (em ++ runs_of (gr ++ gl))); [|by apply trace_of_empties].
      rewrite G3. unfold runs_of. rewrite fmap_app, <-app_assoc. apply Permutation_app; [done|]. apply Permutation_app_comm.
Qed.

End pass.

(** ** What the passes note *)

Section notes.
Context {St : Type} (note : Z -> HintEntry.HintEntry -> St -> St) (unsorted : string).
Context (note_comm : forall f f' he he' s, f <> f' -> note f he (note f' he' s) = note f' he' (note f he s)).

(** Everything the cursors have not read yet, noted. *)
Definition finish (n : St) (cs : list Cursor) : St :=
  foldr (fun c n => note_all note (cu_file_id c) (cu_scanner c) n) n cs.

Lemma note_all_comm f f' a b n :
  f <> f' -> note_all note f a (note_all note f' b n) = note_all note f' b (note_all note f a n).
Proof.
  intros Hf. unfold note_all. revert n. induction a as [|he a IH]; intros n; [done|]. cbn [foldl].
  rewrite <-IH. f_equal. clear IH. revert n. induction b as [|he' b IH]; intros n; [done|]. cbn [foldl].
  rewrite IH. f_equal. by apply note_comm.
Qed.

Lemma finish_note f a n cs :
  f ∉ cu_file_id <$> cs -> finish (note_all note f a n) cs = note_all note f a (finish n cs).
Proof.
  induction cs as [|c cs IH]; intros Hf; [done|]. cbn [finish foldr] in *. rewrite fmap_cons, not_elem_of_cons in Hf.
  fold (finish (note_all note f a n) cs). fold (finish n cs). rewrite IH by naive_solver.
  by rewrite note_all_comm by naive_solver.
Qed.

Lemma finish_perm n cs cs' : NoDup (cu_file_id <$> cs) -> cs ≡ₚ cs' -> finish n cs = finish n cs'.
Proof.
  intros Hn Hp. induction Hp as [|c cs cs' Hp IH|c d cs|cs cs' cs'' Hp1 IH1 Hp2 IH2]; [done|..].
  - cbn [finish foldr fmap list_fmap] in *. apply NoDup_cons in Hn as [_ Hn]. f_equal. by apply IH.
  - cbn [finish foldr fmap list_fmap] in *. apply NoDup_cons in Hn as [Hn _]. apply note_all_comm. set_solver.
  - rewrite IH1 by done. apply IH2. by rewrite <-Hp1.
Qed.

Lemma load_all_spec hi cs n :
  Forall cursor_ok cs -> NoDup (cu_file_id <$> cs) ->
  exists cs' n', load_all note (below hi) unsorted cs n = (Ok cs', n') /\ Forall2 (loaded hi) cs cs'
    /\ (forall rest, NoDup (cu_file_id <$> cs ++ rest) -> finish n' (cs' ++ rest) = finish n (cs ++ rest)).
Proof.
  intros Hok Hn. revert n. induction Hok as [|c cs Hc Hok IH]; intros n.
  { by exists [], n. }
  cbn [fmap list_fmap] in Hn. apply NoDup_cons in Hn as [Hc' Hn].
  destruct (load_spec note hi unsorted c n Hc) as (cons & c' & E & E1 & E2 & E3 & E4).
  destruct (IH Hn (note_all note (cu_file_id c) cons n)) as (cs' & n' & I1 & I2 & I3).
  exists (c' :: cs'), n'. cbn [load_all]. unfold mbind, io_bind, mret, io_ret. rewrite E, I1.
  split_and!; [done|by constructor|]. intros rest Hnd. cbn [app fmap list_fmap] in Hnd. apply NoDup_cons in Hnd as [Hr Hnd].
  cbn [app finish foldr]. fold (finish n' (cs' ++ rest)). fold (finish n (cs ++ rest)).
  rewrite I3, finish_note, E2, E1, note_all_app by done. done.
Qed.
End notes.
