(* ===== verification/BuildProofs.v ===== *)
(** * One worker's merge

    [recovery_build_sorted] over hints in the shape [flush_hints_for] writes:
    it ends, notes every entry once, and its merge meets every key once with
    the newest entry of each file. *)

From S2P Require Import Prelude Codec HintFile KeyDir DataFile EngineState Hints Recovery Merging.
Import Serialization Types Stats Dir.

(** ** Notes of different files commute *)

Lemma if_ltb_max a b : (if a <? b then b else a) = Z.max a b.
Proof. destruct (Z.ltb_spec a b); lia. Qed.

Lemma note_comm f f' he he' n : f <> f' -> note f he (note f' he' n) = note f' he' (note f he n).
Proof.
  intros Hf. unfold note. cbn [no_max_seq no_stats].
  rewrite !lookup_insert_ne by done. f_equal; [|by apply insert_insert_ne].
  rewrite !if_ltb_max. lia.
Qed.

(** ** The merge loop *)

(** The keys of a trace merged one after another. *)
Fixpoint run_merge (tr : list (bytes * list (HintRecord * Z))) (m : Merged) : result Merged :=
  match tr with
  | [] => Ok m
  | (k, []) :: tr => run_merge tr m
  | (k, best :: same) :: tr => m ← merge_key k best same m; run_merge tr m
  end.

Lemma finish_filter n cs cs' rest :
  Forall2 (loaded None) cs cs' ->
  finish note n (filter (fun c => has_cur c = true) cs' ++ rest) = finish note n (cs' ++ rest).
Proof.
  induction 1 as [|c c' cs cs' [_ _ L] Hl IH]; [done|]. rewrite filter_cons. destruct (decide (has_cur c' = true)) as [Hc|Hc].
  - cbn [app finish foldr]. f_equal. exact IH.
  - cbn [app finish foldr]. destruct L as [(_ & _ & ->)|L]; [exact IH|done|].
    exfalso. destruct (parked_parked_on _ _ _ L) as [(r & Hr & _) _ _ _ _]. unfold has_cur in Hc. by rewrite Hr in Hc.
Qed.

Lemma loaded_files hi cs cs' : Forall2 (loaded hi) cs cs' -> cu_file_id <$> cs' = cu_file_id <$> cs.
Proof. induction 1 as [|c c' cs cs' [L _ _] Hl IH]; [done|]. cbn. by rewrite L, IH. Qed.

(** The files of the cursors kept are still different. *)
Lemma nodup_filter (P : Cursor -> Prop) `{forall c, Decision (P c)} cs rest :
  NoDup ((cu_file_id <$> cs) ++ (cu_file_id <$> rest)) -> NoDup (cu_file_id <$> filter P cs ++ rest).
Proof.
  rewrite <-fmap_app. intros Hn. eapply sublist_NoDup; [exact Hn|].
  apply fmap_sublist, sublist_app; [apply sublist_filter|done].
Qed.

Lemma merge_sorted_spec fuel (g : list (Cursor * list HintRecord)) m n :
  (forall p, p ∈ g -> parked None p.1 p.2) -> NoDup (cu_file_id <$> g.*1) -> (cursors_left g.*1 <= fuel)%nat ->
  exists tr, trace_of (runs_of g) tr
    /\ match run_merge tr m with
       | Ok m' => merge_sorted fuel g.*1 m n = (Ok m', finish note n g.*1)
       | Err ex => (merge_sorted fuel g.*1 m n).1 = Err ex
       end.
Proof.
  revert g m n. induction fuel as [|fuel IH]; intros g m n Hp Hn Hf.
  { destruct g as [|[c l] g]; [exists []; split; [apply trace_of_nil; set_solver|done]|]. exfalso.
    destruct (parked_parked_on _ _ _ (Hp (c, l) ltac:(left))) as [(r & Hr & _) _ _ _ _]. cbn [fst] in Hr.
    cbn [fmap list_fmap fst] in Hf. rewrite cursors_left_cons, cursor_left_to_come, Hr in Hf. cbn in Hf. lia. }
  destruct (g.*1) as [|c heap] eqn:Hg.
  { apply fmap_nil_inv in Hg as ->. exists []. split; [apply trace_of_nil; set_solver|done]. }
  destruct (pop_min c heap) as [best rest0] eqn:E1.
  destruct (pop_same (length rest0) (cu_key best) rest0) as [same rest] eqn:E2.
  destruct (heap_pass None g c heap best rest0 same rest Hp Hg E1 E2) as (Hperm & Hok & [r Hcur] & Hpass).
  assert (Hfiles : NoDup ((cu_file_id <$> best :: same) ++ (cu_file_id <$> rest)))
    by (by rewrite <-fmap_app, <-Hperm).
  destruct (load_all_spec note kUnsortedBuild note_comm None (best :: same) n Hok) as (cs' & n' & L1 & L2 & L3).
  { by apply NoDup_app in Hfiles as (? & _ & _). }
  destruct (Hpass cs' L2) as (g' & Hg' & Hp' & Hl' & Htr).
  assert (Hnd : NoDup (cu_file_id <$> filter (fun c => has_cur c = true) cs' ++ rest))
    by (apply nodup_filter; by rewrite (loaded_files _ _ _ L2)).
  assert (Hfin : finish note n' g'.*1 = finish note n (c :: heap)).
  { rewrite <-Hg', (finish_perm note note_comm n' (rest ++ _) (filter (fun c => has_cur c = true) cs' ++ rest));
      [|by rewrite (Permutation_app_comm rest)|apply Permutation_app_comm].
    rewrite (finish_filter n' (best :: same) cs' rest L2), L3 by (by rewrite fmap_app).
    apply finish_perm; [apply note_comm|by rewrite fmap_app|done]. }
  destruct (IH g') with (m := match merge_key (cu_key best) (r, cu_file_id best) (cursor_matches same) m with Ok m => m | Err _ => m end)
    (n := n') as (tr & T1 & T2); [done|by rewrite <-Hg', (Permutation_app_comm rest)|lia|].
  exists ((cu_key best, cursor_matches (best :: same)) :: tr). split; [by apply Htr|].
  unfold cursor_matches. cbn [omap list_omap]. rewrite Hcur. cbn [fmap option_fmap option_map run_merge].
  cbn [merge_sorted]. rewrite E1, E2. unfold mbind at 2, io_bind at 1. unfold lift. rewrite Hcur.
  fold (cursor_matches same). destruct (merge_key _ _ _ m) as [m'|ex]; [|done].
  unfold mbind, io_bind. cbn [result_bind]. change (fun _ : bytes => true) with (below None).
  rewrite L1, Hg', <-Hfin. exact T2.
Qed.

(** ** What merging a trace builds *)

(** Whether the matches on a key hold a Put older than a tombstone, from
    another file. *)
Lemma older_put_elsewhere_spec ms seq file :
  older_put_elsewhere ms seq file = true
  <-> exists p f, (p, f) ∈ ms /\ hr_type p = Put /\ hr_sequence p < seq /\ f <> file.
Proof.
  unfold older_put_elsewhere. rewrite existsb_exists. split.
  - intros ([p f] & Hin%list_elem_of_In & Hb). bool_to_prop. apply bool_decide_eq_true in H. naive_solver.
  - intros (p & f & Hin & Ht & Hs & Hf). exists (p, f). split; [by apply list_elem_of_In|]. cbn.
    rewrite bool_decide_eq_true_2, (proj2 (Z.ltb_lt _ _)), (proj2 (Z.eqb_neq _ _)) by done. done.
Qed.

Definition match_needed (ms : list (HintRecord * Z)) : list Z :=
  omap (fun p => if bool_decide (hr_type p.1 = Delete) && older_put_elsewhere ms (hr_sequence p.1) p.2
                 then Some (hr_sequence p.1) else None) ms.

Definition mark_range (k : bytes) (ms : list (HintRecord * Z)) (rt : RangeTombstone) : RangeTombstone :=
  if rt_covers k rt && older_put_elsewhere ms (rt_seq rt) (rt_file_id rt) then need_range rt else rt.

Lemma mark_needed_eq k ms ranges needed :
  recovery_mark_needed k ms ranges needed = (mark_range k ms <$> ranges, needed ++ match_needed ms).
Proof.
  unfold recovery_mark_needed. f_equal.
  - apply list_fmap_ext. intros _ rt _. unfold mark_range. destruct rt as [a b c d []]; cbn.
    + by destruct (_ && _).
    + unfold rt_covers, need_range. cbn. destruct (in_range a b k); cbn; [|done]. done.
  - unfold match_needed. generalize (older_put_elsewhere ms) as opf. intros opf.
    revert needed. induction ms as [|p ms IH]; intros needed; cbn [foldl omap list_omap]; [by rewrite app_nil_r|].
    rewrite IH. destruct (_ && _); [|done]. by rewrite <-app_assoc.
Qed.

Lemma newest_spec best same :
  newest best same ∈ best :: same
  /\ forall p, p ∈ best :: same -> hr_sequence p.1 <= hr_sequence (newest best same).1.
Proof.
  unfold newest. revert best. induction same as [|q same IH]; intros best; cbn [foldl].
  { split; [left|]. intros p Hp. apply list_elem_of_singleton in Hp as ->. lia. }
  destruct (IH (if hr_sequence best.1 <? hr_sequence q.1 then q else best)) as [I1 I2].
  set (w := foldl _ _ same) in *. split.
  - apply elem_of_cons in I1 as [->|I1]; [|set_solver]. destruct (_ <? _); set_solver.
  - intros p Hp. assert (Hb : hr_sequence best.1 <= hr_sequence w.1 /\ hr_sequence q.1 <= hr_sequence w.1).
    { specialize (I2 (if hr_sequence best.1 <? hr_sequence q.1 then q else best) ltac:(left)).
      destruct (Z.ltb_spec (hr_sequence best.1) (hr_sequence q.1)); lia. }
    rewrite !elem_of_cons in Hp. destruct Hp as [->|[->|Hp]]; [lia..|]. apply I2. by right.
Qed.

(** The entry a key keeps. *)
Definition survivor (ranges : list RangeTombstone) (k : bytes) (ms : list (HintRecord * Z)) : option KeyDirEntry :=
  match ms with
  | [] => None
  | best :: same =>
      let w := newest best same in
      if bool_decide (hr_type w.1 = Put) && negb (range_suppresses ranges k (hr_sequence w.1))
      then match record_entry w.1 w.2 with Ok e => Some e | Err _ => None end
      else None
  end.

Lemma range_suppresses_marked k ms ranges k' seq :
  range_suppresses (mark_range k ms <$> ranges) k' seq = range_suppresses ranges k' seq.
Proof.
  unfold range_suppresses. induction ranges as [|rt ranges IH]; [done|]. cbn [fmap list_fmap existsb]. rewrite IH. f_equal.
  unfold mark_range. by destruct (rt_covers k rt && older_put_elsewhere ms (rt_seq rt) (rt_file_id rt)).
Qed.

Definition merge_all (tr : list (bytes * list (HintRecord * Z))) (m : Merged) : Merged :=
  mkMerged
    (mg_out m ++ omap (fun p => (fun e => (p.1, e)) <$> survivor (mg_ranges m) p.1 p.2) tr)
    (foldl (fun ts p => record_tombstones p.1 p.2 ts) (mg_tombstones m) tr)
    ((fun rt => foldl (fun rt p => mark_range p.1 p.2 rt) rt tr) <$> mg_ranges m)
    (mg_needed m ++ concat ((fun p => match_needed p.2) <$> tr)).

(** The matches of a trace pack, and their keys fit a tree. *)
Definition packs (tr : list (bytes * list (HintRecord * Z))) : Prop :=
  forall k ms, (k, ms) ∈ tr -> ms <> [] /\ size k <= kBTreeMaxKeyBytes
    /\ forall r f, (r, f) ∈ ms -> exists e, record_entry r f = Ok e.

Lemma merge_key_ok k best same m :
  size k <= kBTreeMaxKeyBytes -> (forall r f, (r, f) ∈ best :: same -> exists e, record_entry r f = Ok e) ->
  merge_key k best same m = Ok (merge_all [(k, best :: same)] m).
Proof.
  intros Hk Hr. unfold merge_key, merge_all. rewrite mark_needed_eq.
  destruct (newest best same) as [w wf] eqn:Ew. rewrite range_suppresses_marked.
  assert (Hin : (w, wf) ∈ best :: same) by (rewrite <-Ew; apply newest_spec).
  destruct (Hr w wf Hin) as [e He]. cbn [foldl omap list_omap fmap list_fmap concat fst snd survivor].
  rewrite Ew. cbn [fst snd]. rewrite app_nil_r.
  destruct (_ && _); cbn [mbind result_bind].
  - rewrite He. cbn [mbind result_bind fmap option_fmap option_map]. unfold bulk_append.
    rewrite (proj2 (Z.ltb_ge _ _)) by done. done.
  - cbn [fmap option_fmap option_map]. by rewrite app_nil_r.
Qed.

Lemma merge_all_cons k ms tr m : merge_all tr (merge_all [(k, ms)] m) = merge_all ((k, ms) :: tr) m.
Proof.
  unfold merge_all. cbn [mg_out mg_tombstones mg_ranges mg_needed foldl omap list_omap fmap list_fmap concat fst snd].
  f_equal.
  - rewrite <-app_assoc. f_equal.
    assert (Hs : forall k' ms', survivor (mark_range k ms <$> mg_ranges m) k' ms' = survivor (mg_ranges m) k' ms').
    { intros k' [|b s]; [done|]. cbn. by rewrite range_suppresses_marked. }
    destruct (survivor (mg_ranges m) k ms); cbn; [f_equal|]; apply list_omap_ext, Forall_Forall2_diag, Forall_forall; intros p _; by rewrite Hs.
  - rewrite <-list_fmap_compose. done.
  - rewrite app_nil_r, <-app_assoc. done.
Qed.

Lemma run_merge_ok tr m : packs tr -> run_merge tr m = Ok (merge_all tr m).
Proof.
  revert m. induction tr as [|[k ms] tr IH]; intros m Hp.
  - destruct m as [o t r n]. unfold merge_all. cbn. rewrite !app_nil_r. do 2 f_equal. by rewrite list_fmap_id.
  - destruct (Hp k ms ltac:(left)) as (Hne & Hk & Hr). destruct ms as [|best same]; [done|]. cbn [run_merge].
    rewrite (merge_key_ok k best same m Hk Hr). cbn [mbind result_bind].
    rewrite IH by (intros k' ms' ?; apply Hp; by right). by rewrite merge_all_cons.
Qed.

(** ** In terms of the runs *)

(** The newest entry of a key over all runs. *)
Definition key_wins (ls : list (Z * list HintRecord)) (k : bytes) (r : HintRecord) (f : Z) : Prop :=
  (r, f) ∈ at_key k ls /\ forall r' f', (r', f') ∈ at_key k ls -> hr_sequence r' <= hr_sequence r.

(** The reference: a key is live if its newest entry is a Put that no newer
    range tombstone covers. *)
Definition newest_put (ls : list (Z * list HintRecord)) (ranges : list RangeTombstone) (k : bytes) (e : KeyDirEntry) : Prop :=
  exists r f, key_wins ls k r f /\ hr_type r = Put
    /\ range_suppresses ranges k (hr_sequence r) = false /\ record_entry r f = Ok e.

(** The entries of the runs pack, and their keys fit a tree. *)
Definition runs_pack (ls : list (Z * list HintRecord)) : Prop :=
  forall k r f, (r, f) ∈ at_key k ls -> size k <= kBTreeMaxKeyBytes
    /\ KeyDirEntry.packable (hr_sequence r) (hr_file_offset r) f (hr_value_size r).

(** Runs that do not share the sequence of a key's newest entries. *)
Definition distinct_newest (ls : list (Z * list HintRecord)) : Prop :=
  forall k r f r' f', (r, f) ∈ at_key k ls -> (r', f') ∈ at_key k ls -> hr_sequence r = hr_sequence r' -> (r, f) = (r', f').

Lemma trace_lookup ls tr k ms r f :
  trace_of ls tr -> (k, ms) ∈ tr -> (r, f) ∈ ms <-> (r, f) ∈ at_key k ls.
Proof. intros T Hk. destruct (tr_match _ _ T k ms Hk) as [_ Hp]. by rewrite Hp. Qed.

Lemma trace_has ls tr k r f : trace_of ls tr -> (r, f) ∈ at_key k ls -> exists ms, (k, ms) ∈ tr /\ (r, f) ∈ ms.
Proof.
  intros T Hr. pose proof Hr as Hr'. apply elem_of_at_key in Hr as (l & Hl & (Hin & Hk & _)%run_newest_some).
  pose proof (tr_all _ _ T f l r Hl Hin) as Hx. rewrite Hk in Hx.
  apply list_elem_of_fmap in Hx as ([k' ms] & -> & Hms). exists ms. split; [done|]. by apply (trace_lookup ls tr k').
Qed.

Lemma newest_wins ls tr k best same :
  trace_of ls tr -> (k, best :: same) ∈ tr -> key_wins ls k (newest best same).1 (newest best same).2.
Proof.
  intros T Hk. destruct (newest_spec best same) as [H1 H2]. split.
  - rewrite <-surjective_pairing. rewrite (surjective_pairing (newest best same)) in H1 |- *. by apply (trace_lookup ls tr k) in H1.
  - intros r f Hr. apply (trace_lookup ls tr k (best :: same)) in Hr; [|done|done]. by apply (H2 (r, f)).
Qed.

Lemma key_wins_unique ls k r f r' f' : distinct_newest ls -> key_wins ls k r f -> key_wins ls k r' f' -> (r, f) = (r', f').
Proof. intros Hd [H1 H2] [H3 H4]. eapply Hd; [done..|]. pose proof (H2 _ _ H3). pose proof (H4 _ _ H1). lia. Qed.

Lemma merged_out ls tr ranges :
  trace_of ls tr -> distinct_newest ls -> packs tr ->
  let out := omap (fun p => (fun e => (p.1, e)) <$> survivor ranges p.1 p.2) tr in
  StronglySorted key_lt out.*1
  /\ forall k e, (k, e) ∈ out <-> newest_put ls ranges k e.
Proof.
  intros T Hd Hp out. split.
  - assert (Hsub : out.*1 `sublist_of` tr.*1).
    { unfold out. clear. induction tr as [|[k ms] tr IH]; [done|]. cbn. destruct (survivor ranges k ms); cbn; by constructor. }
    eapply StronglySorted_sublist; [exact (tr_sorted _ _ T)|done].
  - intros k e. unfold out. rewrite list_elem_of_omap. split.
    + intros ([k' ms] & Hin & Hs). cbn [fst snd] in Hs. destruct ms as [|best same]; [done|]. cbn [survivor] in Hs.
      destruct (bool_decide _) eqn:Et; cbn [andb] in Hs; [|done]. apply bool_decide_eq_true in Et.
      destruct (range_suppresses _ _ _) eqn:Es; cbn [negb] in Hs; [done|].
      destruct (record_entry _ _) as [e'|] eqn:Ee; [|done]. cbn in Hs. injection Hs as -> ->.
      exists (newest best same).1, (newest best same).2. split_and!; try done. by apply (newest_wins ls tr).
    + intros (r & f & Hw & Ht & Hs & He). destruct (trace_has ls tr k r f T (proj1 Hw)) as (ms & Hin & Hr).
      destruct ms as [|best same]; [set_solver|]. exists (k, best :: same). split; [done|]. cbn [fst snd survivor].
      pose proof (key_wins_unique _ _ _ _ _ _ Hd (newest_wins ls tr k best same T Hin) Hw) as E. injection E as E1 E2.
      rewrite E1, E2, Ht, Hs, He, bool_decide_eq_true_2 by done. done.
Qed.

Lemma record_tombstones_spec k ms ts :
  let o := record_tombstones k ms ts !! k in
  (forall t0, ts !! k = Some t0 -> exists t, o = Some t /\ pt_seq t0 <= pt_seq t)
  /\ (forall r f, (r, f) ∈ ms -> hr_type r = Delete -> exists t, o = Some t /\ hr_sequence r <= pt_seq t)
  /\ (forall t, o = Some t -> (exists t0, ts !! k = Some t0 /\ pt_seq t = pt_seq t0)
        \/ exists r f, (r, f) ∈ ms /\ hr_type r = Delete /\ (pt_seq t = hr_sequence r \/ (pt_seq t = 0 /\ hr_sequence r <= 0))).
Proof.
  unfold record_tombstones. revert ts. induction ms as [|[r0 f0] ms IH]; intros ts; cbn [foldl].
  { split_and!; [naive_solver lia|set_solver|naive_solver]. }
  cbn [fst snd]. case_bool_decide as Ht.
  - set (slot := default PointTombstone_zero (ts !! k)).
    set (slot' := if pt_seq slot <? hr_sequence r0 then mkPointTombstone (hr_sequence r0) f0 else slot).
    assert (Hs : pt_seq slot <= pt_seq slot' /\ hr_sequence r0 <= pt_seq slot'
      /\ (pt_seq slot' = pt_seq slot \/ pt_seq slot' = hr_sequence r0)).
    { unfold slot'. destruct (Z.ltb_spec (pt_seq slot) (hr_sequence r0)); cbn; lia. }
    destruct (IH (<[k := slot']> ts)) as (I1 & I2 & I3). destruct (I1 slot') as (t & It & Hle); [by rewrite lookup_insert_eq|].
    split_and!.
    + intros t0 Ht0. exists t. split; [done|]. unfold slot in Hs. rewrite Ht0 in Hs. cbn in Hs. lia.
    + intros r f [[= -> ->]|Hin]%elem_of_cons Hd; [exists t; split; [done|lia]|by eapply I2].
    + intros t' Ht'. destruct (I3 t' Ht') as [(t0 & E0 & E)|(r & f & Hin & Hd & Hq)]; [|right; exists r, f; set_solver].
      rewrite lookup_insert_eq in E0. injection E0 as <-. destruct Hs as (_ & Hr0 & [Hs|Hs]).
      * unfold slot in Hs. destruct (ts !! k) as [t0|] eqn:E0; [left; exists t0; cbn in Hs; split; [done|lia]|].
        right. exists r0, f0. cbn in Hs. split_and!; [left|done|]. right. lia.
      * right. exists r0, f0. split_and!; [left|done|]. left. lia.
  - destruct (IH ts) as (I1 & I2 & I3). split_and!; [done| |].
    + intros r f [[= -> ->]|Hin]%elem_of_cons Hd; [done|by eapply I2].
    + intros t Et. destruct (I3 t Et) as [?|(r & f & Hin & ?)]; [by left|right; exists r, f; set_solver].
Qed.

Lemma record_tombstones_ne k k' ms ts : k' <> k -> record_tombstones k ms ts !! k' = ts !! k'.
Proof.
  intros Hk. unfold record_tombstones. revert ts. induction ms as [|p ms IH]; intros ts; [done|]. cbn [foldl]. rewrite IH.
  case_bool_decide; [by rewrite lookup_insert_ne|done].
Qed.

Lemma trace_tombstones (tr : list (bytes * list (HintRecord * Z))) ts k :
  StronglySorted key_lt tr.*1 ->
  (forall ms, (k, ms) ∈ tr -> foldl (fun ts p => record_tombstones p.1 p.2 ts) ts tr !! k = record_tombstones k ms ts !! k)
  /\ (k ∉ tr.*1 -> foldl (fun ts p => record_tombstones p.1 p.2 ts) ts tr !! k = ts !! k).
Proof.
  revert ts. induction tr as [|[k0 ms0] tr IH]; intros ts Hs; cbn [foldl fst snd]; [split; set_solver|].
  apply StronglySorted_inv in Hs as [Hs Hall]. cbn [fmap list_fmap fst] in Hall. rewrite Forall_forall in Hall.
  destruct (IH (record_tombstones k0 ms0 ts) Hs) as [I1 I2]. split.
  - intros ms [[= -> ->]|Hin]%elem_of_cons.
    + apply I2. intros Hk. by apply (key_lt_irrefl k0), Hall.
    + rewrite (I1 ms Hin). assert (Hne : k <> k0).
      { intros ->. apply (key_lt_irrefl k0), Hall. by apply (list_elem_of_fmap_2' fst _ (k0, ms)). }
      clear -Hne. unfold record_tombstones at 1 3.
      assert (Heq : record_tombstones k0 ms0 ts !! k = ts !! k) by (by apply record_tombstones_ne).
      revert Heq. generalize (record_tombstones k0 ms0 ts). induction ms as [|p ms IH] in ts |- *; intros ts' Heq; [done|].
      cbn [foldl]. apply IH. case_bool_decide; [|done]. by rewrite !lookup_insert_eq, Heq.
  - cbn [fmap list_fmap fst]. intros Hk. rewrite not_elem_of_cons in Hk. rewrite I2 by naive_solver.
    apply record_tombstones_ne. naive_solver.
Qed.

(** The newest tombstone of a key among the runs' newest entries. *)
Record tombs_of (ls : list (Z * list HintRecord)) (ts : gmap bytes PointTombstone) : Prop := {
  to_above : forall k r f, (r, f) ∈ at_key k ls -> hr_type r = Delete -> exists t, ts !! k = Some t /\ hr_sequence r <= pt_seq t;
  to_from : forall k t, ts !! k = Some t -> exists r f, (r, f) ∈ at_key k ls /\ hr_type r = Delete /\ pt_seq t = hr_sequence r
}.

Definition positive_runs (ls : list (Z * list HintRecord)) : Prop :=
  forall k r f, (r, f) ∈ at_key k ls -> 0 < hr_sequence r.

Lemma merged_tombs ls tr :
  trace_of ls tr -> positive_runs ls -> tombs_of ls (foldl (fun ts p => record_tombstones p.1 p.2 ts) ∅ tr).
Proof.
  intros T Hpos. split.
  - intros k r f Hr Hd. destruct (trace_has ls tr k r f T Hr) as (ms & Hin & Hms).
    destruct (trace_tombstones tr ∅ k (tr_sorted _ _ T)) as [E _]. rewrite (E ms Hin).
    destruct (record_tombstones_spec k ms ∅) as (_ & R & _). by apply (R r f).
  - intros k t Ht. destruct (trace_tombstones tr ∅ k (tr_sorted _ _ T)) as [E1 E2].
    destruct (decide (k ∈ tr.*1)) as [Hk|Hk]; [|by rewrite (E2 Hk), lookup_empty in Ht].
    apply list_elem_of_fmap in Hk as ([k' ms] & -> & Hin). cbn [fst] in *. rewrite (E1 ms Hin) in Ht.
    destruct (record_tombstones_spec k' ms ∅) as (_ & _ & R). destruct (R t Ht) as [(t0 & E & _)|(r & f & Hr & Hd & Hq)]; [done|].
    apply (trace_lookup ls tr k' ms) in Hr; [|done|done]. exists r, f. split_and!; try done.
    pose proof (Hpos _ _ _ Hr). lia.
Qed.

(** A range tombstone with a Put it hides in another file. *)
Definition range_needed (ls : list (Z * list HintRecord)) (rt : RangeTombstone) : Prop :=
  exists k p f, rt_covers k rt = true /\ (p, f) ∈ at_key k ls /\ hr_type p = Put
    /\ hr_sequence p < rt_seq rt /\ f <> rt_file_id rt.

(** The same range tombstone, up to the flag. *)
Definition same_range (a b : RangeTombstone) : Prop :=
  rt_start a = rt_start b /\ rt_end a = rt_end b /\ rt_seq a = rt_seq b /\ rt_file_id a = rt_file_id b.

Lemma mark_trace_spec ls tr rt :
  trace_of ls tr ->
  let rt' := foldl (fun rt p => mark_range p.1 p.2 rt) rt tr in
  same_range rt rt' /\ (rt_needed rt' = true <-> rt_needed rt = true \/ range_needed ls rt).
Proof.
  intros T rt'.
  assert (Hgen : forall tr0 rt0, same_range rt rt0 ->
    let rt1 := foldl (fun rt p => mark_range p.1 p.2 rt) rt0 tr0 in
    same_range rt rt1 /\ (rt_needed rt1 = true <-> rt_needed rt0 = true
      \/ exists k ms, (k, ms) ∈ tr0 /\ rt_covers k rt = true /\ older_put_elsewhere ms (rt_seq rt) (rt_file_id rt) = true)).
  { induction tr0 as [|[k ms] tr0 IH]; intros rt0 Hsame; cbn [foldl fst snd]; [split; [done|set_solver]|].
    assert (Hcov : rt_covers k rt0 = rt_covers k rt /\ rt_seq rt0 = rt_seq rt /\ rt_file_id rt0 = rt_file_id rt).
    { destruct Hsame as (S1 & S2 & S3 & S4). unfold rt_covers. by rewrite S1, S2, S3, S4. }
    destruct Hcov as (C1 & C2 & C3). unfold mark_range at 2 4. rewrite C1, C2, C3.
    destruct (rt_covers k rt && older_put_elsewhere ms (rt_seq rt) (rt_file_id rt)) eqn:Ec.
    - apply andb_true_iff in Ec as [Ec1 Ec2]. destruct (IH (need_range rt0)) as [I1 I2]; [done|]. split; [done|].
      rewrite I2. cbn. split; [intros _; right; exists k, ms; set_solver|auto].
    - destruct (IH rt0 Hsame) as [I1 I2]. split; [done|]. rewrite I2. split.
      + intros [?|(k' & ms' & Hin & ?)]; [by left|right; exists k', ms'; set_solver].
      + intros [?|(k' & ms' & [[= -> ->]|Hin]%elem_of_cons & H1 & H2)]; [by left| |right; by exists k', ms'].
        rewrite H1, H2 in Ec. done. }
  destruct (Hgen tr rt) as [G1 G2]; [by repeat split|]. split; [done|]. unfold rt'. rewrite G2. f_equiv.
  unfold range_needed. split.
  - intros (k & ms & Hin & Hc & (p & f & Hp & Ht & Hs & Hf)%older_put_elsewhere_spec).
    exists k, p, f. split_and!; try done. by apply (trace_lookup ls tr k ms).
  - intros (k & p & f & Hc & Hp & Ht & Hs & Hf). destruct (trace_has ls tr k p f T Hp) as (ms & Hin & Hm).
    exists k, ms. split_and!; try done. apply older_put_elsewhere_spec. eauto 10.
Qed.

(** A Delete that is newer than a Put of another file. *)
Definition point_needed (ls : list (Z * list HintRecord)) (s : Z) : Prop :=
  exists k d fd p fp, (d, fd) ∈ at_key k ls /\ hr_type d = Delete /\ hr_sequence d = s
    /\ (p, fp) ∈ at_key k ls /\ hr_type p = Put /\ hr_sequence p < s /\ fp <> fd.

Lemma merged_needed ls tr s :
  trace_of ls tr -> s ∈ concat ((fun p => match_needed p.2) <$> tr) <-> point_needed ls s.
Proof.
  intros T. rewrite list_elem_of_concat. split.
  - intros (l & Hs & Hl). apply list_elem_of_fmap in Hl as ([k ms] & -> & Hin). cbn [snd] in Hs.
    unfold match_needed in Hs. apply list_elem_of_omap in Hs as ([d fd] & Hd & E). cbn [fst snd] in E.
    destruct (bool_decide _) eqn:Et; cbn [andb] in E; [|done]. apply bool_decide_eq_true in Et.
    destruct (older_put_elsewhere _ _ _) eqn:Eo; [|done]. injection E as <-.
    apply older_put_elsewhere_spec in Eo as (p & fp & Hp & Htp & Hs & Hf).
    exists k, d, fd, p, fp. split_and!; try done; by apply (trace_lookup ls tr k ms).
  - intros (k & d & fd & p & fp & Hd & Htd & <- & Hp & Htp & Hs & Hf).
    destruct (trace_has ls tr k d fd T Hd) as (ms & Hin & Hm). exists (match_needed ms). split.
    + unfold match_needed. apply list_elem_of_omap. exists (d, fd). split; [done|]. cbn [fst snd].
      rewrite bool_decide_eq_true_2 by done. cbn [andb].
      rewrite (proj2 (older_put_elsewhere_spec ms (hr_sequence d) fd)); [done|]. exists p, fp.
      split_and!; try done. by apply (trace_lookup ls tr k ms).
    + by apply (list_elem_of_fmap_2' (fun p => match_needed p.2) _ (k, ms)).
Qed.

(** ** Files and their hints *)

(** The data records, the range tombstones and the change markers a hint
    lists. *)
Definition is_point (he : HintEntry.HintEntry) : Prop :=
  HintEntry.entry_type he = Put \/ HintEntry.entry_type he = Delete.

#[export] Instance is_point_dec he : Decision (is_point he).
Proof. unfold is_point. apply _. Defined.

Definition hint_records (es : list HintEntry.HintEntry) : list HintRecord := assign <$> filter is_point es.

Definition hint_ranges (f : Z) (es : list HintEntry.HintEntry) : list RangeTombstone :=
  omap (fun he => if decide (HintEntry.entry_type he = RangeDel)
                  then Some (mkRangeTombstone (HintEntry.key he) (HintEntry.end_key he) (HintEntry.sequence he) f false)
                  else None) es.

Definition hint_markers (es : list HintEntry.HintEntry) : list ChangeMarker :=
  omap (fun he => if decide (HintEntry.entry_type he = EChangeMarker)
                  then Some (mkChangeMarker (HintEntry.sequence he) (HintEntry.marker_id he)) else None) es.

Lemma sorted_hint_split es :
  sorted_hint es ->
  exists head run, es = head ++ run /\ Forall (fun h => is_data (HintEntry.entry_type h) = false) head
    /\ data_run run /\ run_sorted (assign <$> run)
    /\ hint_records es = assign <$> run
    /\ (forall f, hint_ranges f es = hint_ranges f head) /\ hint_markers es = hint_markers head.
Proof.
  intros (head & run & -> & Hh & Hr & Hs). exists head, run. split_and!; try done.
  - unfold run_sorted. rewrite <-list_fmap_compose. exact Hs.
  - unfold hint_records. rewrite filter_app. rewrite (filter_all_not _ head), (filter_all _ run); [done|..].
    + rewrite Forall_forall in Hr. intros x Hx. by apply Hr.
    + rewrite Forall_forall in Hh. intros x Hx [E|E]; apply Hh in Hx; rewrite E in Hx; done.
  - intros f. unfold hint_ranges. rewrite omap_app. rewrite <-(app_nil_r (omap _ head)) at 2. f_equal.
    induction Hr as [|h run Ht Hr IH]; [done|]. cbn. rewrite decide_False by (destruct Ht; congruence).
    apply IH. cbn in Hs. by apply StronglySorted_inv in Hs as [? _].
  - unfold hint_markers. rewrite omap_app. rewrite <-(app_nil_r (omap _ head)) at 2. f_equal.
    induction Hr as [|h run Ht Hr IH]; [done|]. cbn. rewrite decide_False by (destruct Ht; congruence).
    apply IH. cbn in Hs. by apply StronglySorted_inv in Hs as [? _].
Qed.

Lemma read_head_spec f head run ranges markers n :
  Forall (fun h => is_data (HintEntry.entry_type h) = false) head -> data_run run -> run_sorted (assign <$> run) ->
  exists c consumed, read_head f None (head ++ run) ranges markers n
      = (Ok (ranges ++ hint_ranges f head, markers ++ hint_markers head, c), note_all note f consumed n)
    /\ cu_file_id c = f /\ cursor_ok c /\ to_come c = assign <$> run /\ head ++ run = consumed ++ cu_scanner c.
Proof.
  intros Hh Hd Hs. revert ranges markers n. induction Hh as [|h head Ht Hh IH]; intros ranges markers n.
  - cbn [app]. unfold hint_ranges, hint_markers. cbn [omap list_omap]. rewrite !app_nil_r.
    destruct run as [|h run].
    + eexists _, []. split; [done|]. split_and!; try done.
    + pose proof (Forall_inv Hd) as Ht. exists (mkCursor run None f None (Some (assign h))), [h]. split_and!; try done.
      * cbn [read_head]. unfold modify, mbind, io_bind. by destruct Ht as [-> | ->].
      * split; try done. by apply Forall_inv_tail in Hd.
  - assert (Hstep : forall r1 m1, exists c consumed, read_head f None (head ++ run) r1 m1 (note f h n)
      = (Ok (r1 ++ hint_ranges f head, m1 ++ hint_markers head, c), note_all note f (h :: consumed) n)
      /\ cu_file_id c = f /\ cursor_ok c /\ to_come c = assign <$> run /\ head ++ run = consumed ++ cu_scanner c).
    { intros r1 m1. destruct (IH r1 m1 (note f h n)) as (c & cons & E & R). exists c, cons. done. }
    cbn [app read_head]. unfold modify, mbind at 1, io_bind at 1.
    unfold hint_ranges, hint_markers in *. cbn [omap list_omap].
    destruct (HintEntry.entry_type h) eqn:Et; try done.
    + destruct (Hstep ranges markers) as (c & cons & E & E1 & E2 & E3 & E4). exists c, (h :: cons).
      cbn [app]. rewrite <-E4. by split_and!.
    + destruct (Hstep ranges markers) as (c & cons & E & E1 & E2 & E3 & E4). exists c, (h :: cons).
      cbn [app]. rewrite <-E4. by split_and!.
    + destruct (Hstep (ranges ++ [mkRangeTombstone (HintEntry.key h) (HintEntry.end_key h) (HintEntry.sequence h) f false]) markers)
        as (c & cons & E & E1 & E2 & E3 & E4). exists c, (h :: cons). rewrite <-!app_assoc in E.
      cbn [app]. rewrite <-E4. by split_and!.
    + destruct (Hstep ranges (markers ++ [mkChangeMarker (HintEntry.sequence h) (HintEntry.marker_id h)]))
        as (c & cons & E & E1 & E2 & E3 & E4). exists c, (h :: cons). rewrite <-!app_assoc in E.
      cbn [app]. rewrite <-E4. by split_and!.
Qed.

(** The files opened, with the entries of their hints. *)
Definition opened (hints : RecoveredFile -> option (list HintEntry.HintEntry)) (files : list RecoveredFile)
    : list (Z * list HintEntry.HintEntry) :=
  omap (fun f => (fun es => (rf_file_id f, es)) <$> hints f) files.

Definition hint_runs (ops : list (Z * list HintEntry.HintEntry)) : list (Z * list HintRecord) :=
  (fun p => (p.1, hint_records p.2)) <$> ops.

Definition all_ranges (ops : list (Z * list HintEntry.HintEntry)) : list RangeTombstone :=
  concat ((fun p => hint_ranges p.1 p.2) <$> ops).

Definition all_markers (ops : list (Z * list HintEntry.HintEntry)) : list ChangeMarker :=
  concat ((fun p => hint_markers p.2) <$> ops).

(** Everything the hints list, noted. *)
Definition note_files (n : Noted) (ops : list (Z * list HintEntry.HintEntry)) : Noted :=
  foldr (fun p n => note_all note p.1 p.2 n) n ops.

(** The highest sequence of the hints. *)
Definition seq_max (ops : list (Z * list HintEntry.HintEntry)) : Z :=
  foldr Z.max 0 (HintEntry.sequence <$> concat ops.*2).

Lemma foldr_max_app m a : 0 <= m -> foldr Z.max m a = Z.max m (foldr Z.max 0 a).
Proof. intros Hm. induction a as [|x a IH]; cbn; lia. Qed.

Lemma foldr_max_nonneg a : 0 <= foldr Z.max 0 a.
Proof. induction a as [|x a IH]; cbn; lia. Qed.

Lemma seq_max_cons p ops : seq_max (p :: ops) = Z.max (foldr Z.max 0 (HintEntry.sequence <$> p.2)) (seq_max ops).
Proof.
  unfold seq_max. cbn [fmap list_fmap concat]. rewrite fmap_app, foldr_app. rewrite foldr_max_app by apply foldr_max_nonneg. lia.
Qed.

Lemma note_all_max f es n : no_max_seq (note_all note f es n) = Z.max (no_max_seq n) (foldr Z.max 0 (HintEntry.sequence <$> es))
  \/ no_max_seq n < 0.
Proof.
  destruct (Z.lt_ge_cases (no_max_seq n) 0) as [?|Hn]; [by right|left]. revert n Hn.
  unfold note_all. induction es as [|he es IH]; intros n Hn; cbn; [lia|]. rewrite IH.
  - unfold note. cbn. rewrite if_ltb_max. lia.
  - unfold note. cbn. rewrite if_ltb_max. lia.
Qed.

Lemma note_files_max ops n : 0 <= no_max_seq n -> no_max_seq (note_files n ops) = Z.max (no_max_seq n) (seq_max ops).
Proof.
  intros Hn. induction ops as [|p ops IH]; [cbn; lia|]. cbn [note_files foldr]. fold (note_files n ops).
  destruct (note_all_max p.1 p.2 (note_files n ops)) as [-> |Hlt].
  - rewrite IH, seq_max_cons. lia.
  - rewrite IH in Hlt. lia.
Qed.

Lemma note_all_stats f es n f' :
  no_stats (note_all note f es n) !! f'
  = if decide (f' = f /\ es <> []) then Some (foldl note_stats (default FileStats_zero (no_stats n !! f)) es) else no_stats n !! f'.
Proof.
  unfold note_all. revert n. induction es as [|he es IH]; intros n; cbn [foldl].
  { by rewrite decide_False by naive_solver. }
  rewrite IH. unfold note at 1 2. cbn [no_stats]. rewrite lookup_insert_eq. cbn [default].
  destruct (decide (f' = f)) as [->|Hf].
  - rewrite (decide_True (P := f = f /\ he :: es <> [])) by done. destruct es as [|he' es].
    + rewrite decide_False by naive_solver. cbn [no_stats note]. by rewrite lookup_insert_eq.
    + by rewrite decide_True by done.
  - rewrite !decide_False by naive_solver. cbn [no_stats note]. by rewrite lookup_insert_ne.
Qed.

Lemma note_files_other ops n f : f ∉ ops.*1 -> no_stats (note_files n ops) !! f = no_stats n !! f.
Proof.
  induction ops as [|[f1 es1] ops IH]; intros Hf; [done|]. cbn [note_files foldr fst snd]. fold (note_files n ops).
  cbn [fmap list_fmap fst] in Hf. rewrite not_elem_of_cons in Hf. rewrite note_all_stats, decide_False by naive_solver.
  apply IH. naive_solver.
Qed.

Lemma note_files_stats ops n f es :
  NoDup ops.*1 -> (f, es) ∈ ops -> is_Some (no_stats n !! f) ->
  no_stats (note_files n ops) !! f = Some (foldl note_stats (default FileStats_zero (no_stats n !! f)) es).
Proof.
  intros Hn. induction ops as [|[f0 es0] ops IH]; [set_solver|]. cbn [fmap list_fmap fst] in Hn. apply NoDup_cons in Hn as [Hf0 Hn].
  cbn [note_files foldr fst snd]. fold (note_files n ops). rewrite note_all_stats.
  intros [E|Hin]%elem_of_cons [fs Hfs].
  - injection E as -> ->. rewrite (note_files_other ops n f0 Hf0), Hfs. destruct es0 as [|he es0].
    + by rewrite decide_False by naive_solver.
    + by rewrite decide_True by done.
  - rewrite decide_False; [apply IH; [done|done|by exists fs]|]. intros [-> _]. apply Hf0.
    by apply (list_elem_of_fmap_2' fst _ (f0, es)).
Qed.

Lemma note_files_note f a n ops :
  f ∉ ops.*1 -> note_files (note_all note f a n) ops = note_all note f a (note_files n ops).
Proof.
  induction ops as [|[f1 es1] ops IH]; intros Hf; [done|]. cbn [note_files foldr fst snd fmap list_fmap] in *.
  rewrite not_elem_of_cons in Hf. fold (note_files (note_all note f a n) ops). fold (note_files n ops).
  rewrite IH by naive_solver. apply note_all_comm; [apply note_comm|naive_solver].
Qed.

(** ** recovery_build_sorted *)

Lemma nodup_fmap_eq {A B} (g : A -> B) l x y : NoDup (g <$> l) -> x ∈ l -> y ∈ l -> g x = g y -> x = y.
Proof.
  intros Hn Hx Hy E. apply list_elem_of_lookup in Hx as [i Hi], Hy as [j Hj].
  assert (i = j) by (eapply NoDup_lookup; [exact Hn|rewrite list_lookup_fmap, Hi; done|rewrite list_lookup_fmap, Hj; cbn; by rewrite E]).
  congruence.
Qed.

Section worker.
Context `{Zstd} `{Crc32c} (strict : bool) (P : Disk -> Prop).
Context (hints : RecoveredFile -> option (list HintEntry.HintEntry)).

(** In a directory that satisfies [P] the file's hint opens to those entries,
    or the file is skipped. *)
Definition opens (f : RecoveredFile) : Prop :=
  forall d, P d -> exists d', P d'
    /\ match hints f with
       | Some es => exists sc, open_hint_or_skip (rf_data_file f) (rf_hint_path f) strict d = (Ok (Some sc), d')
                      /\ scan_ok sc /\ (hs_entries sc).*2 = es /\ sorted_hint es
       | None => open_hint_or_skip (rf_data_file f) (rf_hint_path f) strict d = (Ok None, d')
       end.

Definition is_skipped (f : RecoveredFile) : bool := match hints f with Some _ => false | None => true end.

Lemma opened_files f files : f ∈ (opened hints files).*1 -> f ∈ rf_file_id <$> files.
Proof.
  intros Hf. apply list_elem_of_fmap in Hf as ([f' es] & -> & Hin). unfold opened in Hin.
  apply list_elem_of_omap in Hin as (x & Hx & E). destruct (hints x); [|done]. injection E as <- <-.
  by apply (list_elem_of_fmap_2' rf_file_id _ x).
Qed.

Lemma opened_nodup files : NoDup (rf_file_id <$> files) -> NoDup (opened hints files).*1.
Proof.
  intros Hn. eapply sublist_NoDup; [exact Hn|]. unfold opened. clear.
  induction files as [|f files IH]; [done|]. cbn. destruct (hints f); cbn; by constructor.
Qed.

Lemma read_heads_spec files h n d :
  Forall opens files -> NoDup (rf_file_id <$> files) -> P d ->
  let ops := opened hints files in
  exists d' cs n', read_heads strict files h n d
      = (Ok (mkHeads (hd_ranges h ++ all_ranges ops) (hd_markers h ++ all_markers ops)
               (hd_skipped h || existsb is_skipped files) (hd_cursors h ++ cs), n'), d')
    /\ P d' /\ Forall cursor_ok cs /\ (fun c => (cu_file_id c, to_come c)) <$> cs = hint_runs ops
    /\ finish note n' cs = note_files n ops.
Proof.
  intros Hf. revert h n d. induction Hf as [|f files Ho Hf IH]; intros h n d Hn Hd.
  { exists d, [], n. cbn. destruct h. cbn. rewrite !app_nil_r, orb_false_r. done. }
  cbn [fmap list_fmap] in Hn. apply NoDup_cons in Hn as [Hf0 Hn].
  destruct (Ho d Hd) as (d1 & Hd1 & Hm). cbn [read_heads]. unfold mbind at 1, io_bind at 1.
  unfold opened. cbn [omap list_omap]. destruct (hints f) as [es|] eqn:Eh; cbn [fmap option_fmap option_map].
  - destruct Hm as (sc & Eo & [_ Herr] & Hes & Hsort). rewrite Eo, Hes, Herr.
    destruct (sorted_hint_split es Hsort) as (head & run & Ees & S1 & S2 & S3 & S4 & S5 & S6).
    destruct (read_head_spec (rf_file_id f) head run (hd_ranges h) (hd_markers h) n S1 S2 S3) as (c & cons & E & C1 & C2 & C3 & C4).
    rewrite Ees, E. destruct (IH (mkHeads (hd_ranges h ++ hint_ranges (rf_file_id f) head) (hd_markers h ++ hint_markers head)
      (hd_skipped h) (hd_cursors h ++ [c])) (note_all note (rf_file_id f) cons n) d1 Hn Hd1)
      as (d' & cs & n' & E' & Hd' & I1 & I2 & I3).
    exists d', (c :: cs), n'. cbn [hd_ranges hd_markers hd_skipped hd_cursors] in E'. rewrite E'.
    split_and!; try done.
    + unfold all_ranges, all_markers, is_skipped. cbn [fmap list_fmap concat fst snd existsb]. rewrite Eh, <-Ees, S5, S6, <-!app_assoc. done.
    + by constructor.
    + cbn [fmap list_fmap hint_runs fst snd]. rewrite I2, C1, C3, <-Ees, S4. done.
    + cbn [finish foldr note_files fst snd]. fold (finish note n' cs). rewrite I3.
      fold (note_files n (omap (fun f => (fun es => (rf_file_id f, es)) <$> hints f) files)).
      fold (opened hints files). rewrite note_files_note by (intros Hx%opened_files; done).
      rewrite C1, C4, note_all_app. done.
  - rewrite Hm. destruct (IH (mkHeads (hd_ranges h) (hd_markers h) true (hd_cursors h)) n d1 Hn Hd1)
      as (d' & cs & n' & E' & Hd' & I1 & I2 & I3).
    exists d', cs, n'. cbn [hd_ranges hd_markers hd_skipped hd_cursors] in E'. rewrite E'. cbn [existsb].
    replace (is_skipped f) with true by (unfold is_skipped; by rewrite Eh). rewrite orb_true_r. by split_and!.
Qed.

Lemma runs_pack_packs ls tr : runs_pack ls -> trace_of ls tr -> packs tr.
Proof.
  intros Hp T k ms Hk. destruct (tr_match _ _ T k ms Hk) as [Hne _].
  assert (Hin : forall r f, (r, f) ∈ ms -> size k <= kBTreeMaxKeyBytes /\ exists e, record_entry r f = Ok e).
  { intros r f Hr. destruct (Hp k r f) as [? Hpk]; [by apply (trace_lookup ls tr k ms)|]. split; [done|].
    destruct (KeyDirEntry.make_fields _ _ _ _ Hpk) as (e & He & _). by exists e. }
  split_and!; [done| |intros r f Hr; by apply Hin]. destruct ms as [|[r f] ms]; [done|]. apply (Hin r f). by left.
Qed.

Lemma slice_left_none (cs : list Cursor) : slice_left None <$> cs = (fun c => (cu_file_id c, to_come c)) <$> cs.
Proof.
  apply list_fmap_ext. intros i c _. unfold slice_left, in_slice. f_equal. clear.
  induction (to_come c) as [|r l IH]; [done|]. by rewrite filter_cons, decide_True, IH by done.
Qed.

Lemma merge_runs_spec h n :
  Forall cursor_ok (hd_cursors h) -> NoDup (cu_file_id <$> hd_cursors h) ->
  let ls := (fun c => (cu_file_id c, to_come c)) <$> hd_cursors h in
  runs_pack ls ->
  exists tr, trace_of ls tr /\ packs tr
    /\ merge_runs h n = (Ok (merge_all tr (mkMerged [] ∅ (hd_ranges h) [])), finish note n (hd_cursors h)).
Proof.
  intros Hok Hn ls Hp.
  destruct (load_all_spec note kUnsortedBuild note_comm None (hd_cursors h) n Hok Hn) as (cs' & n' & L1 & L2 & L3).
  destruct (loaded_heap None _ _ L2) as (gl & em & G1 & G2 & G3 & G4 & _). rewrite slice_left_none in G3.
  pose proof (finish_filter n' _ _ [] L2) as Hfin. rewrite !app_nil_r in Hfin.
  assert (Hnd : NoDup (cu_file_id <$> gl.*1)).
  { rewrite <-G1. pose proof (nodup_filter (fun c => has_cur c = true) cs' []) as X. rewrite !app_nil_r in X. apply X.
    by rewrite (loaded_files _ _ _ L2). }
  destruct (merge_sorted_spec (cursors_left gl.*1) gl (mkMerged [] ∅ (hd_ranges h) []) n' G2 Hnd ltac:(lia)) as (tr & T & E).
  assert (T' : trace_of ls tr) by (apply (trace_of_perm (em ++ runs_of gl)); [done|by apply trace_of_empties]).
  pose proof (runs_pack_packs ls tr Hp T') as Hpk. rewrite (run_merge_ok tr _ Hpk) in E.
  exists tr. split_and!; [done|done|]. unfold merge_runs, mbind, io_bind. change (fun _ : bytes => true) with (below None).
  rewrite L1, G1, E. f_equal. rewrite <-G1, Hfin. specialize (L3 []). rewrite !app_nil_r in L3. by apply L3.
Qed.

(** What a worker's part says of its files. *)
Record part_ok (files : list RecoveredFile) (rr : RecoveryResult) : Prop := {
  pa_sorted : StronglySorted key_lt (rr_key_dir rr).*1;
  pa_entries : forall k e, (k, e) ∈ rr_key_dir rr <-> newest_put (hint_runs (opened hints files)) (all_ranges (opened hints files)) k e;
  pa_tombs : tombs_of (hint_runs (opened hints files)) (rr_tombstones rr);
  pa_ranges : Forall2 (fun rt rt' => same_range rt rt' /\ (rt_needed rt' = true <-> range_needed (hint_runs (opened hints files)) rt))
       (all_ranges (opened hints files)) (rr_range_tombstones rr);
  pa_needed : forall s, s ∈ rr_needed rr <-> point_needed (hint_runs (opened hints files)) s;
  pa_max : rr_max_seq rr = seq_max (opened hints files);
  pa_stats : rr_file_stats rr = list_to_map ((fun f => (rf_file_id f,
       foldl note_stats (initial_stats (rf_total_bytes f)) (default [] (hints f)))) <$> files);
  pa_skipped : rr_skipped rr = existsb is_skipped files;
  pa_markers : rr_markers rr = all_markers (opened hints files)
}.

Definition hint_stats (f : RecoveredFile) : FileStats :=
  foldl note_stats (initial_stats (rf_total_bytes f)) (default [] (hints f)).

Lemma part_stats files :
  NoDup (rf_file_id <$> files) ->
  no_stats (note_files (mkNoted 0 (list_to_map ((fun f => (rf_file_id f, initial_stats (rf_total_bytes f))) <$> files))) (opened hints files))
  = list_to_map ((fun f => (rf_file_id f, hint_stats f)) <$> files).
Proof.
  intros Hn. apply map_eq. intros id.
  assert (Hk : forall g : RecoveredFile -> FileStats, ((fun f => (rf_file_id f, g f)) <$> files).*1 = rf_file_id <$> files).
  { intros g. rewrite <-list_fmap_compose. done. }
  assert (Hl : forall (g : RecoveredFile -> FileStats) f, f ∈ files ->
    (list_to_map ((fun f => (rf_file_id f, g f)) <$> files) : gmap Z FileStats) !! rf_file_id f = Some (g f)).
  { intros g f Hf. apply elem_of_list_to_map; [by rewrite Hk|]. by apply (list_elem_of_fmap_2' (fun f => (rf_file_id f, g f)) _ f). }
  destruct (decide (id ∈ rf_file_id <$> files)) as [Hid|Hid].
  - apply list_elem_of_fmap in Hid as (f & -> & Hf). rewrite (Hl hint_stats f Hf). unfold hint_stats.
    destruct (hints f) as [es|] eqn:Eh.
    + rewrite (note_files_stats _ _ _ es); cbn [no_stats]; rewrite ?(Hl (fun f => initial_stats (rf_total_bytes f)) f Hf); try done.
      * by apply opened_nodup.
      * unfold opened. apply list_elem_of_omap. exists f. by rewrite Eh.
    + rewrite note_files_other; cbn [no_stats]; [by apply (Hl (fun f => initial_stats (rf_total_bytes f)))|].
      intros Hin. apply list_elem_of_fmap in Hin as ([id' es] & E & Hin). unfold opened in Hin. apply list_elem_of_omap in Hin as (x & Hx & Ex).
      destruct (hints x) as [es'|] eqn:Ehx; [|done]. injection Ex as <- <-. cbn [fst] in E.
      assert (x = f) by (by apply (nodup_fmap_eq rf_file_id files)). subst x. by rewrite Eh in Ehx.
  - rewrite note_files_other by (intros Hx%opened_files; done). cbn [no_stats].
    rewrite !not_elem_of_list_to_map_1; [done| |]; by rewrite Hk.
Qed.

Lemma build_sorted_spec files d :
  Forall opens files -> NoDup (rf_file_id <$> files) -> P d ->
  runs_pack (hint_runs (opened hints files)) -> distinct_newest (hint_runs (opened hints files)) ->
  positive_runs (hint_runs (opened hints files)) ->
  exists rr d', recovery_build_sorted strict files d = (Ok rr, d') /\ P d' /\ part_ok files rr.
Proof.
  intros Hf Hn Hd Hp Hdn Hpos. set (ls := hint_runs (opened hints files)) in *.
  set (n0 := mkNoted 0 (list_to_map ((fun f => (rf_file_id f, initial_stats (rf_total_bytes f))) <$> files))).
  destruct (read_heads_spec files (mkHeads [] [] false []) n0 d Hf Hn Hd) as (d' & cs & n' & E & Hd' & Hok & Hcs & Hfin).
  cbn [hd_ranges hd_markers hd_skipped hd_cursors app orb] in E.
  set (h := mkHeads (all_ranges (opened hints files)) (all_markers (opened hints files)) (existsb is_skipped files) cs) in E.
  assert (Hnc : NoDup (cu_file_id <$> cs)).
  { replace (cu_file_id <$> cs) with (opened hints files).*1; [by apply opened_nodup|].
    transitivity ((fun c => (cu_file_id c, to_come c)) <$> cs).*1; [rewrite Hcs; unfold hint_runs|];
      rewrite <-list_fmap_compose; done. }
  destruct (merge_runs_spec h n' Hok Hnc) as (tr & T & Hpk & Em); [cbn [h hd_cursors]; by rewrite Hcs|].
  cbn [h hd_cursors hd_ranges] in T, Em. rewrite Hcs in T. rewrite Hfin in Em.
  eexists _, d'. unfold recovery_build_sorted, mbind, io_bind, mret, io_ret. fold n0. rewrite E, Em.
  split_and!; [reflexivity|done|]. destruct (merged_out ls tr (all_ranges (opened hints files)) T Hdn Hpk) as [O1 O2].
  split; cbn [merge_all mg_out mg_tombstones mg_ranges mg_needed rr_key_dir rr_tombstones rr_range_tombstones rr_max_seq rr_file_stats
    rr_needed rr_skipped rr_markers h hd_skipped hd_markers app].
  - exact O1.
  - exact O2.
  - by apply merged_tombs.
  - apply Forall2_fmap_r, Forall_Forall2_diag, Forall_forall. intros rt Hrt.
    destruct (mark_trace_spec ls tr rt T) as [M1 M2]. split; [done|]. rewrite M2. split; [|by right].
    intros [Hb|?]; [|done]. exfalso. revert Hrt Hb. clear. intros Hrt Hb. unfold all_ranges in Hrt. apply list_elem_of_concat in Hrt as (l & Hrt & Hl).
    apply list_elem_of_fmap in Hl as (p & -> & _). unfold hint_ranges in Hrt. apply list_elem_of_omap in Hrt as (he & _ & Ehe).
    destruct (decide _); [|done]. by injection Ehe as <-.
  - intros s. by apply merged_needed.
  - rewrite note_files_max by (cbn; lia). cbn [n0 no_max_seq]. unfold seq_max. pose proof (foldr_max_nonneg (HintEntry.sequence <$> concat (opened hints files).*2)). lia.
  - by apply part_stats.
  - done.
  - done.
Qed.
End worker.
