(* ===== verification/RangedProofs.v ===== *)
(** * The range-by-range merge of the parts

    [recovery_load_ranged] merges the trees its workers built, one key range at
    a time.  This file shows that a range merge visits every key of its slice
    once, in order, with all the parts' entries for it; that the winner kept is
    the newest Put over all the files; and that the slices put together are
    the whole key directory, whatever the splitters. *)

From S2P Require Import Prelude Codec HintFile KeyDir DataFile EngineState EngineProofs Hints Recovery Merging BuildProofs.
Import Serialization Types Stats Dir.

Abbreviation klist := (list (bytes * KeyDirEntry)).

(** The parts' entries for a key. *)
Definition in_run {A} (k : bytes) (c : list (bytes * A)) : option A := (list_to_map c : gmap bytes A) !! k.

Definition on (k : bytes) (cs : list klist) : list KeyDirEntry := omap (in_run k) cs.

Definition sorted_run {A} (c : list (bytes * A)) : Prop := StronglySorted key_lt c.*1.

(** The keys of the cursors, in order, with their entries. *)
Record ktrace (cs : list klist) (tr : list (bytes * list KeyDirEntry)) : Prop := {
  kt_sorted : StronglySorted key_lt tr.*1;
  kt_on : forall k es, (k, es) ∈ tr -> es = on k cs /\ es <> [];
  kt_all : forall k, on k cs <> [] -> k ∈ tr.*1
}.

Lemma sorted_run_nodup {A} (c : list (bytes * A)) : sorted_run c -> NoDup c.*1.
Proof.
  unfold sorted_run. induction 1 as [|k l Hs IH Hf]; [constructor|]. constructor; [|done].
  rewrite Forall_forall in Hf. intros Hin. by destruct (key_lt_irrefl k (Hf k Hin)).
Qed.

Lemma in_run_elem {A} (c : list (bytes * A)) k e : sorted_run c -> in_run k c = Some e <-> (k, e) ∈ c.
Proof. intros Hs. symmetry. apply elem_of_list_to_map, sorted_run_nodup, Hs. Qed.

Lemma in_run_cons {A} k0 e0 (c : list (bytes * A)) k :
  sorted_run ((k0, e0) :: c) -> in_run k ((k0, e0) :: c) = if decide (k = k0) then Some e0 else in_run k c.
Proof.
  intros _. unfold in_run. cbn [list_to_map foldr fst snd]. destruct (decide (k = k0)) as [->|Hk].
  - apply lookup_insert_eq.
  - by rewrite lookup_insert_ne.
Qed.

(** A sorted run holds no key below its first. *)
Lemma in_run_below {A} k0 e0 (c : list (bytes * A)) k : sorted_run ((k0, e0) :: c) -> key_le k k0 -> in_run k c = None.
Proof.
  intros Hs Hk. apply StronglySorted_inv in Hs as [Hs Hf]. destruct (in_run k c) as [e|] eqn:E; [|done].
  apply (in_run_elem c k e Hs) in E. rewrite Forall_forall in Hf. specialize (Hf k).
  assert (key_lt k0 k) as Hlt by (apply Hf; by apply (list_elem_of_fmap_2' fst _ (k, e))).
  apply key_le_lteq in Hk as [Hk| ->]; [|by destruct (key_lt_irrefl _ Hlt)].
  by destruct (key_lt_irrefl _ (key_lt_trans _ _ _ Hk Hlt)).
Qed.

Lemma elem_of_on k cs e : e ∈ on k cs <-> exists c, c ∈ cs /\ in_run k c = Some e.
Proof. apply list_elem_of_omap. Qed.

Lemma on_nonempty k cs : on k cs <> [] <-> exists e, e ∈ on k cs.
Proof.
  split.
  - destruct (on k cs) as [|e es]; [done|]. intros _. exists e. by left.
  - intros [e He] E. rewrite E in He. by apply elem_of_nil in He.
Qed.

(** ** The merge visits the keys in order *)

Definition least_step (best : option bytes) (c : klist) : option bytes :=
  match c with
  | [] => best
  | (k, _) :: _ => match best with Some b => if key_ltb k b then Some k else best | None => Some k end
  end.

Lemma least_fold cs best :
  match foldl least_step best cs with
  | None => best = None /\ Forall (fun c => c = []) cs
  | Some k => (best = Some k \/ exists e c, (k, e) :: c ∈ cs)
      /\ (forall b, best = Some b -> key_le k b) /\ (forall k' e c, (k', e) :: c ∈ cs -> key_le k k')
  end.
Proof.
  revert best. induction cs as [|c cs IH]; intros best.
  { cbn. destruct best as [b|]; [|done]. split_and!; [by left| |set_solver]. intros b' [= ->]. apply key_le_lteq. by right. }
  cbn [foldl]. specialize (IH (least_step best c)). destruct (foldl least_step (least_step best c) cs) as [k|].
  - destruct IH as (I1 & I2 & I3). destruct c as [|[k0 e0] c]; cbn [least_step] in *.
    { split_and!; [set_solver|done|set_solver]. }
    assert (Hk0 : key_le k k0 /\ forall b, best = Some b -> key_le k b).
    { destruct best as [b|]; [|split; [by apply I2|done]]. destruct (key_ltb k0 b) eqn:E.
      - specialize (I2 _ eq_refl). split; [done|]. intros b' [= <-]. apply key_ltb_spec in E. transitivity k0; [done|]. apply key_le_lteq. by left.
      - specialize (I2 _ eq_refl). split; [|by intros b' [= <-]]. transitivity b; [done|].
        apply key_leb_spec. by rewrite key_leb_ltb, E. }
    destruct Hk0 as [Hk0 Hb]. split_and!; [|done|].
    + destruct I1 as [I1|(e & c' & Hin)]; [|right; exists e, c'; by right].
      destruct best as [b|]; [destruct (key_ltb k0 b)|]; injection I1 as <-; [right; exists e0, c; by left|by left|right; exists e0, c; by left].
    + intros k' e c' [E|Hin]%elem_of_cons; [injection E as -> -> ->; done|by eapply I3].
  - destruct IH as [I1 I2]. destruct c as [|[k0 e0] c]; cbn [least_step] in I1.
    + split; [done|by constructor].
    + by destruct best as [b|]; [destruct (key_ltb k0 b)|].
Qed.

Lemma least_key_some cs k :
  Forall sorted_run cs -> least_key cs = Some k -> on k cs <> [] /\ forall k', on k' cs <> [] -> key_le k k'.
Proof.
  intros Hs E. pose proof (least_fold cs None) as L. unfold least_key in E. fold least_step in E. rewrite E in L.
  destruct L as ([?|(e & c & Hin)] & _ & L); [done|]. rewrite Forall_forall in Hs. split.
  - apply on_nonempty. exists e. apply elem_of_on. exists ((k, e) :: c). split; [done|].
    rewrite in_run_cons by (by apply Hs). by rewrite decide_True.
  - intros k' [e' He']%on_nonempty. apply elem_of_on in He' as ([|[k0 e0] c0] & Hc0 & Hr); [done|].
    pose proof (L _ _ _ Hc0) as Hk0. destruct (decide (key_le k' k0)) as [Hle|Hle].
    + rewrite in_run_cons in Hr by (by apply Hs). destruct (decide (k' = k0)) as [->|_]; [done|].
      rewrite (in_run_below k0 e0) in Hr; [done|by apply Hs|done].
    + transitivity k0; [done|]. destruct (total key_le k0 k'); done.
Qed.

Lemma least_key_none cs : least_key cs = None -> forall k, on k cs = [].
Proof.
  intros E k. pose proof (least_fold cs None) as L. unfold least_key in E. fold least_step in E. rewrite E in L.
  destruct L as [_ L]. clear E. unfold on. induction L as [|c cs -> L IH]; [done|]. exact IH.
Qed.

Lemma entries_on_least k cs :
  Forall sorted_run cs -> (forall k', on k' cs <> [] -> key_le k k') -> entries_on k cs = on k cs.
Proof.
  intros Hs. unfold entries_on, on. intros Hk. apply list_omap_ext, Forall_Forall2_diag, Forall_forall. intros c Hc.
  rewrite Forall_forall in Hs. specialize (Hs c Hc). destruct c as [|[k0 e0] c]; [done|].
  rewrite in_run_cons by done. destruct (decide (k = k0)) as [<-|Hne]; [by rewrite bool_decide_eq_true_2|].
  rewrite bool_decide_eq_false_2 by done. symmetry. eapply in_run_below; [done|]. apply Hk, on_nonempty. exists e0.
  apply elem_of_on. exists ((k0, e0) :: c). split; [done|]. rewrite in_run_cons by done. by rewrite decide_True.
Qed.

Lemma advance_on_least k cs :
  Forall sorted_run cs -> (forall k', on k' cs <> [] -> key_le k k') ->
  Forall sorted_run (advance_on k cs) /\ forall k', on k' (advance_on k cs) = if decide (k' = k) then [] else on k' cs.
Proof.
  intros Hs Hk. split.
  { unfold advance_on. apply Forall_fmap. eapply Forall_impl; [exact Hs|]. intros [|[k0 e0] c] Hc; [done|]. cbn.
    destruct (bool_decide _); [|done]. by apply StronglySorted_inv in Hc as [? _]. }
  assert (Hk0 : forall k0 e0 c, (k0, e0) :: c ∈ cs -> sorted_run ((k0, e0) :: c) /\ key_le k k0).
  { rewrite Forall_forall in Hs. intros k0 e0 c Hin. split; [by apply Hs|]. apply Hk, on_nonempty. exists e0. apply elem_of_on.
    exists ((k0, e0) :: c). split; [done|]. rewrite in_run_cons by (by apply Hs). by rewrite decide_True. }
  clear Hs Hk. intros k'. unfold on, advance_on. induction cs as [|c cs IH]; [by destruct (decide _)|].
  cbn [fmap list_fmap omap list_omap].
  replace (in_run k' (match c with (k0, _) :: c' => if bool_decide (k0 = k) then c' else c | [] => c end))
    with (if decide (k' = k) then None else in_run k' c).
  - unfold on, advance_on in IH. rewrite IH by (intros; apply Hk0 with (e0 := e0); by right). destruct (decide (k' = k)); [done|]. done.
  - destruct c as [|[k0 e0] c]; [by destruct (decide _)|]. destruct (Hk0 k0 e0 c ltac:(left)) as [Hs Hle].
    rewrite in_run_cons by done. destruct (decide (k0 = k)) as [->|Hne].
    + rewrite bool_decide_eq_true_2 by done. destruct (decide (k' = k)) as [->|Hk']; [|done]. symmetry. by eapply in_run_below.
    + rewrite bool_decide_eq_false_2 by done. destruct (decide (k' = k)) as [->|Hk'].
      * rewrite in_run_cons by done. rewrite decide_False by congruence. symmetry. by eapply in_run_below.
      * by rewrite in_run_cons.
Qed.

(** The walk over the tombstones keeps step with the keys. *)
Lemma skip_tombs_spec k tombs :
  sorted_run tombs ->
  sorted_run (skip_tombs k tombs) /\ tomb_on k (skip_tombs k tombs) = in_run k tombs
  /\ forall k', key_le k k' -> in_run k' (skip_tombs k tombs) = in_run k' tombs.
Proof.
  induction tombs as [|[k0 t0] tombs IH]; intros Hs; [done|]. cbn [skip_tombs]. pose proof Hs as Hs0.
  apply StronglySorted_inv in Hs0 as [Hs' _]. destruct (key_ltb k0 k) eqn:E.
  - apply key_ltb_spec in E. destruct (IH Hs') as (I1 & I2 & I3). split_and!; [done| |].
    + rewrite in_run_cons, decide_False by (done || (intros ->; by apply key_lt_irrefl in E)). done.
    + intros k' Hk'. rewrite in_run_cons, I3 by done. rewrite decide_False; [done|]. intros ->.
      apply key_le_lteq in Hk' as [Hk'| ->]; [by destruct (key_lt_irrefl _ (key_lt_trans _ _ _ E Hk'))|by apply key_lt_irrefl in E].
  - split_and!; try done. cbn [tomb_on]. rewrite in_run_cons by done.
    assert (Hle : key_le k k0) by (apply key_leb_spec; by rewrite key_leb_ltb, E).
    destruct (decide (k = k0)) as [->|Hne]; [by rewrite bool_decide_eq_true_2|].
    rewrite bool_decide_eq_false_2 by done. symmetry. by eapply in_run_below.
Qed.

(** What a range merge does, key by key. *)
Fixpoint range_fold (rts : list (nat * RangeTombstone)) (T : gmap bytes PointTombstone)
    (tr : list (bytes * list KeyDirEntry)) (o : RangeOut) : result RangeOut :=
  match tr with
  | [] => Ok o
  | (k, []) :: tr => range_fold rts T tr o
  | (k, best :: others) :: tr =>
      winner ← newest_entry best others;
      o ← range_key rts k (T !! k) (best :: others) winner o;
      range_fold rts T tr o
  end.

Lemma ktrace_nil cs : (forall k, on k cs = []) -> ktrace cs [].
Proof. intros Hk. split; [constructor|set_solver|]. intros k Ho. by rewrite Hk in Ho. Qed.

Lemma ktrace_cons k cs tr :
  Forall sorted_run cs -> on k cs <> [] -> (forall k', on k' cs <> [] -> key_le k k') ->
  ktrace (advance_on k cs) tr -> ktrace cs ((k, on k cs) :: tr).
Proof.
  intros Hs Hne Hk [T1 T2 T3]. destruct (advance_on_least k cs Hs Hk) as [_ Ha].
  assert (Hin : forall k' es, (k', es) ∈ tr -> k' <> k /\ es = on k' cs /\ es <> []).
  { intros k' es Hin. destruct (T2 k' es Hin) as [-> Hn]. rewrite Ha in Hn |- *. by destruct (decide (k' = k)). }
  split.
  - cbn [fmap list_fmap fst]. constructor; [done|]. apply Forall_fmap, Forall_forall. intros [k' es] Hin'.
    destruct (Hin _ _ Hin') as (Hk' & -> & Hn). cbn. specialize (Hk k' Hn). apply key_le_lteq in Hk as [?|?]; [done|congruence].
  - intros k' es [E|Hin']%elem_of_cons; [injection E as -> ->; done|]. by destruct (Hin _ _ Hin') as (_ & ? & ?).
  - intros k' Hn. cbn [fmap list_fmap fst]. destruct (decide (k' = k)) as [->|Hk']; [left|]. right. apply T3.
    rewrite Ha. by rewrite decide_False.
Qed.

Lemma advance_on_length k cs :
  on k cs <> [] -> entries_on k cs = on k cs -> (sum_list (length <$> advance_on k cs) < sum_list (length <$> cs))%nat.
Proof.
  intros Hne E. rewrite <-E in Hne. clear E. unfold entries_on, advance_on in *.
  assert (Hle : forall cs' : list klist, (sum_list (length <$> advance_on k cs') <= sum_list (length <$> cs'))%nat).
  { intros cs'. unfold advance_on. induction cs' as [|c cs' IH]; [done|]. cbn. destruct c as [|[k0 e0] c]; cbn; [done|].
    destruct (bool_decide _); cbn in *; lia. }
  induction cs as [|c cs IH]; [done|]. cbn [omap list_omap fmap list_fmap sum_list_with] in *. specialize (Hle cs). unfold advance_on in Hle.
  destruct c as [|[k0 e0] c]; [specialize (IH Hne); cbn in *; lia|]. cbn in Hne |- *. destruct (bool_decide (k0 = k)); cbn in *; [lia|]. specialize (IH Hne). lia.
Qed.

Lemma range_merge_spec fuel rts cs tombs T o :
  Forall sorted_run cs -> sorted_run tombs -> (forall k, on k cs <> [] -> in_run k tombs = T !! k) ->
  (sum_list (length <$> cs) <= fuel)%nat ->
  exists tr, ktrace cs tr /\ range_merge fuel rts cs tombs o = range_fold rts T tr o.
Proof.
  revert cs tombs T o. induction fuel as [|fuel IH]; intros cs tombs T o Hs Ht HT Hf.
  { exists []. split; [|done]. apply ktrace_nil. intros k. unfold on. induction cs as [|c cs IHc]; [done|].
    cbn in Hf. destruct c; [|cbn in Hf; lia]. apply IHc; [by apply Forall_inv_tail in Hs|done|exact Hf]. }
  cbn [range_merge]. destruct (least_key cs) as [k|] eqn:El.
  2:{ exists []. split; [|done]. by apply ktrace_nil, least_key_none. }
  destruct (least_key_some cs k Hs El) as [Hne Hk]. pose proof (entries_on_least k cs Hs Hk) as He.
  destruct (advance_on_least k cs Hs Hk) as [Ha1 Ha2]. destruct (skip_tombs_spec k tombs Ht) as (S1 & S2 & S3).
  pose proof (advance_on_length k cs Hne He) as Hlt.
  assert (HT' : forall k', on k' (advance_on k cs) <> [] -> in_run k' (skip_tombs k tombs) = T !! k').
  { intros k' Hn. rewrite Ha2 in Hn. destruct (decide (k' = k)); [done|]. rewrite S3 by (by apply Hk). by apply HT. }
  rewrite He. destruct (on k cs) as [|best others] eqn:Eo; [done|].
  set (o' := match (w ← newest_entry best others; range_key rts k (T !! k) (best :: others) w o) with Ok o' => o' | Err _ => o end).
  destruct (IH (advance_on k cs) (skip_tombs k tombs) T o' Ha1 S1 HT' ltac:(lia)) as (tr & Tr & E).
  exists ((k, on k cs) :: tr). split; [apply ktrace_cons; [done|by rewrite Eo|done|done]|].
  rewrite Eo. cbn [range_fold]. rewrite S2, HT by (by rewrite Eo). unfold o' in E. destruct (newest_entry best others) as [w|ex]; [|done].
  cbn [mbind result_bind] in E |- *. by destruct (range_key rts k (T !! k) (best :: others) w o).
Qed.

(** ** What it keeps *)

Definition newest_of (best : KeyDirEntry) (others : list KeyDirEntry) : KeyDirEntry :=
  foldl (fun w e => if KeyDirEntry.sequence w <? KeyDirEntry.sequence e then e else w) best others.

Lemma newest_of_in best others : newest_of best others ∈ best :: others.
Proof.
  unfold newest_of. revert best. induction others as [|e others IH]; intros best; cbn [foldl]; [by left|].
  specialize (IH (if KeyDirEntry.sequence best <? KeyDirEntry.sequence e then e else best)). apply elem_of_cons in IH as [E|IH].
  - rewrite E. destruct (KeyDirEntry.sequence best <? KeyDirEntry.sequence e); [right|]; left.
  - by do 2 right.
Qed.

Lemma newest_of_max best others e :
  e ∈ best :: others -> KeyDirEntry.sequence e <= KeyDirEntry.sequence (newest_of best others).
Proof.
  unfold newest_of. revert best e. induction others as [|e0 others IH]; intros best e; cbn [foldl].
  { intros ->%list_elem_of_singleton. done. }
  set (b := if _ <? _ then e0 else best).
  assert (Hb : KeyDirEntry.sequence best <= KeyDirEntry.sequence b /\ KeyDirEntry.sequence e0 <= KeyDirEntry.sequence b).
  { unfold b. destruct (Z.ltb_spec (KeyDirEntry.sequence best) (KeyDirEntry.sequence e0)); lia. }
  pose proof (IH b b ltac:(left)) as Hbb.
  rewrite !elem_of_cons. intros [->|[->|Hin]]; [lia|lia|]. apply IH. by right.
Qed.

(** Entries that are one if they share a sequence. *)
Definition one_per_seq (es : list KeyDirEntry) : Prop :=
  forall e e', e ∈ es -> e' ∈ es -> KeyDirEntry.sequence e = KeyDirEntry.sequence e' -> e = e'.

Lemma newest_entry_ok best others :
  one_per_seq (best :: others) -> newest_entry best others = Ok (newest_of best others).
Proof.
  revert best. induction others as [|e others IH]; intros best Ho; [done|]. cbn [newest_entry].
  assert (E : kde_newer e best = Ok (KeyDirEntry.sequence best <? KeyDirEntry.sequence e)).
  { unfold kde_newer. destruct (Z.eqb_spec (KeyDirEntry.sequence e) (KeyDirEntry.sequence best)) as [Heq|Hne]; [|done].
    rewrite (Ho e best) by (done || set_solver). rewrite !Z.eqb_refl, Z.ltb_irrefl. done. }
  rewrite E. cbn [mbind result_bind]. rewrite IH; [done|]. intros a b Ha Hb. apply Ho; destruct (_ <? _); set_solver.
Qed.

Definition range_dropped (rts : list (nat * RangeTombstone)) (T : gmap bytes PointTombstone) (k : bytes) (w : KeyDirEntry) : bool :=
  match T !! k with Some t => KeyDirEntry.sequence w <? pt_seq t | None => false end
  || range_suppresses rts.*2 k (KeyDirEntry.sequence w).

Definition range_survivor (rts : list (nat * RangeTombstone)) (T : gmap bytes PointTombstone) (k : bytes) (es : list KeyDirEntry)
    : option KeyDirEntry :=
  match es with
  | [] => None
  | best :: others => let w := newest_of best others in if range_dropped rts T k w then None else Some w
  end.

Definition range_run (rts : list (nat * RangeTombstone)) (T : gmap bytes PointTombstone) (tr : list (bytes * list KeyDirEntry)) : klist :=
  omap (fun p => (fun e => (p.1, e)) <$> range_survivor rts T p.1 p.2) tr.

(** The bytes of the entries appended, per file. *)
Definition count_live (live : gmap Z Z) (p : bytes * KeyDirEntry) : gmap Z Z :=
  let fid := KeyDirEntry.file_id p.2 in
  <[fid := u64_add (default 0 (live !! fid)) (entry_size (size p.1) (KeyDirEntry.value_size p.2))]> live.

Definition range_point_needed (T : gmap bytes PointTombstone) (p : bytes * list KeyDirEntry) : list Z :=
  concat ((fun e => match T !! p.1 with
                    | Some t => if KeyDirEntry.sequence e <? pt_seq t then [pt_seq t] else []
                    | None => []
                    end) <$> p.2).

Definition range_range_needed (rts : list (nat * RangeTombstone)) (p : bytes * list KeyDirEntry) : list nat :=
  concat ((fun e => fst <$> filter (fun q => (KeyDirEntry.sequence e <? rt_seq q.2)
                                             && negb (KeyDirEntry.file_id e =? rt_file_id q.2)
                                             && rt_covers p.1 q.2 = true) rts) <$> p.2).

Lemma range_key_ok rts T k es w o :
  size k <= kBTreeMaxKeyBytes ->
  range_key rts k (T !! k) es w o
  = let kept := if range_dropped rts T k w then [] else [(k, w)] in
    Ok (mkRangeOut (ro_run o ++ kept) (foldl count_live (ro_live o) kept)
          (ro_needed o ++ range_point_needed T (k, es)) (ro_needed_ranges o ++ range_range_needed rts (k, es))).
Proof.
  intros Hk. unfold range_key, bulk_append. rewrite (proj2 (Z.ltb_ge _ _) Hk).
  fold (range_dropped rts T k w). destruct (range_dropped rts T k w); [|done]. by rewrite app_nil_r.
Qed.

Lemma range_fold_ok rts T tr o :
  (forall k es, (k, es) ∈ tr -> es <> [] /\ one_per_seq es /\ size k <= kBTreeMaxKeyBytes) ->
  range_fold rts T tr o = Ok (mkRangeOut (ro_run o ++ range_run rts T tr) (foldl count_live (ro_live o) (range_run rts T tr))
    (ro_needed o ++ concat (range_point_needed T <$> tr)) (ro_needed_ranges o ++ concat (range_range_needed rts <$> tr))).
Proof.
  revert o. induction tr as [|[k es] tr IH]; intros o Htr.
  { cbn. rewrite !app_nil_r. by destruct o. }
  destruct (Htr k es ltac:(left)) as (Hne & Ho & Hk). destruct es as [|best others]; [done|]. cbn [range_fold].
  rewrite newest_entry_ok by done. cbn [mbind result_bind]. rewrite range_key_ok by done. cbn [mbind result_bind].
  rewrite IH by (intros; apply Htr; by right). cbn [ro_run ro_live ro_needed ro_needed_ranges fmap list_fmap].
  rewrite !concat_cons, <-!app_assoc, <-foldl_app.
  replace (range_run rts T ((k, best :: others) :: tr))
    with ((if range_dropped rts T k (newest_of best others) then [] else [(k, newest_of best others)]) ++ range_run rts T tr); [done|].
  unfold range_run. cbn [omap list_omap fst snd range_survivor]. by destruct (range_dropped _ _ _ _).
Qed.

Lemma count_live_sum run live f :
  default 0 (foldl count_live live run !! f) = wrap 64 (default 0 (live !! f) + lsum (fun p => live_weight f p.1 p.2) run)
  \/ default 0 (live !! f) <> wrap 64 (default 0 (live !! f)).
Proof.
  destruct (decide (default 0 (live !! f) = wrap 64 (default 0 (live !! f)))) as [Hw|Hw]; [left|by right]. revert live Hw.
  induction run as [|[k e] run IH]; intros live Hw; cbn [foldl].
  { rewrite lsum_nil, Z.add_0_r. done. }
  rewrite lsum_cons. cbn [fst snd]. unfold live_weight at 1.
  assert (E : default 0 (count_live live (k, e) !! f)
    = wrap 64 (default 0 (live !! f) + (if KeyDirEntry.file_id e =? f then entry_size (size k) (KeyDirEntry.value_size e) else 0))).
  { unfold count_live. cbn [fst snd]. destruct (Z.eqb_spec (KeyDirEntry.file_id e) f) as [->|Hf].
    - by rewrite lookup_insert_eq.
    - by rewrite lookup_insert_ne, Z.add_0_r by done. }
  rewrite IH; rewrite E.
  - rewrite Z.add_assoc. by autorewrite with u64.
  - by autorewrite with u64.
Qed.

(** ** Slices *)

Definition in_bounds (lo : bytes) (hi : option bytes) (k : bytes) : Prop := key_le lo k /\ below hi k = true.

#[export] Instance in_bounds_dec lo hi k : Decision (in_bounds lo hi k).
Proof. unfold in_bounds. apply _. Defined.

Lemma until_below h l : sorted_run l -> until h l = filter (fun p => key_ltb p.1 h = true) l.
Proof.
  induction l as [|[k e] l IH]; intros Hs; [done|]. cbn [until]. apply StronglySorted_inv in Hs as [Hs Hf].
  rewrite filter_cons, key_leb_ltb. cbn [fst]. destruct (key_ltb k h) eqn:E; cbn [negb].
  - rewrite decide_True by done. by rewrite IH.
  - rewrite decide_False by done. symmetry. clear IH Hs. induction l as [|[k' e'] l IH]; [done|]. cbn in Hf.
    apply Forall_cons in Hf as [Hk Hf]. rewrite filter_cons, decide_False; [by apply IH|]. cbn [fst]. intros Hk'%key_ltb_spec.
    pose proof (key_lt_trans _ _ _ Hk Hk') as Hc%key_ltb_spec. congruence.
Qed.

Lemma sorted_run_filter {A} (P : bytes * A -> Prop) `{forall p, Decision (P p)} c : sorted_run c -> sorted_run (filter P c).
Proof. intros Hs. eapply StronglySorted_sublist; [exact Hs|]. apply fmap_sublist, sublist_filter. Qed.

Lemma part_slice_spec lo hi part :
  sorted_run (rr_key_dir part) ->
  sorted_run (part_slice lo hi part)
  /\ forall k, in_run k (part_slice lo hi part) = if decide (in_bounds lo hi k) then in_run k (rr_key_dir part) else None.
Proof.
  intros Hs. unfold part_slice.
  assert (E : match hi with Some h => until h (filter (fun p => key_le lo p.1) (rr_key_dir part)) | None => filter (fun p => key_le lo p.1) (rr_key_dir part) end
    = filter (fun p => below hi p.1 = true) (filter (fun p => key_le lo p.1) (rr_key_dir part))).
  { destruct hi as [h|]; [by apply until_below, sorted_run_filter|]. cbn [below]. clear.
    induction (filter _ _) as [|p l IH]; [done|]. by rewrite filter_cons, decide_True, <-IH by done. }
  rewrite E. assert (Hs' : sorted_run (filter (fun p => below hi p.1 = true) (filter (fun p => key_le lo p.1) (rr_key_dir part))))
    by (by do 2 apply sorted_run_filter).
  split; [done|]. intros k. apply option_eq. intros e. rewrite in_run_elem, !list_elem_of_filter by done. unfold in_bounds. cbn [fst].
  destruct (decide _) as [[H1 H2]|Hn]; [rewrite in_run_elem by done; tauto|]. split; [tauto|done].
Qed.

(** The pooled tombstones, in key order. *)
Lemma sorted_tombs_spec ts : sorted_run (sorted_tombs ts) /\ forall k, in_run k (sorted_tombs ts) = ts !! k.
Proof.
  assert (Hp : sorted_tombs ts ≡ₚ map_to_list ts) by apply merge_sort_Permutation.
  assert (Hn : NoDup (sorted_tombs ts).*1) by (rewrite Hp; apply NoDup_fst_map_to_list).
  assert (Hs : sorted_run (sorted_tombs ts)).
  { assert (Hle : StronglySorted tomb_le (sorted_tombs ts)).
    { apply Sorted_StronglySorted; [intros a b c; unfold tomb_le; apply transitivity|]. apply Sorted_merge_sort.
      intros a b. unfold tomb_le. apply (total key_le). }
    unfold sorted_run. clear Hp. revert Hn Hle. generalize (sorted_tombs ts) as l0. intros l0 Hn Hle. revert Hn. induction Hle as [|[k t] l Hl IH Hf]; intros Hn; [constructor|]. cbn in Hn |- *.
    apply NoDup_cons in Hn as [Hk Hn]. constructor; [by apply IH|]. apply Forall_fmap, Forall_forall. rewrite Forall_forall in Hf.
    intros [k' t'] Hin. specialize (Hf _ Hin) as Hle. cbn in *. apply key_le_lteq in Hle as [?|Heq]; [done|]. exfalso. apply Hk. cbn in Heq. subst k'.
    by apply (list_elem_of_fmap_2' fst _ (k, t')). }
  split; [done|]. intros k. apply option_eq. intros t. rewrite in_run_elem, Hp, elem_of_map_to_list by done. done.
Qed.

Lemma tombs_from lo ts k : key_le lo k -> in_run k (filter (fun p => key_le lo p.1) (sorted_tombs ts)) = ts !! k.
Proof.
  intros Hk. destruct (sorted_tombs_spec ts) as [Hs E]. rewrite <-E. apply option_eq. intros t.
  rewrite !in_run_elem, list_elem_of_filter by (done || by apply sorted_run_filter). cbn. tauto.
Qed.

(** Only the range tombstones that reach into a slice matter there. *)
Lemma elem_of_reaching lo hi ranges i rt :
  (i, rt) ∈ reaching lo hi ranges <-> ranges !! i = Some rt /\ below hi (rt_start rt) = true /\ above lo (rt_end rt) = true.
Proof.
  unfold reaching. rewrite list_elem_of_filter, elem_of_lookup_imap. cbn [snd]. rewrite andb_true_iff. split.
  - intros [? (j & y & [= -> ->] & Hj)]. done.
  - intros (Hi & ? & ?). split; [done|]. by exists i, rt.
Qed.

Lemma covers_reaches lo hi k rt :
  in_bounds lo hi k -> rt_covers k rt = true -> below hi (rt_start rt) = true /\ above lo (rt_end rt) = true.
Proof.
  intros [Hlo Hhi] Hc. unfold rt_covers, in_range in Hc. apply andb_true_iff in Hc as [H1%key_leb_spec H2%key_ltb_spec]. split.
  - unfold below in *. destruct hi as [h|]; [|done]. apply key_ltb_spec. apply key_ltb_spec in Hhi.
    apply key_le_lteq in H1 as [H1| ->]; [by eapply key_lt_trans|done].
  - unfold above. apply orb_true_iff. right. apply key_ltb_spec. apply key_le_lteq in Hlo as [Hlo| ->]; [by eapply key_lt_trans|done].
Qed.

Lemma range_suppresses_true ranges k s :
  range_suppresses ranges k s = true <-> exists rt, rt ∈ ranges /\ s < rt_seq rt /\ rt_covers k rt = true.
Proof.
  unfold range_suppresses. rewrite existsb_exists. split.
  - intros (rt & Hin%list_elem_of_In & [?%Z.ltb_lt ?]%andb_true_iff). by exists rt.
  - intros (rt & Hin%list_elem_of_In & ? & ?). exists rt. rewrite andb_true_iff, Z.ltb_lt. done.
Qed.

Lemma reaching_suppresses lo hi ranges k s :
  in_bounds lo hi k -> range_suppresses (reaching lo hi ranges).*2 k s = range_suppresses ranges k s.
Proof.
  intros Hk. apply eq_bool_prop_intro. rewrite !Is_true_true, !range_suppresses_true. split.
  - intros (rt & Hin & Hrt). apply list_elem_of_fmap in Hin as ([i rt'] & -> & Hin). apply elem_of_reaching in Hin as [Hi _].
    exists rt'. split; [by eapply list_elem_of_lookup_2|done].
  - intros (rt & Hin & Hs & Hc). exists rt. split; [|done]. apply list_elem_of_lookup in Hin as [i Hi].
    apply (list_elem_of_fmap_2' snd _ (i, rt)); [|done]. apply elem_of_reaching. split; [done|]. by eapply covers_reaches.
Qed.

(** ** The parts together *)

Lemma key_wins_exists ls k r f : (r, f) ∈ at_key k ls -> exists rw fw, key_wins ls k rw fw.
Proof.
  intros Hr. unfold key_wins. destruct (at_key k ls) as [|best same]; [by apply elem_of_nil in Hr|].
  destruct (newest_spec best same) as [H1 H2]. exists (newest best same).1, (newest best same).2. split.
  - by rewrite <-surjective_pairing.
  - intros r' f' Hr'. by apply (H2 (r', f')).
Qed.

Lemma runs_data ops k r f : (r, f) ∈ at_key k (hint_runs ops) -> hr_type r = Put \/ hr_type r = Delete.
Proof.
  intros (l & Hl & (Hr & _ & _)%run_newest_some)%elem_of_at_key. unfold hint_runs in Hl. apply list_elem_of_fmap in Hl as ([f' es] & [= -> ->] & _).
  unfold hint_records in Hr. apply list_elem_of_fmap in Hr as (he & -> & Hh). by apply list_elem_of_filter in Hh as [? _].
Qed.

Section parts.
Context (hints : RecoveredFile -> option (list HintEntry.HintEntry)).

Let runs (files : list RecoveredFile) := hint_runs (opened hints files).
Let ranges (files : list RecoveredFile) := all_ranges (opened hints files).

Lemma opened_concat wfs : opened hints (concat wfs) = concat (opened hints <$> wfs).
Proof. unfold opened. induction wfs as [|w wfs IH]; [done|]. cbn [concat fmap list_fmap]. by rewrite omap_app, IH. Qed.

Lemma at_key_parts wfs k r f : (r, f) ∈ at_key k (runs (concat wfs)) <-> exists w, w ∈ wfs /\ (r, f) ∈ at_key k (runs w).
Proof.
  unfold runs, hint_runs. rewrite opened_concat. induction wfs as [|w wfs IH].
  { split; [set_solver|]. intros (w & Hw & _). by apply elem_of_nil in Hw. }
  cbn [fmap list_fmap concat]. unfold at_key in *. rewrite fmap_app, omap_app, elem_of_app, IH. split.
  - intros [?|(w' & ? & ?)]; [exists w|exists w']; (split; [|done]); [left|by right].
  - intros (w' & [->|Hw]%elem_of_cons & Hr); [by left|]. right. by exists w'.
Qed.

Lemma elem_of_ranges wfs rt : rt ∈ ranges (concat wfs) <-> exists w, w ∈ wfs /\ rt ∈ ranges w.
Proof.
  unfold ranges, all_ranges. rewrite opened_concat. induction wfs as [|w wfs IH].
  { split; [set_solver|]. intros (w & Hw & _). by apply elem_of_nil in Hw. }
  cbn [fmap list_fmap concat]. rewrite fmap_app, concat_app, elem_of_app, IH. split.
  - intros [?|(w' & ? & ?)]; [exists w|exists w']; (split; [|done]); [left|by right].
  - intros (w' & [->|Hw]%elem_of_cons & Hr); [by left|]. right. by exists w'.
Qed.


Context (wfs : list (list RecoveredFile)) (parts : list RecoveryResult) (Hparts : Forall2 (part_ok hints) wfs parts).

Lemma part_of_worker w : w ∈ wfs -> exists part, part ∈ parts /\ part_ok hints w part.
Proof.
  intros Hw. apply list_elem_of_lookup in Hw as [i Hi]. destruct (Forall2_lookup_l _ _ _ _ _ Hparts Hi) as (part & Hp & Hok).
  exists part. split; [by eapply list_elem_of_lookup_2|done].
Qed.

Lemma worker_of_part part : part ∈ parts -> exists w, w ∈ wfs /\ part_ok hints w part.
Proof.
  intros Hw. apply list_elem_of_lookup in Hw as [i Hi]. destruct (Forall2_lookup_r _ _ _ _ _ Hparts Hi) as (w & Hp & Hok).
  exists w. split; [by eapply list_elem_of_lookup_2|done].
Qed.

(** *** The pooled metadata *)

Lemma union_parts_fields (ps : list RecoveryResult) u :
  let u' := foldl union_part u ps in
  un_ranges u' = un_ranges u ++ concat (rr_range_tombstones <$> ps)
  /\ un_needed u' = un_needed u ++ concat (rr_needed <$> ps)
  /\ un_markers u' = un_markers u ++ concat (rr_markers <$> ps)
  /\ un_max_seq u' = foldl Z.max (un_max_seq u) (rr_max_seq <$> ps)
  /\ un_skipped u' = un_skipped u || existsb rr_skipped ps
  /\ un_stats u' = foldl (∪) (un_stats u) (rr_file_stats <$> ps).
Proof.
  revert u. induction ps as [|p ps IH]; intros u.
  { cbn. rewrite !app_nil_r, orb_false_r. done. }
  cbn [foldl fmap list_fmap concat existsb]. destruct (IH (union_part u p)) as (I1 & I2 & I3 & I4 & I5 & I6).
  rewrite I1, I2, I3, I4, I5, I6. cbn [union_part un_ranges un_needed un_markers un_max_seq un_skipped un_stats].
  by rewrite !app_assoc, orb_assoc.
Qed.

Lemma union_tombstones_spec (ps : list RecoveryResult) u k :
  (forall p t, p ∈ ps -> rr_tombstones p !! k = Some t -> 0 < pt_seq t) ->
  let T := un_tombstones (foldl union_part u ps) in
  (forall t, un_tombstones u !! k = Some t \/ (exists p, p ∈ ps /\ rr_tombstones p !! k = Some t) ->
     exists t', T !! k = Some t' /\ pt_seq t <= pt_seq t')
  /\ (forall t, T !! k = Some t -> un_tombstones u !! k = Some t \/ exists p, p ∈ ps /\ rr_tombstones p !! k = Some t).
Proof.
  revert u. induction ps as [|p ps IH]; intros u Hpos; cbn [foldl].
  { split; [|by left]. intros t [Ht|(p & Hp & _)]; [by exists t|set_solver]. }
  destruct (IH (union_part u p)) as [I1 I2]; [intros p' t Hp; apply Hpos; by right|].
  assert (E : un_tombstones (union_part u p) !! k = match un_tombstones u !! k, rr_tombstones p !! k with
    | Some a, Some b => Some (if pt_seq a <? pt_seq b then b else a) | Some a, None => Some a | None, b => b end).
  { cbn [union_part un_tombstones]. unfold union_tombstones. rewrite lookup_union_with, lookup_fmap.
    destruct (rr_tombstones p !! k) as [b|] eqn:Eb; cbn; [|by destruct (un_tombstones u !! k)].
    rewrite (proj2 (Z.ltb_lt 0 (pt_seq b))) by (by apply (Hpos p); [left|]). by destruct (un_tombstones u !! k). }
  rewrite E in I1, I2. split.
  - assert (Hmono : forall t, un_tombstones u !! k = Some t \/ rr_tombstones p !! k = Some t -> exists t1, (match un_tombstones u !! k, rr_tombstones p !! k with
      | Some a, Some b => Some (if pt_seq a <? pt_seq b then b else a) | Some a, None => Some a | None, b => b end) = Some t1 /\ pt_seq t <= pt_seq t1).
    { intros t [->| ->].
      - destruct (rr_tombstones p !! k) as [b|]; eexists; (split; [done|]); [destruct (Z.ltb_spec (pt_seq t) (pt_seq b)); lia|lia].
      - destruct (un_tombstones u !! k) as [b|]; eexists; (split; [done|]); [destruct (Z.ltb_spec (pt_seq b) (pt_seq t)); lia|lia]. }
    intros t [Ht|(p' & [->|Hp']%elem_of_cons & Ht)].
    + destruct (Hmono t (or_introl Ht)) as (t1 & E1 & Hle). destruct (I1 t1 (or_introl E1)) as (t' & ? & ?). exists t'. split; [done|lia].
    + destruct (Hmono t (or_intror Ht)) as (t1 & E1 & Hle). destruct (I1 t1 (or_introl E1)) as (t' & ? & ?). exists t'. split; [done|lia].
    + apply I1. right. by exists p'.
  - intros t Ht. destruct (I2 t Ht) as [Hu|(p' & Hp' & Ht')]; [|right; exists p'; split; [by right|done]].
    destruct (un_tombstones u !! k) as [a|], (rr_tombstones p !! k) as [b|] eqn:Eb; try done.
    + destruct (_ <? _); [right; exists p; split; [left|]; congruence|by left].
    + by left.
    + right. exists p. split; [left|]. congruence.
Qed.

Context (Hd : distinct_newest (runs (concat wfs))) (Hpos : positive_runs (runs (concat wfs))) (Hpk : runs_pack (runs (concat wfs))).

Let u := union_parts parts.

Lemma union_tombs : tombs_of (runs (concat wfs)) (un_tombstones u).
Proof.
  assert (Hp : forall k p t, p ∈ parts -> rr_tombstones p !! k = Some t -> 0 < pt_seq t).
  { intros k p t Hp Ht. destruct (worker_of_part p Hp) as (w & Hw & Hok). destruct (to_from _ _ (pa_tombs _ _ _ Hok) k t Ht) as (r & f & Hr & _ & ->).
    apply (Hpos k r f), at_key_parts. by exists w. }
  split.
  - intros k r f Hr Ht. apply at_key_parts in Hr as (w & Hw & Hr). destruct (part_of_worker w Hw) as (p & Hin & Hok).
    destruct (to_above _ _ (pa_tombs _ _ _ Hok) k r f Hr Ht) as (t & Et & Hle).
    destruct (union_tombstones_spec parts (mkUnion ∅ [] [] ∅ [] 0 false) k (Hp k)) as [U _].
    destruct (U t) as (t' & E' & Hle'); [right; by exists p|]. exists t'. split; [exact E'|lia].
  - intros k t Ht. destruct (union_tombstones_spec parts (mkUnion ∅ [] [] ∅ [] 0 false) k (Hp k)) as [_ U].
    destruct (U t Ht) as [Hn|(p & Hin & Hpt)]; [cbn [un_tombstones] in Hn; by rewrite lookup_empty in Hn|]. destruct (worker_of_part p Hin) as (w & Hw & Hok).
    destruct (to_from _ _ (pa_tombs _ _ _ Hok) k t Hpt) as (r & f & Hr & Hrd & Hq). exists r, f. split; [|done]. apply at_key_parts. by exists w.
Qed.

Lemma elem_of_union_ranges rt' :
  rt' ∈ un_ranges u -> exists w rt, w ∈ wfs /\ rt ∈ ranges w /\ same_range rt rt'
    /\ (rt_needed rt' = true <-> range_needed (runs w) rt).
Proof.
  destruct (union_parts_fields parts (mkUnion ∅ [] [] ∅ [] 0 false)) as (E & _). unfold u, union_parts. rewrite E. cbn [un_ranges app].
  intros Hin. apply list_elem_of_concat in Hin as (l & Hin & Hl). apply list_elem_of_fmap in Hl as (p & -> & Hp).
  destruct (worker_of_part p Hp) as (w & Hw & Hok). apply list_elem_of_lookup in Hin as [i Hi].
  destruct (Forall2_lookup_r _ _ _ _ _ (pa_ranges _ _ _ Hok) Hi) as (rt & Hrt & Hs & Hn). exists w, rt.
  split_and!; try done. by eapply list_elem_of_lookup_2.
Qed.

Lemma union_has_range w rt : w ∈ wfs -> rt ∈ ranges w -> exists rt', rt' ∈ un_ranges u /\ same_range rt rt'
  /\ (range_needed (runs w) rt -> rt_needed rt' = true).
Proof.
  intros Hw Hrt. destruct (union_parts_fields parts (mkUnion ∅ [] [] ∅ [] 0 false)) as (E & _). unfold u, union_parts. rewrite E. cbn [un_ranges app].
  destruct (part_of_worker w Hw) as (p & Hp & Hok). apply list_elem_of_lookup in Hrt as [i Hi].
  destruct (Forall2_lookup_l _ _ _ _ _ (pa_ranges _ _ _ Hok) Hi) as (rt' & Hrt' & Hs & Hn). exists rt'. split_and!; [|done|by apply Hn].
  apply list_elem_of_concat. exists (rr_range_tombstones p). split; [by eapply list_elem_of_lookup_2|]. by apply (list_elem_of_fmap_2' rr_range_tombstones _ p).
Qed.

Lemma same_range_covers rt rt' k : same_range rt rt' -> rt_covers k rt = rt_covers k rt'.
Proof. intros (S1 & S2 & _ & _). unfold rt_covers. by rewrite S1, S2. Qed.

Lemma union_suppresses k q : range_suppresses (un_ranges u) k q = range_suppresses (ranges (concat wfs)) k q.
Proof.
  apply eq_bool_prop_intro. rewrite !Is_true_true, !range_suppresses_true. split.
  - intros (rt' & Hin & Hq & Hc). destruct (elem_of_union_ranges rt' Hin) as (w & rt & Hw & Hrt & Hs & _). exists rt.
    rewrite (same_range_covers _ _ k Hs). destruct Hs as (_ & _ & -> & _). split; [|done]. apply elem_of_ranges. by exists w.
  - intros (rt & Hin & Hq & Hc). apply elem_of_ranges in Hin as (w & Hw & Hrt). destruct (union_has_range w rt Hw Hrt) as (rt' & Hin & Hs & _).
    exists rt'. rewrite <-(same_range_covers _ _ k Hs). destruct Hs as (_ & _ & <- & _). done.
Qed.

(** *** The winner over the parts *)

Lemma entry_of_record w k r f e :
  w ∈ wfs -> (r, f) ∈ at_key k (runs w) -> record_entry r f = Ok e -> KeyDirEntry.sequence e = hr_sequence r /\ KeyDirEntry.file_id e = f.
Proof.
  intros Hw Hr He. destruct (Hpk k r f) as [_ Hp]; [apply at_key_parts; by exists w|].
  destruct (KeyDirEntry.make_fields _ _ _ _ Hp) as (e' & He' & Hf). unfold record_entry in He. rewrite He in He'. injection He' as <-.
  by destruct Hf.
Qed.

Lemma on_parts k e : e ∈ on k (rr_key_dir <$> parts) <-> exists w, w ∈ wfs /\ newest_put (runs w) (ranges w) k e.
Proof.
  rewrite elem_of_on. split.
  - intros (c & Hc & Hr). apply list_elem_of_fmap in Hc as (p & -> & Hp). destruct (worker_of_part p Hp) as (w & Hw & Hok).
    exists w. split; [done|]. apply (pa_entries _ _ _ Hok). by apply (in_run_elem _ _ _ (pa_sorted _ _ _ Hok)).
  - intros (w & Hw & Hn). destruct (part_of_worker w Hw) as (p & Hp & Hok). exists (rr_key_dir p). split; [by apply (list_elem_of_fmap_2' rr_key_dir _ p)|].
    apply (in_run_elem _ _ _ (pa_sorted _ _ _ Hok)). by apply (pa_entries _ _ _ Hok).
Qed.

Lemma on_one_per_seq k : one_per_seq (on k (rr_key_dir <$> parts)).
Proof.
  intros e e' (w & Hw & r & f & [Hr _] & _ & _ & He)%on_parts (w' & Hw' & r' & f' & [Hr' _] & _ & _ & He')%on_parts Hq.
  destruct (entry_of_record w k r f e Hw Hr He) as [E _], (entry_of_record w' k r' f' e' Hw' Hr' He') as [E' _].
  assert ((r, f) = (r', f')) as [= -> ->]; [|congruence].
  apply (Hd k r f r' f'); [apply at_key_parts; by exists w|apply at_key_parts; by exists w'|congruence].
Qed.

(** A Put that nothing newer in its part hides is in the part's tree, unless a
    range tombstone of the part covers it. *)
Lemma winner_above k w e rw fw r f :
  (forall e', e' ∈ on k (rr_key_dir <$> parts) -> KeyDirEntry.sequence e' <= KeyDirEntry.sequence e) ->
  match un_tombstones u !! k with Some t => KeyDirEntry.sequence e <? pt_seq t | None => false end = false ->
  range_suppresses (ranges (concat wfs)) k (KeyDirEntry.sequence e) = false ->
  w ∈ wfs -> key_wins (runs w) k rw fw -> (r, f) ∈ at_key k (runs w) -> hr_type rw = Put \/ hr_type rw = Delete ->
  hr_sequence r <= KeyDirEntry.sequence e.
Proof.
  intros Hmax Ht Hrg Hw [Hrw Hwin] Hr Hty. apply Hwin in Hr. cut (hr_sequence rw <= KeyDirEntry.sequence e); [lia|]. clear Hr r f.
  destruct Hty as [Hty|Hty].
  - destruct (range_suppresses (ranges w) k (hr_sequence rw)) eqn:Es.
    + apply range_suppresses_true in Es as (rt & Hrt & Hq & Hc). destruct (Z.le_gt_cases (hr_sequence rw) (KeyDirEntry.sequence e)); [done|].
      exfalso. apply not_true_iff_false in Hrg. apply Hrg, range_suppresses_true. exists rt. split_and!; [|lia|done].
      apply elem_of_ranges. by exists w.
    + destruct (Hpk k rw fw) as [_ Hp]; [apply at_key_parts; by exists w|].
      destruct (KeyDirEntry.make_fields _ _ _ _ Hp) as (e' & He' & Hf). destruct Hf as [<- _ _ _]. apply Hmax, on_parts. exists w. split; [done|].
      exists rw, fw. done.
  - destruct (to_above _ _ union_tombs k rw fw) as (t & Et & Hle); [apply at_key_parts; by exists w|done|]. rewrite Et in Ht.
    apply Z.ltb_ge in Ht. lia.
Qed.

Lemma survivor_newest lo hi k e :
  in_bounds lo hi k ->
  range_survivor (reaching lo hi (un_ranges u)) (un_tombstones u) k (on k (rr_key_dir <$> parts)) = Some e
  <-> newest_put (runs (concat wfs)) (ranges (concat wfs)) k e.
Proof.
  intros Hb. unfold range_survivor, range_dropped. split.
  - destruct (on k (rr_key_dir <$> parts)) as [|best others] eqn:Eo; [done|].
    rewrite reaching_suppresses, union_suppresses by done. destruct (_ || _) eqn:Ed; [done|]. intros [= <-].
    apply orb_false_iff in Ed as [Ed1 Ed2]. pose proof (newest_of_in best others) as Hin. rewrite <-Eo in Hin.
    apply on_parts in Hin as (w & Hw & r & f & [Hr Hwin] & Hty & Hs & He). destruct (entry_of_record w k r f _ Hw Hr He) as [Eq _].
    exists r, f. split_and!; [|done|by rewrite <-Eq|done]. split; [apply at_key_parts; by exists w|]. rewrite <-Eq.
    intros r' f' (w' & Hw' & Hr')%at_key_parts. destruct (key_wins_exists _ _ _ _ Hr') as (rw & fw & Hkw).
    eapply (winner_above k w' _ rw fw r' f'); try done.
    + intros e' He'. apply newest_of_max. by rewrite <-Eo.
    + apply (runs_data _ _ _ _ (proj1 Hkw)).
  - intros (r & f & [Hr Hwin] & Hty & Hs & He). apply at_key_parts in Hr as (w & Hw & Hr).
    destruct (entry_of_record w k r f _ Hw Hr He) as [Eq _].
    assert (Hin : e ∈ on k (rr_key_dir <$> parts)).
    { apply on_parts. exists w. split; [done|]. exists r, f. split_and!; [|done| |done].
      - split; [done|]. intros r' f' Hr'. apply (Hwin r' f'), at_key_parts. by exists w.
      - apply not_true_iff_false. intros (rt & Hrt & Hq)%range_suppresses_true. apply not_true_iff_false in Hs. apply Hs, range_suppresses_true.
        exists rt. split; [|done]. apply elem_of_ranges. by exists w. }
    pose proof (on_one_per_seq k) as Hone. assert (Hmax : forall e', e' ∈ on k (rr_key_dir <$> parts) -> KeyDirEntry.sequence e' <= KeyDirEntry.sequence e).
    { intros e' (w' & Hw' & r' & f' & [Hr' _] & _ & _ & He')%on_parts. destruct (entry_of_record w' k r' f' _ Hw' Hr' He') as [-> _].
      rewrite Eq. apply (Hwin r' f'), at_key_parts. by exists w'. }
    destruct (on k (rr_key_dir <$> parts)) as [|best others]; [by apply elem_of_nil in Hin|].
    assert (newest_of best others = e) as ->.
    { apply Hone; [apply newest_of_in|done|]. pose proof (newest_of_max best others e Hin). pose proof (Hmax _ (newest_of_in best others)). lia. }
    rewrite reaching_suppresses, union_suppresses, Eq, Hs by done. destruct (un_tombstones u !! k) as [t|] eqn:Et; [|done].
    destruct (to_from _ _ union_tombs k t Et) as (r' & f' & Hr' & _ & Eq'). rewrite Eq', (proj2 (Z.ltb_ge _ _)); [done|]. by apply (Hwin r' f').
Qed.

(** *** One range *)

Lemma on_slices lo hi k :
  on k (part_slice lo hi <$> parts) = if decide (in_bounds lo hi k) then on k (rr_key_dir <$> parts) else [].
Proof.
  assert (Hs : Forall (fun p => sorted_run (rr_key_dir p)) parts).
  { apply Forall_forall. intros p Hp. destruct (worker_of_part p Hp) as (w & _ & Hok). by apply (pa_sorted _ _ _ Hok). }
  unfold on. clear -Hs. induction Hs as [|p ps Hp Hs IH]; [by destruct (decide _)|]. cbn [fmap list_fmap omap list_omap].
  rewrite (proj2 (part_slice_spec lo hi p Hp)), IH. by destruct (decide (in_bounds lo hi k)).
Qed.

Lemma on_fits k e : e ∈ on k (rr_key_dir <$> parts) -> size k <= kBTreeMaxKeyBytes.
Proof. intros (w & Hw & r & f & [Hr _] & _)%on_parts. apply (Hpk k r f), at_key_parts. by exists w. Qed.

(** What a range merge gives. *)
Record range_ok (lo : bytes) (hi : option bytes) (ro : RangeOut) : Prop := {
  rg_sorted : sorted_run (ro_run ro);
  rg_run : forall k e, (k, e) ∈ ro_run ro <-> in_bounds lo hi k /\ newest_put (runs (concat wfs)) (ranges (concat wfs)) k e;
  rg_live : forall f, default 0 (ro_live ro !! f) = wrap 64 (lsum (fun p => live_weight f p.1 p.2) (ro_run ro));
  rg_needed : forall s, s ∈ ro_needed ro <-> exists k e t, in_bounds lo hi k /\ e ∈ on k (rr_key_dir <$> parts)
    /\ un_tombstones u !! k = Some t /\ KeyDirEntry.sequence e < pt_seq t /\ s = pt_seq t;
  rg_needed_ranges : forall i, i ∈ ro_needed_ranges ro <-> exists k e rt, in_bounds lo hi k /\ e ∈ on k (rr_key_dir <$> parts)
    /\ un_ranges u !! i = Some rt /\ KeyDirEntry.sequence e < rt_seq rt /\ KeyDirEntry.file_id e <> rt_file_id rt /\ rt_covers k rt = true
}.

Lemma elem_of_trace lo hi tr k es :
  ktrace (part_slice lo hi <$> parts) tr -> (k, es) ∈ tr <-> in_bounds lo hi k /\ es = on k (rr_key_dir <$> parts) /\ es <> [].
Proof.
  intros [_ T2 T3]. split.
  - intros Hin. destruct (T2 k es Hin) as [-> Hne]. rewrite on_slices in Hne |- *. by destruct (decide _).
  - intros (Hb & -> & Hne). assert (Hk : k ∈ tr.*1) by (apply T3; by rewrite on_slices, decide_True).
    apply list_elem_of_fmap in Hk as ([k' es] & -> & Hin). cbn [fst] in *. destruct (T2 _ _ Hin) as [-> _].
    by rewrite on_slices, decide_True in Hin.
Qed.

Lemma trace_needed lo hi tr s :
  ktrace (part_slice lo hi <$> parts) tr ->
  s ∈ concat (range_point_needed (un_tombstones u) <$> tr) <-> exists k e t, in_bounds lo hi k /\ e ∈ on k (rr_key_dir <$> parts)
    /\ un_tombstones u !! k = Some t /\ KeyDirEntry.sequence e < pt_seq t /\ s = pt_seq t.
Proof.
  intros T. rewrite list_elem_of_concat. split.
  - intros (l & Hs & Hl). apply list_elem_of_fmap in Hl as ([k es] & -> & Hin). apply (elem_of_trace lo hi tr k es T) in Hin as (Hb & -> & _).
    unfold range_point_needed in Hs. cbn [fst snd] in Hs. apply list_elem_of_concat in Hs as (l & Hs & Hl).
    apply list_elem_of_fmap in Hl as (e & -> & He). destruct (un_tombstones u !! k) as [t|] eqn:Et; [|by apply elem_of_nil in Hs].
    destruct (Z.ltb_spec (KeyDirEntry.sequence e) (pt_seq t)); [|by apply elem_of_nil in Hs]. apply list_elem_of_singleton in Hs as ->.
    by exists k, e, t.
  - intros (k & e & t & Hb & He & Et & Hlt & ->). exists (range_point_needed (un_tombstones u) (k, on k (rr_key_dir <$> parts))). split.
    + unfold range_point_needed. cbn [fst snd]. apply list_elem_of_concat. exists [pt_seq t]. split; [by apply list_elem_of_singleton|].
      apply list_elem_of_fmap. exists e. split; [|done]. by rewrite Et, (proj2 (Z.ltb_lt _ _) Hlt).
    + apply list_elem_of_fmap_2, (elem_of_trace lo hi tr _ _ T). split_and!; [done|done|]. intros E. rewrite E in He. by apply elem_of_nil in He.
Qed.

Lemma trace_needed_ranges lo hi tr i :
  ktrace (part_slice lo hi <$> parts) tr ->
  i ∈ concat (range_range_needed (reaching lo hi (un_ranges u)) <$> tr) <-> exists k e rt, in_bounds lo hi k /\ e ∈ on k (rr_key_dir <$> parts)
    /\ un_ranges u !! i = Some rt /\ KeyDirEntry.sequence e < rt_seq rt /\ KeyDirEntry.file_id e <> rt_file_id rt /\ rt_covers k rt = true.
Proof.
  intros T. rewrite list_elem_of_concat. split.
  - intros (l & Hs & Hl). apply list_elem_of_fmap in Hl as ([k es] & -> & Hin). apply (elem_of_trace lo hi tr k es T) in Hin as (Hb & -> & _).
    unfold range_range_needed in Hs. cbn [fst snd] in Hs. apply list_elem_of_concat in Hs as (l & Hs & Hl).
    apply list_elem_of_fmap in Hl as (e & -> & He). apply list_elem_of_fmap in Hs as ([j rt] & -> & Hs). cbn [fst].
    apply list_elem_of_filter in Hs as [Hc Hs]. cbn [snd] in Hc. apply andb_true_iff in Hc as [Hc Hcov]. apply andb_true_iff in Hc as [Hlt%Z.ltb_lt Hf%negb_true_iff%Z.eqb_neq].
    apply elem_of_reaching in Hs as [Hs _]. by exists k, e, rt.
  - intros (k & e & rt & Hb & He & Ei & Hlt & Hf & Hcov). exists (range_range_needed (reaching lo hi (un_ranges u)) (k, on k (rr_key_dir <$> parts))). split.
    + unfold range_range_needed. cbn [fst snd]. apply list_elem_of_concat. eexists. split; [|by apply list_elem_of_fmap_2; exact He].
      apply (list_elem_of_fmap_2' fst _ (i, rt)); [|done]. apply list_elem_of_filter. cbn [snd].
      rewrite (proj2 (Z.ltb_lt _ _) Hlt), (proj2 (Z.eqb_neq _ _) Hf), Hcov. split; [done|]. apply elem_of_reaching. split; [done|]. by eapply covers_reaches.
    + apply list_elem_of_fmap_2, (elem_of_trace lo hi tr _ _ T). split_and!; [done|done|]. intros E. rewrite E in He. by apply elem_of_nil in He.
Qed.

Lemma merge_range_spec splitters r :
  exists ro, merge_range parts u splitters r = Ok ro /\ range_ok (range_lo splitters r) (range_hi splitters r) ro.
Proof.
  unfold merge_range. set (lo := range_lo splitters r). set (hi := range_hi splitters r).
  assert (Hs : Forall sorted_run (part_slice lo hi <$> parts)).
  { apply Forall_fmap, Forall_forall. intros p Hp. destruct (worker_of_part p Hp) as (w & _ & Hok).
    apply part_slice_spec. by apply (pa_sorted _ _ _ Hok). }
  destruct (range_merge_spec (sum_list (length <$> (part_slice lo hi <$> parts))) (reaching lo hi (un_ranges u)) (part_slice lo hi <$> parts)
    (filter (fun p => key_le lo p.1) (sorted_tombs (un_tombstones u))) (un_tombstones u) (mkRangeOut [] ∅ [] []) Hs) as (tr & T & E).
  { apply sorted_run_filter, sorted_tombs_spec. }
  { intros k Hk. rewrite on_slices in Hk. destruct (decide (in_bounds lo hi k)) as [[Hlo _]|]; [|done]. by apply tombs_from. }
  { done. }
  rewrite E, range_fold_ok.
  2:{ intros k es Hin. apply (elem_of_trace lo hi tr k es T) in Hin as (_ & -> & Hne). split_and!; [done|apply on_one_per_seq|].
      apply on_nonempty in Hne as [e He]. by apply (on_fits k e). }
  eexists. split; [reflexivity|]. cbn [ro_run ro_live ro_needed ro_needed_ranges app]. split; cbn [ro_run ro_live ro_needed ro_needed_ranges].
  - eapply StronglySorted_sublist; [exact (kt_sorted _ _ T)|]. unfold range_run. clear. induction tr as [|[k es] tr IH]; [done|]. cbn.
    destruct (range_survivor _ _ k es); cbn; by constructor.
  - intros k e. unfold range_run. rewrite list_elem_of_omap. split.
    + intros ([k' es] & Hin & Hsv). cbn [fst snd] in Hsv. destruct (range_survivor _ _ k' es) as [e'|] eqn:Es; [|done]. injection Hsv as -> ->.
      apply (elem_of_trace lo hi tr k es T) in Hin as (Hb & -> & _). split; [done|]. by apply (survivor_newest lo hi).
    + intros [Hb Hn]. apply (survivor_newest lo hi) in Hn; [|done]. exists (k, on k (rr_key_dir <$> parts)). cbn [fst snd]. rewrite Hn. split; [|done].
      apply (elem_of_trace lo hi tr _ _ T). split_and!; [done|done|]. intros Eo. by rewrite Eo in Hn.
  - intros f. destruct (count_live_sum (range_run (reaching lo hi (un_ranges u)) (un_tombstones u) tr) ∅ f) as [-> |Hn]; [done|]. by rewrite lookup_empty in Hn.
  - intros q. by apply trace_needed.
  - intros i. by apply trace_needed_ranges.
Qed.
End parts.

(** ** The ranges together *)

Definition range_bounds (splitters : list bytes) (r : nat) (k : bytes) : Prop :=
  in_bounds (range_lo splitters r) (range_hi splitters r) k.

Lemma sorted_lookup {A} (R : relation A) l i j x y : StronglySorted R l -> l !! i = Some x -> l !! j = Some y -> (i < j)%nat -> R x y.
Proof.
  intros Hs. revert i j. induction Hs as [|a l Hs IH Hf]; intros i j Hi Hj Hij; [done|].
  destruct j as [|j]; [lia|]. destruct i as [|i]; cbn in *.
  - injection Hi as ->. rewrite Forall_forall in Hf. apply Hf. by eapply list_elem_of_lookup_2.
  - eapply IH; [done|done|lia].
Qed.

Lemma range_lo_S splitters r h : splitters !! r = Some h -> range_lo splitters (S r) = h.
Proof. intros E. cbn. by rewrite E. Qed.

(** Every key is in a range. *)
Lemma range_exists splitters k : exists r, (r <= length splitters)%nat /\ range_bounds splitters r k.
Proof.
  assert (Hd : forall n, (n <= length splitters)%nat ->
    (exists r, (r < n)%nat /\ range_bounds splitters r k) \/ key_le (range_lo splitters n) k).
  { induction n as [|n IH]; intros Hn; [right; apply key_le_nil|]. destruct (IH ltac:(lia)) as [(r & ? & ?)|Hle]; [left; exists r; split; [lia|done]|].
    destruct (lookup_lt_is_Some_2 splitters n ltac:(lia)) as [h Eh]. destruct (key_ltb k h) eqn:E.
    - left. exists n. split; [lia|]. split; [done|]. unfold range_hi. by rewrite Eh.
    - right. rewrite (range_lo_S _ _ h Eh). apply key_leb_spec. by rewrite key_leb_ltb, E. }
  destruct (Hd (length splitters) ltac:(lia)) as [(r & ? & ?)|Hle]; [exists r; split; [lia|done]|].
  exists (length splitters). split; [lia|]. split; [done|]. unfold range_hi. by rewrite lookup_ge_None_2.
Qed.

(** The ranges are in key order. *)
Lemma range_order splitters r r' k k' :
  StronglySorted key_le splitters -> (r < r')%nat -> (r' <= length splitters)%nat ->
  range_bounds splitters r k -> range_bounds splitters r' k' -> key_lt k k'.
Proof.
  intros Hs Hr Hr' [_ Hk] [Hk' _]. destruct r' as [|r']; [lia|]. unfold range_hi in Hk.
  destruct (lookup_lt_is_Some_2 splitters r ltac:(lia)) as [h Eh], (lookup_lt_is_Some_2 splitters r' ltac:(lia)) as [h' Eh'].
  rewrite Eh in Hk. apply key_ltb_spec in Hk. rewrite (range_lo_S _ _ h' Eh') in Hk'.
  assert (Hle : key_le h h').
  { destruct (decide (r = r')) as [->|]; [rewrite Eh in Eh'; by injection Eh' as ->|].
    apply (sorted_lookup key_le splitters r r' h h'); [done|done|done|lia]. }
  apply key_le_lteq in Hle as [Hle| ->], Hk' as [Hk'| <-]; eauto using key_lt_trans.
Qed.

Lemma ranges_concat splitters (outs : list klist) (good : bytes -> KeyDirEntry -> Prop) :
  StronglySorted key_le splitters ->
  Forall2 (fun r run => sorted_run run /\ forall k e, (k, e) ∈ run <-> range_bounds splitters r k /\ good k e)
    (seq 0 (S (length splitters))) outs ->
  sorted_run (concat outs) /\ forall k e, (k, e) ∈ concat outs <-> good k e.
Proof.
  intros Hs Hf. split.
  - assert (Hgen : forall a n, (a + n = S (length splitters))%nat -> forall rs, Forall2 (fun r run => sorted_run run /\
      forall k e, (k, e) ∈ run <-> range_bounds splitters r k /\ good k e) (seq a n) rs -> sorted_run (concat rs)).
    { intros a n. revert a. induction n as [|n IH]; intros a Ha rs Hrs; [apply Forall2_nil_inv_l in Hrs as ->; constructor|].
      cbn [seq] in Hrs. apply Forall2_cons_inv_l in Hrs as (run & rs' & [Hr1 Hr2] & Hrs & ->). cbn [concat]. unfold sorted_run. rewrite fmap_app.
      apply StronglySorted_app_2; [|done|eapply (IH (S a)); [lia|done]]. intros k k' Hk Hk'.
      apply list_elem_of_fmap in Hk as ([k0 e] & -> & Hk), Hk' as ([k0' e'] & -> & Hk'). cbn. apply list_elem_of_concat in Hk' as (run' & Hk' & Hrun').
      apply list_elem_of_lookup in Hrun' as [i Hi]. destruct (Forall2_lookup_r _ _ _ _ _ Hrs Hi) as (r' & Hr' & _ & Hin').
      apply lookup_seq in Hr' as [-> Hlt]. destruct (proj1 (Hr2 _ _) Hk) as [Hb _], (proj1 (Hin' _ _) Hk') as [Hb' _]. eapply range_order; [done| | |exact Hb|exact Hb']; lia. }
    by apply (Hgen 0%nat (S (length splitters))).
  - intros k e. rewrite list_elem_of_concat. split.
    + intros (run & Hin & Hrun). apply list_elem_of_lookup in Hrun as [i Hi]. destruct (Forall2_lookup_r _ _ _ _ _ Hf Hi) as (r & _ & _ & Hr). by apply Hr in Hin as [_ ?].
    + intros Hg. destruct (range_exists splitters k) as (r & Hr & Hb).
      destruct (Forall2_lookup_l _ _ _ r r Hf) as (run & Hrun & _ & Hin); [apply lookup_seq; lia|].
      exists run. split; [by apply Hin|by eapply list_elem_of_lookup_2].
Qed.

(** ** Splitters *)

Lemma unique_keys_sublist l : unique_keys l `sublist_of` l.
Proof.
  induction l as [|x l IH]; [done|]. destruct l as [|y l]; [done|]. cbn [unique_keys] in *. destruct (bool_decide (x = y)); [by constructor|by constructor].
Qed.

Lemma pool_picks_sorted (pool : list bytes) (g : nat -> nat) rs :
  StronglySorted key_le pool -> StronglySorted (fun a b => (g a <= g b)%nat) rs -> StronglySorted key_le (omap (fun r => pool !! g r) rs).
Proof.
  intros Hp Hr. induction Hr as [|r rs Hr IH Hf]; [constructor|]. cbn [omap list_omap]. destruct (pool !! g r) as [x|] eqn:Ex; [|done].
  constructor; [done|]. apply Forall_forall. intros y Hy. apply list_elem_of_omap in Hy as (r' & Hin & Ey). rewrite Forall_forall in Hf. specialize (Hf r' Hin).
  destruct (decide (g r = g r')) as [E|]; [rewrite E, Ey in Ex; injection Ex as ->; by apply key_le_lteq; right|].
  eapply (sorted_lookup key_le pool (g r) (g r')); [done|done|done|lia].
Qed.

Lemma picks_ascend (R n : nat) a len : StronglySorted (fun x y => (x * n / R <= y * n / R)%nat) (seq a len).
Proof.
  revert a. induction len as [|len IH]; intros a; cbn [seq]; [constructor|]. constructor; [done|].
  apply Forall_forall. intros y Hy. apply elem_of_seq in Hy. destruct (decide (R = 0%nat)) as [->|]; [done|]. apply Nat.Div0.div_le_mono. nia.
Qed.

Lemma merge_sort_keys l : StronglySorted key_le (merge_sort key_le l).
Proof. apply StronglySorted_merge_sort; apply _. Qed.

Lemma range_splitters_sorted sample R parts : StronglySorted key_le (range_splitters sample R parts).
Proof.
  unfold range_splitters. destruct (R <=? 1)%nat; [constructor|].
  eapply (StronglySorted_sublist key_le); [|apply unique_keys_sublist].
  apply (pool_picks_sorted _ (fun r => (r * _ / R)%nat)); [apply merge_sort_keys|apply picks_ascend].
Qed.
