(* ===== verification/RecoverySpec.v ===== *)
(** * What recovery must restore

    The reference for the two loaders, over the entries the hint files list:
    the key directory holds, for each key, its newest Put unless a newer range
    tombstone covers it; the statistics are those of every entry, with the
    bytes the key directory references; the next sequence is above all.  The
    tombstones reported as needed are [enough]: what hides an older Put of
    another file is needed, or a third file hides that Put as well. *)

From S2P Require Import Prelude Codec HintFile KeyDir DataFile EngineState EngineProofs Hints Recovery Merging BuildProofs.
Import Serialization Types Stats Dir.

(** An entry for [k] or a range tombstone, in a file other than [F], that is
    newer than [q]. *)
Definition hidden_without (ls : list (Z * list HintRecord)) (rts : list RangeTombstone) (F : Z) (k : bytes) (q : Z) : Prop :=
  (exists x fx, (x, fx) ∈ at_key k ls /\ fx <> F /\ q < hr_sequence x)
  \/ exists rt, rt ∈ rts /\ rt_file_id rt <> F /\ rt_covers k rt = true /\ q < rt_seq rt.

(** A tombstone that is not needed hides no Put of another file that is not
    hidden without it. *)
Record enough (ls : list (Z * list HintRecord)) (rts : list RangeTombstone) (needed : Z -> Prop) : Prop := {
  en_point : forall k p f d fd, (p, f) ∈ at_key k ls -> hr_type p = Put -> (d, fd) ∈ at_key k ls -> hr_type d = Delete ->
    fd <> f -> hr_sequence p < hr_sequence d -> needed (hr_sequence d) \/ hidden_without ls rts fd k (hr_sequence p);
  en_range : forall k p f rt, (p, f) ∈ at_key k ls -> hr_type p = Put -> rt ∈ rts -> rt_covers k rt = true ->
    rt_file_id rt <> f -> hr_sequence p < rt_seq rt -> needed (rt_seq rt) \/ hidden_without ls rts (rt_file_id rt) k (hr_sequence p)
}.

Definition with_live (n : Z) (fs : FileStats) : FileStats :=
  mkFileStats n (total_bytes fs) (min_sequence fs) (max_sequence fs) (tombstone_bytes fs) (marker_bytes fs) (change_marker_bytes fs).

Section spec.
Context (hints : RecoveredFile -> option (list HintEntry.HintEntry)).

Definition runs (files : list RecoveredFile) : list (Z * list HintRecord) := hint_runs (opened hints files).
Definition ranges (files : list RecoveredFile) : list RangeTombstone := all_ranges (opened hints files).

(** The state [s'] and the tombstones a loader gives for [files]. *)
Record recovered (files : list RecoveredFile) (s s' : EngineState) (nt : NeededTombstones) : Prop := {
  rc_dir : forall k e, key_dir s' !! k = Some e <-> newest_put (runs files) (ranges files) k e;
  rc_stats : file_stats s' = list_to_map ((fun f => (rf_file_id f,
      with_live (wrap 64 (live_sum (rf_file_id f) (key_dir s'))) (hint_stats hints f))) <$> files);
  rc_next : next_seq s' = u64_add (seq_max (opened hints files)) 1;
  rc_markers : exists ms, ms ≡ₚ all_markers (opened hints files) /\ change_markers s' = sorted_markers ms;
  rc_rest : s' = with_recovered s (key_dir s') (next_seq s') (file_stats s') (change_markers s');
  rc_skipped : existsb (is_skipped hints) files = true -> nt = NeededTombstones_none;
  rc_needed : existsb (is_skipped hints) files = false ->
    nt_horizon nt = seq_max (opened hints files) /\ StronglySorted Z.lt (nt_sequences nt)
    /\ enough (runs files) (ranges files) (fun q => q ∈ nt_sequences nt)
}.

(** The hints fit what the engine writes: different files; a sequence belongs
    to one entry of a key; sequences are positive; fields pack. *)
Record sound_hints (files : list RecoveredFile) : Prop := {
  sh_files : NoDup (rf_file_id <$> files);
  sh_distinct : distinct_newest (runs files);
  sh_positive : positive_runs (runs files);
  sh_pack : runs_pack (runs files)
}.

(** ** The order of the files is irrelevant *)

Lemma opened_perm files files' : files ≡ₚ files' -> opened hints files ≡ₚ opened hints files'.
Proof. intros Hp. unfold opened. by rewrite Hp. Qed.

Lemma runs_perm files files' k r f : files ≡ₚ files' -> (r, f) ∈ at_key k (runs files) <-> (r, f) ∈ at_key k (runs files').
Proof. intros Hp%opened_perm. unfold runs, hint_runs, at_key. by rewrite Hp. Qed.

Lemma ranges_perm files files' rt : files ≡ₚ files' -> rt ∈ ranges files <-> rt ∈ ranges files'.
Proof. intros Hp%opened_perm. unfold ranges, all_ranges. by rewrite Hp. Qed.

Lemma sound_hints_perm files files' : files ≡ₚ files' -> sound_hints files -> sound_hints files'.
Proof.
  intros Hp [S1 S2 S3 S4]. split.
  - by rewrite <-Hp.
  - intros k r f r' f' Hr Hr'. apply (runs_perm _ _ _ _ _ Hp) in Hr, Hr'. by apply S2 with k.
  - intros k r f Hr. apply (runs_perm _ _ _ _ _ Hp) in Hr. by apply S3 in Hr.
  - intros k r f Hr. apply (runs_perm _ _ _ _ _ Hp) in Hr. by apply S4 in Hr.
Qed.

Lemma seq_max_nonneg ops : 0 <= seq_max ops.
Proof. apply foldr_max_nonneg. Qed.

Lemma seq_max_app ops ops' : seq_max (ops ++ ops') = Z.max (seq_max ops) (seq_max ops').
Proof.
  induction ops as [|p ops IH]; cbn [app]; [|rewrite !seq_max_cons, IH; lia]. pose proof (seq_max_nonneg ops'). unfold seq_max at 2. cbn. lia.
Qed.

Lemma seq_max_perm ops ops' : ops ≡ₚ ops' -> seq_max ops = seq_max ops'.
Proof.
  induction 1 as [|p ops ops' Hp IH|p q ops|ops ops' ops'' H1 IH1 H2 IH2]; [done|by rewrite !seq_max_cons, IH|rewrite !seq_max_cons; lia|congruence].
Qed.

Lemma suppresses_elem rts rts' k q :
  (forall rt, rt ∈ rts <-> rt ∈ rts') -> range_suppresses rts k q = range_suppresses rts' k q.
Proof.
  intros E. unfold range_suppresses. apply eq_bool_prop_intro. rewrite !Is_true_true, !existsb_exists.
  split; intros (rt & Hin%list_elem_of_In & Hb); exists rt; (split; [apply list_elem_of_In, E, Hin|done]).
Qed.

Lemma newest_put_perm files files' k e :
  files ≡ₚ files' -> newest_put (runs files) (ranges files) k e <-> newest_put (runs files') (ranges files') k e.
Proof.
  intros Hp. unfold newest_put, key_wins.
  assert (Hs : forall q, range_suppresses (ranges files) k q = range_suppresses (ranges files') k q).
  { intros q. apply suppresses_elem. intros rt. by apply ranges_perm. }
  split; intros (r & f & [Hr Hw] & Hty & Hsp & He); exists r, f.
  - rewrite Hs in Hsp. split_and!; try done; [by apply (runs_perm files files')|]. intros r' f' Hr'. apply (Hw r' f'). by apply (runs_perm files files').
  - rewrite <-Hs in Hsp. split_and!; try done; [by apply (runs_perm files files')|]. intros r' f' Hr'. apply (Hw r' f'). by apply (runs_perm files files').
Qed.

Lemma enough_perm files files' needed :
  files ≡ₚ files' -> enough (runs files) (ranges files) needed -> enough (runs files') (ranges files') needed.
Proof.
  intros Hp [E1 E2].
  assert (Hh : forall F k q, hidden_without (runs files) (ranges files) F k q -> hidden_without (runs files') (ranges files') F k q).
  { intros F k q [(x & fx & Hx & ?)|(rt & Hrt & ?)]; [left; exists x, fx|right; exists rt]; (split; [|done]).
    - by apply (runs_perm files files').
    - by apply (ranges_perm files files'). }
  split.
  - intros k p f d fd Hpp Ht Hd Htd Hf Hq. apply (runs_perm _ _ _ _ _ Hp) in Hpp, Hd. destruct (E1 k p f d fd) as [?|?]; auto.
  - intros k p f rt Hpp Ht Hrt Hc Hf Hq. apply (runs_perm _ _ _ _ _ Hp) in Hpp. apply (ranges_perm _ _ _ Hp) in Hrt.
    destruct (E2 k p f rt) as [?|?]; auto.
Qed.

(** A file has one newest entry per key. *)
Lemma at_key_file files k r r' f :
  NoDup (rf_file_id <$> files) -> (r, f) ∈ at_key k (runs files) -> (r', f) ∈ at_key k (runs files) -> r = r'.
Proof.
  intros Hn%(opened_nodup hints) (l & Hl & Hr)%elem_of_at_key (l' & Hl' & Hr')%elem_of_at_key.
  assert (l = l'); [|congruence]. unfold runs, hint_runs in Hl, Hl'.
  apply list_elem_of_fmap in Hl as ([f1 es] & [= -> ->] & Hin), Hl' as ([f2 es'] & [= -> ->] & Hin').
  assert ((f2, es) = (f2, es')) as [= ->]; [|done]. by apply (nodup_fmap_eq fst (opened hints files)).
Qed.
End spec.

(** ** The sequences reported *)

Lemma elem_of_unique x l : x ∈ unique l <-> x ∈ l.
Proof.
  induction l as [|a l IH]; [done|]. destruct l as [|b l]; [done|]. cbn [unique] in *.
  destruct (Z.eqb_spec a b) as [->|Hne]; rewrite ?IH, ?elem_of_cons in *; rewrite ?IH; [tauto|]. set_solver.
Qed.

Lemma unique_sorted l : StronglySorted Z.le l -> StronglySorted Z.lt (unique l).
Proof.
  induction 1 as [|a l Hs IH Hf]; [constructor|]. destruct l as [|b l]; [by constructor|]. cbn [unique] in *.
  destruct (Z.eqb_spec a b) as [->|Hne]; [done|]. constructor; [done|]. apply Forall_forall. intros x Hx.
  pose proof (proj1 (elem_of_unique x (b :: l)) Hx) as Hx'. apply StronglySorted_inv in Hs as [Hs Hb]. apply Forall_cons in Hf as [Hab _].
  apply elem_of_cons in Hx' as [->|Hx']; [lia|]. rewrite Forall_forall in Hb. specialize (Hb x Hx'). lia.
Qed.

Lemma needed_sequences point rts horizon :
  let nt := recovery_needed_tombstones point rts horizon false in
  nt_horizon nt = horizon /\ StronglySorted Z.lt (nt_sequences nt)
  /\ forall q, q ∈ nt_sequences nt <-> q ∈ point \/ exists rt, rt ∈ rts /\ rt_needed rt = true /\ rt_seq rt = q.
Proof.
  cbn. split_and!; [done|apply unique_sorted, StronglySorted_merge_sort; apply _|]. intros q.
  rewrite elem_of_unique, merge_sort_Permutation, elem_of_app, list_elem_of_fmap. apply or_iff_compat_l. split.
  - intros (rt & -> & [? ?]%list_elem_of_filter). by exists rt.
  - intros (rt & Hin & Hn & <-). exists rt. split; [done|]. by apply list_elem_of_filter.
Qed.
