(* ===== verification/RangedLoader.v ===== *)
(** * recovery_load_ranged restores the reference

    The workers' parts, their union and the merged ranges put together: the
    state the loader returns is the one [RecoverySpec] asks for, whatever the
    number of threads and whatever separators are sampled. *)

From S2P Require Import Prelude Codec HintFile KeyDir DataFile EngineState EngineProofs Hints Recovery Merging BuildProofs RangedProofs RecoverySpec.
Import Serialization Types Stats Dir.

(** ** Workers *)

Lemma concat_bucket {A} (B : nat -> list A) x i a n :
  (a <= i < a + n)%nat ->
  concat ((fun w => if (i =? w)%nat then x :: B w else B w) <$> seq a n) ≡ₚ x :: concat (B <$> seq a n).
Proof.
  revert a. induction n as [|n IH]; intros a Ha; [lia|]. cbn [seq fmap list_fmap concat]. destruct (Nat.eqb_spec i a) as [->|Hne].
  - cbn [app]. do 3 f_equiv. apply reflexive_eq, list_fmap_ext. intros j w Hw. apply lookup_seq in Hw as [-> _].
    destruct (Nat.eqb_spec a (S a + j)%nat); [lia|done].
  - rewrite IH by lia. by rewrite Permutation_middle.
Qed.

Lemma concat_buckets {A} (c : A -> nat) W (l : list A) :
  (forall x, x ∈ l -> c x < W)%nat ->
  concat ((fun w => omap (fun x => if (c x =? w)%nat then Some x else None) l) <$> seq 0 W) ≡ₚ l.
Proof.
  induction l as [|x l IH]; intros Hc.
  - clear. induction (seq 0 W) as [|w ws IH]; [done|]. cbn in *. exact IH.
  - etrans; [|apply Permutation_skip, IH; intros; apply Hc; by right]. rewrite <-(concat_bucket _ x (c x) 0 W) by (specialize (Hc x ltac:(left)); lia).
    apply reflexive_eq. f_equal. apply list_fmap_ext. intros j w _. cbn [omap list_omap]. by destruct (c x =? w)%nat.
Qed.

(** The workers share the files out. *)
Lemma worker_files_perm W files : (0 < W)%nat -> concat (worker_files W files) ≡ₚ files.
Proof.
  intros HW. unfold worker_files.
  assert (E : files = (imap pair files).*2).
  { rewrite fmap_imap. change (files = imap (const (fun x : RecoveredFile => x)) files). rewrite imap_const. symmetry. apply list_fmap_id. }
  etrans; [|apply reflexive_eq; symmetry; exact E]. etrans; [|apply Permutation_map, (concat_buckets (fun p => p.1 mod W)%nat W (imap pair files));
    intros p _; apply Nat.mod_upper_bound; lia].
  rewrite concat_map. apply reflexive_eq. f_equal. etrans; [|symmetry; apply map_map]. apply list_fmap_ext. intros j w _. clear.
  induction (imap pair files) as [|[i f] l IH]; [done|]. cbn [omap list_omap fst snd]. destruct (i mod W =? w)%nat; cbn; by rewrite IH.
Qed.

Lemma parallel_for_ok {St A B} (P : St -> Prop) (body : B -> io St A) (Q : B -> A -> Prop) (xs : list B) d :
  (forall x d, x ∈ xs -> P d -> exists a d', body x d = (Ok a, d') /\ P d' /\ Q x a) -> P d ->
  exists l d', parallel_for (body <$> xs) d = (Ok l, d') /\ P d' /\ Forall2 Q xs l.
Proof.
  revert d. induction xs as [|x xs IH]; intros d Hb Hd; [by exists [], d|]. cbn [fmap list_fmap parallel_for].
  destruct (Hb x d ltac:(left) Hd) as (a & d1 & E & Hd1 & HQ). destruct (IH d1) as (l & d2 & E2 & Hd2 & HF); [intros; apply Hb; [by right|done]|done|].
  exists (a :: l), d2. unfold mbind, io_bind, attempt, lift. rewrite E, E2. cbn [mbind result_bind]. by split_and!; [| |constructor].
Qed.

Lemma all_ok_spec {A B} (g : B -> result A) (Q : B -> A -> Prop) xs :
  (forall x, x ∈ xs -> exists a, g x = Ok a /\ Q x a) -> exists l, all_ok (g <$> xs) = Ok l /\ Forall2 Q xs l.
Proof.
  induction xs as [|x xs IH]; intros Hg; [by exists []|]. destruct (Hg x ltac:(left)) as (a & E & HQ).
  destruct IH as (l & El & HF); [intros; apply Hg; by right|]. exists (a :: l). cbn [fmap list_fmap all_ok]. rewrite E. cbn [mbind result_bind].
  rewrite El. by split; [|constructor].
Qed.

(** ** The statistics *)

Lemma add_live_default acc live f :
  default 0 (acc !! f) = wrap 64 (default 0 (acc !! f)) -> default 0 (live !! f) = wrap 64 (default 0 (live !! f)) ->
  default 0 (add_live acc live !! f) = wrap 64 (default 0 (acc !! f) + default 0 (live !! f)).
Proof.
  intros Ha Hl. unfold add_live. rewrite lookup_union_with. destruct (acc !! f) as [a|], (live !! f) as [b|]; cbn in *; [done|..].
  - by rewrite Z.add_0_r.
  - done.
  - done.
Qed.

Lemma add_lives f (lives : list (gmap Z Z)) (sums : list Z) acc q :
  Forall2 (fun live n => default 0 (live !! f) = wrap 64 n) lives sums -> default 0 (acc !! f) = wrap 64 q ->
  default 0 (foldl add_live acc lives !! f) = wrap 64 (foldl Z.add q sums).
Proof.
  intros HF. revert acc q. induction HF as [|live n lives sums Hl HF IH]; intros acc q Hq; [done|]. cbn [foldl]. apply IH.
  rewrite add_live_default; rewrite ?Hl, ?Hq; by autorewrite with u64.
Qed.

Lemma foldl_add_lsum {A} (w : A -> Z) (ls : list (list A)) q : foldl Z.add q (lsum w <$> ls) = q + lsum w (concat ls).
Proof. revert q. induction ls as [|l ls IH]; intros q; cbn; [rewrite lsum_nil; lia|]. rewrite IH, lsum_app. lia. Qed.

Lemma map_sum_run {A} (w : bytes -> A -> Z) l :
  NoDup l.*1 -> map_sum w (list_to_map l) = lsum (fun p => w p.1 p.2) l.
Proof. intros Hn. unfold map_sum. apply lsum_perm. by apply map_to_list_to_map. Qed.

Lemma stats_union (ms : list (list (Z * FileStats))) (m : gmap Z FileStats) :
  foldl (∪) m (list_to_map <$> ms) = m ∪ list_to_map (concat ms).
Proof.
  revert m. induction ms as [|l ms IH]; intros m; cbn [fmap list_fmap foldl concat]; [by rewrite right_id_L by apply _|].
  by rewrite IH, list_to_map_app, assoc_L by apply _.
Qed.

Lemma set_live_map {A} (live : gmap Z Z) (l : list A) (id : A -> Z) (g : A -> FileStats) :
  NoDup (id <$> l) ->
  map_imap (fun fid fs => Some (set_live live fid fs)) (list_to_map ((fun x => (id x, g x)) <$> l))
  = list_to_map ((fun x => (id x, with_live (default 0 (live !! id x)) (g x))) <$> l).
Proof.
  induction l as [|x l IH]; intros Hn; [done|]. cbn [fmap list_fmap] in *. apply NoDup_cons in Hn as [Hx Hn].
  cbn [list_to_map foldr fst snd]. rewrite map_imap_insert_Some with (y := with_live (default 0 (live !! id x)) (g x)) by done.
  f_equal. by apply IH.
Qed.

(** ** The tombstones needed *)

Lemma mark_indexes_lookup idxs (l : list RangeTombstone) i rt :
  l !! i = Some rt ->
  exists rt', mark_indexes idxs l !! i = Some rt' /\ same_range rt rt' /\ (rt_needed rt = true \/ i ∈ idxs -> rt_needed rt' = true).
Proof.
  unfold mark_indexes. revert l rt. induction idxs as [|j idxs IH]; intros l rt Hi; cbn [foldl].
  { exists rt. split_and!; [done|done|]. intros [?|?%elem_of_nil]; done. }
  destruct (decide (j = i)) as [->|Hne].
  - destruct (IH (alter need_range i l) (need_range rt)) as (rt' & E & Hs & Hn); [by rewrite list_lookup_alter, decide_True, Hi by done|].
    exists rt'. split_and!; [done|done|]. intros _. apply Hn. by left.
  - destruct (IH (alter need_range j l) rt) as (rt' & E & Hs & Hn); [by rewrite list_lookup_alter_ne|].
    exists rt'. split_and!; [done|done|]. intros [?|Hin]; apply Hn; [by left|]. right. by apply elem_of_cons in Hin as [->|?].
Qed.

Section finish.
Context (hints : RecoveredFile -> option (list HintEntry.HintEntry)).
Context (wfs : list (list RecoveredFile)) (parts : list RecoveryResult) (Hparts : Forall2 (part_ok hints) wfs parts).
Context (Hsound : sound_hints hints (concat wfs)).

Lemma at_key_ids w k r f : (r, f) ∈ at_key k (runs hints w) -> f ∈ rf_file_id <$> w.
Proof.
  intros (l & Hl & _)%elem_of_at_key. unfold runs, hint_runs in Hl. apply list_elem_of_fmap in Hl as ([f' es] & [= -> _] & Hin).
  apply (opened_files hints). by apply (list_elem_of_fmap_2' fst _ (f', es)).
Qed.

Lemma range_ids w rt : rt ∈ ranges hints w -> rt_file_id rt ∈ rf_file_id <$> w.
Proof.
  unfold ranges, all_ranges. intros (l & Hrt & Hl)%list_elem_of_concat. apply list_elem_of_fmap in Hl as ([f es] & -> & Hin).
  unfold hint_ranges in Hrt. apply list_elem_of_omap in Hrt as (he & _ & E). destruct (decide _); [|done]. injection E as <-. cbn [rt_file_id fst].
  apply (opened_files hints). by apply (list_elem_of_fmap_2' fst _ (f, es)).
Qed.

(** A file belongs to one worker. *)
Lemma worker_of_file w w' f : w ∈ wfs -> w' ∈ wfs -> f ∈ rf_file_id <$> w -> f ∈ rf_file_id <$> w' -> w = w'.
Proof.
  intros Hw Hw' Hf Hf'. destruct Hsound as [Hn _ _ _]. clear Hparts Hsound. revert Hn Hw Hw'. induction wfs as [|w0 l IH]; intros Hn Hw Hw'; [by apply elem_of_nil in Hw|].
  cbn [concat] in Hn. rewrite fmap_app in Hn. apply NoDup_app in Hn as (_ & Hd & Hn).
  assert (Hin : forall w1, w1 ∈ l -> f ∈ rf_file_id <$> w1 -> f ∈ rf_file_id <$> concat l).
  { intros w1 Hw1 Hf1. apply list_elem_of_fmap in Hf1 as (x & -> & Hx). apply (list_elem_of_fmap_2 rf_file_id). apply list_elem_of_concat. by exists w1. }
  apply elem_of_cons in Hw as [->|Hw], Hw' as [->|Hw']; [done| | |by apply IH].
  - destruct (Hd f Hf). by apply (Hin w').
  - destruct (Hd f Hf'). by apply (Hin w).
Qed.

(** A Put is in the merge of its part, or something of the part hides it. *)
Lemma put_in_part w k p f :
  w ∈ wfs -> (p, f) ∈ at_key k (runs hints w) -> hr_type p = Put ->
  (exists e, e ∈ on k (rr_key_dir <$> parts) /\ KeyDirEntry.sequence e = hr_sequence p /\ KeyDirEntry.file_id e = f)
  \/ (exists x fx, (x, fx) ∈ at_key k (runs hints w) /\ hr_sequence p < hr_sequence x)
  \/ exists rt, rt ∈ ranges hints w /\ rt_covers k rt = true /\ hr_sequence p < rt_seq rt.
Proof.
  intros Hw Hp Ht. destruct (key_wins_exists _ _ _ _ Hp) as (rw & fw & Hrw & Hwin). destruct Hsound as [_ Sd _ Sp].
  assert (Hall : forall r f', (r, f') ∈ at_key k (runs hints w) -> (r, f') ∈ at_key k (runs hints (concat wfs))).
  { intros r f' Hr. apply (at_key_parts hints). by exists w. }
  destruct (decide (hr_sequence p < hr_sequence rw)) as [Hlt|Hge]; [right; left; by exists rw, fw|].
  assert ((p, f) = (rw, fw)) as [= -> ->]. { apply (Sd k); [by apply Hall..|]. specialize (Hwin p f Hp). lia. }
  destruct (range_suppresses (ranges hints w) k (hr_sequence rw)) eqn:Es.
  { apply range_suppresses_true in Es as (rt & ? & ? & ?). right. right. by exists rt. }
  left. destruct (Sp k rw fw (Hall _ _ Hrw)) as [_ Hpk]. destruct (KeyDirEntry.make_fields _ _ _ _ Hpk) as (e & He & Hf).
  exists e. destruct Hf as [-> _ -> _]. split; [|done]. apply (on_parts hints wfs parts Hparts). exists w. split; [done|]. by exists rw, fw.
Qed.

(** Hidden within a part of which [F] is not a file. *)
Lemma hidden_by_part w w' F f k q :
  w ∈ wfs -> w' ∈ wfs -> F ∈ rf_file_id <$> w -> f ∈ rf_file_id <$> w' -> f ∉ rf_file_id <$> w ->
  (exists x fx, (x, fx) ∈ at_key k (runs hints w') /\ q < hr_sequence x)
  \/ (exists rt, rt ∈ ranges hints w' /\ rt_covers k rt = true /\ q < rt_seq rt) ->
  hidden_without (runs hints (concat wfs)) (ranges hints (concat wfs)) F k q.
Proof.
  intros Hw Hw' HF Hf Hnf. assert (Hne : forall f', f' ∈ rf_file_id <$> w' -> f' <> F).
  { intros f' Hf' ->. by rewrite (worker_of_file w w' F) in Hnf. }
  intros [(x & fx & Hx & Hq)|(rt & Hrt & Hc & Hq)]; [left; exists x, fx|right; exists rt]; split_and!; try done.
  - apply (at_key_parts hints). by exists w'.
  - by eapply Hne, at_key_ids.
  - apply (elem_of_ranges hints). by exists w'.
  - by apply Hne, range_ids.
Qed.

Section needed.
Context (splitters : list bytes) (outs : list RangeOut).
Context (Houts : Forall2 (fun r => range_ok hints wfs parts (range_lo splitters r) (range_hi splitters r)) (seq 0 (S (length splitters))) outs).

Let u := union_parts parts.
Let reported (q : Z) : Prop :=
  q ∈ un_needed u ++ concat (ro_needed <$> outs)
  \/ exists rt, rt ∈ mark_indexes (concat (ro_needed_ranges <$> outs)) (un_ranges u) /\ rt_needed rt = true /\ rt_seq rt = q.

Lemma out_of_key k : exists ro, ro ∈ outs /\ exists lo hi, in_bounds lo hi k /\ range_ok hints wfs parts lo hi ro.
Proof.
  destruct (range_exists splitters k) as (r & Hr & Hb). destruct (Forall2_lookup_l _ _ _ r r Houts) as (ro & Hro & Hok); [apply lookup_seq; lia|].
  exists ro. split; [by eapply list_elem_of_lookup_2|]. by eexists _, _.
Qed.

Lemma reported_point k e t :
  e ∈ on k (rr_key_dir <$> parts) -> un_tombstones u !! k = Some t -> KeyDirEntry.sequence e < pt_seq t -> reported (pt_seq t).
Proof.
  intros He Ht Hq. destruct (out_of_key k) as (ro & Hro & lo & hi & Hb & Hok). left. apply elem_of_app. right.
  apply list_elem_of_concat. exists (ro_needed ro). split; [|by apply list_elem_of_fmap_2]. apply (rg_needed _ _ _ _ _ _ Hok). by exists k, e, t.
Qed.

Lemma reported_range k e i rt :
  e ∈ on k (rr_key_dir <$> parts) -> un_ranges u !! i = Some rt -> KeyDirEntry.sequence e < rt_seq rt -> KeyDirEntry.file_id e <> rt_file_id rt ->
  rt_covers k rt = true -> reported (rt_seq rt).
Proof.
  intros He Ht Hq Hf Hc. destruct (out_of_key k) as (ro & Hro & lo & hi & Hb & Hok). right.
  destruct (mark_indexes_lookup (concat (ro_needed_ranges <$> outs)) (un_ranges u) i rt Ht) as (rt' & E & (_ & _ & Hs & _) & Hn).
  exists rt'. split_and!; [by eapply list_elem_of_lookup_2| |done]. apply Hn. right. apply list_elem_of_concat. exists (ro_needed_ranges ro).
  split; [|by apply list_elem_of_fmap_2]. apply (rg_needed_ranges _ _ _ _ _ _ Hok). by exists k, e, rt.
Qed.

Lemma ranged_enough : enough (runs hints (concat wfs)) (ranges hints (concat wfs)) reported.
Proof.
  split.
  - intros k p f d fd Hp Ht Hd Htd Hne Hq. apply (at_key_parts hints) in Hp as (w' & Hw' & Hp), Hd as (w & Hw & Hd).
    destruct (decide (f ∈ rf_file_id <$> w)) as [Hin|Hin].
    + assert (w' = w) as -> by (apply (worker_of_file w' w f); eauto using at_key_ids). left. left. apply elem_of_app. left.
      destruct (part_of_worker hints wfs parts Hparts w Hw) as (part & Hpart & Hok).
      destruct (union_parts_fields parts (mkUnion ∅ [] [] ∅ [] 0 false)) as (_ & E & _). unfold u, union_parts. rewrite E. cbn [un_needed app].
      apply list_elem_of_concat. exists (rr_needed part). split; [|by apply list_elem_of_fmap_2]. apply (pa_needed _ _ _ Hok).
      exists k, d, fd, p, f. by split_and!.
    + destruct (put_in_part w' k p f Hw' Hp Ht) as [(e & He & Eq & Ef)|Hh]; [|right; eapply (hidden_by_part w w'); eauto using at_key_ids].
      destruct Hsound as [Sn Sd Spos Spk]. pose proof (union_tombs hints wfs parts Hparts Spos) as HT.
      assert (Hd' : (d, fd) ∈ at_key k (runs hints (concat wfs))) by (apply (at_key_parts hints); by exists w).
      destruct (to_above _ _ HT k d fd Hd' Htd) as (t & Et & Hle). destruct (to_from _ _ HT k t Et) as (d' & fd' & Hd'' & _ & Eqt).
      destruct (decide (fd' = fd)) as [->|Hfd].
      * assert (d' = d) as -> by (by apply (at_key_file hints (concat wfs) k d' d fd)). left. rewrite <-Eqt. eapply reported_point; [done|done|lia].
      * right. left. exists d', fd'. split_and!; [done|done|lia].
  - intros k p f rt Hp Ht Hrt Hc Hne Hq. apply (at_key_parts hints) in Hp as (w' & Hw' & Hp). apply (elem_of_ranges hints) in Hrt as (w & Hw & Hrt).
    destruct (union_has_range hints wfs parts Hparts w rt Hw Hrt) as (rt' & Hin' & Hs & Hn). apply list_elem_of_lookup in Hin' as [i Hi].
    destruct (decide (f ∈ rf_file_id <$> w)) as [Hin|Hin].
    + assert (w' = w) as -> by (apply (worker_of_file w' w f); eauto using at_key_ids). left. right.
      destruct (mark_indexes_lookup (concat (ro_needed_ranges <$> outs)) (un_ranges u) i rt' Hi) as (rt2 & E & Hs2 & Hn2).
      exists rt2. split_and!; [by eapply list_elem_of_lookup_2| |].
      * apply Hn2. left. apply Hn. exists k, p, f. by split_and!.
      * destruct Hs as (_ & _ & -> & _), Hs2 as (_ & _ & -> & _). done.
    + destruct (put_in_part w' k p f Hw' Hp Ht) as [(e & He & Eq & Ef)|Hh]; [|right; eapply (hidden_by_part w w'); eauto using at_key_ids, range_ids].
      left. rewrite (same_range_covers _ _ k Hs) in Hc. destruct Hs as (_ & _ & Es & Ef'). rewrite Es. eapply (reported_range k e i rt'); [done|done|lia|congruence|done].
Qed.
End needed.
End finish.

(** ** The whole *)

Section ranged.
Context `{Zstd} `{Crc32c} (hints : RecoveredFile -> option (list HintEntry.HintEntry)).

Lemma union_of_parts wfs parts :
  Forall2 (part_ok hints) wfs parts -> let u := union_parts parts in
  un_max_seq u = seq_max (opened hints (concat wfs)) /\ un_markers u = all_markers (opened hints (concat wfs))
  /\ un_skipped u = existsb (is_skipped hints) (concat wfs)
  /\ un_stats u = list_to_map ((fun f => (rf_file_id f, hint_stats hints f)) <$> concat wfs).
Proof.
  intros HF u. destruct (union_parts_fields parts (mkUnion ∅ [] [] ∅ [] 0 false)) as (_ & _ & Em & Ex & Es & Et).
  unfold u, union_parts. rewrite Em, Ex, Es, Et. cbn [un_markers un_max_seq un_skipped un_stats app orb]. clear u Em Ex Es Et. split_and!.
  - assert (Hg : forall q, 0 <= q -> foldl Z.max q (rr_max_seq <$> parts) = Z.max q (seq_max (opened hints (concat wfs)))).
    { induction HF as [|w part wfs parts Hok HF IH]; intros q Hq; cbn [fmap list_fmap foldl concat].
      { unfold seq_max. cbn. lia. }
      rewrite IH by lia. rewrite (pa_max _ _ _ Hok). unfold opened at 3. rewrite omap_app. fold (opened hints w). fold (opened hints (concat wfs)).
      rewrite seq_max_app. lia. }
    rewrite Hg by lia. pose proof (seq_max_nonneg (opened hints (concat wfs))). lia.
  - induction HF as [|w part wfs parts Hok HF IH]; [done|]. cbn [fmap list_fmap concat]. rewrite IH, (pa_markers _ _ _ Hok).
    unfold all_markers, opened. by rewrite omap_app, fmap_app, concat_app.
  - induction HF as [|w part wfs parts Hok HF IH]; [done|]. cbn [concat existsb]. by rewrite IH, (pa_skipped _ _ _ Hok), existsb_app.
  - transitivity (foldl (∪) (∅ : gmap Z FileStats) (list_to_map <$> ((fun w => (fun f => (rf_file_id f, hint_stats hints f)) <$> w) <$> wfs))).
    + f_equal. rewrite <-list_fmap_compose. clear -HF. induction HF as [|w part wfs parts Hok HF IH]; [done|]. cbn [fmap list_fmap].
      rewrite IH, (pa_stats _ _ _ Hok). done.
    + rewrite stats_union, left_id_L by apply _. f_equal. symmetry. apply concat_map.
Qed.

Lemma finish_ranged_spec s wfs parts splitters outs files :
  Forall2 (part_ok hints) wfs parts -> files ≡ₚ concat wfs -> sound_hints hints files -> StronglySorted key_le splitters ->
  Forall2 (fun r => range_ok hints wfs parts (range_lo splitters r) (range_hi splitters r)) (seq 0 (S (length splitters))) outs ->
  let '(s', nt) := finish_ranged s (union_parts parts) outs in recovered hints files s s' nt.
Proof.
  intros HF Hp Hs Hsp Ho. pose proof (sound_hints_perm hints _ _ Hp Hs) as Hs'. destruct (union_of_parts wfs parts HF) as (Um & Uk & Us & Ut).
  destruct (ranges_concat splitters (ro_run <$> outs) (newest_put (runs hints (concat wfs)) (ranges hints (concat wfs)))) as [C1 C2]; [done| |].
  { apply Forall2_fmap_r. eapply Forall2_impl; [exact Ho|]. intros r ro Hok. split; [apply (rg_sorted _ _ _ _ _ _ Hok)|apply (rg_run _ _ _ _ _ _ Hok)]. }
  unfold finish_ranged. rewrite Um, Uk, Us, Ut. split; cbn [key_dir file_stats next_seq change_markers with_recovered].
  - intros k e. rewrite (newest_put_perm hints _ _ k e Hp), <-C2. symmetry. by apply elem_of_list_to_map, sorted_run_nodup.
  - rewrite set_live_map by apply (sh_files _ _ Hs'). etrans; [|apply list_to_map_proper; [|apply Permutation_map; symmetry; exact Hp]].
    + f_equal. apply list_fmap_ext. intros i f _. do 2 f_equal. unfold live_sum. rewrite map_sum_run by by apply sorted_run_nodup.
      rewrite (add_lives _ _ (lsum (fun p => live_weight (rf_file_id f) p.1 p.2) <$> (ro_run <$> outs)) ∅ 0); [| |done].
      * by rewrite foldl_add_lsum, Z.add_0_l.
      * apply Forall2_fmap, Forall2_fmap_r, Forall_Forall2_diag. apply Forall_forall. intros ro Hro. apply list_elem_of_lookup in Hro as [j Hj].
        destruct (Forall2_lookup_r _ _ _ _ _ Ho Hj) as (r & _ & Hok). apply (rg_live _ _ _ _ _ _ Hok).
    + change (map ?g ?l) with (g <$> l). rewrite <-list_fmap_compose. apply (sh_files _ _ Hs').
  - do 2 f_equal. apply seq_max_perm, opened_perm. by symmetry.
  - exists (all_markers (opened hints (concat wfs))). split; [|done]. unfold all_markers. by rewrite (opened_perm hints _ _ Hp).
  - done.
  - intros Hsk. unfold recovery_needed_tombstones. replace (existsb (is_skipped hints) (concat wfs)) with true; [done|]. symmetry.
    apply existsb_exists in Hsk as (f & Hf & Hb). apply existsb_exists. exists f. split; [|done]. apply list_elem_of_In. rewrite <-Hp. by apply list_elem_of_In.
  - intros Hsk. replace (existsb (is_skipped hints) (concat wfs)) with false.
    2:{ symmetry. apply not_true_iff_false. apply not_true_iff_false in Hsk. intros (f & Hf & Hb)%existsb_exists. apply Hsk, existsb_exists.
        exists f. split; [|done]. apply list_elem_of_In. rewrite Hp. by apply list_elem_of_In. }
    edestruct needed_sequences as (N1 & N2 & N3). split_and!; [rewrite N1; by apply seq_max_perm, opened_perm|exact N2|].
    apply (enough_perm hints (concat wfs)); [done|]. pose proof (ranged_enough hints wfs parts HF Hs' splitters outs Ho) as [E1 E2].
    split; [intros k p f d fd H1 H2 H3 H4 H5 H6|intros k p f rt H1 H2 H3 H4 H5 H6]; rewrite N3; eauto.
Qed.

Lemma sound_part wfs w : w ∈ wfs -> sound_hints hints (concat wfs) -> sound_hints hints w.
Proof.
  intros Hw [S1 S2 S3 S4]. assert (Hin : forall k r f, (r, f) ∈ at_key k (runs hints w) -> (r, f) ∈ at_key k (runs hints (concat wfs))).
  { intros k r f Hr. apply (at_key_parts hints). by exists w. }
  split.
  - apply elem_of_Permutation in Hw as (ws & E). rewrite E in S1. cbn [concat] in S1. rewrite fmap_app in S1. by apply NoDup_app in S1 as (? & _).
  - intros k r f r' f' Hr Hr'. apply (S2 k); auto.
  - intros k r f Hr. apply (S3 k r f). auto.
  - intros k r f Hr. apply (S4 k r f). auto.
Qed.

Lemma load_ranged_spec strict (P : Disk -> Prop) sample s files threads d :
  files <> [] -> (0 < threads)%nat -> Forall (opens strict P hints) files -> sound_hints hints files -> P d ->
  exists s' nt d', recovery_load_ranged sample s files threads strict d = (Ok (s', nt), d') /\ P d' /\ recovered hints files s s' nt.
Proof.
  intros Hne Ht Ho Hs Hd. set (W := (length files `min` threads)%nat).
  assert (HW : (0 < W)%nat) by (unfold W; destruct files; [done|cbn [length]; lia]).
  pose proof (worker_files_perm W files HW) as Hp.
  assert (Hs' : sound_hints hints (concat (worker_files W files))) by (by eapply sound_hints_perm).
  destruct (parallel_for_ok P (recovery_build_sorted strict) (part_ok hints) (worker_files W files) d) as (parts & d' & E & Hd' & HF); [|done|].
  { intros w d0 Hw Hd0. destruct (sound_part _ w Hw Hs') as [S1 S2 S3 S4]. 
    assert (Hw' : Forall (opens strict P hints) w).
    { apply Forall_forall. intros f Hf. rewrite Forall_forall in Ho. apply Ho. rewrite <-Hp. apply list_elem_of_concat. by exists w. }
    destruct (build_sorted_spec strict P hints w d0 Hw' S1 Hd0 S4 S2 S3) as (rr & d1 & E & Hd1 & Hok). by exists rr, d1. }
  set (splitters := range_splitters sample W parts).
  destruct Hs' as [S1 S2 S3 S4] eqn:EHs.
  destruct (all_ok_spec (merge_range parts (union_parts parts) splitters)
    (fun r => range_ok hints (worker_files W files) parts (range_lo splitters r) (range_hi splitters r)) (seq 0 (S (length splitters)))) as (outs & Eo & HO).
  { intros r _. by apply (merge_range_spec hints (worker_files W files) parts HF S2 S3 S4). }
  pose proof (finish_ranged_spec s (worker_files W files) parts splitters outs files HF (symmetry Hp) Hs (range_splitters_sorted sample W parts) HO) as Hfin.
  destruct (finish_ranged s (union_parts parts) outs) as [s' nt] eqn:Ef.
  exists s', nt, d'. split_and!; [|done|done]. unfold recovery_load_ranged. destruct files as [|f0 fl]; [done|]. fold W.
  unfold mbind, io_bind, lift, mret, io_ret. rewrite E. fold splitters. rewrite Eo, Ef. done.
Qed.
End ranged.
