(* ===== verification/StreamProofs.v ===== *)
(** * The range-by-range merge of the hint streams

    [recovery_load_streams] merges the hint files themselves, one key range at
    a time.  This file shows that a range merge visits the keys of its slice in
    order, keeps the newest Put of each unless a newer range tombstone covers
    it, and marks the tombstones that hide an older Put of another file; that
    the fences found by the first scan let a range start in the middle of a
    hint without missing an entry; and that the whole is what [RecoverySpec]
    asks for. *)

From S2P Require Import Prelude Codec HintFile KeyDir DataFile EngineState EngineProofs Hints Recovery Merging BuildProofs RangedProofs RecoverySpec RangedLoader.
Import Serialization Types Stats Dir.

(** ** Loading without notes *)

Definition no_note (f : Z) (he : HintEntry.HintEntry) (s : unit) : unit := s.

Lemma stream_load_spec hi c : cursor_ok c -> exists c', stream_load hi c = Ok c' /\ loaded hi c c'.
Proof.
  intros Hc. destruct (load_spec no_note hi kUnsorted c () Hc) as (cons & c' & E & _ & E2 & E3 & E4).
  exists c'. unfold stream_load. change (fun (_ : Z) (_ : HintEntry.HintEntry) (s : unit) => s) with no_note. rewrite E. by split.
Qed.

Lemma stream_load_all_spec hi cs :
  Forall cursor_ok cs -> exists cs', stream_load_all hi cs = Ok cs' /\ Forall2 (loaded hi) cs cs'.
Proof.
  induction 1 as [|c cs Hc Hcs (cs' & E & HF)]; [by exists []|]. destruct (stream_load_spec hi c Hc) as (c' & E' & Hl).
  exists (c' :: cs'). cbn [stream_load_all]. rewrite E'. cbn [mbind result_bind]. rewrite E. by split; [|constructor].
Qed.

(** ** The merge visits the keys in order *)

Fixpoint stream_fold (rts : list RangeTombstone) (tr : list (bytes * list (HintRecord * Z))) (o : StreamOut) : result StreamOut :=
  match tr with
  | [] => Ok o
  | (k, []) :: tr => stream_fold rts tr o
  | (k, best :: same) :: tr => o ← stream_key rts k best same o; stream_fold rts tr o
  end.

Lemma stream_merge_spec fuel hi rts (g : list (Cursor * list HintRecord)) o :
  (forall p, p ∈ g -> parked hi p.1 p.2) -> (cursors_left g.*1 <= fuel)%nat ->
  exists tr, trace_of (runs_of g) tr /\ stream_merge fuel hi rts g.*1 o = stream_fold rts tr o.
Proof.
  revert g o. induction fuel as [|fuel IH]; intros g o Hp Hf.
  { destruct g as [|[c l] g]; [exists []; split; [apply trace_of_nil; set_solver|done]|]. exfalso.
    destruct (parked_parked_on _ _ _ (Hp (c, l) ltac:(left))) as [(r & Hr & _) _ _ _ _]. cbn [fst] in Hr.
    cbn [fmap list_fmap fst] in Hf. rewrite cursors_left_cons, cursor_left_to_come, Hr in Hf. cbn in Hf. lia. }
  destruct (g.*1) as [|c heap] eqn:Hg.
  { apply fmap_nil_inv in Hg as ->. exists []. split; [apply trace_of_nil; set_solver|done]. }
  destruct (pop_min c heap) as [best rest0] eqn:E1. destruct (pop_same (length rest0) (cu_key best) rest0) as [same rest] eqn:E2.
  destruct (heap_pass hi g c heap best rest0 same rest Hp Hg E1 E2) as (Hperm & Hok & [r Hcur] & Hnext).
  destruct (stream_load_all_spec hi (best :: same) Hok) as (cs' & L1 & L2). destruct (Hnext cs' L2) as (g' & Hg' & Hp' & Hlt & Htr).
  set (o' := match stream_key rts (cu_key best) (r, cu_file_id best) (cursor_matches same) o with Ok o => o | Err _ => o end).
  destruct (IH g' o' Hp') as (tr & T1 & T2); [lia|].
  exists ((cu_key best, cursor_matches (best :: same)) :: tr). split; [by apply Htr|].
  unfold cursor_matches. cbn [omap list_omap]. rewrite Hcur. cbn [fmap option_fmap option_map stream_fold].
  cbn [stream_merge]. rewrite E1, E2, Hcur. fold (cursor_matches same). unfold o' in T2.
  destruct (stream_key rts _ _ _ o) as [o1|ex]; [|done]. cbn [mbind result_bind]. rewrite L1. cbn [mbind result_bind]. by rewrite Hg', T2.
Qed.

(** ** What it keeps *)

Lemma stream_newest_ok (w0 : HintRecord) fw0 e0 same :
  record_entry w0 fw0 = Ok e0 -> KeyDirEntry.sequence e0 = hr_sequence w0 ->
  (forall r f, (r, f) ∈ same -> exists e, record_entry r f = Ok e /\ KeyDirEntry.sequence e = hr_sequence r) ->
  (forall r f r' f', (r, f) ∈ (w0, fw0) :: same -> (r', f') ∈ (w0, fw0) :: same -> hr_sequence r = hr_sequence r' -> (r, f) = (r', f')) ->
  exists e, stream_newest w0 e0 same = Ok ((newest (w0, fw0) same).1, e)
    /\ record_entry (newest (w0, fw0) same).1 (newest (w0, fw0) same).2 = Ok e /\ KeyDirEntry.sequence e = hr_sequence (newest (w0, fw0) same).1.
Proof.
  revert w0 fw0 e0. induction same as [|[r f] same IH]; intros w0 fw0 e0 He0 Hs0 Hsame Hd; [by exists e0|].
  destruct (Hsame r f ltac:(left)) as (e & He & Hs). cbn [stream_newest]. rewrite He. cbn [mbind result_bind].
  assert (E : kde_newer e e0 = Ok (hr_sequence w0 <? hr_sequence r)).
  { unfold kde_newer. rewrite Hs, Hs0. destruct (Z.eqb_spec (hr_sequence r) (hr_sequence w0)) as [Heq|Hne]; [|done].
    assert ((r, f) = (w0, fw0)) as [= -> ->] by (apply Hd; [by right; left|by left|done]). rewrite He in He0. injection He0 as ->.
    by rewrite !Z.eqb_refl, Z.ltb_irrefl. }
  rewrite E. cbn [mbind result_bind newest foldl fst]. destruct (hr_sequence w0 <? hr_sequence r).
  - apply (IH r f e); try done; [intros; apply Hsame; by right|]. intros r1 f1 r2 f2 H1 H2. apply Hd; by right.
  - apply (IH w0 fw0 e0); try done; [intros; apply Hsame; by right|].
    intros r1 f1 r2 f2 H1 H2. apply Hd; [apply elem_of_cons in H1 as [->|H1]|apply elem_of_cons in H2 as [->|H2]]; by (left || (right; right)).
Qed.

(** What the pass over a trace gives. *)
Definition stream_out (rts : list RangeTombstone) (tr : list (bytes * list (HintRecord * Z))) : klist :=
  omap (fun p => (fun e => (p.1, e)) <$> survivor rts p.1 p.2) tr.

Definition stream_all (rts : list RangeTombstone) (tr : list (bytes * list (HintRecord * Z))) (o : StreamOut) : StreamOut :=
  mkStreamOut (so_run o ++ stream_out rts tr) (foldl count_live (so_live o) (stream_out rts tr))
    (so_needed o ++ concat ((fun p => match_needed p.2) <$> tr))
    ((fun rt => foldl (fun rt p => mark_range p.1 p.2 rt) rt tr) <$> so_ranges o).

(** The matches pack, and no two share a sequence. *)
Definition stream_packs (tr : list (bytes * list (HintRecord * Z))) : Prop :=
  forall k ms, (k, ms) ∈ tr -> ms <> [] /\ size k <= kBTreeMaxKeyBytes
    /\ (forall r f, (r, f) ∈ ms -> exists e, record_entry r f = Ok e /\ KeyDirEntry.sequence e = hr_sequence r)
    /\ (forall r f r' f', (r, f) ∈ ms -> (r', f') ∈ ms -> hr_sequence r = hr_sequence r' -> (r, f) = (r', f')).

Lemma blind_append_ok k e out :
  size k <= kBTreeMaxKeyBytes -> (forall p, p ∈ out -> key_lt p.1 k) -> blind_append k e out = Ok (out ++ [(k, e)]).
Proof.
  intros Hk Ho. unfold blind_append. rewrite (proj2 (Z.ltb_ge _ _) Hk). cbn [throw_if mbind result_bind].
  destruct (last out) as [[p e']|] eqn:El; [|done]. rewrite (proj2 (key_ltb_spec p k)); [done|]. apply (Ho (p, e')). by apply last_Some_elem_of.
Qed.

Lemma stream_key_ok rts k best same o :
  stream_packs [(k, best :: same)] -> (forall p, p ∈ so_run o -> key_lt p.1 k) ->
  stream_key rts k best same o = Ok (stream_all rts [(k, best :: same)] o).
Proof.
  intros Hp Ho. destruct (Hp k (best :: same) ltac:(left)) as (_ & Hk & Hr & Hd). destruct best as [w0 fw0].
  destruct (Hr w0 fw0 ltac:(left)) as (e0 & He0 & Hs0).
  destruct (stream_newest_ok w0 fw0 e0 same He0 Hs0) as (e & E & He & Hs); [intros; apply Hr; by right|done|].
  unfold stream_key. cbn [fst snd]. rewrite He0. cbn [mbind result_bind]. rewrite E. cbn [mbind result_bind]. rewrite mark_needed_eq.
  unfold stream_all, stream_out. cbn [omap list_omap fst snd survivor fmap list_fmap concat foldl]. rewrite He, Hs, app_nil_r.
  destruct (_ && _); [|by rewrite app_nil_r]. rewrite blind_append_ok by done. done.
Qed.

Lemma stream_all_cons rts k ms tr o : stream_all rts tr (stream_all rts [(k, ms)] o) = stream_all rts ((k, ms) :: tr) o.
Proof.
  unfold stream_all, stream_out. cbn [so_run so_live so_needed so_ranges foldl omap list_omap fmap list_fmap concat fst snd]. f_equal.
  - rewrite <-app_assoc. by destruct (survivor rts k ms).
  - by destruct (survivor rts k ms).
  - by rewrite app_nil_r, <-app_assoc.
  - by rewrite <-list_fmap_compose.
Qed.

Lemma stream_fold_ok rts tr o :
  stream_packs tr -> StronglySorted key_lt tr.*1 -> (forall p q, p ∈ so_run o -> q ∈ tr -> key_lt p.1 q.1) ->
  stream_fold rts tr o = Ok (stream_all rts tr o).
Proof.
  revert o. induction tr as [|[k ms] tr IH]; intros o Hp Hs Ho.
  - unfold stream_all. cbn. rewrite !app_nil_r, list_fmap_id. by destruct o.
  - destruct (Hp k ms ltac:(left)) as (Hne & _). destruct ms as [|best same]; [done|]. cbn [stream_fold fmap list_fmap fst] in *.
    apply StronglySorted_inv in Hs as [Hs Hf]. rewrite Forall_fmap, Forall_forall in Hf.
    rewrite stream_key_ok; [|intros k' ms' [= -> ->]%list_elem_of_singleton; apply Hp; by left|intros p Hin; apply (Ho p (k, best :: same)); [done|left]].
    cbn [mbind result_bind]. rewrite IH, stream_all_cons; [done|intros k' ms' ?; apply Hp; by right|done|].
    intros p q Hin Hq. unfold stream_all in Hin. cbn [so_run] in Hin. apply elem_of_app in Hin as [Hin|Hin]; [apply Ho; [done|by right]|].
    unfold stream_out in Hin. cbn [omap list_omap fst snd] in Hin. destruct (survivor rts k (best :: same)); cbn in Hin; [|by apply elem_of_nil in Hin].
    apply list_elem_of_singleton in Hin as ->. by apply (Hf q).
Qed.

(** ** The first scan *)

Abbreviation pentry := (Position * HintEntry.HintEntry)%type.

(** Everything a scan notes but the fences. *)
Definition scanned (f : Z) (es : list HintEntry.HintEntry) (run : FileRun) : FileRun :=
  mkFileRun (fr_hint run) (fr_data_start run) (fr_fences run) (fr_ranges run ++ hint_ranges f es) (foldl note_stats (fr_stats run) es)
    (foldl (fun m he => Z.max m (HintEntry.sequence he)) (fr_max_seq run) es) (fr_markers run ++ hint_markers es).

Lemma scan_head f end_ (ph pr : list pentry) nf prev run :
  Forall (fun p => is_data (HintEntry.entry_type p.2) = false) ph ->
  scan_run f None end_ (ph ++ pr) false nf prev run = scan_run f None end_ pr false nf prev (scanned f ph.*2 run).
Proof.
  intros Hh. revert run. induction Hh as [|[at_ he] ph Ht Hh IH]; intros run.
  { unfold scanned, hint_ranges, hint_markers. cbn. rewrite !app_nil_r. by destruct run. }
  cbn [app scan_run fmap list_fmap snd] in *. unfold scanned, hint_ranges, hint_markers in *. cbn [omap list_omap foldl].
  destruct (HintEntry.entry_type he) eqn:Et; try done; rewrite IH; f_equal; cbn; by rewrite <-?app_assoc.
Qed.

(** A fence marks the first entry of its key. *)
Definition fence_ok (pr : list pentry) (fe : Fence) : Prop :=
  exists pre he post, pr = pre ++ (fe_at fe, he) :: post /\ Forall (fun q => key_lt (HintEntry.key q.2) (fe_key fe)) pre.

Definition last_key (l : list pentry) : option bytes := (fun p => HintEntry.key p.2) <$> last l.

Lemma last_key_below (l : list pentry) k :
  StronglySorted key_le ((fun p : pentry => HintEntry.key p.2) <$> l ++ [k]) -> last_key l <> Some (HintEntry.key k.2) ->
  Forall (fun q => key_lt (HintEntry.key q.2) (HintEntry.key k.2)) l.
Proof.
  intros Hs Hne. destruct (last l) as [z|] eqn:El; [|apply last_None in El as ->; constructor].
  unfold last_key in Hne. rewrite El in Hne. cbn in Hne. rewrite fmap_app in Hs. apply StronglySorted_app in Hs as (Hlk & Hl & _).
  assert (Hz : key_lt (HintEntry.key z.2) (HintEntry.key k.2)).
  { specialize (Hlk (HintEntry.key z.2) (HintEntry.key k.2)). apply key_le_lteq in Hlk as [?|E]; [done|congruence| |].
    - apply (list_elem_of_fmap_2' (fun p : pentry => HintEntry.key p.2) _ z); [by apply last_Some_elem_of|done].
    - by left. }
  apply last_Some in El as [l' ->]. rewrite fmap_app in Hl. apply StronglySorted_app in Hl as (Hlz & _ & _). apply Forall_app. split; [|by constructor].
  apply Forall_forall. intros q Hq. specialize (Hlz (HintEntry.key q.2) (HintEntry.key z.2)). apply key_le_lteq in Hlz as [?|E].
  - by eapply key_lt_trans.
  - by rewrite E.
  - by apply (list_elem_of_fmap_2' (fun p : pentry => HintEntry.key p.2) _ q).
  - by left.
Qed.

Lemma scan_data f end_ (pr done_ rest : list pentry) nf run :
  pr = done_ ++ rest -> data_run pr.*2 -> StronglySorted key_le ((fun p => HintEntry.key p.2) <$> pr) -> Forall (fence_ok pr) (fr_fences run) ->
  exists run', scan_run f None end_ rest (bool_decide (done_ <> [])) nf (last_key done_) run = Ok run'
    /\ Forall (fence_ok pr) (fr_fences run')
    /\ fr_data_start run' = (if decide (done_ = []) then default end_ (fst <$> head rest) else fr_data_start run)
    /\ (let sc := scanned f rest.*2 run in fr_hint run' = fr_hint sc /\ fr_ranges run' = fr_ranges sc /\ fr_stats run' = fr_stats sc
        /\ fr_max_seq run' = fr_max_seq sc /\ fr_markers run' = fr_markers sc).
Proof.
  revert done_ nf run. induction rest as [|[at_ he] rest IH]; intros done_ nf run E Hd Hs Hf.
  - cbn [scan_run]. eexists. split; [reflexivity|]. destruct (decide (done_ = [])) as [->|Hne].
    + rewrite bool_decide_eq_false_2 by naive_solver. unfold scanned, hint_ranges, hint_markers. cbn. rewrite !app_nil_r. by split_and!.
    + rewrite bool_decide_eq_true_2 by done. unfold scanned, hint_ranges, hint_markers. cbn. rewrite !app_nil_r. by split_and!.
  - assert (E' : pr = (done_ ++ [(at_, he)]) ++ rest) by (by rewrite <-app_assoc).
    assert (Ht : HintEntry.entry_type he = Put \/ HintEntry.entry_type he = Delete).
    { rewrite E in Hd. unfold data_run in Hd. rewrite fmap_app in Hd. apply Forall_app in Hd as [_ Hd]. by apply Forall_inv in Hd. }
    set (run1 := mkFileRun (fr_hint run) (if bool_decide (done_ <> []) then fr_data_start run else at_) (fr_fences run) (fr_ranges run)
      (note_stats (fr_stats run) he) (Z.max (fr_max_seq run) (HintEntry.sequence he)) (fr_markers run)).
    assert (Hstep : exists nf1 run2, scan_run f None end_ ((at_, he) :: rest) (bool_decide (done_ <> [])) nf (last_key done_) run
        = scan_run f None end_ rest true nf1 (Some (HintEntry.key he)) run2
      /\ Forall (fence_ok pr) (fr_fences run2) /\ fr_data_start run2 = fr_data_start run1 /\ fr_hint run2 = fr_hint run1
      /\ fr_ranges run2 = fr_ranges run1 /\ fr_stats run2 = fr_stats run1 /\ fr_max_seq run2 = fr_max_seq run1 /\ fr_markers run2 = fr_markers run1).
    { cbn [scan_run].
      match goal with |- exists _ _, ?lhs = _ /\ _ => assert (El : lhs = if bool_decide (last_key done_ = Some (HintEntry.key he)) then scan_run f None end_ rest true nf (last_key done_) run1
        else let '(run, nf) := if position_ltb at_ nf then (run1, nf) else (mkFileRun (fr_hint run1) (fr_data_start run1) (fr_fences run1 ++ [mkFence (HintEntry.key he) at_])
               (fr_ranges run1) (fr_stats run1) (fr_max_seq run1) (fr_markers run1), mkPosition (frame at_) ((offset at_ / kFenceStep + 1) * kFenceStep)) in
             scan_run f None end_ rest true nf (Some (HintEntry.key he)) run)
      end.
      { unfold run1. destruct Ht as [-> | ->]; destruct (bool_decide (done_ <> [])); reflexivity. }
      rewrite El. clear El. case_bool_decide as Hk.
      - rewrite Hk. by eexists nf, run1.
      - destruct (position_ltb at_ nf); [by eexists nf, run1|]. eexists _, _. split; [reflexivity|]. cbn. split_and!; try done.
        apply Forall_app. split; [done|]. constructor; [|done]. exists done_, he, rest. split; [done|]. cbn [fe_key].
        apply (last_key_below done_ (at_, he)); [|done]. rewrite E', fmap_app in Hs. by apply StronglySorted_app in Hs as (_ & ? & _). }
    destruct Hstep as (nf1 & run2 & -> & F1 & F2 & F3 & F4 & F5 & F6 & F7).
    destruct (IH (done_ ++ [(at_, he)]) nf1 run2 E' Hd Hs F1) as (run' & I1 & I2 & I3 & I4).
    exists run'. rewrite bool_decide_eq_true_2 in I1 by (by destruct done_). unfold last_key in I1. rewrite last_snoc in I1. cbn [fmap option_fmap option_map snd] in I1.
    split_and!; [exact I1|exact I2| |].
    + rewrite decide_False in I3 by (by destruct done_). rewrite I3, F2. unfold run1. cbn [fr_data_start head fmap option_fmap option_map default].
      destruct (decide (done_ = [])) as [->|Hne]; [by rewrite bool_decide_eq_false_2 by naive_solver|by rewrite bool_decide_eq_true_2].
    + unfold scanned in *. cbn [fr_hint fr_ranges fr_stats fr_max_seq fr_markers fmap list_fmap snd foldl] in *. destruct I4 as (-> & -> & -> & -> & ->).
      rewrite F3, F4, F5, F6, F7. unfold run1. cbn [fr_hint fr_ranges fr_stats fr_max_seq fr_markers]. unfold hint_ranges, hint_markers. cbn [omap list_omap].
      by destruct Ht as [-> | ->].
Qed.

(** ** Starting in the middle *)

Lemma seek_to (pre post : list pentry) p he end_ :
  StronglySorted position_lt ((pre ++ (p, he) :: post).*1 ++ [end_]) -> seek p (pre ++ (p, he) :: post) = (p, he) :: post.
Proof.
  induction pre as [|[q h] pre IH]; intros Hs.
  - cbn [app seek]. replace (position_ltb p p) with false; [done|]. symmetry. apply not_true_iff_false. intros Hp. apply (position_lt_spec p p) in Hp. lia.
  - cbn [app seek fmap list_fmap fst] in *. apply StronglySorted_inv in Hs as [Hs Hq]. rewrite Forall_forall in Hq.
    assert (Hlt : position_ltb q p = true).
    { apply (Hq p). apply elem_of_app. left. apply (list_elem_of_fmap_2' fst _ (p, he)); [|done]. apply elem_of_app. right. by left. }
    rewrite Hlt. by apply IH.
Qed.

Lemma seek_end (l : list pentry) end_ : StronglySorted position_lt (l.*1 ++ [end_]) -> seek end_ l = [].
Proof.
  induction l as [|[q h] l IH]; intros Hs; [done|]. cbn [app seek fmap list_fmap fst] in *. apply StronglySorted_inv in Hs as [Hs Hq].
  rewrite Forall_forall in Hq. assert (Hlt : position_ltb q end_ = true) by (apply (Hq end_); apply elem_of_app; right; by left).
  rewrite Hlt. by apply IH.
Qed.

Lemma fence_below_spec lo fences start :
  fence_below lo fences start = start \/ exists fe, fe ∈ fences /\ key_lt (fe_key fe) lo /\ fence_below lo fences start = fe_at fe.
Proof.
  revert start. induction fences as [|fe fences IH]; intros start; cbn [fence_below]; [by left|].
  destruct (key_ltb (fe_key fe) lo) eqn:E; [|by left]. apply key_ltb_spec in E. right.
  destruct (IH (fe_at fe)) as [->|(fe' & Hin & Hk & ->)]; [exists fe; split; [left|done]|exists fe'; split; [by right|done]].
Qed.

Lemma skip_below_spec lo es :
  data_run es -> run_sorted (assign <$> es) ->
  exists la rest, skip_below lo None es = Ok (la, rest) /\ data_run rest
    /\ option_list la ++ (assign <$> rest) = filter (fun r => key_le lo (hr_key r)) (assign <$> es).
Proof.
  induction es as [|he es IH]; intros Hd Hs; [by exists None, []|]. apply Forall_cons in Hd as [Ht Hd].
  unfold run_sorted in Hs. cbn [fmap list_fmap] in Hs. apply StronglySorted_inv in Hs as [Hs Hf].
  assert (E : skip_below lo None (he :: es) = if key_ltb (HintEntry.key he) lo then skip_below lo None es else Ok (Some (assign he), es))
    by (cbn [skip_below]; by destruct Ht as [-> | ->]).
  rewrite E. cbn [fmap list_fmap]. rewrite filter_cons. cbn [hr_key assign]. destruct (key_ltb (HintEntry.key he) lo) eqn:Ek.
  - rewrite decide_False; [by apply IH|]. intros Hle%key_leb_spec. by rewrite key_leb_ltb, Ek in Hle.
  - assert (Hle : key_le lo (HintEntry.key he)) by (apply key_leb_spec; by rewrite key_leb_ltb, Ek).
    rewrite decide_True by done. exists (Some (assign he)), es. split_and!; [done|done|]. cbn. f_equal. symmetry. apply filter_all.
    rewrite Forall_fmap, Forall_forall in Hf. intros r Hr. specialize (Hf r Hr). cbn in Hf. by transitivity (HintEntry.key he).
Qed.

Section scans.
Context `{Zstd} `{Crc32c} (hints : RecoveredFile -> option (list HintEntry.HintEntry)).

(** What the first scan of a file leaves. *)
Record scan_of (f : RecoveredFile) (run : FileRun) : Prop := {
  so_hint : match hints f with
            | None => fr_hint run = None
            | Some es => exists sc ph pr, fr_hint run = Some sc /\ scan_ok sc /\ hs_entries sc = ph ++ pr
                /\ data_run pr.*2 /\ run_sorted (assign <$> pr.*2) /\ assign <$> pr.*2 = hint_records es
                /\ Forall (fence_ok pr) (fr_fences run) /\ fr_data_start run = default (hs_end sc) (fst <$> head pr)
            end;
  so_scan_ranges : fr_ranges run = hint_ranges (rf_file_id f) (default [] (hints f));
  so_scan_stats : fr_stats run = hint_stats hints f;
  so_scan_max : fr_max_seq run = foldl (fun m he => Z.max m (HintEntry.sequence he)) 0 (default [] (hints f));
  so_scan_markers : fr_markers run = hint_markers (default [] (hints f))
}.

Lemma scan_file_spec strict (P : Disk -> Prop) f d :
  opens strict P hints f -> P d -> exists run d', scan_file strict f d = (Ok run, d') /\ P d' /\ scan_of f run.
Proof.
  intros Ho Hd. destruct (Ho d Hd) as (d' & Hd' & Hm). unfold scan_file, mbind, io_bind, lift, mret, io_ret. unfold hint_stats.
  destruct (hints f) as [es|] eqn:Eh.
  2:{ rewrite Hm. eexists _, d'. split_and!; [reflexivity|done|]. split; unfold hint_stats; rewrite Eh; done. }
  destruct Hm as (sc & -> & [Hpos Herr] & Hes & Hsort). rewrite Herr.
  destruct Hsort as (hd & run0 & Ees & Hh & Hr & Hs). subst es.
  set (ph := take (length hd) (hs_entries sc)). set (pr := drop (length hd) (hs_entries sc)).
  assert (Eph : ph.*2 = hd) by (unfold ph; rewrite fmap_take, Ees, take_app_length; done).
  assert (Epr : pr.*2 = run0) by (unfold pr; rewrite fmap_drop, Ees, drop_app_length; done).
  assert (Esc : hs_entries sc = ph ++ pr) by (unfold ph, pr; by rewrite take_drop).
  set (run00 := mkFileRun (Some sc) (mkPosition 0 0) [] [] (initial_stats (rf_total_bytes f)) 0 []).
  destruct (scan_data (rf_file_id f) (hs_end sc) pr [] pr (mkPosition 0 0) (scanned (rf_file_id f) ph.*2 run00)) as (run' & E & F1 & F2 & F3 & F4 & F5 & F6 & F7);
    [done|by rewrite Epr| |constructor|].
  { replace ((fun p : pentry => HintEntry.key p.2) <$> pr) with (HintEntry.key <$> pr.*2) by (by rewrite <-list_fmap_compose). by rewrite Epr. }
  exists run', d'. split_and!; [|done|].
  - rewrite Esc. fold run00. rewrite scan_head; [by rewrite <-E|]. by rewrite <-(Forall_fmap snd (fun he => is_data (HintEntry.entry_type he) = false)), Eph.
  - split; unfold hint_stats; rewrite Eh; cbn [default].
    + exists sc, ph, pr. split_and!; try done.
      * by rewrite Epr.
      * rewrite Epr. unfold run_sorted. rewrite <-list_fmap_compose. exact Hs.
      * rewrite Epr, Ees. unfold hint_records. rewrite filter_app, (filter_all_not _ hd), (filter_all _ run0); [done|..].
        -- rewrite Forall_forall in Hr. intros x Hx. by apply Hr.
        -- rewrite Forall_forall in Hh. intros x Hx [Hp|Hp]; specialize (Hh x Hx); by rewrite Hp in Hh.
    + rewrite F4. unfold scanned, hint_ranges. cbn [fr_ranges run00 app]. by rewrite Ees, Eph, Epr, <-omap_app.
    + rewrite F5. unfold scanned. cbn [fr_stats run00]. by rewrite Ees, Eph, Epr, <-foldl_app.
    + rewrite F6. unfold scanned. cbn [fr_max_seq run00]. by rewrite Ees, Eph, Epr, <-foldl_app.
    + rewrite F7. unfold scanned, hint_markers. cbn [fr_markers run00 app]. by rewrite Ees, Eph, Epr, <-omap_app.
Qed.

Lemma open_cursor_spec lo hi f es sc run :
  scan_of f run -> hints f = Some es -> fr_hint run = Some sc ->
  exists c0 c', open_cursor lo hi (rf_file_id f) sc run = Ok c' /\ loaded hi c0 c' /\ cu_file_id c0 = rf_file_id f
    /\ to_come c0 = filter (fun r => key_le lo (hr_key r)) (hint_records es).
Proof.
  intros [Hh _ _ _ _] Eh Er. rewrite Eh in Hh. destruct Hh as (sc' & ph & pr & Er' & [Hpos Herr] & Esc & Hd & Hs & Erec & Hfe & Hst).
  rewrite Er in Er'. injection Er' as <-. rewrite <-Erec.
  assert (Hseek : exists pre post, pr = pre ++ post /\ Forall (fun q => key_lt (HintEntry.key q.2) lo) pre
    /\ seek (if bool_decide (lo = []) then fr_data_start run else fence_below lo (fr_fences run) (fr_data_start run)) (hs_entries sc) = post
    /\ (lo = [] -> pre = [])).
  { assert (Hall : seek (fr_data_start run) (hs_entries sc) = pr).
    { rewrite Hst, Esc. rewrite Esc in Hpos. destruct pr as [|[p he] pr]; cbn [head fmap option_fmap option_map default fst].
      - rewrite app_nil_r in *. by apply seek_end.
      - by apply (seek_to ph pr p he (hs_end sc)). }
    case_bool_decide as Hlo; [by exists [], pr; split_and!; [|constructor| |]|].
    destruct (fence_below_spec lo (fr_fences run) (fr_data_start run)) as [->|(fe & Hin & Hk & ->)]; [by exists [], pr; split_and!; [|constructor| |]|].
    rewrite Forall_forall in Hfe. destruct (Hfe fe Hin) as (pre & he & post & -> & Hpre). exists pre, ((fe_at fe, he) :: post). split_and!; [done| | |done].
    - eapply Forall_impl; [exact Hpre|]. intros q Hq. by apply (key_lt_trans _ (fe_key fe)).
    - rewrite Esc in Hpos |- *. rewrite app_assoc in Hpos |- *. by apply (seek_to (ph ++ pre) post (fe_at fe) he (hs_end sc)). }
  destruct Hseek as (pre & post & -> & Hpre & Eseek & Hnil). unfold open_cursor. rewrite Eseek, Herr.
  rewrite fmap_app in Hd, Hs |- *. rewrite fmap_app in Hs |- *. apply Forall_app in Hd as [_ Hd].
  unfold run_sorted in Hs. rewrite fmap_app in Hs. apply StronglySorted_app in Hs as (_ & _ & Hs).
  assert (Hflt : filter (fun r => key_le lo (hr_key r)) ((assign <$> pre.*2) ++ (assign <$> post.*2)) = filter (fun r => key_le lo (hr_key r)) (assign <$> post.*2)).
  { rewrite filter_app, (filter_all_not _ (assign <$> pre.*2)); [done|]. intros r Hr. apply list_elem_of_fmap in Hr as (he & -> & Hhe).
    apply list_elem_of_fmap in Hhe as (q & -> & Hq). rewrite Forall_forall in Hpre. specialize (Hpre q Hq). cbn. intros Hle.
    apply key_le_lteq in Hle as [Hle|E]; [by destruct (key_lt_irrefl _ (key_lt_trans _ _ _ Hle Hpre))|rewrite <-E in Hpre; by apply key_lt_irrefl in Hpre]. }
  assert (Hskip : exists la rest, (if bool_decide (lo = []) then Ok (None, post.*2) else skip_below lo None post.*2) = Ok (la, rest)
    /\ data_run rest /\ option_list la ++ (assign <$> rest) = filter (fun r => key_le lo (hr_key r)) (assign <$> post.*2)).
  { case_bool_decide as Hlo; [|by apply skip_below_spec]. exists None, post.*2. split_and!; [done|done|]. cbn. symmetry. apply filter_all.
    intros r _. subst lo. apply key_le_nil. }
  destruct Hskip as (la & rest & -> & Hdr & Erest). cbn [mbind result_bind].
  set (c0 := mkCursor rest None (rf_file_id f) None la). assert (Etc : to_come c0 = filter (fun r => key_le lo (hr_key r)) (assign <$> post.*2)) by (by rewrite <-Erest).
  destruct (stream_load_spec hi c0) as (c' & E & Hl).
  { split; [done|done|]. rewrite Etc. unfold run_sorted. eapply StronglySorted_sublist; [exact Hs|]. apply fmap_sublist, sublist_filter. }
  exists c0, c'. split_and!; [exact E|done|done|]. by rewrite Etc, Hflt.
Qed.

(** The runs cut to a slice. *)
Definition sliced (lo : bytes) (hi : option bytes) (ls : list (Z * list HintRecord)) : list (Z * list HintRecord) :=
  (fun p => (p.1, filter (fun r => in_bounds lo hi (hr_key r)) p.2)) <$> ls.

Lemma open_cursors_spec lo hi files frs :
  Forall2 scan_of files frs ->
  exists c0s cs', open_cursors lo hi (zip (rf_file_id <$> files) frs) = Ok (filter (fun c => has_cur c = true) cs')
    /\ Forall2 (loaded hi) c0s cs' /\ slice_left hi <$> c0s = sliced lo hi (runs hints files).
Proof.
  induction 1 as [|f run files frs Hr HF (c0s & cs' & E & HL & Es)]; [by exists [], []|]. cbn [fmap list_fmap zip zip_with open_cursors].
  unfold runs, opened. cbn [omap list_omap]. destruct (hints f) as [es|] eqn:Eh; cbn [fmap option_fmap option_map].
  - pose proof (so_hint _ _ Hr) as Hh. rewrite Eh in Hh. destruct Hh as (sc & ph & pr & Er & _). rewrite Er.
    destruct (open_cursor_spec lo hi f es sc run Hr Eh Er) as (c0 & c' & Ec & Hl & Hf & Ht). rewrite Ec. cbn [mbind result_bind]. rewrite E. cbn [mbind result_bind].
    exists (c0 :: c0s), (c' :: cs'). split_and!; [|by constructor|].
    + rewrite filter_cons. destruct (has_cur c') eqn:Eb; [by rewrite decide_True|by rewrite decide_False].
    + cbn [fmap list_fmap]. rewrite Es. unfold sliced, runs, hint_runs. cbn [fmap list_fmap fst snd]. unfold slice_left at 1. rewrite Hf, Ht.
      unfold in_slice. rewrite list_filter_filter. do 2 f_equal. apply list_filter_iff. intros r. unfold in_bounds. tauto.
  - pose proof (so_hint _ _ Hr) as Hh. rewrite Eh in Hh. rewrite Hh. exists c0s, cs'. by split_and!.
Qed.

Lemma run_newest_filter (Q : bytes -> Prop) `{forall k, Decision (Q k)} k l :
  run_newest k (filter (fun r => Q (hr_key r)) l) = if decide (Q k) then run_newest k l else None.
Proof.
  destruct (decide (Q k)) as [Hk|Hk].
  - unfold run_newest. generalize (None : option HintRecord) as acc. induction l as [|r l IH]; intros acc; [done|]. rewrite filter_cons.
    destruct (decide (Q (hr_key r))) as [Hr|Hr]; cbn [foldl]; [apply IH|].
    rewrite IH. f_equal. unfold newer_of. rewrite decide_False; [done|]. intros E. apply Hr. by rewrite E.
  - apply run_newest_none. intros r Hr%list_elem_of_filter E. apply Hk. rewrite <-E. apply Hr.
Qed.

Lemma at_key_sliced lo hi ls k : at_key k (sliced lo hi ls) = if decide (in_bounds lo hi k) then at_key k ls else [].
Proof.
  unfold at_key, sliced. induction ls as [|[f l] ls IH]; [by destruct (decide _)|]. cbn [fmap list_fmap omap list_omap fst snd].
  rewrite (run_newest_filter (in_bounds lo hi)), IH. by destruct (decide (in_bounds lo hi k)).
Qed.

(** ** One range *)

Lemma elem_of_sliced lo hi ls k r f : (r, f) ∈ at_key k (sliced lo hi ls) <-> in_bounds lo hi k /\ (r, f) ∈ at_key k ls.
Proof. rewrite at_key_sliced. destruct (decide (in_bounds lo hi k)); [tauto|]. split; [by intros ?%elem_of_nil|tauto]. Qed.

Definition reaching_ranges (lo : bytes) (hi : option bytes) (rts : list RangeTombstone) : list RangeTombstone :=
  filter (fun rt => below hi (rt_start rt) && above lo (rt_end rt) = true) rts.

Lemma reaching_ranges_suppresses lo hi rts k q :
  in_bounds lo hi k -> range_suppresses (reaching_ranges lo hi rts) k q = range_suppresses rts k q.
Proof.
  intros Hk. apply eq_bool_prop_intro. rewrite !Is_true_true, !range_suppresses_true. unfold reaching_ranges. split.
  - intros (rt & [_ Hin]%list_elem_of_filter & Hrt). by exists rt.
  - intros (rt & Hin & Hs & Hc). exists rt. split; [|done]. apply list_elem_of_filter. split; [|done]. rewrite andb_true_iff. by eapply covers_reaches.
Qed.

Lemma newest_put_sliced lo hi ls rts k e :
  newest_put (sliced lo hi ls) (reaching_ranges lo hi rts) k e <-> in_bounds lo hi k /\ newest_put ls rts k e.
Proof.
  unfold newest_put, key_wins. split.
  - intros (r & f & [Hr Hw] & Ht & Hs & He). apply elem_of_sliced in Hr as [Hb Hr]. rewrite reaching_ranges_suppresses in Hs by done.
    split; [done|]. exists r, f. split_and!; try done. intros r' f' Hr'. apply (Hw r' f'). by apply elem_of_sliced.
  - intros [Hb (r & f & [Hr Hw] & Ht & Hs & He)]. exists r, f. rewrite reaching_ranges_suppresses by done. split_and!; try done.
    + by apply elem_of_sliced.
    + intros r' f' [_ Hr']%elem_of_sliced. by apply (Hw r' f').
Qed.

Lemma scans_ranges files frs : Forall2 scan_of files frs -> concat (fr_ranges <$> frs) = ranges hints files.
Proof.
  unfold ranges, all_ranges, opened. induction 1 as [|f run files frs Hr HF IH]; [done|]. cbn [fmap list_fmap concat omap list_omap].
  rewrite IH, (so_scan_ranges _ _ Hr). by destruct (hints f).
Qed.

Section files.
Context (files : list RecoveredFile) (frs : list FileRun) (Hscan : Forall2 scan_of files frs) (Hsound : sound_hints hints files).

Let rts := ranges hints files.

Record stream_range_ok (lo : bytes) (hi : option bytes) (so : StreamOut) : Prop := {
  sr_sorted : sorted_run (so_run so);
  sr_run : forall k e, (k, e) ∈ so_run so <-> in_bounds lo hi k /\ newest_put (runs hints files) rts k e;
  sr_live : forall f, default 0 (so_live so !! f) = wrap 64 (lsum (fun p => live_weight f p.1 p.2) (so_run so));
  sr_needed : forall q, q ∈ so_needed so <-> point_needed (sliced lo hi (runs hints files)) q;
  sr_ranges : Forall2 (fun rt rt' => same_range rt rt' /\ (rt_needed rt' = true <-> range_needed (sliced lo hi (runs hints files)) rt))
                (reaching_ranges lo hi rts) (so_ranges so)
}.

Lemma trace_stream_packs lo hi tr : trace_of (sliced lo hi (runs hints files)) tr -> stream_packs tr /\ packs tr.
Proof.
  intros T. destruct Hsound as [_ Sd _ Sp].
  assert (Hin : forall k ms, (k, ms) ∈ tr -> forall r f, (r, f) ∈ ms -> (r, f) ∈ at_key k (runs hints files)).
  { intros k ms Hk r f Hr. apply (trace_lookup _ _ k ms r f T Hk) in Hr. by apply elem_of_sliced in Hr as [_ ?]. }
  assert (Hrec : forall k ms, (k, ms) ∈ tr -> forall r f, (r, f) ∈ ms -> size k <= kBTreeMaxKeyBytes
    /\ exists e, record_entry r f = Ok e /\ KeyDirEntry.sequence e = hr_sequence r).
  { intros k ms Hk r f Hr. destruct (Sp k r f) as [Hsz Hpk]; [by eapply Hin|]. destruct (KeyDirEntry.make_fields _ _ _ _ Hpk) as (e & He & []).
    split; [done|]. by exists e. }
  assert (Hsz : forall k ms, (k, ms) ∈ tr -> ms <> [] /\ size k <= kBTreeMaxKeyBytes).
  { intros k ms Hk. destruct (tr_match _ _ T k ms Hk) as [Hne _]. split; [done|]. destruct ms as [|[r f] ms]; [done|].
    by apply (Hrec k _ Hk r f ltac:(left)). }
  split.
  - intros k ms Hk. destruct (Hsz k ms Hk) as [? ?]. split_and!; [done|done|intros r f Hr; by apply (Hrec k ms)|].
    intros r f r' f' Hr Hr'. apply (Sd k); by eapply Hin.
  - intros k ms Hk. destruct (Hsz k ms Hk) as [? ?]. split_and!; [done|done|]. intros r f Hr. destruct (Hrec k ms Hk r f Hr) as (_ & e & ? & _). by exists e.
Qed.

Lemma distinct_sliced lo hi : distinct_newest (sliced lo hi (runs hints files)).
Proof. intros k r f r' f' [_ Hr]%elem_of_sliced [_ Hr']%elem_of_sliced. by apply (sh_distinct _ _ Hsound k). Qed.

Lemma range_fresh rt : rt ∈ rts -> rt_needed rt = false.
Proof.
  unfold rts, ranges, all_ranges. intros (l & Hrt & Hl)%list_elem_of_concat. apply list_elem_of_fmap in Hl as (p & -> & _).
  unfold hint_ranges in Hrt. apply list_elem_of_omap in Hrt as (he & _ & Ehe). destruct (decide _); [|done]. by injection Ehe as <-.
Qed.

Lemma stream_range_spec splitters r :
  exists so, stream_range (zip (rf_file_id <$> files) frs) rts splitters r = Ok so
    /\ stream_range_ok (range_lo splitters r) (range_hi splitters r) so.
Proof.
  unfold stream_range. set (lo := range_lo splitters r). set (hi := range_hi splitters r). fold (reaching_ranges lo hi rts).
  destruct (open_cursors_spec lo hi files frs Hscan) as (c0s & cs' & E & HL & Es). rewrite E. cbn [mbind result_bind].
  destruct (loaded_heap hi c0s cs' HL) as (gl & em & G1 & G2 & G3 & G4 & _). rewrite G1.
  destruct (stream_merge_spec (cursors_left gl.*1) hi (reaching_ranges lo hi rts) gl (mkStreamOut [] ∅ [] (reaching_ranges lo hi rts)) G2 ltac:(lia)) as (tr & T0 & Em).
  assert (T : trace_of (sliced lo hi (runs hints files)) tr).
  { rewrite <-Es. apply (trace_of_perm (em ++ runs_of gl)); [done|by apply trace_of_empties]. }
  destruct (trace_stream_packs lo hi tr T) as [Hsp Hpk]. rewrite Em, stream_fold_ok; [|done|exact (tr_sorted _ _ T)|by intros p q ?%elem_of_nil].
  eexists. split; [reflexivity|]. unfold stream_all. cbn [so_run so_live so_needed so_ranges app].
  destruct (merged_out (sliced lo hi (runs hints files)) tr (reaching_ranges lo hi rts) T (distinct_sliced lo hi) Hpk) as [O1 O2].
  split; cbn [so_run so_live so_needed so_ranges].
  - exact O1.
  - intros k e. rewrite <-newest_put_sliced. exact (O2 k e).
  - intros f. destruct (count_live_sum (stream_out (reaching_ranges lo hi rts) tr) ∅ f) as [-> |Hn]; [done|]. by rewrite lookup_empty in Hn.
  - intros q. by apply merged_needed.
  - apply Forall2_fmap_r, Forall_Forall2_diag, Forall_forall. intros rt Hrt. destruct (mark_trace_spec _ tr rt T) as [M1 M2]. split; [done|]. rewrite M2.
    split; [|by right]. intros [Hb|?]; [|done]. apply list_elem_of_filter in Hrt as [_ Hrt]. by rewrite range_fresh in Hb.
Qed.

(** The tombstones the ranges mark are enough: every Put and what hides it
    meet in the range of their key. *)
Lemma streams_enough splitters outs :
  Forall2 (fun r => stream_range_ok (range_lo splitters r) (range_hi splitters r)) (seq 0 (S (length splitters))) outs ->
  enough (runs hints files) rts (fun q => q ∈ concat ((fun o => so_needed o ++ (rt_seq <$> filter (fun rt => rt_needed rt = true) (so_ranges o))) <$> outs)).
Proof.
  intros Ho. assert (Hk : forall k, exists so lo hi, so ∈ outs /\ in_bounds lo hi k /\ stream_range_ok lo hi so).
  { intros k. destruct (range_exists splitters k) as (r & Hr & Hb). destruct (Forall2_lookup_l _ _ _ r r Ho) as (so & Hso & Hok); [apply lookup_seq; lia|].
    exists so, (range_lo splitters r), (range_hi splitters r). split; [by eapply list_elem_of_lookup_2|done]. }
  assert (Hin : forall so q, so ∈ outs -> q ∈ so_needed so ++ (rt_seq <$> filter (fun rt => rt_needed rt = true) (so_ranges so)) ->
    q ∈ concat ((fun o => so_needed o ++ (rt_seq <$> filter (fun rt => rt_needed rt = true) (so_ranges o))) <$> outs)).
  { intros so q Hso Hq. apply list_elem_of_concat. eexists. split; [exact Hq|].
    by apply (list_elem_of_fmap_2' (fun o => so_needed o ++ (rt_seq <$> filter (fun rt => rt_needed rt = true) (so_ranges o))) _ so). }
  split.
  - intros k p f d fd Hp Ht Hd Htd Hne Hq. left. destruct (Hk k) as (so & lo & hi & Hso & Hb & Hok). apply (Hin so); [done|]. apply elem_of_app. left.
    apply (sr_needed _ _ _ Hok). exists k, d, fd, p, f. rewrite !elem_of_sliced. by split_and!.
  - intros k p f rt Hp Ht Hrt Hc Hne Hq. left. destruct (Hk k) as (so & lo & hi & Hso & Hb & Hok). apply (Hin so); [done|]. apply elem_of_app. right.
    assert (Hrr : rt ∈ reaching_ranges lo hi rts) by (apply list_elem_of_filter; rewrite andb_true_iff; split; [by eapply covers_reaches|done]).
    apply list_elem_of_lookup in Hrr as [i Hi]. destruct (Forall2_lookup_l _ _ _ _ _ (sr_ranges _ _ _ Hok) Hi) as (rt' & Hi' & (_ & _ & Hs & _) & Hn).
    rewrite Hs. apply list_elem_of_fmap_2. apply list_elem_of_filter. split; [|by eapply list_elem_of_lookup_2]. apply Hn. exists k, p, f. rewrite elem_of_sliced. by split_and!.
Qed.
End files.

(** ** The whole *)

Lemma stream_splitters_sorted W (frs : list FileRun) : StronglySorted key_le (stream_splitters W frs).
Proof.
  unfold stream_splitters. destruct (W <=? 1)%nat; [constructor|]. set (pool := merge_sort _ _).
  assert (Hg : forall rs sp, StronglySorted key_le sp -> StronglySorted key_le (foldl (fun splitters r =>
    match pool !! (r * length pool / W)%nat with None => splitters | Some k =>
      match last splitters with Some back => if key_ltb back k then splitters ++ [k] else splitters | None => [k] end end) sp rs)).
  { induction rs as [|r rs IH]; intros sp Hsp; [done|]. cbn [foldl]. apply IH. destruct (pool !! _) as [k|]; [|done].
    destruct (last sp) as [back|] eqn:El; [|by repeat constructor]. destruct (key_ltb back k) eqn:Ek; [|done]. apply StronglySorted_app_2; [|done|by repeat constructor].
    intros x y Hx ->%list_elem_of_singleton. apply key_ltb_spec in Ek. apply last_Some in El as [l' ->].
    apply elem_of_app in Hx as [Hx| ->%list_elem_of_singleton]; [|apply key_le_lteq; by left].
    apply StronglySorted_app in Hsp as (Hb & _ & _). transitivity back; [apply Hb; [done|by left]|]. apply key_le_lteq. by left. }
  apply Hg. constructor.
Qed.

Lemma scans_fields files frs :
  Forall2 scan_of files frs ->
  foldl (fun m run => Z.max m (fr_max_seq run)) 0 frs = seq_max (opened hints files)
  /\ concat (fr_markers <$> frs) = all_markers (opened hints files)
  /\ existsb (fun run => negb (bool_decide (is_Some (fr_hint run)))) frs = existsb (is_skipped hints) files.
Proof.
  intros HF. split_and!.
  - assert (Hmax : forall (es : list HintEntry.HintEntry) q, 0 <= q -> foldl (fun m he => Z.max m (HintEntry.sequence he)) q es = Z.max q (foldr Z.max 0 (HintEntry.sequence <$> es))).
    { induction es as [|he es IH]; intros q Hq; cbn; [lia|]. rewrite IH by lia. lia. }
    assert (Hg : forall q, 0 <= q -> foldl (fun m run => Z.max m (fr_max_seq run)) q frs = Z.max q (seq_max (opened hints files))).
    { induction HF as [|f run files frs Hr HF IH]; intros q Hq; cbn [foldl]; [unfold seq_max; cbn; lia|].
      rewrite IH by lia. rewrite (so_scan_max _ _ Hr), Hmax by lia. unfold opened at 2. cbn [omap list_omap]. fold (opened hints files).
      destruct (hints f) as [es|]; cbn [fmap option_fmap option_map default]; [rewrite seq_max_cons; cbn [snd]; unfold Datatypes.id; pose proof (foldr_max_nonneg (HintEntry.sequence <$> es)); lia|]. pose proof (seq_max_nonneg (opened hints files)). cbn. lia. }
    rewrite Hg by lia. pose proof (seq_max_nonneg (opened hints files)). lia.
  - unfold all_markers, opened. induction HF as [|f run files frs Hr HF IH]; [done|]. cbn [fmap list_fmap concat omap list_omap].
    rewrite IH, (so_scan_markers _ _ Hr). by destruct (hints f).
  - induction HF as [|f run files frs Hr HF IH]; [done|]. cbn [existsb]. rewrite IH. f_equal. pose proof (so_hint _ _ Hr) as Hh. unfold is_skipped.
    destruct (hints f) as [es|].
    + destruct Hh as (sc & ph & pr & -> & _). by rewrite bool_decide_eq_true_2.
    + rewrite Hh. by rewrite bool_decide_eq_false_2 by apply is_Some_None.
Qed.

Lemma scans_stats live files frs :
  Forall2 scan_of files frs -> NoDup (rf_file_id <$> files) ->
  foldl (fun m p => <[p.1 := set_live live p.1 (fr_stats p.2)]> m) (∅ : gmap Z FileStats) (zip (rf_file_id <$> files) frs)
  = list_to_map ((fun f => (rf_file_id f, with_live (default 0 (live !! rf_file_id f)) (hint_stats hints f))) <$> files).
Proof.
  intros HF Hn. assert (Hg : forall m : gmap Z FileStats, (forall f, f ∈ files -> m !! rf_file_id f = None) ->
    foldl (fun m p => <[p.1 := set_live live p.1 (fr_stats p.2)]> m) m (zip (rf_file_id <$> files) frs)
    = list_to_map ((fun f => (rf_file_id f, with_live (default 0 (live !! rf_file_id f)) (hint_stats hints f))) <$> files) ∪ m).
  { induction HF as [|f run files frs Hr HF IH]; intros m Hm; [cbn; by rewrite left_id_L by apply _|].
    cbn [fmap list_fmap zip zip_with foldl list_to_map foldr fst snd] in *. apply NoDup_cons in Hn as [Hf Hn]. rewrite IH; [|done|].
    - rewrite (so_scan_stats _ _ Hr), <-insert_union_l, insert_union_r; [done|]. apply not_elem_of_list_to_map_1. rewrite <-list_fmap_compose. exact Hf.
    - intros f' Hf'. rewrite lookup_insert_ne; [apply Hm; by right|]. intros E. apply Hf. rewrite E. by apply list_elem_of_fmap_2. }
  rewrite Hg by (intros f _; apply lookup_empty). by rewrite right_id_L by apply _.
Qed.

Lemma finish_streams_spec s files frs splitters outs :
  Forall2 scan_of files frs -> sound_hints hints files -> StronglySorted key_le splitters ->
  Forall2 (fun r => stream_range_ok files (range_lo splitters r) (range_hi splitters r)) (seq 0 (S (length splitters))) outs ->
  let '(s', nt) := finish_streams s (zip (rf_file_id <$> files) frs) outs in recovered hints files s s' nt.
Proof.
  intros HF Hs Hsp Ho. assert (Ez : (zip (rf_file_id <$> files) frs).*2 = frs).
  { apply snd_zip. rewrite length_fmap. by rewrite (Forall2_length _ _ _ HF). }
  destruct (scans_fields files frs HF) as (Um & Uk & Us). unfold finish_streams. rewrite Ez, Um, Uk, Us.
  destruct (ranges_concat splitters (so_run <$> outs) (newest_put (runs hints files) (ranges hints files))) as [C1 C2]; [done| |].
  { apply Forall2_fmap_r. eapply Forall2_impl; [exact Ho|]. intros r so Hok. split; [apply (sr_sorted _ _ _ _ Hok)|apply (sr_run _ _ _ _ Hok)]. }
  rewrite scans_stats by (done || apply (sh_files _ _ Hs)).
  split; cbn [key_dir file_stats next_seq change_markers with_recovered].
  - intros k e. rewrite <-C2. symmetry. by apply elem_of_list_to_map, sorted_run_nodup.
  - f_equal. apply list_fmap_ext. intros i f _. do 2 f_equal. unfold live_sum. rewrite map_sum_run by by apply sorted_run_nodup.
    rewrite (add_lives _ _ (lsum (fun p => live_weight (rf_file_id f) p.1 p.2) <$> (so_run <$> outs)) ∅ 0); [| |done].
    + by rewrite foldl_add_lsum, Z.add_0_l.
    + apply Forall2_fmap, Forall2_fmap_r, Forall_Forall2_diag. apply Forall_forall. intros so Hso. apply list_elem_of_lookup in Hso as [j Hj].
      destruct (Forall2_lookup_r _ _ _ _ _ Ho Hj) as (r & _ & Hok). apply (sr_live _ _ _ _ Hok).
  - done.
  - by exists (all_markers (opened hints files)).
  - done.
  - intros Hsk. by rewrite Hsk.
  - intros Hsk. rewrite Hsk. edestruct needed_sequences as (N1 & N2 & N3). split_and!; [exact N1|exact N2|].
    pose proof (streams_enough files splitters outs Ho) as [E1 E2].
    split; [intros k p f d fd X1 X2 X3 X4 X5 X6; destruct (E1 k p f d fd) as [?|?]|intros k p f rt X1 X2 X3 X4 X5 X6; destruct (E2 k p f rt) as [?|?]];
      try done; [left; rewrite N3; by left|by right|left; rewrite N3; by left|by right].
Qed.

(** Every file is scanned by one worker. *)
Lemma scan_files_spec strict (P : Disk -> Prop) (l : list (nat * RecoveredFile)) d :
  Forall (opens strict P hints) l.*2 -> P d ->
  exists rs d', scan_files strict l d = (Ok rs, d') /\ P d' /\ rs.*1 = l.*1 /\ Forall2 scan_of l.*2 rs.*2.
Proof.
  revert d. induction l as [|[i f] l IH]; intros d Ho Hd; [by exists [], d; split_and!|]. cbn [fmap list_fmap fst snd] in Ho. apply Forall_cons in Ho as [Hf Ho].
  destruct (scan_file_spec strict P f d Hf Hd) as (run & d1 & E & Hd1 & Hr). destruct (IH d1 Ho Hd1) as (rs & d2 & E2 & Hd2 & Hi & HF).
  exists ((i, run) :: rs), d2. cbn [scan_files]. unfold mbind, io_bind, mret, io_ret. rewrite E, E2. cbn [fmap list_fmap fst snd]. rewrite Hi. by split_and!; [| | |constructor].
Qed.

Lemma file_runs_spec (files : list RecoveredFile) W scanned :
  (0 < W)%nat ->
  Forall2 (fun w rs => rs.*1 = (filter (fun p => (p.1 mod W)%nat = w) (imap pair files)).*1
             /\ Forall2 scan_of (filter (fun p => (p.1 mod W)%nat = w) (imap pair files)).*2 rs.*2) (seq 0 W) scanned ->
  Forall2 scan_of files (file_runs (length files) scanned).
Proof.
  intros HW HF. apply Forall2_same_length_lookup_2; [unfold file_runs; by rewrite length_fmap, length_seq|]. intros i f run Hf Hr.
  unfold file_runs in Hr. rewrite list_lookup_fmap, lookup_seq_lt in Hr by (by eapply lookup_lt_Some). cbn in Hr. injection Hr as <-.
  set (cls := fun w => filter (fun p : nat * RecoveredFile => (p.1 mod W)%nat = w) (imap pair files)).
  assert (Hin : forall j g, (j, g) ∈ imap pair files <-> files !! j = Some g).
  { intros j g. rewrite elem_of_lookup_imap. split; [by intros (? & ? & [= -> ->] & ?)|]. intros Hg. by exists j, g. }
  assert (Hrs : forall w rs j run, seq 0 W !! w = Some w -> scanned !! w = Some rs -> (j, run) ∈ rs -> exists g, files !! j = Some g /\ (j mod W)%nat = w /\ scan_of g run).
  { intros w rs j run Hw Hrs Hj. destruct (Forall2_lookup_lr _ _ _ _ _ _ HF Hw Hrs) as [E1 E2]. fold (cls w) in E1, E2.
    apply list_elem_of_lookup in Hj as [n Hn]. assert (Hk : (cls w).*1 !! n = Some j) by (by rewrite <-E1, list_lookup_fmap, Hn).
    destruct (cls w !! n) as [[j' g]|] eqn:Eg; [|by rewrite list_lookup_fmap, Eg in Hk]. rewrite list_lookup_fmap, Eg in Hk. injection Hk as <-.
    assert (Hg : (j', g) ∈ cls w) by (by eapply list_elem_of_lookup_2). apply list_elem_of_filter in Hg as [Hm Hg]. exists g. split_and!; [by apply Hin|done|].
    apply (Forall2_lookup_lr _ _ _ n _ _ E2); by rewrite list_lookup_fmap, ?Eg, ?Hn. }
  assert (Hone : forall run', (i, run') ∈ concat scanned -> scan_of f run').
  { intros run' (rs & Hi & Hrs')%list_elem_of_concat. apply list_elem_of_lookup in Hrs' as [w Hw].
    destruct (Forall2_lookup_r _ _ _ _ _ HF Hw) as (w' & Hw' & _). pose proof Hw' as [-> _]%lookup_seq. destruct (Hrs w rs i run') as (g & Hg & _ & Hs); [done|done|done|congruence]. }
  assert (Hsome : exists run', (i, run') ∈ concat scanned).
  { assert (Hlt : (i mod W < W)%nat) by (apply Nat.mod_upper_bound; lia). destruct (Forall2_lookup_l _ _ _ (i mod W)%nat (i mod W)%nat HF) as (rs & Hrs' & E1 & _); [by apply lookup_seq|].
    assert (Hi : i ∈ rs.*1). { rewrite E1. apply (list_elem_of_fmap_2' fst _ (i, f)); [|done]. apply list_elem_of_filter. split; [done|by apply Hin]. }
    apply list_elem_of_fmap in Hi as ([i' run'] & -> & Hi). exists run'. apply list_elem_of_concat. exists rs. split; [done|by eapply list_elem_of_lookup_2]. }
  destruct ((list_to_map (concat scanned) : gmap nat FileRun) !! i) as [run'|] eqn:Em.
  - cbn. apply Hone. by apply elem_of_list_to_map_2.
  - exfalso. destruct Hsome as [run' Hr']. apply not_elem_of_list_to_map_2 in Em. apply Em. by apply (list_elem_of_fmap_2' fst _ (i, run')).
Qed.

Lemma load_streams_spec strict (P : Disk -> Prop) s files threads d :
  files <> [] -> (0 < threads)%nat -> Forall (opens strict P hints) files -> sound_hints hints files -> P d ->
  exists s' nt d', recovery_load_streams s files threads strict d = (Ok (s', nt), d') /\ P d' /\ recovered hints files s s' nt.
Proof.
  intros Hne Ht Ho Hs Hd. set (W := (length files `min` threads)%nat).
  assert (HW : (0 < W)%nat) by (unfold W; destruct files; [done|cbn [length]; lia]).
  destruct (parallel_for_ok P (scan_worker strict files W) (fun w rs => rs.*1 = (filter (fun p => (p.1 mod W)%nat = w) (imap pair files)).*1
      /\ Forall2 scan_of (filter (fun p => (p.1 mod W)%nat = w) (imap pair files)).*2 rs.*2) (seq 0 W) d) as (scanned & d' & E & Hd' & HF0); [|done|].
  { intros w d0 _ Hd0. destruct (scan_files_spec strict P (filter (fun p => (p.1 mod W)%nat = w) (imap pair files)) d0) as (rs & d1 & E & Hd1 & Hrs); [|done|by exists rs, d1].
    apply Forall_fmap, Forall_forall. intros [i f] [_ Hin]%list_elem_of_filter. apply elem_of_lookup_imap in Hin as (j & g & [= -> ->] & Hg). rewrite Forall_forall in Ho.
    apply Ho. by eapply list_elem_of_lookup_2. }
  pose proof (file_runs_spec files W scanned HW HF0) as HF. set (frs := file_runs (length files) scanned) in *.
  assert (Ez : (zip (rf_file_id <$> files) frs).*2 = frs).
  { apply snd_zip. rewrite length_fmap. by rewrite (Forall2_length _ _ _ HF). }
  set (splitters := stream_splitters W frs).
  destruct (all_ok_spec (stream_range (zip (rf_file_id <$> files) frs) (ranges hints files) splitters)
    (fun r => stream_range_ok files (range_lo splitters r) (range_hi splitters r)) (seq 0 (S (length splitters)))) as (outs & Eo & HO).
  { intros r _. by apply stream_range_spec. }
  pose proof (finish_streams_spec s files frs splitters outs HF Hs (stream_splitters_sorted W frs) HO) as Hfin.
  destruct (finish_streams s (zip (rf_file_id <$> files) frs) outs) as [s' nt] eqn:Ef. exists s', nt, d'. split_and!; [|done|done].
  unfold recovery_load_streams. destruct files as [|f0 fl]; [done|]. fold W. unfold mbind, io_bind, lift, mret, io_ret. rewrite E. fold frs. rewrite Ez. fold splitters.
  rewrite (scans_ranges _ _ HF), Eo, Ef. done.
Qed.
End scans.
