(* ===== verification/LogRecovery.v ===== *)
(** * Recovery restores the log

    What the loaders restore, said of the data files: a key is live exactly
    when one of its committed Puts is hidden by no newer committed entry of any
    file, and the key directory then points at that Put.  The theorems hold for
    every number of threads, for the sorted trees and for the streams, with
    hint files intact or damaged. *)

From S2P Require Import Prelude Codec HintFile KeyDir DataFile DataFileProofs FileScan EngineState EngineProofs Hints Recovery Merging BuildProofs RangedProofs RecoverySpec RangedLoader StreamProofs.
Import Serialization Types Stats Dir.

(** ** The log *)

(** A committed entry that ends the life of a Put of [k] of sequence [q]. *)
Definition hides (k : bytes) (q : Z) (e : DataEntry) : Prop :=
  q < de_sequence e
  /\ (((de_type e = Put \/ de_type e = Delete) /\ de_key e = k) \/ (de_type e = RangeDel /\ in_range (de_key e) (de_value e) k = true)).

Section log.
Context (us : RecoveredFile -> list (list DataEntry)).

(** The committed entries of a file, with their offsets. *)
Definition log (f : RecoveredFile) : list (DataEntry * Z) := with_offsets 0 (concat (us f)).

Definition log_live (files : list RecoveredFile) (k : bytes) (f : RecoveredFile) (p : DataEntry) (off : Z) : Prop :=
  f ∈ files /\ (p, off) ∈ log f /\ de_type p = Put /\ de_key p = k
  /\ forall f' e off', f' ∈ files -> (e, off') ∈ log f' -> ~ hides k (de_sequence p) e.

(** The hint of a file, when it lists its log. *)
Definition log_hint (f : RecoveredFile) : option (list HintEntry.HintEntry) := Some (hint_head (log f) ++ hint_run (log f)).

Definition is_point_entry (e : DataEntry) : Prop := de_type e = Put \/ de_type e = Delete.

(** What the engine's files satisfy. *)
Record sound_log (files : list RecoveredFile) : Prop := {
  sl_ids : NoDup (rf_file_id <$> files);
  sl_names : NoDup ((fun f => path (rf_data_file f)) <$> files);
  sl_path : forall f, f ∈ files -> rf_hint_path f = path (rf_data_file f);
  sl_hintable : forall f, f ∈ files -> Forall hintable (log f);
  sl_distinct : forall f e off f' e' off', f ∈ files -> f' ∈ files -> (e, off) ∈ log f -> (e', off') ∈ log f' ->
    is_point_entry e -> is_point_entry e' -> de_key e = de_key e' -> de_sequence e = de_sequence e' -> f = f' /\ (e, off) = (e', off');
  sl_pack : forall f e off, f ∈ files -> (e, off) ∈ log f ->
    0 < de_sequence e /\ KeyDirEntry.packable (de_sequence e) off (rf_file_id f) (size (de_value e))
}.

Definition record_of (p : DataEntry * Z) : HintRecord := assign (hint_of p).

Lemma record_of_point e off :
  is_point_entry e -> record_of (e, off) = mkHintRecord (de_sequence e) (de_type e) off (size (de_value e)) (de_key e).
Proof. intros [E|E]; unfold record_of, assign, hint_of; rewrite E; done. Qed.

Lemma hint_of_type e off : HintEntry.entry_type (hint_of (e, off)) = de_type e.
Proof. unfold hint_of. by destruct (de_type e). Qed.

Context (files : list RecoveredFile) (Hlog : sound_log files).

Lemma elem_of_records f r :
  f ∈ files -> r ∈ hint_records (hint_head (log f) ++ hint_run (log f)) <-> exists e off, (e, off) ∈ log f /\ is_point_entry e /\ r = record_of (e, off).
Proof.
  intros Hf. unfold hint_records. rewrite (hint_lists_all (log f)) by (by eapply sl_hintable). rewrite list_elem_of_fmap. split.
  - intros (he & -> & [Hp Hin]%list_elem_of_filter). apply list_elem_of_fmap in Hin as ([e off] & -> & Hin). exists e, off.
    unfold is_point in Hp. rewrite hint_of_type in Hp. done.
  - intros (e & off & Hin & Hp & ->). exists (hint_of (e, off)). split; [done|]. apply list_elem_of_filter. unfold is_point. rewrite hint_of_type.
    split; [done|]. by apply list_elem_of_fmap_2.
Qed.

Lemma elem_of_log_runs id l :
  (id, l) ∈ runs log_hint files <-> exists f, f ∈ files /\ id = rf_file_id f /\ l = hint_records (hint_head (log f) ++ hint_run (log f)).
Proof.
  unfold runs, hint_runs, opened. rewrite list_elem_of_fmap. split.
  - intros ([id' es] & [= -> ->] & Hin). apply list_elem_of_omap in Hin as (f & Hf & [= <- <-]). by exists f.
  - intros (f & Hf & -> & ->). eexists (_, _). split; [reflexivity|]. apply list_elem_of_omap. by exists f.
Qed.

Lemma elem_of_log_ranges rt :
  rt ∈ ranges log_hint files <-> exists f e off, f ∈ files /\ (e, off) ∈ log f /\ de_type e = RangeDel
    /\ rt = mkRangeTombstone (de_key e) (de_value e) (de_sequence e) (rf_file_id f) false.
Proof.
  unfold ranges, all_ranges, opened. rewrite list_elem_of_concat. split.
  - intros (l & Hrt & Hl). apply list_elem_of_fmap in Hl as ([id es] & -> & Hin). apply list_elem_of_omap in Hin as (f & Hf & [= <- <-]). cbn [fst snd] in Hrt.
    unfold hint_ranges in Hrt. apply list_elem_of_omap in Hrt as (he & Hhe & E). rewrite (hint_lists_all (log f)) in Hhe by (by eapply sl_hintable).
    apply list_elem_of_fmap in Hhe as ([e off] & -> & Hin). rewrite hint_of_type in E. destruct (decide (de_type e = RangeDel)) as [Et|]; [|done].
    injection E as <-. exists f, e, off. split_and!; try done. unfold hint_of. by rewrite Et.
  - intros (f & e & off & Hf & Hin & Et & ->). exists (hint_ranges (rf_file_id f) (hint_head (log f) ++ hint_run (log f))). split.
    + unfold hint_ranges. apply list_elem_of_omap. exists (hint_of (e, off)). rewrite (hint_lists_all (log f)) by (by eapply sl_hintable).
      split; [by apply list_elem_of_fmap_2|]. rewrite hint_of_type, decide_True by done. unfold hint_of. by rewrite Et.
    + apply (list_elem_of_fmap_2' (fun p => hint_ranges p.1 p.2) _ (rf_file_id f, hint_head (log f) ++ hint_run (log f))); [|done].
      apply list_elem_of_omap. by exists f.
Qed.

(** The newest entry of a key in a file, as a record of its hint. *)
Lemma at_key_log k r id :
  (r, id) ∈ at_key k (runs log_hint files) -> exists f e off, f ∈ files /\ id = rf_file_id f /\ (e, off) ∈ log f /\ is_point_entry e
    /\ de_key e = k /\ r = record_of (e, off).
Proof.
  intros (l & Hl & (Hr & Hk & _)%run_newest_some)%elem_of_at_key. apply elem_of_log_runs in Hl as (f & Hf & -> & ->).
  apply (elem_of_records f r Hf) in Hr as (e & off & Hin & Hp & ->). exists f, e, off. split_and!; try done. rewrite record_of_point in Hk by done. done.
Qed.

Lemma at_key_above f e off :
  f ∈ files -> (e, off) ∈ log f -> is_point_entry e ->
  exists r, (r, rf_file_id f) ∈ at_key (de_key e) (runs log_hint files) /\ de_sequence e <= hr_sequence r.
Proof.
  intros Hf Hin Hp. set (l := hint_records (hint_head (log f) ++ hint_run (log f))).
  assert (Hr : record_of (e, off) ∈ l) by (apply (elem_of_records f _ Hf); by exists e, off).
  destruct (run_newest (de_key e) l) as [r|] eqn:E.
  - exists r. split; [apply elem_of_at_key; exists l; split; [apply elem_of_log_runs; by exists f|done]|].
    apply run_newest_some in E as (_ & _ & Hmax). specialize (Hmax _ Hr). rewrite record_of_point in Hmax by done. by apply Hmax.
  - exfalso. rewrite run_newest_none in E. apply (E _ Hr). by rewrite record_of_point by done.
Qed.

Lemma log_sound_hints : sound_hints log_hint files.
Proof.
  destruct Hlog as [S1 S2 S3 S4 S5 S6]. split; [done| | |].
  - intros k r f r' f' (x & e & off & Hx & -> & Hin & Hp & Hk & ->)%at_key_log (x' & e' & off' & Hx' & -> & Hin' & Hp' & Hk' & ->)%at_key_log Hq.
    rewrite !record_of_point in Hq by done. destruct (S5 x e off x' e' off') as [-> [= -> ->]]; congruence || done.
  - intros k r f (x & e & off & Hx & -> & Hin & Hp & Hk & ->)%at_key_log. rewrite record_of_point by done. by apply (S6 x e off).
  - intros k r f (x & e & off & Hx & -> & Hin & Hp & Hk & ->)%at_key_log. rewrite record_of_point by done. split; [|by apply (S6 x e off)].
    specialize (S4 x Hx). rewrite Forall_forall in S4. destruct (S4 _ Hin) as [[_ _ Hkey _ _] _ _]. cbn [fst] in Hkey. rewrite <-Hk. unfold fits in Hkey. unfold kBTreeMaxKeyBytes. lia.
Qed.

(** The reference of the loaders, in terms of the log. *)
Lemma newest_put_log k e :
  newest_put (runs log_hint files) (ranges log_hint files) k e
  <-> exists f p off, log_live files k f p off /\ KeyDirEntry.make (de_sequence p) off (rf_file_id f) (size (de_value p)) = Ok e.
Proof.
  pose proof log_sound_hints as [_ Hd _ _]. split.
  - intros (r & id & [Hr Hwin] & Ht & Hs & He). destruct (at_key_log k r id Hr) as (f & p & off & Hf & -> & Hin & Hp & Hk & ->).
    rewrite record_of_point in * by done. exists f, p, off. split; [|exact He]. split_and!; try done.
    intros f' e' off' Hf' Hin' [Hq [[Hp' Hk']|[Hrd Hc]]].
    + destruct (at_key_above f' e' off' Hf' Hin' Hp') as (r' & Hr' & Hle). rewrite Hk' in Hr'. specialize (Hwin _ _ Hr'). cbn in Hwin. lia.
    + apply not_true_iff_false in Hs. apply Hs, range_suppresses_true.
      exists (mkRangeTombstone (de_key e') (de_value e') (de_sequence e') (rf_file_id f') false). split_and!; [|done|done].
      apply elem_of_log_ranges. by exists f', e', off'.
  - intros (f & p & off & (Hf & Hin & Ht & Hk & Hno) & He). assert (Hp : is_point_entry p) by (by left).
    destruct (at_key_above f p off Hf Hin Hp) as (r & Hr & Hle). rewrite Hk in Hr.
    assert (Hall : forall r' id, (r', id) ∈ at_key k (runs log_hint files) -> hr_sequence r' <= de_sequence p).
    { intros r' id (f' & e' & off' & Hf' & -> & Hin' & Hp' & Hk' & ->)%at_key_log. rewrite record_of_point by done. cbn.
      destruct (Z.le_gt_cases (de_sequence e') (de_sequence p)) as [?|Hgt]; [done|]. exfalso. apply (Hno f' e' off' Hf' Hin'). split; [lia|]. by left. }
    assert (r = record_of (p, off)) as ->.
    { pose proof (Hall _ _ Hr). destruct (at_key_log k r _ Hr) as (f' & e' & off' & Hf' & Eid & Hin' & Hp' & Hk' & ->).
      rewrite record_of_point in * by done. cbn in *. assert (Heq : (e', off') = (p, off)) by (apply (sl_distinct _ Hlog f' e' off' f p off); try done; [congruence|lia]). injection Heq as -> ->. by rewrite ?record_of_point by done. }
    exists (record_of (p, off)), (rf_file_id f). rewrite record_of_point in * by done. split_and!; [|done| |exact He].
    + split; [done|]. intros r' id Hr'. cbn. by eapply Hall.
    + apply not_true_iff_false. intros (rt & Hrt & Hq & Hc)%range_suppresses_true. apply elem_of_log_ranges in Hrt as (f' & e' & off' & Hf' & Hin' & Et & ->).
      apply (Hno f' e' off' Hf' Hin'). split; [done|]. by right.
Qed.
End log.

(** ** Both loaders, from the files *)

Section recover.
Context `{ZstdLaws} `{Crc32cLaws} (us : RecoveredFile -> list (list DataEntry)).

(** A directory whose hint files list the logs, or do not open, and on which
    no call fails. *)
Record hints_usable (files : list RecoveredFile) (d : Disk) : Prop := {
  hu_oracle : d_oracle d = [];
  hu_reads : d_reads d = [];
  hu_hints : forall f, f ∈ files -> exists b, d_hints d !! rf_hint_path f = Some b
               /\ forall sc, OpenForRead b = Ok sc -> hint_lists (log us f) b
}.

Lemma log_opens strict files f :
  sound_log us files -> (forall f, f ∈ files -> holds_units (rf_data_file f) (us f)) -> f ∈ files ->
  opens strict (hints_usable files) (log_hint us) f.
Proof.
  intros Hl Hu Hf d [Ho Hr Hh]. destruct (Hh f Hf) as (b & Hb & Hg). pose proof (sl_path _ _ Hl f Hf) as Ep. rewrite Ep in Hb.
  destruct (open_hint_or_rebuild_lists (rf_data_file f) (us f) b d (Hu f Hf) Hb Ho (or_introl Hr) Hg)
    as (sc & d' & E & Hok & Hes & _ & Ho' & Hr' & _ & b' & Hl' & Eh').
  exists d'. split.
  - split; [done|done|]. intros f' Hf'. rewrite Eh', (sl_path _ _ Hl f' Hf'). destruct (decide (path (rf_data_file f) = path (rf_data_file f'))) as [E'|Hne].
    + assert (f = f') as <- by (by apply (nodup_fmap_eq (fun f => path (rf_data_file f)) files); [apply (sl_names _ _ Hl)|..]).
      rewrite lookup_insert_eq. by exists b'.
    + rewrite lookup_insert_ne by done. rewrite <-(sl_path _ _ Hl f' Hf'). by apply Hh.
  - cbn [log_hint]. exists sc. split_and!; [|done|exact Hes|by apply hint_lists_sorted, (sl_hintable _ _ Hl)].
    unfold open_hint_or_skip, try_catch, mbind, io_bind, mret, io_ret. rewrite Ep, E. done.
Qed.

(** What a recovered state must be. *)
Record restores (files : list RecoveredFile) (s : EngineState) : Prop := {
  rs_dir : forall k e, key_dir s !! k = Some e <-> exists f p off, log_live us files k f p off
             /\ KeyDirEntry.make (de_sequence p) off (rf_file_id f) (size (de_value p)) = Ok e;
  rs_live : live_ok (key_dir s) (file_stats s);
  rs_files : forall id, is_Some (file_stats s !! id) <-> id ∈ rf_file_id <$> files;
  rs_next : forall f e off, f ∈ files -> (e, off) ∈ log us f -> de_sequence e < next_seq s
}.

Lemma seq_max_above ops id es he : (id, es) ∈ ops -> he ∈ es -> HintEntry.sequence he <= seq_max ops.
Proof.
  intros Hin Hhe. induction ops as [|p ops IH]; [by apply elem_of_nil in Hin|]. rewrite seq_max_cons.
  apply elem_of_cons in Hin as [<-|Hin]; [|specialize (IH Hin); lia]. cbn [snd].
  assert (Hle : HintEntry.sequence he <= foldr Z.max 0 (HintEntry.sequence <$> es)); [|lia].
  clear -Hhe. induction es as [|h es IH]; [by apply elem_of_nil in Hhe|]. cbn. apply elem_of_cons in Hhe as [->|Hhe]; [lia|specialize (IH Hhe); lia].
Qed.

Lemma seq_max_bound ops m : 0 <= m -> (forall id es he, (id, es) ∈ ops -> he ∈ es -> HintEntry.sequence he <= m) -> seq_max ops <= m.
Proof.
  intros Hm Hb. induction ops as [|[id es] ops IH]; [cbn; lia|]. rewrite seq_max_cons. cbn [snd].
  assert (Hes : foldr Z.max 0 (HintEntry.sequence <$> es) <= m).
  { specialize (Hb id es). assert (Hb' : forall he, he ∈ es -> HintEntry.sequence he <= m) by (intros; apply Hb; [by left|done]). clear -Hm Hb'.
    induction es as [|h es IH]; cbn; [lia|]. specialize (Hb' h) as Hh. assert (HintEntry.sequence h <= m) by (apply Hh; by left).
    assert (foldr Z.max 0 (HintEntry.sequence <$> es) <= m) by (apply IH; intros; apply Hb'; by right). lia. }
  assert (seq_max ops <= m) by (apply IH; intros id' es' he ? ?; apply (Hb id' es'); [by right|done]). lia.
Qed.

Lemma hint_of_sequence p : HintEntry.sequence (hint_of p) = de_sequence p.1.
Proof. destruct p as [e off]. unfold hint_of. by destruct (de_type e). Qed.

Lemma elem_of_log_opened files id es :
  (id, es) ∈ opened (log_hint us) files <-> exists f, f ∈ files /\ id = rf_file_id f /\ es = hint_head (log us f) ++ hint_run (log us f).
Proof.
  unfold opened. rewrite list_elem_of_omap. split.
  - intros (f & Hf & [= <- <-]). by exists f.
  - intros (f & Hf & -> & ->). by exists f.
Qed.

Lemma log_seq_max files : sound_log us files ->
  seq_max (opened (log_hint us) files) <= KeyDirEntry.kMaxSequence
  /\ forall f e off, f ∈ files -> (e, off) ∈ log us f -> de_sequence e <= seq_max (opened (log_hint us) files).
Proof.
  intros Hl. split.
  - apply seq_max_bound; [unfold KeyDirEntry.kMaxSequence; lia|]. intros id es he (f & Hf & -> & ->)%elem_of_log_opened Hhe.
    rewrite (hint_lists_all (log us f)) in Hhe by (by eapply sl_hintable). apply list_elem_of_fmap in Hhe as ([e off] & -> & Hin). rewrite hint_of_sequence.
    destruct (sl_pack _ _ Hl f e off Hf Hin) as [_ [Hq _]]. cbn. lia.
  - intros f e off Hf Hin. change (de_sequence e) with (de_sequence (e, off).1).
    rewrite <-(hint_of_sequence (e, off)). eapply seq_max_above; [apply elem_of_log_opened; by exists f|].
    rewrite (hint_lists_all (log us f)) by (by eapply sl_hintable). by apply list_elem_of_fmap_2.
Qed.

Lemma recovered_restores files s s' nt : sound_log us files -> recovered (log_hint us) files s s' nt -> restores files s'.
Proof.
  intros Hl [R1 R2 R3 _ _ _ _]. destruct (log_seq_max files Hl) as [Hm1 Hm2]. split.
  - intros k e. rewrite R1. by apply newest_put_log.
  - intros id fs Hid. rewrite R2 in Hid. apply elem_of_list_to_map_2 in Hid. apply list_elem_of_fmap in Hid as (f & [= -> ->] & _). done.
  - intros id. rewrite R2. rewrite <-elem_of_dom, dom_list_to_map_L, elem_of_list_to_set, <-list_fmap_compose. done.
  - intros f e off Hf Hin. specialize (Hm2 f e off Hf Hin). rewrite R3, wrap_small; [lia|]. pose proof (seq_max_nonneg (opened (log_hint us) files)).
    unfold fits, KeyDirEntry.kMaxSequence in *. lia.
Qed.

(** ** Properties *)

(** C25: the tree loader restores the log.  [recovery_load_ranged] succeeds on
    files whose hints list their committed entries or are damaged, no two of
    which hold the same key under the same sequence (an interrupted vacuum
    leaves such a pair, which recovery undoes before it loads again) and whose
    entries fit the key directory, whatever the number of worker threads,
    whatever keys are sampled to cut the ranges, strict or not; the key
    directory then holds a key exactly when one of its committed Puts is hidden
    by no newer Put, Delete or range tombstone of any file, and points at that
    Put; every file's live bytes are what the directory references; and the
    next sequence is above every entry. *)
Theorem load_ranged_restores sample s files threads strict d :
  sound_log us files -> (forall f, f ∈ files -> holds_units (rf_data_file f) (us f)) -> files <> [] -> (0 < threads)%nat ->
  hints_usable files d ->
  exists s' nt d', recovery_load_ranged sample s files threads strict d = (Ok (s', nt), d') /\ restores files s'.
Proof.
  intros Hl Hu Hne Ht Hd. destruct (load_ranged_spec (log_hint us) strict (hints_usable files) sample s files threads d) as (s' & nt & d' & E & _ & Hr);
    [done|done|apply Forall_forall; intros f Hf; by apply log_opens|by apply log_sound_hints|done|].
  exists s', nt, d'. split; [done|]. by eapply recovered_restores.
Qed.

(** C26: the stream loader restores the log.  [recovery_load_streams], which
    merges the hint files range by range from the fences its first scan left,
    gives such a state too, under the same condition: no two files hold the
    same key under the same sequence. *)
Theorem load_streams_restores s files threads strict d :
  sound_log us files -> (forall f, f ∈ files -> holds_units (rf_data_file f) (us f)) -> files <> [] -> (0 < threads)%nat ->
  hints_usable files d ->
  exists s' nt d', recovery_load_streams s files threads strict d = (Ok (s', nt), d') /\ restores files s'.
Proof.
  intros Hl Hu Hne Ht Hd. destruct (load_streams_spec (log_hint us) strict (hints_usable files) s files threads d) as (s' & nt & d' & E & _ & Hr);
    [done|done|apply Forall_forall; intros f Hf; by apply log_opens|by apply log_sound_hints|done|].
  exists s', nt, d'. split; [done|]. by eapply recovered_restores.
Qed.

Lemma recovered_unique files s s1 nt1 s2 nt2 :
  recovered (log_hint us) files s s1 nt1 -> recovered (log_hint us) files s s2 nt2 ->
  key_dir s1 = key_dir s2 /\ file_stats s1 = file_stats s2 /\ next_seq s1 = next_seq s2.
Proof.
  intros [A1 A2 A3 _ _ _ _] [B1 B2 B3 _ _ _ _].
  assert (Ek : key_dir s1 = key_dir s2) by (apply map_eq; intros k; apply option_eq; intros e; by rewrite A1, B1).
  split_and!; [done| |congruence]. by rewrite A2, B2, Ek.
Qed.

(** C27: the loaders agree.  The merge of sorted trees and the merge of hint
    streams, each with any number of threads, give the same key directory, the
    same statistics of every file and the same next sequence, on files no two
    of which hold the same key under the same sequence. *)
Theorem loaders_agree sample s files threads threads' strict strict' d :
  sound_log us files -> (forall f, f ∈ files -> holds_units (rf_data_file f) (us f)) -> files <> [] -> (0 < threads)%nat -> (0 < threads')%nat ->
  hints_usable files d ->
  exists s1 nt1 d1 s2 nt2 d2, recovery_load_ranged sample s files threads strict d = (Ok (s1, nt1), d1)
    /\ recovery_load_streams s files threads' strict' d = (Ok (s2, nt2), d2)
    /\ key_dir s1 = key_dir s2 /\ file_stats s1 = file_stats s2 /\ next_seq s1 = next_seq s2.
Proof.
  intros Hl Hu Hne Ht Ht' Hd.
  destruct (load_ranged_spec (log_hint us) strict (hints_usable files) sample s files threads d) as (s1 & nt1 & d1 & E1 & _ & Hr1);
    [done|done|apply Forall_forall; intros f Hf; by apply log_opens|by apply log_sound_hints|done|].
  destruct (load_streams_spec (log_hint us) strict' (hints_usable files) s files threads' d) as (s2 & nt2 & d2 & E2 & _ & Hr2);
    [done|done|apply Forall_forall; intros f Hf; by apply log_opens|by apply log_sound_hints|done|].
  exists s1, nt1, d1, s2, nt2, d2. split_and!; [done|done|..]; by apply (recovered_unique files s s1 nt1 s2 nt2).
Qed.
End recover.

(** ** Witnesses *)

Module LogFixture.
Import Castagnoli Stored ScanFixture.

(** A second file: a newer Put of [a] and a range tombstone over [b]. *)
Definition put_a' : DataEntry := entry 8 Put [x61] [x05].
Definition del_b : DataEntry := entry 9 RangeDel [x62] [x63].
Definition written' : bytes := images [put_a'; del_b].
Definition file' : DataFile := mkDataFile "000002.data" written' (size written') 0 0 0 false.

Definition f1 : RecoveredFile := mkRecovered 1 file "000001.data" (size written).
Definition f2 : RecoveredFile := mkRecovered 2 file' "000002.data" (size written').
Definition units (f : RecoveredFile) : list (list DataEntry) := if rf_file_id f =? 1 then [[put_a]; batch] else [[put_a']; [del_b]].

(** The hint of the first is torn, that of the second empty. *)
Definition disk : Disk := mkDisk ∅ {[ "000001.data" := [x00; x01]; "000002.data" := [] ]} ∅ ∅ [] [].

Lemma file'_holds_units : holds_units file' [[put_a']; [del_b]].
Proof.
  split; [split; [by vm_compute|by left|by vm_compute]| | | |by vm_compute].
  - exists [], []. split_and!; [by vm_compute|by constructor| |by vm_compute..]. repeat constructor; by vm_compute.
  - by repeat constructor.
  - repeat constructor; by vm_compute.
Defined.

Lemma files_hold_units f : f ∈ [f1; f2] -> holds_units (rf_data_file f) (units f).
Proof.
  intros [->|[->|?%elem_of_nil]%elem_of_cons]%elem_of_cons; [|apply file'_holds_units|done].
  apply file_holds_units.
Defined.

Lemma files_sound_log : sound_log units [f1; f2].
Proof.
  assert (Hall : forall f, f ∈ [f1; f2] -> f = f1 \/ f = f2) by (intros f; rewrite !elem_of_cons; intros [?|[?|?%elem_of_nil]]; auto; done).
  split.
  - by apply (bool_decide_unpack (NoDup _)); vm_compute.
  - by apply (bool_decide_unpack (NoDup _)); vm_compute.
  - by intros f [-> | ->]%Hall.
  - intros f [-> | ->]%Hall; repeat constructor; by vm_compute.
  - assert (Hd : forall f f', f ∈ [f1; f2] -> f' ∈ [f1; f2] -> Forall (fun p => Forall (fun p' => de_type p.1 = Put \/ de_type p.1 = Delete ->
      de_type p'.1 = Put \/ de_type p'.1 = Delete -> de_sequence p.1 = de_sequence p'.1 -> rf_file_id f = rf_file_id f' /\ p = p') (log units f')) (log units f)).
    { intros f f' [-> | ->]%Hall [-> | ->]%Hall; repeat constructor; vm_compute; naive_solver. }
    intros f e off f' e' off' Hf Hf' Hin Hin' Hp Hp' _ Hq. specialize (Hd f f' Hf Hf'). rewrite Forall_forall in Hd. specialize (Hd _ Hin).
    rewrite Forall_forall in Hd. destruct (Hd _ Hin' Hp Hp' Hq) as [Hid Heq]. split; [|done].
    apply Hall in Hf as [-> | ->], Hf' as [-> | ->]; done.
  - intros f e off Hf Hin. assert (Hp : Forall (fun p => 0 < de_sequence p.1 /\ KeyDirEntry.packable (de_sequence p.1) p.2 (rf_file_id f) (size (de_value p.1))) (log units f)).
    { apply Hall in Hf as [-> | ->]; repeat constructor; by vm_compute. }
    rewrite Forall_forall in Hp. exact (Hp _ Hin).
Defined.

Lemma disk_usable : hints_usable units [f1; f2] disk.
Proof.
  split; [done|done|]. intros f [->|[->|?%elem_of_nil]%elem_of_cons]%elem_of_cons; [..|done]; eexists; (split; [by vm_compute|]); intros sc E; exfalso; revert E; by vm_compute.
Defined.
End LogFixture.

Section witnesses.
Import Castagnoli Stored LogFixture.

Lemma load_ranged_restores_witness :
  exists s' nt d', recovery_load_ranged (fun _ _ => [[x61]]) EngineState_init [f1; f2] 2 false disk = (Ok (s', nt), d')
    /\ restores units [f1; f2] s'.
Proof. apply load_ranged_restores; [apply files_sound_log|apply files_hold_units|done|lia|apply disk_usable]. Defined.

Lemma load_streams_restores_witness :
  exists s' nt d', recovery_load_streams EngineState_init [f1; f2] 2 true disk = (Ok (s', nt), d')
    /\ restores units [f1; f2] s'.
Proof. apply load_streams_restores; [apply files_sound_log|apply files_hold_units|done|lia|apply disk_usable]. Defined.

Lemma loaders_agree_witness :
  exists s1 nt1 d1 s2 nt2 d2, recovery_load_ranged (fun _ _ => []) EngineState_init [f1; f2] 2 true disk = (Ok (s1, nt1), d1)
    /\ recovery_load_streams EngineState_init [f1; f2] 3 false disk = (Ok (s2, nt2), d2)
    /\ key_dir s1 = key_dir s2 /\ file_stats s1 = file_stats s2 /\ next_seq s1 = next_seq s2.
Proof. apply (loaders_agree units); [apply files_sound_log|apply files_hold_units|done|lia|lia|apply disk_usable]. Defined.
End witnesses.
