(* ===== verification/RecoveryOpen.v ===== *)
(** * Opening the database directory

    Models [recovery_open] and what it calls before and after a loader
    ([db_recovery.cpp]): [recovery_prepare_files], which makes every data file
    without a hint durable, cuts the tail a crash tore off the file written
    last and writes the missing hints; [recovery_check_tail], which decides
    whether a tail may be cut; [find_sequence_overlap]; and
    [recovery_undo_interrupted_vacuum], which removes the compacted copy of a
    vacuum that was killed between its rename and its unlink.

    A data file is known by the stem of its name.  Opening one, removing one
    and each write or sync of one is a system call that may fail. *)

From S2P Require Import Prelude Codec HintFile KeyDir DataFile DataFileProofs FileScan EngineState Hints Recovery.
Import Serialization Types Stats Dir.

(** ** Files of the directory *)

(** [openDataFileForRead]: a read-only object ends where the file does. *)
Definition read_object (stem : string) (f : DataFile) : DataFile :=
  mkDataFile stem (content f) (size (content f)) 0 0 0 false.

Definition no_such_file : exn := SystemError "bytecask: no such file".

Definition open_data (stem : string) : io Disk DataFile :=
  _ ← disk_call "open failed";
  f ← gets (fun d => d_data d !! stem);
  lift (match f with Some f => Ok (read_object stem f) | None => Err no_such_file end).

(** [std::filesystem::file_size]. *)
Definition disk_file_size (stem : string) : io Disk Z :=
  f ← gets (fun d => d_data d !! stem);
  lift (match f with Some f => Ok (size (content f)) | None => Err no_such_file end).

(** Runs an operation of a file. *)
Definition run_on_data {A} (stem : string) (m : io FileIO A) : io Disk A := fun d =>
  match d_data d !! stem with
  | Some f =>
      let '(a, s) := m (mkFileIO f (d_oracle d)) in
      (a, set_disk_oracle (fio_oracle s) (set_data (<[stem := fio_file s]> (d_data d)) d))
  | None => (Err no_such_file, d)
  end.

(** [RewriteFd]: a writable descriptor of one of the files. *)
Definition on_data {A} (stem : string) (m : io FileIO A) : io Disk A :=
  _ ← disk_call "bytecask: cannot open to sync it"; run_on_data stem m.

Definition truncate_durably (n : Z) : io FileIO unit :=
  _ ← ftruncate "bytecask: truncate failed" n;
  fdatasync_to "bytecask: fdatasync failed" n.

(** ** What lies past the committed records *)

Definition kTailChunk : Z := 2 ^ 20.

Definition is_zero (b : byte) : bool := bool_decide (b = x00).

(** The loop of [tail_is_zero]; every read that is not the last takes a byte
    at least. *)
Fixpoint zero_tail_loop (fuel : nat) (file : DataFile) (len off : Z) : result bool :=
  match fuel with
  | O => Ok true
  | S fuel =>
      if off <? df_size file then
        buf ← read_raw file off len;
        if size buf =? 0 then Ok true
        else if negb (forallb is_zero buf) then Ok false
        else zero_tail_loop fuel file len (off + size buf)
      else Ok true
  end.

Definition tail_is_zero (file : DataFile) (end_ : Z) : result bool :=
  if df_size file <=? end_ then Ok true
  else zero_tail_loop (S (Z.to_nat (df_size file - end_))) file (Z.min kTailChunk (df_size file - end_)) end_.

Definition kEntryTypeOffset : Z := 8.

Definition first_sequence (file : DataFile) : result Z :=
  hdr ← read_raw file 0 (Z.of_nat DataEntry.kHeaderSize);
  if size hdr <? Z.of_nat DataEntry.kHeaderSize then Ok 0
  else
    let h := DataEntry.read_header hdr in
    zero ← (if negb (is_known_entry_type (DataEntry.entry_type h)) then tail_is_zero file kEntryTypeOffset else Ok false);
    Ok (if zero : bool then 0 else DataEntry.sequence h).

Definition kLaterSequences : string :=
  "bytecask: corrupt database — data file does not parse past its committed end, and another holds later sequences, so it is not the file a crash could have torn; refusing to truncate it".
Definition kBothTorn : string :=
  "bytecask: corrupt database — two data files both hold data past their last committed record, and a crash can tear only the file being written; refusing to truncate either".

Section recovery_open.
Context `{Zstd} `{Crc32c}.

(** One other file of [recovery_check_tail]'s loop. *)
Definition check_other (seq : Z) (other : string) : io Disk unit :=
  other_file ← open_data other;
  later ← lift (if seq =? 0 then Ok false else (q ← first_sequence other_file; Ok (seq <? q)));
  _ ← lift (throw_if later (RuntimeError kLaterSequences));
  hinted ← gets (fun d => bool_decide (is_Some (d_hints d !! other)));
  if hinted : bool then mret ()
  else
    let committed := scan_committed other_file 0 DamageStop in
    _ ← lift (match cs_error committed with Some ex => Err ex | None => Ok () end);
    zero ← lift (tail_is_zero other_file (cs_offset committed));
    lift (throw_if (negb zero) (RuntimeError kBothTorn)).

Definition recovery_check_tail (file : DataFile) (end_ : Z) (data_paths : list string) : io Disk unit :=
  zero ← lift (tail_is_zero file end_);
  if zero : bool then mret ()
  else
    seq ← lift (first_sequence file);
    for_each data_paths (fun other => if bool_decide (other = path file) then mret () else check_other seq other).

(** ** Preparing the files *)

(** Names in the order of their bytes. *)
Definition name_bytes (stem : string) : bytes := String.list_byte_of_string (stem +:+ ".data").
Definition name_le (a b : string) : Prop := key_le (name_bytes a) (name_bytes b).

#[export] Instance name_le_dec : RelDecision name_le.
Proof. intros a b. unfold name_le. apply _. Defined.

(** The removal of the staging files: one call per file. *)
Definition remove_staging : io Disk unit :=
  hints ← gets (fun d => elements (d_tmp d));
  datas ← gets (fun d => elements (dom (d_data_tmp d)));
  _ ← for_each hints (fun p => _ ← disk_call "remove"; modify (fun d => set_tmp (d_tmp d ∖ {[p]}) d));
  for_each datas (fun p => _ ← disk_call "remove"; modify (fun d => set_data_tmp (delete p (d_data_tmp d)) d)).

(** What the hint writer does once it knows where the committed records end. *)
Definition cut_tail (data_paths : list string) (data_file : DataFile) (end_ : Z) : io Disk unit :=
  _ ← recovery_check_tail data_file end_ data_paths;
  when (end_ <? df_size data_file) (on_data (path data_file) (truncate_durably end_)).

(** One file.  It is opened again when the hint writer cut it. *)
Definition prepare_file (data_paths : list string) (p : string) (file_id : Z) : io Disk RecoveredFile :=
  hintless ← gets (fun d => bool_decide (d_hints d !! p = None));
  _ ← when hintless (n ← disk_file_size p; on_data p (rewrite_durably n));
  data_file ← open_data p;
  data_file ← (if hintless : bool then
                 _ ← flush_hints_for data_file (Some (cut_tail data_paths data_file));
                 if cs_offset (scan_committed data_file 0 DamageStop) <? df_size data_file then open_data p
                 else mret data_file
               else mret data_file);
  n ← disk_file_size p;
  mret (mkRecovered file_id data_file p n).

Fixpoint prepare_loop (data_paths todo : list string) (next_file_id : Z) : io Disk (list RecoveredFile) :=
  match todo with
  | [] => mret []
  | p :: todo =>
      f ← prepare_file data_paths p next_file_id;
      fs ← prepare_loop data_paths todo (next_file_id + 1);
      mret (f :: fs)
  end.

(** [s.files] and [s.next_file_id]; the object of a file is named by the id it
    is opened under. *)
Definition with_files (s : EngineState) (fs : list RecoveredFile) : EngineState :=
  mkEngineState (key_dir s) (list_to_map ((fun f => (rf_file_id f, rf_file_id f)) <$> fs)) (file_stats s) (active_file_id s)
    (next_file_id s + Z.of_nat (length fs)) (next_seq s) (durable_seq s) (sync_requested_seq s) (mode s) (degraded s)
    (degraded_reason s) (closed s) (change_markers s).

Definition recovery_prepare_files (s : EngineState) : io Disk (EngineState * list RecoveredFile) :=
  _ ← disk_call "list_directory";
  data_paths ← gets (fun d => merge_sort name_le (elements (dom (d_data d))));
  _ ← remove_staging;
  _ ← lift (throw_if (KeyDirEntry.kMaxFileId <? Z.of_nat (length data_paths))
        (RuntimeError "DB::open: the directory holds more data files than can be opened"));
  fs ← prepare_loop data_paths data_paths (next_file_id s);
  mret (with_files s fs, fs).

(** ** Files under the same sequences *)

Record Range : Type := mkRange { ra_min : Z; ra_max : Z; ra_file_id : Z }.

Definition range_le (a b : Range) : Prop := ra_min a <= ra_min b.
#[export] Instance range_le_dec : RelDecision range_le.
Proof. intros a b. unfold range_le. apply _. Defined.

(** The scan of the sorted ranges; [prev] is the range before. *)
Fixpoint first_overlap (prev : option Range) (ranges : list Range) : option (Z * Z) :=
  match ranges with
  | [] => None
  | r :: ranges =>
      match prev with
      | Some p => if ra_min r <=? ra_max p then Some (ra_file_id p, ra_file_id r) else first_overlap (Some r) ranges
      | None => first_overlap (Some r) ranges
      end
  end.

Definition stats_ranges (stats : gmap Z FileStats) : list Range :=
  omap (fun p : Z * FileStats => if 0 <? min_sequence p.2 then Some (mkRange (min_sequence p.2) (max_sequence p.2) p.1) else None)
    (map_to_list stats).

Definition find_sequence_overlap (s : EngineState) : option (Z * Z) :=
  first_overlap None (merge_sort range_le (stats_ranges (file_stats s))).

(** ** Undoing an interrupted vacuum *)

Definition same_record (a b : DataEntry) : bool :=
  (de_sequence a =? de_sequence b) && bool_decide (de_type a = de_type b)
  && bool_decide (de_key a = de_key b) && bool_decide (de_value a = de_value b).

(** An iterator that has yielded all it has: it is the end, or it throws. *)
Definition at_position {A} (rest : list A) (err : option exn) : result unit :=
  match rest, err with [], Some ex => Err ex | _, _ => Ok () end.

(** The inner loop: the rest of the source behind the record, if it is there. *)
Fixpoint find_record (entry : DataEntry) (src : list (DataEntry * Z)) (err : option exn)
    : result (option (list (DataEntry * Z))) :=
  match src with
  | [] => Ok None
  | (cand, _) :: src =>
      if de_sequence entry <? de_sequence cand then Ok None
      else
        _ ← at_position src err;
        if same_record cand entry then Ok (Some src) else find_record entry src err
  end.

Fixpoint compaction_loop (copy src : list (DataEntry * Z)) (copy_err src_err : option exn) : result bool :=
  match copy with
  | [] => Ok true
  | (entry, _) :: copy =>
      found ← find_record entry src src_err;
      match found with
      | None => Ok false
      | Some src => _ ← at_position copy copy_err; compaction_loop copy src copy_err src_err
      end
  end.

Definition is_compaction_of (copy source : string) : io Disk bool :=
  copy_file ← open_data copy;
  source_file ← open_data source;
  let c := scan_committed copy_file 0 DamageThrow in
  let s := scan_committed source_file 0 DamageThrow in
  _ ← lift (at_position (cs_entries s) (cs_error s));
  _ ← lift (at_position (cs_entries c) (cs_error c));
  lift (compaction_loop (cs_entries c) (cs_entries s) (cs_error c) (cs_error s)).

Definition kNotACompaction : string :=
  "bytecask: corrupt database — two data files hold entries under the same sequence numbers, and neither is a compacted copy of the other".

Definition recovery_undo_interrupted_vacuum (a b : string) : io Disk unit :=
  na ← disk_file_size a;
  nb ← disk_file_size b;
  let a_smaller := na <=? nb in
  let copy := if a_smaller then a else b in
  let source := if a_smaller then b else a in
  ok ← is_compaction_of copy source;
  _ ← lift (throw_if (negb ok) (RuntimeError kNotACompaction));
  _ ← disk_call "remove";
  _ ← modify (fun d => set_hints (delete copy (d_hints d)) d);
  _ ← disk_call "remove";
  modify (fun d => set_data (delete copy (d_data d)) d).

(** ** Recovery *)

(** [path_of]. *)
Definition path_of (fs : list RecoveredFile) (id : Z) : result string :=
  match list_find (fun f => rf_file_id f = id) fs with
  | Some (_, f) => Ok (path (rf_data_file f))
  | None => Err (LogicError "no such file id")
  end.

(** The build's key directory picks the loader. *)
Definition recovery_load (keydir_blind : bool) (sample_separators : list (bytes * KeyDirEntry) -> nat -> list bytes)
    (s : EngineState) (files : list RecoveredFile) (recovery_threads : nat) (strict : bool)
    : io Disk (EngineState * NeededTombstones) :=
  if keydir_blind then recovery_load_streams s files recovery_threads strict
  else recovery_load_ranged sample_separators s files recovery_threads strict.

Section loop.
Context (keydir_blind : bool) (sample_separators : list (bytes * KeyDirEntry) -> nat -> list bytes)
  (recovery_threads : nat) (fail_recovery_on_crc_errors : bool).

(** One pass: the recovered state and the tombstones it needs, or two files
    under the same sequences. *)
Definition recovery_pass : io Disk (EngineState * NeededTombstones * list RecoveredFile + string * string) :=
  '(s, fs) ← recovery_prepare_files EngineState_init;
  loaded ← attempt (recovery_load keydir_blind sample_separators s fs recovery_threads fail_recovery_on_crc_errors);
  overlap ← (match loaded with
             | Ok (s, needed) =>
                 match find_sequence_overlap s with
                 | None => mret (inl (s, needed, fs))
                 | Some ab => mret (inr ab)
                 end
             | Err (SequenceOverlap a b) => mret (inr (a, b))
             | Err ex => throw ex
             end);
  match overlap with
  | inl done_ => mret (inl done_)
  | inr (a, b) => pa ← lift (path_of fs a); pb ← lift (path_of fs b); mret (inr (pa, pb))
  end.

(** The loop; [None] when [fuel] passes were not enough. *)
Fixpoint recovery_open (fuel : nat) : io Disk (option (EngineState * NeededTombstones * list RecoveredFile)) :=
  match fuel with
  | O => mret None
  | S fuel =>
      r ← recovery_pass;
      match r with
      | inl done_ => mret (Some done_)
      | inr (a, b) => _ ← recovery_undo_interrupted_vacuum a b; recovery_open fuel
      end
  end.
End loop.
End recovery_open.
