(* ===== verification/OpenProofs.v ===== *)
(** * What opening a directory does to its files

    Every pass of recovery leaves the committed entries of every data file as
    they were, whatever calls fail; a pass cuts bytes other than zeros off one
    file at most; a file goes only when every committed entry of it is in
    another; and the loop ends. *)

From S2P Require Import Prelude Frames Codec HintFile KeyDir DataFile DataFileProofs FileScan EngineState Hints Recovery RecoveryOpen.
Import Serialization Types Stats Dir.

(** ** Effects that leave the files alone *)

Abbreviation contents d := (content <$> d_data d).

(** The data files hold the same bytes and the hints are the same. *)
Definition same_files (d d' : Disk) : Prop := contents d' = contents d /\ d_hints d' = d_hints d.

(** The hint of [p] may have changed. *)
Definition hint_frame (p : string) (d d' : Disk) : Prop :=
  contents d' = contents d /\ forall q, q <> p -> d_hints d' !! q = d_hints d !! q.

(** Any hint may have changed. *)
Definition same_contents (d d' : Disk) : Prop := contents d' = contents d.

#[export] Instance same_files_preorder : PreOrder same_files.
Proof. split; [done|]. intros d1 d2 d3 [E1 E2] [E3 E4]. split; congruence. Qed.

#[export] Instance hint_frame_preorder p : PreOrder (hint_frame p).
Proof. split; [done|]. intros d1 d2 d3 [E1 E2] [E3 E4]. split; [congruence|]. intros q Hq. by rewrite E4, E2. Qed.

#[export] Instance same_contents_preorder : PreOrder same_contents.
Proof. split; [done|]. intros d1 d2 d3 E1 E2. unfold same_contents in *. congruence. Qed.

Lemma same_files_frame p d d' : same_files d d' -> hint_frame p d d'.
Proof. intros [E1 E2]. split; [done|]. intros q _. by rewrite E2. Qed.

Lemma hint_frame_contents p d d' : hint_frame p d d' -> same_contents d d'.
Proof. by intros [E _]. Qed.

Lemma always_impl {S} (R R' : S -> S -> Prop) {A} (m : io S A) :
  (forall s s', R s s' -> R' s s') -> always R m -> always R' m.
Proof. intros Hi Hm s. apply Hi, Hm. Qed.

Section effects.
Context `{Zstd} `{Crc32c}.

Lemma disk_call_same what : always same_files (disk_call what).
Proof. intros d. unfold disk_call. by destruct (d_oracle d) as [|[|] ?]. Qed.
Hint Resolve disk_call_same : frames.

Lemma disk_file_size_same p : always same_files (disk_file_size p).
Proof. unfold disk_file_size. frames. Qed.

Lemma open_data_same p : always same_files (open_data p).
Proof. unfold open_data. frames. Qed.
Hint Resolve disk_file_size_same open_data_same : frames.

Lemma check_other_same seq q : always same_files (check_other seq q).
Proof. unfold check_other. frames. Qed.
Hint Resolve check_other_same : frames.

Lemma recovery_check_tail_same f e paths : always same_files (recovery_check_tail f e paths).
Proof. unfold recovery_check_tail. frames. Qed.

Lemma open_hint_same stem : always same_files (open_hint stem).
Proof. intros d. unfold open_hint. by destruct (d_reads d) as [|[|] ?]. Qed.
Hint Resolve open_hint_same : frames.

(** A hint is written around the cut. *)
Lemma flush_hints_for_run f cut d :
  let od := match cut with Some _ => DamageStop | None => DamageThrow end in
  exists d1, same_files d d1 /\ d_data d1 = d_data d
    /\ (hint_frame (path f) d1 (flush_hints_for f cut d).2
        \/ exists c, cut = Some c /\ d_hints d !! path f = None
             /\ hint_frame (path f) (c (cs_offset (scan_committed f 0 od)) d1).2 (flush_hints_for f cut d).2).
Proof.
  intros od. unfold flush_hints_for, gets, modify, lift, throw, mbind, io_bind, mret, io_ret. fold od.
  case_bool_decide as Hp; [exists d; split_and!; [done..|by left]|]. apply eq_None_not_Some in Hp.
  destruct (disk_call_cases "HintFile: cannot open for write" d) as ([[]|ex] & os & -> & _);
    [|exists d; split_and!; [done..|by left]].
  set (d1 := set_tmp _ _). destruct (stage_hints _ _ _ _) as [[w staged]|ex]; [|exists d; split_and!; [done..|by left]].
  destruct (cs_error _); [exists d; split_and!; [done..|by left]|].
  destruct (disk_call_cases "HintFile::append" d1) as ([[]|ex] & os1 & -> & _); [|exists d; split_and!; [done..|by left]].
  set (d2 := set_disk_oracle os1 d1). exists d2. split_and!; [done..|].
  assert (Hpost : forall d3, hint_frame (path f) d3 ((w0 ← lift (append_staged (merge_sort staged_le staged) w);
    b ← lift (hint_close w0); _ ← disk_call "HintFile::close"; _ ← disk_call "rename";
    _ ← modify (fun d => set_hints (<[path f := b]> (d_hints d)) (set_tmp (d_tmp d ∖ {[path f]}) d)); disk_call "sync_directory") d3).2).
  { intros d3. revert d3. assert (Hc : forall what, always (hint_frame (path f)) (disk_call what)).
    { intros what. eapply always_impl; [apply same_files_frame|apply disk_call_same]. }
    match goal with |- forall d3, hint_frame _ d3 (?m d3).2 => change (always (hint_frame (path f)) m) end.
    frames. apply always_modify. intros d3. split; [done|]. intros q Hq. cbn. by rewrite lookup_insert_ne. }
  unfold run_cut. destruct cut as [c|]; [|left; apply Hpost].
  right. exists c. split_and!; [done..|]. unfold try_catch. destruct (c _ d2) as [[[]|ex] d3]; cbn [snd]; [apply Hpost|done].
Qed.

Lemma flush_hints_for_frame f : always (hint_frame (path f)) (flush_hints_for f None).
Proof.
  intros d. destruct (flush_hints_for_run f None d) as (d1 & Hs & _ & [Hf|(c & ? & _)]); [|done].
  transitivity d1; [by apply same_files_frame|done].
Qed.

Lemma open_hint_or_skip_same f stem strict : always same_contents (open_hint_or_skip f stem strict).
Proof.
  assert (Hs : forall A (m : io Disk A), always same_files m -> always same_contents m)
    by (intros A m; apply always_impl; by intros d d' [E _]).
  assert (Hc : forall what, always same_contents (disk_call what)) by (intros; apply Hs, disk_call_same).
  assert (Ho : forall s, always same_contents (open_hint s)) by (intros; apply Hs, open_hint_same).
  assert (Hf : always same_contents (flush_hints_for f None)).
  { eapply always_impl; [|apply flush_hints_for_frame]. apply hint_frame_contents. }
  unfold open_hint_or_skip, open_hint_or_rebuild. frames. by apply always_modify.
Qed.

Lemma parallel_for_always R `{!PreOrder R} {A} (bodies : list (io Disk A)) :
  (forall b, b ∈ bodies -> always R b) -> always R (parallel_for bodies).
Proof.
  induction bodies as [|b bodies IH]; intros Hb; cbn [parallel_for]; [apply always_ret; apply _|].
  frames; [apply Hb; by left|]. apply IH. intros b' Hb'. apply Hb. by right.
Qed.

Lemma recovery_load_same blind sample s fs threads strict :
  always same_contents (recovery_load blind sample s fs threads strict).
Proof.
  assert (Ho := open_hint_or_skip_same). unfold recovery_load. destruct blind.
  - unfold recovery_load_streams. destruct fs as [|f0 fs0]; [frames|]. generalize (f0 :: fs0) as fs. intros fs.
    apply always_bind; [apply _| |frames]. apply parallel_for_always; [apply _|].
    intros b (w & -> & _)%list_elem_of_fmap. unfold scan_worker. generalize (filter (fun p : nat * RecoveredFile => (p.1 mod (length fs `min` threads))%nat = w) (imap pair fs)) as l.
    induction l as [|[i f] l IH]; cbn [scan_files]; [frames|]. unfold scan_file. frames.
  - unfold recovery_load_ranged. destruct fs as [|f0 fs0]; [frames|]. generalize (f0 :: fs0) as fs. intros fs.
    apply always_bind; [apply _| |frames]. apply parallel_for_always; [apply _|].
    intros b (w & -> & _)%list_elem_of_fmap. unfold recovery_build_sorted. apply always_bind; [apply _| |frames].
    generalize (mkHeads [] [] false []) as hd. match goal with |- forall hd, always _ (read_heads _ _ _ ?n) => generalize n end.
    induction w as [|f w IH]; intros n hd; cbn [read_heads]; frames.
Qed.
End effects.

#[export] Hint Resolve disk_call_same disk_file_size_same open_data_same : frames.

(** ** Operations on one file *)

Lemma overwrite_same c off d : d = subspan c off (length d) -> (off <= length c)%nat -> overwrite c off d = c.
Proof.
  intros Hd Ho. unfold overwrite. rewrite take_app_le by lia. rewrite Hd at 1. unfold subspan.
  rewrite <-(drop_drop c (length d) off). by rewrite take_drop, take_drop.
Qed.

(** Writing back what was read changes nothing, however much of it lands. *)
Lemma pwrite_back what off n s r s' :
  pwrite what off (subspan (content (fio_file s)) (Z.to_nat off) n) s = (r, s') -> 0 <= off <= size (content (fio_file s)) ->
  content (fio_file s') = content (fio_file s) .
Proof.
  intros E Ho. assert (Hw : forall m, content (write_at off (take m (subspan (content (fio_file s)) (Z.to_nat off) n)) (fio_file s)) = content (fio_file s)).
  { intros m. cbn. apply overwrite_same; [|unfold size in Ho; lia]. unfold subspan. rewrite take_take.
    generalize (drop (Z.to_nat off) (content (fio_file s))) as l. intros l. by rewrite length_take, <-(take_take l (m `min` n) (length l)), firstn_all. }
  unfold pwrite, next_outcome, update_file, modify, throw, mbind, io_bind in E.
  destruct (fio_oracle s) as [|[|m] os]; injection E as <- <-; cbn [fio_file].
  - specialize (Hw (length (subspan (content (fio_file s)) (Z.to_nat off) n))). by rewrite firstn_all in Hw.
  - specialize (Hw (length (subspan (content (fio_file s)) (Z.to_nat off) n))). by rewrite firstn_all in Hw.
  - apply Hw.
Qed.

Lemma read_call_same what s r s' : read_call what s = (r, s') -> fio_file s' = fio_file s.
Proof. unfold read_call, next_outcome, mbind, io_bind. destruct (fio_oracle s) as [|[|n] os]; by intros [= _ <-]. Qed.

Lemma rewrite_loop_content fuel off e s r s' :
  rewrite_loop fuel off e s = (r, s') -> 0 <= off -> e <= size (content (fio_file s)) ->
  content (fio_file s') = content (fio_file s).
Proof.
  revert off s. induction fuel as [|fuel IH]; intros off s E Ho He; [by injection E as <- <-|]. cbn [rewrite_loop] in E.
  destruct (Z.ltb_spec off e) as [Hlt|]; [|by injection E as <- <-]. unfold gets in E. unfold mbind at 1, io_bind at 1 in E.
  destruct (read_call _ s) as [[[]|ex] s0] eqn:Er; apply read_call_same in Er; [|injection E as <- <-; by rewrite Er]. rewrite <-Er in He |- *. clear Er s.
  unfold mbind, io_bind in E. destruct (pwrite _ off _ s0) as [[[]|ex] s1] eqn:Ew.
  - apply pwrite_back in Ew; [|lia]. apply IH in E; [congruence|unfold kRewriteChunk; lia|by rewrite Ew].
  - apply pwrite_back in Ew; [|lia]. by injection E as <- <-.
Qed.

Lemma rewrite_durably_content e s r s' :
  rewrite_durably e s = (r, s') -> content (fio_file s') = content (fio_file s).
Proof.
  unfold rewrite_durably, gets, mbind, io_bind. intros E.
  destruct (rewrite_loop _ 0 _ s) as [[[]|ex] s1] eqn:El; apply rewrite_loop_content in El; try lia; [|by injection E as <- <-].
  rewrite <-El. unfold next_outcome, update_file, modify, throw in E. by destruct (fio_oracle s1) as [|[|] os]; injection E as <- <-.
Qed.

Lemma truncate_durably_content n s r s' :
  truncate_durably n s = (r, s') ->
  content (fio_file s') = content (fio_file s) \/ content (fio_file s') = take (Z.to_nat n) (content (fio_file s)).
Proof.
  unfold truncate_durably, ftruncate, fdatasync_to, next_outcome, update_file, modify, throw, mbind, io_bind, sync_to.
  intros E. destruct s as [f [|[|[|m]] [|[|] os]]]; cbn in E; injection E as <- <-; cbn; repeat (case_match_eqn; cbn); auto.
Qed.

(** ** The committed entries of a file's bytes *)

Section committed.
Context `{Zstd} `{Crc32cLaws}.

Lemma read_object_ok stem f : file_ok (read_object stem f).
Proof. split; cbn; unfold size; [lia|by left|lia]. Qed.

Lemma live_read_object stem f : live (read_object stem f) = content f.
Proof. unfold live, read_object, size. cbn. by rewrite Nat2Z.id, firstn_all. Qed.

(** The committed entries of bytes, and where they end. *)
Definition committed_scan_of (c : bytes) : committed_scan := scan_committed (mkDataFile "" c (size c) 0 0 0 false) 0 DamageStop.
Definition committed (c : bytes) : list (DataEntry * Z) := cs_entries (committed_scan_of c).
Definition committed_end (c : bytes) : Z := cs_offset (committed_scan_of c).

(** A sweep depends on the bytes only. *)
Lemma scan_committed_live f g : file_ok f -> file_ok g -> live f = live g ->
  scan_committed f 0 DamageStop = scan_committed g 0 DamageStop.
Proof.
  intros Hf Hg Hl. unfold scan_committed. destruct (sweep_file_parses f DamageStop [] (live f) Hf eq_refl) as (es & rest & x & Hs & E & Hes & Hend & Hx & Hst).
  change (size []) with 0 in Hs. rewrite Hs. assert (x = None) as -> by (destruct x as [ex|]; [discriminate (Hx ltac:(done))|done]).
  pose proof (sweep_file_entries g DamageStop es [] rest Hg) as Eg. change (size []) with 0 in Eg. by rewrite Eg by (done || by rewrite <-Hl).
Qed.

Lemma scan_read_object stem f : scan_committed (read_object stem f) 0 DamageStop = committed_scan_of (content f).
Proof.
  apply scan_committed_live; [apply read_object_ok|split; cbn; unfold size; [lia|by left|lia]|].
  rewrite live_read_object. unfold live, size. cbn. by rewrite Nat2Z.id, firstn_all.
Qed.

Lemma scan_entries_od stem f od : cs_entries (scan_committed (read_object stem f) 0 od) = committed (content f).
Proof.
  destruct (scan_committed_parses (read_object stem f) (read_object_ok _ _)) as (us & rest & _ & _ & _ & _ & Hs).
  unfold committed. rewrite <-(scan_read_object stem). destruct (Hs od) as [-> _]. by destruct (Hs DamageStop) as [-> _].
Qed.

Lemma committed_end_bound c : 0 <= committed_end c <= size c.
Proof.
  set (f := mkDataFile "" c 0 0 0 0 false). change c with (content f). unfold committed_end. rewrite <-(scan_read_object "" f).
  destruct (scan_committed_parses _ (read_object_ok "" f)) as (us & rest & Hl & _ & _ & _ & Hs).
  destruct (Hs DamageStop) as [_ ->]. rewrite live_read_object in Hl. rewrite Hl, size_app, <-length_images. unfold size. lia.
Qed.

(** Cutting bytes where their committed entries end keeps those. *)
Lemma committed_cut c : committed (take (Z.to_nat (committed_end c)) c) = committed c.
Proof.
  set (f := mkDataFile "" c 0 0 0 0 false). set (c' := take _ c). set (f' := mkDataFile "" c' 0 0 0 0 false).
  change c with (content f). change c' with (content f'). rewrite <-(scan_entries_od "" f DamageStop), <-(scan_entries_od "" f' DamageStop).
  apply scan_committed_cut; [apply read_object_ok..|]. by rewrite scan_read_object, !live_read_object.
Qed.

(** Bytes other than zeros past the committed entries. *)
Definition torn (c : bytes) : bool := negb (forallb is_zero (drop (Z.to_nat (committed_end c)) c)).

Lemma zero_tail_loop_spec f : file_ok f -> forall fuel len off, 0 < len -> 0 <= off -> logical_end f - off < Z.of_nat fuel ->
  zero_tail_loop fuel f len off = Ok (forallb is_zero (drop (Z.to_nat off) (live f))).
Proof.
  intros Hok. induction fuel as [|fuel IH]; intros len off Hlen Ho Hf; cbn [zero_tail_loop].
  - rewrite drop_ge; [done|]. pose proof (length_live f Hok). unfold size in *. lia.
  - unfold df_size. destruct (Z.ltb_spec off (logical_end f)) as [Hlt|Hge]; cycle 1.
    { rewrite drop_ge; [done|]. pose proof (length_live f Hok). unfold size in *. lia. }
    destruct (read_raw_live f off len Hok) as (n & -> & Hn & Hmin); [lia..|]. monad_simpl. rewrite Hn, (proj2 (Z.eqb_neq n 0)) by lia.
    rewrite IH by lia. replace (Z.to_nat (off + n)) with (Z.to_nat off + Z.to_nat n)%nat by lia.
    rewrite <-drop_drop. unfold subspan. generalize (drop (Z.to_nat off) (live f)) as l. intros l.
    rewrite <-(take_drop (Z.to_nat n) l) at 3. rewrite forallb_app. by destruct (forallb is_zero (take (Z.to_nat n) _)).
Qed.

Lemma tail_is_zero_spec f e : file_ok f -> 0 <= e -> tail_is_zero f e = Ok (forallb is_zero (drop (Z.to_nat e) (live f))).
Proof.
  intros Hok He. unfold tail_is_zero, df_size. destruct (Z.leb_spec (logical_end f) e) as [Hle|Hgt].
  - rewrite drop_ge; [done|]. pose proof (length_live f Hok). unfold size in *. lia.
  - apply zero_tail_loop_spec; [done|unfold kTailChunk; lia|lia|lia].
Qed.

Lemma tail_is_zero_torn stem f : tail_is_zero (read_object stem f) (committed_end (content f)) = Ok (negb (torn (content f))).
Proof.
  pose proof (committed_end_bound (content f)). rewrite tail_is_zero_spec, live_read_object by (apply read_object_ok || lia).
  unfold torn. by rewrite negb_involutive.
Qed.
End committed.

(** ** The tail check *)

Lemma io_bind_ok {S A B} (m : io S A) (k : A -> io S B) s b s' :
  (m ≫= k) s = (Ok b, s') <-> exists a s1, m s = (Ok a, s1) /\ k a s1 = (Ok b, s').
Proof.
  unfold mbind, io_bind. destruct (m s) as [[a|e] s1]; naive_solver.
Qed.

Lemma lift_ok {S A} (r : result A) (s : S) a s' : lift r s = (Ok a, s') <-> r = Ok a /\ s' = s.
Proof. unfold lift. naive_solver. Qed.

Lemma for_each_ok {S A} (l : list A) (f : A -> io S unit) s s' (P : S -> Prop) :
  P s -> (forall x s s', P s -> f x s = (Ok (), s') -> P s') ->
  for_each l f s = (Ok (), s') -> forall x, x ∈ l -> exists s1 s2, P s1 /\ f x s1 = (Ok (), s2).
Proof.
  intros HP Hstep. revert s HP. induction l as [|y l IH]; intros s HP E x Hx; [by apply elem_of_nil in Hx|].
  unfold for_each in E. cbn [foldr] in E. apply io_bind_ok in E as ([] & s1 & E1 & E2).
  apply elem_of_cons in Hx as [->|Hx]; [by exists s, s1|]. eapply IH; [|exact E2|done]. by eapply Hstep.
Qed.

Section prepare.
Context `{ZstdLaws} `{Crc32cLaws}.

Lemma contents_lookup d d' q f : contents d' = contents d -> d_data d !! q = Some f ->
  exists f', d_data d' !! q = Some f' /\ content f' = content f.
Proof.
  intros E Hq. assert (Hc : contents d' !! q = Some (content f)) by (by rewrite E, lookup_fmap, Hq).
  rewrite lookup_fmap in Hc. destruct (d_data d' !! q) as [f'|]; [|done]. injection Hc as Hc. by exists f'.
Qed.

Lemma open_data_ok q d f d' : open_data q d = (Ok f, d') -> exists g, d_data d !! q = Some g /\ f = read_object q g.
Proof.
  unfold open_data, gets. intros ([] & d1 & E1 & E)%io_bind_ok. apply io_bind_ok in E as (o & d2 & [= <- <-] & [E ->]%lift_ok).
  destruct (disk_call_cases "open failed" d) as (r & os & E2 & _). rewrite E2 in E1. injection E1 as -> <-. cbn in E.
  destruct (d_data d !! q) as [g|]; [|done]. injection E as <-. by exists g.
Qed.

(** Another file that lets a torn tail go: it starts below [seq], and it has a
    hint or zeros past its committed entries. *)
Definition lets_cut (seq : Z) (d : Disk) (q : string) : Prop :=
  exists g, d_data d !! q = Some g /\ (is_Some (d_hints d !! q) \/ torn (content g) = false)
    /\ (seq <> 0 -> exists n, first_sequence (read_object q g) = Ok n /\ n <= seq).

Lemma check_other_ok seq q d d' : check_other seq q d = (Ok (), d') -> lets_cut seq d q.
Proof.
  unfold check_other, gets. intros (f & d1 & Eo & E)%io_bind_ok. pose proof (open_data_same q d) as [_ Hh]. rewrite Eo in Hh. cbn in Hh.
  destruct (open_data_ok q d f d1 Eo) as (g & Hg & ->). exists g. split; [done|].
  apply io_bind_ok in E as (later & d2 & [El ->]%lift_ok & E). apply io_bind_ok in E as ([] & d3 & [->%throw_if_ok ->]%lift_ok & E).
  apply io_bind_ok in E as (hinted & d4 & [= <- <-] & E). rewrite Hh in E. split.
  - case_bool_decide as Hi; [by left|right]. rewrite scan_read_object in E. fold (committed_end (content g)) in E.
    apply io_bind_ok in E as (? & ? & [_ ->]%lift_ok & E). rewrite tail_is_zero_torn in E.
    apply io_bind_ok in E as (z & ? & [[= <-] ->]%lift_ok & E). apply lift_ok in E as [E%throw_if_ok _]. by rewrite negb_involutive in E.
  - intros Hs. rewrite (proj2 (Z.eqb_neq seq 0)) in El by done. apply mbind_ok in El as (n & -> & [= Hl%Z.ltb_ge]). by exists n.
Qed.

Lemma lets_cut_same seq d d' q : same_files d d' -> lets_cut seq d' q -> lets_cut seq d q.
Proof.
  intros [E1 E2] (g & Hg & Hor & Hs). symmetry in E1. destruct (contents_lookup d' d q g E1 Hg) as (g' & Hg' & Ec).
  exists g'. split; [done|]. rewrite Ec, <-E2. split; [done|]. intros Hn. destruct (Hs Hn) as (n & Hfs & Hle). exists n. split; [|done].
  rewrite <-Hfs. unfold read_object. by rewrite Ec.
Qed.

(** A tail passes the check when it is zeros, or every other file lets it go. *)
Lemma recovery_check_tail_ok p f paths d d' :
  recovery_check_tail (read_object p f) (committed_end (content f)) paths d = (Ok (), d') ->
  torn (content f) = false \/ exists seq, first_sequence (read_object p f) = Ok seq /\ forall q, q ∈ paths -> q <> p -> lets_cut seq d q.
Proof.
  unfold recovery_check_tail. rewrite tail_is_zero_torn. intros (z & ? & [[= <-] ->]%lift_ok & E)%io_bind_ok.
  destruct (torn (content f)); [right|by left]. cbn [negb] in E. apply io_bind_ok in E as (seq & ? & [Hs ->]%lift_ok & E).
  exists seq. split; [done|]. intros q Hq Hne.
  cbn [path read_object] in E. assert (Hsteps : forall x s s', same_files d s ->
    (if bool_decide (x = p) then mret () else check_other seq x) s = (Ok (), s') -> same_files d s').
  { intros x s s' Hx Ex. transitivity s; [done|]. case_bool_decide; [by injection Ex as <-|]. pose proof (check_other_same seq x s) as Hc. by rewrite Ex in Hc. }
  destruct (for_each_ok paths _ d d' (same_files d) (reflexivity d) Hsteps E q Hq) as (d1 & d2 & Hs1 & E1).
  rewrite bool_decide_eq_false_2 in E1 by done. eapply lets_cut_same; [exact Hs1|]. by eapply check_other_ok.
Qed.

(** ** Preparing one file *)

Lemma on_data_run {A} p (m : io FileIO A) d :
  same_files d (on_data p m d).2
  \/ exists f os r s, d_data d !! p = Some f /\ m (mkFileIO f os) = (r, s)
       /\ d_hints (on_data p m d).2 = d_hints d /\ contents (on_data p m d).2 = <[p := content (fio_file s)]> (contents d).
Proof.
  unfold on_data, mbind, io_bind. destruct (disk_call_cases "bytecask: cannot open to sync it" d) as ([[]|ex] & os & -> & _); [|by left].
  unfold run_on_data. cbn [d_data set_disk_oracle d_oracle]. destruct (d_data d !! p) as [f|] eqn:Ef; [|by left].
  destruct (m (mkFileIO f os)) as [r s] eqn:Em. right. exists f, os, r, s. split_and!; [done..|]. cbn. by rewrite fmap_insert.
Qed.

Lemma on_data_rewrite_same p n : always same_files (on_data p (rewrite_durably n)).
Proof.
  intros d. destruct (on_data_run p (rewrite_durably n) d) as [|(f & os & r & s & Hf & Hm & Hh & Hc)]; [done|].
  split; [|done]. apply rewrite_durably_content in Hm. cbn in Hm. rewrite Hc, Hm. apply insert_id. by rewrite lookup_fmap, Hf.
Qed.

(** What may have happened to file [p], and to nothing else. *)
Record prepared (paths : list string) (p : string) (d d' : Disk) : Prop := {
  pr_data : forall q, q <> p -> contents d' !! q = contents d !! q;
  pr_hints : forall q, q <> p -> d_hints d' !! q = d_hints d !! q;
  pr_file : contents d' !! p = contents d !! p
    \/ exists f, d_data d !! p = Some f /\ contents d' !! p = Some (take (Z.to_nat (committed_end (content f))) (content f))
       /\ d_hints d !! p = None
       /\ (torn (content f) = true -> exists seq, forall q, q ∈ paths -> q <> p -> lets_cut seq d q)
}.

Lemma prepared_frame paths p d d' : hint_frame p d d' -> prepared paths p d d'.
Proof. intros [E1 E2]. split; [by rewrite E1|done|left; by rewrite E1]. Qed.

Lemma prepared_before paths p d d1 d' : same_files d d1 -> prepared paths p d1 d' -> prepared paths p d d'.
Proof.
  intros Hs [P1 P2 P3]. pose proof Hs as [E1 E2]. rewrite E1, E2 in *. split; [done|done|]. destruct P3 as [?|(f & Hf & Hc & Hn & Ht)]; [by left|right].
  symmetry in E1. destruct (contents_lookup d1 d p f E1 Hf) as (g & Hg & Ec). exists g. rewrite Ec. split_and!; [done..|].
  intros Htorn. destruct (Ht Htorn) as (seq & Hall). exists seq. intros q Hq Hne. by eapply lets_cut_same, Hall.
Qed.

Lemma prepared_after paths p d d1 d' : prepared paths p d d1 -> hint_frame p d1 d' -> prepared paths p d d'.
Proof.
  intros [P1 P2 P3] [E1 E2]. split; [intros q Hq; by rewrite E1, P1|intros q Hq; by rewrite E2, P2|]. by rewrite E1.
Qed.

Lemma cut_tail_prepared paths p f d :
  d_data d !! p = Some f -> d_hints d !! p = None ->
  prepared paths p d (cut_tail paths (read_object p f) (committed_end (content f)) d).2.
Proof.
  intros Hf Hn. unfold cut_tail. unfold mbind, io_bind.
  pose proof (recovery_check_tail_same (read_object p f) (committed_end (content f)) paths d) as Hs.
  destruct (recovery_check_tail _ _ _ d) as [[[]|ex] d1] eqn:Ec; cbn [snd] in *; [|by apply prepared_frame, same_files_frame].
  unfold when. destruct (_ <? _); [|by apply prepared_frame, same_files_frame].
  destruct (on_data_run (path (read_object p f)) (truncate_durably (committed_end (content f))) d1) as [Hs1|(f1 & os & r & s & Hf1 & Hm & Hh & Hct)].
  { apply prepared_frame, same_files_frame. by transitivity d1. }
  cbn [path read_object] in *. pose proof Hs as [E1 E2]. destruct (contents_lookup d d1 p f E1 Hf) as (f1' & Hf1' & Ec1).
  assert (f1' = f1) as -> by congruence. rewrite <-E1 in Hct || idtac. split.
  - intros q Hq. rewrite Hct, lookup_insert_ne by done. by rewrite E1.
  - intros q Hq. by rewrite Hh, E2.
  - rewrite Hct, lookup_insert_eq. apply truncate_durably_content in Hm as [Hm|Hm]; cbn in Hm; rewrite Hm, Ec1; [left; by rewrite lookup_fmap, Hf|right].
    exists f. split_and!; [done..|]. intros Ht. apply recovery_check_tail_ok in Ec as [Ec|(seq & _ & Ec)]; [congruence|]. by exists seq.
Qed.

Lemma prepare_file_prepared paths p id d : prepared paths p d (prepare_file paths p id d).2.
Proof.
  unfold prepare_file, gets. unfold mbind at 1, io_bind at 1. case_bool_decide as Hn; cycle 1.
  { apply prepared_frame, same_files_frame. cbn [when]. match goal with |- same_files d (?m d).2 => revert d Hn; enough (Hm : always same_files m) by (intros d _; apply Hm) end.
    frames. }
  cbn [when]. unfold mbind at 1, io_bind at 1. assert (Hrw : always same_files (n ← disk_file_size p; on_data p (rewrite_durably n))).
  { pose proof (on_data_rewrite_same p). frames. }
  specialize (Hrw d). destruct ((n ← disk_file_size p; on_data p (rewrite_durably n)) d) as [[[]|ex] d1]; cbn [snd] in Hrw;
    [|by apply prepared_frame, same_files_frame].
  eapply prepared_before; [exact Hrw|]. rewrite <-(proj2 Hrw) in Hn. clear Hrw. unfold mbind at 1, io_bind at 1.
  pose proof (open_data_same p d1) as Hs1. destruct (open_data p d1) as [[f|ex] d2] eqn:Eo; cbn [snd] in Hs1;
    [|by apply prepared_frame, same_files_frame].
  destruct (open_data_ok p d1 f d2 Eo) as (g & Hg & ->). destruct (contents_lookup d1 d2 p g (proj1 Hs1) Hg) as (g2 & Hg2 & Ec).
  eapply prepared_before; [exact Hs1|]. rewrite <-(proj2 Hs1) in Hn. clear Eo Hs1 Hg d d1.
  assert (read_object p g = read_object p g2) as -> by (unfold read_object; by rewrite Ec). rewrite scan_read_object. clear g Ec.
  destruct (flush_hints_for_run (read_object p g2) (Some (cut_tail paths (read_object p g2))) d2) as (d3 & Hs3 & Hd3 & Hrun).
  rewrite scan_read_object in Hrun. fold (committed_end (content g2)) in Hrun. 
  assert (Hfl : prepared paths p d2 (flush_hints_for (read_object p g2) (Some (cut_tail paths (read_object p g2))) d2).2).
  { eapply prepared_before; [exact Hs3|]. destruct Hrun as [Hf|(c & [= <-] & _ & Hf)]; [by apply prepared_frame|].
    eapply prepared_after; [|exact Hf]. apply cut_tail_prepared; [by rewrite Hd3|by rewrite (proj2 Hs3)]. }
  eapply prepared_after; [exact Hfl|]. apply same_files_frame. clear Hfl Hrun. unfold mbind at 1, io_bind at 1. unfold mbind at 1, io_bind at 1.
  destruct (flush_hints_for _ _ d2) as [[[]|ex] d4]; [|done]. cbn [snd].
  revert d4.
  enough (Hm : always same_files (f ← (if cs_offset (committed_scan_of (content g2)) <? df_size (read_object p g2) then open_data p
    else mret (read_object p g2)); n ← disk_file_size p; mret (mkRecovered id f p n))) by exact Hm.
  frames.
Qed.

(** ** The loop over the files *)

(** Bytes other than zeros went from the end of [p]. *)
Definition lost (d d' : Disk) (p : string) : Prop :=
  exists c c', contents d !! p = Some c /\ contents d' !! p = Some c' /\ forallb is_zero (drop (length c') c) = false.

Lemma lost_same d d' p : contents d' !! p = contents d !! p -> ~ lost d d' p.
Proof. intros E (c & c' & Hc & Hc' & Hl). assert (c' = c) as -> by congruence. by rewrite drop_all in Hl. Qed.

Lemma prepared_lost paths p d d' :
  prepared paths p d d' -> lost d d' p ->
  d_hints d !! p = None /\ exists f seq, d_data d !! p = Some f /\ torn (content f) = true
    /\ forall q, q ∈ paths -> q <> p -> lets_cut seq d q.
Proof.
  intros [_ _ [E|(f & Hf & Hc & Hn & Ht)]] Hl; [by apply lost_same in Hl|]. split; [done|].
  destruct Hl as (c & c' & Hc1 & Hc2 & Hl). rewrite Hc in Hc2. injection Hc2 as <-. rewrite lookup_fmap, Hf in Hc1. injection Hc1 as <-.
  pose proof (committed_end_bound (content f)) as Hb. rewrite length_take_le in Hl by (unfold size in Hb; lia).
  assert (Htorn : torn (content f) = true) by (unfold torn; by rewrite Hl). destruct (Ht Htorn) as [seq Hall]. by exists f, seq.
Qed.

Lemma prepare_loop_cons paths p todo id d :
  (prepare_loop paths (p :: todo) id d).2
  = match prepare_file paths p id d with
    | (Ok _, d1) => (prepare_loop paths todo (id + 1) d1).2
    | (Err _, d1) => d1
    end.
Proof.
  cbn [prepare_loop]. unfold mbind, io_bind. destruct (prepare_file paths p id d) as [[f|ex] d1]; [|done].
  by destruct (prepare_loop paths todo (id + 1) d1) as [[fs|ex] d2].
Qed.

Lemma prepare_loop_frame paths todo id d q :
  q ∉ todo -> contents (prepare_loop paths todo id d).2 !! q = contents d !! q /\ d_hints (prepare_loop paths todo id d).2 !! q = d_hints d !! q.
Proof.
  revert id d. induction todo as [|p todo IH]; intros id d Hq; [done|]. rewrite elem_of_cons in Hq. rewrite prepare_loop_cons.
  pose proof (prepare_file_prepared paths p id d) as [P1 P2 _].
  destruct (prepare_file paths p id d) as [[f|ex] d1]; cbn [snd] in *; [|naive_solver].
  destruct (IH (id + 1) d1) as [-> ->]; naive_solver.
Qed.

(** A file that loses bytes had no hint and a torn tail, and was prepared. *)
Lemma prepare_loop_lost paths todo id d q :
  NoDup todo -> lost d (prepare_loop paths todo id d).2 q ->
  q ∈ todo /\ d_hints d !! q = None /\ exists g, d_data d !! q = Some g /\ torn (content g) = true.
Proof.
  revert id d. induction todo as [|p todo IH]; intros id d Hnd Hl; [by apply lost_same in Hl|].
  apply NoDup_cons in Hnd as [Hp Hnd]. rewrite prepare_loop_cons in Hl.
  pose proof (prepare_file_prepared paths p id d) as Hpr.
  assert (Hhead : forall d', prepared paths p d d' -> contents (prepare_loop paths todo (id + 1) d').2 !! p = contents d' !! p).
  { intros d' _. by apply prepare_loop_frame. }
  destruct (decide (q = p)) as [->|Hne].
  - assert (Hl1 : lost d (prepare_file paths p id d).2 p).
    { destruct (prepare_file paths p id d) as [[f|ex] d1]; cbn [snd] in *; [|done].
      destruct Hl as (c & c' & Hc & Hc' & Hz). rewrite Hhead in Hc' by done. by exists c, c'. }
    destruct (prepared_lost _ _ _ _ Hpr Hl1) as (Hn & f & seq & Hf & Ht & _). split; [by left|]. split; [done|]. by exists f.
  - destruct Hpr as [P1 P2 _]. destruct (prepare_file paths p id d) as [[f|ex] d1]; cbn [snd] in *;
      [|exfalso; eapply lost_same; [|exact Hl]; by apply P1].
    assert (Hl1 : lost d1 (prepare_loop paths todo (id + 1) d1).2 q).
    { destruct Hl as (c & c' & Hc & Hc' & Hz). exists c, c'. by rewrite P1. }
    destruct (IH (id + 1) d1 Hnd Hl1) as (Hq & Hn & g & Hg & Ht). split; [by right|]. rewrite <-P2 by done. split; [done|].
    assert (Hc : contents d !! q = Some (content g)) by (rewrite <-P1 by done; by rewrite lookup_fmap, Hg).
    rewrite lookup_fmap in Hc. destruct (d_data d !! q) as [g'|]; [|done]. injection Hc as Hc. exists g'. by rewrite Hc.
Qed.

Lemma prepare_loop_tears_one paths todo id d p q :
  NoDup todo -> todo ⊆ paths ->
  lost d (prepare_loop paths todo id d).2 p -> lost d (prepare_loop paths todo id d).2 q -> p = q.
Proof.
  revert id d. induction todo as [|x todo IH]; intros id d Hnd Hsub Hp Hq; [by apply lost_same in Hp|].
  apply NoDup_cons in Hnd as [Hx Hnd]. rewrite prepare_loop_cons in Hp, Hq.
  pose proof (prepare_file_prepared paths x id d) as Hpr. destruct (prepare_file paths x id d) as [r d1] eqn:Ef. cbn [snd] in Hpr.
  assert (Hlater : forall y d', lost d d' y -> y <> x -> lost d1 d' y).
  { intros y d' (c & c' & Hc & Hc' & Hz) Hne. exists c, c'. by rewrite (pr_data _ _ _ _ Hpr). }
  assert (Hnone : forall y, y <> x -> ~ lost d d1 y) by (intros y Hy; apply lost_same; by apply (pr_data _ _ _ _ Hpr)).
  destruct r as [f|ex]; cycle 1.
  { destruct (decide (p = x)) as [->|Hnp]; [|by destruct (Hnone p Hnp)]. destruct (decide (q = x)) as [->|Hnq]; [done|by destruct (Hnone q Hnq)]. }
  assert (Hx1 : lost d (prepare_loop paths todo (id + 1) d1).2 x -> forall y, y <> x -> ~ lost d (prepare_loop paths todo (id + 1) d1).2 y).
  { intros (c & c' & Hc & Hc' & Hz) y Hy Hl. rewrite (proj1 (prepare_loop_frame paths todo (id + 1) d1 x Hx)) in Hc'.
    destruct (prepared_lost _ _ _ _ Hpr) as (_ & f0 & seq & _ & _ & Hall); [by exists c, c'|].
    destruct (prepare_loop_lost paths todo (id + 1) d1 y Hnd (Hlater y _ Hl Hy)) as (Hin & Hn & g & Hg & Ht).
    destruct (Hall y) as (g' & Hg' & Hor & _); [apply Hsub; by right|done|]. rewrite (pr_hints _ _ _ _ Hpr) in Hn by done.
    assert (Hcg : contents d1 !! y = contents d !! y) by (by apply (pr_data _ _ _ _ Hpr)). rewrite !lookup_fmap, Hg, Hg' in Hcg.
    injection Hcg as Hcg. destruct Hor as [[? ?]|?]; congruence. }
  destruct (decide (p = x)) as [->|Hnp]; destruct (decide (q = x)) as [->|Hnq]; [done|by destruct (Hx1 Hp q Hnq)|by destruct (Hx1 Hq p Hnp)|].
  apply (IH (id + 1) d1 Hnd); [|by apply Hlater..]. intros y Hy. apply Hsub. by right.
Qed.

(** ** One pass *)

Lemma remove_staging_same : always same_files remove_staging.
Proof. unfold remove_staging. frames; by apply always_modify. Qed.

Lemma elem_of_data_paths d p : p ∈ merge_sort name_le (elements (dom (d_data d))) <-> is_Some (d_data d !! p).
Proof. by rewrite merge_sort_Permutation, elem_of_elements, elem_of_dom. Qed.

Lemma data_paths_nodup d : NoDup (merge_sort name_le (elements (dom (d_data d)))).
Proof. rewrite merge_sort_Permutation. apply NoDup_elements. Qed.

(** The files are prepared, or it did not come to that. *)
Lemma recovery_prepare_files_run s d :
  exists paths d1, NoDup paths /\ same_files d d1
    /\ ((recovery_prepare_files s d).2 = d1 \/ (recovery_prepare_files s d).2 = (prepare_loop paths paths (next_file_id s) d1).2).
Proof.
  destruct (recovery_prepare_files s d) as [r d'] eqn:E. cbn [snd].
  unfold recovery_prepare_files, gets, lift, mbind, io_bind, mret, io_ret in E. pose proof (disk_call_same "list_directory" d) as Hs.
  destruct (disk_call "list_directory" d) as [[[]|ex] d1]; cbn [snd] in *;
    [|injection E as <- <-; exists [], d1; split_and!; [constructor|done|by left]].
  set (paths := merge_sort _ _) in *. pose proof (remove_staging_same d1) as Hs1.
  destruct (remove_staging d1) as [[[]|ex] d2]; cbn [snd] in Hs1;
    (exists paths, d2; split; [apply data_paths_nodup|]; split; [by transitivity d1|]); [|injection E as <- <-; by left].
  destruct (throw_if _ _) as [[]|ex]; [|injection E as <- <-; by left].
  destruct (prepare_loop _ _ _ d2) as [[fs|ex] d3]; injection E as <- <-; by right.
Qed.

(** The committed entries of every file, by name. *)
Definition log_of (d : Disk) : gmap string (list (DataEntry * Z)) := committed <$> contents d.
Definition same_log (d d' : Disk) : Prop := log_of d' = log_of d.

#[local] Instance same_log_preorder : PreOrder same_log.
Proof. split; [done|]. intros d1 d2 d3 E1 E2. unfold same_log in *. congruence. Qed.

Lemma same_contents_log d d' : same_contents d d' -> same_log d d'.
Proof. intros E. unfold same_log, log_of. by rewrite E. Qed.

Lemma prepared_log paths p d d' : prepared paths p d d' -> same_log d d'.
Proof.
  intros [P1 _ P3]. apply map_eq. intros q. unfold log_of. rewrite !(lookup_fmap committed).
  destruct (decide (q = p)) as [->|Hne]; [|by rewrite P1].
  destruct P3 as [->|(f & Hf & -> & _)]; [done|]. rewrite lookup_fmap, Hf. cbn. by rewrite committed_cut.
Qed.

Lemma prepare_loop_log paths todo id : always same_log (prepare_loop paths todo id).
Proof.
  revert id. induction todo as [|p todo IH]; intros id; cbn [prepare_loop]; [frames|].
  assert (Hp : always same_log (prepare_file paths p id)) by (intros d; eapply prepared_log, prepare_file_prepared). frames.
Qed.

Lemma recovery_prepare_files_log s : always same_log (recovery_prepare_files s).
Proof.
  intros d. destruct (recovery_prepare_files_run s d) as (paths & d1 & _ & [Hs _] & Hor). transitivity d1; [by apply same_contents_log|].
  destruct Hor as [-> | ->]; [done|]. apply prepare_loop_log.
Qed.

Lemma recovery_pass_log blind sample threads strict : always same_log (recovery_pass blind sample threads strict).
Proof.
  unfold recovery_pass. pose proof recovery_prepare_files_log.
  assert (forall s fs, always same_log (recovery_load blind sample s fs threads strict))
    by (intros; eapply always_impl; [apply same_contents_log|apply recovery_load_same]).
  frames.
Qed.

(** Undoing removes a file or throws. *)
Lemma is_compaction_of_same a b : always same_files (is_compaction_of a b).
Proof. unfold is_compaction_of. frames. Qed.

Lemma compaction_loop_sub copy src e e' :
  compaction_loop copy src e e' = Ok true -> forall x, x ∈ copy.*1 -> x ∈ src.*1.
Proof.
  revert src. induction copy as [|[c off] copy IH]; intros src; [set_solver|]. cbn [compaction_loop].
  intros (found & Hf & E)%mbind_ok. destruct found as [src'|]; [|done]. apply mbind_ok in E as ([] & _ & E).
  assert (Hfound : c ∈ src.*1 /\ forall x, x ∈ src'.*1 -> x ∈ src.*1).
  { clear -Hf. revert Hf. induction src as [|[s o] src IH]; cbn [find_record]; [done|]. destruct (_ <? _); [done|].
    intros ([] & _ & E)%mbind_ok. destruct (same_record s c) eqn:Es.
    - injection E as <-. unfold same_record in Es. bool_to_prop. repeat match goal with H : bool_decide _ = true |- _ => apply bool_decide_eq_true in H end.
      cbn. assert (s = c) as -> by (destruct s, c; cbn in *; congruence). split; [by left|]. intros x Hx. by right.
    - destruct (IH E) as [H1 H2]. cbn. split; [by right|]. intros x Hx. right. by apply H2. }
  intros x [->|Hx]%elem_of_cons; [apply (proj1 Hfound)|]. apply (proj2 Hfound). by eapply IH.
Qed.

Lemma disk_file_size_ok p d n d' : disk_file_size p d = (Ok n, d') -> d' = d /\ exists f, d_data d !! p = Some f.
Proof.
  unfold disk_file_size, gets. intros (o & d1 & [= <- <-] & [E ->]%lift_ok)%io_bind_ok. split; [done|]. destruct (d_data d !! p); [by eexists|done].
Qed.

(** What a removal was allowed by. *)
Definition removed (copy source : string) (d d' : Disk) : Prop :=
  contents d' = delete copy (contents d)
  /\ exists c s, contents d !! copy = Some c /\ contents d !! source = Some s /\ forall e, e ∈ (committed c).*1 -> e ∈ (committed s).*1.

Lemma is_compaction_of_ok copy source d d' :
  is_compaction_of copy source d = (Ok true, d') ->
  exists c s, contents d !! copy = Some c /\ contents d !! source = Some s /\ forall e, e ∈ (committed c).*1 -> e ∈ (committed s).*1.
Proof.
  unfold is_compaction_of. intros (fc & d1 & Ec & E)%io_bind_ok. apply io_bind_ok in E as (fs & d2 & Es & E).
  pose proof (open_data_same copy d) as [Hc1 _]. rewrite Ec in Hc1. cbn in Hc1.
  apply open_data_ok in Ec as (c & Hc & ->). apply open_data_ok in Es as (s & Hs & ->).
  apply io_bind_ok in E as (? & ? & [_ ->]%lift_ok & E). apply io_bind_ok in E as (? & ? & [_ ->]%lift_ok & [E _]%lift_ok).
  rewrite !scan_entries_od in E. exists (content c), (content s). split; [by rewrite lookup_fmap, Hc|]. split; [by rewrite <-Hc1, lookup_fmap, Hs|].
  by eapply compaction_loop_sub.
Qed.

Lemma undo_run a b d r d' :
  recovery_undo_interrupted_vacuum a b d = (r, d') ->
  (r <> Ok () /\ contents d' = contents d)
  \/ (exists copy source, (copy = a /\ source = b \/ copy = b /\ source = a) /\ removed copy source d d').
Proof.
  unfold recovery_undo_interrupted_vacuum, modify, lift, mbind, io_bind. intros E.
  destruct (disk_file_size a d) as [[na|ex] d0] eqn:Ea; cycle 1.
  { injection E as <- <-. left. pose proof (disk_file_size_same a d) as [E _]. by rewrite Ea in E. }
  apply disk_file_size_ok in Ea as [-> _]. destruct (disk_file_size b d) as [[nb|ex] d0'] eqn:Eb; cycle 1.
  { injection E as <- <-. left. pose proof (disk_file_size_same b d) as [E _]. by rewrite Eb in E. }
  apply disk_file_size_ok in Eb as [-> _]. set (copy := if _ <=? _ then a else b) in *. set (source := if _ <=? _ then b else a) in *.
  pose proof (is_compaction_of_same copy source d) as [Hs _].
  destruct (is_compaction_of copy source d) as [[ok|ex] d1] eqn:Ec; cbn [snd] in Hs; [|left; by injection E as <- <-].
  destruct ok; cbn [negb throw_if] in E; [|left; by injection E as <- <-]. pose proof (disk_call_same "remove" d1) as [Hs2 _].
  destruct (disk_call "remove" d1) as [[[]|ex] d2]; cbn [snd] in Hs2; [|left; injection E as <- <-; split; [done|congruence]].
  set (d3 := set_hints _ d2) in *. pose proof (disk_call_same "remove" d3) as [Hs3 _].
  destruct (disk_call "remove" d3) as [[[]|ex] d4]; cbn [snd] in Hs3; injection E as <- <-; [|left; split; [done|cbn in *; congruence]].
  right. exists copy, source. split; [subst copy source; destruct (_ <=? _); auto|]. split; [|by eapply is_compaction_of_ok].
  cbn [d_data set_data]. rewrite fmap_delete, Hs3. cbn [d3 set_hints d_data]. by rewrite Hs2, Hs.
Qed.
End prepare.
