(* ===== verification/OverlapProofs.v ===== *)
(** * What a loader reports as an overlap

    [recovery_open] takes the exception [SequenceOverlap] of a loader as two
    files under the same sequences, and removes one of them.  A loader that
    throws it names two different files: only the comparison of two entries
    raises it, after comparing their files, and no other exception of a hint or
    data file is one. *)

From S2P Require Import Prelude Frames Codec HintFile KeyDir DataFile FileScan EngineState Hints Recovery Merging RecoveryOpen.
Import Serialization Types Stats Dir.

(** ** Exceptions that name two files, if any *)

Definition apart (e : exn) : Prop := match e with SequenceOverlap a b => a <> b | _ => True end.

Definition fine {A} (r : result A) : Prop := match r with Err e => apart e | Ok _ => True end.

Definition throws_fine {S A} (m : io S A) : Prop := forall s, fine (m s).1.

Create HintDb fine.

Lemma fine_bind {A B} (r : result A) (f : A -> result B) : fine r -> (forall a, r = Ok a -> fine (f a)) -> fine (r ≫= f).
Proof. destruct r; cbn; auto. Qed.

Lemma fine_throw_if b e : apart e -> fine (throw_if b e).
Proof. by destruct b. Qed.

Lemma fine_io_bind {S A B} (m : io S A) (k : A -> io S B) : throws_fine m -> (forall a, throws_fine (k a)) -> throws_fine (m ≫= k).
Proof. intros Hm Hk s. specialize (Hm s). unfold mbind, io_bind. destruct (m s) as [[a|e] s']; [apply Hk|done]. Qed.

Lemma fine_ret {S A} (a : A) : throws_fine (mret a : io S A).
Proof. by intros s. Qed.

Lemma fine_lift {S A} (r : result A) : fine r -> throws_fine (lift r : io S A).
Proof. by intros Hr s. Qed.

Lemma fine_throw {S A} e : apart e -> throws_fine (throw e : io S A).
Proof. by intros Hr s. Qed.

Lemma fine_gets {S A} (f : S -> A) : throws_fine (gets f).
Proof. by intros s. Qed.

Lemma fine_modify {S} (f : S -> S) : throws_fine (modify f).
Proof. by intros s. Qed.

Lemma fine_try_catch {S A} (m : io S A) h : throws_fine m -> (forall e, apart e -> throws_fine (h e)) -> throws_fine (try_catch m h).
Proof. intros Hm Hh s. specialize (Hm s). unfold try_catch. destruct (m s) as [[a|e] s']; [done|]. by apply Hh. Qed.

(** Walks a computation construct by construct. *)
Ltac fine_step :=
  match goal with
  | |- _ => assumption
  | |- forall _, _ => intros
  | |- apart _ => exact I
  | |- fine (Ok _) => exact I
  | |- fine (Err _) => exact I
  | |- fine (throw_if _ _) => apply fine_throw_if
  | |- fine (mbind _ _) => apply fine_bind
  | |- throws_fine (mbind _ _) => apply fine_io_bind
  | |- throws_fine (try_catch _ _) => apply fine_try_catch
  | |- throws_fine (lift _) => apply fine_lift
  | |- throws_fine (throw _) => apply fine_throw
  | |- throws_fine (mret _) => apply fine_ret
  | |- throws_fine (gets _) => apply fine_gets
  | |- throws_fine (modify _) => apply fine_modify
  | |- fine (match ?x with _ => _ end) => destruct x eqn:?
  | |- throws_fine (match ?x with _ => _ end) => destruct x eqn:?
  | |- _ => solve [eauto 2 with fine]
  end.
Ltac fine := repeat fine_step.

(** ** Hints *)

Section hints.
Context `{Zstd} `{Crc32c}.

Lemma fine_narrow w v : fine (narrow w v).
Proof. unfold narrow. fine. Qed.
Hint Resolve fine_narrow : fine.

Lemma fine_flush_frame w : fine (flush_frame w).
Proof. unfold flush_frame. fine. Qed.
Hint Resolve fine_flush_frame : fine.

Lemma fine_add_entry e w : fine (add_entry e w).
Proof. unfold add_entry. fine. Qed.
Hint Resolve fine_add_entry : fine.

Lemma fine_serialize_entry s et off vs k : fine (HintEntry.serialize_entry s et off vs k).
Proof. unfold HintEntry.serialize_entry. fine. Qed.
Hint Resolve fine_serialize_entry : fine.

Lemma fine_serialize_range_del s off k ek : fine (HintEntry.serialize_range_del_entry s off k ek).
Proof. unfold HintEntry.serialize_range_del_entry. fine. Qed.
Hint Resolve fine_serialize_range_del : fine.

Lemma fine_hint_append s et off k vs w : fine (hint_append s et off k vs w).
Proof. unfold hint_append. fine. Qed.
Hint Resolve fine_hint_append : fine.

Lemma fine_stage_hints es w staged arena : fine (stage_hints es w staged arena).
Proof.
  revert w staged arena. induction es as [|[e off] es IH]; intros w staged arena; cbn [stage_hints]; [fine|].
  unfold append_change_marker, append_range_del. fine.
Qed.

Lemma fine_append_staged es w : fine (append_staged es w).
Proof. revert w. induction es as [|e es IH]; intros w; cbn [append_staged]; fine. Qed.

Lemma fine_hint_close w : fine (hint_close w).
Proof. unfold hint_close. fine. Qed.
Hint Resolve fine_stage_hints fine_append_staged fine_hint_close : fine.

Lemma fine_find_units fuel file end_ at_ p : fine (find_units fuel file end_ at_ p).
Proof. revert at_ p. induction fuel as [|fuel IH]; intros at_ p; cbn [find_units]; fine. Qed.
Hint Resolve fine_find_units : fine.

Lemma fine_open_source b : fine (open_source b).
Proof. unfold open_source. fine. Qed.
Hint Resolve fine_open_source : fine.

Lemma fine_open_for_read b : fine (OpenForRead b).
Proof. unfold OpenForRead. fine. Qed.
Hint Resolve fine_open_for_read : fine.

Lemma fine_disk_call what : throws_fine (disk_call what).
Proof. intros d. unfold disk_call. by destruct (d_oracle d) as [|[] ?]. Qed.
Hint Resolve fine_disk_call : fine.

Lemma fine_open_hint stem : throws_fine (open_hint stem).
Proof.
  intros d. unfold open_hint. destruct (d_reads d) as [|[[]|] ?]; try done; cbn [fst]; destruct (d_hints d !! stem); (apply fine_open_for_read || done).
Qed.
Hint Resolve fine_open_hint : fine.

(** What a sweep of a data file or a scan of a hint ends with. *)
Definition sane (o : option exn) : Prop := match o with Some e => apart e | None => True end.

Lemma fine_read_raw f off len : fine (read_raw f off len).
Proof. unfold read_raw. fine. Qed.
Hint Resolve fine_read_raw : fine.

Lemma fine_buffered f chunk off len it : fine (buffered f chunk off len it).
Proof. unfold buffered. fine. Qed.
Hint Resolve fine_buffered : fine.

Lemma fine_parse_header buf : fine (DataEntry.parse_header_and_verify buf).
Proof. unfold DataEntry.parse_header_and_verify. fine. Qed.
Hint Resolve fine_parse_header : fine.

Lemma fine_record_view raw h verify : fine (record_view raw h verify).
Proof. unfold record_view. fine. Qed.
Hint Resolve fine_record_view : fine.

Lemma fine_iter_advance f od chunk it : fine (iter_advance f od chunk it).
Proof. unfold iter_advance. fine. Qed.

Lemma sweep_sane fuel f od chunk it : sane (sweep fuel f od chunk it).2.
Proof.
  revert it. induction fuel as [|fuel IH]; intros it; cbn [sweep]; [done|]. pose proof (fine_iter_advance f od chunk it) as Hf.
  destruct (iter_advance f od chunk it) as [[[[e off]|] it']|x]; [|done|done]. specialize (IH it'). by destruct (sweep fuel f od chunk it').
Qed.

Lemma committed_units_sane od batch raw err : sane err -> sane (committed_units od batch raw err).2.
Proof.
  intros He. revert batch. induction raw as [|[[e off] n] raw IH]; intros batch; [done|]. cbn [committed_units].
  destruct batch; repeat case_match_eqn; try done; try apply IH; specialize (IH None); by rewrite Heqp in IH.
Qed.

Lemma scan_committed_sane f start od : sane (cs_error (scan_committed f start od)).
Proof.
  unfold scan_committed. pose proof (sweep_sane (S (Z.to_nat (logical_end f))) f od kChunkBytes (iterator_at start)) as Hs.
  fold (sweep_file f start od) in Hs. destruct (sweep_file f start od) as [raw err]. by apply committed_units_sane.
Qed.

Lemma fine_deserialize_hint b : fine (HintEntry.deserialize_entry b).
Proof. unfold HintEntry.deserialize_entry, HintEntry.range_del_trailer, HintEntry.change_marker_trailer. fine. Qed.
Hint Resolve fine_deserialize_hint : fine.

Lemma fine_load_frame src i : fine (load_frame src i).
Proof. unfold load_frame. fine. Qed.
Hint Resolve fine_load_frame : fine.

Lemma fine_find_entry fuel src s : fine (find_entry fuel src s).
Proof. revert s. induction fuel as [|fuel IH]; intros s; cbn [find_entry]; fine. Qed.
Hint Resolve fine_find_entry : fine.

Lemma fine_next src s : fine (HintFile.next src s).
Proof. unfold HintFile.next. fine. Qed.

Lemma scan_entries_sane fuel src s : sane (hs_error (scan_entries fuel src s)).
Proof.
  revert s. induction fuel as [|fuel IH]; intros s; cbn [scan_entries]; [done|]. pose proof (fine_next src s) as Hf.
  destruct (HintFile.next src s) as [[[he s']|]|x]; [|done|done]. cbn. apply IH.
Qed.

Lemma fine_flush_hints_for f : throws_fine (flush_hints_for f None).
Proof.
  unfold flush_hints_for, run_cut. fine. pose proof (scan_committed_sane f 0 DamageThrow) as Hs.
  match goal with H : cs_error _ = Some _ |- _ => by rewrite H in Hs end.
Qed.
Hint Resolve fine_flush_hints_for : fine.

(** ** Results that satisfy [P], or exceptions of that kind *)

Definition good {A} (P : A -> Prop) (r : result A) : Prop := match r with Ok a => P a | Err e => apart e end.
Definition goods {S A} (P : A -> Prop) (m : io S A) : Prop := forall s, good P (m s).1.

Lemma good_bind {A B} (P : A -> Prop) (Q : B -> Prop) (r : result A) f :
  good P r -> (forall a, P a -> good Q (f a)) -> good Q (r ≫= f).
Proof. destruct r; cbn; auto. Qed.

Lemma goods_bind {S A B} (P : A -> Prop) (Q : B -> Prop) (m : io S A) k :
  goods P m -> (forall a, P a -> goods Q (k a)) -> goods Q (m ≫= k).
Proof. intros Hm Hk s. specialize (Hm s). unfold mbind, io_bind. destruct (m s) as [[a|e] s']; [by apply Hk|done]. Qed.

Lemma goods_ret {S A} (P : A -> Prop) (a : A) : P a -> goods P (mret a : io S A).
Proof. by intros Ha s. Qed.

Lemma goods_fine {S A} (m : io S A) : throws_fine m -> goods (fun _ => True) m.
Proof. done. Qed.

(** A scan of a hint that opens. *)
Definition sane_scan (sc : HintScan) : Prop := sane (hs_error sc).

Lemma good_open_for_read b : good sane_scan (OpenForRead b).
Proof.
  unfold OpenForRead. apply (good_bind (fun _ => True)); [apply fine_open_source|]. intros src _. apply scan_entries_sane.
Qed.

Lemma goods_open_hint stem : goods sane_scan (open_hint stem).
Proof.
  intros d. unfold open_hint. destruct (d_reads d) as [|[[]|] ?]; try done; cbn [fst]; destruct (d_hints d !! stem); (apply good_open_for_read || done).
Qed.

Lemma goods_try_catch {S A} (P : A -> Prop) (m : io S A) h :
  goods P m -> (forall e, apart e -> goods P (h e)) -> goods P (try_catch m h).
Proof. intros Hm Hh s. specialize (Hm s). unfold try_catch. destruct (m s) as [[a|e] s']; [done|]. by apply Hh. Qed.

Definition sane_hint (o : option HintScan) : Prop := match o with Some sc => sane_scan sc | None => True end.

Lemma goods_open_hint_or_skip f stem strict : goods sane_hint (open_hint_or_skip f stem strict).
Proof.
  unfold open_hint_or_skip. apply goods_try_catch.
  - apply (goods_bind sane_scan); [|intros sc Hsc; by apply goods_ret]. unfold open_hint_or_rebuild. apply goods_try_catch; [apply goods_open_hint|].
    intros e He. destruct (negb _); [by intros s|]. apply (goods_bind (fun _ => True)); [apply fine_disk_call|]. intros _ _.
    apply (goods_bind (fun _ => True)); [by intros s|]. intros _ _. apply (goods_bind (fun _ => True)); [apply fine_flush_hints_for|]. intros _ _. apply goods_open_hint.
  - intros e He. destruct (strict || negb (is_file_damage e)); by intros s.
Qed.
End hints.

(** ** Cursors *)

Definition sane_cursor (c : Cursor) : Prop := sane (cu_error c).

Section cursors.
Context {S : Type} (nt : Z -> HintEntry.HintEntry -> S -> S) (below_hi : bytes -> bool) (unsorted : string).

Lemma fine_next_data id err es : sane err -> throws_fine (next_data nt id err es).
Proof. intros He. induction es as [|he es IH]; cbn [next_data]; [destruct err; by intros s|]. fine. Qed.

Lemma goods_collapse fuel c cur : sane_cursor c -> goods sane_cursor (collapse nt unsorted fuel c cur).
Proof.
  revert c cur. induction fuel as [|fuel IH]; intros c cur Hc; cbn [collapse]; [by intros s|].
  apply (goods_bind (fun _ => True)); [by apply fine_next_data|]. intros [[he|] es] _; [|by intros s].
  destruct (key_compare _ _); [by apply IH|by intros s..].
Qed.

Lemma goods_load c : sane_cursor c -> goods sane_cursor (load nt below_hi unsorted c).
Proof.
  intros Hc. unfold load. apply (goods_bind (fun _ => True)).
  - destruct (cu_lookahead c); [by intros s|]. apply (goods_bind (fun _ => True)); [by apply fine_next_data|]. intros [o es] _. by intros s.
  - intros [[cur|] es] _; [|by intros s]. destruct (negb _); [by intros s|]. by apply goods_collapse.
Qed.

Lemma goods_load_all cs : Forall sane_cursor cs -> goods (Forall sane_cursor) (load_all nt below_hi unsorted cs).
Proof.
  induction 1 as [|c cs Hc Hcs IH]; cbn [load_all]; [by apply goods_ret; constructor|].
  apply (goods_bind sane_cursor); [by apply goods_load|]. intros c' Hc'. apply (goods_bind (Forall sane_cursor)); [done|].
  intros cs' Hcs'. apply goods_ret. by constructor.
Qed.
End cursors.

(** The cursors a merge pops, and those it leaves. *)
Lemma pop_sane (P : Cursor -> Prop) c heap best rest same rest' :
  Forall P (c :: heap) -> pop_min c heap = (best, rest) -> pop_same (length rest) (cu_key best) rest = (same, rest') ->
  Forall P (best :: same) /\ Forall P rest'.
Proof.
  intros Hc Em Es. apply pop_min_spec in Em as [Hp Hle]. apply pop_same_spec in Es as [Hp' _]; [|lia|done].
  rewrite <-Hp in Hc. apply Forall_cons in Hc as [Hb Hr]. rewrite <-Hp' in Hr. apply Forall_app in Hr as [Hs Hr].
  split; [by constructor|done].
Qed.

Lemma Forall_filter_sub {A} (P Q : A -> Prop) `{!forall x, Decision (Q x)} l : Forall P l -> Forall P (filter Q l).
Proof. rewrite !Forall_forall. intros Hl x [_ Hx]%list_elem_of_filter. auto. Qed.

(** ** The tree loader *)

Lemma fine_record_entry r id : fine (record_entry r id).
Proof.
  unfold record_entry, KeyDirEntry.make, KeyDirEntry.check_sequence, KeyDirEntry.check_file_id, KeyDirEntry.check_file_offset,
    KeyDirEntry.check_value_size. fine.
Qed.

Lemma fine_bulk_append k e out : fine (bulk_append k e out).
Proof. unfold bulk_append. fine. Qed.

Lemma fine_kde_newer a b : fine (kde_newer a b).
Proof.
  unfold kde_newer. destruct (negb _); [done|]. destruct (Z.eqb_spec (KeyDirEntry.file_id a) (KeyDirEntry.file_id b)); [|done].
  cbn [negb]. by destruct (negb _).
Qed.

#[local] Hint Resolve fine_record_entry fine_bulk_append fine_kde_newer : fine.

Lemma fine_merge_key k best same m : fine (merge_key k best same m).
Proof. unfold merge_key. fine. Qed.

Lemma fine_merge_sorted fuel heap m : Forall sane_cursor heap -> throws_fine (merge_sorted fuel heap m).
Proof.
  revert heap m. induction fuel as [|fuel IH]; intros [|c heap] m Hh; cbn [merge_sorted]; try by intros s.
  destruct (pop_min c heap) as [best rest] eqn:Em. destruct (pop_same (length rest) (cu_key best) rest) as [same rest'] eqn:Es.
  destruct (pop_sane _ _ _ _ _ _ _ Hh Em Es) as [Hs Hr]. apply (goods_bind (fun _ => True)).
  { apply fine_lift. destruct (cu_cur best); [apply fine_merge_key|done]. }
  intros m' _. apply (goods_bind (Forall sane_cursor)); [by apply goods_load_all|]. intros loaded Hl. apply IH.
  apply Forall_app. split; [done|]. by apply Forall_filter_sub.
Qed.

Lemma goods_read_head id err es ranges markers : sane err -> goods (fun p => sane_cursor p.2) (read_head id err es ranges markers).
Proof.
  intros He. revert ranges markers. induction es as [|he es IH]; intros ranges markers; cbn [read_head]; [destruct err; by intros s|].
  apply (goods_bind (fun _ => True)); [by intros s|]. intros _ _. destruct (HintEntry.entry_type he); try apply IH; by intros s.
Qed.

Section tree.
Context `{Zstd} `{Crc32c}.

Lemma goods_read_heads strict fs h n :
  Forall sane_cursor (hd_cursors h) -> goods (fun p => Forall sane_cursor (hd_cursors p.1)) (read_heads strict fs h n).
Proof.
  revert h n. induction fs as [|f fs IH]; intros h n Hh; cbn [read_heads]; [by apply goods_ret|].
  apply (goods_bind sane_hint); [apply goods_open_hint_or_skip|]. intros [sc|] Hsc; [|by apply IH].
  pose proof (goods_read_head (rf_file_id f) (hs_error sc) (hs_entries sc).*2 (hd_ranges h) (hd_markers h) Hsc n) as Hg.
  destruct (read_head _ _ _ _ _ n) as [[[[ranges markers] c]|ex] n']; cbn in Hg; [|by intros s].
  apply IH. cbn. apply Forall_app. split; [done|]. by constructor.
Qed.

Lemma fine_build_sorted strict fs : throws_fine (recovery_build_sorted strict fs).
Proof.
  unfold recovery_build_sorted. eapply goods_bind; [by apply goods_read_heads|]. intros [h n] Hh. cbn in Hh.
  assert (Hm : throws_fine (merge_runs h)).
  { unfold merge_runs. apply (goods_bind (Forall sane_cursor)); [by apply goods_load_all|]. intros cs Hcs.
    apply fine_merge_sorted. by apply Forall_filter_sub. }
  specialize (Hm n). destruct (merge_runs h n) as [[m|ex] n']; by intros s.
Qed.

Lemma goods_parallel_for {S A} (P : A -> Prop) (bodies : list (io S A)) :
  Forall (goods P) bodies -> goods (Forall P) (parallel_for bodies).
Proof.
  induction 1 as [|b bs Hb Hbs IH]; cbn [parallel_for]; [by intros s; constructor|]. intros s.
  unfold attempt, lift, mbind, io_bind. specialize (Hb s). destruct (b s) as [r s1]. specialize (IH s1). destruct (parallel_for bs s1) as [rs s2].
  cbn in *. destruct r as [a|e]; [|done]. destruct rs as [l|e]; [|done]. by constructor.
Qed.

Lemma fine_all_ok {A} (rs : list (result A)) : Forall fine rs -> fine (all_ok rs).
Proof. induction 1 as [|r rs Hr Hrs IH]; cbn [all_ok]; [done|]. fine. Qed.

Lemma fine_newest_entry w es : fine (newest_entry w es).
Proof. revert w. induction es as [|e es IH]; intros w; cbn [newest_entry]; fine. Qed.
Hint Resolve fine_newest_entry : fine.

Lemma fine_range_merge fuel rts cursors tombs o : fine (range_merge fuel rts cursors tombs o).
Proof.
  revert cursors tombs o. induction fuel as [|fuel IH]; intros cursors tombs o; cbn [range_merge]; [done|].
  unfold range_key. fine.
Qed.

Lemma fine_load_ranged sample s fs threads strict : throws_fine (recovery_load_ranged sample s fs threads strict).
Proof.
  unfold recovery_load_ranged. destruct fs as [|f0 fs0]; [by intros d|]. generalize (f0 :: fs0). clear f0 fs0. intros fs.
  apply (goods_bind (Forall (fun _ => True))).
  - apply goods_parallel_for, Forall_forall. intros b (w & -> & _)%list_elem_of_fmap. apply fine_build_sorted.
  - intros parts _. apply (goods_bind (fun _ => True)); [|by intros outs _ d]. apply fine_lift, fine_all_ok, Forall_forall.
    intros r (i & -> & _)%list_elem_of_fmap. apply fine_range_merge.
Qed.
End tree.

(** ** The stream loader *)

Section streams.
Context `{Zstd} `{Crc32c}.

Definition sane_run (run : FileRun) : Prop := sane_hint (fr_hint run).

Lemma good_scan_run id err end_ es in_data fence prev run :
  sane err -> sane_run run -> good sane_run (scan_run id err end_ es in_data fence prev run).
Proof.
  intros He. revert in_data fence prev run. induction es as [|[p he] es IH]; intros in_data fence prev run Hr; cbn [scan_run].
  - destruct err; [done|]. by destruct in_data.
  - destruct (HintEntry.entry_type he); try (by apply IH); try (destruct in_data; [done|by apply IH]);
      (case_bool_decide; [by destruct in_data; apply IH|]); destruct (position_ltb p fence); by destruct in_data; apply IH.
Qed.

Lemma goods_scan_files strict fs : goods (Forall (fun p => sane_run p.2)) (scan_files strict fs).
Proof.
  induction fs as [|[i f] fs IH]; cbn [scan_files]; [by intros s; constructor|]. apply (goods_bind sane_run).
  - unfold scan_file. apply (goods_bind sane_hint); [apply goods_open_hint_or_skip|]. intros [sc|] Hsc; [|by intros s].
    intros s. by apply good_scan_run.
  - intros run Hrun. eapply goods_bind; [exact IH|]. intros l Hl. apply goods_ret. by constructor.
Qed.

Lemma file_runs_sane n scanned : Forall (Forall (fun p : nat * FileRun => sane_run p.2)) scanned -> Forall sane_run (file_runs n scanned).
Proof.
  intros Hs. unfold file_runs. apply Forall_fmap, Forall_forall. intros i _. cbn.
  destruct (_ !! i) as [run|] eqn:E; [|done]. cbn. apply elem_of_list_to_map_2 in E. apply list_elem_of_concat in E as (l & Hin & Hl).
  rewrite Forall_forall in Hs. specialize (Hs l Hl). rewrite Forall_forall in Hs. exact (Hs _ Hin).
Qed.

Lemma fine_skip_below lo err es : sane err -> fine (skip_below lo err es).
Proof. intros He. induction es as [|he es IH]; cbn [skip_below]; [by destruct err|]. fine. Qed.

Lemma good_stream_load hi c : sane_cursor c -> good sane_cursor (stream_load hi c).
Proof. intros Hc. unfold stream_load. by apply goods_load. Qed.

Lemma good_stream_load_all hi cs : Forall sane_cursor cs -> good (Forall sane_cursor) (stream_load_all hi cs).
Proof.
  induction 1 as [|c cs Hc Hcs IH]; cbn [stream_load_all]; [by constructor|]. eapply good_bind; [by apply good_stream_load|].
  intros c' Hc'. eapply good_bind; [exact IH|]. intros cs' Hcs'. by constructor.
Qed.

Lemma good_open_cursors lo hi runs : Forall (fun p : Z * FileRun => sane_run p.2) runs -> good (Forall sane_cursor) (open_cursors lo hi runs).
Proof.
  induction 1 as [|[id run] runs Hr Hrs IH]; cbn [open_cursors]; [by constructor|]. unfold sane_run in Hr. cbn in Hr.
  destruct (fr_hint run) as [sc|]; [|done]. apply (good_bind sane_cursor).
  - unfold open_cursor. apply (good_bind (fun _ => True)); [case_bool_decide; [done|by apply fine_skip_below]|].
    intros [la es] _. by apply good_stream_load.
  - intros c Hc. eapply good_bind; [exact IH|]. intros cs Hcs. cbn. destruct (has_cur c); [by constructor|done].
Qed.

Lemma fine_stream_key rts k best same o : fine (stream_key rts k best same o).
Proof.
  assert (Hn : forall w e, fine (stream_newest w e same)).
  { induction same as [|[r f] same IH]; intros w e; cbn [stream_newest]; fine. }
  unfold stream_key, blind_append. fine.
Qed.

Lemma fine_stream_merge fuel hi rts heap o : Forall sane_cursor heap -> fine (stream_merge fuel hi rts heap o).
Proof.
  revert heap o. induction fuel as [|fuel IH]; intros [|c heap] o Hh; cbn [stream_merge]; try done.
  destruct (pop_min c heap) as [best rest] eqn:Em. destruct (pop_same (length rest) (cu_key best) rest) as [same rest'] eqn:Es.
  destruct (pop_sane _ _ _ _ _ _ _ Hh Em Es) as [Hs Hr]. apply (good_bind (fun _ => True)).
  { destruct (cu_cur best); [apply fine_stream_key|done]. }
  intros o' _. apply (good_bind (Forall sane_cursor)); [by apply good_stream_load_all|]. intros loaded Hl. apply IH.
  apply Forall_app. split; [done|]. by apply Forall_filter_sub.
Qed.

Lemma fine_load_streams s fs threads strict : throws_fine (recovery_load_streams s fs threads strict).
Proof.
  unfold recovery_load_streams. destruct fs as [|f0 fs0]; [by intros d|]. generalize (f0 :: fs0). clear f0 fs0. intros fs.
  apply (goods_bind (Forall (Forall (fun p : nat * FileRun => sane_run p.2)))).
  - apply goods_parallel_for, Forall_forall. intros b (w & -> & _)%list_elem_of_fmap. apply goods_scan_files.
  - intros scanned Hsc. apply (goods_bind (fun _ => True)); [|by intros outs _ d]. apply fine_lift, fine_all_ok, Forall_forall.
    intros r (i & -> & _)%list_elem_of_fmap. unfold stream_range. apply (good_bind (Forall sane_cursor)).
    + apply good_open_cursors. apply Forall_forall. intros [id run] Hin. apply elem_of_zip_r in Hin.
      pose proof (file_runs_sane (length fs) scanned Hsc) as Hf. rewrite Forall_forall in Hf. by apply Hf.
    + intros cs Hcs. by apply fine_stream_merge.
Qed.

(** A loader that reports an overlap names two files. *)
Lemma recovery_load_apart blind sample s fs threads strict d a b d' :
  recovery_load blind sample s fs threads strict d = (Err (SequenceOverlap a b), d') -> a <> b.
Proof.
  intros E. assert (Hf : throws_fine (recovery_load blind sample s fs threads strict)).
  { unfold recovery_load. destruct blind; [apply fine_load_streams|apply fine_load_ranged]. }
  specialize (Hf d). by rewrite E in Hf.
Qed.
End streams.
