(* ===== verification/RecoveryLoop.v ===== *)
(** * The recovery loop

    What [recovery_open] guarantees of the directory, whatever calls fail: it
    ends, no committed entry is lost, and bytes other than zeros go from one
    file at most per pass. *)

From S2P Require Import Prelude Frames Codec HintFile KeyDir DataFile DataFileProofs FileScan EngineState Hints Recovery RecoveryOpen OpenProofs OverlapProofs.
Import Serialization Types Stats Dir.

(** ** Files under the same sequences *)

(** Two files whose ranges of sequences meet. *)
Definition meet (r r' : Range) : Prop := ra_min r <= ra_max r' /\ ra_min r' <= ra_max r.

Lemma elem_of_stats_ranges stats r :
  r ∈ stats_ranges stats <-> exists fs, stats !! ra_file_id r = Some fs /\ 0 < min_sequence fs
    /\ ra_min r = min_sequence fs /\ ra_max r = max_sequence fs.
Proof.
  unfold stats_ranges. rewrite list_elem_of_omap. split.
  - intros ([id fs] & Hin & E). apply elem_of_map_to_list in Hin. cbn in E. destruct (Z.ltb_spec 0 (min_sequence fs)); [|done].
    injection E as <-. by exists fs.
  - intros (fs & Hs & Hpos & H1 & H2). exists (ra_file_id r, fs). split; [by apply elem_of_map_to_list|]. cbn.
    rewrite (proj2 (Z.ltb_lt _ _)) by done. destruct r. cbn in *. by subst.
Qed.

Lemma stats_ranges_nodup stats : NoDup (ra_file_id <$> stats_ranges stats).
Proof.
  unfold stats_ranges. pose proof (NoDup_fst_map_to_list stats) as Hnd. revert Hnd. induction (map_to_list stats) as [|[id fs] l IH]; intros Hnd; [constructor|].
  cbn [fmap list_fmap fst] in Hnd. apply NoDup_cons in Hnd as [Hid Hnd]. cbn [omap list_omap]. destruct (0 <? _); [|by apply IH].
  cbn [fmap list_fmap ra_file_id]. constructor; [|by apply IH]. intros Hin. apply Hid. apply list_elem_of_fmap in Hin as (r & Er & Hr). cbn in Er. subst id.
  apply list_elem_of_omap in Hr as ([id' fs'] & Hin & E). cbn in E. destruct (0 <? _); [|done]. injection E as <-. cbn.
  apply list_elem_of_fmap. by exists (id', fs').
Qed.

(** The scan of sorted ranges finds two that meet, or none do. *)
Lemma first_overlap_spec rs : StronglySorted range_le rs -> Forall (fun r => ra_min r <= ra_max r) rs ->
  forall prev, (forall p, prev = Some p -> ra_min p <= ra_max p /\ Forall (range_le p) rs) ->
  match first_overlap prev rs with
  | Some (a, b) => exists pre r r' post, option_list prev ++ rs = pre ++ r :: r' :: post /\ ra_file_id r = a /\ ra_file_id r' = b /\ meet r r'
  | None => StronglySorted (fun r r' => ra_max r < ra_min r') (option_list prev ++ rs)
  end.
Proof.
  induction 1 as [|r rs Hs IH Hr]; intros Hw prev Hp; cbn [first_overlap].
  { destruct prev; repeat constructor. }
  apply Forall_cons in Hw as [Hrw Hw]. specialize (IH Hw (Some r)). change (option_list (Some r) ++ rs) with (r :: rs) in IH.
  assert (Hr' : forall p, Some r = Some p -> ra_min p <= ra_max p /\ Forall (range_le p) rs) by (by intros p [= <-]). specialize (IH Hr').
  destruct prev as [p|]; [|exact IH]. destruct (Hp p eq_refl) as [Hpw Hpr]. apply Forall_cons in Hpr as [Hpr Hprs].
  change (option_list (Some p) ++ r :: rs) with (p :: r :: rs). destruct (Z.leb_spec (ra_min r) (ra_max p)) as [Hle|Hgt].
  { exists [], p, r, rs. split_and!; [done..|]. unfold meet, range_le in *. lia. }
  destruct (first_overlap (Some r) rs) as [[a b]|].
  - destruct IH as (pre & x & x' & post & E & Ha & Hb & Hm). exists (p :: pre), x, x', post. split; [|done]. exact (f_equal (cons p) E).
  - constructor; [done|]. constructor; [done|]. eapply Forall_impl; [exact Hr|]. unfold range_le. cbn. intros; lia.
Qed.

#[local] Instance range_le_total : Total range_le.
Proof. intros a b. unfold range_le. lia. Qed.
#[local] Instance range_le_trans : Transitive range_le.
Proof. intros a b c. unfold range_le. lia. Qed.

Definition ranges_ok (stats : gmap Z FileStats) : Prop :=
  forall id fs, stats !! id = Some fs -> 0 < min_sequence fs -> min_sequence fs <= max_sequence fs.

Lemma find_overlap_spec s : ranges_ok (file_stats s) ->
  match find_sequence_overlap s with
  | Some (a, b) => a <> b /\ exists fa fb, file_stats s !! a = Some fa /\ file_stats s !! b = Some fb /\ 0 < min_sequence fa /\ 0 < min_sequence fb
      /\ min_sequence fa <= max_sequence fb /\ min_sequence fb <= max_sequence fa
  | None => forall a b fa fb, a <> b -> file_stats s !! a = Some fa -> file_stats s !! b = Some fb -> 0 < min_sequence fa -> 0 < min_sequence fb ->
      max_sequence fa < min_sequence fb \/ max_sequence fb < min_sequence fa
  end.
Proof.
  intros Hok. unfold find_sequence_overlap. set (l := merge_sort _ _).
  assert (Hp : l ≡ₚ stats_ranges (file_stats s)) by apply merge_sort_Permutation.
  assert (Hin : forall r, r ∈ l <-> r ∈ stats_ranges (file_stats s)) by (intros r; by rewrite Hp).
  assert (Hw : Forall (fun r => ra_min r <= ra_max r) l).
  { apply Forall_forall. intros r (fs & Hs & Hpos & -> & ->)%Hin%elem_of_stats_ranges. by apply (Hok (ra_file_id r)). }
  assert (Hnd : NoDup (ra_file_id <$> l)) by (rewrite Hp; apply stats_ranges_nodup).
  pose proof (first_overlap_spec l (StronglySorted_merge_sort range_le _) Hw None ltac:(done)) as Hf. change (option_list None ++ l) with l in Hf.
  destruct (first_overlap None l) as [[a b]|].
  - destruct Hf as (pre & r & r' & post & E & <- & <- & Hm). rewrite E in Hnd, Hin. split.
    + rewrite fmap_app in Hnd. apply NoDup_app in Hnd as (_ & _ & Hnd). cbn in Hnd. apply NoDup_cons in Hnd as [Hnin _]. intros Eq. apply Hnin. rewrite Eq. by left.
    + destruct (proj1 (elem_of_stats_ranges (file_stats s) r)) as (fa & Ha & Hpa & Ea & Ea'); [apply Hin, elem_of_app; right; by left|].
      destruct (proj1 (elem_of_stats_ranges (file_stats s) r')) as (fb & Hb & Hpb & Eb & Eb'); [apply Hin, elem_of_app; right; right; by left|].
      exists fa, fb. unfold meet in Hm. rewrite <-Ea, <-Ea', <-Eb, <-Eb'. naive_solver lia.
  - intros a b fa fb Hne Ha Hb Hpa Hpb.
    assert (Hra : mkRange (min_sequence fa) (max_sequence fa) a ∈ l) by (apply Hin, elem_of_stats_ranges; by exists fa).
    assert (Hrb : mkRange (min_sequence fb) (max_sequence fb) b ∈ l) by (apply Hin, elem_of_stats_ranges; by exists fb).
    clear -Hf Hra Hrb Hne. induction Hf as [|r l Hf IH Hr]; [by apply elem_of_nil in Hra|].
    rewrite Forall_forall in Hr. apply elem_of_cons in Hra as [Ea|Hra], Hrb as [Eb|Hrb].
    + congruence.
    + left. specialize (Hr _ Hrb). by rewrite <-Ea in Hr.
    + right. specialize (Hr _ Hra). by rewrite <-Eb in Hr.
    + by apply IH.
Qed.

Lemma find_overlap_apart s a b : find_sequence_overlap s = Some (a, b) -> a <> b.
Proof.
  unfold find_sequence_overlap. assert (Hnd : NoDup (ra_file_id <$> merge_sort range_le (stats_ranges (file_stats s))))
    by (rewrite merge_sort_Permutation; apply stats_ranges_nodup).
  revert Hnd. generalize (merge_sort range_le (stats_ranges (file_stats s))) as l. intros l.
  assert (Hgen : forall prev, (forall p, prev = Some p -> ra_file_id p ∉ ra_file_id <$> l) -> NoDup (ra_file_id <$> l) ->
    first_overlap prev l = Some (a, b) -> a <> b); [|intros Hnd; by apply (Hgen None)].
  induction l as [|r l IH]; intros prev Hp Hnd; [done|]. cbn [fmap list_fmap] in Hnd. apply NoDup_cons in Hnd as [Hr Hnd].
  cbn [first_overlap]. assert (Hn : first_overlap (Some r) l = Some (a, b) -> a <> b) by (apply IH; [by intros p [= <-]|done]).
  destruct prev as [p|]; [|done]. destruct (_ <=? _); [|done]. intros [= <- <-] E. apply (Hp p eq_refl). rewrite E. by left.
Qed.

(** ** The prepared files *)

Section loop.
Context `{ZstdLaws} `{Crc32cLaws}.

Lemma prepare_file_ok paths p id d f d' :
  prepare_file paths p id d = (Ok f, d') -> rf_file_id f = id /\ path (rf_data_file f) = p /\ rf_hint_path f = p.
Proof.
  unfold prepare_file. intros (hl & d1 & _ & E)%io_bind_ok. apply io_bind_ok in E as (? & d2 & _ & E).
  apply io_bind_ok in E as (f0 & d3 & (g & _ & ->)%open_data_ok & E). apply io_bind_ok in E as (f1 & d4 & E1 & E).
  apply io_bind_ok in E as (n & d5 & _ & [= <- <-]). cbn. split; [done|]. split; [|done]. destruct hl; [|by injection E1 as <- <-].
  apply io_bind_ok in E1 as (? & d6 & _ & E1). destruct (_ <? _); [|by injection E1 as <- <-]. by apply open_data_ok in E1 as (g' & _ & ->).
Qed.

Lemma prepare_loop_ok paths todo id d fs d' :
  prepare_loop paths todo id d = (Ok fs, d') ->
  (fun f => path (rf_data_file f)) <$> fs = todo /\ rf_file_id <$> fs = seqZ id (Z.of_nat (length todo)) /\ rf_hint_path <$> fs = todo.
Proof.
  revert id d fs. induction todo as [|p todo IH]; intros id d fs; cbn [prepare_loop]; [by intros [= <- <-]|].
  intros (f & d1 & (Ei & Ep & Eh)%prepare_file_ok & E)%io_bind_ok. apply io_bind_ok in E as (fs' & d2 & E & [= <- <-]).
  destruct (IH _ _ _ E) as (E1 & E2 & E3). cbn [fmap list_fmap length]. rewrite E1, E2, E3, Ei, Ep, Eh. split_and!; [done| |done].
  by rewrite Nat2Z.inj_succ, (seqZ_cons id), Z.pred_succ by lia.
Qed.

Lemma path_of_ok fs id p : path_of fs id = Ok p -> exists f, f ∈ fs /\ rf_file_id f = id /\ path (rf_data_file f) = p.
Proof.
  unfold path_of. destruct (list_find _ fs) as [[i f]|] eqn:E; [|done]. intros [= <-]. apply list_find_Some in E as (Hl & Hid & _).
  exists f. split; [by eapply list_elem_of_lookup_2|done].
Qed.

Lemma recovery_prepare_files_ok s d s' fs d' :
  recovery_prepare_files s d = (Ok (s', fs), d') ->
  s' = with_files s fs /\ NoDup ((fun f => path (rf_data_file f)) <$> fs) /\ NoDup (rf_file_id <$> fs).
Proof.
  unfold recovery_prepare_files, gets. intros (? & d1 & _ & E)%io_bind_ok. apply io_bind_ok in E as (paths & d2 & [= <- <-] & E).
  apply io_bind_ok in E as (? & d3 & _ & E). apply io_bind_ok in E as (? & d4 & _ & E).
  apply io_bind_ok in E as (fs' & d5 & (E1 & E2 & _)%prepare_loop_ok & [= <- -> <-]). rewrite E1, E2.
  split_and!; [done|apply data_paths_nodup|apply NoDup_seqZ].
Qed.

(** Two files that a pass reports are different. *)
Lemma recovery_pass_apart blind sample threads strict d a b d' :
  recovery_pass blind sample threads strict d = (Ok (inr (a, b)), d') -> a <> b.
Proof.
  unfold recovery_pass. intros ([s fs] & d1 & (-> & Hp & _)%recovery_prepare_files_ok & E)%io_bind_ok.
  apply io_bind_ok in E as (loaded & d2 & El & E). apply io_bind_ok in E as ([done_|[i j]] & d3 & Eo & E); [done|].
  apply io_bind_ok in E as (pa & d4 & [Ea ->]%lift_ok & E). apply io_bind_ok in E as (pb & d5 & [Eb ->]%lift_ok & [= -> -> <-]).
  assert (Hij : i <> j).
  { unfold attempt in El. destruct (recovery_load _ _ _ _ _ _ d1) as [r d2'] eqn:Er. injection El as <- <-. destruct r as [[s' nt]|[]]; try done.
    - destruct (find_sequence_overlap s') as [ab|] eqn:Ef; [|done]. injection Eo as -> <-. by apply find_overlap_apart in Ef.
    - injection Eo as -> -> <-. by apply recovery_load_apart in Er. }
  apply path_of_ok in Ea as (f & Hf & <- & <-). apply path_of_ok in Eb as (g & Hg & <- & <-). intros Eq. apply Hij.
  apply list_elem_of_lookup in Hf as [m Hm], Hg as [n Hn].
  assert (m = n) as ->; [|congruence]. eapply NoDup_lookup; [exact Hp|rewrite list_lookup_fmap, Hm; done|rewrite list_lookup_fmap, Hn; cbn; by rewrite <-Eq].
Qed.

(** ** The loop *)

(** An entry some data file holds as committed. *)
Definition holds (d : Disk) (e : DataEntry) : Prop := exists q l, log_of d !! q = Some l /\ e ∈ l.*1.

Lemma holds_same d d' : same_log d d' -> forall e, holds d e <-> holds d' e.
Proof. intros E e. unfold holds. unfold same_log in E. by rewrite E. Qed.

Lemma holds_removed copy source d d' : copy <> source -> removed copy source d d' -> forall e, holds d e <-> holds d' e.
Proof.
  intros Hne [Ec (c & s & Hc & Hs & Hsub)] e. unfold holds, log_of. rewrite Ec, fmap_delete. split.
  - intros (q & l & Hq & He). destruct (decide (q = copy)) as [->|Hqc]; [|exists q, l; by rewrite lookup_delete_ne].
    exists source, (committed s). rewrite lookup_delete_ne, lookup_fmap, Hs by done. split; [done|]. apply Hsub.
    rewrite lookup_fmap, Hc in Hq. by injection Hq as <-.
  - intros (q & l & Hq & He). exists q, l. split; [|done]. by apply lookup_delete_Some in Hq as [_ Hq].
Qed.

Section passes.
Context (blind : bool) (sample : list (bytes * KeyDirEntry) -> nat -> list bytes) (threads : nat) (strict : bool).

(** One turn of the loop, as a relation. *)
Lemma recovery_open_step fuel d r d' :
  recovery_open blind sample threads strict (S fuel) d = (r, d') ->
  (r <> Ok None /\ same_log d d')
  \/ exists a b d1 d2, a <> b /\ same_log d d1 /\ recovery_pass blind sample threads strict d = (Ok (inr (a, b)), d1)
       /\ ((exists ex, recovery_undo_interrupted_vacuum a b d1 = (Err ex, d') /\ r = Err ex)
           \/ recovery_undo_interrupted_vacuum a b d1 = (Ok (), d2) /\ recovery_open blind sample threads strict fuel d2 = (r, d')).
Proof.
  cbn [recovery_open]. intros E. unfold mbind, io_bind in E. pose proof (recovery_pass_log blind sample threads strict d) as Hl.
  destruct (recovery_pass blind sample threads strict d) as [[[done_|[a b]]|ex] d1] eqn:Ep; cbn [snd] in Hl;
    [left; by injection E as <- <-| |left; by injection E as <- <-].
  right. exists a, b, d1. apply recovery_pass_apart in Ep as Hab.
  destruct (recovery_undo_interrupted_vacuum a b d1) as [[[]|ex] d2] eqn:Eu; exists d2; split_and!; try done; [by right|].
  left. injection E as <- <-. by exists ex.
Qed.

Lemma undo_holds a b d r d' :
  a <> b -> recovery_undo_interrupted_vacuum a b d = (r, d') ->
  (forall e, holds d e <-> holds d' e) /\ (r = Ok () -> (base.size (dom (d_data d')) < base.size (dom (d_data d)))%nat).
Proof.
  intros Hab E. apply undo_run in E as [[Hr E]|(copy & source & Hor & Hrem)].
  { split; [|done]. apply holds_same. by apply same_contents_log. }
  split; [apply (holds_removed copy source); [naive_solver|done]|]. intros _. destruct Hrem as [E (c & s & Hc & _)].
  assert (Hd : dom (d_data d') = dom (d_data d) ∖ {[copy]}).
  { rewrite <-(dom_fmap_L content (d_data d')), E, dom_delete_L. by rewrite dom_fmap_L. }
  rewrite Hd. apply subset_size, subset_difference_elem_of. rewrite <-(dom_fmap_L content (d_data d)). by apply elem_of_dom_2 in Hc.
Qed.

Lemma same_log_dom d d' : same_log d d' -> dom (d_data d') = dom (d_data d).
Proof. intros E. assert (Hd : dom (log_of d') = dom (log_of d)) by (by rewrite E). unfold log_of in Hd. by rewrite !dom_fmap_L in Hd. Qed.

(** ** Properties *)

(** C32: recovery ends.  Each pass of the loop of [recovery_open] returns,
    throws, or removes one data file and goes on, so one pass more than there
    are data files is enough: the loop has then returned or thrown, and more
    passes would change nothing. *)
Theorem recovery_open_terminates d n :
  (recovery_open blind sample threads strict (S (base.size (dom (d_data d)))) d).1 <> Ok None
  /\ recovery_open blind sample threads strict (S (base.size (dom (d_data d))) + n) d
     = recovery_open blind sample threads strict (S (base.size (dom (d_data d)))) d.
Proof.
  remember (base.size (dom (d_data d))) as m eqn:Em. assert (Hm : (base.size (dom (d_data d)) <= m)%nat) by lia. clear Em.
  revert d Hm. induction m as [m IH] using lt_wf_ind. intros d Hm. cbn [Nat.add recovery_open]. unfold mbind, io_bind.
  pose proof (recovery_pass_log blind sample threads strict d) as Hl.
  destruct (recovery_pass blind sample threads strict d) as [[[done_|[a b]]|ex] d1] eqn:Ep; cbn [snd] in Hl; [done| |done].
  apply same_log_dom in Hl. apply recovery_pass_apart in Ep.
  destruct (recovery_undo_interrupted_vacuum a b d1) as [[[]|ex] d2] eqn:Eu; [|done].
  apply undo_holds in Eu as [_ Hlt]; [|done]. specialize (Hlt eq_refl). rewrite Hl in Hlt.
  destruct m as [|m]; [lia|]. apply (IH m); lia.
Qed.

(** C33: recovery loses no committed entry.  Whatever system calls fail and
    however [recovery_open] ends, an entry is committed in some data file
    afterwards exactly when it was before: cutting a torn tail keeps the
    committed records below it, and a file is removed only when another holds
    every entry of it. *)
Theorem recovery_open_keeps_entries fuel d e :
  holds d e <-> holds (recovery_open blind sample threads strict fuel d).2 e.
Proof.
  revert d. induction fuel as [|fuel IH]; intros d; [done|].
  destruct (recovery_open blind sample threads strict (S fuel) d) as [r d'] eqn:E. cbn [snd].
  destruct (recovery_open_step fuel d r d' E) as [[_ Hs]|(a & b & d1 & d2 & Hab & Hs & _ & [(ex & Eu & _)|[Eu Er]])].
  - by apply holds_same.
  - rewrite (holds_same d d1) by done. by apply (undo_holds a b d1 (Err ex) d').
  - rewrite (holds_same d d1) by done. rewrite (proj1 (undo_holds a b d1 (Ok ()) d2 Hab Eu) e). specialize (IH d2). by rewrite Er in IH.
Qed.
End passes.

(** C34: one torn file.  Preparing the files of a directory cuts bytes other
    than zeros off at most one of them, whatever system calls fail: a crash
    tears only the file being written, and when a second file holds data past
    its committed records [recovery_check_tail] refuses before anything is
    cut. *)
Theorem recovery_prepare_tears_one s d p q :
  ~ (p <> q /\ lost d (recovery_prepare_files s d).2 p /\ lost d (recovery_prepare_files s d).2 q).
Proof.
  intros (Hne & Hp & Hq). destruct (recovery_prepare_files_run s d) as (paths & d1 & Hnd & [Ec _] & [E|E]); rewrite E in *.
  - by apply (lost_same d d1 p) in Hp; [|rewrite Ec].
  - apply Hne. apply (prepare_loop_tears_one paths paths (next_file_id s) d1 p q Hnd); [done|..].
    + destruct Hp as (c & c' & Hc & Hc' & Hz). exists c, c'. by rewrite Ec.
    + destruct Hq as (c & c' & Hc & Hc' & Hz). exists c, c'. by rewrite Ec.
Qed.
End loop.
