(* ===== verification/CrashRecovery.v ===== *)
(** * Recovery after a crash

    The whole of [recovery_open] on a directory a crash left, with no system
    call failing: every missing hint is written, the torn tail is cut, one pass
    is enough, and the state it returns restores the committed entries of the
    data files. *)

From S2P Require Import Prelude Frames Codec HintFile KeyDir DataFile DataFileProofs FileScan EngineState EngineProofs Hints Recovery RecoveryOpen Merging BuildProofs RangedProofs RecoverySpec RangedLoader StreamProofs LogRecovery OpenProofs OverlapProofs RecoveryLoop.
Import Serialization Types Stats Dir.

(** ** Calls that do not fail *)

Lemma disk_call_done what d : d_oracle d = [] -> disk_call what d = (Ok (), d).
Proof. intros E. unfold disk_call. by rewrite E. Qed.

Lemma pwrite_done what off data s :
  fio_oracle s = [] -> pwrite what off data s = (Ok (), mkFileIO (write_at off data (fio_file s)) []).
Proof. intros E. unfold pwrite, next_outcome, update_file, modify, mbind, io_bind. by rewrite E, ?E. Qed.

Lemma read_call_done what s : fio_oracle s = [] -> read_call what s = (Ok (), s).
Proof. intros E. unfold read_call, next_outcome, mbind, io_bind. by rewrite E. Qed.

Lemma rewrite_loop_done fuel off e s : fio_oracle s = [] -> exists s', rewrite_loop fuel off e s = (Ok (), s') /\ fio_oracle s' = [].
Proof.
  revert off s. induction fuel as [|fuel IH]; intros off s E; cbn [rewrite_loop]; [by exists s|].
  destruct (off <? e); [|by exists s]. unfold gets, mbind, io_bind. rewrite read_call_done, pwrite_done by done. by apply IH.
Qed.

Lemma rewrite_durably_done e s : fio_oracle s = [] ->
  exists s', rewrite_durably e s = (Ok (), s') /\ fio_oracle s' = [] /\ content (fio_file s') = content (fio_file s).
Proof.
  intros E. assert (Hs : exists s', rewrite_durably e s = (Ok (), s') /\ fio_oracle s' = []).
  { unfold rewrite_durably, gets, mbind, io_bind. destruct (rewrite_loop_done (Z.to_nat (Z.min e (size (content (fio_file s))) / kRewriteChunk + 1)) 0
      (Z.min e (size (content (fio_file s)))) s E) as (s1 & -> & E1). unfold next_outcome, update_file, modify. rewrite E1. by eexists. }
  destruct Hs as (s' & Er & E'). exists s'. split_and!; [done..|]. by eapply rewrite_durably_content.
Qed.

Lemma truncate_durably_done n s : fio_oracle s = [] ->
  exists s', truncate_durably n s = (Ok (), s') /\ fio_oracle s' = [] /\ content (fio_file s') = take (Z.to_nat n) (content (fio_file s)).
Proof.
  destruct s as [f os]. cbn. intros ->. unfold truncate_durably, ftruncate, fdatasync_to, next_outcome, update_file, modify, mbind, io_bind.
  cbn [fio_oracle fio_file]. eexists. split; [reflexivity|]. cbn. split; [done|]. unfold sync_to. cbn. by destruct (sync_failed f).
Qed.

Lemma on_data_done {A} p (m : io FileIO A) d f (P : DataFile -> Prop) a :
  d_oracle d = [] -> d_data d !! p = Some f ->
  (exists s, m (mkFileIO f []) = (Ok a, s) /\ fio_oracle s = [] /\ P (fio_file s)) ->
  exists f', on_data p m d = (Ok a, set_data (<[p := f']> (d_data d)) d) /\ P f'.
Proof.
  intros Ho Hf (s & Em & Eo & HP). exists (fio_file s). split; [|done]. unfold on_data, mbind, io_bind. rewrite disk_call_done by done.
  unfold run_on_data. rewrite Hf, Ho, Em, Eo. destruct d; cbn in *. by subst.
Qed.

Lemma open_data_done p d f : d_oracle d = [] -> d_data d !! p = Some f -> open_data p d = (Ok (read_object p f), d).
Proof. intros Ho Hf. unfold open_data, gets, lift, mbind, io_bind. rewrite disk_call_done by done. by rewrite Hf. Qed.

Lemma disk_file_size_done p d f : d_data d !! p = Some f -> disk_file_size p d = (Ok (size (content f)), d).
Proof. intros Hf. unfold disk_file_size, gets, lift, mbind, io_bind. by rewrite Hf. Qed.

Section crash.
Context `{ZstdLaws} `{Crc32cLaws}.

Lemma check_other_done seq q d : d_oracle d = [] -> lets_cut seq d q -> check_other seq q d = (Ok (), d).
Proof.
  intros Ho (g & Hg & Hor & Hs). unfold check_other. unfold mbind at 1, io_bind at 1. rewrite (open_data_done q d g) by done.
  unfold mbind at 1, io_bind at 1, lift at 1.
  assert (El : (if seq =? 0 then Ok false else q0 ← first_sequence (read_object q g); Ok (seq <? q0)) = Ok false).
  { destruct (Z.eqb_spec seq 0) as [|Hne]; [done|]. destruct (Hs Hne) as (n & -> & Hle). monad_simpl. f_equal. by apply Z.ltb_ge. }
  rewrite El. unfold mbind, io_bind, lift, gets. cbn [throw_if]. case_bool_decide as Hh; [done|].
  rewrite scan_read_object. fold (committed_end (content g)). rewrite tail_is_zero_torn.
  destruct Hor as [?|Ht]; [done|]. rewrite Ht.
  destruct (scan_committed_parses (read_object q g) (read_object_ok _ _)) as (us & rest & _ & _ & _ & He & _). rewrite scan_read_object in He. by rewrite He.
Qed.

Lemma recovery_check_tail_done p f paths d :
  d_oracle d = [] ->
  (torn (content f) = true -> exists seq, first_sequence (read_object p f) = Ok seq /\ forall q, q ∈ paths -> q <> p -> lets_cut seq d q) ->
  recovery_check_tail (read_object p f) (committed_end (content f)) paths d = (Ok (), d).
Proof.
  intros Ho Ht. unfold recovery_check_tail, lift. unfold mbind at 1, io_bind at 1. rewrite tail_is_zero_torn. destruct (torn (content f)); [|done].
  destruct (Ht eq_refl) as (seq & Es & Hall). cbn [negb]. unfold mbind at 1, io_bind at 1. rewrite Es. clear Ht. cbn [path read_object].
  induction paths as [|q paths IH]; [done|]. unfold for_each. cbn [foldr]. unfold mbind at 1, io_bind at 1.
  assert (E1 : (if bool_decide (q = p) then mret () else check_other seq q) d = (Ok (), d)).
  { case_bool_decide; [done|]. apply check_other_done; [done|]. apply Hall; [by left|done]. }
  rewrite E1. apply IH. intros x Hx. apply Hall. by right.
Qed.

Lemma cut_tail_done p f paths d :
  d_oracle d = [] -> d_data d !! p = Some f ->
  (torn (content f) = true -> exists seq, first_sequence (read_object p f) = Ok seq /\ forall q, q ∈ paths -> q <> p -> lets_cut seq d q) ->
  exists f', cut_tail paths (read_object p f) (committed_end (content f)) d = (Ok (), set_data (<[p := f']> (d_data d)) d)
    /\ content f' = take (Z.to_nat (committed_end (content f))) (content f).
Proof.
  intros Ho Hf Ht. unfold cut_tail, mbind, io_bind. rewrite recovery_check_tail_done by done. unfold when, df_size. cbn [logical_end read_object path].
  destruct (Z.ltb_spec (committed_end (content f)) (size (content f))) as [Hlt|Hge].
  - apply (on_data_done p _ d f (fun f' => content f' = take (Z.to_nat (committed_end (content f))) (content f))); [done..|].
    destruct (truncate_durably_done (committed_end (content f)) (mkFileIO f [])) as (s & E & Eo & Ec); [done|]. by exists s.
  - exists f. rewrite insert_id by done. split; [by destruct d|]. rewrite take_ge; [done|]. unfold size in Hge. lia.
Qed.

(** A hint written around a cut that succeeds. *)
Lemma flush_hints_for_done f c d d2 :
  let ces := cs_entries (scan_committed f 0 DamageStop) in
  d_oracle d = [] -> d_hints d !! path f = None -> Forall hintable ces -> key_bytes ces < 2 ^ 32 ->
  cs_error (scan_committed f 0 DamageStop) = None ->
  c (cs_offset (scan_committed f 0 DamageStop)) (set_tmp ({[path f]} ∪ d_tmp d) d) = (Ok (), d2) -> d_oracle d2 = [] ->
  exists b tmp, hint_lists ces b
    /\ flush_hints_for f (Some c) d = (Ok (), set_hints (<[path f := b]> (d_hints d2)) (set_tmp tmp d2)).
Proof.
  intros ces Ho Hno Hh Hk He Hc Ho2. destruct (hint_bytes ces Hh Hk) as (w & w' & b & E1 & E2 & E3 & Hl).
  exists b, (d_tmp d2 ∖ {[path f]}). split; [done|].
  unfold flush_hints_for, gets, modify, lift, throw, mbind, io_bind, mret, io_ret. rewrite Hno, bool_decide_eq_false_2 by apply is_Some_None.
  rewrite disk_call_done by done. fold ces. rewrite E1, He, disk_call_done by done. unfold run_cut, try_catch. rewrite Hc, E2, E3.
  rewrite !disk_call_done by done. done.
Qed.

(** ** The directory *)

(** What the engine writes: units of entries a hint can list. *)
Record log_ok (us : list (list DataEntry)) : Prop := {
  lo_units : Forall unit_of us;
  lo_sweep : Forall sweepable (concat us);
  lo_hintable : Forall hintable (with_offsets 0 (concat us));
  lo_keys : key_bytes (with_offsets 0 (concat us)) < 2 ^ 32
}.

(** The first sequence of a log. *)
Definition starts (us : list (list DataEntry)) : Z := match concat us with [] => 0 | e :: _ => de_sequence e end.

Lemma fst_with_offsets off es : (with_offsets off es).*1 = es.
Proof.
  unfold with_offsets. apply fst_zip. revert off. induction es as [|e es IH]; intros off; cbn; [lia|]. specialize (IH (off + DataEntry.record_bytes e)). lia.
Qed.

Lemma committed_parses c : exists es rest, c = images es ++ rest /\ committed c = with_offsets 0 es /\ committed_end c = DataFile.total_bytes es
  /\ Forall sweepable es.
Proof.
  set (f := mkDataFile "" c 0 0 0 0 false). destruct (scan_committed_parses (read_object "" f) (read_object_ok _ _)) as (us & rest & Hl & _ & Hsw & _ & Hs).
  exists (concat us), rest. rewrite live_read_object in Hl. destruct (Hs DamageStop) as [He Ho]. rewrite scan_read_object in He, Ho. done.
Qed.

Lemma committed_log c us : committed c = with_offsets 0 (concat us) ->
  exists rest, c = images (concat us) ++ rest /\ take (Z.to_nat (committed_end c)) c = images (concat us).
Proof.
  intros E. destruct (committed_parses c) as (es & rest & Ec & Ecc & Ee & _). exists rest.
  assert (es = concat us) as ->. { rewrite <-(fst_with_offsets 0 es), <-(fst_with_offsets 0 (concat us)). congruence. }
  split; [done|]. rewrite Ee, Ec, <-length_images. unfold size. by rewrite Nat2Z.id, take_app_length.
Qed.

(** [first_sequence] of a file that is not torn is that of its log. *)
Lemma first_sequence_log stem f us :
  log_ok us -> committed (content f) = with_offsets 0 (concat us) -> torn (content f) = false ->
  first_sequence (read_object stem f) = Ok (starts us).
Proof.
  intros [_ Hsw _ _] Hc Ht. destruct (committed_log _ _ Hc) as (rest & Ec & Ecut). unfold torn in Ht. apply negb_false_iff in Ht.
  unfold first_sequence. destruct (read_raw_live (read_object stem f) 0 (Z.of_nat DataEntry.kHeaderSize) (read_object_ok _ _)) as (n & -> & Hn & Hmin);
    [cbn; unfold size; lia|lia|]. rewrite live_read_object in *. monad_simpl. rewrite Hn. cbn [logical_end read_object] in Hmin. unfold starts.
  destruct (concat us) as [|e es] eqn:Eus.
  - assert (Hz : forallb is_zero (content f) = true).
    { destruct (committed_parses (content f)) as (es' & rest' & _ & Ecc & Ee & _). rewrite Hc in Ecc.
      assert (es' = []) as -> by (rewrite <-(fst_with_offsets 0 es'), <-Ecc; done). rewrite Ee in Ht. exact Ht. }
    destruct (Z.ltb_spec n (Z.of_nat DataEntry.kHeaderSize)) as [|Hge]; [done|].
    assert (Ehdr : subspan (content f) (Z.to_nat 0) (Z.to_nat n) = replicate DataEntry.kHeaderSize x00).
    { unfold subspan. rewrite drop_0. replace (Z.to_nat n) with DataEntry.kHeaderSize by lia.
      assert (Hlen : (DataEntry.kHeaderSize <= length (content f))%nat) by (unfold size in *; lia).
      clear -Hz Hlen. revert Hlen. generalize DataEntry.kHeaderSize as m. intros m. revert Hz. generalize (content f) as c. clear.
      induction m as [|m IH]; intros [|x c] Hz Hlen; cbn in *; try done; try lia. apply andb_true_iff in Hz as [Hx Hz].
      apply bool_decide_eq_true in Hx as ->. f_equal. apply IH; [done|lia]. }
    rewrite Ehdr. assert (Eseq : DataEntry.sequence (DataEntry.read_header (replicate DataEntry.kHeaderSize x00)) = 0) by (by vm_compute).
    rewrite Eseq. destruct (negb _); [|done]. rewrite tail_is_zero_spec by (apply read_object_ok || (unfold kEntryTypeOffset; lia)).
    by case_match.
  - apply Forall_cons in Hsw as [[Hv Hs0] _]. rewrite Ec, images_cons, <-app_assoc in *.
    assert (Hlen : 19 <= size (image e ++ images es ++ rest)).
    { rewrite size_app, length_image. pose proof (record_bytes_pos e). unfold size. lia. }
    assert (Hn15 : n = Z.of_nat DataEntry.kHeaderSize) by (rewrite Hmin; unfold DataEntry.kHeaderSize in *; lia).
    rewrite Hn15, Z.ltb_irrefl. unfold subspan. rewrite drop_0, Nat2Z.id. destruct (image_header e (images es ++ rest) Hv) as [-> ->].
    cbn [header_of DataEntry.entry_type DataEntry.sequence]. by rewrite (DataEntry.ve_type _ Hv).
Qed.

(** A sealed file: nothing past its log. *)
Lemma committed_images us : log_ok us ->
  committed (images (concat us)) = with_offsets 0 (concat us) /\ torn (images (concat us)) = false
  /\ forall stem f, content f = images (concat us) -> holds_units (read_object stem f) us.
Proof.
  intros [Hu Hs Hh Hk]. assert (Hhold : forall stem f, content f = images (concat us) -> holds_units (read_object stem f) us).
  { intros stem f Ec. split; [apply read_object_ok| |done|done|done]. exists [], []. rewrite live_read_object, Ec, !app_nil_r.
    split_and!; [done|constructor|done|done|done]. }
  set (f := mkDataFile "" (images (concat us)) 0 0 0 0 false). destruct (holds_units_scan _ _ DamageStop (Hhold "" f eq_refl)) as [E _].
  rewrite scan_entries_od in E. cbn [content f] in E. split_and!; [done| |done].
  destruct (committed_log _ _ E) as (rest & Er & Ecut). unfold torn. apply negb_false_iff.
  destruct (committed_parses (images (concat us))) as (es & rest' & _ & Ecc & Ee & _). rewrite E in Ecc.
  assert (concat us = es) as <- by (rewrite <-(fst_with_offsets 0 (concat us)), <-(fst_with_offsets 0 es); congruence).
  rewrite Ee, <-length_images. unfold size. by rewrite Nat2Z.id, drop_all.
Qed.

Section directory.
Context (units : string -> list (list DataEntry)).

(** A file without a hint: the active file of the process that stopped, or one
    whose hint was not written yet. *)
Definition fresh (d : Disk) (p : string) (f : DataFile) : Prop :=
  d_hints d !! p = None /\ committed (content f) = with_offsets 0 (concat (units p)).

(** A sealed file with its hint, intact or damaged. *)
Definition sealed (d : Disk) (p : string) (f : DataFile) : Prop :=
  content f = images (concat (units p))
  /\ exists b, d_hints d !! p = Some b /\ forall sc, OpenForRead b = Ok sc -> hint_lists (with_offsets 0 (concat (units p))) b.

(** The one file a crash may have torn: no other needs a cut, and none starts
    later. *)
Definition written_last (d : Disk) (p : string) (f : DataFile) : Prop :=
  (forall q g, q <> p -> d_data d !! q = Some g -> d_hints d !! q = None -> torn (content g) = false)
  /\ exists seq, first_sequence (read_object p f) = Ok seq
       /\ (seq <> 0 -> forall q, q <> p -> is_Some (d_data d !! q) -> starts (units q) <= seq).

Record crashed (d : Disk) : Prop := {
  cr_oracle : d_oracle d = [];
  cr_reads : d_reads d = [];
  cr_log : forall p f, d_data d !! p = Some f -> log_ok (units p);
  cr_files : forall p f, d_data d !! p = Some f -> sealed d p f \/ fresh d p f /\ (torn (content f) = false \/ written_last d p f)
}.

Lemma crashed_lets_cut d p f seq q :
  crashed d -> d_data d !! p = Some f -> torn (content f) = true -> fresh d p f -> q <> p -> is_Some (d_data d !! q) ->
  first_sequence (read_object p f) = Ok seq -> lets_cut seq d q.
Proof.
  intros [_ _ Hlog Hfiles] Hp Ht Hfr Hne [g Hg] Hseq. destruct (Hfiles p f Hp) as [[Ec _]|[_ [Hn|[Hothers (seq' & Es & Hle)]]]].
  { destruct (committed_images (units p) (Hlog p f Hp)) as (_ & Ht' & _). rewrite Ec in Ht. congruence. }
  { congruence. }
  rewrite Hseq in Es. injection Es as <-. exists g. split; [done|].
  assert (Hfs : (is_Some (d_hints d !! q) \/ torn (content g) = false) /\ first_sequence (read_object q g) = Ok (starts (units q))).
  { destruct (Hfiles q g Hg) as [[Ecq (b & Hb & _)]|[[Hnq Hcq] _]].
    - destruct (committed_images (units q) (Hlog q g Hg)) as (Ec' & Ht' & _). split; [left; by eexists|].
      apply first_sequence_log; [by eapply Hlog|by rewrite Ecq..].
    - assert (Hut : torn (content g) = false) by (by eapply Hothers). split; [by right|]. apply first_sequence_log; [by eapply Hlog|done..]. }
  destruct Hfs as [H1' H2']. split; [done|]. intros Hn0. exists (starts (units q)). split; [done|]. apply Hle; [done|done|by eexists].
Qed.

(** What preparing [p] leaves. *)
Record settled (p : string) (d d' : Disk) (g : DataFile) : Prop := {
  se_crashed : crashed d';
  se_file : d_data d' !! p = Some g;
  se_sealed : sealed d' p g;
  se_data : forall q, q <> p -> d_data d' !! q = d_data d !! q;
  se_hints : forall q, q <> p -> d_hints d' !! q = d_hints d !! q
}.

Lemma crashed_settles p d d' f g :
  crashed d -> d_data d !! p = Some f -> d_oracle d' = [] -> d_reads d' = [] -> d_data d' !! p = Some g -> sealed d' p g ->
  (forall q, q <> p -> d_data d' !! q = d_data d !! q) -> (forall q, q <> p -> d_hints d' !! q = d_hints d !! q) -> settled p d d' g.
Proof.
  intros [Ho Hr Hlog Hfiles] Hp Ho' Hr' Hg Hs Hd Hh. split; try done. split; try done.
  - intros q x Hq. destruct (decide (q = p)) as [->|Hne]; [by apply (Hlog p f)|]. rewrite Hd in Hq by done. by apply (Hlog q x).
  - intros q x Hq. destruct (decide (q = p)) as [->|Hne]; [left; by rewrite Hg in Hq; injection Hq as <-|].
    rewrite Hd in Hq by done. destruct (Hfiles q x Hq) as [[Ec Hb]|[[Hn Hc] Ht]]; [left; split; [done|]; by rewrite Hh|right].
    split; [split; [by rewrite Hh|done]|]. destruct Ht as [Ht|[Ho1 (seq & Es & Hle)]]; [by left|right]. split.
    + intros y gy Hne' Hy Hny. destruct (decide (y = p)) as [->|Hnp]; [destruct Hs as [_ (b & Hb & _)]; congruence|].
      rewrite Hd in Hy by done. rewrite Hh in Hny by done. by apply (Ho1 y gy).
    + exists seq. split; [done|]. intros Hn0 y Hy Hin. apply Hle; [done..|]. destruct (decide (y = p)) as [->|Hnp]; [by eexists|]. by rewrite Hd in Hin.
Qed.

Lemma prepare_file_done paths p id d f :
  crashed d -> d_data d !! p = Some f -> (forall q, q ∈ paths -> is_Some (d_data d !! q)) ->
  exists g d', prepare_file paths p id d = (Ok (mkRecovered id (read_object p g) p (size (content g))), d') /\ settled p d d' g.
Proof.
  intros Hc Hp Hpaths. pose proof Hc as [Ho Hr Hlog Hfiles]. unfold prepare_file, gets. unfold mbind at 1, io_bind at 1.
  destruct (Hfiles p f Hp) as [Hs|[[Hn Hcm] Htorn]].
  - pose proof Hs as [_ (b & Hb & _)]. rewrite Hb. cbn [bool_decide when]. exists f, d. split; [|by eapply crashed_settles].
    unfold mbind, io_bind. cbn. rewrite (open_data_done p d f) by done. cbn. by rewrite (disk_file_size_done p d f).
  - rewrite Hn, bool_decide_eq_true_2 by done. cbn [when].
    assert (Hrw : exists f1, (n ← disk_file_size p; on_data p (rewrite_durably n)) d = (Ok (), set_data (<[p := f1]> (d_data d)) d) /\ content f1 = content f).
    { unfold mbind, io_bind. rewrite (disk_file_size_done p d f Hp). apply (on_data_done p _ d f (fun f1 => content f1 = content f)); [done..|].
      by apply rewrite_durably_done. }
    destruct Hrw as (f1 & Erw & Ec1). unfold mbind at 1, io_bind at 1. rewrite Erw. set (d1 := set_data (<[p := f1]> (d_data d)) d).
    assert (Hp1 : d_data d1 !! p = Some f1) by apply lookup_insert_eq.
    unfold mbind at 1, io_bind at 1. rewrite (open_data_done p d1 f1 Ho Hp1).
    set (d2 := set_tmp ({[p]} ∪ d_tmp d1) d1). assert (Hsame : same_files d2 d).
    { split; [|done]. cbn. by rewrite fmap_insert, Ec1, insert_id by (by rewrite lookup_fmap, Hp). }
    destruct (cut_tail_done p f1 paths d2 Ho Hp1) as (f2 & Ecut & Ec2).
    { intros Ht. rewrite Ec1 in Ht. destruct Htorn as [?|Hlast]; [congruence|]. pose proof Hlast as [_ (seq & Es & _)].
      exists seq. replace (read_object p f1) with (read_object p f) by (unfold read_object; by rewrite Ec1). split; [done|].
      intros q Hq Hne. eapply lets_cut_same; [exact Hsame|]. eapply crashed_lets_cut; [done|done|done|by split|done|by apply Hpaths|done]. }
    pose proof (scan_committed_parses (read_object p f1) (read_object_ok _ _)) as (_ & _ & _ & _ & _ & Herr & _).
    assert (Ece : cs_entries (scan_committed (read_object p f1) 0 DamageStop) = with_offsets 0 (concat (units p))) by (rewrite scan_entries_od, Ec1; done).
    destruct (flush_hints_for_done (read_object p f1) (cut_tail paths (read_object p f1)) d1 (set_data (<[p := f2]> (d_data d2)) d2)) as (b & tmp & Hl & Efl);
      [done|done|rewrite Ece; by apply (lo_hintable _ (Hlog p f Hp))|rewrite Ece; by apply (lo_keys _ (Hlog p f Hp))|done| |done|].
    { rewrite scan_read_object. fold (committed_end (content f1)). done. }
    rewrite Ece in Hl. cbn [path read_object] in Efl. set (d3 := set_hints _ _) in Efl. destruct (committed_log _ _ Hcm) as (rest & Er & Etake).
    assert (Ec2' : content f2 = images (concat (units p))) by (by rewrite Ec2, Ec1, Etake).
    assert (Hp3 : d_data d3 !! p = Some f2) by apply lookup_insert_eq.
    assert (Eopen : (if cs_offset (scan_committed (read_object p f1) 0 DamageStop) <? df_size (read_object p f1) then open_data p else mret (read_object p f1)) d3
      = (Ok (read_object p f2), d3)).
    { rewrite scan_read_object. fold (committed_end (content f1)). unfold df_size. cbn [logical_end read_object].
      destruct (Z.ltb_spec (committed_end (content f1)) (size (content f1))) as [|Hge]; [by apply open_data_done|].
      unfold mret, io_ret, read_object. rewrite Ec2, take_ge; [done|]. unfold size in Hge. lia. }
    exists f2, d3. split.
    { unfold mbind, io_bind. destruct (flush_hints_for _ _ d1) as [r x] eqn:E. assert ((r, x) = (Ok (), d3)) as [= -> ->] by (by rewrite <-E, <-Efl).
      rewrite Eopen. by rewrite (disk_file_size_done p d3 f2 Hp3). }
    apply (crashed_settles p d d3 f f2); try done.
    + split; [done|]. exists b. split; [apply lookup_insert_eq|]. done.
    + intros q Hq. cbn. by rewrite !lookup_insert_ne by done.
    + intros q Hq. cbn. by rewrite lookup_insert_ne by done.
Qed.

(** The files after the loop. *)
Definition restored (d' : Disk) (f : RecoveredFile) : Prop :=
  exists g, rf_data_file f = read_object (rf_hint_path f) g /\ content g = images (concat (units (rf_hint_path f)))
    /\ sealed d' (rf_hint_path f) g.

Lemma prepare_loop_done paths todo id d :
  crashed d -> NoDup todo -> (forall q, q ∈ paths -> is_Some (d_data d !! q)) -> todo ⊆ paths ->
  exists fs d', prepare_loop paths todo id d = (Ok fs, d') /\ crashed d' /\ Forall (restored d') fs
    /\ forall q, q ∉ todo -> d_data d' !! q = d_data d !! q /\ d_hints d' !! q = d_hints d !! q.
Proof.
  revert id d. induction todo as [|p todo IH]; intros id d Hc Hnd Hin Hsub; cbn [prepare_loop]; [by exists [], d|].
  apply NoDup_cons in Hnd as [Hp Hnd]. destruct (Hin p) as [f Hf]; [apply Hsub; by left|].
  destruct (prepare_file_done paths p id d f Hc Hf Hin) as (g & d1 & E & [S1 S2 S3 S4 S5]).
  destruct (IH (id + 1) d1 S1 Hnd) as (fs & d' & E' & Hc' & Hfs & Hrest).
  { intros q Hq. destruct (decide (q = p)) as [->|Hne]; [by eexists|]. rewrite S4 by done. by apply Hin. }
  { intros q Hq. apply Hsub. by right. }
  exists (mkRecovered id (read_object p g) p (size (content g)) :: fs), d'. unfold mbind, io_bind. rewrite E, E'. split_and!; [done|done| |].
  - constructor; [|done]. exists g. split; [done|]. destruct S3 as [Ec Hb]. split; [done|]. cbn. split; [done|].
    by rewrite (proj2 (Hrest p Hp)).
  - intros q Hq. rewrite elem_of_cons in Hq. destruct (Hrest q) as [-> ->]; [naive_solver|]. split; [apply S4|apply S5]; naive_solver.
Qed.

(** ** One pass *)

Lemma for_each_done {A} (l : list A) (f : A -> io Disk unit) (P : Disk -> Prop) d :
  P d -> (forall x d, P d -> exists d', f x d = (Ok (), d') /\ P d') -> exists d', for_each l f d = (Ok (), d') /\ P d'.
Proof.
  intros HP Hf. revert d HP. induction l as [|x l IH]; intros d HP; [by exists d|]. unfold for_each. cbn [foldr].
  destruct (Hf x d HP) as (d1 & E1 & HP1). unfold mbind, io_bind. rewrite E1. by apply IH.
Qed.

Lemma remove_staging_done d : d_oracle d = [] ->
  exists d', remove_staging d = (Ok (), d') /\ d_oracle d' = [] /\ d_reads d' = d_reads d /\ d_data d' = d_data d /\ d_hints d' = d_hints d.
Proof.
  intros Ho. set (P := fun d' => d_oracle d' = [] /\ d_reads d' = d_reads d /\ d_data d' = d_data d /\ d_hints d' = d_hints d).
  unfold remove_staging, gets. unfold mbind at 1, io_bind at 1. unfold mbind at 1, io_bind at 1.
  assert (Hstep : forall (g : Disk -> Disk) d1, (forall d2, d_oracle (g d2) = d_oracle d2 /\ d_reads (g d2) = d_reads d2 /\ d_data (g d2) = d_data d2
    /\ d_hints (g d2) = d_hints d2) -> P d1 -> exists d2, (_ ← disk_call "remove"; modify g) d1 = (Ok (), d2) /\ P d2).
  { intros g d1 Hg (P1 & P2 & P3 & P4). unfold mbind, io_bind. rewrite disk_call_done by done. eexists. split; [done|].
    destruct (Hg d1) as (G1 & G2 & G3 & G4). unfold P. rewrite G1, G2, G3, G4. done. }
  destruct (for_each_done (elements (d_tmp d)) (fun p => _ ← disk_call "remove"; modify (fun d => set_tmp (d_tmp d ∖ {[p]}) d)) P d) as (d1 & E1 & HP1);
    [done|intros; by apply Hstep|]. unfold mbind at 1, io_bind at 1. rewrite E1.
  apply (for_each_done (elements (dom (d_data_tmp d))) (fun p => _ ← disk_call "remove"; modify (fun d => set_data_tmp (delete p (d_data_tmp d)) d)) P d1);
    [done|]. intros; by apply Hstep.
Qed.

Lemma crashed_same d d' :
  crashed d -> d_oracle d' = [] -> d_reads d' = d_reads d -> d_data d' = d_data d -> d_hints d' = d_hints d -> crashed d'.
Proof.
  intros [C1 C2 C3 C4] Eo Er Ed Eh. split; [done|congruence|by rewrite Ed|]. unfold sealed, fresh, written_last in *. by rewrite Ed, Eh.
Qed.

Lemma recovery_prepare_files_done s d :
  crashed d -> Z.of_nat (base.size (dom (d_data d))) <= KeyDirEntry.kMaxFileId ->
  exists fs d', recovery_prepare_files s d = (Ok (with_files s fs, fs), d') /\ crashed d' /\ Forall (restored d') fs
    /\ rf_hint_path <$> fs = merge_sort name_le (elements (dom (d_data d)))
    /\ (fun f => path (rf_data_file f)) <$> fs = merge_sort name_le (elements (dom (d_data d)))
    /\ rf_file_id <$> fs = seqZ (next_file_id s) (Z.of_nat (base.size (dom (d_data d)))).
Proof.
  intros Hc Hn. set (paths := merge_sort name_le (elements (dom (d_data d)))). pose proof Hc as [Ho _ _ _].
  assert (Hlen : length paths = base.size (dom (d_data d))) by (unfold paths; by rewrite merge_sort_Permutation).
  destruct (remove_staging_done d Ho) as (d1 & E1 & D1 & D2 & D3 & D4).
  destruct (prepare_loop_done paths paths (next_file_id s) d1) as (fs & d' & E & Hc' & Hfs & _);
    [by eapply crashed_same|apply data_paths_nodup|intros q Hq; rewrite D3; by apply elem_of_data_paths|done|].
  exists fs, d'. destruct (prepare_loop_ok _ _ _ _ _ _ E) as (P1 & P2 & P3). rewrite Hlen in P2. split_and!; try done.
  unfold recovery_prepare_files, gets, lift, mbind, io_bind. rewrite disk_call_done by done. fold paths. rewrite E1, Hlen.
  rewrite (proj2 (Z.ltb_ge _ _)) by done. cbn [throw_if]. by rewrite E.
Qed.

(** ** The sequences of a file's statistics *)

Lemma note_stats_range es fs (L : list Z) :
  (forall he, he ∈ es -> 0 < HintEntry.sequence he /\ HintEntry.sequence he ∈ L) ->
  (min_sequence fs = 0 /\ max_sequence fs = 0 \/ 0 < min_sequence fs <= max_sequence fs /\ min_sequence fs ∈ L /\ max_sequence fs ∈ L) ->
  let fs' := foldl note_stats fs es in
  min_sequence fs' = 0 /\ max_sequence fs' = 0 \/ 0 < min_sequence fs' <= max_sequence fs' /\ min_sequence fs' ∈ L /\ max_sequence fs' ∈ L.
Proof.
  revert fs. induction es as [|he es IH]; intros fs Hes Hfs; [done|]. cbn [foldl]. destruct (Hes he) as [Hpos Hin]; [by left|].
  apply IH; [intros x Hx; apply Hes; by right|]. right. cbn [note_stats min_sequence max_sequence].
  destruct Hfs as [[-> ->]|(Hb & Hm & Hx)].
  - cbn [Z.eqb orb]. rewrite (proj2 (Z.ltb_lt 0 _)) by done. split; [lia|done].
  - rewrite (proj2 (Z.eqb_neq (min_sequence fs) 0)) by lia. cbn [orb].
    destruct (Z.ltb_spec (HintEntry.sequence he) (min_sequence fs)), (Z.ltb_spec (max_sequence fs) (HintEntry.sequence he)); (split; [lia|done]).
Qed.

(** ** The state *)

(** The logs of different files hold different ranges of sequences, a sequence
    belongs to one Put or Delete, and the fields of the entries pack. *)
Record ordered_logs (names : list string) : Prop := {
  ol_apart : forall p q, p ∈ names -> q ∈ names -> p <> q ->
    (forall e e', e ∈ concat (units p) -> e' ∈ concat (units q) -> de_sequence e < de_sequence e')
    \/ (forall e e', e ∈ concat (units p) -> e' ∈ concat (units q) -> de_sequence e' < de_sequence e);
  ol_distinct : forall p x y, p ∈ names -> x ∈ with_offsets 0 (concat (units p)) -> y ∈ with_offsets 0 (concat (units p)) ->
    is_point_entry x.1 -> is_point_entry y.1 -> de_sequence x.1 = de_sequence y.1 -> x = y;
  ol_pack : forall p e off, p ∈ names -> (e, off) ∈ with_offsets 0 (concat (units p)) ->
    0 < de_sequence e /\ KeyDirEntry.packable (de_sequence e) off 0 (size (de_value e))
}.

Definition file_units (f : RecoveredFile) : list (list DataEntry) := units (rf_hint_path f).

Lemma elem_of_log f e off : (e, off) ∈ log file_units f -> e ∈ concat (file_units f).
Proof. intros Hin. rewrite <-(fst_with_offsets 0 (concat (file_units f))). by apply (list_elem_of_fmap_2' fst _ (e, off)). Qed.

Lemma restored_sound_log names fs d' lim :
  ordered_logs names -> NoDup names -> rf_hint_path <$> fs = names -> (fun f => path (rf_data_file f)) <$> fs = names ->
  rf_file_id <$> fs = seqZ 0 lim -> lim <= KeyDirEntry.kMaxFileId -> Forall (restored d') fs -> (forall f, f ∈ fs -> log_ok (file_units f)) ->
  sound_log file_units fs.
Proof.
  intros [O1 O2 O3] Hnd Ep Ed Ei Hlim Hfs Hok. assert (Hname : forall f, f ∈ fs -> rf_hint_path f ∈ names).
  { intros f Hf. rewrite <-Ep. by apply list_elem_of_fmap_2. }
  assert (Hinj : forall f f', f ∈ fs -> f' ∈ fs -> rf_hint_path f = rf_hint_path f' -> f = f').
  { intros f f' Hf Hf'. apply (nodup_fmap_eq rf_hint_path fs); [by rewrite Ep|done|done]. }
  split.
  - rewrite Ei. apply NoDup_seqZ.
  - by rewrite Ed.
  - intros f Hf. rewrite Forall_forall in Hfs. destruct (Hfs f Hf) as (g & -> & _). done.
  - intros f Hf. by apply lo_hintable, Hok.
  - intros f e off f' e' off' Hf Hf' Hin Hin' Hp Hp' _ Hq. destruct (decide (rf_hint_path f = rf_hint_path f')) as [E|Hne].
    + rewrite (Hinj f f' Hf Hf' E) in *. split; [done|]. apply (O2 (rf_hint_path f')); try done. by apply Hname.
    + exfalso. apply elem_of_log in Hin, Hin'. destruct (O1 _ _ (Hname f Hf) (Hname f' Hf') Hne) as [Hlt|Hlt]; specialize (Hlt e e' Hin Hin'); lia.
  - intros f e off Hf Hin. destruct (O3 (rf_hint_path f) e off (Hname f Hf) Hin) as [Hpos (P1 & P2 & _ & P4)]. split; [done|].
    assert (Hid : rf_file_id f ∈ seqZ 0 lim) by (rewrite <-Ei; by apply list_elem_of_fmap_2). apply elem_of_seqZ in Hid.
    split_and!; try done; lia.
Qed.

(** The statistics of recovered files do not meet. *)
Lemma restored_no_overlap names fs d' s s' nt :
  ordered_logs names -> NoDup names -> rf_hint_path <$> fs = names -> NoDup (rf_file_id <$> fs) -> Forall (restored d') fs ->
  (forall f, f ∈ fs -> log_ok (file_units f)) ->
  recovered (log_hint file_units) fs s s' nt -> find_sequence_overlap s' = None.
Proof.
  intros [O1 _ O3] Hnd Ep Hids Hfs Hok [_ R2 _ _ _ _ _].
  assert (Hst : forall id st, file_stats s' !! id = Some st -> exists f, f ∈ fs /\ rf_file_id f = id
    /\ (min_sequence st = 0 /\ max_sequence st = 0 \/ 0 < min_sequence st <= max_sequence st
        /\ (exists e, e ∈ concat (file_units f) /\ min_sequence st = de_sequence e) /\ exists e, e ∈ concat (file_units f) /\ max_sequence st = de_sequence e)).
  { intros id st Hid. rewrite R2 in Hid. apply elem_of_list_to_map_2 in Hid. apply list_elem_of_fmap in Hid as (f & [= -> ->] & Hf). exists f. split_and!; [done..|].
    cbn [with_live min_sequence max_sequence]. unfold hint_stats, log_hint. cbn [default from_option].
    destruct (note_stats_range (hint_head (log file_units f) ++ hint_run (log file_units f)) (initial_stats (rf_total_bytes f)) (de_sequence <$> concat (file_units f))) as [Hz|(Hb & Hm & Hx)].
    - intros he Hhe. rewrite hint_lists_all in Hhe by (by apply lo_hintable, Hok). apply list_elem_of_fmap in Hhe as ([e off] & -> & Hin). rewrite hint_of_sequence.
      split; [|by apply list_elem_of_fmap_2; eapply elem_of_log]. apply (O3 (rf_hint_path f) e off); [rewrite <-Ep; by apply list_elem_of_fmap_2|done].
    - by left.
    - by left.
    - right. split; [done|]. apply list_elem_of_fmap in Hm as (e & Em & He), Hx as (e' & Ex & He'). split; [by exists e|by exists e']. }
  pose proof (find_overlap_spec s') as Hf. destruct (find_sequence_overlap s') as [[a b]|]; [|done]. exfalso.
  destruct Hf as (Hne & fa & fb & Ha & Hb & Pa & Pb & L1 & L2).
  { intros id st Hid Hpos. destruct (Hst id st Hid) as (f & _ & _ & [[? _]|[? _]]); lia. }
  destruct (Hst a fa Ha) as (f & Hf & <- & [[? _]|(_ & (e1 & He1 & E1) & (e2 & He2 & E2))]); [lia|].
  destruct (Hst b fb Hb) as (g & Hg & <- & [[? _]|(_ & (e3 & He3 & E3) & (e4 & He4 & E4))]); [lia|].
  assert (Hpne : rf_hint_path f <> rf_hint_path g).
  { intros E. apply Hne. f_equal. by apply (nodup_fmap_eq rf_hint_path fs); [rewrite Ep|..]. }
  destruct (O1 (rf_hint_path f) (rf_hint_path g)) as [Hlt|Hlt]; [rewrite <-Ep; by apply list_elem_of_fmap_2..|done| |].
  - specialize (Hlt e2 e3 He2 He3). lia.
  - specialize (Hlt e1 e4 He1 He4). lia.
Qed.

Lemma recovery_load_spec blind sample s fs threads strict d :
  fs <> [] -> (0 < threads)%nat -> sound_log file_units fs -> (forall f, f ∈ fs -> holds_units (rf_data_file f) (file_units f)) ->
  hints_usable file_units fs d ->
  exists s' nt d', recovery_load blind sample s fs threads strict d = (Ok (s', nt), d') /\ recovered (log_hint file_units) fs s s' nt.
Proof.
  intros Hne Ht Hl Hu Hd. assert (Ho : Forall (opens strict (hints_usable file_units fs) (log_hint file_units)) fs)
    by (apply Forall_forall; intros f Hf; by apply log_opens).
  assert (Hs : sound_hints (log_hint file_units) fs) by (by apply log_sound_hints). unfold recovery_load. destruct blind.
  - destruct (load_streams_spec _ strict _ s fs threads d Hne Ht Ho Hs Hd) as (s' & nt & d' & E & _ & Hr). by exists s', nt, d'.
  - destruct (load_ranged_spec _ strict _ sample s fs threads d Hne Ht Ho Hs Hd) as (s' & nt & d' & E & _ & Hr). by exists s', nt, d'.
Qed.

(** C35: recovery after a crash.  On a directory whose sealed files have hints
    that list their entries or do not open, whose other files hold committed
    records and whatever a crash left behind them, where no two files hold
    entries of the same range of sequences (so not the pair of files a kill
    inside a vacuum leaves, which takes a second pass: C32 and C33) and all
    sequences, offsets and ids fit the key directory, with no system call
    failing: [recovery_open] returns after one pass; the files are the
    directory's; and the state restores their logs, that is, the key directory
    holds a key exactly when one of its committed Puts is hidden by no newer
    entry, and points at that Put. *)
Theorem recovery_open_restores blind sample threads strict n d :
  crashed d -> ordered_logs (elements (dom (d_data d))) -> (0 < threads)%nat ->
  Z.of_nat (base.size (dom (d_data d))) <= KeyDirEntry.kMaxFileId ->
  exists s nt fs d', recovery_open blind sample threads strict (S n) d = (Ok (Some (s, nt, fs)), d')
    /\ rf_hint_path <$> fs ≡ₚ elements (dom (d_data d)) /\ restores file_units fs s.
Proof.
  intros Hc Hol Ht Hn. destruct (recovery_prepare_files_done EngineState_init d Hc Hn) as (fs & d1 & Ep & Hc1 & Hfs & P1 & P2 & P3).
  set (names := merge_sort name_le (elements (dom (d_data d)))) in *.
  assert (Hperm : names ≡ₚ elements (dom (d_data d))) by apply merge_sort_Permutation.
  assert (Hol' : ordered_logs names) by (destruct Hol as [O1 O2 O3]; split; intros *; rewrite ?Hperm; [apply O1|apply O2|apply O3]).
  assert (Hnd : NoDup names) by apply data_paths_nodup.
  assert (Hok : forall f, f ∈ fs -> log_ok (file_units f)).
  { intros f Hf. assert (Hin : rf_hint_path f ∈ names) by (rewrite <-P1; by apply list_elem_of_fmap_2).
    apply elem_of_data_paths in Hin as [x Hx]. by apply (cr_log d Hc _ x). }
  assert (Hsl : sound_log file_units fs) by (by eapply (restored_sound_log names fs d1 (Z.of_nat (base.size (dom (d_data d)))))).
  assert (Hu : forall f, f ∈ fs -> holds_units (rf_data_file f) (file_units f)).
  { intros f Hf. pose proof Hfs as Hfs'. rewrite Forall_forall in Hfs'. destruct (Hfs' f Hf) as (g & -> & Ec & _). by apply committed_images; [apply Hok|]. }
  assert (Hh : hints_usable file_units fs d1).
  { destruct Hc1 as [C1 C2 _ _]. split; [done|done|]. intros f Hf. rewrite Forall_forall in Hfs. destruct (Hfs f Hf) as (g & _ & _ & _ & b & Hb & Hl). by exists b. }
  assert (Hload : exists s nt d', recovery_load blind sample (with_files EngineState_init fs) fs threads strict d1 = (Ok (s, nt), d')
    /\ find_sequence_overlap s = None /\ restores file_units fs s).
  { destruct (decide (fs = [])) as [->|Hne].
    - exists (with_files EngineState_init []), NeededTombstones_none, d1. split; [by destruct blind|]. split; [done|]. split.
      + intros k e. split; [cbn; by intros ?%lookup_empty_Some|]. intros (f & p & off & (Hf & _) & _). by apply elem_of_nil in Hf.
      + by intros id st Hid.
      + intros id. split; [intros [st Hst]; cbn in Hst; by apply lookup_empty_Some in Hst|by intros ?%elem_of_nil].
      + by intros f e off ?%elem_of_nil.
    - destruct (recovery_load_spec blind sample (with_files EngineState_init fs) fs threads strict d1 Hne Ht Hsl Hu Hh) as (s & nt & d' & E & Hr).
      exists s, nt, d'. split; [done|]. split; [|by eapply recovered_restores].
      eapply (restored_no_overlap names fs d1); try done. rewrite P3. apply NoDup_seqZ. }
  destruct Hload as (s & nt & d' & El & Ef & Hr). exists s, nt, fs, d'. split; [|by rewrite P1].
  cbn [recovery_open]. unfold recovery_pass, attempt, mbind, io_bind. rewrite Ep, El, Ef. done.
Qed.
End directory.
End crash.

(** ** Witness *)

Module CrashFixture.
Import Castagnoli Stored ScanFixture LogFixture.

(** A sealed file whose hint is damaged, and the active file of the process
    that stopped: two units, a batch that never ended and zeros. *)
Definition sealed_file : DataFile := mkDataFile "000001" (images (concat [[put_a]; batch])) 0 0 0 0 false.
Definition torn_batch : list DataEntry := [entry 10 BulkBegin [] []; entry 11 Put [x64] []].
Definition torn_file : DataFile := mkDataFile "000002" (images ([put_a'; del_b] ++ torn_batch) ++ replicate 4 x00) 0 0 0 0 false.
Definition crash_units (p : string) : list (list DataEntry) := if bool_decide (p = "000001") then [[put_a]; batch] else [[put_a']; [del_b]].
Definition crash_disk : Disk :=
  mkDisk {[ "000001" := sealed_file; "000002" := torn_file ]} {[ "000001" := [x00; x01] ]} {[ "000002" ]} ∅ [] [].

Lemma crash_files p f : d_data crash_disk !! p = Some f -> p = "000001" /\ f = sealed_file \/ p = "000002" /\ f = torn_file.
Proof.
  cbn [crash_disk d_data]. intros [[<- <-]|[_ Hp]]%lookup_insert_Some; [by left|]. apply lookup_singleton_Some in Hp as [<- <-]. by right.
Defined.

Lemma crash_log_ok p f : d_data crash_disk !! p = Some f -> log_ok (crash_units p).
Proof.
  intros [[-> ->]|[-> ->]]%crash_files; (split; [|repeat constructor; by vm_compute|repeat constructor; by vm_compute|by vm_compute]).
  - exact (hu_units _ _ file_holds_units).
  - exact (hu_units _ _ file'_holds_units).
Defined.

Lemma crash_disk_crashed : crashed crash_units crash_disk.
Proof.
  split; [done|done|exact crash_log_ok|]. intros p f [[-> ->]|[-> ->]]%crash_files.
  - left. split; [done|]. exists [x00; x01]. split; [done|]. intros sc E. exfalso. revert E. by vm_compute.
  - right. split; [by split; vm_compute|]. right. split.
    + intros q g Hne [[-> ->]|[-> ->]]%crash_files Hh; [by vm_compute in Hh|done].
    + exists 8. split; [by vm_compute|]. intros _ q Hne [g [[-> ->]|[-> ->]]%crash_files]; [by vm_compute|done].
Defined.

Lemma crash_names p : p ∈ elements (dom (d_data crash_disk)) -> p = "000001" \/ p = "000002".
Proof. rewrite elem_of_elements, elem_of_dom. intros [f [[-> _]|[-> _]]%crash_files]; auto. Defined.

Lemma crash_ordered : ordered_logs crash_units (elements (dom (d_data crash_disk))).
Proof.
  assert (Hall : forall p (Q : string -> Prop), p ∈ elements (dom (d_data crash_disk)) -> Q "000001" -> Q "000002" -> Q p)
    by (intros p Q [-> | ->]%crash_names; done).
  assert (Hlt : Forall (fun e => Forall (fun e' => de_sequence e < de_sequence e') (concat (crash_units "000002"))) (concat (crash_units "000001")))
    by (repeat constructor; by vm_compute).
  rewrite Forall_forall in Hlt. assert (Hlt' : forall e e', e ∈ concat (crash_units "000001") -> e' ∈ concat (crash_units "000002") -> de_sequence e < de_sequence e').
  { intros e e' He He'. specialize (Hlt e He). rewrite Forall_forall in Hlt. by apply Hlt. }
  split.
  - intros p q [-> | ->]%crash_names [-> | ->]%crash_names Hne; try done; [by left|right; intros e e' He He'; by apply Hlt'].
  - intros p x y Hp Hx Hy _ _ Hq. assert (Hd : Forall (fun x => Forall (fun y => de_sequence x.1 = de_sequence y.1 -> x = y)
      (with_offsets 0 (concat (crash_units p)))) (with_offsets 0 (concat (crash_units p)))).
    { clear Hx Hy. pattern p. apply (Hall p _ Hp); repeat constructor; vm_compute; naive_solver. }
    rewrite Forall_forall in Hd. specialize (Hd x Hx). rewrite Forall_forall in Hd. by apply Hd.
  - intros p e off Hp Hin. assert (Hf : Forall (fun x => 0 < de_sequence x.1 /\ KeyDirEntry.packable (de_sequence x.1) x.2 0 (size (de_value x.1)))
      (with_offsets 0 (concat (crash_units p)))) by (clear Hin; pattern p; apply (Hall p _ Hp); repeat constructor; by vm_compute).
    rewrite Forall_forall in Hf. exact (Hf _ Hin).
Defined.
End CrashFixture.

Section crash_witness.
Import Castagnoli Stored CrashFixture.

Lemma recovery_open_restores_witness :
  exists s nt fs d', recovery_open false (fun _ _ => []) 2 true 1 crash_disk = (Ok (Some (s, nt, fs)), d')
    /\ rf_hint_path <$> fs ≡ₚ elements (dom (d_data crash_disk)) /\ restores (file_units crash_units) fs s.
Proof. apply recovery_open_restores; [apply crash_disk_crashed|apply crash_ordered|lia|by vm_compute]. Defined.

Lemma recovery_open_terminates_witness :
  (recovery_open false (fun _ _ => []) 2 true 3 crash_disk).1 <> Ok None
  /\ recovery_open false (fun _ _ => []) 2 true 4 crash_disk = recovery_open false (fun _ _ => []) 2 true 3 crash_disk.
Proof. apply (recovery_open_terminates false (fun _ _ => []) 2 true crash_disk 1). Defined.

(** The entry the torn file's committed records end with. *)
Lemma recovery_open_keeps_entries_witness :
  holds crash_disk LogFixture.del_b /\ holds (recovery_open false (fun _ _ => []) 2 true 1 crash_disk).2 LogFixture.del_b.
Proof.
  assert (Hb : holds crash_disk LogFixture.del_b).
  { eexists "000002", _. split; [by vm_compute|]. apply list_elem_of_In. vm_compute. auto. }
  split; [exact Hb|]. apply recovery_open_keeps_entries. exact Hb.
Defined.

Lemma recovery_prepare_tears_one_witness :
  lost crash_disk (recovery_prepare_files (mkEngineState ∅ ∅ ∅ 0 0 1 0 0 Leader false "" false None) crash_disk).2 "000002"
  /\ ~ ("000001" <> "000002" /\ lost crash_disk (recovery_prepare_files (mkEngineState ∅ ∅ ∅ 0 0 1 0 0 Leader false "" false None) crash_disk).2 "000001"
        /\ lost crash_disk (recovery_prepare_files (mkEngineState ∅ ∅ ∅ 0 0 1 0 0 Leader false "" false None) crash_disk).2 "000002").
Proof.
  split; [|apply recovery_prepare_tears_one]. eexists _, _. split_and!; [by vm_compute|by vm_compute|]. by vm_compute.
Defined.
End crash_witness.
