(* ===== verification/Db.v ===== *)
(** * The engine object: publication, flushes, rotation, the degraded state

    Models the members of [DB] that the write path shares: the published
    state and the prepared head, the raw and the checked [store_state]
    ([db_state.cpp]), flushing the head ([flush_pending] and its helpers,
    [db_commit.cpp]), the write barrier, degrading and refusing writes
    ([bytecask.cppm], [db_degraded.cpp]), and file rotation
    ([db_rotation.cpp]).

    Threads.  Stage 1 of a commit and every barrier run under [write_mu_];
    a flush runs under the flush role and, when a writer waiting in
    [commit_wait] runs it, concurrently with stage 1.  The role is taken and
    the head captured in one step ([flush_start]), the flush lands and the
    role is given back in another ([flush_finish]); [in_flight] is the flush
    in between.  A barrier waits for the flight to land ([quiesce]).

    Counters, timing heuristics ([CommitDelay], the settle loop), condition
    variables, the buffer pool and allocation failures are not modelled. *)

From S2P Require Import Prelude Codec KeyDir DataFile EngineState.
Import Serialization Types Stats Dir.

(** ** State *)

(** The flush between its loads and its publication. *)
Record Flight : Type := mkFlight {
  fl_head : EngineState;
  fl_published : EngineState;
  fl_need_sync : bool;
  fl_end : Z                  (* end of the head's active file when captured *)
}.

Record DB : Type := mkDB {
  state_ : EngineState;                (* what readers load *)
  head_ : EngineState;                 (* the prepared head *)
  heap : gmap FileRef DataFile;        (* file objects, by the id they were opened under *)
  oracle : list outcome;               (* how the coming system calls end *)
  in_flight : option Flight;           (* flush_in_flight_, and what it holds *)
  flush_error : option exn;
  write_fault : bool;
  hint_queue : list FileRef            (* hint tasks given to the worker *)
}.

Definition set_state (x : EngineState) (db : DB) : DB :=
  mkDB x (head_ db) (heap db) (oracle db) (in_flight db) (flush_error db) (write_fault db) (hint_queue db).
Definition set_head (x : EngineState) (db : DB) : DB :=
  mkDB (state_ db) x (heap db) (oracle db) (in_flight db) (flush_error db) (write_fault db) (hint_queue db).
Definition set_heap (x : gmap FileRef DataFile) (db : DB) : DB :=
  mkDB (state_ db) (head_ db) x (oracle db) (in_flight db) (flush_error db) (write_fault db) (hint_queue db).
Definition set_oracle (x : list outcome) (db : DB) : DB :=
  mkDB (state_ db) (head_ db) (heap db) x (in_flight db) (flush_error db) (write_fault db) (hint_queue db).
Definition set_in_flight (x : option Flight) (db : DB) : DB :=
  mkDB (state_ db) (head_ db) (heap db) (oracle db) x (flush_error db) (write_fault db) (hint_queue db).
Definition set_flush_error (x : option exn) (db : DB) : DB :=
  mkDB (state_ db) (head_ db) (heap db) (oracle db) (in_flight db) x (write_fault db) (hint_queue db).
Definition set_write_fault (x : bool) (db : DB) : DB :=
  mkDB (state_ db) (head_ db) (heap db) (oracle db) (in_flight db) (flush_error db) x (hint_queue db).
Definition set_hint_queue (x : list FileRef) (db : DB) : DB :=
  mkDB (state_ db) (head_ db) (heap db) (oracle db) (in_flight db) (flush_error db) (write_fault db) x.

(** ** Files *)

(** Runs an operation of the file object [r]. *)
Definition on_file {A} (r : FileRef) (m : io FileIO A) : io DB A := fun db =>
  match heap db !! r with
  | Some f =>
      let '(a, s) := m (mkFileIO f (oracle db)) in
      (a, set_oracle (fio_oracle s) (set_heap (<[r := fio_file s]> (heap db)) db))
  | None => (Err (LogicError "no such file object"), db)
  end.

(** A system call with no effect on file contents. *)
Definition syscall (what : string) : io DB unit := fun db =>
  match oracle db with
  | [] => (Ok (), db)
  | Done :: os => (Ok (), set_oracle os db)
  | Fails _ :: os => (Err (SystemError what), set_oracle os db)
  end.

(** [DataFile::size()]. *)
Definition file_size (db : DB) (r : FileRef) : Z :=
  match heap db !! r with Some f => df_size f | None => 0 end.

(** [active_file()]. *)
Definition active_ref (fs : gmap Z FileRef) (id : Z) : result FileRef :=
  match fs !! id with
  | Some r => Ok r
  | None => Err (LogicError "no active file")
  end.

Definition sync_file (r : FileRef) : io DB unit := on_file r sync.

(** ** Publication *)

Definition load_state : io DB EngineState := gets state_.
Definition load_head : io DB EngineState := gets head_.
Definition store_head (s : EngineState) : io DB unit := modify (set_head s).

(** The raw [store_state], through which every publication passes. *)
Definition publish (s : EngineState) : io DB unit := modify (set_state s).

Definition deem_as_degraded (reason : string) : io DB unit :=
  s ← load_state; publish (degraded_copy s reason).

(** The checked [store_state]. *)
Definition store_state (old_state new_state : EngineState) : io DB unit :=
  if next_seq new_state <? next_seq old_state then
    deem_as_degraded "invariant violation: next_seq regressed"
  else if active_file_id new_state <? active_file_id old_state then
    deem_as_degraded "invariant violation: active_file_id regressed"
  else if next_file_id new_state <? next_file_id old_state then
    deem_as_degraded "invariant violation: next_file_id regressed"
  else if durable_seq new_state <? durable_seq old_state then
    deem_as_degraded "invariant violation: durable_seq regressed"
  else if durable_seq new_state <? sync_requested_seq new_state then
    deem_as_degraded "invariant violation: publishing sync_requested_seq above durable_seq"
  else publish new_state.

Definition store_initial_state (s : EngineState) : io DB unit :=
  _ ← store_head s; publish s.

(** ** Refusing writes *)

Definition kWriteFaultReason : string :=
  "a write reached the data file but could not be published: call resume() to recover.".

Definition refused (s : EngineState) (db : DB) : bool := degraded s || write_fault db.

Definition publish_degraded_if_healthy (reason : string) : io DB unit :=
  s ← load_state;
  if degraded s then mret () else publish (degraded_copy s reason).

Definition refuse_writes : io DB unit :=
  _ ← modify (set_write_fault true);
  publish_degraded_if_healthy kWriteFaultReason.

(** Runs [how], which publishes a degraded state, then refuses writes by the
    flag whether or not it could. *)
Definition degrade (how : io DB unit) : io DB unit :=
  _ ← try_catch how (fun _ => mret ());
  refuse_writes.

Definition degrade_from (current : EngineState) (reason : string) : io DB unit :=
  degrade (publish (degraded_copy current reason)).

Definition degrade_transient (t : TransientEngineState) (current : EngineState) (reason : string)
    : io DB unit :=
  degrade (store_state current (persistent (apply_degrade reason t))).

(** What a state answers for [degraded_reason()]. *)
Definition degraded_reason_of (db : DB) : string :=
  if degraded (state_ db) then degraded_reason (state_ db)
  else if write_fault db then kWriteFaultReason else "".

(** ** Flushing the head *)

Definition flush_failed (ex : exn) (published : EngineState) : io DB unit :=
  _ ← modify (set_flush_error (Some ex));
  degrade_from published
    "commit fdatasync failed: bytes in page cache but durability not confirmed. Call resume() to recover.".

(** A flush threw: the error is recorded for the waiters, writes refused. *)
Definition flush_threw (ex : exn) : io DB unit :=
  _ ← modify (set_flush_error (Some ex));
  refuse_writes.

(** [flush_pending] up to its sync: what to flush, if anything. *)
Definition flush_load : io DB (option Flight) :=
  head ← load_head;
  published ← load_state;
  no ← gets (refused published);
  if no : bool then mret None
  else
    let need_sync := durable_seq published <? sync_requested_seq head in
    if (next_seq head <=? next_seq published) && negb need_sync then mret None
    else
      r ← lift (active_ref (files head) (active_file_id head));
      n ← gets (fun db => file_size db r);
      mret (Some (mkFlight head published need_sync n)).

(** The head as captured, with the durable sequence the flush gives it. *)
Definition flushed_state (fl : Flight) : EngineState :=
  let h := fl_head fl in
  mkEngineState (key_dir h) (files h) (file_stats h) (active_file_id h) (next_file_id h) (next_seq h)
    (if fl_need_sync fl then u64_sub (next_seq h) 1 else durable_seq (fl_published fl))
    (sync_requested_seq h) (mode h) (degraded h) (degraded_reason h) (closed h) (change_markers h).

(** [flush_pending] from its sync on.  The sync vouches for the bytes below the
    end the file had when the head was captured: entries appended since are
    not claimed. *)
Definition flush_land (fl : Flight) : io DB unit :=
  r ← lift (active_ref (files (fl_head fl)) (active_file_id (fl_head fl)));
  synced ← (if fl_need_sync fl
            then attempt (on_file r (fdatasync_to "WritableFileOps::sync: fdatasync failed" (fl_end fl)))
            else mret (Ok ()));
  match synced with
  | Err ex => flush_failed ex (fl_published fl)
  | Ok _ => store_state (fl_published fl) (flushed_state fl)
  end.

(** [flush_pending] in one piece, as a barrier runs it. *)
Definition flush_pending : io DB unit :=
  fl ← flush_load;
  match fl with Some fl => flush_land fl | None => mret () end.

Definition finish_flush : io DB unit := modify (set_in_flight None).

(** [flush_once] by a writer: the role is taken and the head captured; then
    the flush lands and the role is released, however it ended. *)
Definition flush_start : io DB unit :=
  fl ← flush_load; modify (set_in_flight fl).

Definition flush_finish : io DB unit :=
  fl ← gets in_flight;
  match fl with
  | Some fl => _ ← try_catch (flush_land fl) flush_threw; finish_flush
  | None => mret ()
  end.

(** [quiesce]: the flush in flight lands, then this thread flushes what it did
    not cover and keeps the role. *)
Definition quiesce : io DB unit :=
  _ ← flush_finish;
  try_catch flush_pending (fun ex => _ ← flush_threw ex; throw ex).

(** [~FlushRole]: the head is reset to the published state. *)
Definition release_role : io DB unit :=
  s ← load_state; store_head s.

(** The flush role for the extent of [m]: [WriteBarrier], or [quiesce] in a
    block. *)
Definition with_role {A} (m : io DB A) : io DB A :=
  _ ← quiesce;
  r ← attempt m;
  _ ← release_role;
  lift r.

(** ** Rotation *)

Section rotation.
(** [make_data_file_stem]'s name for the file of an id, and
    [rotation_threshold_]. *)
Context (stem_of : Z -> string) (rotation_threshold : Z).

Record PreparedRotation : Type := mkRotation { sealed : FileRef; next : FileRef; next_id : Z }.

(** [createDataFileForWrite] and [sync_directory]. *)
Definition create_active_file (file_id : Z) : io DB FileRef :=
  _ ← syscall "WritableFileOps: open failed";
  _ ← modify (fun db => set_heap (<[file_id := mkDataFile (stem_of file_id) [] 0 0 0 0 false]> (heap db)) db);
  _ ← on_file file_id (adopt 0 rotation_threshold);
  _ ← syscall "sync_directory failed";
  mret file_id.

(** [openDataFileForRead]: a read-only object ends where the file does. *)
Definition open_for_read (r : FileRef) : io DB FileRef :=
  _ ← syscall "open failed";
  _ ← on_file r (update_file (fun f => set_logical_end (size (content f)) f));
  mret r.

(** The working copy keeps the id it reserved when a later step throws. *)
Definition prepare_rotation (t : TransientEngineState)
    : io DB (result PreparedRotation * TransientEngineState) :=
  old ← attempt (r ← lift (active_ref (t_files t) (t_active_file_id t));
                 _ ← on_file r shrink_to_fit;
                 open_for_read r);
  match old with
  | Err ex => mret (Err ex, t)
  | Ok read_only_old =>
      match reserve_file_id t with
      | Err ex => mret (Err ex, t)
      | Ok (new_file_id, t) =>
          new ← attempt (create_active_file new_file_id);
          mret (match new with
                | Ok new_file => Ok (mkRotation read_only_old new_file new_file_id)
                | Err ex => Err ex
                end, t)
      end
  end.

Definition dispatch_hint (r : FileRef) : io DB unit :=
  modify (fun db => set_hint_queue (hint_queue db ++ [r]) db).

Definition finish_rotation (t : TransientEngineState) (r : PreparedRotation)
    : io DB TransientEngineState :=
  let t := apply_rotate_file (sealed r) (next r) (next_id r) t in
  _ ← dispatch_hint (sealed r);
  mret t.

End rotation.
