(* ===== verification/Vacuum.v ===== *)
(** * Vacuum

    Models [db_vacuum.cpp]: choosing a sealed file, copying what must be kept
    of it to a staged file, placing the copy, committing the move and unlinking
    the source.

    Vacuum holds [write_mu_] only where it opens a barrier; in between other
    threads write, rotate and flush.  What they do is a list of transformations
    of the engine and of the directory, one taken at each place where vacuum
    takes the lock.  The loads of [cancel] and the names the clock gives are
    inputs too.

    The directory is a [Disk]: the contents of a file the engine has open are
    those of its file object in the heap, the directory keeps the staged and the
    placed copy and the names.  The buffer pool, the change index and counters
    are not modelled.  A name that is already in use ends the process; the model
    throws there. *)

From Stdlib Require Import SpecFloat.
From S2P Require Import Prelude Codec HintFile KeyDir DataFile FileScan EngineState Hints Recovery RecoveryOpen Db.
Import Serialization Types Stats Dir.

(** ** State *)

Record VacuumOptions : Type := mkVacuumOptions {
  fragmentation_threshold : spec_float;
  retain_after : Z
}.

Record Vac : Type := mkVac {
  v_db : DB;
  v_dir : Disk;
  v_others : list (DB * Disk -> DB * Disk);   (* what other threads do next *)
  v_cancel : list bool;            (* what the coming loads of [cancel] give *)
  v_stems : list string            (* the names the clock gives *)
}.

Definition set_v_db (x : DB) (v : Vac) : Vac := mkVac x (v_dir v) (v_others v) (v_cancel v) (v_stems v).
Definition set_v_dir (x : Disk) (v : Vac) : Vac := mkVac (v_db v) x (v_others v) (v_cancel v) (v_stems v).

(** Operations of the engine, and of the directory. *)
Definition on_db {A} (m : io DB A) : io Vac A := fun v => let '(a, db) := m (v_db v) in (a, set_v_db db v).
Definition on_dir {A} (m : io Disk A) : io Vac A := fun v => let '(a, d) := m (v_dir v) in (a, set_v_dir d v).

(** Other threads run before this one takes [write_mu_] again. *)
Definition interleave : io Vac unit := fun v =>
  match v_others v with
  | [] => (Ok (), v)
  | f :: fs => let '(db, d) := f (v_db v, v_dir v) in (Ok (), mkVac db d fs (v_cancel v) (v_stems v))
  end.

Definition vacuum_cancelled : io Vac bool := fun v =>
  match v_cancel v with
  | [] => (Ok false, v)
  | b :: bs => (Ok b, mkVac (v_db v) (v_dir v) (v_others v) bs (v_stems v))
  end.

Definition make_data_file_stem : io Vac string := fun v =>
  match v_stems v with
  | [] => (Err (LogicError "no stem"), v)
  | s :: ss => (Ok s, mkVac (v_db v) (v_dir v) (v_others v) (v_cancel v) ss)
  end.

(** [load_state_for_write], without the lock: others may have run. *)
Definition load_state_for_write : io Vac EngineState := _ ← interleave; on_db load_state.

(** [WriteBarrier barrier]: the lock and the flush role for the extent of [m]. *)
Definition with_barrier {A} (m : io DB A) : io Vac A := _ ← interleave; on_db (with_role m).

(** ** Choosing a file *)

(** [static_cast<double>] of an unsigned integer, and the quotient. *)
Definition double_of (z : Z) : spec_float := binary_normalize 53 1024 z 0 false.
Definition fragmentation (fs : FileStats) : spec_float :=
  SFdiv 53 1024 (double_of (reclaimable_bytes fs)) (double_of (total_bytes fs)).

Definition candidate (opts : VacuumOptions) (active_id : Z) (p : Z * FileStats) : option (spec_float * Z) :=
  let '(fid, fs) := p in
  if fid =? active_id then None
  else if total_bytes fs =? 0 then None
  else if retain_after opts <? min_sequence fs then None
  else
    let frag := fragmentation fs in
    if SFltb (double_of 0) frag && SFltb (fragmentation_threshold opts) frag then Some (frag, fid) else None.

(** [std::greater<>] on the pairs. *)
Definition candidate_ge (a b : spec_float * Z) : Prop :=
  negb (SFltb a.1 b.1 || negb (SFltb b.1 a.1) && (a.2 <? b.2)) = true.
#[export] Instance candidate_ge_dec : RelDecision candidate_ge.
Proof. intros a b. unfold candidate_ge. apply _. Defined.

Definition candidates (opts : VacuumOptions) (active_id : Z) (stats : gmap Z FileStats) : list (spec_float * Z) :=
  merge_sort candidate_ge (omap (candidate opts active_id) (map_to_list stats)).

(** ** Copying *)

(** [NeededTombstones::droppable]. *)
Definition droppable (nt : NeededTombstones) (seq : Z) : bool :=
  (seq <=? nt_horizon nt) && negb (bool_decide (seq ∈ nt_sequences nt)).

(** Runs an operation of the staged file. *)
Definition on_staged {A} (stem : string) (m : io FileIO A) : io Vac A :=
  on_dir (fun d =>
    match d_data_tmp d !! stem with
    | Some f =>
        let '(a, s) := m (mkFileIO f (d_oracle d)) in
        (a, set_disk_oracle (fio_oracle s) (set_data_tmp (<[stem := fio_file s]> (d_data_tmp d)) d))
    | None => (Err no_such_file, d)
    end).

Definition track_seq (seq : Z) (r : VacuumScanResult) : VacuumScanResult :=
  mkScan (cancelled r) (mappings r) (vs_live_bytes r) (vs_total_bytes r)
    (if vs_min_sequence r =? 0 then seq else vs_min_sequence r) (Z.max (vs_max_sequence r) seq)
    (vs_tombstone_bytes r) (vs_marker_bytes r) (vs_change_marker_bytes r) (tombstones_dropped r).

(** The counters of a copied entry. *)
Definition count_live (m : VacuumMapping) (sz : Z) (r : VacuumScanResult) : VacuumScanResult :=
  mkScan (cancelled r) (mappings r ++ [m]) (u64_add (vs_live_bytes r) sz) (u64_add (vs_total_bytes r) sz) (vs_min_sequence r)
    (vs_max_sequence r) (vs_tombstone_bytes r) (vs_marker_bytes r) (vs_change_marker_bytes r) (tombstones_dropped r).
Definition count_dead (sz : Z) (r : VacuumScanResult) : VacuumScanResult :=
  mkScan (cancelled r) (mappings r) (vs_live_bytes r) (u64_add (vs_total_bytes r) sz) (vs_min_sequence r)
    (vs_max_sequence r) (vs_tombstone_bytes r) (vs_marker_bytes r) (vs_change_marker_bytes r) (tombstones_dropped r).
Definition count_tombstone (sz : Z) (r : VacuumScanResult) : VacuumScanResult :=
  mkScan (cancelled r) (mappings r) (vs_live_bytes r) (u64_add (vs_total_bytes r) sz) (vs_min_sequence r)
    (vs_max_sequence r) (u64_add (vs_tombstone_bytes r) sz) (vs_marker_bytes r) (vs_change_marker_bytes r) (tombstones_dropped r).
Definition count_change_marker (sz : Z) (r : VacuumScanResult) : VacuumScanResult :=
  mkScan (cancelled r) (mappings r) (vs_live_bytes r) (u64_add (vs_total_bytes r) sz) (vs_min_sequence r)
    (vs_max_sequence r) (vs_tombstone_bytes r) (vs_marker_bytes r) (u64_add (vs_change_marker_bytes r) sz) (tombstones_dropped r).
Definition count_marker (sz : Z) (r : VacuumScanResult) : VacuumScanResult :=
  mkScan (cancelled r) (mappings r) (vs_live_bytes r) (u64_add (vs_total_bytes r) sz) (vs_min_sequence r)
    (vs_max_sequence r) (vs_tombstone_bytes r) (u64_add (vs_marker_bytes r) sz) (vs_change_marker_bytes r) (tombstones_dropped r).
Definition count_dropped (r : VacuumScanResult) : VacuumScanResult :=
  mkScan (cancelled r) (mappings r) (vs_live_bytes r) (vs_total_bytes r) (vs_min_sequence r) (vs_max_sequence r)
    (vs_tombstone_bytes r) (vs_marker_bytes r) (vs_change_marker_bytes r) (tombstones_dropped r + 1).
Definition set_cancelled (r : VacuumScanResult) : VacuumScanResult :=
  mkScan true (mappings r) (vs_live_bytes r) (vs_total_bytes r) (vs_min_sequence r) (vs_max_sequence r)
    (vs_tombstone_bytes r) (vs_marker_bytes r) (vs_change_marker_bytes r) (tombstones_dropped r).

Definition VacuumScanResult_zero : VacuumScanResult := mkScan false [] 0 0 0 0 0 0 0 0.

(** An entry still at the place the key directory names. *)
Definition is_live (kd : KeyDirTree) (file_id off : Z) (key : bytes) : bool :=
  match kd_get kd key with
  | Some existing => (KeyDirEntry.file_id existing =? file_id) && (KeyDirEntry.file_offset existing =? off)
  | None => false
  end.

Section vacuum.
Context `{Zstd} `{Crc32c} `{KeyDirKind} (rotation_threshold : Z) (needed_tombstones : NeededTombstones).

(** The [emit_entry] lambda. *)
Definition emit_entry (snap : EngineState) (stem : string) (file_id : Z) (retain : Z) (p : DataEntry * Z) (r : VacuumScanResult)
    : io Vac VacuumScanResult :=
  let '(e, off) := p in
  let append k v := on_staged stem (append_entry (mkDataEntry (de_sequence e) (de_type e) k v)) in
  let sz := entry_size (size (de_key e)) (size (de_value e)) in
  match de_type e with
  | Put =>
      if is_live (key_dir snap) file_id off (de_key e) then
        new_off ← append (de_key e) (de_value e);
        val_size ← lift (narrow 32 (size (de_value e)));
        mret (track_seq (de_sequence e) (count_live (mkMapping (de_key e) new_off (de_sequence e) val_size) sz r))
      else if retain <? de_sequence e then
        _ ← append (de_key e) (de_value e);
        mret (track_seq (de_sequence e) (count_dead sz r))
      else mret r
  | Delete | RangeDel =>
      if (de_sequence e <=? retain) && droppable needed_tombstones (de_sequence e) then mret (count_dropped r)
      else
        _ ← append (de_key e) (de_value e);
        mret (track_seq (de_sequence e) (count_tombstone sz r))
  | EChangeMarker =>
      _ ← append [] (de_value e);
      mret (track_seq (de_sequence e) (count_change_marker (entry_size 0 (size (de_value e))) r))
  | BulkBegin | BulkEnd =>
      _ ← append [] [];
      mret (track_seq (de_sequence e) (count_marker (entry_size 0 0) r))
  | _ => mret r
  end.

(** The loop over the committed entries, and how the sweep ends.  One outcome
    stands for the reads an entry costs: the sweep's, and those of a key
    directory that reads keys off the disk. *)
Fixpoint copy_entries (snap : EngineState) (stem : string) (file_id retain : Z) (es : list (DataEntry * Z)) (err : option exn)
    (r : VacuumScanResult) : io Vac VacuumScanResult :=
  _ ← on_dir (disk_call "pread");
  match es with
  | [] => match err with Some ex => throw ex | None => mret r end
  | p :: es =>
      stop ← vacuum_cancelled;
      if stop : bool then mret (set_cancelled r)
      else
        r ← emit_entry snap stem file_id retain p r;
        copy_entries snap stem file_id retain es err r
  end.

Definition vacuum_scan_and_copy (snap : EngineState) (source : DataFile) (stem : string) (source_file_id : Z) (opts : VacuumOptions)
    : io Vac VacuumScanResult :=
  let committed := scan_committed source 0 DamageThrow in
  copy_entries snap stem source_file_id (retain_after opts) (cs_entries committed) (cs_error committed) VacuumScanResult_zero.

(** ** Committing *)

Definition kVacuumSyncFailed : string :=
  "vacuum fdatasync failed: writes acknowledged without sync are not confirmed durable. Call resume() to recover.".

(** [sync_active_file]: what the head holds becomes durable, or the engine
    degrades. *)
Definition sync_active_file (t : TransientEngineState) (current : EngineState) (reason : string) : io DB TransientEngineState :=
  r ← lift (active_ref (t_files t) (t_active_file_id t));
  _ ← try_catch (sync_file r) (fun ex => _ ← degrade_transient t current reason; throw ex);
  mret (apply_sync (if 0 <? t_next_seq t then t_next_seq t - 1 else 0) t).

Definition vacuum_commit (old_file_id : Z) (scan : VacuumScanResult) (new_sealed_file : option FileRef) (dest_file_id decided_at : Z)
    : io DB unit :=
  current ← load_state;
  let t := transient current in
  t ← (if t_durable_seq t <? decided_at then
         no ← gets (refused current);
         reason ← gets degraded_reason_of;
         _ ← lift (throw_if no (DbDegraded reason));
         sync_active_file t current kVacuumSyncFailed
       else mret t);
  t ← lift (apply_vacuum old_file_id scan new_sealed_file dest_file_id t);
  store_state current (persistent t).

(** ** Files *)

Definition source_of (snap : EngineState) (file_id : Z) : io Vac DataFile :=
  v ← gets v_db;
  lift (match files snap !! file_id with
        | Some r => match heap v !! r with Some f => Ok f | None => Err (LogicError "no such file object") end
        | None => Err (LogicError "no such file id")
        end).

Definition total_of (snap : EngineState) (file_id : Z) : result Z :=
  match file_stats snap !! file_id with
  | Some fs => Ok (total_bytes fs)
  | None => Err (LogicError "no such file id")
  end.

Definition vacuum_unlink_old_file (snap : EngineState) (file_id : Z) : io Vac unit :=
  old ← source_of snap file_id;
  on_dir (_ ← disk_call "remove";
          _ ← modify (fun d => set_data (delete (path old) (d_data d)) d);
          _ ← disk_call "remove";
          modify (fun d => set_hints (delete (path old) (d_hints d)) d)).

(** What the scan saw: everything below the snapshot's next sequence. *)
Definition decided_at (snap : EngineState) : Z := if 0 <? next_seq snap then next_seq snap - 1 else 0.

Definition vacuum_remove_file (file_id : Z) : io Vac unit :=
  snap ← load_state_for_write;
  _ ← lift (total_of snap file_id);
  _ ← with_barrier (vacuum_commit file_id VacuumScanResult_zero None 0 (decided_at snap));
  vacuum_unlink_old_file snap file_id.

(** A name [CopyCleanup] removes, whatever becomes of the removal. *)
Inductive CopyPath : Type := StagedData (stem : string) | PlacedHintTmp (stem : string) | PlacedHint (stem : string) | PlacedData (stem : string).

Definition remove_path (p : CopyPath) : io Disk unit :=
  _ ← disk_call "remove";
  modify (fun d =>
    match p with
    | StagedData s => set_data_tmp (delete s (d_data_tmp d)) d
    | PlacedHintTmp s => set_tmp (d_tmp d ∖ {[s]}) d
    | PlacedHint s => set_hints (delete s (d_hints d)) d
    | PlacedData s => set_data (delete s (d_data d)) d
    end).

Definition cleanup (paths : list CopyPath) : io Vac unit :=
  for_each paths (fun p => _ ← on_dir (attempt (remove_path p)); mret ()).

Definition is_panic (x : exn) : bool := match x with Panic _ => true | _ => false end.

(** The extent of [CopyCleanup] over [m], which returns early with [inl].  A
    process that ends runs no destructor. *)
Definition guarded {A} (paths : list CopyPath) (m : io Vac (bool + A)) : io Vac (bool + A) :=
  r ← try_catch m (fun ex => _ ← (if is_panic ex then mret () else cleanup paths); throw ex);
  match r with
  | inl b => _ ← cleanup paths; mret (inl b)
  | inr a => mret (inr a)
  end.

(** [createDataFileForWrite] of the staged file. *)
Definition create_staged (stem : string) : io Vac unit :=
  hint ← on_dir (gets (fun d => d_hints d !! stem));
  _ ← lift (throw_if (bool_decide (is_Some hint)) (Panic "data file stem is already sealed"));
  tmp ← on_dir (gets (fun d => d_data_tmp d !! stem));
  _ ← lift (throw_if (bool_decide (is_Some tmp)) (Panic "data file already exists"));
  _ ← on_dir (disk_call "WritableFileOps: open failed");
  _ ← on_dir (modify (fun d => set_data_tmp (<[stem := mkDataFile stem [] 0 0 0 0 false]> (d_data_tmp d)) d));
  on_staged stem (adopt 0 rotation_threshold).

(** [renameDataFileExclusive]. *)
Definition rename_exclusive (stem : string) : io Disk unit :=
  taken ← gets (fun d => d_data d !! stem);
  _ ← lift (throw_if (bool_decide (is_Some taken)) (Panic "data file already exists"));
  _ ← disk_call "renameDataFileExclusive: cannot rename";
  f ← gets (fun d => d_data_tmp d !! stem);
  match f with
  | Some f => modify (fun d => set_data_tmp (delete stem (d_data_tmp d)) (set_data (<[stem := f]> (d_data d)) d))
  | None => throw no_such_file
  end.

(** Up to the rename: the scan, or an early return. *)
Definition compact_stage (snap : EngineState) (file_id : Z) (stem : string) (opts : VacuumOptions)
    : io Vac (bool + VacuumScanResult) :=
  old_file ← source_of snap file_id;
  _ ← create_staged stem;
  scan ← vacuum_scan_and_copy snap old_file stem file_id opts;
  if cancelled scan then mret (inl false)
  else
    _ ← on_staged stem sync;
    _ ← on_staged stem shrink_to_fit;
    old_total ← lift (total_of snap file_id);
    if old_total <=? vs_total_bytes scan then mret (inl false)
    else if vs_total_bytes scan =? 0 then
      _ ← vacuum_remove_file file_id;
      mret (inl true)
    else
      _ ← on_dir (rename_exclusive stem);
      mret (inr scan).

(** The destination id, published before the file is opened under it. *)
Definition reserve_dest : io DB Z :=
  current ← load_state;
  '(id, t) ← lift (reserve_file_id (transient current));
  _ ← store_state current (persistent t);
  mret id.

(** [openDataFileForRead] of the placed copy: what of it is on disk is what was
    when it was staged. *)
Definition open_placed (stem : string) (id : Z) : io Vac DataFile :=
  _ ← on_dir (open_data stem);
  f ← on_dir (gets (fun d => d_data d !! stem));
  f ← lift (match f with
            | Some f => Ok (mkDataFile stem (content f) (size (content f)) 0 0 (synced_end f) (sync_failed f))
            | None => Err no_such_file
            end);
  _ ← on_db (modify (fun db => set_heap (<[id := f]> (heap db)) db));
  mret f.

(** From the rename to the commit. *)
Definition compact_place (snap : EngineState) (file_id : Z) (stem : string) (scan : VacuumScanResult) : io Vac (bool + unit) :=
  _ ← on_dir (disk_call "sync_directory");
  stop ← vacuum_cancelled;
  if stop : bool then mret (inl false)
  else
    dest ← with_barrier reserve_dest;
    new_file ← open_placed stem dest;
    _ ← on_dir (flush_hints_for new_file None);
    _ ← with_barrier (vacuum_commit file_id scan (Some dest) dest (decided_at snap));
    mret (inr ()).

Definition vacuum_compact_file (file_id : Z) (opts : VacuumOptions) : io Vac bool :=
  snap ← load_state_for_write;
  _ ← lift (throw_if (KeyDirEntry.kMaxFileId <? next_file_id snap) file_ids_exhausted);
  stem ← make_data_file_stem;
  staged ← guarded [StagedData stem] (compact_stage snap file_id stem opts);
  match staged with
  | inl b => mret b
  | inr scan =>
      placed ← guarded [PlacedHintTmp stem; PlacedHint stem; PlacedData stem] (compact_place snap file_id stem scan);
      match placed with
      | inl b => mret b
      | inr _ => _ ← vacuum_unlink_old_file snap file_id; mret true
      end
  end.

(** ** The entry point *)

(** [worker_.drain()]: every hint task has run; one that throws leaves its
    hint to recovery. *)
Definition drain_hints : io Vac unit :=
  refs ← on_db (gets hint_queue);
  objects ← on_db (gets heap);
  _ ← for_each refs (fun r =>
        match objects !! r with
        | Some f => _ ← on_dir (attempt (flush_hints_for f None)); mret ()
        | None => mret ()
        end);
  on_db (modify (set_hint_queue [])).

(** The loop over the candidates. *)
Fixpoint vacuum_loop (opts : VacuumOptions) (stats : gmap Z FileStats) (cs : list (spec_float * Z)) : io Vac bool :=
  match cs with
  | [] => mret false
  | (_, fid) :: cs =>
      stop ← vacuum_cancelled;
      if stop : bool then mret false
      else
        let target := default FileStats_zero (stats !! fid) in
        if (live_bytes target =? 0) && (tombstone_bytes target =? 0) && (change_marker_bytes target =? 0)
           && (max_sequence target <=? retain_after opts) then
          _ ← vacuum_remove_file fid; mret true
        else
          done_ ← vacuum_compact_file fid opts;
          if done_ : bool then mret true else vacuum_loop opts stats cs
  end.

Definition vacuum (opts : VacuumOptions) : io Vac bool :=
  s ← on_db load_state;
  no ← on_db (gets (refused s));
  reason ← on_db (gets degraded_reason_of);
  _ ← lift (throw_if (closed s) DbClosed);
  _ ← lift (throw_if no (DbDegraded reason));
  _ ← drain_hints;
  s ← load_state_for_write;
  vacuum_loop opts (file_stats s) (candidates opts (active_file_id s) (file_stats s)).
End vacuum.
