(* ===== verification/Commit.v ===== *)
(** * The commit path

    Models [db_commit.cpp] and [DB::apply_batch] ([db.cpp]): stage 1 runs a
    batch of slots under [write_mu_] (validate, prepare, apply in memory, one
    append for all of them, then the new head or a rotation); stage 2 waits
    until a flush covers the slot; a slot that appended nothing settles on
    what its outcome rests on.  [WriteGroup::run_batch] and
    [SoloWriter::submit] ([concurrency.cppm]) turn what a batch throws into
    each slot's error. *)

From S2P Require Import Prelude Codec KeyDir DataFile EngineState Db.
Import Serialization Types Stats Dir Plan.

(** ** Slots *)

Record CommitResult : Type := mkCommitResult { cr_sequence : Z; cr_durable : bool }.

Record EngineSlot : Type := mkSlot {
  s_plan : WritePlan;
  s_sync : bool;                      (* opts.sync *)
  s_result : option CommitResult;
  s_err : option exn;
  s_rests_on : Z;
  s_sync_through : Z
}.

Definition new_slot (p : WritePlan) (sync : bool) : EngineSlot := mkSlot p sync None None 0 0.

Definition set_result (r : option CommitResult) (s : EngineSlot) : EngineSlot :=
  mkSlot (s_plan s) (s_sync s) r (s_err s) (s_rests_on s) (s_sync_through s).
Definition set_err (x : exn) (s : EngineSlot) : EngineSlot :=
  mkSlot (s_plan s) (s_sync s) (s_result s) (Some x) (s_rests_on s) (s_sync_through s).
Definition set_rests_on (n : Z) (s : EngineSlot) : EngineSlot :=
  mkSlot (s_plan s) (s_sync s) (s_result s) (s_err s) n (s_sync_through s).
Definition set_sync_through (n : Z) (s : EngineSlot) : EngineSlot :=
  mkSlot (s_plan s) (s_sync s) (s_result s) (s_err s) (s_rests_on s) n.

(** [for (auto *s : batch) if (!s->err) s->err = ex;]. *)
Definition fail_slot (x : exn) (s : EngineSlot) : EngineSlot :=
  match s_err s with None => set_err x s | Some _ => s end.
Definition fail_slots (x : exn) (batch : list EngineSlot) : list EngineSlot := fail_slot x <$> batch.

(** [result->durable] once the batch's durability is known. *)
Definition set_durable (durable_seq : Z) (s : EngineSlot) : EngineSlot :=
  match s_result s with
  | Some r => set_result (Some (mkCommitResult (cr_sequence r) (cr_sequence r <=? durable_seq))) s
  | None => s
  end.

(** The settings of a DB. *)
Record Settings : Type := mkSettings {
  rotation_threshold : Z;
  write_limits : DataFile.Limits;
  max_group_file_bytes : Z;
  max_batch_bytes : Z;
  stem_of : Z -> string
}.

(** ** Stage 1: one slot *)

(** What stage 1 of a group builds up. *)
Record Stage : Type := mkStage {
  st_t : TransientEngineState;
  st_entries : list DataEntry;
  st_offset : Z                       (* running_offset *)
}.

Section commit.
Context `{Crc32c} `{KeyDirKind} (cfg : Settings).

(** [entries.back().sequence]. *)
Definition last_sequence (es : list DataEntry) : Z :=
  match last es with Some e => de_sequence e | None => 0 end.

(** The offsets of the entries from [off] on, and the offset past them. *)
Fixpoint place_entries (off : Z) (es : list DataEntry) : list Z * Z :=
  match es with
  | [] => ([], off)
  | e :: es' =>
      let '(offs, fin) := place_entries (off + entry_size (size (de_key e)) (size (de_value e))) es' in
      (off :: offs, fin)
  end.

(** Applies the plan, by the checked descents where they can confirm it; a plan
    they could not confirm is checked in a pass of its own.  [inr]: the plan
    conflicts, with what it rests on. *)
Definition apply_slot (t : TransientEngineState) (p : WritePlan) (offsets : list Z) (checked : bool)
    : result (TransientEngineState + Z) :=
  done ← (if checked then apply_puts_checked p offsets t else Ok (false, t));
  let '(confirmed, t) := done in
  if confirmed : bool then Ok (inl t)
  else if checked then
    let '(ok, r) := validate_preconditions t p false in
    if ok : bool then (t ← apply_writes p offsets t; Ok (inl t)) else Ok (inr r)
  else (t ← apply_writes p offsets t; Ok (inl t)).

Definition execute_slot (can_rotate : bool) (st : Stage) (slot : EngineSlot)
    : result (Stage * EngineSlot) :=
  let p := s_plan slot in
  if is_empty p then Ok (st, set_result (Some (mkCommitResult 0 false)) slot)
  else
    let conflict r := Ok (st, set_result None (set_rests_on r slot)) in
    let checked := can_apply_puts_checked p in
    let '(ok, rests_on) := validate_preconditions (st_t st) p checked in
    if negb ok then conflict rests_on
    else
      let entries := prepare_write (st_t st) p in
      match entries with
      | [] => Ok (st, set_result (Some (mkCommitResult 0 false)) (set_rests_on rests_on slot))
      | _ =>
          if KeyDirEntry.kMaxSequence <? last_sequence entries then
            Ok (st, set_err (RuntimeError "sequence space exhausted") slot)
          else if negb can_rotate && (rotation_threshold cfg <=? st_offset st + write_bytes p) then
            Ok (st, set_err file_ids_exhausted slot)
          else
            let '(offsets, next_offset) := place_entries (st_offset st) entries in
            applied ← apply_slot (st_t st) p offsets checked;
            match applied with
            | inr r => conflict r
            | inl t =>
                Ok (mkStage t (st_entries st ++ entries) next_offset,
                    set_result (Some (mkCommitResult (last_sequence entries) false)) slot)
            end
      end.

(** The loop over the slots of a group: it ends before a slot that would take
    the file past the packed offset; the first slot always fits.  A key
    directory that holds no key bytes reads records to place keys and check
    guards, which may fail ([reads]); nothing has been appended then. *)
Fixpoint stage_slots (can_rotate : bool) (first : bool) (batch : list EngineSlot) (st : Stage)
    : io DB (list EngineSlot * result Stage) :=
  match batch with
  | [] => mret ([], Ok st)
  | slot :: batch' =>
      if negb first && (max_group_file_bytes cfg <? st_offset st + write_bytes (s_plan slot))
      then mret ([], Ok st)
      else
        r ← attempt (_ ← when kKeyDirReadsKeys (syscall "bytecask: read of a key's record failed");
                     lift (execute_slot can_rotate st slot));
        match r with
        | Ok (st, slot) =>
            '(slots, st) ← stage_slots can_rotate false batch' st;
            mret (slot :: slots, st)
        | Err ex => mret (batch, Err ex)
        end
  end.

(** ** Stage 1: a group *)

(** A sync slot that appended nothing waits for the head's last sequence. *)
Definition note_sync_through (head_last_seq durable : Z) (s : EngineSlot) : EngineSlot :=
  match s_result s with
  | Some r => if s_sync s && (cr_sequence r =? 0) && (durable <? head_last_seq)
              then set_sync_through head_last_seq s else s
  | None => s
  end.

Definition owes_sync_only (s : EngineSlot) : bool := negb (s_sync_through s =? 0).

(** Nothing was appended: durable at once, unless a flush is asked for. *)
Definition set_unappended (s : EngineSlot) : EngineSlot :=
  match s_result s with
  | Some r => set_result (Some (mkCommitResult (cr_sequence r) (s_sync_through s =? 0))) s
  | None => s
  end.

Definition rotation_reason : string :=
  "post-write rotation failed: active file is sealed but new file could not be created. Call resume() to recover.".
Definition rotation_sync_reason : string :=
  "rotation fdatasync failed: bytes in page cache but durability not confirmed. Call resume() to recover.".
Definition commit_sync_reason : string :=
  "commit fdatasync failed: bytes in page cache but durability not confirmed. Call resume() to recover.".
Definition append_reason : string := "append IO error: call resume() to recover.".

(** The error a batch gets when the flush its rotation waited on failed. *)
Definition rotation_refusal (db : DB) : exn :=
  match flush_error db with Some ex => ex | None => DbDegraded (degraded_reason_of db) end.

(** The rotation barrier of [commit_appended], under the flush role. *)
Definition commit_rotate (file : FileRef) (t : TransientEngineState) (batch : list EngineSlot)
    (any_sync : bool) (batch_max_seq : Z) : io DB (list EngineSlot) :=
  published ← load_state;
  no ← gets (refused published);
  if no : bool then ex ← gets rotation_refusal; mret (fail_slots ex batch)
  else
    synced ← attempt (sync_file file);
    match synced with
    | Err ex => _ ← degrade_from published rotation_sync_reason; mret (fail_slots ex batch)
    | Ok _ =>
        '(rotation, t) ← prepare_rotation (stem_of cfg) (rotation_threshold cfg)
                           (apply_sync batch_max_seq t);
        match rotation with
        | Err ex => _ ← degrade_transient t published rotation_reason; mret (fail_slots ex batch)
        | Ok rotation =>
            t ← finish_rotation t rotation;
            synced ← (if any_sync then attempt (sync_file file) else mret (Ok ()));
            match synced with
            | Err ex => _ ← degrade_from published commit_sync_reason; mret (fail_slots ex batch)
            | Ok _ =>
                let t := if any_sync then apply_sync batch_max_seq t else t in
                _ ← store_state published (persistent t);
                mret (set_durable (t_durable_seq t) <$> batch)
            end
        end
    end.

(** Everything after a group's entries reach the file. *)
Definition commit_appended (file : FileRef) (t : TransientEngineState) (batch : list EngineSlot)
    (any_sync : bool) (batch_max_seq : Z) : io DB (list EngineSlot) :=
  let t := if any_sync then note_sync_requested batch_max_seq t else t in
  rotate ← gets (fun db => is_rotation_needed (file_size db) t (rotation_threshold cfg));
  if negb rotate then _ ← store_head (persistent t); mret batch
  else with_role (commit_rotate file t batch any_sync batch_max_seq).

(** Why a state refuses writes: [is_write_allowed] is false. *)
Definition write_rejection (s : EngineState) : exn :=
  if closed s then DbClosed
  else if degraded s then DbDegraded (degraded_reason s)
  else DbFollowerMode.

Definition write_refusal (s : EngineState) (db : DB) : option exn :=
  if negb (is_write_allowed s) then Some (write_rejection s)
  else if write_fault db then Some (DbDegraded kWriteFaultReason)
  else None.

(** [t.next_seq() > 0 ? t.next_seq() - 1 : 0]. *)
Definition last_seq_of (t : TransientEngineState) : Z :=
  if 0 <? t_next_seq t then t_next_seq t - 1 else 0.

(** The tail of [execute_group], once phase 1 has run. *)
Definition finish_group (file : FileRef) (published : EngineState) (batch : list EngineSlot) (st : Stage)
    : io DB (list EngineSlot) :=
  let t := st_t st in
  let any_sync := existsb s_sync batch in
  let head_last_seq := last_seq_of t in
  let batch := note_sync_through head_last_seq (durable_seq published) <$> batch in
  match st_entries st with
  | [] =>
      _ ← when (existsb owes_sync_only batch)
            (store_head (persistent (note_sync_requested head_last_seq t)));
      mret (set_unappended <$> batch)
  | entries =>
      let batch_max_seq := u64_sub (t_next_seq t) 1 in
      appended ← attempt (on_file file (append_entries (write_limits cfg) entries));
      match appended with
      | Err ex =>
          _ ← attempt (sync_file file);
          _ ← degrade (with_role (s ← load_state; publish (degraded_copy s append_reason)));
          mret (fail_slots ex batch)
      | Ok _ =>
          done ← attempt (commit_appended file t batch any_sync batch_max_seq);
          match done with
          | Ok batch => mret batch
          | Err ex => _ ← refuse_writes; mret (fail_slots ex batch)
          end
      end
  end.

(** One group: the slots it took, as it left them.  If phase 1 threw, what it
    threw, and all slots of the batch as they were left then. *)
Definition execute_group (batch : list EngineSlot) : io DB (list EngineSlot * option exn) :=
  published ← load_state;
  refusal ← gets (write_refusal published);
  match refusal with
  | Some ex => mret (set_err ex <$> batch, None)
  | None =>
      current ← load_head;
      let t := transient current in
      file ← lift (active_ref (t_files t) (t_active_file_id t));
      initial_offset ← gets (fun db => file_size db file);
      let can_rotate := 0 <? file_ids_left t in
      '(taken, st) ← stage_slots can_rotate true batch (mkStage t [] initial_offset);
      match st with
      | Ok st => slots ← finish_group file published taken st; mret (slots, None)
      | Err ex => mret (taken, Some ex)
      end
  end.

(** Group after group until the batch is done; the exception of a group whose
    phase 1 threw ends the batch. *)
Fixpoint execute_slots (fuel : nat) (batch : list EngineSlot) : io DB (list EngineSlot * option exn) :=
  match fuel, batch with
  | O, _ | _, [] => mret (batch, None)
  | S fuel', _ =>
      r ← attempt (execute_group batch);
      match r with
      | Err ex => mret (batch, Some ex)
      | Ok (done, Some ex) => mret (done, Some ex)
      | Ok (done, None) =>
          '(rest, ex) ← execute_slots fuel' (drop (length done) batch);
          mret (done ++ rest, ex)
      end
  end.

(** [WriteGroup::run_batch], and [SoloWriter::submit] with one slot: what the
    executor throws becomes the error of every slot that has none. *)
Definition run_batch (batch : list EngineSlot) : io DB (list EngineSlot) :=
  '(slots, ex) ← execute_slots (length batch) batch;
  mret (match ex with Some x => fail_slots x slots | None => slots end).

(** ** Stage 2 *)

(** [Some]: the published state covers the slot. *)
Definition covered (slot : EngineSlot) (target : Z) (s : EngineState) : bool :=
  if s_sync slot then target <=? durable_seq s else target <? next_seq s.

Definition wait_target (slot : EngineSlot) : Z :=
  match s_result slot with
  | Some r => if cr_sequence r =? 0 then s_sync_through slot else cr_sequence r
  | None => 0
  end.

(** The loop of [commit_wait]: with the role free this thread flushes; a flush
    in flight is waited for, which here lands it. *)
Fixpoint commit_wait (fuel : nat) (slot : EngineSlot) : io DB (option EngineSlot) :=
  match fuel with
  | O => mret None
  | S fuel' =>
      let target := wait_target slot in
      published ← load_state;
      if covered slot target published then
        mret (Some (match s_result slot with
                    | Some r => set_result (Some (mkCommitResult (cr_sequence r)
                                                    (target <=? durable_seq published))) slot
                    | None => slot
                    end))
      else
        refusing ← gets (refused published);
        failed ← gets flush_error;
        match failed with
        | Some ex => throw ex
        | None =>
            if refusing : bool then (reason ← gets degraded_reason_of; throw (DbDegraded reason))
            else
              busy ← gets in_flight;
              _ ← match busy with None => flush_start | Some _ => mret () end;
              _ ← flush_finish;
              commit_wait fuel' slot
        end
  end.

(** [settle_unappended].  [wait_published] blocks until the flush of the
    entry's own writer publishes it or fails: [waited] is the state then. *)
Definition settle_unappended (waited : DB -> DB) (slot : EngineSlot) : io DB unit :=
  if s_rests_on slot =? 0 then mret ()
  else
    published ← load_state;
    if s_rests_on slot <? next_seq published then mret ()
    else
      let holds := (validate_preconditions (transient published) (s_plan slot) false).1 in
      if Bool.eqb holds (bool_decide (is_Some (s_result slot))) then mret ()
      else
        _ ← modify waited;
        now ← load_state;
        if s_rests_on slot <? next_seq now then mret ()
        else (reason ← gets degraded_reason_of; throw (DbDegraded reason)).

(** ** The single write path *)

Definition plan_too_large : exn := InvalidArgument "write plan exceeds the limit of bytes per write".

(** [apply_batch]: the plan, alone in its batch, through both stages.
    [commit_wait] needs at most three rounds. *)
Definition apply_batch (waited : DB -> DB) (sync : bool) (p : WritePlan) : io DB (option CommitResult) :=
  s ← load_state;
  refusal ← gets (write_refusal s);
  match refusal with
  | Some ex => throw ex
  | None =>
      if max_batch_bytes cfg <? write_bytes p then throw plan_too_large
      else if is_empty p && negb sync then mret (Some (mkCommitResult 0 true))
      else
        slots ← run_batch [new_slot (resolve_snapshot_entries p) sync];
        match slots with
        | [slot] =>
            match s_err slot with
            | Some ex => throw ex
            | None =>
                settled ← (match s_result slot with
                           | Some r => if negb (cr_sequence r =? 0) || negb (s_sync_through slot =? 0)
                                       then commit_wait 3 slot else mret (Some slot)
                           | None => mret (Some slot)
                           end);
                match settled with
                | Some slot => _ ← settle_unappended waited slot; mret (s_result slot)
                | None => throw (LogicError "commit_wait did not settle")
                end
            end
        | _ => throw (LogicError "a batch of one")
        end
  end.

End commit.
