(* ===== verification/Records.v ===== *)
(** * The records of the engine's files

    The records a key directory's locations name are those of the committed
    units of the file objects, the ones a committed sweep yields.  Appending
    keeps every record where it was. *)

From S2P Require Import Prelude Codec KeyDir DataFile DataFileProofs FileScan EngineState EngineProofs Db.
Import Serialization Types.

Section records.
Context `{Crc32cLaws}.

(** The record of a committed unit at an offset of a file of the heap. *)
Definition recs_of (h : gmap FileRef DataFile) : records := fun f o =>
  match h !! f with
  | Some file => (list_to_map (prod_swap <$> cs_entries (scan_committed file 0 DamageStop)) : gmap Z DataEntry) !! o
  | None => None
  end.

Definition heap_ok (h : gmap FileRef DataFile) : Prop := map_Forall (fun _ f => file_ok f) h.

Lemma recs_of_swept h f file o e :
  file_ok file -> h !! f = Some file -> recs_of h f o = Some e <-> (e, o) ∈ cs_entries (scan_committed file 0 DamageStop).
Proof.
  intros Hok Hf. unfold recs_of. rewrite Hf. rewrite <-elem_of_list_to_map.
  - rewrite list_elem_of_fmap. split; [intros ([e' o'] & [= -> ->] & ?); done|]. intros He. by exists (e, o).
  - destruct (scan_committed_parses file Hok) as (us & _ & _ & _ & _ & _ & Hscan). destruct (Hscan DamageStop) as [-> _].
    rewrite <-list_fmap_compose. apply (with_offsets_nodup 0 (concat us)).
Qed.

(** Its entry is in a unit the file starts with. *)
Lemma recs_of_spec h f file o e :
  file_ok file -> h !! f = Some file ->
  recs_of h f o = Some e
  <-> exists us pre post, starts_with file us /\ concat us = pre ++ e :: post /\ o = DataFile.total_bytes pre.
Proof.
  intros Hok Hf. rewrite (recs_of_swept h f file) by done. split.
  - destruct (scan_committed_parses file Hok) as (us & rest & Hl & Hu & Hsw & _ & Hscan). destruct (Hscan DamageStop) as [-> _].
    intros (pre & post & Hps)%list_elem_of_split. apply with_offsets_split in Hps as [Ho Hus]. cbn in Ho, Hus.
    exists us, pre.*1, post.*1. split; [split; try done; by exists rest|]. done.
  - intros (us & pre & post & Hs & Hus & ->). destruct (starts_with_scanned file us Hok Hs) as (us' & _ & Hscan).
    destruct (Hscan DamageStop) as [-> _]. rewrite concat_app, Hus, <-app_assoc, with_offsets_app. apply elem_of_app. right.
    cbn [app with_offsets offsets_from zip zip_with]. by left.
Qed.

(** Its image is in the file. *)
Lemma recs_of_image h f file o e :
  file_ok file -> h !! f = Some file -> recs_of h f o = Some e ->
  exists pre post, live file = pre ++ image e ++ post /\ size pre = o /\ DataEntry.valid_entry e.
Proof.
  intros Hok Hf (us & pre & post & [_ Hsw [rest Hl]] & Hus & ->)%(recs_of_spec h f file o e Hok Hf).
  exists (images pre), (images post ++ rest). split_and!.
  - by rewrite Hl, Hus, images_app, images_cons, <-!app_assoc.
  - by rewrite length_images.
  - rewrite Hus in Hsw. apply Forall_app in Hsw as [_ [[? _] _]%Forall_cons]. done.
Qed.

(** Records past the end there are none. *)
Lemma recs_of_below h f file o e :
  file_ok file -> h !! f = Some file -> recs_of h f o = Some e ->
  0 <= o /\ o + DataEntry.record_bytes e <= logical_end file.
Proof.
  intros Hok Hf (pre & post & Hl & <- & _)%(recs_of_image h f file o e Hok Hf).
  rewrite <-(length_live file Hok), Hl, !size_app, length_image. unfold size. lia.
Qed.

(** The end of a key's record. *)
Definition entry_end (k : bytes) (e : KeyDirEntry) : Z :=
  KeyDirEntry.file_offset e + entry_size (size k) (KeyDirEntry.value_size e).

(** Every record of file [f] ends at or below [off]. *)
Definition recs_within (R : records) (f off : Z) : Prop :=
  forall o e, R f o = Some e -> o + DataEntry.record_bytes e <= off.

Lemma entry_end_within R f off k e :
  recs_within R f off -> resolves R k e -> KeyDirEntry.file_id e = f -> entry_end k e <= off.
Proof.
  intros HR [_ (v & Hr & Hs)] Hf. rewrite Hf in Hr. apply HR in Hr. unfold entry_end, entry_size.
  unfold DataEntry.record_bytes in Hr. cbn in Hr. lia.
Qed.

Lemma recs_of_within h f file : file_ok file -> h !! f = Some file -> recs_within (recs_of h) f (logical_end file).
Proof. intros Hok Hf o e Hr. by apply (recs_of_below h f file o e Hok Hf). Qed.

(** ** More records *)

Definition recs_le (R R' : records) : Prop := forall f o e, R f o = Some e -> R' f o = Some e.

#[export] Instance recs_le_refl : Reflexive recs_le.
Proof. by intros R f o e. Qed.
#[export] Instance recs_le_trans : Transitive recs_le.
Proof. intros a b c H1 H2 f o e ?. by apply H2, H1. Qed.

(** A file whose readable bytes, and those on disk, only grew. *)
Definition grown (f f' : DataFile) : Prop :=
  file_ok f' /\ synced_end f <= synced_end f' /\ exists d, live f' = live f ++ d.

(** Every file is still there, grown. *)
Definition heap_le (h h' : gmap FileRef DataFile) : Prop :=
  forall f file, h !! f = Some file -> exists file', h' !! f = Some file' /\ grown file file'.

Lemma starts_with_grown f f' us : live f `prefix_of` live f' -> starts_with f us -> starts_with f' us.
Proof. intros Hp []. split; try done. by etrans. Qed.

Lemma recs_of_grown h h' f file file' o e :
  file_ok file -> file_ok file' -> h !! f = Some file -> h' !! f = Some file' -> live file `prefix_of` live file' ->
  recs_of h f o = Some e -> recs_of h' f o = Some e.
Proof.
  intros Hok Hok' Hf Hf' Hp (us & pre & post & Hs & Hus & Ho)%(recs_of_spec h f file); [|done|done].
  apply (recs_of_spec h' f file' o e Hok' Hf'). exists us, pre, post. split; [|done]. by eapply starts_with_grown.
Qed.

Lemma heap_le_recs h h' : heap_ok h -> heap_le h h' -> recs_le (recs_of h) (recs_of h').
Proof.
  intros Hok Hle f o e Hr. destruct (h !! f) as [file|] eqn:Hf; [|unfold recs_of in Hr; by rewrite Hf in Hr].
  destruct (Hle f file Hf) as (file' & Hf' & Hok' & _ & d & Hd).
  apply (recs_of_grown h h' f file file'); try done; [by apply (Hok f)|by exists d].
Qed.

Lemma grown_refl f : file_ok f -> grown f f.
Proof. intros ?. split; [done|]. split; [done|]. exists []. by rewrite app_nil_r. Qed.

Lemma heap_le_refl h : heap_ok h -> heap_le h h.
Proof. intros Hok f file Hf. exists file. split; [done|]. by apply grown_refl, (Hok _ _ Hf). Qed.

Lemma heap_le_trans a b c : heap_le a b -> heap_le b c -> heap_le a c.
Proof.
  intros H1 H2 f file Hf. destruct (H1 _ _ Hf) as (g & Hg & _ & Hs & d & Hd).
  destruct (H2 _ _ Hg) as (g' & Hg' & Hok & Hs' & d' & Hd'). exists g'. split; [done|]. split; [done|].
  split; [lia|]. exists (d ++ d'). by rewrite Hd', Hd, app_assoc.
Qed.

Lemma heap_le_insert h r f f' :
  heap_ok h -> h !! r = Some f -> grown f f' -> heap_le h (<[r := f']> h).
Proof.
  intros Hok Hr Hg x file Hx. destruct (decide (x = r)) as [->|Hne].
  - exists f'. rewrite lookup_insert_eq. split; [done|]. by simplify_eq.
  - exists file. rewrite lookup_insert_ne by done. split; [done|]. by apply grown_refl, (Hok _ _ Hx).
Qed.

Lemma heap_ok_insert h r f : heap_ok h -> file_ok f -> heap_ok (<[r := f]> h).
Proof. intros. by apply map_Forall_insert_2. Qed.

End records.

Lemma resolves_mono R R' k e : recs_le R R' -> resolves R k e -> resolves R' k e.
Proof. intros Hle [Ho (v & Hr & Hs)]. split; [done|]. exists v. split; [by apply Hle|done]. Qed.

Lemma wf_mono R R' t : recs_le R R' -> wf R t -> wf R' t.
Proof.
  intros Hle []. split; try done. eapply map_Forall_impl; [eassumption|]. intros k e. by apply resolves_mono.
Qed.

Lemma view_mono R R' kd : recs_le R R' -> kd_resolves R kd -> view R' kd = view R kd.
Proof.
  intros Hle Hkd. apply map_eq. intros k. unfold view. rewrite !lookup_omap.
  destruct (kd !! k) as [e|] eqn:E; [|done]. cbn [mbind option_bind].
  destruct (Hkd k e E) as [_ (v & Hr & _)]. unfold value_of. by rewrite (Hle _ _ _ Hr), Hr.
Qed.
