(* ===== verification/StageProofs.v ===== *)
(** * Stage 1 in memory

    What running the slots of a group on a working copy means, before any of
    their entries is in a file.  The records the new entries will be are
    those of any future in which they have been appended where stage 1 placed
    them; in every such future the working copy is well formed and denotes
    the store with the slots' writes applied in order. *)

From S2P Require Import Prelude Codec KeyDir DataFile DataFileProofs FileScan EngineState EngineProofs CheckedPuts Db Commit Records.
Import Serialization Types Stats Dir Plan.

(** ** Placed entries *)

(** The entries lie one after another from [off] of file [act]. *)
Definition placed_at (R : records) (act off : Z) (es : list DataEntry) : Prop :=
  Forall2 (fun e o => R act o = Some e) es (offsets_from off es).

Lemma placed_at_app R act off es es' :
  placed_at R act off (es ++ es')
  <-> placed_at R act off es /\ placed_at R act (off + DataFile.total_bytes es) es'.
Proof.
  unfold placed_at. rewrite offsets_from_app. split.
  - intros Hp. apply Forall2_app_inv in Hp; [done|by rewrite length_offsets_from].
  - intros []. by apply Forall2_app.
Qed.

Lemma placed_at_mono R R' act off es : recs_le R R' -> placed_at R act off es -> placed_at R' act off es.
Proof. intros Hle Hp. eapply Forall2_impl; [exact Hp|]. intros e o. apply Hle. Qed.

Lemma place_entries_spec off es :
  place_entries off es = (offsets_from off es, off + DataFile.total_bytes es).
Proof.
  revert off. induction es as [|e es IH]; intros off; cbn [place_entries offsets_from].
  - unfold DataFile.total_bytes. by rewrite lsum_nil, Z.add_0_r.
  - rewrite IH. unfold DataFile.total_bytes. rewrite lsum_cons. f_equal. unfold entry_size, DataEntry.record_bytes. lia.
Qed.

Lemma offsets_from_bounds off es :
  Forall (fun o => off <= o <= off + DataFile.total_bytes es - 19) (offsets_from off es).
Proof.
  unfold DataFile.total_bytes. revert off. induction es as [|e es IH]; intros off; cbn [offsets_from]; [constructor|].
  rewrite lsum_cons. pose proof (record_bytes_pos e). pose proof (total_bytes_nonneg es) as Hn.
  unfold DataFile.total_bytes in Hn. constructor; [lia|].
  eapply Forall_impl; [apply IH|]. cbn. lia.
Qed.

(** Past the last record, any entries can come to be. *)
Lemma future_exists R act off es :
  recs_within R act off ->
  exists R', recs_le R R' /\ placed_at R' act off es /\ recs_within R' act (off + DataFile.total_bytes es).
Proof.
  unfold DataFile.total_bytes. revert R off. induction es as [|e es IH]; intros R off Hno.
  { exists R. rewrite lsum_nil, Z.add_0_r. split_and!; [done|constructor|done]. }
  set (R1 := fun f o => if decide (f = act /\ o = off) then Some e else R f o).
  pose proof (record_bytes_pos e).
  destruct (IH R1 (off + DataEntry.record_bytes e)) as (R' & Hle & Hp & Hw).
  { intros o e'. unfold R1. case_decide as Hd; [intros [= <-]; lia|]. intros Hr%Hno. lia. }
  rewrite lsum_cons, Z.add_assoc. exists R'. split_and!; [..|done].
  - etrans; [|exact Hle]. intros f o e' Hr. unfold R1. destruct (decide _) as [[-> ->]|]; [|done].
    apply Hno in Hr. pose proof (record_bytes_pos e'). lia.
  - constructor; [|exact Hp]. apply Hle. unfold R1. by rewrite decide_True.
Qed.

(** ** Plans a caller can submit *)

Definition op_sized (w : WriteOp) : Prop :=
  match w with
  | PointPut k v => size k < 2 ^ 16 /\ size v <= KeyDirEntry.kMaxValueSize
  | PointDel k => size k < 2 ^ 16
  | OpRangeDel f t => size f < 2 ^ 16 /\ size t < 2 ^ 16
  end.

(** The bytes of a plan's entries. *)
Definition plan_bytes (p : WritePlan) : Z :=
  lsum op_bytes (writes p) + (if (1 <? length (writes p))%nat then 38 else 0).

(** Built within the limits, on a snapshot, if any, of this store taken at or
    before sequence [next], its entries resolved on that snapshot. *)
Record plan_ok (R : records) (next limit : Z) (p : WritePlan) : Prop := {
  po_sized : Forall op_sized (writes p);
  po_bytes : plan_bytes p <= limit;
  po_snap : forall s k e, snap p = Some s -> key_dir s !! k = Some e ->
              resolves R k e /\ KeyDirEntry.sequence e < next;
  po_entries : snap_entries p = match snap p with
                                | None => []
                                | Some _ => snap_entries (resolve_snapshot_entries p)
                                end
}.

Lemma plan_ok_resolved R next limit p i a :
  plan_ok R next limit p -> snap_entries p !! i = Some (Some a) ->
  KeyDirEntry.sequence a < next
  /\ forall w, writes p !! i = Some w -> resolves R (op_key w) a.
Proof.
  intros [_ _ Hs He] Hi. rewrite He in Hi. unfold resolve_snapshot_entries in Hi.
  destruct (snap p) as [s|] eqn:Es; [|by rewrite lookup_nil in Hi]. cbn [snap_entries] in Hi.
  rewrite list_lookup_fmap in Hi. destruct (writes p !! i) as [w|] eqn:Ew; [|done].
  destruct w as [k v|k|f to]; cbn in Hi; [| |done]; injection Hi as Hi;
    destruct (Hs s k a eq_refl Hi) as [Hr Hq]; split; [done|by intros w [= <-]|done|by intros w [= <-]].
Qed.

Lemma plan_ok_mono R R' next next' limit p :
  recs_le R R' -> next <= next' -> plan_ok R next limit p -> plan_ok R' next' limit p.
Proof.
  intros Hle Hn [H1 H2 H3 H4]. split; try done. intros s k e Hs Hk.
  destruct (H3 s k e Hs Hk). split; [by eapply resolves_mono|lia].
Qed.

(** ** A plan's entries *)

Lemma op_bytes_entry n w : DataEntry.record_bytes (op_entry n w) = op_bytes w.
Proof. by destruct w; cbn; unfold DataEntry.record_bytes, entry_size, size; cbn; lia. Qed.

Lemma ops_from_bytes n ws : DataFile.total_bytes (ops_from n ws) = lsum op_bytes ws.
Proof.
  unfold DataFile.total_bytes. revert n. induction ws as [|w ws IH]; intros n; [done|].
  cbn [ops_from]. by rewrite !lsum_cons, IH, op_bytes_entry.
Qed.

Lemma op_bytes_pos w : 19 <= op_bytes w.
Proof. pose proof (record_bytes_pos (op_entry 0 w)) as Hr. by rewrite op_bytes_entry in Hr. Qed.

Lemma plan_bytes_count p : 19 * Z.of_nat (length (writes p)) <= plan_bytes p.
Proof.
  unfold plan_bytes. assert (19 * Z.of_nat (length (writes p)) <= lsum op_bytes (writes p)).
  { induction (writes p) as [|w ws IH]; [done|]. rewrite lsum_cons. cbn [length].
    pose proof (op_bytes_pos w). lia. }
  destruct (1 <? length (writes p))%nat; lia.
Qed.

Lemma write_bytes_spec p : plan_bytes p < 2 ^ 64 -> write_bytes p = plan_bytes p.
Proof.
  unfold write_bytes, plan_bytes. intros Hb.
  assert (Hf : forall ws acc, 0 <= acc -> acc + lsum op_bytes ws < 2 ^ 64 ->
    foldl (fun acc w => u64_add acc (op_bytes w)) acc ws = acc + lsum op_bytes ws).
  { induction ws as [|w ws IH]; intros acc Ha Hlt; cbn [foldl]; [by rewrite lsum_nil, Z.add_0_r|].
    rewrite lsum_cons in *. pose proof (op_bytes_pos w). pose proof (lsum_nonneg op_bytes ws ltac:(intros x _; pose proof (op_bytes_pos x); lia)).
    rewrite wrap_small by (unfold fits; lia). rewrite IH by lia. lia. }
  pose proof (lsum_nonneg op_bytes (writes p) ltac:(intros x _; pose proof (op_bytes_pos x); lia)) as Hnn.
  destruct (1 <? length (writes p))%nat; rewrite Hf by lia; [|lia].
  rewrite wrap_small; unfold fits; change (2 * (Z.of_nat DataEntry.kHeaderSize + Z.of_nat DataEntry.kCrcSize)) with 38; lia.
Qed.

Section prepared.
Context (t : TransientEngineState) (p : WritePlan).
Context (Hn : 0 < t_next_seq t) (Hmax : last_assigned t p <= KeyDirEntry.kMaxSequence).

Lemma prepared_bytes : DataFile.total_bytes (prepare_write t p) = if decide (writes p = []) then 0 else plan_bytes p.
Proof.
  destruct (last_assigned_room t p Hmax) as [Hroom _].
  rewrite prepare_write_shape by lia. unfold plan_bytes.
  destruct (writes p) as [|w [|w' ws]]; [done| |].
  - rewrite decide_False by done. unfold DataFile.total_bytes. rewrite !lsum_cons, !lsum_nil, op_bytes_entry.
    cbn [length Nat.ltb Nat.leb]. lia.
  - rewrite decide_False by done. set (wl := w :: w' :: ws). replace (1 <? length wl)%nat with true by done.
    assert (Hc : forall e es, DataFile.total_bytes (e :: es) = DataEntry.record_bytes e + DataFile.total_bytes es)
      by done.
    rewrite Hc, total_bytes_app, ops_from_bytes, Hc.
    change (DataEntry.record_bytes (bulk_begin _)) with 19. change (DataEntry.record_bytes (bulk_end _)) with 19.
    change (DataFile.total_bytes []) with 0. lia.
Qed.

Lemma prepared_last :
  t_next_seq t + Z.of_nat (length (writes p)) + 2 < 2 ^ 64 -> writes p <> [] ->
  last_sequence (prepare_write t p) = last_assigned t p.
Proof using Hn.
  intros Hroom Hne. rewrite prepare_write_shape by lia. unfold last_assigned, last_sequence.
  destruct (writes p) as [|w [|w' ws]]; [done| |].
  - cbn [length Nat.ltb Nat.leb last]. destruct w; cbn; lia.
  - set (wl := w :: w' :: ws). replace (1 <? length wl)%nat with true by done.
    rewrite app_comm_cons, last_snoc. cbn. lia.
Qed.

Lemma ops_from_valid n ws :
  0 <= n -> n + Z.of_nat (length ws) <= KeyDirEntry.kMaxSequence + 1 -> Forall op_sized ws ->
  Forall DataEntry.valid_entry (ops_from n ws).
Proof.
  intros H0 Hb Hs. revert n H0 Hb. induction Hs as [|w ws Hw Hs IH]; intros n H0 Hb; cbn [ops_from length] in *; [constructor|].
  constructor; [|apply IH; lia].
  unfold KeyDirEntry.kMaxSequence in Hb. assert (Hf : fits 64 n) by (unfold fits; lia).
  destruct w as [k v|k|f to]; cbn [op_sized] in Hw; unfold KeyDirEntry.kMaxValueSize in *;
    split; cbn [op_entry de_sequence de_type de_key de_value]; try done; unfold fits, size in *; cbn [length]; lia.
Qed.

Lemma marker_valid n ty :
  0 <= n <= KeyDirEntry.kMaxSequence -> ty = BulkBegin \/ ty = BulkEnd ->
  DataEntry.valid_entry (mkDataEntry n ty [] []).
Proof.
  unfold KeyDirEntry.kMaxSequence. intros Hb [-> | ->]; split; cbn; try done; unfold fits; lia.
Qed.

Lemma prepared_valid : Forall op_sized (writes p) -> Forall DataEntry.valid_entry (prepare_write t p).
Proof.
  intros Hs. destruct (last_assigned_room t p Hmax) as [Hroom Hm].
  rewrite prepare_write_shape by lia. unfold last_assigned in Hmax.
  destruct (writes p) as [|w [|w' ws]]; [constructor| |].
  - apply (ops_from_valid _ [w]); [lia|done|done].
  - set (wl := w :: w' :: ws) in *. replace (1 <? length wl)%nat with true in Hmax by done.
    constructor; [apply marker_valid; [lia|auto]|]. apply Forall_app. split; [apply ops_from_valid; [lia|lia|done]|].
    constructor; [|constructor]. apply marker_valid; [lia|auto].
Qed.

Lemma prepared_sweepable : Forall op_sized (writes p) -> Forall sweepable (prepare_write t p).
Proof.
  intros Hs%prepared_valid. destruct (last_assigned_room t p Hmax) as [Hroom _].
  assert (Hops : forall z ws, 0 < z -> Forall (fun e => de_sequence e <> 0) (ops_from z ws)).
  { intros z ws. revert z. induction ws as [|w ws IH]; intros z Hz; constructor; [destruct w; cbn; lia|apply IH; lia]. }
  assert (Hseq : Forall (fun e => de_sequence e <> 0) (prepare_write t p)); [|apply Forall_and; by split].
  rewrite prepare_write_shape by lia. destruct (writes p) as [|w [|w' ws]]; [constructor|by apply (Hops _ [w])|].
  constructor; [cbn; lia|]. apply Forall_app. split; [apply Hops; lia|]. apply Forall_singleton. cbn. lia.
Qed.

(** One write is one entry; more are a batch between its markers. *)
Lemma prepared_unit : writes p <> [] -> unit_of (prepare_write t p).
Proof.
  intros Hne. destruct (last_assigned_room t p Hmax) as [Hroom _]. rewrite prepare_write_shape by lia.
  destruct (writes p) as [|w [|w' ws]]; [done|constructor; by destruct w|]. apply unit_batch; [done|done|].
  generalize (w :: w' :: ws) as wl, (t_next_seq t + 1). induction wl as [|x wl IH]; intros z; constructor; [by destruct x|apply IH].
Qed.

End prepared.

(** ** Pending records *)

Lemma pending_slot_inj act o o' :
  0 <= o < 2 ^ 32 -> 0 <= o' < 2 ^ 32 -> pending_slot act o = pending_slot act o' -> o = o'.
Proof.
  intros Ho Ho' E.
  assert (Hlow : forall x, 0 <= x < 2 ^ 32 -> pending_slot act x mod 2 ^ 32 = x).
  { intros x Hx. unfold pending_slot. rewrite <-Z.land_ones, Z.land_lor_distr_l by lia.
    rewrite (Z.land_ones x), (Z.mod_small x) by lia. unfold wrap.
    rewrite Z.land_ones by lia. rewrite Z.shiftl_mul_pow2 by lia.
    replace ((act * 2 ^ 32) mod 2 ^ 64) with (act mod 2 ^ 32 * 2 ^ 32)
      by (change (2 ^ 64) with (2 ^ 32 * 2 ^ 32); rewrite Z.mul_mod_distr_r by lia; done).
    rewrite Z.mod_mul by lia. done. }
  by rewrite <-(Hlow o Ho), E, Hlow.
Qed.

Section pending.
Context `{KeyDirKind}.

(** Slots pending in [t'] and not in [t] are of offsets [offs]. *)
Definition pending_new (offs : list Z) (t t' : TransientEngineState) : Prop :=
  t_active_file_id t' = t_active_file_id t
  /\ forall s, is_Some (t_pending t' !! s) ->
       is_Some (t_pending t !! s) \/ exists o, o ∈ offs /\ s = pending_slot (t_active_file_id t) o.

Lemma pending_new_same offs t t' :
  t_active_file_id t' = t_active_file_id t -> t_pending t' = t_pending t -> pending_new offs t t'.
Proof. intros Ha Hp. split; [done|]. rewrite Hp. auto. Qed.

Lemma pending_new_trans offs a b c : pending_new offs a b -> pending_new offs b c -> pending_new offs a c.
Proof.
  intros [Ha Hp] [Hb Hq]. split; [congruence|]. intros s [?|(o & ? & ->)]%Hq; [auto|].
  right. exists o. by rewrite Ha.
Qed.

Lemma pending_new_weaken offs offs' t t' : offs ⊆ offs' -> pending_new offs t t' -> pending_new offs' t t'.
Proof. intros Hs [Ha Hp]. split; [done|]. intros s [?|(o & ? & ->)]%Hp; [auto|]. right. exists o. auto. Qed.

Lemma remove_live_pending k o t :
  t_active_file_id (remove_live k o t) = t_active_file_id t
  /\ t_pending (remove_live k o t) = t_pending t.
Proof. by destruct o. Qed.

Lemma remove_live_all_pending l t :
  t_active_file_id (remove_live_all l t) = t_active_file_id t
  /\ t_pending (remove_live_all l t) = t_pending t.
Proof. unfold remove_live_all. revert t. induction l as [|[k e] l IH]; intros t; [done|]. apply (IH (remove_live k (Some e) t)). Qed.

Lemma apply_op_pending w at_ off t t' : apply_op w at_ off t = Ok t' -> pending_new [off] t t'.
Proof.
  destruct w as [k v|k|f to]; cbn [apply_op].
  - unfold apply_put. intros (n & _ & (e & _ & Hr)%mbind_ok)%mbind_ok. cbv zeta in Hr.
    destruct (place _ _ _ _) as [ex kd]. injection Hr as <-.
    set (t1 := note_pending off (t_next_seq t) k n t).
    assert (H1 : pending_new [off] t t1).
    { unfold t1, note_pending. destruct kKeyDirReadsKeys; [|by apply pending_new_same].
      split; [done|]. intros s. cbn [t_pending set_pending].
      destruct (decide (s = pending_slot (t_active_file_id t) off)) as [->|Hne].
      - intros _. right. exists off. split; [left|done].
      - rewrite lookup_insert_ne by done. auto. }
    eapply pending_new_trans; [exact H1|].
    destruct (remove_live_pending k ex (set_key_dir kd t1)). by apply pending_new_same.
  - intros [= <-]. unfold apply_del. destruct (displace _ _ _) as [ex kd].
    destruct (remove_live_pending k ex (set_key_dir kd t)). by apply pending_new_same.
  - intros [= <-]. unfold apply_range_del, erase_range.
    destruct (remove_live_all_pending (kd_range (t_key_dir t) f to) t). by apply pending_new_same.
Qed.

Lemma apply_ops_pending p idx ws offs t t' :
  (length ws <= length offs)%nat -> apply_ops p idx ws offs t = Ok t' -> pending_new offs t t'.
Proof.
  revert idx offs t. induction ws as [|w ws IH]; intros idx offs t Hl; cbn [apply_ops].
  { intros [= <-]. by apply pending_new_same. }
  intros (t1 & H1 & H2)%mbind_ok. destruct offs as [|o offs]; [cbn in Hl; lia|]. cbn [hd tl length] in *.
  apply apply_op_pending in H1. apply IH in H2; [|lia].
  eapply pending_new_trans; eapply pending_new_weaken; [|exact H1| |exact H2]; set_solver.
Qed.

Lemma apply_writes_pending p offs t t' :
  (length (writes p) + (if (1 <? length (writes p))%nat then 1 else 0) <= length offs)%nat ->
  apply_writes p offs t = Ok t' -> pending_new offs t t'.
Proof.
  unfold apply_writes, write_count. destruct (1 <? length (writes p))%nat; intros Hl (t1 & H1 & [= <-])%mbind_ok.
  - apply apply_ops_pending in H1; [|destruct offs; cbn in *; lia].
    apply (pending_new_weaken _ offs) in H1; [|destruct offs; set_solver].
    eapply pending_new_trans; [by apply (pending_new_same offs t (apply_marker t))|].
    eapply pending_new_trans; [exact H1|]. by apply pending_new_same.
  - apply apply_ops_pending in H1; [|lia]. eapply pending_new_trans; [exact H1|]. by apply pending_new_same.
Qed.

End pending.

(** ** Statistics *)

(** The sequences of a file: none yet, or a range above 0. *)
Definition coherent (fs : FileStats) : Prop :=
  min_sequence fs = 0 /\ max_sequence fs = 0 \/ 0 < min_sequence fs <= max_sequence fs.

(** What the statistics of a working copy say whose active file ends at [off]:
    sequences that make sense, the active file's bytes, and no key past the
    bytes of its file. *)
Record tallied (t : TransientEngineState) (off : Z) : Prop := {
  tl_coherent : map_Forall (fun _ => coherent) (t_file_stats t);
  tl_total : forall fs, t_file_stats t !! t_active_file_id t = Some fs -> total_bytes fs = off;
  tl_extent : forall k e fs, t_key_dir t !! k = Some e -> t_file_stats t !! KeyDirEntry.file_id e = Some fs -> entry_end k e <= total_bytes fs
}.

Lemma entries_counts_fields es :
  total_added (entries_counts es) = wrap 64 (DataFile.total_bytes es)
  /\ d_min_sequence (entries_counts es) = 0 /\ d_max_sequence (entries_counts es) = 0.
Proof.
  induction es as [|e es (IH1 & IH2 & IH3)] using rev_ind; [done|]. rewrite entries_counts_snoc, total_bytes_app.
  cbn [combine total_added d_min_sequence d_max_sequence entry_counts]. rewrite IH1, IH2, IH3. split_and!; [|done|done].
  rewrite wrap_add_l. f_equal. unfold DataFile.total_bytes. rewrite lsum_cons, lsum_nil. unfold entry_size, DataEntry.record_bytes. lia.
Qed.

(** The counters of the files after a plan's entries. *)
Lemma counted_fields a es lo hi stats stats' :
  counted a (combine (entries_counts es) (d_sequences lo hi)) stats stats' ->
  dom stats' = dom stats
  /\ forall f fs', stats' !! f = Some fs' -> exists fs, stats !! f = Some fs
       /\ if decide (f = a) then
            total_bytes fs' = wrap 64 (total_bytes fs + DataFile.total_bytes es)
            /\ min_sequence fs' = (if min_sequence fs =? 0 then lo else min_sequence fs)
            /\ max_sequence fs' = Z.max (max_sequence fs) (Z.max 0 hi)
          else total_bytes fs' = total_bytes fs /\ min_sequence fs' = min_sequence fs /\ max_sequence fs' = max_sequence fs.
Proof.
  intros [_ Hc]. destruct (entries_counts_fields es) as (E1 & E2 & E3). split.
  - apply set_eq. intros f. rewrite !elem_of_dom. specialize (Hc f). destruct (stats' !! f), (stats !! f); try done; by split; eexists.
  - intros f fs' Hf. specialize (Hc f). rewrite Hf in Hc. destruct (stats !! f) as [fs|]; [|done]. exists fs. split; [done|]. cbn in Hc. injection Hc as Hc.
    destruct (decide (f = a)) as [->|Hne].
    + rewrite Z.eqb_refl in Hc. pose proof (f_equal total_bytes Hc) as H1. pose proof (f_equal min_sequence Hc) as H2. pose proof (f_equal max_sequence Hc) as H3.
      cbn in H1, H2, H3. rewrite E1, E2, E3 in *. cbn in H2, H3. rewrite Z.add_0_r in H1. split_and!; [|done|done]. rewrite H1. by rewrite !wrap_add_r.
    + rewrite (proj2 (Z.eqb_neq f a)) in Hc by done. pose proof (f_equal total_bytes Hc). pose proof (f_equal min_sequence Hc). by pose proof (f_equal max_sequence Hc).
Qed.

Lemma coherent_counted (fs fs' : FileStats) lo hi :
  coherent fs -> 0 < lo <= hi -> min_sequence fs' = (if min_sequence fs =? 0 then lo else min_sequence fs) ->
  max_sequence fs' = Z.max (max_sequence fs) (Z.max 0 hi) -> coherent fs'.
Proof. intros Hc Hl E1 E2. right. rewrite E1, E2. destruct Hc as [[-> _]|?]; cbn; [lia|]. rewrite (proj2 (Z.eqb_neq _ _)) by lia. lia. Qed.

(** A plan's entries, appended at the end of the active file, are tallied. *)
Lemma tallied_counted R es t t' off :
  tallied t off -> wf R t' -> t_active_file_id t' = t_active_file_id t -> old_or_new t t' ->
  counted (t_active_file_id t) (combine (entries_counts es) (d_sequences (t_next_seq t) (t_next_seq t + Z.of_nat (length es) - 1)))
    (t_file_stats t) (t_file_stats t') ->
  recs_within R (t_active_file_id t) (off + DataFile.total_bytes es) ->
  0 < t_next_seq t -> es <> [] -> 0 <= off -> off + DataFile.total_bytes es <= 2 ^ 32 ->
  tallied t' (off + DataFile.total_bytes es).
Proof.
  intros [T1 T2 T3] Hw Ha Hnew Hc HR Hn Hne Ho Hb. destruct (counted_fields _ _ _ _ _ _ Hc) as [_ Hf].
  pose proof (total_bytes_nonneg es) as Hnn. assert (Hlen : 0 < Z.of_nat (length es)) by (destruct es; [done|cbn; lia]).
  assert (Htot : forall fs', t_file_stats t' !! t_active_file_id t = Some fs' -> total_bytes fs' = off + DataFile.total_bytes es).
  { intros fs' Hfs'. destruct (Hf _ _ Hfs') as (fs & Hfs & HE). rewrite decide_True in HE by done. destruct HE as (-> & _).
    rewrite (T2 fs Hfs). apply wrap_small. unfold fits. lia. }
  split.
  - intros f fs' Hfs'. destruct (Hf _ _ Hfs') as (fs & Hfs & HE). destruct (decide (f = t_active_file_id t)) as [->|].
    + destruct HE as (_ & E2 & E3). apply (coherent_counted fs fs' (t_next_seq t) (t_next_seq t + Z.of_nat (length es) - 1)); [by apply (T1 _ _ Hfs)|lia|done|done].
    + destruct HE as (_ & E2 & E3). specialize (T1 _ _ Hfs). unfold coherent in *. by rewrite E2, E3.
  - intros fs'. rewrite Ha. apply Htot.
  - intros k e fs' Hk Hfs'. destruct (decide (KeyDirEntry.file_id e = t_active_file_id t)) as [Hid|Hid].
    + rewrite Hid in Hfs'. rewrite (Htot fs' Hfs'). apply (entry_end_within R (t_active_file_id t)); [done|by apply (wf_resolves _ _ Hw)|done].
    + destruct (Hnew k e Hk) as [Hold|[? _]]; [|done]. destruct (Hf _ _ Hfs') as (fs & Hfs & HE). rewrite decide_False in HE by done. destruct HE as (-> & _).
      by apply (T3 k e).
Qed.

(** ** Slots *)

Lemma plan_ok_placed R t next limit p off :
  plan_ok R next limit p -> 0 < t_next_seq t -> last_assigned t p <= KeyDirEntry.kMaxSequence ->
  writes p <> [] -> 0 <= off -> off + plan_bytes p <= 2 ^ 32 ->
  placed_at R (t_active_file_id t) off (prepare_write t p) ->
  plan_placed R t p (offsets_from off (prepare_write t p)).
Proof.
  intros Hp Hn Hm Hne Ho Hb Hpl. split; [done| | |done|].
  - eapply Forall_impl; [apply offsets_from_bounds|]. cbn. rewrite prepared_bytes, decide_False by done.
    unfold KeyDirEntry.kMaxFileOffset. lia.
  - eapply Forall_impl; [apply Hp|]. intros []; cbn; tauto.
  - intros i w a Hw Ha. unfold resolved_entry in Ha. destruct (snap_entries p !! i) as [o|] eqn:E; [|done].
    subst o. by apply (plan_ok_resolved _ _ _ _ _ _ Hp E).
Qed.

Lemma prepared_length t p :
  0 < t_next_seq t -> last_assigned t p <= KeyDirEntry.kMaxSequence -> writes p <> [] ->
  t_next_seq t + Z.of_nat (length (prepare_write t p)) - 1 = last_assigned t p
  /\ (length (writes p) + (if (1 <? length (writes p))%nat then 1 else 0) <= length (prepare_write t p))%nat.
Proof.
  intros Hn Hm Hne. destruct (last_assigned_room t p Hm) as [Hroom _].
  pose proof (prepare_write_length t p ltac:(lia) Hroom Hne) as Hl. unfold last_assigned.
  destruct (1 <? length (writes p))%nat; lia.
Qed.

Section stage.
Context `{KeyDirKind} (cfg : Settings).
Context (R0 : records) (t0 : TransientEngineState) (off0 : Z).
Context (Hwf0 : wf R0 t0) (Hoff0 : 0 <= off0) (Hseq0 : t_next_seq t0 <= KeyDirEntry.kMaxSequence + 1).
Context (Hsmall0 : off0 <= 2 ^ 32).
Context (Hwithin : recs_within R0 (t_active_file_id t0) off0) (Htallied : tallied t0 off0).

(** Stage 1 so far: the writes [ws] of the slots that appended, in order. *)
Record stage_inv (ws : list WriteOp) (st : Stage) : Prop := {
  sg_rest : same_rest t0 (st_t st);
  sg_offset : st_offset st = off0 + DataFile.total_bytes (st_entries st);
  sg_small : st_offset st <= 2 ^ 32;
  sg_seq : t_next_seq (st_t st) = t_next_seq t0 + Z.of_nat (length (st_entries st));
  sg_max : t_next_seq (st_t st) <= KeyDirEntry.kMaxSequence + 1;
  sg_sweep : Forall sweepable (st_entries st);
  sg_units : exists us, Forall unit_of us /\ st_entries st = concat us;
  sg_new : old_or_new t0 (st_t st);
  sg_dom : dom (t_file_stats (st_t st)) = dom (t_file_stats t0);
  sg_tallied : tallied (st_t st) (st_offset st);
  sg_none : st_entries st = [] -> st_t st = t0 /\ ws = [];
  sg_pending : forall s, is_Some (t_pending (st_t st) !! s) ->
    exists o, 0 <= o < st_offset st /\ o < 2 ^ 32 /\ s = pending_slot (t_active_file_id t0) o;
  sg_future : forall R, recs_le R0 R -> placed_at R (t_active_file_id t0) off0 (st_entries st) ->
    wf R (st_t st)
    /\ view R (t_key_dir (st_t st)) = kv_ops ws (view R (t_key_dir t0))
}.

Lemma stage_start : t_pending t0 = ∅ -> stage_inv [] (mkStage t0 [] off0).
Proof.
  intros Hp. split; cbn [st_t st_entries st_offset]; try done.
  - unfold DataFile.total_bytes. rewrite lsum_nil. lia.
  - cbn. lia.
  - by exists [].
  - intros k e ?. by left.
  - intros s. rewrite Hp, lookup_empty. by intros [].
  - intros R Hle _. split; [by eapply wf_mono|done].
Qed.

Lemma stage_next ws st : stage_inv ws st -> 0 < t_next_seq (st_t st).
Proof. intros I. rewrite (sg_seq _ _ I). pose proof (wf_next _ _ Hwf0). lia. Qed.

(** A future of the stage with one more plan's entries. *)
Lemma stage_placed ws st p :
  stage_inv ws st -> plan_ok R0 (t_next_seq t0) (max_batch_bytes cfg) p -> writes p <> [] ->
  last_assigned (st_t st) p <= KeyDirEntry.kMaxSequence -> st_offset st + plan_bytes p <= 2 ^ 32 ->
  exists R, recs_le R0 R /\ wf R (st_t st)
    /\ plan_placed R (st_t st) p (offsets_from (st_offset st) (prepare_write (st_t st) p)).
Proof.
  intros I Hp Hne Hm Hb. set (es := prepare_write (st_t st) p).
  destruct (future_exists R0 (t_active_file_id t0) off0 (st_entries st ++ es) Hwithin) as (R & Hle & Hpl & _).
  apply placed_at_app in Hpl as [Hp1 Hp2]. rewrite <-(sg_offset _ _ I) in Hp2.
  exists R. split_and!; [done|by apply (sg_future _ _ I)|].
  apply (plan_ok_placed R (st_t st) (t_next_seq t0) (max_batch_bytes cfg)); try done.
  - by apply (plan_ok_mono R0 R (t_next_seq t0)).
  - by eapply stage_next.
  - rewrite (sg_offset _ _ I). pose proof (total_bytes_nonneg (st_entries st)). lia.
  - by rewrite (sr_active _ _ (sg_rest _ _ I)).
Qed.

(** Applying one more plan. *)
Lemma stage_apply ws st p t' :
  stage_inv ws st ->
  plan_ok R0 (t_next_seq t0) (max_batch_bytes cfg) p -> writes p <> [] ->
  last_assigned (st_t st) p <= KeyDirEntry.kMaxSequence -> st_offset st + plan_bytes p <= 2 ^ 32 ->
  apply_writes p (offsets_from (st_offset st) (prepare_write (st_t st) p)) (st_t st) = Ok t' ->
  stage_inv (ws ++ writes p)
    (mkStage t' (st_entries st ++ prepare_write (st_t st) p) (st_offset st + plan_bytes p)).
Proof.
  intros I Hp Hne Hm Hb Ha. pose proof (stage_next ws st I) as Hn. set (es := prepare_write (st_t st) p) in *.
  assert (Hact : t_active_file_id (st_t st) = t_active_file_id t0) by apply (sr_active _ _ (sg_rest _ _ I)).
  assert (Hst : 0 <= st_offset st) by (rewrite (sg_offset _ _ I); pose proof (total_bytes_nonneg (st_entries st)); lia).
  assert (Hrun : forall R, recs_le R0 R -> placed_at R (t_active_file_id t0) off0 (st_entries st ++ es) ->
    wf R t' /\ same_rest (st_t st) t' /\ t_next_seq t' = t_next_seq (st_t st) + Z.of_nat (length es)
    /\ view R (t_key_dir t') = kv_ops (writes p) (view R (t_key_dir (st_t st))) /\ old_or_new (st_t st) t'
    /\ counted (t_active_file_id (st_t st))
         (combine (entries_counts es) (d_sequences (t_next_seq (st_t st)) (t_next_seq (st_t st) + Z.of_nat (length es) - 1)))
         (t_file_stats (st_t st)) (t_file_stats t')).
  { intros R Hle [Hp1 Hp2]%placed_at_app. rewrite <-(sg_offset _ _ I) in Hp2.
    destruct (sg_future _ _ I R Hle Hp1) as [Hw _].
    destruct (plan_run R p (offsets_from (st_offset st) es) (st_t st)) as (t1 & E & Rn); [done| |done|].
    { apply (plan_ok_placed R (st_t st) (t_next_seq t0) (max_batch_bytes cfg)); try done; [|by rewrite Hact].
      by apply (plan_ok_mono R0 R (t_next_seq t0)). }
    rewrite Ha in E. apply (inj Ok) in E. subst t'.
    destruct (run_step_sequences R _ _ _ _ (t_next_seq (st_t st)) (u64_sub (t_next_seq t1) 1) Hw Rn) as (? & ? & Hq & ? & Hc);
      [lia|]. split_and!; try done.
    - etrans; [exact Hq|]. apply Rn.
    - apply Rn.
    - replace (t_next_seq (st_t st) + Z.of_nat (length es) - 1) with (u64_sub (t_next_seq t1) 1); [done|].
      rewrite (rn_seq _ _ _ _ _ Rn). apply wrap_small. pose proof (prepared_length (st_t st) p Hn Hm Hne) as [Hl _]. fold es in Hl |- *.
      unfold fits, KeyDirEntry.kMaxSequence in *. lia. }
  destruct (future_exists R0 (t_active_file_id t0) off0 (st_entries st ++ es) Hwithin) as (R & Hle & Hpl & HRw).
  destruct (Hrun R Hle Hpl) as (HwR & Hr & Hq & _ & Hnew & Hct).
  pose proof (prepared_bytes (st_t st) p Hn Hm) as Hpb0. rewrite decide_False in Hpb0 by done. fold es in Hpb0.
  split; cbn [st_t st_entries st_offset].
  - etrans; [apply I|done].
  - rewrite total_bytes_app, Z.add_assoc, <-(sg_offset _ _ I). unfold es.
    by rewrite prepared_bytes, decide_False.
  - lia.
  - rewrite Hq, (sg_seq _ _ I), length_app. lia.
  - pose proof (prepared_length (st_t st) p Hn Hm Hne) as [Hl _]. fold es in Hl. lia.
  - apply Forall_app. split; [apply I|]. apply prepared_sweepable; [done|done|apply Hp].
  - destruct (sg_units _ _ I) as (us & Hus & ->). exists (us ++ [es]). rewrite concat_app. cbn [concat]. rewrite app_nil_r.
    split; [|done]. apply Forall_app. split; [done|]. apply Forall_singleton. by apply prepared_unit.
  - intros k e [?|[Hf Hs]]%Hnew; [by apply (sg_new _ _ I)|right]. rewrite Hf, Hact.
    split; [done|]. pose proof (sg_seq _ _ I). lia.
  - destruct (counted_fields _ _ _ _ _ _ Hct) as [-> _]. apply I.
  - rewrite <-Hpb0. apply (tallied_counted R es (st_t st)); try done.
    + apply I.
    + apply Hr.
    + rewrite Hact. rewrite total_bytes_app, Z.add_assoc, <-(sg_offset _ _ I) in HRw. done.
    + intros Hes. pose proof (prepared_length (st_t st) p Hn Hm Hne) as [_ Hl]. fold es in Hl. rewrite Hes in Hl.
      destruct (writes p); [done|]. cbn [length] in Hl. lia.
    + lia.
  - intros [_ Hes]%app_eq_nil. exfalso.
    pose proof (prepared_length (st_t st) p Hn Hm Hne) as [_ Hl]. fold es in Hl. rewrite Hes in Hl.
    destruct (writes p); [done|]. cbn [length] in Hl. lia.
  - apply apply_writes_pending in Ha as [_ Hpd]; [|rewrite length_offsets_from; apply prepared_length; done].
    pose proof (prepared_bytes (st_t st) p Hn Hm) as Hpb. rewrite decide_False in Hpb by done. fold es in Hpb.
    intros s [Hs|(o & Ho & ->)]%Hpd.
    + destruct (sg_pending _ _ I s Hs) as (o & ? & ? & ->). exists o. split; [|done].
      pose proof (total_bytes_nonneg es). lia.
    + exists o. rewrite Hact. split_and!; [..|done]; pose proof (offsets_from_bounds (st_offset st) es) as Hob;
        rewrite Forall_forall in Hob; specialize (Hob o Ho); cbn in Hob; lia.
  - intros R' Hle' Hpl'. destruct (Hrun R' Hle' Hpl') as (Hw & _ & _ & Hv & _ & _). split; [done|].
    apply placed_at_app in Hpl' as [Hp1 _]. destruct (sg_future _ _ I R' Hle' Hp1) as [_ Hv0].
    unfold kv_ops in *. by rewrite foldl_app, Hv, Hv0.
Qed.

Lemma stage_free ws st p :
  stage_inv ws st -> writes p <> [] -> last_assigned (st_t st) p <= KeyDirEntry.kMaxSequence ->
  st_offset st + plan_bytes p <= 2 ^ 32 ->
  Forall (slot_free (st_t st)) (offsets_from (st_offset st) (prepare_write (st_t st) p)).
Proof.
  intros I Hne Hm Hb. pose proof (stage_next ws st I) as Hn.
  pose proof (prepared_bytes (st_t st) p Hn Hm) as Hpb. rewrite decide_False in Hpb by done.
  apply Forall_forall. intros o Ho. unfold slot_free, slot_of.
  pose proof (offsets_from_bounds (st_offset st) (prepare_write (st_t st) p)) as Hob.
  rewrite Forall_forall in Hob. specialize (Hob o Ho). cbn in Hob.
  destruct (t_pending (st_t st) !! _) as [r|] eqn:E; [|done]. exfalso.
  destruct (sg_pending _ _ I _ (mk_is_Some _ _ E)) as (o' & ? & ? & Heq).
  rewrite (sr_active _ _ (sg_rest _ _ I)) in Heq. apply pending_slot_inj in Heq; lia.
Qed.

(** [apply_slot] applies the plan as [apply_writes] does, or finds a conflict. *)
Lemma apply_slot_spec ws st p :
  stage_inv ws st -> plan_ok R0 (t_next_seq t0) (max_batch_bytes cfg) p -> writes p <> [] ->
  last_assigned (st_t st) p <= KeyDirEntry.kMaxSequence -> st_offset st + plan_bytes p <= 2 ^ 32 ->
  let offs := offsets_from (st_offset st) (prepare_write (st_t st) p) in
  match apply_slot (st_t st) p offs (can_apply_puts_checked p) with
  | Ok (inl t') => apply_writes p offs (st_t st) = Ok t'
  | Ok (inr _) => True
  | Err _ => False
  end.
Proof.
  intros I Hp Hne Hm Hb offs. destruct (stage_placed ws st p I Hp Hne Hm Hb) as (R & Hle & Hw & Hpl).
  destruct (plan_run R p offs (st_t st) Hw Hpl Hne) as (t1 & E & _).
  unfold apply_slot. destruct (can_apply_puts_checked p) eqn:Hc.
  - assert (Hcp : checked_plan R (st_t st) p offs).
    { split; [done|done|by eapply stage_free|]. intros i a Hi.
      destruct (plan_ok_resolved _ _ _ _ _ _ Hp Hi) as [Hs _]. rewrite (sg_seq _ _ I). lia. }
    pose proof (checked_or_restored R (st_t st) p offs Hw Hcp) as Hcr.
    destruct (apply_puts_checked p offs (st_t st)) as [[[] t']|]; [|subst t'|done]; cbn [mbind result_bind].
    + apply Hcr.
    + destruct (validate_preconditions (st_t st) p false) as [[] r]; [|done]. by rewrite E.
  - cbn [mbind result_bind]. by rewrite E.
Qed.

(** The writes a slot appended. *)
Definition slot_writes (s : EngineSlot) : list WriteOp :=
  match s_result s with
  | Some r => if cr_sequence r =? 0 then [] else writes (s_plan s)
  | None => []
  end.

(** What stage 1 leaves in a slot it was given fresh. *)
Record slot_staged (st : Stage) (s s' : EngineSlot) : Prop := {
  ss_plan : s_plan s' = s_plan s;
  ss_sync : s_sync s' = s_sync s;
  ss_through : s_sync_through s' = s_sync_through s;
  ss_result : forall r, s_result s' = Some r ->
    cr_durable r = false /\ 0 <= cr_sequence r < t_next_seq (st_t st)
    /\ (cr_sequence r = 0 \/ (t_next_seq t0 <= cr_sequence r /\ s_rests_on s' = 0));
  ss_err : s_err s' = None \/ slot_writes s' = []
}.

Definition fresh_slot (s : EngineSlot) : Prop :=
  s_result s = None /\ s_err s = None /\ s_rests_on s = 0 /\ s_sync_through s = 0.

Lemma execute_slot_spec can_rotate ws st s :
  stage_inv ws st -> fresh_slot s -> plan_ok R0 (t_next_seq t0) (max_batch_bytes cfg) (s_plan s) ->
  st_offset st + plan_bytes (s_plan s) <= 2 ^ 32 ->
  exists st' s', execute_slot cfg can_rotate st s = Ok (st', s')
    /\ stage_inv (ws ++ slot_writes s') st' /\ slot_staged st' s s'
    /\ st_offset st' <= st_offset st + plan_bytes (s_plan s) /\ t_next_seq (st_t st) <= t_next_seq (st_t st').
Proof.
  intros I (Hr & He & Hro & Ht) Hp Hb. pose proof (stage_next ws st I) as Hn.
  pose proof (plan_bytes_count (s_plan s)) as Hcnt. unfold execute_slot.
  assert (Hkeep : forall s', s_plan s' = s_plan s -> s_sync s' = s_sync s -> s_sync_through s' = s_sync_through s ->
    s_result s' = None \/ s_result s' = Some (mkCommitResult 0 false) ->
    exists st1 s1, Ok (st, s') = Ok (st1, s1)
      /\ stage_inv (ws ++ slot_writes s1) st1 /\ slot_staged st1 s s1
      /\ st_offset st1 <= st_offset st + plan_bytes (s_plan s) /\ t_next_seq (st_t st) <= t_next_seq (st_t st1)).
  { intros s' H1 H2 H3 H4. exists st, s'. split; [done|].
    assert (Hsw : slot_writes s' = []) by (unfold slot_writes; by destruct H4 as [-> | ->]).
    rewrite Hsw, app_nil_r. split_and!; [done| |lia|lia]. split; try done; [|by right].
    intros r. destruct H4 as [-> | ->]; [done|]. intros [= <-]. cbn. split_and!; [done|lia|lia|by left]. }
  destruct (is_empty (s_plan s)); [by apply Hkeep; auto|].
  destruct (validate_preconditions (st_t st) (s_plan s) (can_apply_puts_checked (s_plan s))) as [[] ro];
    cbn [negb]; [|by apply Hkeep; auto].
  destruct (decide (writes (s_plan s) = [])) as [Hw|Hw].
  { replace (prepare_write (st_t st) (s_plan s)) with (@nil DataEntry)
      by (unfold prepare_write, write_count; by rewrite Hw). by apply Hkeep; auto. }
  assert (Hroom : t_next_seq (st_t st) + Z.of_nat (length (writes (s_plan s))) + 2 < 2 ^ 64).
  { pose proof (sg_max _ _ I). unfold KeyDirEntry.kMaxSequence in *.
    assert (0 <= st_offset st) by (rewrite (sg_offset _ _ I); pose proof (total_bytes_nonneg (st_entries st)); lia). lia. }
  pose proof (prepared_last (st_t st) (s_plan s) Hn Hroom Hw) as Hlast.
  destruct (prepare_write (st_t st) (s_plan s)) as [|e es] eqn:Eps.
  { exfalso. pose proof (prepare_write_length (st_t st) (s_plan s) ltac:(lia) Hroom Hw) as Hl.
    rewrite Eps in Hl. destruct (writes (s_plan s)); [done|]. cbn in Hl. case_match; lia. }
  rewrite Hlast, <-Eps. destruct (Z.ltb_spec KeyDirEntry.kMaxSequence (last_assigned (st_t st) (s_plan s))) as [|Hm];
    [by apply Hkeep; auto|].
  destruct (negb can_rotate && _); [by apply Hkeep; auto|].
  rewrite place_entries_spec, prepared_bytes, decide_False by done.
  pose proof (apply_slot_spec ws st (s_plan s) I Hp Hw Hm Hb) as Has. cbv zeta in Has.
  destruct (apply_slot _ _ _ _) as [[t'|r]|]; [|by apply Hkeep; auto|done]. cbn [mbind result_bind].
  pose proof (stage_apply ws st (s_plan s) t' I Hp Hw Hm Hb Has) as I'.
  eexists _, _. split; [done|].
  pose proof (prepared_length (st_t st) (s_plan s) Hn Hm Hw) as [Hl _].
  pose proof (sg_seq _ _ I') as Hs'. cbn [st_t st_entries] in Hs'. rewrite length_app in Hs'.
  pose proof (sg_seq _ _ I) as Hs.
  assert (Hne0 : last_assigned (st_t st) (s_plan s) <> 0).
  { rewrite <-Hl, Eps. cbn [length]. lia. }
  assert (Hsw : slot_writes (set_result (Some (mkCommitResult (last_assigned (st_t st) (s_plan s)) false)) s)
                = writes (s_plan s)).
  { unfold slot_writes. cbn. by rewrite (proj2 (Z.eqb_neq _ _)). }
  rewrite Hsw. split_and!; [exact I'| |cbn [st_offset]; lia|cbn [st_t]; lia].
  split; try done; [|by left]. intros r [= <-]. cbn [st_t cr_durable cr_sequence]. split; [done|]. split; [lia|]. right.
  split; [rewrite <-Hl, Eps; cbn [length]; lia|done].
Qed.

(** The oracle aside, nothing of the engine changed. *)
Definition same_db (db db' : DB) : Prop := exists os, os `suffix_of` oracle db /\ db' = set_oracle os db.

Lemma same_db_refl db : same_db db db.
Proof. exists (oracle db). split; [done|by destruct db]. Qed.

Lemma same_db_trans a b c : same_db a b -> same_db b c -> same_db a c.
Proof. intros (os & Ho & ->) (os' & Ho' & ->). exists os'. split; [by etrans|done]. Qed.

Lemma syscall_same what db : exists r db', syscall what db = (r, db') /\ same_db db db'
  /\ (oracle db = [] -> r = Ok () /\ oracle db' = []).
Proof.
  unfold syscall. destruct (oracle db) as [|[|n] os] eqn:E; eexists _, _; (split; [done|]); (split; [|done]).
  - apply same_db_refl.
  - exists os. by split; [rewrite E; exists [Done]|].
  - exists os. by split; [rewrite E; exists [Fails n]|].
Qed.

Lemma when_syscall_same b what db : exists r db', when b (syscall what) db = (r, db') /\ same_db db db'
  /\ (oracle db = [] -> r = Ok () /\ oracle db' = []).
Proof.
  destruct b; [apply syscall_same|]. exists (Ok ()), db. split; [done|]. split; [|done].
  apply same_db_refl.
Qed.

Context (Hgroup : max_group_file_bytes cfg <= 2 ^ 32).

Lemma stage_slots_spec can_rotate batch first ws st db :
  stage_inv ws st -> Forall fresh_slot batch ->
  Forall (fun s => plan_ok R0 (t_next_seq t0) (max_batch_bytes cfg) (s_plan s)
                   /\ plan_bytes (s_plan s) < 2 ^ 64) batch ->
  (first = true -> forall s, head batch = Some s -> st_offset st + plan_bytes (s_plan s) <= 2 ^ 32) ->
  exists slots r db', stage_slots cfg can_rotate first batch st db = (Ok (slots, r), db') /\ same_db db db'
    /\ (oracle db = [] -> is_ok r = true)
    /\ match r with
       | Err _ => Forall2 (fun s s' => s_plan s' = s_plan s /\ s_sync s' = s_sync s) batch slots
       | Ok st' =>
           stage_inv (ws ++ concat (slot_writes <$> slots)) st'
           /\ Forall2 (slot_staged st') (take (length slots) batch) slots
           /\ (first = true -> batch <> [] -> slots <> [])
           /\ t_next_seq (st_t st) <= t_next_seq (st_t st')
       end.
Proof.
  revert first ws st db. induction batch as [|s batch IH]; intros first ws st db I Hf Hp Hfirst; cbn [stage_slots].
  { exists [], (Ok st), db. split; [done|]. split; [apply same_db_refl|]. split; [done|].
    cbn. rewrite app_nil_r. split_and!; [done|constructor|done|lia]. }
  apply Forall_cons in Hf as [Hf Hfs]. apply Forall_cons in Hp as [[Hp Hpb] Hps].
  rewrite write_bytes_spec by done.
  destruct (negb first && _) eqn:Hg.
  { exists [], (Ok st), db. split; [done|]. split; [apply same_db_refl|]. split; [done|].
    cbn [fmap list_fmap concat length]. rewrite app_nil_r. split_and!; [done|constructor| |lia].
    intros ->. done. }
  assert (Hb : st_offset st + plan_bytes (s_plan s) <= 2 ^ 32).
  { destruct first; [by apply Hfirst|]. apply Z.ltb_ge in Hg. lia. }
  unfold attempt. unfold mbind at 1, io_bind at 1. unfold mbind at 1, io_bind at 1.
  destruct (when_syscall_same kKeyDirReadsKeys "bytecask: read of a key's record failed" db) as (r & db1 & -> & S1 & Q1).
  assert (Hsame : forall l : list EngineSlot, Forall2 (fun s s' => s_plan s' = s_plan s /\ s_sync s' = s_sync s) l l)
    by (intros l; induction l; by constructor).
  destruct r as [[]|x]; [|exists (s :: batch), (Err x), db1; split_and!; [done|done|by intros [? _]%Q1|apply Hsame]].
  destruct (execute_slot_spec can_rotate ws st s I Hf Hp Hb) as (st1 & s1 & E1 & I1 & SS1 & Ho1 & Hn1).
  unfold lift. rewrite E1. unfold mbind at 1, io_bind at 1.
  destruct (IH false (ws ++ slot_writes s1) st1 db1) as (slots & r & db2 & -> & S2 & Q2 & HR); [done..|].
  exists (s1 :: slots). destruct r as [st2|x].
  - destruct HR as (I2 & F2 & _ & Hn2). exists (Ok st2), db2.
    split; [done|]. split; [by eapply same_db_trans|]. split; [done|].
    cbn [fmap list_fmap concat length take]. split_and!; [by rewrite app_assoc| |done|lia].
    constructor; [|exact F2]. destruct SS1 as [? ? ? Hres ?]. split; try done.
    intros r Hr. destruct (Hres r Hr) as (? & ? & ?). split_and!; [done|lia|lia|done].
  - exists (Err x), db2. split_and!; [done|by eapply same_db_trans|intros [_ Ho]%Q1; by apply Q2 in Ho|].
    constructor; [|done]. by destruct SS1.
Qed.

End stage.
