(* ===== verification/Faults.v ===== *)
(** * Failing system calls

    A run consumes the outcomes of its system calls in order; an operation
    that throws did so on a call that failed.  What one file operation does to
    the engine: its file, grown or unchanged, and nothing else. *)

From S2P Require Import Prelude Codec KeyDir DataFile DataFileProofs FileScan EngineState EngineProofs Db Records.
Import Serialization Types.

(** ** Operations that only throw on a failed call *)

Definition consumed {A} (r : result A) (os os' : list outcome) : Prop :=
  match r with
  | Ok _ => os' `suffix_of` os
  | Err _ => exists pre n, os = pre ++ Fails n :: os'
  end.

Lemma consumed_suffix {A} (r : result A) os os' : consumed r os os' -> os' `suffix_of` os.
Proof.
  destruct r as [a|x]; [done|]. intros (pre & n & ->). exists (pre ++ [Fails n]). by rewrite <-app_assoc.
Qed.

Lemma consumed_after {A} (r : result A) os os1 os2 :
  os1 `suffix_of` os -> consumed r os1 os2 -> consumed r os os2.
Proof.
  intros [p ->]. destruct r as [a|x]; cbn.
  - intros [q ->]. exists (p ++ q). by rewrite app_assoc.
  - intros (pre & n & ->). exists (p ++ pre), n. by rewrite app_assoc.
Qed.

Definition honest {A} (m : io FileIO A) : Prop :=
  forall s, consumed (m s).1 (fio_oracle s) (fio_oracle (m s).2).

Lemma honest_bind {A B} (m : io FileIO A) (k : A -> io FileIO B) :
  honest m -> (forall a, honest (k a)) -> honest (m ≫= k).
Proof.
  intros Hm Hk s. specialize (Hm s). unfold mbind, io_bind. destruct (m s) as [[a|x] s1]; cbn in *; [|done].
  eapply consumed_after; [exact Hm|apply Hk].
Qed.

Lemma honest_ok {A} (f : FileIO -> A) (g : DataFile -> DataFile) :
  honest (fun s => (Ok (f s), mkFileIO (g (fio_file s)) (fio_oracle s))).
Proof. intros s. by exists []. Qed.

Lemma honest_ret {A} (a : A) : honest (mret a).
Proof. intros s. by exists []. Qed.

Lemma honest_gets {A} (f : FileIO -> A) : honest (gets f).
Proof. intros s. by exists []. Qed.

Lemma honest_update g : honest (update_file g).
Proof. intros s. by exists []. Qed.

Lemma honest_pwrite what off d : honest (pwrite what off d).
Proof.
  intros [f os]. unfold pwrite, next_outcome. destruct os as [|[|n] os]; cbn.
  - by exists [].
  - by exists [Done].
  - by exists [], n.
Qed.

Lemma honest_fdatasync_to what e : honest (fdatasync_to what e).
Proof.
  intros [f os]. unfold fdatasync_to, next_outcome. destruct os as [|[|n] os]; cbn.
  - by exists [].
  - by exists [Done].
  - by exists [], n.
Qed.

#[local] Hint Resolve honest_ret honest_gets honest_update honest_pwrite honest_fdatasync_to : core.

Lemma honest_zero_loop fuel off target : honest (zero_loop fuel off target).
Proof.
  revert off. induction fuel as [|fuel IH]; intros off; cbn [zero_loop]; [done|].
  destruct (off <? target); [|done]. by apply honest_bind.
Qed.

Lemma honest_ensure_zeroed e : honest (ensure_zeroed e).
Proof.
  apply honest_bind; [done|]. intros f. destruct (_ || _); [done|].
  apply honest_bind; [apply honest_zero_loop|done].
Qed.

Section appends.
Context `{Crc32cLaws}.

Lemma honest_append_chunk es : Forall writable es -> honest (append_chunk es).
Proof.
  intros Hw. unfold append_chunk. apply honest_bind; [done|]. intros start.
  destruct (stage_entries_images es [] [] [] Hw) as (buf & pieces & E & _); [by split|]. rewrite E.
  apply honest_bind; [intros s; by exists []|]. intros [b ps].
  apply honest_bind; [apply honest_ensure_zeroed|]. intros _.
  apply honest_bind; [done|]. intros _. apply honest_bind; [apply honest_update|]. done.
Qed.

Lemma honest_append_entries l es : Forall writable es -> honest (append_entries l es).
Proof.
  unfold append_entries. generalize (length es) as fuel. intros fuel. revert es.
  induction fuel as [|fuel IH]; intros es Hw; cbn [append_chunks]; [done|].
  destruct es as [|e es]; [done|]. set (n := chunk_length _ _ _ _ _).
  apply honest_bind; [by apply honest_append_chunk, Forall_take|]. intros offs.
  apply honest_bind; [by apply IH, Forall_drop|done].
Qed.

End appends.

(** No call fails right after one that failed. *)
Fixpoint no_double_fault (os : list outcome) : bool :=
  match os with
  | Fails _ :: (Fails _ :: _) => false
  | _ :: os' => no_double_fault os'
  | [] => true
  end.

Lemma no_double_fault_suffix os os' : os' `suffix_of` os -> no_double_fault os = true -> no_double_fault os' = true.
Proof.
  intros [pre ->]. induction pre as [|o pre IH]; [done|]. intros Hd. apply IH. revert Hd. cbn.
  destruct o as [|n]; [done|]. destruct (pre ++ os') as [|[|m] l]; done.
Qed.

(** The call after the one an operation threw on succeeds. *)
Lemma next_after_fault {A} (x : exn) os os' :
  no_double_fault os = true -> consumed (A:=A) (Err x) os os' ->
  match os' with Fails _ :: _ => False | _ => True end.
Proof.
  intros Hd (pre & n & ->).
  apply (no_double_fault_suffix _ (Fails n :: os')) in Hd; [|by exists pre].
  cbn in Hd. by destruct os' as [|[|m] os'].
Qed.
