(* ===== verification/DbInv.v ===== *)
(** * The invariant of the engine, and flushes

    The engine's history is a log of commit groups: the writes each appended
    and the next sequence after it.  The prepared head is the whole log; the
    published state is a prefix of it; a flush in flight is a prefix in
    between.  Whatever the published state says is durable is on disk, as long
    as no system call fails right after one that failed. *)

From S2P Require Import Prelude Codec KeyDir DataFile DataFileProofs FileScan EngineState EngineProofs Db Records StageProofs Faults.
Import Serialization Types Stats Dir Plan.

(** ** Small facts on the engine's operations *)

Lemma store_state_publishes old new db :
  next_seq old <= next_seq new -> active_file_id old <= active_file_id new ->
  next_file_id old <= next_file_id new -> durable_seq old <= durable_seq new ->
  sync_requested_seq new <= durable_seq new ->
  store_state old new db = (Ok (), set_state new db).
Proof. intros. unfold store_state. by rewrite !(proj2 (Z.ltb_ge _ _)). Qed.

Lemma refuse_writes_eq db :
  refuse_writes db
  = (Ok (), set_state (if degraded (state_ db) then state_ db else degraded_copy (state_ db) kWriteFaultReason)
              (set_write_fault true db)).
Proof.
  unfold refuse_writes, publish_degraded_if_healthy, load_state, gets, modify, mbind, io_bind, publish. cbn.
  destruct (degraded (state_ db)); destruct db; done.
Qed.

Lemma degrade_from_eq current reason db :
  degrade_from current reason db
  = (Ok (), set_write_fault true (set_state (degraded_copy current reason) db)).
Proof.
  unfold degrade_from, degrade, try_catch, publish, modify, mbind, io_bind. rewrite refuse_writes_eq.
  by destruct db.
Qed.

(** ** What a file operation does to the engine *)

(** The files with ids below [n] keep their names, and all but [act] their
    bytes. *)
Definition same_files_but (act n : Z) (h h' : gmap FileRef DataFile) : Prop :=
  forall r f, r < n -> h !! r = Some f -> exists f', h' !! r = Some f' /\ path f' = path f /\ (r <> act -> live f' = live f).

Lemma same_files_but_refl act n h : same_files_but act n h h.
Proof. intros r f _ Hf. by exists f. Qed.

Lemma same_files_but_trans act n a b c : same_files_but act n a b -> same_files_but act n b c -> same_files_but act n a c.
Proof.
  intros H1 H2 r f Hr Hf. destruct (H1 r f Hr Hf) as (g & Hg & Hp & Hl). destruct (H2 r g Hr Hg) as (g' & ? & ? & Hl').
  exists g'. split_and!; [done|congruence|]. intros Hne. by rewrite Hl', Hl.
Qed.

Lemma same_files_but_insert act n h r f f' :
  h !! r = Some f -> path f' = path f -> r = act \/ live f' = live f -> same_files_but act n h (<[r := f']> h).
Proof.
  intros Hr Hp Hl x g _ Hg. destruct (decide (x = r)) as [->|Hne]; [exists f'|exists g].
  - assert (g = f) as -> by congruence. rewrite lookup_insert_eq. split_and!; [done|done|]. by destruct Hl.
  - by rewrite lookup_insert_ne.
Qed.

(** No file is longer than a key directory can address. *)
Definition heap_small (h : gmap FileRef DataFile) : Prop := map_Forall (fun _ f => logical_end f <= 2 ^ 32) h.

Lemma heap_small_insert h r f : logical_end f <= 2 ^ 32 -> heap_small h -> heap_small (<[r := f]> h).
Proof. intros. by apply map_Forall_insert_2. Qed.

(** Only files changed, by growing, and outcomes were consumed. *)
Record quiet_io (db db' : DB) : Prop := {
  qi_state : state_ db' = state_ db;
  qi_head : head_ db' = head_ db;
  qi_flight : in_flight db' = in_flight db;
  qi_error : flush_error db' = flush_error db;
  qi_fault : write_fault db' = write_fault db;
  qi_le : heap_le (heap db) (heap db');
  qi_others : same_files_but (active_file_id (state_ db)) (next_file_id (state_ db)) (heap db) (heap db');
  qi_small : heap_small (heap db) -> heap_small (heap db');
  qi_ok : heap_ok (heap db');
  qi_oracle : oracle db' `suffix_of` oracle db
}.

Lemma quiet_io_refl db : heap_ok (heap db) -> quiet_io db db.
Proof. intros. split; try done; [by apply heap_le_refl|apply same_files_but_refl]. Qed.

Lemma quiet_io_trans a b c : quiet_io a b -> quiet_io b c -> quiet_io a c.
Proof.
  intros [S1 ? ? ? ? ? P1 ? ? ?] [S2 ? ? ? ? ? P2 ? ? ?]. rewrite S1 in P2.
  split; try congruence; try done; [by eapply heap_le_trans|by eapply same_files_but_trans|auto|by etrans].
Qed.

Lemma on_file_eq {A} r (m : io FileIO A) f db :
  heap db !! r = Some f ->
  on_file r m db
  = let '(a, s) := m (mkFileIO f (oracle db)) in
    (a, set_oracle (fio_oracle s) (set_heap (<[r := fio_file s]> (heap db)) db)).
Proof. intros Hr. unfold on_file. by rewrite Hr. Qed.

Lemma sync_to_grown f e : file_ok f -> 0 <= e <= logical_end f -> grown f (sync_to e f).
Proof.
  intros [H1 H2 H3] He. unfold sync_to. destruct (sync_failed f); [by apply grown_refl|].
  split; [split; cbn; try done; lia|]. split; [cbn; lia|]. exists []. by rewrite app_nil_r.
Qed.

Lemma sync_to_same e f :
  content (sync_to e f) = content f /\ logical_end (sync_to e f) = logical_end f /\ path (sync_to e f) = path f
  /\ sync_failed (sync_to e f) = sync_failed f.
Proof. unfold sync_to. by destruct (sync_failed f) eqn:E. Qed.

Lemma sync_to_synced e f : sync_failed f = false -> e <= synced_end (sync_to e f).
Proof. intros E. unfold sync_to. rewrite E. cbn. lia. Qed.

Lemma set_sync_failed_grown f b : file_ok f -> grown f (set_sync_failed b f).
Proof.
  intros [H1 H2 H3]. split; [by split|]. split; [done|]. exists []. by rewrite app_nil_r.
Qed.

(** An [fdatasync] of the bytes below [e]. *)
Lemma fdatasync_cases what r e f db :
  heap_ok (heap db) -> heap db !! r = Some f -> 0 <= e <= logical_end f ->
  exists res db', on_file r (fdatasync_to what e) db = (res, db') /\ quiet_io db db'
    /\ consumed res (oracle db) (oracle db')
    /\ match res with
       | Ok _ => heap db' = <[r := sync_to e f]> (heap db)
       | Err _ => heap db' = <[r := set_sync_failed true f]> (heap db)
       end
    /\ hint_queue db' = hint_queue db.
Proof.
  intros Hok Hr He. pose proof (Hok _ _ Hr) as Hf. rewrite (on_file_eq _ _ f) by done.
  pose proof (honest_fdatasync_to what e (mkFileIO f (oracle db))) as Hc.
  assert (Hcase : exists res s, fdatasync_to what e (mkFileIO f (oracle db)) = (res, s)
    /\ fio_file s = match res with Ok _ => sync_to e f | Err _ => set_sync_failed true f end).
  { unfold fdatasync_to, next_outcome. cbn. destruct (oracle db) as [|[|n] os]; cbn; by eexists _, _. }
  destruct Hcase as (res & s & E & Hfile). rewrite E in *. cbn [fst snd fio_oracle] in Hc.
  exists res. eexists. split; [done|]. rewrite Hfile.
  assert (Hg : grown f (match res with Ok _ => sync_to e f | Err _ => set_sync_failed true f end)).
  { destruct res; [by apply sync_to_grown|by apply set_sync_failed_grown]. }
  split_and!; [|done|by destruct res|done]. split; cbn; try done.
  - by eapply heap_le_insert.
  - apply (same_files_but_insert _ _ _ _ f); [done|..]; [|right]; destruct res; try done; unfold sync_to; by destruct (sync_failed f).
  - intros Hsm. apply heap_small_insert; [|done]. pose proof (Hsm _ _ Hr) as Hl. cbn in Hl.
    destruct res; [unfold sync_to; by destruct (sync_failed f)|done].
  - apply heap_ok_insert; [done|apply Hg].
  - by eapply consumed_suffix.
Qed.

(** ** The log *)

Abbreviation group_log := (list (list WriteOp * Z)).

Definition log_view (v0 : gmap bytes bytes) (ls : group_log) : gmap bytes bytes := kv_ops (concat ls.*1) v0.
Definition log_next (next0 : Z) (ls : group_log) : Z := List.last ls.*2 next0.
Definition log_ok (next0 : Z) (ls : group_log) : Prop := StronglySorted Z.lt (next0 :: ls.*2).

Lemma log_next_lookup next0 ls n :
  (n <= length ls)%nat -> (next0 :: ls.*2) !! n = Some (log_next next0 (take n ls)).
Proof.
  unfold log_next. revert next0 n. induction ls as [|[w z] ls IH]; intros next0 [|n] Hn; try done; [cbn in Hn; lia|].
  cbn [length] in Hn. cbn [take fmap list_fmap snd].
  change ((next0 :: z :: ls.*2) !! S n) with ((z :: ls.*2) !! n). rewrite (IH z n) by lia. f_equal.
  destruct (take n ls) as [|[w' z'] l]; [done|].
  change (List.last (z' :: l.*2) z = List.last (z' :: l.*2) next0). apply last_default.
Qed.

Lemma log_next_lt next0 ls n m :
  log_ok next0 ls -> (n < m)%nat -> (m <= length ls)%nat ->
  log_next next0 (take n ls) < log_next next0 (take m ls).
Proof.
  unfold log_ok. intros Hs Hnm Hm.
  pose proof (log_next_lookup next0 ls n ltac:(lia)) as H1.
  pose proof (log_next_lookup next0 ls m Hm) as H2.
  revert Hs H1 H2. generalize (next0 :: ls.*2) as l, (log_next next0 (take n ls)) as a, (log_next next0 (take m ls)) as b.
  clear Hm. revert n m Hnm. intros n m Hnm l a b Hs. revert n m Hnm.
  induction Hs as [|x l Hs IH Hx]; intros n m Hnm H1 H2; [done|].
  destruct n as [|n], m as [|m]; try lia; cbn in H1, H2.
  - injection H1 as ->. rewrite Forall_forall in Hx. apply Hx. by eapply list_elem_of_lookup_2.
  - apply (IH n m); [lia|done|done].
Qed.

Lemma log_next_le next0 ls n m :
  log_ok next0 ls -> (n <= m)%nat -> (m <= length ls)%nat ->
  log_next next0 (take n ls) <= log_next next0 (take m ls).
Proof.
  intros Hl Hnm Hm. destruct (decide (n = m)) as [->|]; [done|].
  pose proof (log_next_lt next0 ls n m Hl ltac:(lia) Hm). lia.
Qed.

(** A prefix with the sequences of the whole log is the whole log. *)
Lemma log_next_full next0 ls n :
  log_ok next0 ls -> (n <= length ls)%nat -> log_next next0 ls <= log_next next0 (take n ls) -> n = length ls.
Proof.
  intros Hl Hn Hle. destruct (decide (n = length ls)) as [|Hne]; [done|].
  pose proof (log_next_lt next0 ls n (length ls) Hl ltac:(lia) ltac:(lia)) as Hlt.
  rewrite (take_ge ls (length ls)) in Hlt by lia. lia.
Qed.

Lemma log_next_snoc next0 ls w z : log_next next0 (ls ++ [(w, z)]) = z.
Proof. unfold log_next. rewrite fmap_app. apply last_last. Qed.

Lemma log_ok_snoc next0 ls w z : log_ok next0 ls -> log_next next0 ls < z -> log_ok next0 (ls ++ [(w, z)]).
Proof.
  unfold log_ok. intros Hl Hz. rewrite fmap_app. cbn [fmap list_fmap snd].
  rewrite app_comm_cons. apply StronglySorted_app. split_and!.
  - intros x y Hx Hy%list_elem_of_singleton. subst y.
    apply list_elem_of_lookup_1 in Hx as (i & Hi).
    assert (Hil : (i <= length ls)%nat) by (apply lookup_lt_Some in Hi; cbn in Hi; rewrite length_fmap in Hi; lia).
    pose proof (log_next_lookup next0 ls i Hil) as Hi'. rewrite Hi in Hi'. injection Hi' as ->.
    pose proof (log_next_le next0 ls i (length ls) Hl Hil ltac:(lia)) as Hle.
    rewrite (take_ge ls (length ls)) in Hle by lia. lia.
  - done.
  - by repeat constructor.
Qed.

Lemma log_view_snoc v0 ls w z : log_view v0 (ls ++ [(w, z)]) = kv_ops w (log_view v0 ls).
Proof.
  unfold log_view, kv_ops. rewrite fmap_app, concat_app, foldl_app. cbn. by rewrite app_nil_r.
Qed.

Lemma take_snoc_le {A} n (ls : list A) x : (n <= length ls)%nat -> take n (ls ++ [x]) = take n ls.
Proof. intros. by rewrite take_app_le. Qed.

(** ** States *)

(** Whether the calls of a run fail apart from each other.  What the invariant
    says of durability is under this condition; the rest of it is not. *)
Class FaultSpacing : Type := faults_apart : Prop.

Section invariant.
Context `{Crc32cLaws} `{Apart : FaultSpacing} (next0 : Z) (v0 : gmap bytes bytes).

(** Change markers ascend, below the next sequence. *)
Definition markers_ok (next : Z) (ms : option (list ChangeMarker)) : Prop :=
  forall l, ms = Some l -> StronglySorted Z.lt (0 :: (since_sequence <$> l)) /\ Forall (fun m => since_sequence m < next) l.

Lemma markers_ok_mono next next' ms : next <= next' -> markers_ok next ms -> markers_ok next' ms.
Proof. intros Hn Hm l Hl. destruct (Hm l Hl) as [? Hf]. split; [done|]. eapply Forall_impl; [exact Hf|]. cbn. lia. Qed.

Record state_ok (h : gmap FileRef DataFile) (s : EngineState) : Prop := {
  so_wf : wf (recs_of h) (transient s);
  so_active : files s !! active_file_id s = Some (active_file_id s);
  so_file : is_Some (h !! active_file_id s);
  so_ids : 0 <= active_file_id s < next_file_id s;
  so_seq : next_seq s <= KeyDirEntry.kMaxSequence + 1;
  so_files : forall id r, files s !! id = Some r <-> r = id /\ is_Some (file_stats s !! id);
  so_below : forall id, is_Some (file_stats s !! id) -> 0 <= id < next_file_id s;
  so_coherent : map_Forall (fun _ => coherent) (file_stats s);
  so_extent : forall k e fs, key_dir s !! k = Some e -> file_stats s !! KeyDirEntry.file_id e = Some fs -> entry_end k e <= total_bytes fs;
  so_markers : markers_ok (next_seq s) (change_markers s)
}.

Definition entry_synced (h : gmap FileRef DataFile) (k : bytes) (e : KeyDirEntry) : Prop :=
  exists f, h !! KeyDirEntry.file_id e = Some f /\ entry_end k e <= synced_end f.

(** Every key of [s] at or below sequence [d], and every key of a sealed file,
    has its record on disk. *)
Definition durable_to (h : gmap FileRef DataFile) (s : EngineState) (d : Z) : Prop :=
  forall k e, key_dir s !! k = Some e ->
    KeyDirEntry.sequence e <= d \/ KeyDirEntry.file_id e <> active_file_id s -> entry_synced h k e.

(** The members stage 1 and flushes leave alone. *)
Record same_files (s s' : EngineState) : Prop := {
  sf_active : active_file_id s' = active_file_id s;
  sf_next_file : next_file_id s' = next_file_id s;
  sf_files : files s' = files s;
  sf_mode : mode s' = mode s;
  sf_degraded : degraded s' = degraded s;
  sf_reason : degraded_reason s' = degraded_reason s;
  sf_closed : closed s' = closed s
}.

(** A later state of the same files: the keys it has gained are in the active
    file, with sequences of their own. *)
Record advanced (s s' : EngineState) : Prop := {
  av_keys : forall k e, key_dir s' !! k = Some e ->
    key_dir s !! k = Some e \/ (KeyDirEntry.file_id e = active_file_id s /\ next_seq s <= KeyDirEntry.sequence e);
  av_active : active_file_id s' = active_file_id s;
  av_next_file : next_file_id s' = next_file_id s;
  av_files : files s' = files s;
  av_seq : next_seq s <= next_seq s'
}.

Lemma advanced_refl s : advanced s s.
Proof. split; try done. by left. Qed.

Lemma advanced_trans a b c : advanced a b -> advanced b c -> advanced a c.
Proof.
  intros [K1 A1 N1 F1 S1] [K2 A2 N2 F2 S2]. split; try congruence; [|lia].
  intros k e [Hk|[Hf Hs]]%K2; [by apply K1|]. right. split; [congruence|lia].
Qed.

Lemma advanced_same s s' :
  key_dir s' = key_dir s -> active_file_id s' = active_file_id s -> next_file_id s' = next_file_id s -> files s' = files s ->
  next_seq s' = next_seq s -> advanced s s'.
Proof. intros E1 ? ? ? E5. split; try done; [rewrite E1; by left|lia]. Qed.

(** Ids not given out yet name no records. *)
Definition heap_fresh (h : gmap FileRef DataFile) (n : Z) : Prop :=
  forall f file, n <= f -> h !! f = Some file -> live file = [].

Definition state_view (h : gmap FileRef DataFile) (s : EngineState) : gmap bytes bytes :=
  view (recs_of h) (key_dir s).

(** A flush that captured the first [m] groups. *)
Record flight_ok (ls : group_log) (m : nat) (db : DB) (fl : Flight) : Prop := {
  fk_pub : fl_published fl = state_ db;
  fk_head : state_ok (heap db) (fl_head fl);
  fk_same : same_files (fl_head fl) (head_ db);
  fk_view : state_view (heap db) (fl_head fl) = log_view v0 (take m ls);
  fk_next : next_seq (fl_head fl) = log_next next0 (take m ls);
  fk_need : fl_need_sync fl = (durable_seq (state_ db) <? sync_requested_seq (fl_head fl));
  fk_owed : 0 <= sync_requested_seq (fl_head fl) < next_seq (fl_head fl);
  fk_owed_le : sync_requested_seq (fl_head fl) <= sync_requested_seq (head_ db);
  fk_durable : faults_apart -> durable_to (heap db) (fl_head fl) (durable_seq (state_ db));
  fk_end : forall f, heap db !! active_file_id (fl_head fl) = Some f -> 0 <= fl_end fl <= logical_end f;
  fk_within : forall k e, key_dir (fl_head fl) !! k = Some e ->
    KeyDirEntry.file_id e = active_file_id (fl_head fl) -> entry_end k e <= fl_end fl;
  fk_old : forall k e, key_dir (head_ db) !! k = Some e ->
    key_dir (fl_head fl) !! k = Some e
    \/ (KeyDirEntry.file_id e = active_file_id (fl_head fl) /\ next_seq (fl_head fl) <= KeyDirEntry.sequence e);
  fk_stats : next_seq (fl_head fl) = next_seq (head_ db) -> file_stats (fl_head fl) = file_stats (head_ db);
  fk_new : advanced (state_ db) (fl_head fl)
}.

(** The head, while writes are accepted. *)
Record head_ok (ls : group_log) (n : nat) (db : DB) : Prop := {
  hk_head : state_ok (heap db) (head_ db);
  hk_same : same_files (state_ db) (head_ db);
  hk_view : state_view (heap db) (head_ db) = log_view v0 ls;
  hk_next : next_seq (head_ db) = log_next next0 ls;
  hk_owed : sync_requested_seq (head_ db) < next_seq (head_ db);
  hk_owed_le : sync_requested_seq (state_ db) <= sync_requested_seq (head_ db);
  hk_behind : durable_seq (head_ db) <= durable_seq (state_ db);
  hk_durable : faults_apart -> durable_to (heap db) (head_ db) (durable_seq (state_ db));
  hk_file : faults_apart -> forall f, heap db !! active_file_id (head_ db) = Some f -> sync_failed f = false;
  hk_fresh : heap_fresh (heap db) (next_file_id (head_ db));
  hk_stats : next_seq (state_ db) = next_seq (head_ db) -> file_stats (state_ db) = file_stats (head_ db);
  hk_error : flush_error db = None;
  hk_flight : forall fl, in_flight db = Some fl ->
    exists m, (n <= m <= length ls)%nat /\ flight_ok ls m db fl;
  hk_new : advanced (state_ db) (head_ db)
}.

(** The engine after the groups of [ls], the first [n] of them published. *)
Record inv (ls : group_log) (n : nat) (db : DB) : Prop := {
  iv_log : log_ok next0 ls;
  iv_n : (n <= length ls)%nat;
  iv_heap : heap_ok (heap db);
  iv_state : state_ok (heap db) (state_ db);
  iv_view : state_view (heap db) (state_ db) = log_view v0 (take n ls);
  iv_next : next_seq (state_ db) = log_next next0 (take n ls);
  iv_owed : 0 <= sync_requested_seq (state_ db)
            /\ sync_requested_seq (state_ db) <= durable_seq (state_ db) < next_seq (state_ db);
  iv_durable : faults_apart -> durable_to (heap db) (state_ db) (durable_seq (state_ db));
  iv_accepts : refused (state_ db) db = false -> head_ok ls n db;
  iv_refused : refused (state_ db) db = true -> in_flight db = None;
  iv_faults : faults_apart -> no_double_fault (oracle db) = true
}.

(** ** States on a grown heap *)

Lemma state_ok_mono h h' s : heap_ok h -> heap_le h h' -> state_ok h s -> state_ok h' s.
Proof.
  intros Hok Hle []. split; try done.
  - eapply wf_mono; [by apply heap_le_recs|done].
  - destruct so_file0 as [f Hf]. destruct (Hle _ _ Hf) as (f' & ? & _). by exists f'.
Qed.

Lemma state_view_mono h h' s : heap_ok h -> heap_le h h' -> state_ok h s -> state_view h' s = state_view h s.
Proof.
  intros Hok Hle Hs. apply view_mono; [by apply heap_le_recs|]. apply (wf_resolves _ _ (so_wf _ _ Hs)).
Qed.

Lemma durable_to_mono h h' s d : heap_le h h' -> durable_to h s d -> durable_to h' s d.
Proof.
  intros Hle Hd k e Hk Hc. destruct (Hd k e Hk Hc) as (f & Hf & He).
  destruct (Hle _ _ Hf) as (f' & Hf' & _ & Hs & _). exists f'. split; [done|lia].
Qed.

(** A key's record lies below the end of its file. *)
Lemma entry_end_below h s k e f :
  heap_ok h -> state_ok h s -> key_dir s !! k = Some e -> h !! KeyDirEntry.file_id e = Some f ->
  entry_end k e <= logical_end f.
Proof.
  intros Hok Hs Hk Hf. destruct (wf_resolves _ _ (so_wf _ _ Hs) k e Hk) as [_ (v & Hr & Hv)].
  apply (recs_of_below h _ f) in Hr as [_ Hb]; [|by apply (Hok _ _ Hf)|done].
  unfold entry_end, entry_size. unfold DataEntry.record_bytes in Hb. cbn in Hb. lia.
Qed.

(** Members the well-formedness of a state does not read. *)
Lemma state_ok_same h s s' :
  key_dir s' = key_dir s -> file_stats s' = file_stats s -> active_file_id s' = active_file_id s ->
  next_seq s' = next_seq s -> files s' = files s -> next_file_id s' = next_file_id s -> change_markers s' = change_markers s ->
  state_ok h s -> state_ok h s'.
Proof.
  intros E1 E2 E3 E4 E5 E6 E7 [W ? ? ? ? Hf Hb Hc He Hm]. split; rewrite ?E1, ?E2, ?E3, ?E4, ?E5, ?E6, ?E7; try done.
  destruct W. split; cbn in *; rewrite ?E1, ?E2, ?E3, ?E4; try done.
Qed.

(** ** File operations keep the invariant *)

Lemma grown_end f f' : file_ok f -> grown f f' -> logical_end f <= logical_end f'.
Proof.
  intros Hf (Hf' & _ & d & Hd). rewrite <-(length_live f Hf), <-(length_live f' Hf'), Hd, size_app. unfold size. lia.
Qed.

Lemma flight_ok_io ls m db db' fl :
  heap_ok (heap db) -> quiet_io db db' -> flight_ok ls m db fl -> flight_ok ls m db' fl.
Proof.
  intros Hok Q []. pose proof (qi_le _ _ Q) as Hle.
  split; rewrite ?(qi_state _ _ Q), ?(qi_head _ _ Q); try done.
  - by eapply state_ok_mono.
  - by rewrite (state_view_mono _ _ _ Hok Hle).
  - intros Hap. by eapply durable_to_mono; [|apply fk_durable0].
  - intros f' Hf'. destruct (so_file _ _ fk_head0) as [f Hf]. specialize (fk_end0 f Hf).
    destruct (Hle _ _ Hf) as (f1 & Hf1 & Hg). pose proof (grown_end _ _ (Hok _ _ Hf) Hg).
    assert (f1 = f') as -> by congruence. lia.
Qed.

Lemma inv_io ls n db db' :
  inv ls n db -> quiet_io db db' ->
  (refused (state_ db) db = false ->
     (faults_apart -> forall f, heap db' !! active_file_id (head_ db) = Some f -> sync_failed f = false)
     /\ heap_fresh (heap db') (next_file_id (head_ db))) ->
  inv ls n db'.
Proof.
  intros [] Q Hx. pose proof (qi_le _ _ Q) as Hle.
  assert (Hr : refused (state_ db') db' = refused (state_ db) db)
    by (unfold refused; by rewrite (qi_state _ _ Q), (qi_fault _ _ Q)).
  split; rewrite ?(qi_state _ _ Q), ?(qi_head _ _ Q), ?(qi_flight _ _ Q) in *; try done.
  - apply Q.
  - by eapply state_ok_mono.
  - by rewrite (state_view_mono _ _ _ iv_heap0 Hle).
  - intros Hap. by eapply durable_to_mono; [|apply iv_durable0].
  - rewrite Hr. intros Hno. destruct (Hx Hno) as [Hf Hfr]. destruct (iv_accepts0 Hno).
    split; rewrite ?(qi_state _ _ Q), ?(qi_head _ _ Q), ?(qi_flight _ _ Q), ?(qi_error _ _ Q); try done.
    + by eapply state_ok_mono.
    + by rewrite (state_view_mono _ _ _ iv_heap0 Hle).
    + intros Hap. by eapply durable_to_mono; [|apply hk_durable0].
    + intros fl Hfl. destruct (hk_flight0 fl Hfl) as (m & ? & ?). exists m. split; [done|]. by eapply flight_ok_io.
  - by rewrite Hr.
  - intros Hap. by eapply no_double_fault_suffix; [apply Q|apply iv_faults0].
Qed.

(** ** Refused states *)

(** A degraded copy of the published state, or of one published before it. *)
Lemma inv_degraded ls n db db' reason :
  inv ls n db -> heap_le (heap db) (heap db') -> heap_ok (heap db') ->
  oracle db' `suffix_of` oracle db -> in_flight db' = None ->
  state_ db' = degraded_copy (state_ db) reason \/ (state_ db' = state_ db /\ write_fault db' = true) ->
  inv ls n db'.
Proof.
  intros [] Hle Hok Ho Hfl Hs.
  assert (Hsame : key_dir (state_ db') = key_dir (state_ db) /\ file_stats (state_ db') = file_stats (state_ db)
    /\ active_file_id (state_ db') = active_file_id (state_ db) /\ next_seq (state_ db') = next_seq (state_ db)
    /\ files (state_ db') = files (state_ db) /\ next_file_id (state_ db') = next_file_id (state_ db)
    /\ durable_seq (state_ db') = durable_seq (state_ db)
    /\ sync_requested_seq (state_ db') = sync_requested_seq (state_ db)
    /\ change_markers (state_ db') = change_markers (state_ db))
    by (by destruct Hs as [-> | [-> _]]).
  destruct Hsame as (E1 & E2 & E3 & E4 & E5 & E6 & E7 & E8 & E9).
  assert (Hr : refused (state_ db') db' = true)
    by (unfold refused; destruct Hs as [-> | [_ ->]]; [done|by rewrite orb_true_r]).
  split; try done.
  - apply (state_ok_same _ (state_ db)); try done. by apply (state_ok_mono (heap db)).
  - rewrite <-iv_view0, <-(state_view_mono (heap db) (heap db') (state_ db)) by done.
    unfold state_view. by rewrite E1.
  - by rewrite E4.
  - by rewrite E4, E7, E8.
  - intros Hap k e. rewrite E1, E3, E7. by apply (durable_to_mono _ _ _ _ Hle (iv_durable0 Hap)).
  - by rewrite Hr.
  - intros Hap. by eapply no_double_fault_suffix, iv_faults0.
Qed.

End invariant.
