(* ===== verification/Reads.v ===== *)
(** * Reading

    Models the read path: [DB::get], [DB::contains_key] and [DB::snapshot]
    ([db.cpp]), and the members of [Snapshot] and the range reads of [DB]
    ([db_read.cpp]) with the iterators they return ([bytecask.cppm]) and the
    point reads of a data file ([data_file.cppm]), in both builds of the key
    directory.  A read works on one published state and on the file objects
    that state names; an iterator is the list of what its dereferences give.
    Which of the reads from disk fail is a parameter ([ReadFaults]).
    The per-thread cache a state comes from is in [ReadCache]; counters and
    scratch buffers are not modelled. *)

From S2P Require Import Prelude Codec KeyDir DataFile DataFileProofs FileScan EngineState EngineProofs Db Records Faults DbInv.
Import Serialization Types Stats Dir Plan.

(** ** Reading a record *)

(** The reads from disk that fail: of a file at an offset, and those a key
    directory without keys makes to place a key. *)
Class ReadFaults : Type := {
  record_fails : DataFile -> Z -> bool;
  place_fails : bytes -> bool
}.

Definition read_failed : exn := SystemError "bytecask: pread failed".

Section record_reads.
Context `{ReadFaults}.

(** [pread_exact]. *)
Definition pread_exact (f : DataFile) (offset len : Z) : result bytes :=
  _ ← throw_if (record_fails f offset) read_failed;
  let got := pread_upto (content f) offset len in
  _ ← throw_if (size got <? len) throw_short_read;
  Ok got.

(** [DataFile::fetch_record], over a disk that may fail. *)
Definition fetch `{Crc32c} (f : DataFile) (offset hint : Z) (verify : bool) : result DataEntry :=
  _ ← throw_if (record_fails f offset) read_failed;
  fetch_record f offset hint verify.
End record_reads.

Section reads.
Context `{Crc32c} `{KeyDirKind} `{ReadFaults}.

Definition read_entry_with_key_size (f : DataFile) (offset key_size value_size : Z) : result DataEntry :=
  let total := Z.of_nat DataEntry.kHeaderSize + key_size + value_size + Z.of_nat DataEntry.kCrcSize in
  raw ← pread_exact f offset total;
  h ← DataEntry.parse_header_and_verify raw;
  let body := drop DataEntry.kHeaderSize raw in
  Ok (mkDataEntry (DataEntry.sequence h) (DataEntry.entry_type h)
        (subspan body 0 (Z.to_nat key_size)) (subspan body (Z.to_nat key_size) (Z.to_nat value_size))).

Definition read_value (f : DataFile) (offset key_size value_size : Z) (verify : bool) : result bytes :=
  if verify then
    v ← read_entry_with_key_size f offset key_size value_size;
    Ok (de_value v)
  else pread_exact f (offset + Z.of_nat DataEntry.kHeaderSize + key_size) value_size.

(** The file a state names, by the registry. *)
Definition file_of (h : gmap FileRef DataFile) (s : EngineState) (id : Z) : result DataFile :=
  match files s !! id with
  | Some r => match h !! r with Some f => Ok f | None => Err (LogicError "no such file object") end
  | None => Err (LogicError "key directory references a data file missing from the registry")
  end.

(** [KeyReader::key_at] on a published state. *)
Definition key_at (h : gmap FileRef DataFile) (s : EngineState) (verify : bool) (e : KeyDirEntry) : result DataEntry :=
  f ← file_of h s (KeyDirEntry.file_id e);
  v ← fetch f (KeyDirEntry.file_offset e) 0 verify;
  _ ← throw_if (negb (bool_decide (de_type v = Put)))
        (RuntimeError "bytecask: corrupt database - key directory points at an entry that is not a put");
  Ok v.

(** ** Point reads *)

Definition contains_key (h : gmap FileRef DataFile) (s : EngineState) (verify : bool) (key : bytes) : result bool :=
  match kd_get (key_dir s) key with
  | None => Ok false
  | Some e =>
      if kKeyDirReadsKeys then v ← key_at h s verify e; Ok (bool_decide (de_key v = key))
      else Ok true
  end.

Definition get (h : gmap FileRef DataFile) (s : EngineState) (verify : bool) (key : bytes) : result (option bytes) :=
  match kd_get (key_dir s) key with
  | None => Ok None
  | Some kv =>
      if kKeyDirReadsKeys then
        v ← key_at h s verify kv;
        Ok (if bool_decide (de_key v = key) then Some (de_value v) else None)
      else if KeyDirEntry.value_size kv =? 0 then Ok (Some [])
      else
        key_size ← narrow 16 (size key);
        f ← file_of h s (KeyDirEntry.file_id kv);
        out ← read_value f (KeyDirEntry.file_offset kv) key_size (KeyDirEntry.value_size kv) verify;
        Ok (Some out)
  end.

(** ** Ranges *)

Definition kd_value_lower_bound (t : KeyDirTree) (from : bytes) : list (bytes * KeyDirEntry) :=
  if bool_decide (from = []) then kd_begin t else kd_lower_bound t from.

(** Down from the last key at or below [from], or from the last key. *)
Definition kd_value_rlower_bound (t : KeyDirTree) (from : bytes) : list (bytes * KeyDirEntry) :=
  reverse (if bool_decide (from = []) then kd_begin t else filter (fun p => key_le p.1 from) (kd_begin t)).

(** [EntryIterator::operator*]. *)
Definition entry_at (h : gmap FileRef DataFile) (s : EngineState) (verify : bool) (p : bytes * KeyDirEntry) : result (bytes * bytes) :=
  let '(_, e) := p in
  f ← file_of h s (KeyDirEntry.file_id e);
  let hint := if kKeyDirReadsKeys then 0 else KeyDirEntry.value_size e in
  v ← fetch f (KeyDirEntry.file_offset e) hint verify;
  Ok (de_key v, de_value v).

(** [KeyIterator::operator*]: a key directory without keys reads the record. *)
Definition key_of (h : gmap FileRef DataFile) (s : EngineState) (p : bytes * KeyDirEntry) : result bytes :=
  let '(k, e) := p in
  if kKeyDirReadsKeys then v ← key_at h s true e; Ok (de_key v) else Ok k.

(** The descent to a bound, which reads records where the key directory holds
    no keys. *)
Definition place (from : bytes) : result unit := throw_if (kKeyDirReadsKeys && place_fails from) read_failed.

Definition iter_from (h : gmap FileRef DataFile) (s : EngineState) (verify : bool) (from : bytes) : result (list (result (bytes * bytes))) :=
  _ ← place from;
  Ok $ entry_at h s verify <$> kd_value_lower_bound (key_dir s) from.

Definition riter_from (h : gmap FileRef DataFile) (s : EngineState) (verify : bool) (from : bytes) : result (list (result (bytes * bytes))) :=
  _ ← place from;
  Ok $ entry_at h s verify <$> kd_value_rlower_bound (key_dir s) from.

Definition keys_from (h : gmap FileRef DataFile) (s : EngineState) (from : bytes) : result (list (result bytes)) :=
  _ ← place from;
  Ok $ key_of h s <$> (if bool_decide (from = []) then kd_begin (key_dir s) else kd_lower_bound (key_dir s) from).

(** From the position past [kd_upper_bound], or past the end, back to the
    beginning. *)
Definition rkeys_from (h : gmap FileRef DataFile) (s : EngineState) (from : bytes) : result (list (result bytes)) :=
  _ ← place from;
  let past := if bool_decide (from = []) then [] else kd_upper_bound (key_dir s) from in
  Ok $ key_of h s <$> reverse (take (length (kd_begin (key_dir s)) - length past) (kd_begin (key_dir s))).

Definition count_keys (s : EngineState) (from to : bytes) (limit : Z) : result Z :=
  _ ← check_range from to;
  if limit =? 0 then Ok 0
  else
    _ ← place from;
    _ ← place to;
    Ok (kd_count (key_dir s) from to limit).

(** ** On the engine *)

(** The state a read of the engine works on. *)
Definition load_state_for_read : io DB EngineState :=
  s ← load_state;
  _ ← lift (throw_if (closed s) DbClosed);
  mret s.

Definition db_get (verify : bool) (key : bytes) : io DB (option bytes) :=
  s ← load_state_for_read; h ← gets heap; lift (get h s verify key).

Definition db_contains_key (verify : bool) (key : bytes) : io DB bool :=
  s ← load_state_for_read; h ← gets heap; lift (contains_key h s verify key).

(** [DB::snapshot]: the state, read later by [Snapshot]'s members. *)
Definition db_snapshot : io DB EngineState := load_state_for_read.

Definition db_iter_from (verify : bool) (from : bytes) : io DB (list (result (bytes * bytes))) :=
  s ← load_state_for_read; h ← gets heap; lift (iter_from h s verify from).

Definition db_riter_from (verify : bool) (from : bytes) : io DB (list (result (bytes * bytes))) :=
  s ← load_state_for_read; h ← gets heap; lift (riter_from h s verify from).

Definition db_keys_from (from : bytes) : io DB (list (result bytes)) :=
  s ← load_state_for_read; h ← gets heap; lift (keys_from h s from).

Definition db_rkeys_from (from : bytes) : io DB (list (result bytes)) :=
  s ← load_state_for_read; h ← gets heap; lift (rkeys_from h s from).
End reads.

(** ** What a read finds *)

Section found.
Context `{Crc32cLaws} `{KeyDirKind} `{ReadFaults}.

(** The read gives [a], unless a read from disk fails. *)
Definition unless_failed {A} (r : result A) (a : A) : Prop :=
  r = Ok a \/ r = Err read_failed /\ ((exists f off, record_fails f off = true) \/ exists k, place_fails k = true).

Lemma unless_failed_bind {A B} (r : result A) a (g : A -> result B) b :
  unless_failed r a -> unless_failed (g a) b -> unless_failed (r ≫= g) b.
Proof. intros [->|[-> Hf]]; [done|]. intros _. by right. Qed.

Lemma unless_record f off : unless_failed (throw_if (record_fails f off) read_failed) ().
Proof. destruct (record_fails f off) eqn:E; [|by left]. right. split; [done|]. left. by exists f, off. Qed.

Lemma unless_place k : unless_failed (place k) ().
Proof.
  unfold place. destruct (kKeyDirReadsKeys && place_fails k) eqn:E; [|by left]. apply andb_true_iff in E as [_ E].
  right. split; [done|]. right. by exists k.
Qed.

Lemma pread_exact_live f offset len :
  file_ok f -> 0 <= offset -> 0 <= len -> offset + len <= logical_end f ->
  unless_failed (pread_exact f offset len) (subspan (live f) (Z.to_nat offset) (Z.to_nat len)).
Proof.
  intros Hok Ho Hl Hb. unfold pread_exact. eapply unless_failed_bind; [apply unless_record|]. left. by rewrite pread_live, length_subspan_live, Z.ltb_irrefl.
Qed.

Lemma subspan_within (pre mid post : bytes) i n :
  (i + n <= length mid)%nat -> subspan (pre ++ mid ++ post) (length pre + i) n = subspan mid i n.
Proof.
  intros Hn. unfold subspan. rewrite <-drop_drop, drop_app_length, drop_app_le, take_app_le by (rewrite ?length_drop; lia). done.
Qed.

(** The value of a record, by its place in the image. *)
Lemma image_value e :
  DataEntry.valid_entry e ->
  subspan (drop DataEntry.kHeaderSize (image e)) (length (de_key e)) (length (de_value e)) = de_value e.
Proof.
  intros Hv. pose proof (record_view_image e false Hv) as Hr. unfold record_view in Hr. cbn [mbind result_bind] in Hr. injection Hr as Hr.
  rewrite <-Hr at 4. cbn [de_value header_of DataEntry.key_size DataEntry.value_size]. unfold size. by rewrite !Nat2Z.id.
Qed.

Lemma read_value_image f pre e post verify :
  file_ok f -> live f = pre ++ image e ++ post -> DataEntry.valid_entry e ->
  unless_failed (read_value f (size pre) (size (de_key e)) (size (de_value e)) verify) (de_value e).
Proof.
  intros Hok Hl Hv. pose proof (length_image e) as Hi. pose proof (length_live f Hok) as Hlen. rewrite Hl, !size_app in Hlen.
  unfold DataEntry.record_bytes, DataEntry.kHeaderSize, DataEntry.kCrcSize in Hi. unfold size in *. unfold read_value. destruct verify.
  - unfold read_entry_with_key_size, DataEntry.kHeaderSize, DataEntry.kCrcSize, size.
    destruct (pread_exact_live f (Z.of_nat (length pre)) (Z.of_nat 15 + Z.of_nat (length (de_key e)) + Z.of_nat (length (de_value e)) + Z.of_nat 4) Hok)
      as [->|[-> Hf]]; [lia..| |by right]. left. cbn [mbind result_bind].
    replace (Z.to_nat (Z.of_nat (length pre))) with (length pre + 0)%nat by lia. rewrite Hl, subspan_within by lia.
    assert (Es : subspan (image e) 0 (Z.to_nat (Z.of_nat 15 + Z.of_nat (length (de_key e)) + Z.of_nat (length (de_value e)) + Z.of_nat 4)) = image e)
      by (unfold subspan; rewrite drop_0, take_ge by lia; done).
    rewrite Es. pose proof (parse_image e Hv) as Hp. destruct (DataEntry.parse_header_and_verify (image e)) as [hd|]; [|done].
    cbn [mbind result_bind de_value]. rewrite !Nat2Z.id. f_equal. exact (image_value e Hv).
  - unfold DataEntry.kHeaderSize. destruct (pread_exact_live f (Z.of_nat (length pre) + Z.of_nat 15 + Z.of_nat (length (de_key e))) (Z.of_nat (length (de_value e))) Hok)
      as [->|?]; [lia..| |by right]. left. rewrite Hl.
    replace (Z.to_nat (Z.of_nat (length pre) + Z.of_nat 15 + Z.of_nat (length (de_key e)))) with (length pre + (15 + length (de_key e)))%nat by lia.
    rewrite Nat2Z.id, subspan_within by lia. f_equal. unfold subspan. rewrite <-drop_drop. exact (image_value e Hv).
Qed.

(** A state, and the files it names, possibly grown since. *)
Context (h h' : gmap FileRef DataFile) (s : EngineState).
Context (Hok : heap_ok h) (Hs : state_ok h s) (Hle : heap_le h h').

(** A key's record. *)
Lemma located k e :
  key_dir s !! k = Some e ->
  exists f v pre post, file_of h' s (KeyDirEntry.file_id e) = Ok f /\ file_ok f
    /\ live f = pre ++ image (mkDataEntry (KeyDirEntry.sequence e) Put k v) ++ post /\ size pre = KeyDirEntry.file_offset e
    /\ DataEntry.valid_entry (mkDataEntry (KeyDirEntry.sequence e) Put k v)
    /\ size v = KeyDirEntry.value_size e /\ state_view h s !! k = Some v.
Proof.
  intros Hk. destruct (wf_resolves _ _ (so_wf _ _ Hs) k e Hk) as [_ (v & Hr & Hv)]. cbn in Hk.
  assert (Hview : state_view h s !! k = Some v) by (unfold state_view, view; rewrite lookup_omap, Hk; cbn; unfold value_of; by rewrite Hr).
  destruct (h !! KeyDirEntry.file_id e) as [f0|] eqn:Hf0; [|unfold recs_of in Hr; by rewrite Hf0 in Hr].
  destruct (Hle _ _ Hf0) as (f & Hf & Hfok & _ & d & Hd).
  destruct (recs_of_image h _ f0 _ _ (Hok _ _ Hf0) Hf0 Hr) as (pre & post & Hl & Hpre & Hvalid).
  assert (Hfs : files s !! KeyDirEntry.file_id e = Some (KeyDirEntry.file_id e)).
  { apply (so_files _ _ Hs). split; [done|]. apply (wf_files _ _ (so_wf _ _ Hs) k e Hk). }
  exists f, v, pre, (post ++ d). split_and!; try done; [unfold file_of; by rewrite Hfs, Hf|]. by rewrite Hd, Hl, <-!app_assoc.
Qed.

Lemma value_size_nonneg k e : key_dir s !! k = Some e -> 0 <= KeyDirEntry.value_size e.
Proof. intros (f & v & pre & post & _ & _ & _ & _ & _ & <- & _)%located. unfold size. lia. Qed.

Lemma key_at_found verify k e :
  key_dir s !! k = Some e ->
  exists v, unless_failed (key_at h' s verify e) (mkDataEntry (KeyDirEntry.sequence e) Put k v) /\ state_view h s !! k = Some v.
Proof.
  intros (f & v & pre & post & Hf & Hfok & Hl & Hp & Hvalid & _ & Hv)%located. exists v. split; [|done].
  unfold key_at, fetch. rewrite Hf. cbn [mbind result_bind]. apply (unless_failed_bind _ (mkDataEntry (KeyDirEntry.sequence e) Put k v)); [|by left].
  eapply unless_failed_bind; [apply unless_record|]. left. by rewrite <-Hp, (fetch_record_image f pre (mkDataEntry (KeyDirEntry.sequence e) Put k v) post).
Qed.

Lemma state_view_lookup k : is_Some (state_view h s !! k) <-> is_Some (key_dir s !! k).
Proof.
  split.
  - unfold state_view, view. rewrite lookup_omap. destruct (key_dir s !! k) as [e|]; [by eexists|]. by intros [].
  - intros [e He]. destruct (located k e He) as (f & v & pre & post & _ & _ & _ & _ & _ & _ & Hv). by exists v.
Qed.

Lemma get_found verify k : unless_failed (get h' s verify k) (state_view h s !! k).
Proof.
  unfold get, kd_get. destruct (key_dir s !! k) as [e|] eqn:Hk.
  - destruct kKeyDirReadsKeys.
    + destruct (key_at_found verify k e Hk) as (v & Hr & Hv). eapply unless_failed_bind; [exact Hr|]. left. cbn. by rewrite bool_decide_true, Hv.
    + destruct (located k e Hk) as (f & v & pre & post & Hf & Hfok & Hl & Hp & Hvalid & Hsz & Hv). rewrite Hv.
      destruct (Z.eqb_spec (KeyDirEntry.value_size e) 0) as [Hz|_].
      { left. rewrite Hz in Hsz. unfold size in Hsz. destruct v; [done|cbn in Hsz; lia]. }
      unfold narrow. rewrite (proj2 (fitsb_true 16 (size k)) (DataEntry.ve_key _ Hvalid)). cbn [mbind result_bind]. rewrite Hf. cbn [mbind result_bind].
      pose proof (read_value_image f pre _ post verify Hfok Hl Hvalid) as Hr. cbn [de_key de_value] in Hr. rewrite Hp, Hsz in Hr.
      eapply unless_failed_bind; [exact Hr|by left].
  - left. assert (Hn : state_view h s !! k = None); [|by rewrite Hn].
    apply eq_None_not_Some. rewrite state_view_lookup, Hk. by intros [].
Qed.

Lemma contains_key_found verify k : unless_failed (contains_key h' s verify k) (bool_decide (is_Some (state_view h s !! k))).
Proof.
  unfold contains_key, kd_get. rewrite (bool_decide_ext _ _ (state_view_lookup k)). destruct (key_dir s !! k) as [e|] eqn:Hk; [|by left].
  rewrite (bool_decide_true (is_Some (Some e))) by by eexists. destruct kKeyDirReadsKeys; [|by left].
  destruct (key_at_found verify k e Hk) as (v & Hr & _). eapply unless_failed_bind; [exact Hr|]. left. cbn. by rewrite bool_decide_true.
Qed.

(** ** Ranges *)

(** The entries of a store in key order. *)
Definition kv_le (a b : bytes * bytes) : Prop := key_le a.1 b.1.
#[local] Instance kv_le_dec : RelDecision kv_le.
Proof. intros a b. unfold kv_le. apply _. Defined.

Definition kv_entries (m : gmap bytes bytes) : list (bytes * bytes) := merge_sort kv_le (map_to_list m).

Lemma entry_at_found verify k e :
  key_dir s !! k = Some e -> exists v, state_view h s !! k = Some v /\ unless_failed (entry_at h' s verify (k, e)) (k, v).
Proof.
  intros Hk. pose proof (value_size_nonneg k e Hk) as Hn. destruct (located k e Hk) as (f & v & pre & post & Hf & Hfok & Hl & Hp & Hvalid & _ & Hv).
  exists v. split; [done|]. unfold entry_at, fetch. rewrite Hf. cbn [mbind result_bind].
  apply (unless_failed_bind _ (mkDataEntry (KeyDirEntry.sequence e) Put k v)); [|by left].
  eapply unless_failed_bind; [apply unless_record|]. left.
  rewrite <-Hp, (fetch_record_image f pre (mkDataEntry (KeyDirEntry.sequence e) Put k v) post) by (done || by destruct kKeyDirReadsKeys). done.
Qed.

Lemma key_of_found k e : key_dir s !! k = Some e -> unless_failed (key_of h' s (k, e)) k.
Proof.
  intros Hk. unfold key_of. destruct kKeyDirReadsKeys; [|by left]. destruct (key_at_found true k e Hk) as (v & Hr & _).
  eapply unless_failed_bind; [exact Hr|by left].
Qed.

(** The value the store has for an entry's key. *)
Definition with_value (p : bytes * KeyDirEntry) : bytes * bytes := (p.1, default [] (state_view h s !! p.1)).

Lemma kd_begin_values : with_value <$> kd_begin (key_dir s) = kv_entries (state_view h s).
Proof.
  assert (Hkeys : (kd_begin (key_dir s)).*1 = (kv_entries (state_view h s)).*1).
  { apply (Sorted_unique key_le).
    - apply StronglySorted_Sorted, (StronglySorted_fmap fst entry_le key_le); [done|]. apply kd_begin_strong.
    - apply StronglySorted_Sorted, (StronglySorted_fmap fst kv_le key_le); [done|].
      apply Sorted_StronglySorted; [intros a b c; apply (transitivity (R := key_le))|]. apply Sorted_merge_sort. intros a b. apply (total key_le).
    - rewrite kd_begin_perm. unfold kv_entries. rewrite merge_sort_Permutation. apply NoDup_Permutation; [apply NoDup_fst_map_to_list..|].
      intros k. rewrite !list_elem_of_fmap. split.
      + intros ([k' e] & -> & He%elem_of_map_to_list). destruct (proj2 (state_view_lookup k') (mk_is_Some _ _ He)) as [v Hv]. exists (k', v). split; [done|]. by apply elem_of_map_to_list.
      + intros ([k' v] & -> & Hv%elem_of_map_to_list). destruct (proj1 (state_view_lookup k') (mk_is_Some _ _ Hv)) as [e He]. exists (k', e). split; [done|]. by apply elem_of_map_to_list. }
  transitivity ((fun k => (k, default [] (state_view h s !! k))) <$> (kd_begin (key_dir s)).*1); [by rewrite <-list_fmap_compose|].
  rewrite Hkeys, <-list_fmap_compose. rewrite <-(list_fmap_id (kv_entries _)) at 2. apply list_fmap_ext. intros i [k v] Hi%list_elem_of_lookup_2.
  unfold kv_entries in Hi. rewrite merge_sort_Permutation in Hi. apply elem_of_map_to_list in Hi. cbn. by rewrite Hi.
Qed.

Section part.
Context (P : bytes -> Prop) `{forall k, Decision (P k)}.

Lemma part_values : with_value <$> filter (fun p => P p.1) (kd_begin (key_dir s)) = filter (fun p => P p.1) (kv_entries (state_view h s)).
Proof.
  rewrite <-kd_begin_values. induction (kd_begin (key_dir s)) as [|p l IH]; [done|]. cbn [fmap list_fmap]. rewrite !filter_cons. cbn [with_value fst].
  destruct (decide (P p.1)); cbn [fmap list_fmap]; by rewrite IH.
Qed.

(** An iterator over part of the key directory. *)
Lemma iterated verify :
  Forall2 unless_failed (entry_at h' s verify <$> filter (fun p => P p.1) (kd_begin (key_dir s))) (filter (fun p => P p.1) (kv_entries (state_view h s))).
Proof.
  rewrite <-part_values. apply Forall2_fmap, Forall_Forall2_diag, Forall_forall. intros [k e] [_ Hi%elem_of_kd_begin]%list_elem_of_filter.
  destruct (entry_at_found verify k e Hi) as (v & Hv & Hr). unfold with_value. cbn [fst]. by rewrite Hv.
Qed.

Lemma keyed :
  Forall2 unless_failed (key_of h' s <$> filter (fun p => P p.1) (kd_begin (key_dir s))) (filter (fun p => P p.1) (kv_entries (state_view h s))).*1.
Proof.
  rewrite <-part_values, <-list_fmap_compose. apply Forall2_fmap, Forall_Forall2_diag, Forall_forall.
  intros [k e] [_ Hi%elem_of_kd_begin]%list_elem_of_filter. by apply key_of_found.
Qed.
End part.

Lemma filter_true {A} (P : A -> Prop) `{forall x, Decision (P x)} (l : list A) : (forall x, P x) -> filter P l = l.
Proof. intros HP. by apply filter_all. Qed.

Lemma key_le_not a b : key_lt a b <-> ~ key_le b a.
Proof.
  rewrite key_le_lteq. split.
  - intros Hl [Hr| ->]; [by apply (key_lt_irrefl a), (key_lt_trans a b a)|by apply (key_lt_irrefl a)].
  - intros Hn. destruct (key_lt_trichotomy a b) as [?|[->|?]]; [done|..]; exfalso; apply Hn; auto.
Qed.

(** The entries before a position are those not past it. *)
Lemma before_past from l :
  StronglySorted entry_le l -> take (length l - length (filter (fun p => key_lt from p.1) l)) l = filter (fun p => key_le p.1 from) l.
Proof.
  induction 1 as [|p l Hl IH Hp]; [done|]. rewrite !filter_cons. destruct (decide (key_lt from p.1)) as [Hlt|Hlt].
  - assert (Hall : forall q, q ∈ l -> key_lt from q.1).
    { intros q Hq. rewrite Forall_forall in Hp. specialize (Hp q Hq). apply key_le_lteq in Hp as [Hp|<-]; [by eapply key_lt_trans|done]. }
    rewrite (filter_all (fun p => key_lt from p.1)) by done. cbn [length]. rewrite Nat.sub_diag. rewrite decide_False by by apply key_le_not.
    symmetry. apply filter_all_not. intros q Hq. by apply key_le_not, Hall.
  - rewrite (decide_True (P := key_le p.1 from)) by (apply dec_stable; by rewrite <-key_le_not). cbn [length].
    rewrite Nat.sub_succ_l by apply length_filter. cbn [take]. by rewrite IH.
Qed.

(** An iterator whose dereferences give [l]. *)
Definition iterates {A} (r : result (list (result A))) (l : list A) : Prop := exists rs, unless_failed r rs /\ Forall2 unless_failed rs l.

Lemma iterates_placed {A} from (rs : list (result A)) l : Forall2 unless_failed rs l -> iterates (_ ← place from; Ok rs) l.
Proof. intros Hrs. exists rs. split; [|done]. eapply unless_failed_bind; [apply unless_place|by left]. Qed.

(** Every read of the state is a read of the store [m]. *)
Record reads_as (m : gmap bytes bytes) : Prop := {
  ra_get : forall verify k, unless_failed (get h' s verify k) (m !! k);
  ra_contains : forall verify k, unless_failed (contains_key h' s verify k) (bool_decide (is_Some (m !! k)));
  ra_iter : forall verify from, iterates (iter_from h' s verify from) (filter (fun p => key_le from p.1) (kv_entries m));
  ra_riter : forall verify from,
    iterates (riter_from h' s verify from) (reverse (filter (fun p => from = [] \/ key_le p.1 from) (kv_entries m)));
  ra_keys : forall from, iterates (keys_from h' s from) (filter (fun p => key_le from p.1) (kv_entries m)).*1;
  ra_rkeys : forall from, iterates (rkeys_from h' s from) (reverse (filter (fun p => from = [] \/ key_le p.1 from) (kv_entries m)).*1);
  ra_count : forall from to limit, 0 <= limit -> key_lt from to ->
    unless_failed (count_keys s from to limit)
      (Z.min limit (Z.of_nat (length (filter (fun p => key_le from p.1 /\ key_lt p.1 to) (kv_entries m)))));
  ra_no_range : forall from to limit, ~ key_lt from to -> exists msg, count_keys s from to limit = Err (InvalidArgument msg)
}.

Lemma down_from from :
  filter (fun p => from = [] \/ key_le p.1 from) (kd_begin (key_dir s))
  = if bool_decide (from = []) then kd_begin (key_dir s) else filter (fun p => key_le p.1 from) (kd_begin (key_dir s)).
Proof.
  case_bool_decide as Hf; [by apply filter_true; left|]. apply list_filter_iff. intros p. naive_solver.
Qed.

Lemma up_from from :
  filter (fun p => key_le from p.1) (kd_begin (key_dir s))
  = if bool_decide (from = []) then kd_begin (key_dir s) else kd_lower_bound (key_dir s) from.
Proof. case_bool_decide as Hf; [|done]. subst from. apply filter_true. intros p. apply key_le_nil. Qed.

Lemma state_reads : reads_as (state_view h s).
Proof.
  split.
  - exact get_found.
  - exact contains_key_found.
  - intros verify from. apply iterates_placed. unfold kd_value_lower_bound. rewrite <-up_from. apply (iterated (key_le from)).
  - intros verify from. apply iterates_placed. unfold kd_value_rlower_bound. rewrite <-down_from, fmap_reverse. apply Forall2_reverse.
    exact (iterated (fun k => from = [] \/ key_le k from) verify).
  - intros from. apply iterates_placed. rewrite <-up_from. apply (keyed (key_le from)).
  - intros from. apply iterates_placed. rewrite !fmap_reverse. apply Forall2_reverse.
    set (past := if bool_decide (from = []) then [] else _).
    assert (E : take (length (kd_begin (key_dir s)) - length past) (kd_begin (key_dir s)) = filter (fun p => from = [] \/ key_le p.1 from) (kd_begin (key_dir s))).
    { rewrite down_from. unfold past. case_bool_decide; [cbn [length]; by rewrite Nat.sub_0_r, take_ge|apply before_past, kd_begin_strong]. }
    rewrite E. exact (keyed (fun k => from = [] \/ key_le k from)).
  - intros from to limit Hl Hlt. unfold count_keys, check_range. rewrite (proj2 (key_ltb_spec from to) Hlt). cbn [negb throw_if mbind result_bind].
    assert (Hc : length (kd_range (key_dir s) from to) = length (filter (fun p => key_le from p.1 /\ key_lt p.1 to) (kv_entries (state_view h s)))).
    { pose proof (f_equal length (part_values (fun k => key_le from k /\ key_lt k to))) as E. rewrite length_fmap in E. etrans; [|exact E].
      rewrite kd_range_filter, list_filter_filter. f_equal. apply list_filter_iff. intros p. naive_solver. }
    rewrite <-Hc. destruct (Z.eqb_spec limit 0) as [->|]; [left; by rewrite Z.min_l by lia|].
    do 2 (eapply unless_failed_bind; [apply unless_place|]). by left.
  - intros from to limit Hn. unfold count_keys, check_range. rewrite (not_true_is_false (key_ltb from to)); [by eexists|]. by intros ?%key_ltb_spec.
Qed.
End found.

(** What the reads of the engine do: load the state, and read it. *)
Record engine_reads `{Crc32c} `{KeyDirKind} `{ReadFaults} (db : DB) (s : EngineState) : Prop := {
  er_snapshot : db_snapshot db = (Ok s, db);
  er_get : forall verify k, db_get verify k db = (get (heap db) s verify k, db);
  er_contains : forall verify k, db_contains_key verify k db = (contains_key (heap db) s verify k, db);
  er_iter : forall verify from, db_iter_from verify from db = (iter_from (heap db) s verify from, db);
  er_riter : forall verify from, db_riter_from verify from db = (riter_from (heap db) s verify from, db);
  er_keys : forall from, db_keys_from from db = (keys_from (heap db) s from, db);
  er_rkeys : forall from, db_rkeys_from from db = (rkeys_from (heap db) s from, db)
}.

(** C37: reads return the published store.  On an open engine that keeps its
    invariant, a snapshot is the published prefix of the log, and goes on being
    exactly that however the files grow afterwards: point reads, checks of
    presence, forward and backward scans of entries and of keys from any bound,
    and counts of a range, with or without checksum verification and in both
    builds of the key directory, give what the log says, or throw the system
    error of a read from disk that failed and nothing else; a count over an
    empty range is refused.  The reads of the engine itself are the snapshot's
    at that moment. *)
Theorem reads_show_log `{Crc32cLaws} `{KeyDirKind} `{FaultSpacing} `{ReadFaults} next0 v0 ls n db h' :
  inv next0 v0 ls n db -> closed (state_ db) = false -> heap_le (heap db) h' ->
  exists s, engine_reads db s /\ reads_as (heap db) s (log_view v0 (take n ls)) /\ reads_as h' s (log_view v0 (take n ls)).
Proof.
  intros I Hc Hle. rewrite <-(iv_view _ _ _ _ _ I). exists (state_ db).
  assert (El : load_state_for_read db = (Ok (state_ db), db)).
  { unfold load_state_for_read, load_state, gets, lift, mbind, io_bind, mret, io_ret. by rewrite Hc. }
  pose proof (iv_heap _ _ _ _ _ I) as Hok. pose proof (iv_state _ _ _ _ _ I) as Hs.
  split; [|by split; apply state_reads; try apply heap_le_refl].
  split; [exact El|..]; intros;
    unfold db_get, db_contains_key, db_iter_from, db_riter_from, db_keys_from, db_rkeys_from, gets, lift, mbind, io_bind; by rewrite El.
Qed.
