(* ===== verification/StateChecks.v ===== *)
(** * The engine's checks of its own states

    Models [DB::validate_state_consistency], which a recovered and a resumed
    state must pass before it is published, and the checks a debug build makes
    of every state [store_state] publishes ([db_state.cpp]).  Every state that
    keeps the engine's invariant passes them.  A walk over the key directory
    is a walk over its entries in key order; the walks of
    [validate_state_consistency] are only in test builds, which [testing]
    says. *)

From S2P Require Import Prelude Codec KeyDir DataFile DataFileProofs FileScan EngineState EngineProofs Db Records StageProofs Faults DbInv.
Import Serialization Types Stats Dir Plan.

(** ** The checks *)

Definition inconsistent (what : string) : exn := RuntimeError what.

(** 5. The markers ascend from 0 and lie below [next_seq]. *)
Fixpoint check_markers (next_seq prev : Z) (ms : list ChangeMarker) : result unit :=
  match ms with
  | [] => Ok ()
  | m :: ms =>
      _ ← throw_if (since_sequence m <=? prev) (inconsistent "state consistency: change marker out of order");
      _ ← throw_if (next_seq <=? since_sequence m) (inconsistent "state consistency: change marker at or above next_seq");
      check_markers next_seq (since_sequence m) ms
  end.

(** The walk of a test build: the live bytes of each file, and the highest
    sequence. *)
Fixpoint check_keys (s : EngineState) (l : list (bytes * KeyDirEntry)) (computed_live : gmap Z Z) (max_seq : Z)
    : result (gmap Z Z * Z) :=
  match l with
  | [] => Ok (computed_live, max_seq)
  | (k, e) :: l =>
      let id := KeyDirEntry.file_id e in
      _ ← throw_if (negb (bool_decide (is_Some (files s !! id)))) (inconsistent "state consistency: key references file_id not in registry");
      let sz := entry_size (size k) (KeyDirEntry.value_size e) in
      let fs := default FileStats_zero (file_stats s !! id) in
      _ ← throw_if (total_bytes fs <? u64_add (KeyDirEntry.file_offset e) sz) (inconsistent "state consistency: key ends past its file's committed extent");
      check_keys s l (<[id := u64_add (default 0 (computed_live !! id)) sz]> computed_live) (Z.max max_seq (KeyDirEntry.sequence e))
  end.

Definition sequences_coherent (fs : FileStats) : bool :=
  Bool.eqb (min_sequence fs =? 0) (max_sequence fs =? 0) && (min_sequence fs <=? max_sequence fs).

Definition validate_state_consistency (testing : bool) (s : EngineState) : result unit :=
  _ ← throw_if (negb (bool_decide (is_Some (files s !! active_file_id s)))) (inconsistent "state consistency: active_file_id not in files registry");
  _ ← throw_if (durable_seq s <? sync_requested_seq s) (inconsistent "state consistency: sync_requested_seq > durable_seq");
  _ ← throw_if (negb (forallb (fun p => bool_decide (is_Some (file_stats s !! p.1))) (map_to_list (files s))))
        (inconsistent "state consistency: file_id missing from file_stats");
  _ ← match change_markers s with Some ms => check_markers (next_seq s) 0 ms | None => Ok () end;
  _ ← (if testing then
         '(computed_live, max_seq) ← check_keys s (kd_begin (key_dir s)) ∅ 0;
         _ ← throw_if ((0 <? max_seq) && (next_seq s <=? max_seq)) (inconsistent "state consistency: next_seq <= max key_dir sequence");
         throw_if (negb (forallb (fun p => live_bytes p.2 =? default 0 (computed_live !! p.1)) (map_to_list (file_stats s))))
           (inconsistent "state consistency: live_bytes")
       else Ok ());
  throw_if (negb (forallb (fun p => sequences_coherent p.2) (map_to_list (file_stats s))))
    (inconsistent "state consistency: min_sequence and max_sequence").

(** The walk of a debug build's [store_state]; the first violation. *)
Definition entry_violation `{KeyDirKind} (s : EngineState) (p : bytes * KeyDirEntry) : option string :=
  let '(k, e) := p in
  match file_stats s !! KeyDirEntry.file_id e with
  | None => Some "invariant violation: key in a file which has no file_stats"%string
  | Some fs =>
      let past := if kKeyDirReadsKeys then total_bytes fs <=? KeyDirEntry.file_offset e
                  else total_bytes fs <? u64_add (KeyDirEntry.file_offset e) (entry_size (size k) (KeyDirEntry.value_size e)) in
      if past then Some "invariant violation: key past its file's committed extent"%string else None
  end.

Definition debug_violation `{KeyDirKind} (s : EngineState) : option string :=
  match omap (entry_violation s) (kd_begin (key_dir s)) with
  | v :: _ => Some v
  | [] =>
      if kKeyDirReadsKeys then None
      else if next_seq s <=? foldl (fun m p => Z.max m (KeyDirEntry.sequence p.2)) 0 (kd_begin (key_dir s))
           then Some "invariant violation: next_seq <= max key_dir sequence"%string else None
  end.

(** ** They pass *)

Section pass.
Context `{Crc32cLaws}.

Lemma check_markers_ok next prev ms :
  StronglySorted Z.lt (prev :: (since_sequence <$> ms)) -> Forall (fun m => since_sequence m < next) ms -> check_markers next prev ms = Ok ().
Proof.
  revert prev. induction ms as [|m ms IH]; intros prev Hs Hf; [done|]. cbn [check_markers].
  apply StronglySorted_inv in Hs as [Hs Hp]. apply Forall_cons in Hf as [Hm Hf]. cbn [fmap list_fmap] in Hp, Hs. apply Forall_cons in Hp as [Hp _].
  rewrite !(proj2 (Z.leb_gt _ _)) by done. cbn [throw_if mbind result_bind]. by apply IH.
Qed.

Context (h : gmap FileRef DataFile) (s : EngineState) (Hs : state_ok h s).

(** What the walk meets. *)
Lemma key_within k e :
  key_dir s !! k = Some e ->
  is_Some (files s !! KeyDirEntry.file_id e) /\ exists fs, file_stats s !! KeyDirEntry.file_id e = Some fs
    /\ u64_add (KeyDirEntry.file_offset e) (entry_size (size k) (KeyDirEntry.value_size e)) <= total_bytes fs
    /\ KeyDirEntry.file_offset e < total_bytes fs /\ KeyDirEntry.sequence e < next_seq s.
Proof.
  intros Hk. destruct (wf_files _ _ (so_wf _ _ Hs) k e Hk) as [fs Hfs]. cbn in Hfs. split.
  - exists (KeyDirEntry.file_id e). apply (so_files _ _ Hs). split; [done|by exists fs].
  - exists fs. split; [done|]. pose proof (so_extent _ _ Hs k e fs Hk Hfs) as He. unfold entry_end in He.
    destruct (wf_resolves _ _ (so_wf _ _ Hs) k e Hk) as [Ho (v & _ & Hv)]. pose proof (wf_seq _ _ (so_wf _ _ Hs) k e Hk) as Hq. cbn in Hq.
    destruct (wf_fit _ _ (so_wf _ _ Hs) _ _ Hfs) as [Ht _].
    assert (Hpos : 0 < entry_size (size k) (KeyDirEntry.value_size e)) by (unfold entry_size, DataEntry.kHeaderSize, DataEntry.kCrcSize; rewrite <-Hv; unfold size; lia).
    rewrite wrap_small by (unfold fits in *; lia). split_and!; lia.
Qed.

Lemma check_keys_ok l live max_seq :
  (forall k e, (k, e) ∈ l -> key_dir s !! k = Some e) -> (forall id, fits 64 (default 0 (live !! id))) -> max_seq < next_seq s ->
  exists live' max', check_keys s l live max_seq = Ok (live', max') /\ max' < next_seq s
    /\ forall id, default 0 (live' !! id) = wrap 64 (default 0 (live !! id) + lsum (fun p => live_weight id p.1 p.2) l).
Proof.
  revert live max_seq. induction l as [|[k e] l IH]; intros live max_seq Hl Hf Hm; cbn [check_keys].
  { eexists _, _. split_and!; [done|done|]. intros id. rewrite lsum_nil, Z.add_0_r. symmetry. by apply wrap_small. }
  destruct (key_within k e (Hl k e ltac:(left))) as (Hin & fs & Hfs & He & _ & Hq).
  rewrite bool_decide_true by done. rewrite Hfs. cbn [negb default throw_if mbind result_bind]. rewrite (proj2 (Z.ltb_ge _ _)) by done. cbn [throw_if mbind result_bind].
  destruct (IH (<[KeyDirEntry.file_id e := u64_add (default 0 (live !! KeyDirEntry.file_id e)) (entry_size (size k) (KeyDirEntry.value_size e))]> live)
    (Z.max max_seq (KeyDirEntry.sequence e))) as (live' & max' & E & Hm' & Hlive).
  - intros k' e' Hin'. apply Hl. by right.
  - intros id. destruct (decide (id = KeyDirEntry.file_id e)) as [->|]; [rewrite lookup_insert_eq; apply wrap_fits; lia|by rewrite lookup_insert_ne].
  - lia.
  - exists live', max'. split_and!; [done|done|]. intros id. rewrite Hlive, lsum_cons. cbn [fst snd]. unfold live_weight at 2.
    destruct (decide (id = KeyDirEntry.file_id e)) as [->|Hne].
    + rewrite lookup_insert_eq, Z.eqb_refl. cbn. rewrite wrap_add_l. f_equal. lia.
    + rewrite lookup_insert_ne by done. rewrite (proj2 (Z.eqb_neq _ _)) by congruence. by rewrite Z.add_0_l.
Qed.

Lemma forallb_map {A} (f : Z * A -> bool) (m : gmap Z A) : (forall k x, m !! k = Some x -> f (k, x) = true) -> forallb f (map_to_list m) = true.
Proof. intros Hf. apply forallb_forall. intros [k x] Hin%list_elem_of_In%elem_of_map_to_list. by apply Hf. Qed.

Lemma validate_ok testing : sync_requested_seq s <= durable_seq s -> validate_state_consistency testing s = Ok ().
Proof.
  intros Hd. unfold validate_state_consistency. rewrite bool_decide_true by (exists (active_file_id s); apply Hs). cbn [negb throw_if mbind result_bind].
  rewrite (proj2 (Z.ltb_ge _ _)) by done. cbn [throw_if mbind result_bind].
  rewrite (forallb_map _ (files s)) by (intros id r [_ Hst]%(so_files _ _ Hs); by apply bool_decide_true). cbn [negb throw_if mbind result_bind].
  assert (Em : match change_markers s with Some ms => check_markers (next_seq s) 0 ms | None => Ok () end = Ok ()).
  { destruct (change_markers s) as [ms|] eqn:E; [|done]. destruct (so_markers _ _ Hs ms E). by apply check_markers_ok. }
  rewrite Em. cbn [mbind result_bind].
  assert (Ec : forallb (fun p => sequences_coherent p.2) (map_to_list (file_stats s)) = true).
  { apply forallb_map. intros id fs Hfs. unfold sequences_coherent. cbn. destruct (so_coherent _ _ Hs id fs Hfs) as [[-> ->]|?]; [done|].
    rewrite !(proj2 (Z.eqb_neq _ _)) by lia. cbn. lia. }
  rewrite Ec. destruct testing; [|done].
  destruct (check_keys_ok (kd_begin (key_dir s)) ∅ 0) as (live & mx & -> & Hm & Hlive).
  { intros k e. by rewrite elem_of_kd_begin. }
  { intros id. rewrite lookup_empty. cbn. unfold fits. lia. }
  { apply (wf_next _ _ (so_wf _ _ Hs)). }
  cbn [mbind result_bind]. rewrite (proj2 (Z.leb_gt _ _) Hm), andb_false_r. cbn [throw_if mbind result_bind].
  rewrite forallb_map; [done|]. intros id fs Hfs. cbn. apply Z.eqb_eq. rewrite Hlive, lookup_empty. cbn [default]. rewrite Z.add_0_l.
  rewrite (lsum_perm _ _ _ (kd_begin_perm (key_dir s))). apply (wf_live _ _ (so_wf _ _ Hs) id fs Hfs).
Qed.

Lemma debug_ok `{KeyDirKind} : debug_violation s = None.
Proof.
  unfold debug_violation. assert (Hno : omap (entry_violation s) (kd_begin (key_dir s)) = []).
  { assert (Hall : forall l, (forall k e, (k, e) ∈ l -> key_dir s !! k = Some e) -> omap (entry_violation s) l = []); [|apply Hall; intros k e; by rewrite elem_of_kd_begin].
    induction l as [|[k e] l IH]; intros Hl; [done|]. cbn [omap list_omap entry_violation].
    destruct (key_within k e (Hl k e ltac:(left))) as (_ & fs & -> & He & Ho & _).
    destruct kKeyDirReadsKeys; [rewrite (proj2 (Z.leb_gt _ _)) by done|rewrite (proj2 (Z.ltb_ge _ _)) by done]; apply IH; intros; apply Hl; by right. }
  rewrite Hno. destruct kKeyDirReadsKeys; [done|].
  assert (Hmax : forall l m, (forall p, p ∈ l -> KeyDirEntry.sequence p.2 < next_seq s) -> m < next_seq s ->
    foldl (fun m (p : bytes * KeyDirEntry) => Z.max m (KeyDirEntry.sequence p.2)) m l < next_seq s).
  { induction l as [|p l IH]; intros m Hl Hm; [done|]. cbn [foldl]. apply IH; [intros q Hq; apply Hl; by right|]. specialize (Hl p ltac:(left)). lia. }
  rewrite (proj2 (Z.leb_gt _ _)); [done|]. apply Hmax; [|apply (wf_next _ _ (so_wf _ _ Hs))].
  intros [k e] Hin%elem_of_kd_begin. by destruct (key_within k e Hin) as (_ & _ & _ & _ & _ & ?).
Qed.
End pass.
