(* ===== verification/Resuming.v ===== *)
(** * Resuming a degraded engine

    Models [DB::resume] ([db_degraded.cpp]): the active file is rewritten
    durably, scanned, cut behind its last committed unit, sealed and replayed
    over the published state.

    The wait for the hint worker, the buffer pool, the change index and
    counters are not modelled. *)

From S2P Require Import Prelude Codec KeyDir DataFile FileScan EngineState Db StateChecks.
Import Serialization Types Stats Dir Plan.

(** ** The scan *)

(** An entry of the scan as [apply_resume] takes it.  The size of a value comes
    from a 32-bit field of its record. *)
Definition resume_entry (p : DataEntry * Z) : ResumeEntry :=
  let '(e, off) := p in
  mkResume (de_sequence e) (de_type e) off (size (de_value e)) (de_key e)
    (if bool_decide (de_type e = RangeDel) then de_value e else [])
    (if bool_decide (de_type e = EChangeMarker) then decode_marker_id (de_value e) else 0).

(** A failed read is thrown on; an entry that does not parse ends the scan. *)
Definition is_runtime_error (x : exn) : bool := match x with RuntimeError _ => true | _ => false end.

Definition resume_scan `{Crc32c} (f : DataFile) : result (list ResumeEntry * Z) :=
  let c := scan_committed f 0 DamageThrow in
  match cs_error c with
  | Some x => if is_runtime_error x then Ok (resume_entry <$> cs_entries c, cs_offset c) else Err x
  | None => Ok (resume_entry <$> cs_entries c, cs_offset c)
  end.

Definition published_extent (s : EngineState) : Z :=
  match file_stats s !! active_file_id s with Some fs => total_bytes fs | None => 0 end.

Definition kResumeDamaged : string :=
  "resume: active file ends inside data already published: damaged, or unsynced writes lost after a failed fdatasync; refusing to truncate it. Reopen the database to recover what the file holds".

Section resume.
Context `{Crc32c} `{KeyDirKind} (testing : bool) (stem_of : Z -> string) (rotation_threshold : Z).

(** The file made durable, scanned and cut: its committed entries and end.
    [extent] is what of it was published.  One outcome stands for the reads of
    the sweep, the first of which to fail is thrown on. *)
Definition resume_file (extent : Z) : io FileIO (list ResumeEntry * Z) :=
  n ← gets (fun s => df_size (fio_file s));
  _ ← rewrite_durably n;
  f ← gets fio_file;
  _ ← read_call "resume: sweep of the active file";
  '(committed, valid_offset) ← lift (resume_scan f);
  _ ← lift (throw_if (valid_offset <? extent) (RuntimeError kResumeDamaged));
  _ ← (if size (content f) =? valid_offset then mret () else truncate valid_offset);
  _ ← sync;
  mret (committed, valid_offset).

(** The state resumed into. *)
Definition resumed_copy (t : TransientEngineState) (rot : PreparedRotation) : EngineState :=
  let t := apply_rotate_file (sealed rot) (next rot) (next_id rot) t in
  persistent (apply_clear_degraded (apply_sync (if 0 <? t_next_seq t then t_next_seq t - 1 else 0) t)).

Definition resumed_state (t : TransientEngineState) (committed : list ResumeEntry) (valid_offset : Z) (rot : PreparedRotation)
    : result EngineState :=
  t ← apply_resume (t_active_file_id t) committed valid_offset t;
  _ ← validate_state_consistency testing (resumed_copy t rot);
  Ok (resumed_copy t rot).

(** The active file sealed behind its committed entries, and the next one
    created. *)
Definition resume_seal (current : EngineState) : io DB (list ResumeEntry * Z * PreparedRotation * TransientEngineState) :=
  let t := transient current in
  _ ← lift (throw_if (file_ids_left t =? 0) file_ids_exhausted);
  r ← lift (active_ref (t_files t) (t_active_file_id t));
  '(committed, valid_offset) ← on_file r (resume_file (published_extent current));
  read_only_old ← open_for_read r;
  _ ← dispatch_hint read_only_old;
  '(new_file_id, t) ← lift (reserve_file_id t);
  new_file ← create_active_file stem_of rotation_threshold new_file_id;
  mret (committed, valid_offset, mkRotation read_only_old new_file new_file_id, t).

(** Under the barrier. *)
Definition resume_locked : io DB unit :=
  current ← load_state;
  _ ← lift (throw_if (closed current) DbClosed);
  no ← gets (refused current);
  if negb no then mret ()
  else
    _ ← store_head current;
    '(committed, valid_offset, rot, t) ← resume_seal current;
    resumed ← lift (resumed_state t committed valid_offset rot);
    _ ← store_state current resumed;
    _ ← modify (set_flush_error None);
    modify (set_write_fault false).

(** [others] is what other threads do before this one has the lock. *)
Definition resume (others : DB -> DB) : io DB unit :=
  s ← load_state;
  _ ← lift (throw_if (closed s) DbClosed);
  no ← gets (refused s);
  if negb no then mret ()
  else _ ← modify others; with_role resume_locked.
End resume.
