(* ===== verification/FlushProofs.v ===== *)
(** * Flushes keep the invariant

    Capturing the head, landing the flush, and the barrier: each keeps the
    engine's invariant and publishes no less of the log than before; after a
    barrier the whole log is published or writes are refused. *)

From S2P Require Import Prelude Codec KeyDir DataFile DataFileProofs FileScan EngineState EngineProofs Db Records Faults DbInv.
Import Serialization Types Stats Dir Plan.

Section flushes.
Context `{Crc32cLaws} `{Apart : FaultSpacing} (next0 : Z) (v0 : gmap bytes bytes).

Abbreviation inv := (inv next0 v0).
Abbreviation flight_ok := (flight_ok next0 v0).
Abbreviation head_ok := (head_ok next0 v0).

Lemma same_files_refl s : same_files s s.
Proof. by split. Qed.

(** A capture of the whole head. *)
Lemma capture_ok ls n db f :
  inv ls n db -> refused (state_ db) db = false ->
  heap db !! active_file_id (head_ db) = Some f ->
  flight_ok ls (length ls) db
    (mkFlight (head_ db) (state_ db) (durable_seq (state_ db) <? sync_requested_seq (head_ db)) (logical_end f)).
Proof.
  intros I Hno Hf. destruct (iv_accepts _ _ _ _ _ I Hno) as [Hh Hs Hv Hn Ho Hol _ Hd _ _ _ _ _ Hnw].
  split; cbn [fl_head fl_published fl_need_sync fl_end]; try done.
  - by rewrite take_ge by lia.
  - by rewrite take_ge by lia.
  - pose proof (iv_owed _ _ _ _ _ I). lia.
  - intros f' Hf'. assert (f' = f) as -> by congruence.
    destruct (fo_end _ (iv_heap _ _ _ _ _ I _ _ Hf)). lia.
  - intros k e Hk Hid. rewrite <-Hid in Hf. by eapply entry_end_below; [apply (iv_heap _ _ _ _ _ I)|..].
  - by left.
Qed.

Lemma flush_load_spec ls n db :
  inv ls n db ->
  exists o, flush_load db = (Ok o, db)
    /\ match o with
       | Some fl => refused (state_ db) db = false /\ flight_ok ls (length ls) db fl /\ fl_head fl = head_ db
       | None => refused (state_ db) db = true
                 \/ (refused (state_ db) db = false /\ n = length ls
                     /\ sync_requested_seq (head_ db) <= durable_seq (state_ db))
       end.
Proof.
  intros I. unfold flush_load, load_head, load_state, gets, lift, mbind, io_bind, mret, io_ret.
  destruct (refused (state_ db) db) eqn:Hno; [exists None; auto|].
  pose proof (iv_accepts _ _ _ _ _ I Hno) as Hk.
  destruct ((next_seq (head_ db) <=? next_seq (state_ db)) && _) eqn:Hc.
  - exists None. split; [done|]. right. apply andb_true_iff in Hc as [Hle%Z.leb_le Hs].
    apply negb_true_iff, Z.ltb_ge in Hs. split_and!; [done| |done].
    apply (log_next_full next0); [apply I|apply I|].
    by rewrite <-(hk_next _ _ _ _ _ Hk), <-(iv_next _ _ _ _ _ I).
  - unfold active_ref. rewrite (so_active _ _ (hk_head _ _ _ _ _ Hk)).
    destruct (so_file _ _ (hk_head _ _ _ _ _ Hk)) as [f Hf]. unfold file_size. rewrite Hf.
    eexists. split; [done|]. cbn beta iota. split; [done|]. split; [|done]. by eapply capture_ok.
Qed.

(** [flush_start], when the role is free. *)
Lemma flush_start_spec ls n db :
  inv ls n db -> in_flight db = None ->
  exists db', flush_start db = (Ok (), db') /\ inv ls n db'
    /\ state_ db' = state_ db /\ head_ db' = head_ db /\ heap db' = heap db.
Proof.
  intros I Hfl. destruct (flush_load_spec ls n db I) as (o & E & Ho).
  unfold flush_start, modify, mbind, io_bind. rewrite E. eexists. split; [done|]. split; [|done].
  destruct o as [fl|].
  - destruct Ho as (Hno & Hk & _). destruct I as [I1 I2 I3 I4 I5 I6 I7 I8 I9 I10 I11]. split; cbn; try done.
    + intros _. destruct (I9 Hno) as [X1 X2 X3 X4 X5 X6 X7 X8 X9 X10 X11 X12 X13 X14]. split; cbn; try done.
      intros fl' [= <-]. exists (length ls). split; [lia|]. destruct Hk. by split.
    + intros Hr. change (refused (state_ db) db = true) in Hr. congruence.
  - rewrite <-Hfl. by destruct db.
Qed.

(** ** Landing *)

(** Files keep their bytes. *)
Record unmoved (h h' : gmap FileRef DataFile) : Prop := {
  um_dom : dom h' = dom h;
  um_same : forall r f, h !! r = Some f ->
    exists f', h' !! r = Some f' /\ content f' = content f /\ logical_end f' = logical_end f /\ path f' = path f
}.

Lemma unmoved_refl h : unmoved h h.
Proof. split; [done|]. intros r f Hf. by exists f. Qed.

Lemma unmoved_others act n h h' : unmoved h h' -> same_files_but act n h h'.
Proof.
  intros Hu r f _ Hf. destruct (um_same _ _ Hu r f Hf) as (f' & ? & Hc & Hl & ?). exists f'. split_and!; [done|done|].
  intros _. unfold live. by rewrite Hc, Hl.
Qed.

Lemma unmoved_small h h' : unmoved h h' -> heap_small h -> heap_small h'.
Proof.
  intros [Hd Hu] Hsm r f' Hf'. assert (is_Some (h !! r)) as [f Hf] by (apply elem_of_dom; rewrite <-Hd; by eapply elem_of_dom_2).
  destruct (Hu r f Hf) as (g & Hg & _ & Hl & _). assert (g = f') as -> by congruence. rewrite Hl. by apply (Hsm r).
Qed.

Lemma unmoved_trans a b c : unmoved a b -> unmoved b c -> unmoved a c.
Proof.
  intros [Da Hab] [Db Hbc]. split; [congruence|]. intros r f Hf. destruct (Hab r f Hf) as (g & Hg & Hc & He & Hp).
  destruct (Hbc r g Hg) as (g' & Hg' & Hc' & He' & Hp'). exists g'. split; [done|]. split_and!; congruence.
Qed.

Lemma unmoved_insert h r f f' :
  h !! r = Some f -> content f' = content f -> logical_end f' = logical_end f -> path f' = path f -> unmoved h (<[r := f']> h).
Proof.
  intros Hr Hc He Hp. split; [rewrite dom_insert_lookup_L; [done|by rewrite Hr]|].
  intros x g Hx. destruct (decide (x = r)) as [->|].
  - exists f'. rewrite lookup_insert_eq. split; [done|]. by simplify_eq.
  - exists g. by rewrite lookup_insert_ne.
Qed.

(** Publishing a captured prefix whose bytes are on disk if it owes a sync. *)
Lemma publish_flight ls n m db fl :
  inv ls n db -> refused (state_ db) db = false -> (n <= m <= length ls)%nat -> flight_ok ls m db fl ->
  (fl_need_sync fl = true -> faults_apart ->
     forall f, heap db !! active_file_id (fl_head fl) = Some f -> fl_end fl <= synced_end f) ->
  store_state (fl_published fl) (flushed_state fl) db = (Ok (), set_state (flushed_state fl) db)
  /\ inv ls m (set_in_flight None (set_state (flushed_state fl) db))
  /\ refused (flushed_state fl) (set_state (flushed_state fl) db) = false
  /\ durable_seq (state_ db) <= durable_seq (flushed_state fl).
Proof.
  intros I Hno Hm K Hsync. pose proof (iv_accepts _ _ _ _ _ I Hno) as Hh.
  pose proof (iv_owed _ _ _ _ _ I) as Hio. pose proof (iv_next _ _ _ _ _ I) as Hin.
  assert (Hseq : next_seq (state_ db) <= next_seq (fl_head fl)).
  { rewrite Hin, (fk_next _ _ _ _ _ _ K). apply log_next_le; [apply I|lia|lia]. }
  pose proof (wf_next _ _ (so_wf _ _ (fk_head _ _ _ _ _ _ K))) as Hpos. cbn in Hpos.
  pose proof (so_seq _ _ (fk_head _ _ _ _ _ _ K)) as Hsmax.
  assert (Hsub : u64_sub (next_seq (fl_head fl)) 1 = next_seq (fl_head fl) - 1).
  { apply wrap_small. unfold fits, KeyDirEntry.kMaxSequence in *. lia. }
  assert (Hneed : fl_need_sync fl = (durable_seq (state_ db) <? sync_requested_seq (fl_head fl))) by apply K.
  pose proof (fk_owed _ _ _ _ _ _ K) as Hfo.
  set (d := durable_seq (flushed_state fl)).
  assert (Hd : d = if fl_need_sync fl then next_seq (fl_head fl) - 1 else durable_seq (state_ db)).
  { unfold d. cbn. rewrite Hsub, (fk_pub _ _ _ _ _ _ K). done. }
  assert (Hdb : durable_seq (state_ db) <= d < next_seq (fl_head fl) /\ sync_requested_seq (fl_head fl) <= d).
  { rewrite Hd. destruct (fl_need_sync fl); [lia|]. symmetry in Hneed. apply Z.ltb_ge in Hneed. lia. }
  destruct (fk_same _ _ _ _ _ _ K) as [Fa Fn Ff Fm Fd Fr Fc].
  destruct (hk_same _ _ _ _ _ Hh) as [Sa Sn Sf Sm Sd Sr Sc].
  assert (Hdur : faults_apart -> durable_to (heap db) (fl_head fl) d).
  { intros Hap k e Hk Hc. destruct (fl_need_sync fl) eqn:Hns.
    - destruct (decide (KeyDirEntry.file_id e = active_file_id (fl_head fl))) as [Hid|Hid];
        [|apply (fk_durable _ _ _ _ _ _ K Hap k e Hk); by right].
      destruct (so_file _ _ (fk_head _ _ _ _ _ _ K)) as [f Hf]. exists f. rewrite Hid. split; [done|].
      etrans; [by apply (fk_within _ _ _ _ _ _ K)|by apply Hsync].
    - apply (fk_durable _ _ _ _ _ _ K Hap k e Hk). by rewrite <-Hd. }
  split; [|split; [|split; [by revert Hno; unfold refused; cbn; rewrite <-Fd, Sd|apply Hdb]]].
  { apply store_state_publishes; rewrite ?(fk_pub _ _ _ _ _ _ K); cbn [flushed_state next_seq active_file_id
      next_file_id sync_requested_seq]; try fold d; lia. }
  assert (Hnr : refused (flushed_state fl) (set_state (flushed_state fl) db) = false).
  { revert Hno. unfold refused. cbn. by rewrite <-Fd, Sd. }
  destruct I as [I1 I2 I3 I4 I5 I6 I7 I8 I9 I10 I11].
  split; cbn [set_in_flight set_state state_ head_ heap oracle in_flight]; try done; try lia.
  - apply (state_ok_same _ (fl_head fl)); try done. apply (fk_head _ _ _ _ _ _ K).
  - apply (fk_view _ _ _ _ _ _ K).
  - apply (fk_next _ _ _ _ _ _ K).
  - change (0 <= sync_requested_seq (fl_head fl) /\ sync_requested_seq (fl_head fl) <= d < next_seq (fl_head fl)). lia.
  - intros _. destruct Hh as [X1 X2 X3 X4 X5 X6 X7 X8 X9 X10 X11 X12 X13 X14].
    split; cbn [set_in_flight set_state state_ head_ heap in_flight]; try done.
    + apply (fk_owed_le _ _ _ _ _ _ K).
    + change (durable_seq (head_ db) <= d). lia.
    + intros Hap k e Hk Hc. destruct (fk_old _ _ _ _ _ _ K k e Hk) as [Hk'|[Hid Hge]].
      * apply (Hdur Hap k e Hk'). by rewrite Fa in Hc.
      * exfalso. fold d in Hc. rewrite Fa in Hc. destruct Hc as [Hc|Hc]; [lia|done].
    + apply (fk_stats _ _ _ _ _ _ K).
    + split; cbn [flushed_state key_dir active_file_id next_file_id files next_seq]; try done.
      * apply (fk_old _ _ _ _ _ _ K).
      * pose proof (log_next_le next0 ls m (length ls) I1) as Hle. rewrite (take_ge ls (length ls)) in Hle by lia.
        rewrite X4, (fk_next _ _ _ _ _ _ K). apply Hle; lia.
Qed.

Lemma inv_in_flight_none ls n db :
  inv ls n db -> inv ls n (set_in_flight None db).
Proof.
  intros [I1 I2 I3 I4 I5 I6 I7 I8 I9 I10 I11]. split; cbn [set_in_flight state_ head_ heap oracle in_flight]; try done.
  intros Hno. destruct (I9 Hno) as [X1 X2 X3 X4 X5 X6 X7 X8 X9 X10 X11 X12 X13 X14]. by split.
Qed.

(** A failed flush: the error is kept for the waiters and writes are refused. *)
Lemma flush_failed_spec ls n db db1 ex :
  inv ls n db -> quiet_io db db1 ->
  exists db', flush_failed ex (state_ db) db1 = (Ok (), db')
    /\ inv ls n (set_in_flight None db') /\ head_ db' = head_ db /\ in_flight db' = in_flight db
    /\ heap db' = heap db1 /\ oracle db' = oracle db1 /\ refused (state_ db') db' = true
    /\ flush_error db' = Some ex /\ durable_seq (state_ db') = durable_seq (state_ db)
    /\ advanced (state_ db) (state_ db').
Proof.
  intros I Q. unfold flush_failed, modify, mbind, io_bind. rewrite degrade_from_eq.
  eexists. split; [done|]. cbn. split_and!; try done; [|apply Q|apply Q|by apply advanced_same].
  eapply (inv_degraded _ _ ls n db _ _ I); cbn; [apply Q|apply Q|apply Q|done|by left].
Qed.

Lemma flush_land_spec ls n m db fl :
  inv ls n db -> refused (state_ db) db = false -> (n <= m <= length ls)%nat -> flight_ok ls m db fl ->
  exists db' n', flush_land fl db = (Ok (), db') /\ inv ls n' (set_in_flight None db') /\ (n <= n')%nat
    /\ head_ db' = head_ db /\ in_flight db' = in_flight db /\ unmoved (heap db) (heap db')
    /\ heap_le (heap db) (heap db') /\ durable_seq (state_ db) <= durable_seq (state_ db')
    /\ advanced (state_ db) (state_ db')
    /\ ((refused (state_ db') db' = true /\ flush_error db' <> None)
        \/ (n' = m /\ state_ db' = flushed_state fl /\ flush_error db' = flush_error db /\ refused (state_ db') db' = false)).
Proof.
  intros I Hno Hm K.
  assert (Hadv : advanced (state_ db) (flushed_state fl)).
  { eapply advanced_trans; [apply (fk_new _ _ _ _ _ _ K)|]. by apply advanced_same. }
  unfold flush_land, lift, active_ref. unfold mbind at 1, io_bind at 1.
  rewrite (so_active _ _ (fk_head _ _ _ _ _ _ K)).
  destruct (so_file _ _ (fk_head _ _ _ _ _ _ K)) as [f Hf].
  pose proof (iv_heap _ _ _ _ _ I) as Hok. pose proof (fk_end _ _ _ _ _ _ K f Hf) as He.
  pose proof (iv_accepts _ _ _ _ _ I Hno) as Hh. destruct (fk_same _ _ _ _ _ _ K) as [Fa _ _ _ _ _ _].
  assert (Hsf : faults_apart -> sync_failed f = false) by (intros Hap; apply (hk_file _ _ _ _ _ Hh Hap); by rewrite <-Fa in Hf).
  destruct (sync_to_same (fl_end fl) f) as (Sc & Se & Sp & Sx).
  destruct (fl_need_sync fl) eqn:Hns.
  - unfold attempt. unfold mbind at 1, io_bind at 1.
    destruct (fdatasync_cases "WritableFileOps::sync: fdatasync failed" _ (fl_end fl) f db Hok Hf He)
      as (res & db1 & E & Q & _ & Hh1 & _). rewrite E. destruct res as [[]|x].
    + assert (I1 : inv ls n db1).
      { apply (inv_io _ _ ls n db); [done|done|]. intros _. rewrite Hh1. split.
        - rewrite Fa. intros Hap f' Hf'. rewrite lookup_insert_eq in Hf'. injection Hf' as <-. rewrite Sx. auto.
        - intros r g Hr Hg. apply (hk_fresh _ _ _ _ _ Hh r); [done|]. destruct (so_ids _ _ (fk_head _ _ _ _ _ _ K)).
          rewrite lookup_insert_ne in Hg; [done|]. pose proof (sf_next_file _ _ (fk_same _ _ _ _ _ _ K)). lia. }
      destruct (publish_flight ls n m db1 fl I1) as (-> & I2 & Hnr & Hdd); [|done|by eapply flight_ok_io| |].
      { unfold refused. by rewrite (qi_state _ _ Q), (qi_fault _ _ Q). }
      { intros _ Hap f' Hf'. rewrite Hh1, lookup_insert_eq in Hf'. injection Hf' as <-. apply sync_to_synced. auto. }
      eexists _, m. split; [done|]. cbn. split_and!; try done; [lia|apply Q|apply Q| |apply Q| |].
      * rewrite Hh1. by apply (unmoved_insert _ _ f).
      * rewrite <-(qi_state _ _ Q). exact Hdd.
      * right. split_and!; [done|done|apply Q|done].
    + rewrite (fk_pub _ _ _ _ _ _ K).
      destruct (flush_failed_spec ls n db db1 x I Q) as (db' & -> & I' & E1 & E2 & E3 & E4 & E5 & E6 & E7 & E8).
      exists db', n. split_and!; try done; rewrite ?E3; [|apply Q|lia|left; by rewrite E6].
      rewrite Hh1. by apply (unmoved_insert _ _ f).
  - unfold mbind, io_bind, mret, io_ret.
    destruct (publish_flight ls n m db fl I Hno Hm K) as (-> & I2 & Hnr & Hdd); [congruence|].
    eexists _, m. split; [done|]. cbn [set_state state_ head_ in_flight heap flush_error].
    split_and!; try done; [lia|apply unmoved_refl|by apply heap_le_refl|]. by right.
Qed.

(** ** What other threads leave of a state

    New keys are in the active file or in files with new ids, under new
    sequences; ids are given out once; a sealed file stays registered as it
    is, and its file object keeps its name and its bytes. *)
Record evolved (db db' : DB) : Prop := {
  ev_keys : forall k e, key_dir (state_ db') !! k = Some e ->
    key_dir (state_ db) !! k = Some e
    \/ ((KeyDirEntry.file_id e = active_file_id (state_ db) \/ next_file_id (state_ db) <= KeyDirEntry.file_id e)
        /\ next_seq (state_ db) <= KeyDirEntry.sequence e);
  ev_active : active_file_id (state_ db') = active_file_id (state_ db) \/ next_file_id (state_ db) <= active_file_id (state_ db');
  ev_next_file : next_file_id (state_ db) <= next_file_id (state_ db');
  ev_files : forall id, id < next_file_id (state_ db) -> id <> active_file_id (state_ db) -> files (state_ db') !! id = files (state_ db) !! id;
  ev_seq : next_seq (state_ db) <= next_seq (state_ db');
  ev_heap : forall r f, r < next_file_id (state_ db) -> heap db !! r = Some f ->
    exists f', heap db' !! r = Some f' /\ path f' = path f /\ synced_end f <= synced_end f' /\ live f `prefix_of` live f'
      /\ (r <> active_file_id (state_ db) -> live f' = live f)
}.

Lemma evolved_refl db : evolved db db.
Proof. split; try done; [by left|by left|]. intros r f _ Hf. exists f. by split_and!. Qed.

Lemma evolved_trans a b c : evolved a b -> evolved b c -> evolved a c.
Proof.
  intros [K1 A1 N1 F1 S1 P1] [K2 A2 N2 F2 S2 P2]. split; [| |lia| |lia|].
  - intros k e [Hk|[Hf Hs]]%K2; [by apply K1|]. right. split; [|lia]. destruct Hf as [->|?], A1; auto; right; lia.
  - destruct A2 as [->|?]; [done|]. right. lia.
  - intros id Hi Ha. rewrite F2 by (try lia; destruct A1; lia). by apply F1.
  - intros r f Hr Hf. destruct (P1 r f Hr Hf) as (g & Hg & Hp & Hs & Hl & Hb). destruct (P2 r g ltac:(lia) Hg) as (g' & Hg' & Hp' & Hs' & Hl' & Hb').
    exists g'. split_and!; [done|congruence|lia|by etrans|]. intros Ha. rewrite Hb', Hb; [done|done|]. destruct A1; lia.
Qed.

Lemma evolved_heap db db' r f :
  heap_le (heap db) (heap db') -> same_files_but (active_file_id (state_ db)) (next_file_id (state_ db)) (heap db) (heap db') ->
  r < next_file_id (state_ db) -> heap db !! r = Some f ->
  exists f', heap db' !! r = Some f' /\ path f' = path f /\ synced_end f <= synced_end f' /\ live f `prefix_of` live f'
    /\ (r <> active_file_id (state_ db) -> live f' = live f).
Proof.
  intros Hle Hp Hr Hf. destruct (Hle r f Hf) as (f' & Hf' & _ & Hs & d & Hd). destruct (Hp r f Hr Hf) as (g & Hg & Hpg & Hlg).
  assert (g = f') as -> by congruence. exists f'. split_and!; try done. by exists d.
Qed.

Lemma advanced_evolved db db' :
  advanced (state_ db) (state_ db') -> same_files_but (active_file_id (state_ db)) (next_file_id (state_ db)) (heap db) (heap db') -> heap_le (heap db) (heap db') -> evolved db db'.
Proof.
  intros [K A N F S] Hp Hle. split; try done; [|by left|lia|by rewrite F|intros r f; by apply evolved_heap].
  intros k e [?|[? ?]]%K; [by left|right]. auto.
Qed.

(** The files new in the state have the names [stem] gave them, and files stay
    small. *)
Record continued (stem : Z -> string) (db db' : DB) : Prop := {
  cn_evolved : evolved db db';
  cn_new : forall id, is_Some (file_stats (state_ db') !! id) -> is_Some (file_stats (state_ db) !! id)
    \/ (next_file_id (state_ db) <= id < next_file_id (state_ db') /\ exists f, heap db' !! id = Some f /\ path f = stem id);
  cn_small : heap_small (heap db) -> heap_small (heap db')
}.

Lemma continued_refl stem db : continued stem db db.
Proof. split; [apply evolved_refl|by left|done]. Qed.

Lemma continued_trans stem a b c : continued stem a b -> continued stem b c -> continued stem a c.
Proof.
  intros [E1 N1 S1] [E2 N2 S2]. split; [by eapply evolved_trans| |auto]. pose proof (ev_next_file _ _ E1). pose proof (ev_next_file _ _ E2).
  intros id [Hb|[Hi Hf]]%N2; [|right; split; [lia|done]]. destruct (N1 id Hb) as [?|[Hi (f & Hf & Hp)]]; [by left|right].
  split; [lia|]. destruct (ev_heap _ _ E2 id f ltac:(lia) Hf) as (f' & Hf' & Hp' & _). exists f'. split; [done|congruence].
Qed.

Lemma evolved_continued stem db db' :
  evolved db db' -> (forall id, is_Some (file_stats (state_ db') !! id) -> is_Some (file_stats (state_ db) !! id)) ->
  (heap_small (heap db) -> heap_small (heap db')) -> continued stem db db'.
Proof. intros Ev Hn Hs. split; [done| |done]. intros id Hi. left. by apply Hn. Qed.

(** Members of the engine that readers do not see. *)
Lemma continued_same stem db db' db'' :
  continued stem db db' -> state_ db'' = state_ db' -> heap db'' = heap db' -> continued stem db db''.
Proof. intros [[] ? ?] Es Eh. split; [split| |]; by rewrite ?Es, ?Eh. Qed.

Lemma quiet_continued stem db db' : quiet_io db db' -> continued stem db db'.
Proof.
  intros Q. apply evolved_continued; [|by rewrite (qi_state _ _ Q)|apply Q]. apply advanced_evolved; [|apply Q..].
  rewrite (qi_state _ _ Q). apply advanced_refl.
Qed.

(** ** Whole flushes *)

(** After a flush: more of the log is published, nothing else moved. *)
Record flushed (ls : group_log) (n n' : nat) (db db' : DB) : Prop := {
  fd_inv : inv ls n' db';
  fd_more : (n <= n')%nat;
  fd_free : in_flight db' = None;
  fd_head : head_ db' = head_ db;
  fd_unmoved : unmoved (heap db) (heap db');
  fd_le : heap_le (heap db) (heap db');
  fd_durable : durable_seq (state_ db) <= durable_seq (state_ db');
  fd_refused : refused (state_ db) db = true -> refused (state_ db') db' = true;
  fd_clear : flush_error db' = None -> flush_error db = None;
  fd_advanced : advanced (state_ db) (state_ db')
}.

Lemma flushed_refl ls n db : inv ls n db -> in_flight db = None -> flushed ls n n db db.
Proof. intros I Hfl. split; try done; [apply unmoved_refl|apply heap_le_refl, I|apply advanced_refl]. Qed.

Lemma flushed_trans ls a b c x y z : flushed ls a b x y -> flushed ls b c y z -> flushed ls a c x z.
Proof.
  intros [] []. split; try done; [lia|congruence|by eapply unmoved_trans|by eapply heap_le_trans|lia|auto|auto|].
  by eapply advanced_trans.
Qed.

Lemma flushed_continued stem ls n n' db db' : inv ls n db -> flushed ls n n' db db' -> continued stem db db'.
Proof.
  intros I F. apply evolved_continued.
  - apply advanced_evolved; [apply F|by apply unmoved_others, F|apply F].
  - intros id Hi. apply (so_files _ _ (iv_state _ _ _ _ _ I) id id). rewrite <-(av_files _ _ (fd_advanced _ _ _ _ _ F)).
    by apply (so_files _ _ (iv_state _ _ _ _ _ (fd_inv _ _ _ _ _ F))).
  - apply unmoved_small, F.
Qed.

Lemma flush_land_done ls n m db fl :
  inv ls n db -> refused (state_ db) db = false -> (n <= m <= length ls)%nat -> flight_ok ls m db fl ->
  exists db' n', flush_land fl db = (Ok (), db') /\ flushed ls n n' db (set_in_flight None db')
    /\ ((refused (state_ db') db' = true /\ flush_error db' <> None)
        \/ (n' = m /\ state_ db' = flushed_state fl /\ refused (state_ db') db' = false)).
Proof.
  intros I Hno Hm K.
  destruct (flush_land_spec ls n m db fl I Hno Hm K) as (db' & n' & E & I' & Hn & E1 & E2 & E3 & E4 & E5 & E6 & Hc).
  exists db', n'. split; [done|]. split; [|destruct Hc as [?|(?&?&?&?)]; auto].
  split; try done; [congruence|].
  destruct Hc as [[_ Hx]|(_ & _ & Hw & _)]; cbn; congruence.
Qed.

Lemma flush_finish_spec ls n db :
  inv ls n db -> exists db' n', flush_finish db = (Ok (), db') /\ flushed ls n n' db db'.
Proof.
  intros I. unfold flush_finish, gets. unfold mbind at 1, io_bind at 1.
  destruct (in_flight db) as [fl|] eqn:Hfl.
  - assert (Hno : refused (state_ db) db = false).
    { destruct (refused (state_ db) db) eqn:Hr; [|done].
      by rewrite (iv_refused _ _ _ _ _ I Hr) in Hfl. }
    destruct (hk_flight _ _ _ _ _ (iv_accepts _ _ _ _ _ I Hno) fl Hfl) as (m & Hm & K).
    destruct (flush_land_done ls n m db fl I Hno Hm K) as (db' & n' & E & F & _).
    unfold try_catch, mbind, io_bind. rewrite E. by exists (set_in_flight None db'), n'.
  - exists db, n. split; [done|]. by apply flushed_refl.
Qed.

(** The whole head is published, with every sync it owes. *)
Definition caught_up (ls : group_log) (n : nat) (db : DB) : Prop :=
  n = length ls /\ sync_requested_seq (head_ db) <= durable_seq (state_ db).

Lemma flush_pending_spec ls n db :
  inv ls n db -> in_flight db = None ->
  exists db' n', flush_pending db = (Ok (), db') /\ flushed ls n n' db db'
    /\ (refused (state_ db') db' = true \/ caught_up ls n' db')
    /\ (refused (state_ db) db = false -> refused (state_ db') db' = true -> flush_error db' <> None).
Proof.
  intros I Hfl. unfold flush_pending. unfold mbind, io_bind.
  destruct (flush_load_spec ls n db I) as (o & E & Ho). rewrite E.
  pose proof (flushed_refl ls n db I Hfl) as Hself.
  destruct o as [fl|].
  - destruct Ho as (Hno & K & Hhd).
    destruct (flush_land_done ls n (length ls) db fl I Hno) as (db' & n' & E' & F & Hc);
      [pose proof (iv_n _ _ _ _ _ I); lia|done|].
    assert (Hnone : set_in_flight None db' = db').
    { destruct (flush_land_spec ls n (length ls) db fl I Hno) as (db2 & n2 & E2 & _ & _ & _ & Hf2 & _);
        [pose proof (iv_n _ _ _ _ _ I); lia|done|]. rewrite E' in E2. injection E2 as <-.
      rewrite Hfl in Hf2. destruct db'. cbn in *. by subst. }
    rewrite Hnone in F. exists db', n'. split; [done|]. split; [done|]. split.
    + destruct Hc as [[Hr _]|(-> & Hs & _)]; [by left|right]. split; [done|].
      pose proof (iv_owed _ _ _ _ _ (fd_inv _ _ _ _ _ F)) as (_ & Ho & _). rewrite Hs in Ho |- *.
      rewrite (fd_head _ _ _ _ _ F), <-Hhd. exact Ho.
    + intros _ Hr. destruct Hc as [[_ ?]|(_ & _ & Hnr)]; [done|congruence].
  - exists db, n. split; [done|]. split; [done|]. destruct Ho as [Hr|(Hno & -> & Hs)].
    + split; [by left|congruence].
    + split; [by right|congruence].
Qed.

(** [flush_once] with the role free. *)
Lemma flush_once_spec ls n db :
  inv ls n db -> in_flight db = None ->
  exists db' n', (_ ← flush_start; flush_finish) db = (Ok (), db') /\ flushed ls n n' db db'
    /\ ((refused (state_ db') db' = true /\ (refused (state_ db) db = false -> flush_error db' <> None))
        \/ (refused (state_ db') db' = false /\ caught_up ls n' db')).
Proof.
  intros I Hfl. destruct (flush_start_spec ls n db I Hfl) as (db1 & E1 & I1 & S1 & H1 & P1).
  destruct (flush_load_spec ls n db I) as (o & E & Ho).
  unfold mbind, io_bind. rewrite E1. revert E1. unfold flush_start, modify, mbind, io_bind. rewrite E. intros [= <-].
  unfold flush_finish, gets. unfold mbind at 1, io_bind at 1. cbn [set_in_flight in_flight]. destruct o as [fl|].
  - destruct Ho as (Hno & K & Hhd). pose proof (iv_n _ _ _ _ _ I).
    destruct (flush_land_done ls n (length ls) (set_in_flight (Some fl) db) fl I1 Hno) as (db' & n' & E' & F & Hc);
      [lia|by destruct K|].
    unfold try_catch, mbind, io_bind. rewrite E'. exists (set_in_flight None db'), n'. split; [done|].
    split; [by destruct F|]. destruct Hc as [[Hr He]|(-> & Hs & Hr)]; [by left|right]. split; [done|]. split; [done|].
    pose proof (iv_owed _ _ _ _ _ (fd_inv _ _ _ _ _ F)) as (_ & Hod & _). cbn in Hod |- *.
    pose proof (fd_head _ _ _ _ _ F) as Hfh. cbn in Hfh. rewrite Hs in Hod |- *. rewrite Hfh, <-Hhd. exact Hod.
  - exists (set_in_flight None db), n. split; [done|]. split.
    + destruct (flushed_refl ls n (set_in_flight None db) (inv_in_flight_none _ _ _ I) eq_refl). by split.
    + destruct Ho as [Hr|(Hno & -> & Hs)]; [left|right]; [|done]. split; [done|]. intros. congruence.
Qed.

Lemma quiesce_spec ls n db :
  inv ls n db ->
  exists db' n', quiesce db = (Ok (), db') /\ flushed ls n n' db db'
    /\ (refused (state_ db') db' = true \/ caught_up ls n' db').
Proof.
  intros I. unfold quiesce. unfold mbind, io_bind.
  destruct (flush_finish_spec ls n db I) as (db1 & n1 & -> & F1).
  destruct (flush_pending_spec ls n1 db1 (fd_inv _ _ _ _ _ F1) (fd_free _ _ _ _ _ F1))
    as (db2 & n2 & E2 & F2 & Hc & _).
  unfold try_catch. rewrite E2. exists db2, n2. split; [done|]. split; [by eapply flushed_trans|done].
Qed.

(** Resetting the head to the published state. *)
Lemma release_role_spec ls n db :
  inv ls n db -> in_flight db = None ->
  (refused (state_ db) db = true \/ n = length ls) ->
  (refused (state_ db) db = false ->
     (faults_apart -> forall f, heap db !! active_file_id (state_ db) = Some f -> sync_failed f = false)
     /\ heap_fresh (heap db) (next_file_id (state_ db))) ->
  release_role db = (Ok (), set_head (state_ db) db) /\ inv ls n (set_head (state_ db) db).
Proof.
  intros I Hfl Hc Hx. split; [done|].
  pose proof (iv_view _ _ _ _ _ I) as Hv. pose proof (iv_next _ _ _ _ _ I) as Hn.
  destruct I as [I1 I2 I3 I4 I5 I6 I7 I8 I9 I10 I11].
  split; cbn [set_head state_ head_ heap oracle in_flight]; try done.
  intros Hno. change (refused (state_ db) db = false) in Hno. destruct Hc as [Hr| ->]; [congruence|].
  destruct (Hx Hno) as [Hf Hfr]. rewrite take_ge in * by lia.
  split; cbn [set_head state_ head_ heap in_flight]; try done; [lia|apply (I9 Hno)|by rewrite Hfl|apply advanced_refl].
Qed.

End flushes.
