(* ===== verification/RotationProofs.v ===== *)
(** * Appends and rotation, on the engine's files

    What an append, and each step of a rotation, does to the file objects:
    the bytes below a file's end stay, records appended are where the plan
    placed them, and the new file of a rotation is empty. *)

From S2P Require Import Prelude Codec KeyDir DataFile DataFileProofs FileScan EngineState EngineProofs Db Commit Records StageProofs Faults DbInv FlushProofs.
Import Serialization Types Stats Dir Plan.

Section rotations.
Context `{Crc32cLaws}.

(** An operation of a file that throws only on failed calls and keeps what the
    file holds. *)
Lemma on_file_run {A} r (m : io FileIO A) f db res s :
  heap_ok (heap db) -> heap db !! r = Some f -> honest m ->
  m (mkFileIO f (oracle db)) = (res, s) -> grown f (fio_file s) -> path (fio_file s) = path f -> r = active_file_id (state_ db) ->
  (logical_end f <= 2 ^ 32 -> logical_end (fio_file s) <= 2 ^ 32) ->
  exists db', on_file r m db = (res, db') /\ quiet_io db db' /\ consumed res (oracle db) (oracle db')
    /\ heap db' = <[r := fio_file s]> (heap db) /\ hint_queue db' = hint_queue db.
Proof.
  intros Hok Hr Hm E Hg Hp Hact Hsm. rewrite (on_file_eq _ _ f), E by done.
  pose proof (Hm (mkFileIO f (oracle db))) as Hc. rewrite E in Hc. cbn [fst snd fio_oracle] in Hc.
  eexists. split; [done|]. split_and!; try done. split; cbn; try done.
  - by eapply heap_le_insert.
  - apply (same_files_but_insert _ _ _ _ f); auto.
  - intros Hh. apply heap_small_insert; [|done]. by apply Hsm, (Hh r).
  - apply heap_ok_insert; [done|apply Hg].
  - by eapply consumed_suffix.
Qed.

(** ** Appending *)

Lemma appended_grown f f' es : appended f f' es -> grown f f'.
Proof. intros []. split; [done|]. split; [lia|]. by exists (images es). Qed.

Lemma valid_writable es : Forall DataEntry.valid_entry es -> Forall writable es.
Proof. intros Hv. eapply Forall_impl; [exact Hv|]. intros e [? ? Hk Hx _]. split; [apply Hk|apply Hx]. Qed.

Lemma append_cases l es r f db :
  (0 < max_entries l)%nat -> heap_ok (heap db) -> heap db !! r = Some f -> Forall DataEntry.valid_entry es ->
  r = active_file_id (state_ db) -> logical_end f + DataFile.total_bytes es <= 2 ^ 32 ->
  exists res db' f', on_file r (append_entries l es) db = (res, db') /\ quiet_io db db'
    /\ consumed res (oracle db) (oracle db') /\ heap db' = <[r := f']> (heap db)
    /\ (oracle db = [] -> is_ok res = true /\ oracle db' = [])
    /\ match res with
       | Ok _ => appended f f' es
       | Err _ => exists n, appended f f' (take n es)
       end.
Proof.
  intros Hm Hok Hr Hv%valid_writable Hact Hsm.
  destruct (append_chunks_spec l (length es) es (mkFileIO f (oracle db)) Hm (Hok _ _ Hr) Hv (Nat.le_refl _))
    as (res & s & E & Q & R).
  assert (Hg : exists n, appended f (fio_file s) (take n es)).
  { destruct res as [offs|x]; [exists (length es); rewrite take_ge by done; apply R|destruct R as (n & _ & R); by exists n]. }
  destruct Hg as (n & A). assert (Hle : logical_end (fio_file s) <= 2 ^ 32).
  { rewrite (ap_end _ _ _ A). rewrite <-(take_drop n es), total_bytes_app in Hsm. pose proof (total_bytes_nonneg (drop n es)). cbn. lia. }
  destruct (on_file_run r (append_entries l es) f db res s Hok Hr) as (db' & E' & Q' & Hc & Hh & _);
    [by apply honest_append_entries|done|by eapply appended_grown|apply A|done|done|].
  exists res, db', (fio_file s). split_and!; try done.
  - intros Ho. destruct (Q Ho) as [Hres _]. split; [done|]. destruct (qi_oracle _ _ Q') as [pre Hp].
    rewrite Ho in Hp. by destruct pre.
  - destruct res; [apply R|]. by exists n.
Qed.

(** What is appended to whole units in whole units. *)
Lemma appended_units f f' us us' :
  starts_with f us -> live f = images (concat us) -> appended f f' (concat us') -> Forall unit_of us' -> Forall sweepable (concat us') ->
  starts_with f' (us ++ us') /\ live f' = images (concat (us ++ us')).
Proof.
  intros [Hu Hsw _] Hl A Hu' Hsw'. assert (Hl' : live f' = images (concat (us ++ us'))) by (by rewrite concat_app, images_app, <-Hl, (ap_live _ _ _ A)).
  split; [|done]. split; [by apply Forall_app|by rewrite concat_app, Forall_app|by rewrite Hl'].
Qed.

Lemma appended_framed f f' us' :
  framed f -> appended f f' (concat us') -> Forall unit_of us' -> Forall sweepable (concat us') -> framed f'.
Proof. intros (us & Hs & Hl) A Hu Hsw. exists (us ++ us'). by eapply appended_units. Qed.

Lemma placed_units h r file us pre es post :
  file_ok file -> h !! r = Some file -> starts_with file us -> concat us = pre ++ es ++ post ->
  placed_at (recs_of h) r (DataFile.total_bytes pre) es.
Proof.
  intros Hok Hr Hs. revert pre. induction es as [|e es IH]; intros pre Hus; [constructor|]. constructor.
  - apply (recs_of_spec h r file _ e Hok Hr). by exists us, pre, (es ++ post).
  - change (placed_at (recs_of h) r (DataFile.total_bytes pre + DataEntry.record_bytes e) es).
    replace (DataFile.total_bytes pre + DataEntry.record_bytes e) with (DataFile.total_bytes (pre ++ [e]))
      by (rewrite total_bytes_app; unfold DataFile.total_bytes; rewrite lsum_cons, lsum_nil; lia).
    apply IH. by rewrite Hus, <-app_assoc.
Qed.

(** The records of an append are where [offsets_from] says. *)
Lemma appended_placed h r f f' us' :
  file_ok f -> framed f -> appended f f' (concat us') -> h !! r = Some f' -> Forall unit_of us' -> Forall sweepable (concat us') ->
  placed_at (recs_of h) r (logical_end f) (concat us').
Proof.
  intros Hf (us & Hs & Hl) A Hr Hu Hsw. destruct (appended_units f f' us us' Hs Hl A Hu Hsw) as [Hs' _].
  rewrite <-(length_live f Hf), Hl, length_images. apply (placed_units h r f' (us ++ us') _ _ []); [apply A|done|done|].
  by rewrite concat_app, app_nil_r.
Qed.

(** ** Sealing a file *)

Lemma honest_ftruncate what n : honest (ftruncate what n).
Proof.
  intros [f os]. unfold ftruncate, next_outcome. destruct os as [|[|[|k]] os]; cbn.
  - by exists [].
  - by exists [Done].
  - by exists [], O.
  - by exists [], (S k).
Qed.

Lemma honest_shrink_to_fit : honest shrink_to_fit.
Proof.
  apply honest_bind; [apply honest_gets|]. intros n.
  apply honest_bind; [apply honest_ftruncate|]. intros _.
  apply honest_bind; [|intros _; apply honest_update].
  apply honest_bind; [apply honest_gets|]. intros f. apply honest_fdatasync_to.
Qed.

(** The file's bytes cut at its end. *)
Definition trimmed (f : DataFile) : DataFile := set_content (live f) f.

Lemma trimmed_ok f : file_ok f -> file_ok (trimmed f).
Proof.
  intros Hok. pose proof (length_live f Hok) as Hl. destruct Hok as [H1 H2 H3].
  split; cbn; [|done|done]. rewrite Hl. lia.
Qed.

Lemma live_trimmed f : live (trimmed f) = live f.
Proof. unfold trimmed, live. cbn. rewrite take_take. f_equal. lia. Qed.

Lemma ftruncate_end what f os :
  file_ok f -> exists res s, ftruncate what (logical_end f) (mkFileIO f os) = (res, s)
    /\ match res with Ok _ => fio_file s = trimmed f | Err _ => fio_file s = f \/ fio_file s = trimmed f end.
Proof.
  intros [_ _ Hs]. assert (Hcut : set_synced_end (Z.min (synced_end f) (logical_end f))
    (set_content (take (Z.to_nat (logical_end f)) (content f)) f) = trimmed f).
  { unfold trimmed, live, set_synced_end, set_content. cbn. by rewrite Z.min_l by lia. }
  unfold ftruncate, next_outcome. cbn. destruct os as [|[|[|k]] os]; cbn; rewrite ?Hcut.
  all: eexists _, _; (split; [done|]); cbn; auto.
Qed.

Lemma fdatasync_end what f os :
  exists res s, fdatasync what (mkFileIO f os) = (res, s)
    /\ fio_file s = match res with Ok _ => sync_to (logical_end f) f | Err _ => set_sync_failed true f end.
Proof.
  unfold fdatasync, fdatasync_to, next_outcome. cbn.
  destruct os as [|[|n] os]; cbn; by eexists _, _.
Qed.

Lemma shrink_to_fit_spec f os :
  file_ok f ->
  exists res s, shrink_to_fit (mkFileIO f os) = (res, s) /\ grown f (fio_file s) /\ path (fio_file s) = path f
    /\ logical_end (fio_file s) = logical_end f
    /\ (is_ok res = true -> content (fio_file s) = live f /\ sync_failed (fio_file s) = sync_failed f).
Proof.
  intros Hok. assert (Hgt : grown f (trimmed f)).
  { split; [by apply trimmed_ok|]. split; [done|]. exists []. by rewrite live_trimmed, app_nil_r. }
  unfold shrink_to_fit, gets. unfold mbind, io_bind. cbn [fio_file].
  destruct (ftruncate_end "WritableFileOps::shrink_to_fit: ftruncate failed" f os Hok) as (r1 & [f1 os1] & -> & H1).
  cbn [fio_file] in H1. destruct r1 as [[]|x].
  2: { eexists _, _. split; [done|]. cbn. destruct H1 as [-> | ->]; (split; [by apply grown_refl || done|done]). }
  subst f1. destruct (fdatasync_end "WritableFileOps::shrink_to_fit: fdatasync failed" (trimmed f) os1) as (r2 & [f2 os2] & -> & H2).
  cbn [fio_file] in H2. pose proof (trimmed_ok f Hok) as Hokt. pose proof (fo_end _ Hokt).
  destruct r2 as [[]|x].
  2: { eexists _, _. split; [done|]. cbn. subst f2. split; [|done].
       destruct (set_sync_failed_grown (trimmed f) true Hokt) as (? & ? & d & Hd).
       split; [done|]. split; [done|]. exists d. by rewrite live_trimmed in Hd. }
  eexists _, _. split; [done|]. subst f2. unfold update_file. cbn [fio_file].
  assert (Hlog : logical_end (sync_to (logical_end (trimmed f)) (trimmed f)) = logical_end f)
    by (unfold sync_to; by case_match).
  pose proof (sync_to_grown (trimmed f) (logical_end (trimmed f)) Hokt ltac:(lia)) as ([G1 G2 G3] & Gs & d & Gd).
  split_and!.
  - split; [split; cbn; [done|right; lia|done]|]. split; [done|]. exists d. rewrite live_trimmed in Gd. exact Gd.
  - cbn. unfold sync_to. by case_match.
  - done.
  - intros _. cbn. split; unfold sync_to; by case_match.
Qed.

(** A read-only object of a file with nothing past its end. *)
Lemma open_for_read_spec r f db :
  heap_ok (heap db) -> heap db !! r = Some f -> size (content f) = logical_end f ->
  exists res db', open_for_read r db = (res, db') /\ quiet_io db db' /\ heap db' = heap db
    /\ hint_queue db' = hint_queue db /\ (is_ok res = true -> res = Ok r)
    /\ (oracle db = [] -> res = Ok r /\ oracle db' = []).
Proof.
  intros Hok Hr He. unfold open_for_read. unfold mbind at 1, io_bind at 1.
  destruct (syscall_same "open failed" db) as (r1 & db1 & -> & (os & Ho & ->) & N).
  assert (Q : quiet_io db (set_oracle os db)) by (split; try done; [by apply heap_le_refl|apply same_files_but_refl]).
  destruct r1 as [[]|x]; [|eexists _, _; split; [done|]; split_and!; try done; intros E; by destruct (N E)].
  unfold mbind, io_bind. rewrite (on_file_eq _ _ f) by done. unfold update_file. cbn [fio_file fio_oracle].
  assert (Hsame : <[r := set_logical_end (size (content f)) f]> (heap (set_oracle os db)) = heap db).
  { cbn. rewrite He. replace (set_logical_end (logical_end f) f) with f by (by destruct f). by apply insert_id. }
  eexists _, _. split; [done|]. cbn [set_oracle set_heap heap] in Hsame |- *.
  split_and!; try done; [|intros E; by destruct (N E)]. split; cbn; rewrite ?Hsame; try done; [by apply heap_le_refl|apply same_files_but_refl].
Qed.

(** ** The next active file *)

Lemma honest_adopt n cap : honest (adopt n cap).
Proof.
  apply honest_bind; [apply honest_update|]. intros _.
  apply honest_bind; [apply honest_update|]. intros _.
  apply honest_bind; [apply honest_update|]. intros _.
  destruct (_ && _); [apply honest_ensure_zeroed|apply honest_ret].
Qed.

(** A new, empty file. *)
Definition empty_file (p : string) : DataFile := mkDataFile p [] 0 0 0 0 false.

Lemma adopt_empty p cap os :
  0 <= cap ->
  exists res s, adopt 0 cap (mkFileIO (empty_file p) os) = (res, s)
    /\ grown (empty_file p) (fio_file s) /\ logical_end (fio_file s) = 0 /\ sync_failed (fio_file s) = false /\ path (fio_file s) = p
    /\ (os = [] -> res = Ok () /\ fio_oracle s = []).
Proof.
  intros Hcap. unfold adopt, update_file. unfold mbind, io_bind. cbn [fio_file fio_oracle].
  set (f := set_capacity cap (set_zeroed_end 0 (set_logical_end 0 (empty_file p)))). assert (Hf : file_ok f) by (split; unfold size; cbn; lia).
  destruct ((0 =? 0) && (0 <? cap)).
  - destruct (ensure_zeroed_keeps 1 (mkFileIO f os)) as (res & s & E & K & Q & _); [done|].
    exists res, s. split; [exact E|]. destruct K as [K1 K2 K3 K4 K5 K6 K7]. cbn [fio_file] in *.
    split; [split; [done|]; split; [by rewrite K6|]; exists []; by rewrite K3|]. split; [by rewrite K2|]. split; [by rewrite K7|]. split; [by rewrite K4|].
    intros ->. by destruct (Q eq_refl).
  - eexists _, _. split; [done|]. cbn. split; [split; [done|]; split; [done|]; by exists []|done].
Qed.

(** Whatever was under the id. *)
Lemma create_active_file_run stem cap id db :
  0 <= cap -> heap_ok (heap db) ->
  exists res db' os, create_active_file stem cap id db = (res, db') /\ os `suffix_of` oracle db
    /\ (db' = set_oracle os db \/ exists f, db' = set_oracle os (set_heap (<[id := f]> (heap db)) db)
          /\ file_ok f /\ logical_end f = 0 /\ sync_failed f = false)
    /\ (is_ok res = true -> res = Ok id /\ exists f, heap db' !! id = Some f /\ logical_end f = 0 /\ sync_failed f = false /\ path f = stem id)
    /\ (oracle db = [] -> is_ok res = true /\ os = []).
Proof.
  intros Hcap Hok. unfold create_active_file. unfold mbind at 1, io_bind at 1.
  destruct (syscall_same "WritableFileOps: open failed" db) as (r1 & db1 & -> & (os & Ho & ->) & N1).
  destruct r1 as [[]|x]; [|eexists _, _, os; split; [done|]; split; [done|]; split; [by left|]; split; [done|]; intros E; by destruct (N1 E)].
  unfold modify. unfold mbind at 1, io_bind at 1. fold (empty_file (stem id)).
  set (db1 := set_heap _ _). unfold mbind at 1, io_bind at 1.
  assert (Hf1 : heap db1 !! id = Some (empty_file (stem id))) by apply lookup_insert_eq.
  destruct (adopt_empty (stem id) cap os Hcap) as (r2 & [f2 os2] & E2 & [G2 _] & L2 & S2 & P2 & N2). cbn [fio_file] in *.
  pose proof (honest_adopt 0 cap (mkFileIO (empty_file (stem id)) os)) as Hc. rewrite E2 in Hc. apply consumed_suffix in Hc. cbn in Hc.
  rewrite (on_file_eq _ _ _ _ Hf1). change (oracle db1) with os. rewrite E2. cbn [fio_file fio_oracle].
  assert (Hh : set_oracle os2 (set_heap (<[id := f2]> (heap db1)) db1) = set_oracle os2 (set_heap (<[id := f2]> (heap db)) db)).
  { unfold db1, set_heap, set_oracle. cbn. by rewrite insert_insert_eq. }
  rewrite Hh. destruct r2 as [[]|x].
  2: { eexists _, _, os2. split; [done|]. split_and!; [by etrans|right; by exists f2|done|]. intros E. destruct (N1 E) as [_ Eo]. cbn in Eo. by destruct (N2 Eo). }
  unfold mbind, io_bind.
  destruct (syscall_same "sync_directory failed" (set_oracle os2 (set_heap (<[id := f2]> (heap db)) db))) as (r3 & db3 & -> & (os3 & Ho3 & ->) & N3).
  cbn in Ho3. destruct r3 as [[]|x]; (eexists _, _, os3; split; [done|]); split_and!; try (by etrans; [|etrans]); try (right; by exists f2); try done.
  - intros _. split; [done|]. exists f2. split; [apply lookup_insert_eq|done].
  - intros E. split; [done|]. destruct (N1 E) as [_ Eo]. cbn in Eo. destruct (N2 Eo) as [_ Eo2]. cbn in N3. by destruct (N3 Eo2).
  - intros E. destruct (N1 E) as [_ Eo]. cbn in Eo. destruct (N2 Eo) as [_ Eo2]. cbn in N3. by destruct (N3 Eo2).
Qed.

Lemma empty_live f : logical_end f = 0 -> live f = [].
Proof. intros E. unfold live. by rewrite E, take_0. Qed.

Lemma create_active_file_spec stem cap id db :
  0 <= cap -> heap_ok (heap db) -> heap_fresh (heap db) id -> next_file_id (state_ db) <= id ->
  exists res db', create_active_file stem cap id db = (res, db') /\ quiet_io db db'
    /\ heap_fresh (heap db') id /\ hint_queue db' = hint_queue db
    /\ (forall r, r <> id -> heap db' !! r = heap db !! r)
    /\ (is_ok res = true -> res = Ok id
         /\ exists f, heap db' !! id = Some f /\ logical_end f = 0 /\ sync_failed f = false /\ path f = stem id).
Proof.
  intros Hcap Hok Hfr Hid. destruct (create_active_file_run stem cap id db Hcap Hok) as (res & db' & os & E & Ho & Hdb & X & _).
  exists res, db'. split; [done|]. destruct Hdb as [->|(f & -> & Hf & Lf & _)].
  - split_and!; try done. split; try done; [by apply heap_le_refl|apply same_files_but_refl].
  - pose proof (empty_live f Lf) as Hlf. split_and!; try done.
    + split; try done; cbn [heap set_oracle set_heap];
        [|intros r g Hr Hg; exists g; by rewrite lookup_insert_ne by lia|intros ?; apply heap_small_insert; [lia|done]|by apply heap_ok_insert]. intros r g Hg. destruct (decide (r = id)) as [->|Hne].
      * exists f. rewrite lookup_insert_eq. split; [done|]. pose proof (Hfr id g ltac:(lia) Hg) as Hl. pose proof (Hok _ _ Hg) as Hg'.
        pose proof (length_live g Hg') as Hs. rewrite Hl in Hs. change (size []) with 0 in Hs. destruct Hg' as [_ _ ?], Hf as [? ? ?].
        split; [done|]. split; [lia|]. exists []. by rewrite Hl, Hlf.
      * exists g. rewrite lookup_insert_ne by done. split; [done|]. by apply grown_refl, (Hok _ _ Hg).
    + intros r g Hr. cbn. destruct (decide (r = id)) as [->|Hne]; [rewrite lookup_insert_eq; by intros [= <-]|].
      rewrite lookup_insert_ne by done. by apply Hfr.
    + intros r Hr. cbn. by rewrite lookup_insert_ne.
Qed.

(** ** The whole preparation *)

Lemma heap_fresh_insert h n r f : heap_fresh h n -> r < n -> heap_fresh (<[r := f]> h) n.
Proof. intros Hfr Hr x g Hx Hg. rewrite lookup_insert_ne in Hg by lia. by apply (Hfr x). Qed.

Lemma heap_fresh_le h n m : heap_fresh h n -> n <= m -> heap_fresh h m.
Proof. intros Hfr Hle x g Hx. apply Hfr. lia. Qed.

(** The active file of [t] is sealed in [db], and [rot] names it and an empty
    file under the next id. *)
Record rotation_ready (stem : Z -> string) (t : TransientEngineState) (f : DataFile) (rot : PreparedRotation) (db : DB) : Prop := {
  rr_rot : rot = mkRotation (t_active_file_id t) (t_next_file_id t) (t_next_file_id t);
  rr_id : t_next_file_id t <= KeyDirEntry.kMaxFileId;
  rr_old : exists f', heap db !! t_active_file_id t = Some f' /\ logical_end f' = logical_end f;
  rr_new : exists g, heap db !! t_next_file_id t = Some g /\ logical_end g = 0 /\ sync_failed g = false
    /\ path g = stem (t_next_file_id t)
}.

Definition reserved (t : TransientEngineState) : TransientEngineState :=
  set_next_file_id (t_next_file_id t + 1) t.

Lemma prepare_rotation_spec stem cap t f db :
  0 <= cap -> heap_ok (heap db) -> t_files t !! t_active_file_id t = Some (t_active_file_id t) ->
  heap db !! t_active_file_id t = Some f ->
  heap_fresh (heap db) (t_next_file_id t) -> t_active_file_id t < t_next_file_id t ->
  t_active_file_id t = active_file_id (state_ db) -> next_file_id (state_ db) <= t_next_file_id t ->
  exists res t' db', prepare_rotation stem cap t db = (Ok (res, t'), db') /\ quiet_io db db'
    /\ hint_queue db' = hint_queue db /\ heap_fresh (heap db') (t_next_file_id t')
    /\ (t' = t \/ t' = reserved t)
    /\ (forall rot, res = Ok rot -> t' = reserved t /\ rotation_ready stem t f rot db').
Proof.
  intros Hcap Hok Hact Hf Hfr Hlt Hst Hid. set (act := t_active_file_id t) in *.
  unfold prepare_rotation, attempt. unfold mbind at 1, io_bind at 1.
  unfold lift, active_ref. fold act. rewrite Hact. unfold mbind at 1, io_bind at 1. unfold mbind at 1, io_bind at 1.
  destruct (shrink_to_fit_spec f (oracle db) (Hok _ _ Hf)) as (r1 & s1 & E1 & G1 & P1 & Hl1 & X1).
  destruct (on_file_run act shrink_to_fit f db r1 s1 Hok Hf honest_shrink_to_fit E1 G1 P1 Hst ltac:(by rewrite Hl1))
    as (db1 & -> & Q1 & _ & Hh1 & Hq1).
  assert (Hfr1 : heap_fresh (heap db1) (t_next_file_id t)) by (rewrite Hh1; by apply heap_fresh_insert).
  assert (Hf1 : heap db1 !! act = Some (fio_file s1)) by (rewrite Hh1; apply lookup_insert_eq).
  destruct r1 as [[]|x]; [|eexists _, _, _; split; [done|]; split_and!; auto; done].
  destruct (X1 eq_refl) as (Hc1 & Hs1).
  destruct (open_for_read_spec act (fio_file s1) db1) as (r2 & db2 & -> & Q2 & Hh2 & Hq2 & Hr2 & _);
    [apply Q1|done|by rewrite Hc1, Hl1, (length_live f (Hok _ _ Hf))|].
  assert (Q12 : quiet_io db db2) by by eapply quiet_io_trans.
  assert (Hq12 : hint_queue db2 = hint_queue db) by congruence.
  destruct r2 as [r2|x]; [|eexists _, _, _; split; [done|]; rewrite Hh2; split_and!; auto; done].
  specialize (Hr2 eq_refl). injection Hr2 as ->. unfold reserve_file_id, file_ids_left.
  destruct (Z.ltb_spec KeyDirEntry.kMaxFileId (t_next_file_id t)) as [Hmax|Hmax].
  { cbn [Z.eqb]. eexists _, _, _. split; [done|]. rewrite Hh2. split_and!; auto; done. }
  rewrite (proj2 (Z.eqb_neq _ _)) by lia. fold (reserved t).
  destruct (create_active_file_spec stem cap (t_next_file_id t) db2) as (r3 & db3 & E3 & Q3 & Hfr3 & Hq3 & Ho3 & X3);
    [done|apply Q12|by rewrite Hh2|by rewrite (qi_state _ _ Q12)|].
  unfold mbind, io_bind. rewrite E3. eexists _, _, _. split; [done|].
  split_and!; [by eapply quiet_io_trans|congruence|eapply heap_fresh_le; [done|cbn; lia]|by right|].
  intros rot Hrot. split; [done|]. destruct r3 as [r3|x]; [|done]. destruct (X3 eq_refl) as [[= ->] (g & Hg & ? & ? & ?)].
  injection Hrot as <-. split; [done|done| |by exists g].
  exists (fio_file s1). rewrite Ho3, Hh2 by (fold act; lia). split; [done|lia].
Qed.

End rotations.
