(* ===== verification/GroupProofs.v ===== *)
(** * Commit groups

    Stage 1 of the commit path keeps the engine's invariant whatever system
    call fails: a group either extends the log by the writes of its slots, in
    order, or leaves the log alone, and then no slot that wrote anything is
    without an error.  Nothing of a group is published before the groups
    ahead of it. *)

From S2P Require Import Prelude Codec KeyDir DataFile DataFileProofs FileScan EngineState EngineProofs Db Commit Records StageProofs Faults DbInv FlushProofs RotationProofs.
Import Serialization Types Stats Dir Plan.

(** ** The state after a rotation *)

Lemma rotate_wf R t a b :
  wf R t -> (forall o, R b o = None) -> 0 <= b <= KeyDirEntry.kMaxFileId ->
  wf R (apply_rotate_file a b b t).
Proof.
  intros [W1 W2 W3 W4 W5 W6 W7 W8 W9] Hb Hid.
  assert (Hnot : forall k e, t_key_dir t !! k = Some e -> KeyDirEntry.file_id e <> b).
  { intros k e Hk Hfe. destruct (W1 k e Hk) as [_ (v & Hr & _)]. rewrite Hfe, Hb in Hr. done. }
  split; cbn; try done.
  - intros f fs Hf. destruct (decide (f = b)) as [->|Hne].
    + rewrite lookup_insert_eq in Hf. injection Hf as <-. by rewrite (live_sum_none b _ Hnot).
    + rewrite lookup_insert_ne in Hf by done. by apply W2.
  - apply map_Forall_insert_2; [|done]. by repeat split.
  - intros k e Hk. rewrite lookup_insert_ne by (apply not_eq_sym; by apply (Hnot k)). by apply (W4 k).
  - rewrite lookup_insert_eq. by eexists.
Qed.

(** A rotation to an empty file under an id no file has. *)
Lemma rotate_state_ok `{Crc32cLaws} h t b g :
  heap_ok h -> state_ok h (persistent t) -> h !! b = Some g -> logical_end g = 0 ->
  0 <= b <= KeyDirEntry.kMaxFileId -> b < t_next_file_id t -> (forall id, is_Some (t_file_stats t !! id) -> 0 <= id < b) ->
  state_ok h (persistent (apply_rotate_file (t_active_file_id t) b b t)).
Proof.
  intros Hok Hs Hg Lg Hid Hlt Hbelow. pose proof (so_files _ _ Hs) as Hf. pose proof (so_active _ _ Hs) as Ha. cbn in Hf, Ha. split; cbn.
  - destruct (rotate_wf (recs_of h) t (t_active_file_id t) b) as [W1 W2 W3 W4 W5 W6 W7 W8 W9]; [destruct (so_wf _ _ Hs); by split| |lia|by split].
    intros o. destruct (recs_of h b o) as [e|] eqn:E; [|done].
    apply (recs_of_below _ _ g) in E as [? ?]; [|by apply (Hok _ _ Hg)|done]. pose proof (record_bytes_pos e). lia.
  - apply lookup_insert_eq.
  - by exists g.
  - lia.
  - apply Hs.
  - intros id r. destruct (decide (id = b)) as [->|]; [rewrite !lookup_insert_eq; naive_solver|].
    rewrite (lookup_insert_ne (t_file_stats t)), (lookup_insert_ne (<[_ := _]> (t_files t))) by done.
    destruct (decide (id = t_active_file_id t)) as [->|]; [|rewrite lookup_insert_ne by done; apply Hf].
    rewrite lookup_insert_eq, <-Hf, Ha. done.
  - intros id. destruct (decide (id = b)) as [->|]; [lia|]. rewrite lookup_insert_ne by done. intros Hi%Hbelow. lia.
  - apply map_Forall_insert_2; [by left|apply (so_coherent _ _ Hs)].
  - intros k e fs Hk. pose proof (wf_files _ _ (so_wf _ _ Hs) k e Hk) as Hi. apply Hbelow in Hi. cbn in Hi.
    rewrite lookup_insert_ne by lia. by apply (so_extent _ _ Hs).
  - apply (so_markers _ _ Hs).
Qed.

Section groups.
Context `{Crc32cLaws} `{KeyDirKind} `{Apart : FaultSpacing} (cfg : Settings) (next0 : Z) (v0 : gmap bytes bytes).

Abbreviation inv := (inv next0 v0).
Abbreviation accepting db := (refused (state_ db) db = false).

(** A group's entries are in the active file, and [t] is the head with its
    writes [ws] applied. *)
Record grouped (ls : group_log) (n : nat) (ws : list WriteOp) (t : TransientEngineState) (db : DB) : Prop := {
  gp_inv : inv ls n db;
  gp_no : accepting db;
  gp_wf : wf (recs_of (heap db)) t;
  gp_view : view (recs_of (heap db)) (t_key_dir t) = kv_ops ws (log_view v0 ls);
  gp_files : t_files t = files (head_ db);
  gp_active : t_active_file_id t = active_file_id (head_ db);
  gp_next_file : t_next_file_id t = next_file_id (head_ db);
  gp_mode : t_mode t = mode (head_ db);
  gp_degraded : t_degraded t = degraded (head_ db);
  gp_reason : t_degraded_reason t = degraded_reason (head_ db);
  gp_durable : t_durable_seq t = durable_seq (head_ db);
  gp_sync : sync_requested_seq (head_ db) <= t_sync_requested_seq t < t_next_seq t;
  gp_new : old_or_new (transient (head_ db)) t;
  gp_dom : dom (t_file_stats t) = dom (file_stats (head_ db));
  gp_markers : t_change_markers t = change_markers (head_ db);
  gp_tallied : forall f, heap db !! active_file_id (head_ db) = Some f -> tallied t (logical_end f);
  gp_framed : forall f, heap db !! active_file_id (head_ db) = Some f -> framed f;
  gp_more : next_seq (head_ db) < t_next_seq t;
  gp_max : t_next_seq t <= KeyDirEntry.kMaxSequence + 1;
  gp_open : closed (head_ db) = false
}.

(** Files may grow and more of the log be published meanwhile. *)
Lemma grouped_mono ls n n' ws t db db' :
  grouped ls n ws t db -> inv ls n' db' -> head_ db' = head_ db -> heap_le (heap db) (heap db') -> unmoved (heap db) (heap db') ->
  accepting db' -> grouped ls n' ws t db'.
Proof.
  intros G I' Eh Hle Hum Hno. pose proof (hk_head _ _ _ _ _ (iv_accepts _ _ _ _ _ (gp_inv _ _ _ _ _ G) (gp_no _ _ _ _ _ G))) as Hs.
  destruct (so_file _ _ Hs) as [f Hf]. destruct G. pose proof (iv_heap _ _ _ _ _ gp_inv0) as Hok.
  pose proof (heap_le_recs _ _ Hok Hle) as Hrecs.
  split; rewrite ?Eh; try done.
  - by eapply wf_mono.
  - rewrite (view_mono _ _ _ Hrecs); [done|]. apply gp_wf0.
  - intros f' Hf'. destruct (um_same _ _ Hum _ _ Hf) as (g & Hg & _ & Hl & _). assert (g = f') as -> by congruence. rewrite Hl. by apply gp_tallied0.
  - intros f' Hf'. destruct (um_same _ _ Hum _ _ Hf) as (g & Hg & Hc & Hl & _). assert (g = f') as -> by congruence.
    apply (framed_same f); [|by apply gp_framed0]. unfold live. by rewrite Hc, Hl.
Qed.

Lemma grouped_state_ok ls n ws t db :
  grouped ls n ws t db -> state_ok (heap db) (persistent t).
Proof.
  intros G. pose proof (hk_head _ _ _ _ _ (iv_accepts _ _ _ _ _ (gp_inv _ _ _ _ _ G) (gp_no _ _ _ _ _ G))) as S.
  pose proof (so_files _ _ S) as Hfs. pose proof (so_below _ _ S) as Hbl. pose proof (so_markers _ _ S) as Hmk.
  destruct (so_file _ _ S) as [f Hf]. pose proof (gp_tallied _ _ _ _ _ G f Hf) as Htal.
  destruct G, S. split; cbn.
  - destruct gp_wf0. by split.
  - by rewrite gp_files0, gp_active0.
  - by rewrite gp_active0.
  - by rewrite gp_active0, gp_next_file0.
  - done.
  - intros id r. rewrite gp_files0, Hfs. by rewrite <-!elem_of_dom, gp_dom0.
  - intros id. rewrite <-elem_of_dom, gp_dom0, elem_of_dom, gp_next_file0. apply Hbl.
  - apply (tl_coherent _ _ Htal).
  - apply (tl_extent _ _ Htal).
  - rewrite gp_markers0. eapply markers_ok_mono; [|exact Hmk]. lia.
Qed.

(** The head becomes the working copy. *)
Lemma grouped_head ls n ws t db :
  grouped ls n ws t db -> inv (ls ++ [(ws, t_next_seq t)]) n (set_head (persistent t) db).
Proof.
  intros G. pose proof (grouped_state_ok _ _ _ _ _ G) as Hs. destruct G.
  pose proof (iv_accepts _ _ _ _ _ gp_inv0 gp_no0) as Hh.
  pose proof (iv_owed _ _ _ _ _ gp_inv0) as Ho. pose proof (iv_next _ _ _ _ _ gp_inv0) as Hn.
  assert (Hnn : next_seq (state_ db) <= next_seq (head_ db)).
  { rewrite Hn, (hk_next _ _ _ _ _ Hh).
    rewrite <-(take_ge ls (length ls)) at 2 by lia. apply log_next_le; [apply gp_inv0|apply gp_inv0|lia]. }
  destruct gp_inv0 as [I1 I2 I3 I4 I5 I6 I7 I8 I9 I10 I11].
  destruct Hh as [X1 X2 X3 X4 X5 X6 X7 X8 X9 X10 X13 X12 X11 X14].
  split; cbn [set_head state_ head_ heap oracle in_flight]; try done.
  - apply log_ok_snoc; [done|]. by rewrite <-X4.
  - rewrite length_app. lia.
  - by rewrite take_snoc_le.
  - by rewrite take_snoc_le.
  - intros _. split; cbn [set_head state_ head_ heap in_flight]; try done.
    + destruct X2. split; cbn; congruence.
    + by rewrite log_view_snoc.
    + by rewrite log_next_snoc.
    + cbn. lia.
    + cbn. lia.
    + cbn. lia.
    + intros Hap k e Hk Hc. cbn in Hk, Hc. destruct (gp_new0 k e Hk) as [Hold|[Hid Hge]].
      * apply (X8 Hap k e Hold). cbn in Hc. by rewrite gp_active0 in Hc.
      * cbn in Hid, Hge. rewrite gp_active0 in Hc. destruct Hc as [Hc|Hc]; [lia|done].
    + cbn. by rewrite gp_active0.
    + cbn. by rewrite gp_next_file0.
    + intros Heq. cbn in Heq. lia.
    + intros fl Hfl. destruct (X11 fl Hfl) as (m & Hm & K). exists m. rewrite length_app. split; [lia|].
      destruct K as [K1 K2 K3 K4 K5 K6 K7 K8 K9 K10 K11 K12 K13 K14]. split; cbn [set_head state_ head_ heap]; try done; rewrite ?take_snoc_le by lia; try done.
      * destruct K3. split; cbn; congruence.
      * cbn. lia.
      * intros k e Hk. cbn in Hk. destruct (gp_new0 k e Hk) as [Hold|[Hid Hge]]; [by apply K12|].
        right. cbn in Hid, Hge. rewrite Hid. split; [by apply K3|].
        rewrite K5. rewrite X4 in Hge. etrans; [|exact Hge].
        rewrite <-(take_ge ls (length ls)) at 2 by lia. by apply log_next_le; [|lia|].
      * intros Heq. cbn in Heq. assert (next_seq (fl_head fl) <= next_seq (head_ db)); [|lia]. rewrite K5, X4.
        rewrite <-(take_ge ls (length ls)) at 2 by lia. by apply log_next_le; [|lia|].
    + eapply advanced_trans; [exact X14|]. split; [exact gp_new0|done|done|done|cbn; lia].
Qed.

(** ** Publishing the group with a rotation *)

(** Every key of the working copy is on disk once the active file is. *)
Lemma grouped_synced ls n ws t db :
  faults_apart -> grouped ls n ws t db ->
  (forall f, heap db !! active_file_id (head_ db) = Some f -> logical_end f <= synced_end f) ->
  forall k e, t_key_dir t !! k = Some e -> entry_synced (heap db) k e.
Proof.
  intros Hap G Hsync k e Hk. pose proof (grouped_state_ok _ _ _ _ _ G) as Hs. destruct G.
  pose proof (iv_accepts _ _ _ _ _ gp_inv0 gp_no0) as Hh.
  destruct (decide (KeyDirEntry.file_id e = active_file_id (head_ db))) as [Hid|Hid].
  - destruct (so_file _ _ (hk_head _ _ _ _ _ Hh)) as [f Hf]. exists f. rewrite Hid. split; [done|].
    etrans; [|by apply Hsync]. rewrite <-Hid in Hf.
    by apply (entry_end_below (heap db) (persistent t)); [apply gp_inv0|..].
  - destruct (gp_new0 k e Hk) as [Hold|[? _]]; [|done].
    apply (hk_durable _ _ _ _ _ Hh Hap k e Hold). by right.
Qed.

Lemma grouped_published ls ws t db db' :
  grouped ls (length ls) ws t db ->
  (faults_apart -> forall f, heap db !! active_file_id (head_ db) = Some f -> logical_end f <= synced_end f) ->
  heap_le (heap db) (heap db') -> heap_ok (heap db') -> oracle db' `suffix_of` oracle db ->
  in_flight db' = None -> state_ok (heap db') (state_ db') ->
  key_dir (state_ db') = t_key_dir t -> next_seq (state_ db') = t_next_seq t ->
  durable_seq (state_ db') = t_next_seq t - 1 -> sync_requested_seq (state_ db') = t_sync_requested_seq t ->
  (accepting db' -> head_ db' = state_ db'
     /\ (faults_apart -> forall f, heap db' !! active_file_id (state_ db') = Some f -> sync_failed f = false)
     /\ heap_fresh (heap db') (next_file_id (state_ db')) /\ flush_error db' = None) ->
  inv (ls ++ [(ws, t_next_seq t)]) (length (ls ++ [(ws, t_next_seq t)])) db'.
Proof.
  intros G Hsync Hle Hok Ho Hfl Hs Ek En Ed Eq Hacc.
  pose proof (fun Hap => grouped_synced _ _ _ _ _ Hap G (Hsync Hap)) as Hall. destruct G.
  assert (Hdur : faults_apart -> durable_to (heap db') (state_ db') (durable_seq (state_ db'))).
  { intros Hap k e Hk _. rewrite Ek in Hk. destruct (Hall Hap k e Hk) as (f & Hf & He).
    destruct (Hle _ _ Hf) as (f' & Hf' & _ & Hss & _). exists f'. split; [done|lia]. }
  assert (Hview : state_view (heap db') (state_ db') = log_view v0 (ls ++ [(ws, t_next_seq t)])).
  { rewrite log_view_snoc, <-gp_view0. unfold state_view. rewrite Ek.
    apply view_mono; [apply heap_le_recs; [apply gp_inv0|done]|apply gp_wf0]. }
  pose proof (hk_next _ _ _ _ _ (iv_accepts _ _ _ _ _ gp_inv0 gp_no0)) as Hn.
  split; rewrite ?(take_ge (ls ++ _)) by lia; try done.
  - apply log_ok_snoc; [apply gp_inv0|]. by rewrite <-Hn.
  - by rewrite log_next_snoc.
  - rewrite Ed, En, Eq. pose proof (iv_owed _ _ _ _ _ gp_inv0).
    pose proof (hk_owed_le _ _ _ _ _ (iv_accepts _ _ _ _ _ gp_inv0 gp_no0)). lia.
  - intros Hno. destruct (Hacc Hno) as (Eh & Hf & Hfr & Her).
    split; rewrite ?Eh; try done; [by rewrite log_next_snoc|rewrite En, Eq; lia|by rewrite Hfl|apply advanced_refl].
  - intros Hap. by eapply no_double_fault_suffix; [exact Ho|apply gp_inv0].
Qed.

(** A state with the keys of the working copy is a later one. *)
Lemma grouped_evolved ls n ws t db db' :
  grouped ls n ws t db -> heap_le (heap db) (heap db') -> same_files_but (active_file_id (state_ db)) (next_file_id (state_ db)) (heap db) (heap db') ->
  key_dir (state_ db') = t_key_dir t -> next_seq (state_ db') = t_next_seq t ->
  active_file_id (state_ db') = active_file_id (state_ db) \/ next_file_id (state_ db) <= active_file_id (state_ db') ->
  next_file_id (state_ db) <= next_file_id (state_ db') ->
  (forall id, id < next_file_id (state_ db) -> id <> active_file_id (state_ db) -> files (state_ db') !! id = t_files t !! id) ->
  evolved db db'.
Proof.
  intros G Hle Hp Ek En Ha Hnf Hfs. pose proof (iv_accepts _ _ _ _ _ (gp_inv _ _ _ _ _ G) (gp_no _ _ _ _ _ G)) as Hh.
  destruct (hk_new _ _ _ _ _ Hh) as [K1 A1 _ F1 S1]. pose proof (gp_more _ _ _ _ _ G).
  split; try done; [| |lia|intros r f; by apply evolved_heap].
  - intros k e. rewrite Ek. intros [[?|[? ?]]%K1|[Hf Hs]]%(gp_new _ _ _ _ _ G); [by left|right; auto|right].
    cbn in Hf, Hs. split; [|lia]. left. by rewrite Hf, A1.
  - intros id Hi Hne. by rewrite Hfs, (gp_files _ _ _ _ _ G), F1.
Qed.

Lemma grouped_registered ls n ws t db id :
  grouped ls n ws t db -> is_Some (t_file_stats t !! id) -> is_Some (file_stats (state_ db) !! id).
Proof.
  intros G. rewrite <-elem_of_dom, (gp_dom _ _ _ _ _ G), elem_of_dom. pose proof (gp_inv _ _ _ _ _ G) as I.
  pose proof (iv_accepts _ _ _ _ _ I (gp_no _ _ _ _ _ G)) as Hh. intros Hi.
  apply (so_files _ _ (iv_state _ _ _ _ _ I) id id). rewrite <-(sf_files _ _ (hk_same _ _ _ _ _ Hh)).
  by apply (so_files _ _ (hk_head _ _ _ _ _ Hh)).
Qed.

(** The working copy with its sequences confirmed. *)
Lemma grouped_apply_sync ls ws t db :
  grouped ls (length ls) ws t db ->
  apply_sync (t_next_seq t - 1) t = set_durable_seq (t_next_seq t - 1) t
  /\ durable_seq (state_ db) < t_next_seq t - 1 /\ next_seq (state_ db) = next_seq (head_ db).
Proof.
  intros []. pose proof (iv_accepts _ _ _ _ _ gp_inv0 gp_no0) as Hh.
  pose proof (iv_owed _ _ _ _ _ gp_inv0) as Ho. pose proof (iv_next _ _ _ _ _ gp_inv0) as Hn.
  rewrite take_ge, <-(hk_next _ _ _ _ _ Hh) in Hn by lia.
  pose proof (hk_behind _ _ _ _ _ Hh). split_and!; [|lia|done].
  unfold apply_sync. by rewrite (proj2 (Z.ltb_lt _ _)) by lia.
Qed.

Lemma degrade_transient_eq t current reason db :
  next_seq current <= t_next_seq t -> active_file_id current <= t_active_file_id t ->
  next_file_id current <= t_next_file_id t -> durable_seq current <= t_durable_seq t ->
  t_sync_requested_seq t <= t_durable_seq t ->
  degrade_transient t current reason db
  = (Ok (), set_write_fault true (set_state (persistent (apply_degrade reason t)) db)).
Proof.
  intros. unfold degrade_transient, degrade, try_catch. unfold mbind, io_bind.
  rewrite store_state_publishes by done. by rewrite refuse_writes_eq.
Qed.

(** ** What a group leaves *)

(** While writes are accepted the active file holds whole units and has room
    for the next batch, and the head's statistics count all of it. *)
Definition room (db : DB) : Prop :=
  accepting db -> forall f, heap db !! active_file_id (head_ db) = Some f -> logical_end f < rotation_threshold cfg /\ framed f
    /\ forall fs, file_stats (head_ db) !! active_file_id (head_ db) = Some fs -> total_bytes fs = logical_end f.

(** Nothing but a slot's error and its durability changes once it is staged. *)
Record slot_kept (s s' : EngineSlot) : Prop := {
  sk_plan : s_plan s' = s_plan s;
  sk_sync : s_sync s' = s_sync s;
  sk_rests_on : s_rests_on s' = s_rests_on s;
  sk_through : s_sync_through s' = s_sync_through s;
  sk_sequence : cr_sequence <$> s_result s' = cr_sequence <$> s_result s;
  sk_err : s_err s <> None -> s_err s' <> None
}.

Lemma fail_slot_kept x s : slot_kept s (fail_slot x s).
Proof. unfold fail_slot. destruct (s_err s); by split. Qed.

Lemma set_durable_kept d s : slot_kept s (set_durable d s).
Proof. unfold set_durable. destruct (s_result s) as [r|] eqn:E; split; cbn; rewrite ?E; done. Qed.

Lemma set_durable_errs d batch : Forall2 (fun s s' => s_err s' = s_err s) batch (set_durable d <$> batch).
Proof. induction batch as [|s ? IH]; constructor; [|done]. unfold set_durable. by destruct (s_result s). Qed.

Lemma slot_kept_refl s : slot_kept s s.
Proof. by split. Qed.

Lemma slots_kept f batch : (forall s, slot_kept s (f s)) -> Forall2 slot_kept batch (f <$> batch).
Proof. intros Hf. induction batch; constructor; auto. Qed.

Lemma slot_kept_writes s s' : slot_kept s s' -> slot_writes s' = slot_writes s.
Proof.
  intros [Hp _ _ _ Hq _]. unfold slot_writes. rewrite Hp. destruct (s_result s'), (s_result s); cbn in Hq; simplify_eq; [|done].
  by rewrite Hq.
Qed.

Definition failed (s : EngineSlot) : Prop := s_err s <> None.

Lemma fail_slots_failed x batch : Forall failed (fail_slots x batch).
Proof. apply Forall_fmap, Forall_true. intros s. unfold failed, fail_slot. cbn. destruct (s_err s) eqn:E; cbn; congruence. Qed.

(** A group whose writes are [ws], up to sequence [z] and with syncs owed through
    [q], is in the log, or all its slots failed. *)
Record group_end (ls : group_log) (n : nat) (ws : list WriteOp) (z q : Z) (batch slots : list EngineSlot)
    (db db' : DB) : Prop := {
  ge_slots : Forall2 slot_kept batch slots;
  ge_le : heap_le (heap db) (heap db');
  ge_continued : continued (stem_of cfg) db db';
  ge_room : room db';
  ge_refused : accepting db' \/ Forall failed slots;
  ge_errs : accepting db' -> Forall2 (fun s s' => s_err s' = s_err s) batch slots;
  ge_head : accepting db' -> next_seq (head_ db') = z /\ sync_requested_seq (head_ db') = q
    /\ durable_seq (state_ db) <= durable_seq (state_ db');
  ge_log : exists ls' n', inv ls' n' db' /\ (n <= n')%nat
             /\ ((ls' = ls /\ Forall failed slots) \/ ls' = ls ++ [(ws, z)])
}.

(** Every slot fails and writes are refused. *)
Lemma group_end_failed ls n n' ws z q x batch db db' :
  inv ls n' db' -> (n <= n')%nat -> refused (state_ db') db' = true -> heap_le (heap db) (heap db') -> continued (stem_of cfg) db db' ->
  group_end ls n ws z q batch (fail_slots x batch) db db'.
Proof.
  intros I Hn Hr Hle Hcn. split; [apply slots_kept, fail_slot_kept|done|done|intros ?; congruence|right; apply fail_slots_failed|intros ?; congruence|intros ?; congruence|].
  exists ls, n'. split_and!; [done|done|]. left. split; [done|apply fail_slots_failed].
Qed.

(** ** The rotation barrier *)

Abbreviation released db := (set_head (state_ db) db).

Definition confirmed (t : TransientEngineState) : TransientEngineState := set_durable_seq (t_next_seq t - 1) t.

(** The group's entries are on disk, the flush role is held. *)
Record synced_group (ls : group_log) (ws : list WriteOp) (t : TransientEngineState) (db : DB) : Prop := {
  sy_grouped : grouped ls (length ls) ws t db;
  sy_free : in_flight db = None;
  sy_synced : faults_apart -> forall f, heap db !! active_file_id (head_ db) = Some f -> logical_end f <= synced_end f
}.

Lemma rotate_prepare_failed ls ws t t' x batch db db' :
  synced_group ls ws t db -> quiet_io db db' -> t' = confirmed t \/ t' = reserved (confirmed t) ->
  exists db2, degrade_transient t' (state_ db) rotation_reason db' = (Ok (), db2)
    /\ group_end ls (length ls) ws (t_next_seq t) (t_sync_requested_seq t) batch (fail_slots x batch) db (released db2).
Proof.
  intros [G Hfl Hsy] Q Ht'. destruct (grouped_apply_sync _ _ _ _ G) as (_ & Hd & Hn).
  pose proof (grouped_state_ok _ _ _ _ _ G) as Hs.
  pose proof (state_ok_mono _ _ _ (iv_heap _ _ _ _ _ (gp_inv _ _ _ _ _ G)) (qi_le _ _ Q) Hs) as Hs'.
  pose proof (hk_same _ _ _ _ _ (iv_accepts _ _ _ _ _ (gp_inv _ _ _ _ _ G) (gp_no _ _ _ _ _ G))) as Sf.
  pose proof (gp_more _ _ _ _ _ G). pose proof (gp_sync _ _ _ _ _ G).
  pose proof (gp_active _ _ _ _ _ G) as Ha. pose proof (gp_next_file _ _ _ _ _ G) as Hnf.
  destruct Sf as [Sa Sn _ _ _ _ _].
  rewrite degrade_transient_eq by (destruct Ht' as [-> | ->]; cbn; lia).
  eexists. split; [done|]. split; [apply slots_kept, fail_slot_kept|apply Q| |by intros Hno|right; apply fail_slots_failed|by intros Hno|by intros Hno|].
  { apply evolved_continued; [|intros id; destruct Ht' as [-> | ->]; by apply (grouped_registered _ _ _ _ _ _ G)|apply Q].
    apply (grouped_evolved _ _ _ _ _ _ G); [apply Q|apply Q|..]; destruct Ht' as [-> | ->]; cbn; (done || lia || (left; lia)). }
  exists (ls ++ [(ws, t_next_seq t)]), (length (ls ++ [(ws, t_next_seq t)])).
  split; [|split; [rewrite length_app; lia|by right]].
  eapply (grouped_published _ ws t db); try done; cbn; try apply Q.
  - by rewrite (qi_flight _ _ Q).
  - destruct Hs' as [[] S2 S3 S4 S5 S6 S7 S8 S9 S10]. destruct Ht' as [-> | ->]; (split; [by split|done|done| |done|done| |done|done|done]); cbn in *; try lia;
      intros id Hid; specialize (S7 id Hid); lia.
  - by destruct Ht' as [-> | ->].
  - by destruct Ht' as [-> | ->].
  - by destruct Ht' as [-> | ->].
  - by destruct Ht' as [-> | ->].
Qed.

(** The state a rotation publishes. *)
Definition rotated_copy (t : TransientEngineState) : TransientEngineState :=
  apply_rotate_file (t_active_file_id t) (t_next_file_id t) (t_next_file_id t) (reserved (confirmed t)).

Lemma rotated_ok h t f rot db :
  heap_ok (heap db) -> heap_ok h -> heap_le h (heap db) -> state_ok h (persistent t) ->
  rotation_ready (stem_of cfg) (confirmed t) f rot db ->
  state_ok (heap db) (persistent (rotated_copy t)).
Proof.
  intros Hok Hokh Hle Hs R. pose proof (state_ok_mono _ _ _ Hokh Hle Hs) as Hs'.
  destruct (rr_new _ _ _ _ _ R) as (g & Hg & Lg & _). pose proof (rr_id _ _ _ _ _ R) as Hid. cbn in Hg, Hid.
  pose proof (so_ids _ _ Hs') as Hids. pose proof (so_below _ _ Hs') as Hb. cbn in Hids, Hb.
  apply (rotate_state_ok _ (reserved (confirmed t)) _ g); try done; cbn; [|lia|lia].
  destruct Hs' as [[]]. split; try done; cbn in *; [lia|]. intros id Hi%Hb. lia.
Qed.

(** The rotated state is published, and the head reset to it. *)
Lemma rotate_done ls ws t f rot batch db db' :
  0 < rotation_threshold cfg ->
  synced_group ls ws t db -> quiet_io db db' -> rotation_ready (stem_of cfg) (confirmed t) f rot db' ->
  heap_fresh (heap db') (t_next_file_id t + 1) ->
  exists db2, store_state (state_ db) (persistent (rotated_copy t)) db' = (Ok (), db2)
    /\ group_end ls (length ls) ws (t_next_seq t) (t_sync_requested_seq t) batch
         (set_durable (t_durable_seq (rotated_copy t)) <$> batch) db (released db2).
Proof.
  intros Hth [G Hfl Hsy] Q R Hfr. destruct (grouped_apply_sync _ _ _ _ G) as (_ & Hd & Hn).
  pose proof (grouped_state_ok _ _ _ _ _ G) as Hs.
  pose proof (hk_same _ _ _ _ _ (iv_accepts _ _ _ _ _ (gp_inv _ _ _ _ _ G) (gp_no _ _ _ _ _ G))) as Sf.
  pose proof (gp_more _ _ _ _ _ G). pose proof (gp_sync _ _ _ _ _ G).
  pose proof (gp_active _ _ _ _ _ G) as Ha. pose proof (gp_next_file _ _ _ _ _ G) as Hnf.
  pose proof (so_ids _ _ Hs) as Hids. cbn in Hids. destruct Sf as [Sa Sn _ _ Sd _ _].
  destruct (rr_new _ _ _ _ _ R) as (g & Hg & Lg & Fg & Pg). cbn in Hg, Pg.
  assert (Hacc : refused (persistent (rotated_copy t)) db' = false).
  { pose proof (gp_no _ _ _ _ _ G) as Hno. revert Hno. unfold refused. rewrite (qi_fault _ _ Q). cbn.
    by rewrite (gp_degraded _ _ _ _ _ G), Sd. }
  rewrite store_state_publishes by (cbn; lia).
  eexists. split; [done|]. split; [apply slots_kept, set_durable_kept|apply Q| | |left; exact Hacc|intros _; apply set_durable_errs|intros _; cbn; split_and!; [done|done|lia]|].
  { split.
    - apply (grouped_evolved _ _ _ _ _ _ G); [apply Q|apply Q|done|done|cbn; right; lia|cbn; lia|].
      intros id Hi Hne. cbn. by rewrite !lookup_insert_ne by lia.
    - intros id. cbn. destruct (decide (id = t_next_file_id t)) as [->|].
      + intros _. right. split; [lia|by exists g].
      + rewrite lookup_insert_ne by done. intros Hi. left. by apply (grouped_registered _ _ _ _ _ _ G).
    - apply Q. }
  { intros _ f' Hf'. cbn in Hf'. assert (f' = g) as -> by congruence. split; [lia|]. split; [by apply framed_empty, empty_live|]. cbn. intros fs. rewrite lookup_insert_eq. by intros [= <-]. }
  exists (ls ++ [(ws, t_next_seq t)]), (length (ls ++ [(ws, t_next_seq t)])).
  split; [|split; [rewrite length_app; lia|by right]].
  eapply (grouped_published _ ws t db); try done; cbn [set_head set_state state_ heap oracle in_flight head_]; try apply Q.
  - by rewrite (qi_flight _ _ Q).
  - eapply (rotated_ok (heap db)); [apply Q|apply (gp_inv _ _ _ _ _ G)|apply Q|done|exact R].
  - intros _. split; [done|]. split_and!; [intros _ f' Hf'; cbn in Hf'; congruence|done|].
    change (flush_error db' = None). rewrite (qi_error _ _ Q).
    apply (iv_accepts _ _ _ _ _ (gp_inv _ _ _ _ _ G) (gp_no _ _ _ _ _ G)).
Qed.

(** A failed sync inside the barrier. *)
Lemma rotate_sync_failed ls n ws z q x reason batch db db' :
  inv ls n db -> in_flight db = None -> quiet_io db db' ->
  exists db2, degrade_from (state_ db) reason db' = (Ok (), db2)
    /\ group_end ls n ws z q batch (fail_slots x batch) db (released db2).
Proof.
  intros I Hfl Q. rewrite degrade_from_eq. eexists. split; [done|].
  apply (group_end_failed _ _ n); [|done|done|apply Q|].
  2: { eapply continued_trans; [by apply quiet_continued|]. rewrite <-(qi_state _ _ Q). apply evolved_continued; [|done|done].
       apply advanced_evolved; [by apply advanced_same|apply same_files_but_refl|apply heap_le_refl, Q]. }
  eapply (inv_degraded _ _ _ _ db _ reason I); cbn; try apply Q; [by rewrite (qi_flight _ _ Q)|by left].
Qed.

(** Syncing the active file while the role is held. *)
Lemma sync_active ls n ws t db :
  grouped ls n ws t db ->
  exists res db', sync_file (active_file_id (head_ db)) db = (res, db') /\ quiet_io db db'
    /\ (is_ok res = true -> grouped ls n ws t db'
          /\ (faults_apart -> forall f, heap db' !! active_file_id (head_ db') = Some f -> logical_end f <= synced_end f)).
Proof.
  intros G. pose proof (gp_inv _ _ _ _ _ G) as I. pose proof (iv_accepts _ _ _ _ _ I (gp_no _ _ _ _ _ G)) as Hh.
  destruct (so_file _ _ (hk_head _ _ _ _ _ Hh)) as [f Hf]. pose proof (iv_heap _ _ _ _ _ I) as Hok.
  pose proof (fo_end _ (Hok _ _ Hf)) as He. pose proof (fun Hap => hk_file _ _ _ _ _ Hh Hap f Hf) as Hsf.
  destruct (fdatasync_cases "WritableFileOps::sync: fdatasync failed" _ (logical_end f) f db Hok Hf ltac:(lia))
    as (res & db' & E & Q & _ & Hh' & _).
  exists res, db'. split.
  { rewrite <-E. unfold sync_file, sync. by rewrite !(on_file_eq _ _ f). }
  split; [done|]. intros Hres. destruct res as [[]|]; [|done].
  destruct (sync_to_same (logical_end f) f) as (Sc & Se & Sp & Sx).
  assert (Hgot : forall f', heap db' !! active_file_id (head_ db) = Some f' -> f' = sync_to (logical_end f) f).
  { intros f' Hf'. rewrite Hh', lookup_insert_eq in Hf'. congruence. }
  split; [|intros Hap f' Hf'; rewrite (qi_head _ _ Q) in Hf'; rewrite (Hgot f' Hf'), Se; apply sync_to_synced; auto].
  apply (grouped_mono ls n n ws t db); [done| |apply Q|apply Q|rewrite Hh'; by apply (unmoved_insert _ _ f)|].
  - apply (inv_io _ _ _ _ db); [done|done|]. intros _. split.
    + intros Hap f' Hf'. rewrite (Hgot f' Hf'), Sx. auto.
    + rewrite Hh'. apply heap_fresh_insert; [apply Hh|apply (so_ids _ _ (hk_head _ _ _ _ _ Hh))].
  - unfold refused. rewrite (qi_state _ _ Q), (qi_fault _ _ Q). apply G.
Qed.

Lemma finish_rotation_eq t r db :
  finish_rotation t r db
  = (Ok (apply_rotate_file (sealed r) (next r) (next_id r) t), set_hint_queue (hint_queue db ++ [sealed r]) db).
Proof. done. Qed.

(** The second sync of the barrier, of the file just sealed. *)
Lemma sync_sealed t f rot r db :
  heap_ok (heap db) -> rotation_ready (stem_of cfg) t f rot db -> r = t_active_file_id t -> r < t_next_file_id t ->
  exists res db', sync_file r db = (res, db') /\ quiet_io db db'
    /\ (forall n, heap_fresh (heap db) n -> r < n -> heap_fresh (heap db') n)
    /\ (is_ok res = true -> rotation_ready (stem_of cfg) t f rot db').
Proof.
  intros Hok R -> Hlt. destruct (rr_old _ _ _ _ _ R) as (f' & Hf & Lf).
  pose proof (fo_end _ (Hok _ _ Hf)) as He.
  destruct (fdatasync_cases "WritableFileOps::sync: fdatasync failed" _ (logical_end f') f' db Hok Hf ltac:(lia))
    as (res & db' & E & Q & _ & Hh' & _).
  exists res, db'. split; [rewrite <-E; unfold sync_file, sync; by rewrite !(on_file_eq _ _ f')|].
  split; [done|]. split; [intros n Hfr Hn; destruct res; rewrite Hh'; by apply heap_fresh_insert|].
  intros Hres. destruct res as [[]|]; [|done]. destruct R as [R1 R2 _ (g & Hg & Lg & Sg & Pg)].
  split; [done|done| |].
  - exists (sync_to (logical_end f') f'). rewrite Hh', lookup_insert_eq.
    split; [done|]. by rewrite (proj1 (proj2 (sync_to_same _ _))).
  - exists g. rewrite Hh', lookup_insert_ne by lia. by split_and!.
Qed.

Lemma group_end_later ls n n' ws z q batch slots db db' db'' :
  (n <= n')%nat -> heap_le (heap db) (heap db') -> durable_seq (state_ db) <= durable_seq (state_ db') -> continued (stem_of cfg) db db' ->
  group_end ls n' ws z q batch slots db' db'' -> group_end ls n ws z q batch slots db db''.
Proof.
  intros Hn Hle Hd Hcn [X1 X2 X7 X3 X6 X4 X5 (ls' & m & I & Hm & Ho)].
  split; [done|by eapply heap_le_trans|by eapply continued_trans|done|done|done|intros Ha; destruct (X5 Ha) as (? & ? & ?); split_and!; [done|done|lia]|].
  exists ls', m. split_and!; [done|lia|done].
Qed.

Lemma commit_rotate_spec ls ws t batch any_sync db :
  0 < rotation_threshold cfg -> grouped ls (length ls) ws t db -> in_flight db = None ->
  exists slots db', commit_rotate cfg (active_file_id (head_ db)) t batch any_sync (t_next_seq t - 1) db = (Ok slots, db')
    /\ group_end ls (length ls) ws (t_next_seq t) (t_sync_requested_seq t) batch slots db (released db').
Proof.
  intros Hth G Hfl. unfold commit_rotate, load_state, gets. unfold mbind at 1, io_bind at 1.
  unfold mbind at 1, io_bind at 1. rewrite (gp_no _ _ _ _ _ G). unfold attempt. unfold mbind at 1, io_bind at 1.
  destruct (sync_active ls (length ls) ws t db G) as (r1 & db1 & -> & Q1 & X1).
  destruct r1 as [[]|x].
  2: { unfold mbind, io_bind.
       destruct (rotate_sync_failed ls (length ls) ws (t_next_seq t) (t_sync_requested_seq t) x rotation_sync_reason batch db db1)
         as (db2 & -> & E); [apply G|done|done|]. by eexists _, _. }
  destruct (X1 eq_refl) as [G1 Hsy].
  assert (SG : synced_group ls ws t db1) by (split; [done|by rewrite (qi_flight _ _ Q1)|done]).
  assert (Est : state_ db = state_ db1) by (by rewrite (qi_state _ _ Q1)). rewrite Est.
  assert (Hlift : forall slots db', group_end ls (length ls) ws (t_next_seq t) (t_sync_requested_seq t) batch slots db1 db' ->
    group_end ls (length ls) ws (t_next_seq t) (t_sync_requested_seq t) batch slots db db').
  { intros slots db' GE. by eapply group_end_later; [|apply Q1|by rewrite (qi_state _ _ Q1)|by apply quiet_continued|exact GE]. }
  destruct (grouped_apply_sync _ _ _ _ G1) as (Eas & _ & _). rewrite Eas. fold (confirmed t).
  pose proof (grouped_state_ok _ _ _ _ _ G1) as Hs.
  pose proof (iv_accepts _ _ _ _ _ (gp_inv _ _ _ _ _ G1) (gp_no _ _ _ _ _ G1)) as Hh.
  destruct (so_file _ _ (hk_head _ _ _ _ _ Hh)) as [f Hf].
  pose proof (gp_active _ _ _ _ _ G1) as Ha. pose proof (gp_next_file _ _ _ _ _ G1) as Hnf.
  unfold mbind at 1, io_bind at 1.
  destruct (prepare_rotation_spec (stem_of cfg) (rotation_threshold cfg) (confirmed t) f db1)
    as (rot & t' & db2 & -> & Q2 & _ & Hfr2 & Ht' & X2).
  { lia. } { apply (gp_inv _ _ _ _ _ G1). } { apply (so_active _ _ Hs). } { cbn. by rewrite Ha. }
  { cbn. rewrite Hnf. apply Hh. } { apply (so_ids _ _ Hs). }
  { cbn. by rewrite Ha, (sf_active _ _ (hk_same _ _ _ _ _ Hh)). }
  { cbn. by rewrite Hnf, (sf_next_file _ _ (hk_same _ _ _ _ _ Hh)). }
  destruct rot as [rot|x].
  2: { unfold mbind, io_bind.
       destruct (rotate_prepare_failed ls ws t t' x batch db1 db2 SG Q2 Ht') as (db3 & -> & E).
       eexists _, _. split; [done|]. by apply Hlift. }
  destruct (X2 rot eq_refl) as [-> R]. pose proof (rr_rot _ _ _ _ _ R) as ->.
  unfold mbind at 1, io_bind at 1. rewrite finish_rotation_eq. cbn [sealed next next_id].
  change (apply_rotate_file (t_active_file_id (confirmed t)) _ _ _) with (rotated_copy t).
  set (db3 := set_hint_queue _ db2).
  assert (Q3 : quiet_io db1 db3) by (destruct Q2; by split).
  assert (R3 : rotation_ready (stem_of cfg) (confirmed t) f
    (mkRotation (t_active_file_id (confirmed t)) (t_next_file_id (confirmed t)) (t_next_file_id (confirmed t))) db3)
    by (destruct R; by split).
  assert (Hids : t_active_file_id t < t_next_file_id t) by apply (so_ids _ _ Hs).
  assert (Eas2 : apply_sync (t_next_seq t - 1) (rotated_copy t) = rotated_copy t).
  { unfold apply_sync. by rewrite (proj2 (Z.ltb_ge _ _)) by (cbn; lia). }
  unfold mbind at 1, io_bind at 1. destruct any_sync.
  - destruct (sync_sealed _ _ _ (active_file_id (head_ db)) db3 (qi_ok _ _ Q3) R3)
      as (r4 & db4 & -> & Q4 & Hfr4 & R4); [cbn; by rewrite Ha, (qi_head _ _ Q1)|cbn; by rewrite <-(qi_head _ _ Q1), <-Ha|].
    pose proof (quiet_io_trans _ _ _ Q3 Q4) as Q14. destruct r4 as [[]|x].
    + cbn zeta. rewrite Eas2. unfold mbind, io_bind.
      destruct (rotate_done ls ws t f _ batch db1 db4 Hth SG Q14 (R4 eq_refl)) as (db5 & -> & E).
      { apply Hfr4; [exact Hfr2|]. rewrite <-(qi_head _ _ Q1), <-Ha. lia. }
      eexists _, _. split; [done|]. by apply Hlift.
    + unfold mbind, io_bind.
      destruct (rotate_sync_failed ls (length ls) ws (t_next_seq t) (t_sync_requested_seq t) x commit_sync_reason batch db1 db4)
        as (db5 & -> & E); [apply G1|apply (sy_free _ _ _ _ SG)|done|]. eexists _, _. split; [done|]. by apply Hlift.
  - unfold mret, io_ret. cbn zeta. unfold mbind, io_bind.
    destruct (rotate_done ls ws t f _ batch db1 db3 Hth SG Q3 R3 Hfr2) as (db5 & -> & E).
    eexists _, _. split; [done|]. by apply Hlift.
Qed.

(** ** After the append *)

Lemma grouped_note ls n ws t seq db :
  grouped ls n ws t db -> seq < t_next_seq t -> grouped ls n ws (note_sync_requested seq t) db.
Proof.
  intros [] Hs. split; try done; cbn; [destruct gp_wf0; by split|lia|].
  intros f Hf. destruct (gp_tallied0 f Hf). by split.
Qed.

Lemma with_role_eq {A} (m : io DB A) db db1 a db2 :
  quiesce db = (Ok (), db1) -> m db1 = (Ok a, db2) -> with_role m db = (Ok a, released db2).
Proof. intros E1 E2. unfold with_role, attempt, mbind, io_bind. by rewrite E1, E2. Qed.

Lemma commit_appended_spec ls n ws t batch any_sync db :
  0 < rotation_threshold cfg -> grouped ls n ws t db ->
  exists slots db', commit_appended cfg (active_file_id (head_ db)) t batch any_sync (t_next_seq t - 1) db = (Ok slots, db')
    /\ group_end ls n ws (t_next_seq t)
         (if any_sync then Z.max (t_sync_requested_seq t) (t_next_seq t - 1) else t_sync_requested_seq t)
         batch slots db db'.
Proof.
  intros Hth G0. unfold commit_appended. set (t' := if any_sync then _ else t).
  assert (Hz : t_next_seq t = t_next_seq t') by (unfold t'; by destruct any_sync).
  set (q := if any_sync then Z.max _ _ else _).
  assert (Hq : q = t_sync_requested_seq t') by (unfold q, t'; by destruct any_sync). rewrite Hq, Hz. clear q Hq.
  assert (G : grouped ls n ws t' db) by (unfold t'; destruct any_sync; [apply grouped_note; [done|lia]|done]).
  unfold gets. unfold mbind at 1, io_bind at 1. pose proof (gp_inv _ _ _ _ _ G) as I.
  destruct (is_rotation_needed _ t' _) eqn:Hrot; cbn [negb].
  - destruct (quiesce_spec next0 v0 ls n db I) as (db1 & n1 & E1 & F & Hc).
    destruct (refused (state_ db1) db1) eqn:Hr.
    + erewrite with_role_eq; [|exact E1|].
      2: { unfold commit_rotate, load_state, gets, mbind, io_bind, mret, io_ret. by rewrite Hr. }
      eexists _, _. split; [done|].
      destruct (release_role_spec next0 v0 ls n1 db1) as [_ I2]; [apply F|apply (fd_free _ _ _ _ _ _ _ F)|by left|congruence|].
      apply (group_end_failed _ _ n1); [done|apply F|done|apply F|]. eapply continued_trans; [by eapply flushed_continued|].
      apply evolved_continued; [|done|done]. apply advanced_evolved; [apply advanced_refl|apply same_files_but_refl|apply heap_le_refl, F].
    + destruct Hc as [?|[-> _]]; [congruence|].
      assert (G1 : grouped ls (length ls) ws t' db1).
      { by apply (grouped_mono ls n _ ws t' db); [|apply F|apply F|apply F|apply F|]. }
      destruct (commit_rotate_spec ls ws t' batch any_sync db1 Hth G1 (fd_free _ _ _ _ _ _ _ F)) as (slots & db2 & E2 & GE).
      rewrite (fd_head _ _ _ _ _ _ _ F) in E2.
      erewrite with_role_eq; [|exact E1|exact E2]. eexists _, _. split; [done|].
      by apply (group_end_later _ _ (length ls) _ _ _ _ _ _ db1); [apply I|apply F|apply (fd_durable _ _ _ _ _ _ _ F)|by eapply flushed_continued|].
  - eexists _, _. split; [done|].
    pose proof (grouped_state_ok _ _ _ _ _ G) as Hs. pose proof (iv_heap _ _ _ _ _ I) as Hok. split.
    + rewrite <-(list_fmap_id batch) at 2. apply slots_kept, slot_kept_refl.
    + by apply heap_le_refl.
    + apply evolved_continued; [|done|done]. apply advanced_evolved; [apply advanced_refl|apply same_files_but_refl|by apply heap_le_refl].
    + intros _ f Hf. cbn in Hf. revert Hrot. unfold is_rotation_needed.
      pose proof (so_active _ _ Hs) as Ha. cbn in Ha. rewrite Ha. unfold file_size. rewrite Hf.
      intros ?%Z.leb_gt. split; [done|]. split; [apply (gp_framed _ _ _ _ _ G); by rewrite <-(gp_active _ _ _ _ _ G)|]. rewrite (gp_active _ _ _ _ _ G) in Hf. apply (tl_total _ _ (gp_tallied _ _ _ _ _ G f Hf)).
    + left. apply (gp_no _ _ _ _ _ G).
    + intros _. clear. induction batch; by constructor.
    + done.
    + exists (ls ++ [(ws, t_next_seq t')]), n. split_and!; [by apply grouped_head|done|by right].
Qed.

End groups.
