(* ===== verification/CommitProofs.v ===== *)
(** * The commit path

    A whole group and a whole batch, from the slots a writer submitted to the
    log; then stage 2: a writer whose slot is in the log returns once a flush
    covers it, or learns that writes are refused. *)

From S2P Require Import Prelude Codec KeyDir DataFile DataFileProofs FileScan EngineState EngineProofs Db Commit Records StageProofs Faults DbInv FlushProofs RotationProofs GroupProofs.
Import Serialization Types Stats Dir Plan.

(** The settings the constructor accepts. *)
Record settings_ok (cfg : Settings) : Prop := {
  sk_threshold : 0 < rotation_threshold cfg;
  sk_first_fits : rotation_threshold cfg + max_batch_bytes cfg <= 2 ^ 32;
  sk_batch : 0 <= max_batch_bytes cfg;
  sk_group : max_group_file_bytes cfg <= 2 ^ 32;
  sk_limits : (0 < max_entries (write_limits cfg))%nat
}.

(** Same request, as the slot was submitted. *)
Definition same_request (s s' : EngineSlot) : Prop := s_plan s' = s_plan s /\ s_sync s' = s_sync s.

(** What a slot without an error waits for is in the head, and the head owes
    its sync. *)
Definition awaitable (next owed : Z) (s : EngineSlot) : Prop :=
  s_err s = None -> 0 <= wait_target s < next /\ (s_sync s = true -> wait_target s <= owed).

Section commits.
Context `{Crc32cLaws} `{KeyDirKind} `{Apart : FaultSpacing} (cfg : Settings) (next0 : Z) (v0 : gmap bytes bytes).
Context (Hcfg : settings_ok cfg).

Abbreviation inv := (inv next0 v0).
Abbreviation accepting db := (refused (state_ db) db = false).
Abbreviation room := (room cfg).

(** ** Slots between the stages *)

Lemma note_sync_through_writes last d s : slot_writes (note_sync_through last d s) = slot_writes s.
Proof. unfold note_sync_through, slot_writes. destruct (s_result s) as [r|] eqn:E; [destruct (_ && _)|]; cbn; by rewrite E. Qed.

Lemma note_sync_through_request last d s : same_request s (note_sync_through last d s).
Proof. unfold note_sync_through. repeat case_match; by split. Qed.

Lemma set_unappended_kept s : slot_kept s (set_unappended s).
Proof. unfold set_unappended. destruct (s_result s) eqn:E; split; cbn; rewrite ?E; done. Qed.

Lemma slot_kept_request s s' : slot_kept s s' -> same_request s s'.
Proof. by intros []. Qed.

Lemma slot_kept_target s s' : slot_kept s s' -> wait_target s' = wait_target s.
Proof.
  intros [_ _ _ Ht Hq _]. unfold wait_target. rewrite Ht.
  destruct (s_result s'), (s_result s); cbn in Hq; simplify_eq; [by rewrite Hq|done].
Qed.

(** Sequences at or after [z], in what a slot reports; it then rests on no
    other entry. *)
Definition numbered (z : Z) (s : EngineSlot) : Prop :=
  forall r, s_result s = Some r -> cr_sequence r = 0 \/ (z <= cr_sequence r /\ s_rests_on s = 0).

(** A sync slot that appended nothing waits for the last sequence, unless that is
    durable already. *)
Definition guarded (last d : Z) (s : EngineSlot) : Prop :=
  s_sync s = true -> forall r, s_result s = Some r -> cr_sequence r = 0 ->
  last <= Z.max (s_sync_through s) d.

Lemma slot_kept_guarded last d s s' : slot_kept s s' -> guarded last d s -> guarded last d s'.
Proof.
  intros [_ Hs _ Ht Hq _] Hg Hsy r Hr Hz. rewrite Hs in Hsy. rewrite Hr in Hq. rewrite Ht.
  destruct (s_result s) as [r0|] eqn:E; [|done]. cbn in Hq. injection Hq as Hq. apply (Hg Hsy r0 E). congruence.
Qed.

Lemma slots_kept_guarded last d batch slots :
  Forall2 slot_kept batch slots -> Forall (guarded last d) batch -> Forall (guarded last d) slots.
Proof.
  induction 1; intros Hf; [constructor|]. apply Forall_cons in Hf as [? ?].
  constructor; [by eapply slot_kept_guarded|auto].
Qed.

(** An error of a slot's own, found before anything was appended for it. *)
Definition own_error (s : EngineSlot) : Prop := failed s -> slot_writes s = [].

Lemma slot_kept_numbered z s s' : slot_kept s s' -> numbered z s -> numbered z s'.
Proof.
  intros [_ _ Ho _ Hq _] Hn r Hr. rewrite Hr in Hq. destruct (s_result s) as [r0|] eqn:E; [|done].
  cbn in Hq. injection Hq as Hq. rewrite Hq, Ho. by apply Hn.
Qed.

Lemma slots_kept_numbered z batch slots :
  Forall2 slot_kept batch slots -> Forall (numbered z) batch -> Forall (numbered z) slots.
Proof.
  induction 1; intros Hf; [constructor|]. apply Forall_cons in Hf as [? ?].
  constructor; [by eapply slot_kept_numbered|auto].
Qed.

Lemma Forall2_same_request_trans a b c :
  Forall2 same_request a b -> Forall2 same_request b c -> Forall2 same_request a c.
Proof.
  intros Hab. revert c. induction Hab as [|x y a b [] _ IH]; intros c Hbc; inversion Hbc as [|? z ? c' []]; subst;
    constructor; [split; congruence|by apply IH].
Qed.

Lemma kept_writes batch slots : Forall2 slot_kept batch slots -> slot_writes <$> slots = slot_writes <$> batch.
Proof. induction 1 as [|s s' ? ? Hk _ IH]; [done|]. cbn. by rewrite IH, (slot_kept_writes _ _ Hk). Qed.

(** Slots as the group ends: what each waits for. *)
Lemma noted_slot t0 st s s' last d :
  fresh_slot s -> slot_staged t0 st s s' -> 0 <= last < t_next_seq (st_t st) ->
  0 <= wait_target (note_sync_through last d s') < t_next_seq (st_t st)
  /\ (wait_target (note_sync_through last d s') < t_next_seq t0 ->
      wait_target (note_sync_through last d s') = s_sync_through (note_sync_through last d s'))
  /\ (s_sync_through (note_sync_through last d s') = 0 \/ s_sync_through (note_sync_through last d s') = last)
  /\ numbered (t_next_seq t0) (note_sync_through last d s')
  /\ guarded last d (note_sync_through last d s') /\ own_error (note_sync_through last d s').
Proof.
  intros (_ & _ & _ & Ht0) [_ _ Ht Hr He] Hl. rewrite Ht0 in Ht.
  assert (Hown : own_error (note_sync_through last d s')).
  { unfold own_error. rewrite note_sync_through_writes. intros Hf. destruct He as [He|]; [|done]. exfalso. apply Hf.
    unfold note_sync_through. by repeat case_match. }
  revert Hown. unfold note_sync_through, wait_target, numbered, guarded.
  destruct (s_result s') as [r|] eqn:E; intros Hown; [|rewrite E, Ht; split_and!; done || lia].
  destruct (Hr r eq_refl) as (_ & Hq & Hge).
  destruct (s_sync s' && (cr_sequence r =? 0) && (d <? last)) eqn:Hc; cbn; rewrite E.
  - apply andb_true_iff in Hc as [[_ ->]%andb_true_iff _]. split_and!; try lia; [by intros ? [= <-]|done].
  - rewrite Ht. destruct (Z.eqb_spec (cr_sequence r) 0); (split_and!; try lia; [by intros ? [= <-]| |done]).
    + intros Hsy ? [= <-] _. rewrite Hsy in Hc. cbn in Hc. apply Z.ltb_ge in Hc. lia.
    + intros _ ? [= <-]. done.
Qed.

(** ** A group *)

Record group_result (ls : group_log) (n : nat) (batch slots : list EngineSlot) (db db' : DB) : Prop := {
  gr_request : Forall2 same_request batch slots;
  gr_le : heap_le (heap db) (heap db');
  gr_continued : continued (stem_of cfg) db db';
  gr_room : room db';
  gr_wait : accepting db' -> Forall (awaitable (next_seq (head_ db')) (sync_requested_seq (head_ db'))) slots;
  gr_refused : accepting db' \/ Forall failed slots;
  gr_errs : accepting db' -> Forall own_error slots;
  gr_guards : accepting db' -> Forall (guarded (next_seq (head_ db') - 1) (durable_seq (state_ db))) slots;
  gr_numbers : Forall (numbered (next_seq (head_ db))) slots;
  gr_mono : accepting db' -> accepting db /\ sync_requested_seq (head_ db) <= sync_requested_seq (head_ db')
    /\ durable_seq (state_ db) <= durable_seq (state_ db');
  gr_log : exists ls' n', inv ls' n' db' /\ (n <= n')%nat
    /\ ((ls' = ls /\ Forall (fun s => failed s \/ slot_writes s = []) slots)
        \/ exists z, ls' = ls ++ [(concat (slot_writes <$> slots), z)])
}.

(** The staged group, once appended, is the head's next group. *)
Lemma stage_grouped ls n ws st f f' db db' :
  inv ls n db -> accepting db -> closed (state_ db) = false ->
  heap db !! active_file_id (head_ db) = Some f -> framed f ->
  stage_inv (recs_of (heap db)) (transient (head_ db)) (logical_end f) ws st -> st_entries st <> [] ->
  quiet_io db db' -> heap db' = <[active_file_id (head_ db) := f']> (heap db) ->
  appended f f' (st_entries st) ->
  grouped next0 v0 ls n ws (st_t st) db'.
Proof.
  intros I Hno Hcl Hf Hfr S Hne Q Hh' A. pose proof (iv_accepts _ _ _ _ _ I Hno) as Hh.
  pose proof (iv_heap _ _ _ _ _ I) as Hok. pose proof (hk_head _ _ _ _ _ Hh) as Hs.
  assert (Hrecs : recs_le (recs_of (heap db)) (recs_of (heap db'))) by (apply heap_le_recs; [done|apply Q]).
  destruct (sg_units _ _ _ _ _ S) as (us & Hus & Hes). pose proof (sg_sweep _ _ _ _ _ S) as Hsw. rewrite Hes in A, Hsw.
  destruct (sg_future _ _ _ _ _ S (recs_of (heap db')) Hrecs) as [Hwf Hview].
  { rewrite Hes. apply (appended_placed _ _ f f'); [by apply (Hok _ _ Hf)|done|done|rewrite Hh'; apply lookup_insert_eq|done|done]. }
  destruct (sg_rest _ _ _ _ _ S) as [R1 R2 R3 R4 R5 R6 R7 R8 R9].
  cbn in R1, R2, R3, R4, R5, R6, R7, R8.
  pose proof (sg_seq _ _ _ _ _ S) as Hseq. cbn in Hseq.
  assert (0 < Z.of_nat (length (st_entries st))) by (destruct (st_entries st); [done|cbn; lia]).
  assert (I' : inv ls n db').
  { apply (inv_io _ _ _ _ db); [done|done|]. intros _. rewrite Hh'. split.
    - intros Hap g Hg. rewrite lookup_insert_eq in Hg. injection Hg as <-.
      rewrite (ap_failed _ _ _ A). by apply (hk_file _ _ _ _ _ Hh).
    - apply heap_fresh_insert; [apply Hh|apply (so_ids _ _ Hs)]. }
  pose proof (hk_owed _ _ _ _ _ Hh).
  split; rewrite ?(qi_head _ _ Q); try done.
  - unfold refused. by rewrite (qi_state _ _ Q), (qi_fault _ _ Q).
  - rewrite Hview. cbn [transient t_key_dir]. rewrite (view_mono _ _ _ Hrecs); [|apply (so_wf _ _ Hs)].
    pose proof (hk_view _ _ _ _ _ Hh) as Hv. unfold state_view in Hv. by rewrite Hv.
  - rewrite R5, Hseq. lia.
  - apply S.
  - apply (sg_dom _ _ _ _ _ S).
  - intros f0 Hf0. rewrite Hh', lookup_insert_eq in Hf0. injection Hf0 as <-.
    rewrite (ap_end _ _ _ A), <-Hes, <-(sg_offset _ _ _ _ _ S). apply (sg_tallied _ _ _ _ _ S).
  - intros f0 Hf0. rewrite Hh', lookup_insert_eq in Hf0. injection Hf0 as <-. by apply (appended_framed f f' us).
  - rewrite Hseq. lia.
  - apply S.
  - by rewrite (sf_closed _ _ (hk_same _ _ _ _ _ Hh)).
Qed.

Lemma sync_file_ok r f db :
  heap db !! r = Some f -> match oracle db with Fails _ :: _ => False | _ => True end ->
  (sync_file r db).1 = Ok ().
Proof.
  intros Hf Ho. unfold sync_file. rewrite (on_file_eq _ _ f) by done.
  unfold sync, fdatasync, fdatasync_to, next_outcome. cbn. by destruct (oracle db) as [|[] ?].
Qed.

(** After a failed append the file is synced, what was prepared before is
    flushed, and writes are refused. *)
Lemma append_failed_spec {A B} (done : B) ls n x f f' es k db db1 :
  inv ls n db -> accepting db -> heap db !! active_file_id (head_ db) = Some f ->
  quiet_io db db1 -> consumed (A:=A) (Err x) (oracle db) (oracle db1) ->
  heap db1 = <[active_file_id (head_ db) := f']> (heap db) -> appended f f' (take k es) ->
  exists db', (_ ← attempt (sync_file (active_file_id (head_ db)));
               _ ← degrade (with_role (s ← load_state; publish (degraded_copy s append_reason)));
               mret done) db1 = (Ok done, db')
    /\ heap_le (heap db) (heap db') /\ continued (stem_of cfg) db db' /\ refused (state_ db') db' = true
    /\ exists n', inv ls n' db' /\ (n <= n')%nat.
Proof.
  intros I Hno Hf Q Hc Hh1 A1. pose proof (iv_accepts _ _ _ _ _ I Hno) as Hh. set (act := active_file_id (head_ db)) in *.
  assert (Hf1 : heap db1 !! act = Some f') by (rewrite Hh1; apply lookup_insert_eq).
  pose proof (fo_end _ (qi_ok _ _ Q _ _ Hf1)) as He.
  assert (Hok : faults_apart -> is_ok (sync_file act db1).1 = true).
  { intros Hap. rewrite (sync_file_ok act f' db1 Hf1); [done|]. apply (next_after_fault (A:=A) x (oracle db)); [by apply I|done]. }
  destruct (fdatasync_cases "WritableFileOps::sync: fdatasync failed" act (logical_end f') f' db1 (qi_ok _ _ Q) Hf1 ltac:(lia))
    as (res & db2 & E2 & Q2 & Hc2 & Hh2 & _).
  assert (E2' : sync_file act db1 = (res, db2))
    by (rewrite <-E2; unfold sync_file, sync; by rewrite !(on_file_eq _ _ f')).
  rewrite E2' in Hok. cbn in Hok.
  pose proof (quiet_io_trans _ _ _ Q Q2) as Q12.
  assert (Hsf : faults_apart -> sync_failed f' = false) by (intros Hap; rewrite (ap_failed _ _ _ A1); by apply (hk_file _ _ _ _ _ Hh)).
  assert (I2 : inv ls n db2).
  { apply (inv_io _ _ _ _ db); [done|done|]. intros _. split.
    - intros Hap g. specialize (Hok Hap). destruct res as [[]|]; [|done]. fold act. rewrite Hh2, lookup_insert_eq. intros [= <-].
      destruct (sync_to_same (logical_end f') f') as (_ & _ & _ & ->). auto.
    - destruct res; rewrite Hh2, Hh1, insert_insert_eq; (apply heap_fresh_insert; [apply Hh|apply (so_ids _ _ (hk_head _ _ _ _ _ Hh))]). }
  destruct (quiesce_spec next0 v0 ls n db2 I2) as (db3 & n3 & E3 & F & _).
  unfold attempt, degrade, try_catch. unfold mbind at 1, io_bind at 1. rewrite E2'.
  unfold mbind at 1, io_bind at 1. unfold mbind at 1, io_bind at 1.
  erewrite with_role_eq; [|exact E3|done]. rewrite refuse_writes_eq. eexists. split; [done|].
  split; [eapply heap_le_trans; [apply Q12|apply F]|]. split.
  { eapply continued_trans; [by apply quiet_continued|]. eapply continued_trans; [by eapply flushed_continued|].
    apply evolved_continued; [|done|done]. apply advanced_evolved; [by apply advanced_same|apply same_files_but_refl|apply heap_le_refl, F]. }
  split; [done|]. exists n3. split; [|apply F].
  eapply (inv_degraded _ _ _ _ db3); [apply F|..|by left]; cbn; try done.
  - apply heap_le_refl, F.
  - apply F.
  - apply (fd_free _ _ _ _ _ _ _ F).
Qed.

Lemma noted_batch t0 st batch taken last d :
  Forall fresh_slot batch -> Forall2 (slot_staged t0 st) batch taken -> 0 <= last < t_next_seq (st_t st) ->
  Forall2 same_request batch (note_sync_through last d <$> taken)
  /\ slot_writes <$> (note_sync_through last d <$> taken) = slot_writes <$> taken
  /\ Forall (fun s => 0 <= wait_target s < t_next_seq (st_t st)
                     /\ (wait_target s < t_next_seq t0 -> wait_target s = s_sync_through s)
                     /\ (s_sync_through s = 0 \/ s_sync_through s = last)
                     /\ numbered (t_next_seq t0) s /\ guarded last d s /\ own_error s) (note_sync_through last d <$> taken).
Proof.
  intros Hf Hst Hl. induction Hst as [|s s' batch taken Hs _ IH]; [done|].
  apply Forall_cons in Hf as [Hf Hfs]. destruct (IH Hfs) as (I1 & I2 & I3). cbn. split_and!.
  - constructor; [|done]. destruct (note_sync_through_request last d s'), Hs. split; congruence.
  - by rewrite I2, note_sync_through_writes.
  - constructor; [|done]. by apply (noted_slot t0 st s).
Qed.

(** Asking for a flush of the head as it is. *)
Lemma inv_note ls n q db :
  inv ls n db -> accepting db -> closed (state_ db) = false -> q < next_seq (head_ db) ->
  inv ls n (set_head (persistent (note_sync_requested q (transient (head_ db)))) db).
Proof.
  intros I Hno Hcl Hq. pose proof (iv_accepts _ _ _ _ _ I Hno) as Hh.
  destruct I as [I1 I2 I3 I4 I5 I6 I7 I8 I9 I10 I11]. split; cbn [set_head state_ head_ heap oracle in_flight]; try done.
  intros _. destruct Hh as [X1 X2 X3 X4 X5 X6 X7 X8 X9 X10 X13 X12 X11 X14].
  split; cbn [set_head state_ head_ heap in_flight]; try done.
  - by apply (state_ok_same _ (head_ db)).
  - destruct X2. split; cbn; congruence.
  - cbn. lia.
  - cbn. lia.
  - intros fl Hfl. destruct (X11 fl Hfl) as (m & Hm & K). exists m. split; [done|].
    destruct K as [K1 K2 K3 K4 K5 K6 K7 K8 K9 K10 K11 K12]. split; cbn [set_head state_ head_ heap]; try done.
    + destruct K3, X2. split; cbn; congruence.
    + cbn. lia.
  - eapply advanced_trans; [exact X14|]. by apply advanced_same.
Qed.

(** A group that appended nothing. *)
Lemma finish_unappended ls n st batch taken db :
  inv ls n db -> accepting db -> closed (state_ db) = false -> room db ->
  st_t st = transient (head_ db) -> st_entries st = [] -> concat (slot_writes <$> taken) = [] ->
  Forall fresh_slot batch -> Forall2 (slot_staged (transient (head_ db)) st) batch taken ->
  exists slots db', finish_group cfg (active_file_id (head_ db)) (state_ db) taken st db = (Ok slots, db')
    /\ group_result ls n batch slots db db'.
Proof.
  intros I Hno Hcl Hroom Ht He Hws Hfresh Hst. pose proof (iv_accepts _ _ _ _ _ I Hno) as Hh.
  pose proof (wf_next _ _ (so_wf _ _ (hk_head _ _ _ _ _ Hh))) as Hpos. cbn in Hpos.
  pose proof (hk_owed_le _ _ _ _ _ Hh). pose proof (iv_owed _ _ _ _ _ I).
  unfold finish_group. rewrite He. set (last := last_seq_of (st_t st)).
  assert (Hlast : last = next_seq (head_ db) - 1).
  { unfold last, last_seq_of. rewrite Ht. by rewrite (proj2 (Z.ltb_lt _ _)) by (cbn; lia). }
  destruct (noted_batch _ st batch taken last (durable_seq (state_ db)) Hfresh Hst) as (N1 & N2 & N3);
    [rewrite Ht; cbn; lia|].
  set (noted := note_sync_through _ _ <$> taken) in *. rewrite Ht in N3 |- *. cbn [transient t_next_seq] in N3.
  set (db' := if existsb owes_sync_only noted
              then set_head (persistent (note_sync_requested last (transient (head_ db)))) db else db).
  assert (E : when (existsb owes_sync_only noted) (store_head (persistent (note_sync_requested last (transient (head_ db))))) db
              = (Ok (), db')) by (unfold db'; by destruct (existsb _ _)).
  unfold mbind, io_bind. rewrite E. eexists _, _. split; [done|].
  pose proof (slots_kept set_unappended noted set_unappended_kept) as Hkept. split.
  - eapply Forall2_same_request_trans; [exact N1|]. eapply Forall2_impl; [exact Hkept|apply slot_kept_request].
  - unfold db'. case_match; apply heap_le_refl, I.
  - unfold db'. case_match; [|apply continued_refl]. apply evolved_continued; [|done|done].
    apply advanced_evolved; [apply advanced_refl|apply same_files_but_refl|apply heap_le_refl, I].
  - unfold db'. case_match; [|done]. intros _ f Hf. by apply Hroom.
  - intros _. apply Forall_fmap, Forall_forall. intros s Hs _. rewrite Forall_forall in N3.
    cbn. rewrite (slot_kept_target s) by apply set_unappended_kept.
    rewrite (sk_sync s) by apply set_unappended_kept.
    destruct (N3 s Hs) as (Hb & Heq & Hthr & _ & _). specialize (Heq ltac:(lia)). rewrite Heq in *.
    unfold db'. destruct (existsb owes_sync_only noted) eqn:Hx; cbn; [lia|]. split; [lia|]. intros _.
    destruct (decide (s_sync_through s = 0)) as [->|Hne]; [lia|]. exfalso.
    apply not_true_iff_false in Hx. apply Hx, existsb_exists. exists s. split; [by apply list_elem_of_In|].
    unfold owes_sync_only. by rewrite (proj2 (Z.eqb_neq _ _)).
  - left. unfold db'. by case_match.
  - intros _. apply Forall_fmap. eapply Forall_impl; [exact N3|]. intros s (_ & _ & _ & _ & _ & Ho). unfold own_error, failed. cbn.
    rewrite (slot_kept_writes s) by apply set_unappended_kept. intros Hf. apply Ho. revert Hf.
    unfold set_unappended, failed. by destruct (s_result s).
  - intros _. replace (next_seq (head_ db') - 1) with last by (unfold db'; by case_match).
    eapply slots_kept_guarded; [exact Hkept|]. eapply Forall_impl; [exact N3|]. by intros s (_ & _ & _ & _ & ? & _).
  - eapply slots_kept_numbered; [exact Hkept|]. eapply Forall_impl; [exact N3|]. by intros s (_ & _ & _ & ? & _).
  - intros _. split; [done|]. unfold db'. case_match; cbn; split; lia.
  - exists ls, n. split_and!; [|done|left].
    + unfold db'. case_match; [|done]. apply inv_note; [done|done|done|lia].
    + split; [done|]. apply Forall_fmap, Forall_forall. intros s Hs. right. cbn.
      rewrite (slot_kept_writes s) by apply set_unappended_kept.
      rewrite <-N2 in Hws. apply concat_nil_Forall in Hws.
      rewrite Forall_fmap, Forall_forall in Hws. by apply Hws.
Qed.

(** A group whose slots are the ones [commit_appended] left. *)
Lemma group_end_result ls n ws z q batch noted slots db db' :
  group_end cfg next0 v0 ls n ws z q noted slots db db' -> accepting db -> sync_requested_seq (head_ db) <= q ->
  Forall2 same_request batch noted -> slot_writes <$> noted = slot_writes <$> slots -> ws = concat (slot_writes <$> noted) ->
  Forall (fun s => 0 <= wait_target s < z /\ (s_sync s = true -> wait_target s <= q)) noted ->
  Forall (numbered (next_seq (head_ db))) noted ->
  Forall (guarded (z - 1) (durable_seq (state_ db))) noted -> Forall own_error noted ->
  group_result ls n batch slots db db'.
Proof.
  intros [G1 G2 G7 G3 G6 G5 G4 (ls' & n' & I & Hn & Ho)] Hno0 Hq Hb Hw Hws Htgt Hnum Hgd Hown. split; [|done|done|done| |done| | | | |].
  - eapply Forall2_same_request_trans; [exact Hb|]. eapply Forall2_impl; [exact G1|apply slot_kept_request].
  - intros Hno. destruct (G4 Hno) as (-> & -> & _). apply Forall_forall. intros s' Hs' _.
    apply list_elem_of_lookup_1 in Hs' as (i & Hi).
    destruct (Forall2_lookup_r _ _ _ _ _ G1 Hi) as (s & Hs & Hk).
    rewrite (slot_kept_target _ _ Hk), (sk_sync _ _ Hk). by apply (Forall_lookup_1 _ _ _ _ Htgt Hs).
  - intros Hno. specialize (G5 Hno). clear -G1 G5 Hown. revert G5. induction G1 as [|s s' ? ? Hk _ IH]; intros G5; [constructor|].
    inversion G5; subst. apply Forall_cons in Hown as [Ho Hos]. constructor; [|by apply IH].
    intros Hf. rewrite (slot_kept_writes _ _ Hk). apply Ho. unfold failed in *. congruence.
  - intros Hno. destruct (G4 Hno) as (-> & _). by eapply slots_kept_guarded.
  - by eapply slots_kept_numbered.
  - intros Hno. by destruct (G4 Hno) as (_ & -> & ?).
  - exists ls', n'. split_and!; [done|done|]. destruct Ho as [[-> Hx]| ->].
    + left. split; [done|]. eapply Forall_impl; [exact Hx|]. by left.
    + right. exists z. by rewrite Hws, Hw.
Qed.

Lemma finish_appended ls n st batch taken f db :
  inv ls n db -> accepting db -> closed (state_ db) = false ->
  heap db !! active_file_id (head_ db) = Some f -> framed f ->
  stage_inv (recs_of (heap db)) (transient (head_ db)) (logical_end f) (concat (slot_writes <$> taken)) st ->
  st_entries st <> [] ->
  Forall fresh_slot batch -> Forall2 (slot_staged (transient (head_ db)) st) batch taken ->
  exists slots db', finish_group cfg (active_file_id (head_ db)) (state_ db) taken st db = (Ok slots, db')
    /\ group_result ls n batch slots db db'.
Proof.
  intros I Hno Hcl Hf Hfr S Hne Hfresh Hst. pose proof (iv_accepts _ _ _ _ _ I Hno) as Hh.
  pose proof (wf_next _ _ (so_wf _ _ (hk_head _ _ _ _ _ Hh))) as Hpos. cbn in Hpos.
  pose proof (sg_seq _ _ _ _ _ S) as Hseq. cbn in Hseq. pose proof (sg_max _ _ _ _ _ S) as Hmax.
  unfold finish_group. set (last := last_seq_of (st_t st)). set (t := st_t st) in *.
  assert (Hlast : last = t_next_seq t - 1).
  { unfold last, last_seq_of. by rewrite (proj2 (Z.ltb_lt _ _)) by lia. }
  assert (Hsub : u64_sub (t_next_seq t) 1 = t_next_seq t - 1).
  { apply wrap_small. unfold fits, KeyDirEntry.kMaxSequence in *. lia. }
  rewrite Hsub. clear Hsub.
  destruct (noted_batch _ st batch taken last (durable_seq (state_ db)) Hfresh Hst) as (N1 & N2 & N3); [fold t; lia|].
  set (noted := note_sync_through _ _ <$> taken) in *.
  assert (Hany : forall s, s ∈ noted -> s_sync s = true -> existsb s_sync taken = true).
  { intros s (s0 & -> & Hs0)%list_elem_of_fmap Hsy. apply existsb_exists. exists s0.
    split; [by apply list_elem_of_In|]. rewrite <-Hsy. symmetry. apply note_sync_through_request. }
  destruct (st_entries st) as [|e es] eqn:Ees; [done|]. rewrite <-Ees in *. clear Ees.
  destruct (append_cases (write_limits cfg) (st_entries st) (active_file_id (head_ db)) f db)
    as (res & db1 & f' & E1 & Q1 & Hc1 & Hh1 & _ & A1); [apply Hcfg|apply I|done|by eapply Forall_impl; [apply S|intros ? []]|by rewrite (sf_active _ _ (hk_same _ _ _ _ _ Hh))|rewrite <-(sg_offset _ _ _ _ _ S); apply S|].
  unfold attempt. unfold mbind at 1, io_bind at 1. rewrite E1. destruct res as [offs|x].
  - assert (G : grouped next0 v0 ls n (concat (slot_writes <$> taken)) t db1) by by eapply stage_grouped.
    destruct (commit_appended_spec cfg next0 v0 ls n _ t noted (existsb s_sync taken) db1 ltac:(apply Hcfg) G)
      as (slots & db2 & E2 & GE).
    rewrite (qi_head _ _ Q1) in E2. unfold mbind, io_bind. rewrite E2. exists slots, db2. split; [done|].
    eapply (group_end_result _ _ _ _ _ _ noted); [|done| |done| |by rewrite N2| | | |].
    + eapply group_end_later; [done|apply Q1|by rewrite (qi_state _ _ Q1)|by apply quiet_continued|exact GE].
    + pose proof (gp_sync _ _ _ _ _ _ _ G) as [Hq _]. rewrite (qi_head _ _ Q1) in Hq. case_match; lia.
    + symmetry. apply kept_writes, GE.
    + apply Forall_forall. intros s Hs. rewrite Forall_forall in N3. destruct (N3 s Hs) as (Hb & _).
      split; [done|]. intros Hsy. rewrite (Hany s Hs Hsy). fold t in Hb. cbv iota. lia.
    + eapply Forall_impl; [exact N3|]. by intros s (_ & _ & _ & ? & _).
    + rewrite <-Hlast. eapply Forall_impl; [exact N3|]. by intros s (_ & _ & _ & _ & ? & _).
    + eapply Forall_impl; [exact N3|]. by intros s (_ & _ & _ & _ & _ & ?).
  - destruct A1 as (k & A1).
    destruct (append_failed_spec (fail_slots x noted) ls n x f f' _ k db db1 I Hno Hf Q1 Hc1 Hh1 A1)
      as (db2 & E2 & Hle & Hcn & Hr & n' & I2 & Hn).
    exists (fail_slots x noted), db2. split; [exact E2|]. split.
    + eapply Forall2_same_request_trans; [exact N1|].
      eapply Forall2_impl; [apply slots_kept, fail_slot_kept|apply slot_kept_request].
    + done.
    + done.
    + intros ?. congruence.
    + intros ?. congruence.
    + right. apply fail_slots_failed.
    + intros ?. congruence.
    + intros ?. congruence.
    + eapply slots_kept_numbered; [apply slots_kept, fail_slot_kept|].
      eapply Forall_impl; [exact N3|]. by intros s (_ & _ & _ & ? & _).
    + intros ?. congruence.
    + exists ls, n'. split_and!; [done|done|]. left. split; [done|].
      eapply Forall_impl; [apply fail_slots_failed|]. by left.
Qed.

Lemma inv_same ls n db db' : inv ls n db -> same_db db db' -> inv ls n db'.
Proof.
  intros I (os & Ho & ->). apply (inv_io _ _ _ _ db); [done| |].
  - split; try done; [by apply heap_le_refl, I|apply same_files_but_refl|apply I].
  - intros Hno. pose proof (iv_accepts _ _ _ _ _ I Hno) as Hh. split; apply Hh.
Qed.

Definition plans_ok (db : DB) (batch : list EngineSlot) : Prop :=
  accepting db ->
  Forall (fun s => plan_ok (recs_of (heap db)) (next_seq (head_ db)) (max_batch_bytes cfg) (s_plan s)) batch.

(** One group: the slots it took are a prefix of the batch, not empty; a throw
    of phase 1 leaves the log alone. *)
Lemma execute_group_spec ls n batch db :
  inv ls n db -> room db -> Forall fresh_slot batch -> plans_ok db batch ->
  exists r db', execute_group cfg batch db = (r, db')
    /\ match r with
       | Ok (slots, None) => group_result ls n (take (length slots) batch) slots db db' /\ (batch <> [] -> slots <> [])
       | Ok (slots, Some _) => same_db db db' /\ inv ls n db' /\ Forall2 same_request batch slots
       | Err _ => False
       end.
Proof.
  intros I Hroom Hfresh Hplans. unfold execute_group, load_state, gets. unfold mbind at 1, io_bind at 1.
  unfold mbind at 1, io_bind at 1. destruct (write_refusal (state_ db) db) as [x|] eqn:Href.
  { exists (Ok (set_err x <$> batch, None)), db. split; [done|]. rewrite length_fmap, take_ge by lia. split.
    - split; [|apply heap_le_refl, I|apply continued_refl|done| |right; by apply Forall_fmap, Forall_true| | | |done|].
      + clear. induction batch; constructor; [by split|done].
      + intros _. by apply Forall_fmap, Forall_true.
      + intros _. apply Forall_fmap. eapply Forall_impl; [exact Hfresh|]. intros s (Hr & _) _. unfold slot_writes. cbn. by rewrite Hr.
      + intros _. apply Forall_fmap. eapply Forall_impl; [exact Hfresh|]. intros s (Hr & _) _ r Hr'. cbn in Hr'. congruence.
      + apply Forall_fmap. eapply Forall_impl; [exact Hfresh|]. intros s (Hr & _) r Hr'. cbn in Hr'. congruence.
      + exists ls, n. split_and!; [done|done|]. left. split; [done|]. apply Forall_fmap, Forall_true. intros s. by left.
    - by intros ? ->%fmap_nil_inv. }
  unfold write_refusal, is_write_allowed in Href.
  destruct (bool_decide (mode (state_ db) = Leader) && negb (degraded (state_ db)) && negb (closed (state_ db))) eqn:Hw;
    [|done]. cbn in Href. destruct (write_fault db) eqn:Hwf; [done|].
  apply andb_true_iff in Hw as [[_ Hd%negb_true_iff]%andb_true_iff Hcl%negb_true_iff].
  assert (Hno : accepting db) by (unfold refused; by rewrite Hd, Hwf).
  pose proof (iv_accepts _ _ _ _ _ I Hno) as Hh. pose proof (hk_head _ _ _ _ _ Hh) as Hs.
  destruct (so_file _ _ Hs) as [f Hf]. pose proof (iv_heap _ _ _ _ _ I) as Hok.
  unfold load_head, gets, lift. do 2 (unfold mbind at 1, io_bind at 1). unfold active_ref.
  cbn [transient t_files t_active_file_id]. rewrite (so_active _ _ Hs). unfold mbind at 1, io_bind at 1.
  unfold file_size. rewrite Hf. unfold mbind at 1, io_bind at 1. unfold df_size.
  pose proof (fo_end _ (Hok _ _ Hf)) as He. destruct (Hroom Hno f Hf) as (Hlt & Hfr & Htot).
  assert (Htal : tallied (transient (head_ db)) (logical_end f)) by (split; [apply (so_coherent _ _ Hs)|done|apply (so_extent _ _ Hs)]).
  destruct Hcfg as [C1 C2 C5 C3 C4]. specialize (Hplans Hno).
  destruct (stage_slots_spec cfg (recs_of (heap db)) (transient (head_ db)) (logical_end f) (so_wf _ _ Hs)
    (proj1 He) (recs_of_within _ _ f (Hok _ _ Hf) Hf) C3
    (0 <? file_ids_left (transient (head_ db))) batch true [] (mkStage (transient (head_ db)) [] (logical_end f)) db)
    as (taken & r & db1 & E & Hsame & _ & HR).
  { apply stage_start; try apply Hs; done || lia. }
  { done. }
  { eapply Forall_impl; [exact Hplans|]. intros s Hp. split; [done|]. pose proof (po_bytes _ _ _ _ Hp). lia. }
  { intros _ s Hs0. cbn [st_offset]. apply head_Some_elem_of in Hs0.
    rewrite Forall_forall in Hplans. pose proof (po_bytes _ _ _ _ (Hplans s Hs0)). lia. }
  pose proof (inv_same _ _ _ _ I Hsame) as I1.
  unfold mbind, io_bind. rewrite E. destruct r as [st|x]; [|exists (Ok (taken, Some x)), db1; by split_and!].
  destruct HR as (S & Hst & Hne & _). destruct Hsame as (os & Hos & ->).
  assert (Hfin : exists slots db', finish_group cfg (active_file_id (head_ db)) (state_ db) taken st (set_oracle os db)
    = (Ok slots, db') /\ group_result ls n (take (length taken) batch) slots (set_oracle os db) db').
  { destruct (decide (st_entries st = [])) as [Hnil|Hnil].
    - destruct (sg_none _ _ _ _ _ S Hnil) as [Ht Hws].
      apply (finish_unappended ls n st (take (length taken) batch) taken (set_oracle os db)); try done. by apply Forall_take.
    - apply (finish_appended ls n st (take (length taken) batch) taken f (set_oracle os db)); try done. by apply Forall_take. }
  destruct Hfin as (slots & db2 & E2 & GR). rewrite E2. exists (Ok (slots, None)), db2. split; [done|].
  pose proof (Forall2_length _ _ _ (gr_request _ _ _ _ _ _ GR)) as Hl1.
  pose proof (Forall2_length _ _ _ Hst) as Hl2.
  replace (length slots) with (length taken) by congruence. split; [destruct GR as [? ? [[] ? ?]]; split; try done; by split; [split| |]|].
  intros Hb. specialize (Hne eq_refl Hb). destruct slots, taken; done || cbn in *; lia.
Qed.

(** ** A batch *)

(** The writes of the log are those of the slots, in order; only slots that
    failed or wrote nothing are left out. *)
Inductive logged : list EngineSlot -> list WriteOp -> Prop :=
| logged_nil : logged [] []
| logged_in s slots ws : logged slots ws -> logged (s :: slots) (slot_writes s ++ ws)
| logged_out s slots ws : failed s \/ slot_writes s = [] -> logged slots ws -> logged (s :: slots) ws.

Lemma logged_all slots : logged slots (concat (slot_writes <$> slots)).
Proof. induction slots; cbn; by constructor. Qed.

Lemma logged_none slots : Forall (fun s => failed s \/ slot_writes s = []) slots -> logged slots [].
Proof. induction 1; by constructor. Qed.

Lemma logged_app a b ws ws' : logged a ws -> logged b ws' -> logged (a ++ b) (ws ++ ws').
Proof. induction 1; intros Hb; cbn; [done| |]; rewrite <-?app_assoc; constructor; auto. Qed.

Lemma logged_fail x slots ws : logged slots ws -> logged (fail_slots x slots) ws.
Proof.
  induction 1 as [|s slots ws _ IH|s slots ws Hs _ IH]; cbn; [constructor| |].
  - rewrite <-(slot_kept_writes _ _ (fail_slot_kept x s)). by constructor.
  - constructor; [|done]. left. unfold failed, fail_slot. destruct (s_err s) eqn:E; cbn; congruence.
Qed.

Lemma awaitable_mono next next' owed owed' slots :
  next <= next' -> owed <= owed' -> Forall (awaitable next owed) slots -> Forall (awaitable next' owed') slots.
Proof.
  intros Hn Ho Hs. eapply Forall_impl; [exact Hs|].
  intros s Ha Herr. destruct (Ha Herr) as [Hb Hs']. split; [lia|]. intros Hsy. specialize (Hs' Hsy). lia.
Qed.

Lemma log_next_app ls gs : log_ok next0 (ls ++ gs) -> log_next next0 ls <= log_next next0 (ls ++ gs).
Proof.
  intros Hl. pose proof (log_next_le next0 (ls ++ gs) (length ls) (length (ls ++ gs)) Hl) as Hle.
  rewrite take_app_length, (take_ge (ls ++ gs)) in Hle by lia. apply Hle; rewrite length_app; lia.
Qed.

(** From one engine state to a later one of the same history. *)
Record progressed (ls gs : group_log) (n n' : nat) (db db' : DB) : Prop := {
  ad_inv : inv (ls ++ gs) n' db';
  ad_more : (n <= n')%nat;
  ad_le : heap_le (heap db) (heap db');
  ad_continued : continued (stem_of cfg) db db';
  ad_room : room db';
  ad_accepting : accepting db' -> accepting db;
  ad_next : accepting db' -> next_seq (head_ db) <= next_seq (head_ db');
  ad_owed : accepting db' -> sync_requested_seq (head_ db) <= sync_requested_seq (head_ db')
}.

Lemma progressed_trans ls gs gs' n n' n'' a b c :
  progressed ls gs n n' a b -> progressed (ls ++ gs) gs' n' n'' b c -> progressed ls (gs ++ gs') n n'' a c.
Proof.
  intros [] [Y1 Y2 Y3 Y8 Y4 Y5 Y6 Y7]. split; try done; [by rewrite app_assoc|lia|by eapply heap_le_trans|by eapply continued_trans|auto| |];
    intros Hc; etrans; eauto.
Qed.

Lemma inv_next_mono ls gs n n' db db' :
  inv ls n db -> inv (ls ++ gs) n' db' -> accepting db -> accepting db' ->
  next_seq (head_ db) <= next_seq (head_ db').
Proof.
  intros I I' Ha Ha'. rewrite (hk_next _ _ _ _ _ (iv_accepts _ _ _ _ _ I Ha)),
    (hk_next _ _ _ _ _ (iv_accepts _ _ _ _ _ I' Ha')). apply log_next_app, I'.
Qed.

Lemma group_advances ls n batch slots db db' :
  inv ls n db -> group_result ls n batch slots db db' ->
  exists gs n', progressed ls gs n n' db db' /\ logged slots (concat gs.*1).
Proof.
  intros I [G1 G2 G6 G3 G4 _ _ _ _ G5 (ls' & n' & I' & Hn & Ho)].
  assert (Hgs : exists gs, ls' = ls ++ gs /\ logged slots (concat gs.*1)).
  { destruct Ho as [[-> Hx]|(z & ->)].
    - exists []. rewrite app_nil_r. split; [done|]. by apply logged_none.
    - exists [(concat (slot_writes <$> slots), z)]. split; [done|]. cbn. rewrite app_nil_r. apply logged_all. }
  destruct Hgs as (gs & -> & Hlog). exists gs, n'. split; [|done].
  split; try done; [by intros (? & _)%G5| |by intros (_ & ? & _)%G5].
  intros Ha. destruct (G5 Ha) as (Ha0 & _). by eapply inv_next_mono.
Qed.

Lemma plans_ok_later ls gs n n' batch db db' :
  inv ls n db -> progressed ls gs n n' db db' -> plans_ok db batch -> plans_ok db' batch.
Proof.
  intros I [A1 A2 A3 A8 A4 A5 A6 A7] Hp Ha. specialize (Hp (A5 Ha)). eapply Forall_impl; [exact Hp|].
  intros s. apply plan_ok_mono; [apply heap_le_recs; [apply I|done]|auto].
Qed.

(** The slots once the error the batch ended with is noted. *)
Definition slots_failed (x : option exn) (slots : list EngineSlot) : list EngineSlot :=
  match x with Some x => fail_slots x slots | None => slots end.

Lemma logged_failed x slots ws : logged slots ws -> logged (slots_failed x slots) ws.
Proof. destruct x; [apply logged_fail|done]. Qed.

Lemma slots_failed_app x a b : slots_failed x (a ++ b) = slots_failed x a ++ slots_failed x b.
Proof. destruct x; [apply fmap_app|done]. Qed.

(** Groups until the batch is done; [fuel] of one a slot is enough. *)
Lemma execute_slots_spec fuel ls n batch db :
  inv ls n db -> room db -> Forall fresh_slot batch -> plans_ok db batch -> (length batch <= fuel)%nat ->
  exists slots x db' gs n', execute_slots cfg fuel batch db = (Ok (slots, x), db')
    /\ (forall k, execute_slots cfg (fuel + k) batch db = (Ok (slots, x), db'))
    /\ progressed ls gs n n' db db' /\ Forall2 same_request batch slots /\ logged (slots_failed x slots) (concat gs.*1)
    /\ (accepting db' -> x = None -> Forall (awaitable (next_seq (head_ db')) (sync_requested_seq (head_ db'))) slots).
Proof.
  revert ls n batch db. induction fuel as [|fuel IH]; intros ls n batch db I Hroom Hfresh Hplans Hlen.
  { destruct batch; [|cbn in Hlen; lia]. exists [], None, db, [], n. split; [done|].
    split; [by intros []|]. split_and!; [|constructor|constructor|constructor].
    split; rewrite ?app_nil_r; try done; [apply heap_le_refl, I|apply continued_refl]. }
  destruct batch as [|s0 batch0].
  { exists [], None, db, [], n. split; [done|]. split; [by intros []|]. split_and!; [|constructor|constructor|constructor].
    split; rewrite ?app_nil_r; try done; [apply heap_le_refl, I|apply continued_refl]. }
  set (batch := s0 :: batch0) in *. cbn [execute_slots plus].
  destruct (execute_group_spec ls n batch db I Hroom Hfresh Hplans) as (r & db1 & E1 & HR).
  unfold attempt, batch. unfold mbind at 1, io_bind at 1. fold batch. rewrite E1. destruct r as [[slots [x|]]|x]; [| |done].
  - destruct HR as (Hsame & I1 & Hreq). exists slots, (Some x), db1, [], n. split; [done|].
    split; [intros k; unfold mbind, io_bind, attempt; by rewrite E1|].
    split; [|split_and!; [done| |done]].
    + destruct Hsame as (os & Ho & ->). split; rewrite ?app_nil_r; try done; [apply heap_le_refl, I|].
      apply evolved_continued; [|done|done]. apply advanced_evolved; [apply advanced_refl|apply same_files_but_refl|apply heap_le_refl, I].
    + apply logged_none. eapply Forall_impl; [apply fail_slots_failed|]. by left.
  - destruct HR as [GR Hne]. specialize (Hne ltac:(done)).
    pose proof (Forall2_length _ _ _ (gr_request _ _ _ _ _ _ GR)) as Hl. rewrite length_take in Hl.
    destruct (group_advances ls n _ slots db db1 I GR) as (gs & n1 & A1 & L1).
    destruct (IH (ls ++ gs) n1 (drop (length slots) batch) db1) as (rest & x & db2 & gs2 & n2 & E2 & Ek & A2 & R2 & L2 & W2).
    { apply A1. } { apply A1. } { by apply Forall_drop. }
    { intros Ha. apply Forall_drop. by apply (plans_ok_later ls gs n n1 batch db db1). }
    { rewrite length_drop. destruct slots; [done|]. cbn in *. lia. }
    exists (slots ++ rest), x, db2, (gs ++ gs2), n2. unfold mbind, io_bind. rewrite E2. split; [done|].
    split; [intros k; unfold attempt, batch; fold batch; rewrite E1; by rewrite Ek|].
    split; [by eapply progressed_trans|]. split_and!.
    + rewrite <-(take_drop (length slots) batch). apply Forall2_app; [apply GR|done].
    + rewrite fmap_app, concat_app, slots_failed_app. apply logged_app; [by apply logged_failed|done].
    + intros Ha Hx. apply Forall_app. split; [|by apply W2].
      eapply awaitable_mono; [apply (ad_next _ _ _ _ _ _ A2 Ha)|apply (ad_owed _ _ _ _ _ _ A2 Ha)|].
      apply (gr_wait _ _ _ _ _ _ GR), (ad_accepting _ _ _ _ _ _ A2 Ha).
Qed.

(** ** Stage 2 *)

Definition waits_for (slot : EngineSlot) (db : DB) : Prop :=
  accepting db -> awaitable (next_seq (head_ db)) (sync_requested_seq (head_ db)) slot.

(** How a wait ends: covered by the published state, or refused. *)
Definition wait_outcome (slot : EngineSlot) (r : result (option EngineSlot)) (db : DB) : Prop :=
  match r with
  | Ok (Some s) =>
      covered slot (wait_target slot) (state_ db) = true
      /\ s_result s = (fun c => mkCommitResult (cr_sequence c) (wait_target slot <=? durable_seq (state_ db)))
                        <$> s_result slot
      /\ s_rests_on s = s_rests_on slot
  | Ok None => False
  | Err _ => covered slot (wait_target slot) (state_ db) = false /\ refused (state_ db) db = true
  end.

(** The end of a wait needs no further flush. *)
Lemma commit_wait_settled fuel ls n slot db :
  inv ls n db -> covered slot (wait_target slot) (state_ db) = true \/ refused (state_ db) db = true ->
  exists r, commit_wait (S fuel) slot db = (r, db) /\ wait_outcome slot r db.
Proof.
  intros I Hc. cbn [commit_wait]. unfold load_state, gets, mbind, io_bind, mret, io_ret.
  destruct (covered slot (wait_target slot) (state_ db)) eqn:Hcov.
  - eexists. split; [done|]. split; [done|].
    destruct (s_result slot) eqn:E; [done|by rewrite E].
  - destruct Hc as [?|Hr]; [done|]. destruct (flush_error db) as [x|]; [by exists (Err x)|]. rewrite Hr.
    by eexists.
Qed.

(** A head that is published with its syncs covers whatever waits for it. *)
Lemma caught_up_covers ls n slot db :
  inv ls n db -> accepting db -> caught_up ls n db -> s_err slot = None -> waits_for slot db ->
  covered slot (wait_target slot) (state_ db) = true.
Proof.
  intros I Ha [-> Hs] He Hw. destruct (Hw Ha He) as [Hb Ho]. pose proof (iv_next _ _ _ _ _ I) as Hn.
  rewrite take_ge, <-(hk_next _ _ _ _ _ (iv_accepts _ _ _ _ _ I Ha)) in Hn by lia.
  unfold covered. destruct (s_sync slot); [apply Z.leb_le|apply Z.ltb_lt]; [|lia]. specialize (Ho eq_refl). lia.
Qed.

(** Otherwise a flush is run, or the one in flight lands. *)
Lemma commit_wait_step fuel slot db db1 :
  covered slot (wait_target slot) (state_ db) = false -> accepting db -> flush_error db = None ->
  match in_flight db with None => (_ ← flush_start; flush_finish) db | Some _ => flush_finish db end = (Ok (), db1) ->
  commit_wait (S fuel) slot db = commit_wait fuel slot db1.
Proof.
  intros Hc Ha He. cbn [commit_wait]. unfold load_state, gets, mbind, io_bind, mret, io_ret. rewrite Hc, He, Ha.
  destruct (in_flight db); [by intros ->|]. destruct (flush_start db) as [[[]|] db2]; [by intros ->|done].
Qed.

Definition waited (ls : group_log) (n : nat) (fuel : nat) (slot : EngineSlot) (db : DB) : Prop :=
  exists r db' n', commit_wait fuel slot db = (r, db') /\ flushed next0 v0 ls n n' db db' /\ wait_outcome slot r db'.

Lemma waited_settled ls n fuel slot db :
  inv ls n db -> in_flight db = None ->
  covered slot (wait_target slot) (state_ db) || refused (state_ db) db = true -> waited ls n (S fuel) slot db.
Proof.
  intros I Hfl Hset.
  destruct (commit_wait_settled fuel ls n slot db I ltac:(by apply orb_true_iff)) as (r & E & O).
  exists r, db, n. split; [done|]. split; [|done]. by apply flushed_refl.
Qed.

Lemma waited_after ls n n1 fuel slot db db1 :
  flushed next0 v0 ls n n1 db db1 -> commit_wait (S fuel) slot db = commit_wait fuel slot db1 ->
  waited ls n1 fuel slot db1 -> waited ls n (S fuel) slot db.
Proof.
  intros F E (r & db2 & n2 & E2 & F2 & O). exists r, db2, n2. split; [congruence|]. split; [by eapply flushed_trans|done].
Qed.

(** With the role free, one flush settles the wait. *)
Lemma commit_wait_free ls n fuel slot db :
  inv ls n db -> in_flight db = None -> s_err slot = None -> waits_for slot db ->
  waited ls n (S (S fuel)) slot db.
Proof.
  intros I Hfl He Hw.
  destruct (covered slot (wait_target slot) (state_ db) || refused (state_ db) db) eqn:Hset; [by apply waited_settled|].
  apply orb_false_iff in Hset as [Hcov Ha].
  destruct (flush_once_spec next0 v0 ls n db I Hfl) as (db1 & n1 & E1 & F & Hc).
  eapply waited_after; [exact F| |].
  - apply commit_wait_step; [done|done|apply (iv_accepts _ _ _ _ _ I Ha)|]. by rewrite Hfl.
  - apply waited_settled; [apply F|apply (fd_free _ _ _ _ _ _ _ F)|]. apply orb_true_iff.
    destruct Hc as [[Hr _]|[Ha1 Hup]]; [by right|left].
    apply (caught_up_covers ls n1); [apply F|done|done|done|].
    intros _. rewrite (fd_head _ _ _ _ _ _ _ F). by apply Hw.
Qed.

(** With a flush in flight, it lands first. *)
Lemma commit_wait_total ls n fuel slot db :
  inv ls n db -> s_err slot = None -> waits_for slot db ->
  exists r db' n', commit_wait (S (S (S fuel))) slot db = (r, db') /\ wait_outcome slot r db'
    /\ ((db' = db /\ n' = n) \/ flushed next0 v0 ls n n' db db').
Proof.
  intros I He Hw. destruct (in_flight db) as [fl|] eqn:Hfl.
  - destruct (covered slot (wait_target slot) (state_ db) || refused (state_ db) db) eqn:Hset.
    { destruct (commit_wait_settled (S (S fuel)) ls n slot db I ltac:(by apply orb_true_iff)) as (r & E & O).
      exists r, db, n. auto. }
    apply orb_false_iff in Hset as [Hcov Ha].
    destruct (flush_finish_spec next0 v0 ls n db I) as (db1 & n1 & E1 & F).
    destruct (commit_wait_free ls n1 fuel slot db1) as (r & db2 & n2 & E2 & F2 & O).
    { apply F. } { apply (fd_free _ _ _ _ _ _ _ F). } { done. }
    { intros Ha1. rewrite (fd_head _ _ _ _ _ _ _ F). by apply Hw. }
    exists r, db2, n2. split_and!; [|done|right; by eapply flushed_trans].
    rewrite <-E2. apply commit_wait_step; [done|done|apply (iv_accepts _ _ _ _ _ I Ha)|by rewrite Hfl].
  - destruct (commit_wait_free ls n (S fuel) slot db I Hfl He Hw) as (r & db2 & n2 & E2 & F2 & O).
    exists r, db2, n2. auto.
Qed.

End commits.
