(* ===== verification/WritePath.v ===== *)
(** * The write path, end to end

    [apply_batch] from the caller's plan to its result, and the engine as a
    transition system: batches, flushes that start and that land, in any
    order, with system calls failing anywhere. *)

From S2P Require Import Prelude Codec KeyDir DataFile DataFileProofs FileScan EngineState EngineProofs Db Commit Records StageProofs Faults DbInv FlushProofs RotationProofs GroupProofs CommitProofs.
Import Serialization Types Stats Dir Plan.

(** A plan as its builder leaves it: sizes within the limits, on a snapshot, if
    any, that this engine handed out. *)
Record request_ok `{Crc32c} (db : DB) (p : WritePlan) : Prop := {
  rq_sized : Forall op_sized (writes p);
  rq_bytes : plan_bytes p < 2 ^ 64;
  rq_snap : forall s k e, snap p = Some s -> key_dir s !! k = Some e ->
              resolves (recs_of (heap db)) k e /\ KeyDirEntry.sequence e < next_seq (head_ db);
  rq_fresh : snap p = None -> snap_entries p = []
}.

Lemma resolve_writes p : writes (resolve_snapshot_entries p) = writes p.
Proof. unfold resolve_snapshot_entries. by destruct (snap p). Qed.

Lemma request_plan_ok `{Crc32c} db p limit :
  request_ok db p -> plan_bytes p <= limit ->
  plan_ok (recs_of (heap db)) (next_seq (head_ db)) limit (resolve_snapshot_entries p).
Proof.
  intros [R1 R2 R3 R4] Hb. unfold resolve_snapshot_entries. destruct (snap p) as [s|] eqn:Es.
  - by split.
  - split; try done; [|by rewrite Es, R4]. intros. congruence.
Qed.

Section write_path.
Context `{Crc32cLaws} `{KeyDirKind} `{Apart : FaultSpacing} (cfg : Settings) (next0 : Z) (v0 : gmap bytes bytes).
Context (Hcfg : settings_ok cfg).

Abbreviation inv := (inv next0 v0).
Abbreviation accepting db := (refused (state_ db) db = false).
Abbreviation room := (room cfg).

(** A later moment of the engine, no batch run in between. *)
Record later (ls : group_log) (n n' : nat) (db db' : DB) : Prop := {
  lt_inv : inv ls n' db';
  lt_more : (n <= n')%nat;
  lt_refused : refused (state_ db) db = true -> refused (state_ db') db' = true;
  lt_durable : durable_seq (state_ db) <= durable_seq (state_ db')
}.

Lemma flushed_later ls n n' db db' : flushed next0 v0 ls n n' db db' -> later ls n n' db db'.
Proof. by intros []. Qed.

Lemma later_refl ls n db : inv ls n db -> later ls n n db db.
Proof. by split. Qed.

Lemma later_trans ls a b c x y z : later ls a b x y -> later ls b c y z -> later ls a c x z.
Proof. intros [] []. split; auto; lia. Qed.

(** ** One plan in its batch *)

Lemma run_batch_one ls n slot db :
  inv ls n db -> room db -> fresh_slot slot -> plans_ok cfg db [slot] ->
  exists s db', run_batch cfg [slot] db = (Ok [s], db')
    /\ ((s_err s <> None /\ inv ls n db' /\ same_db db db') \/ group_result cfg next0 v0 ls n [slot] [s] db db').
Proof.
  intros I Hroom Hf Hp.
  destruct (execute_group_spec cfg next0 v0 Hcfg ls n [slot] db I Hroom (proj2 (Forall_singleton _ _) Hf) Hp)
    as (r & db' & E & HR).
  unfold run_batch. cbn [length execute_slots]. unfold attempt, mbind, io_bind. rewrite E.
  destruct r as [[slots [x|]]|x]; [| |done].
  - destruct HR as (Hsame & I' & Hreq). pose proof (Forall2_length _ _ _ Hreq) as Hl. destruct slots as [|s [|s' slots]]; [done| |done].
    exists (fail_slot x s), db'. split; [done|]. left. split; [|done].
    unfold fail_slot. destruct (s_err s) eqn:Ee; cbn; congruence.
  - destruct HR as [GR Hne]. pose proof (Forall2_length _ _ _ (gr_request _ _ _ _ _ _ _ _ _ GR)) as Hl.
    destruct slots as [|s [|s' slots]]; [by destruct Hne| |cbn in Hl; lia].
    exists s, db'. split; [done|by right].
Qed.

(** ** Settling *)

(** Another thread's flush publishes what the slot rests on, or fails. *)
Context (waited : DB -> DB).
Context (Hwaited : forall ls n db, inv ls n db -> exists n', later ls n n' db (waited db)).

Lemma settle_unappended_spec ls n slot db :
  inv ls n db ->
  exists r db' n', settle_unappended waited slot db = (r, db') /\ later ls n n' db db'
    /\ (s_rests_on slot = 0 -> r = Ok () /\ db' = db).
Proof.
  intros I. unfold settle_unappended, load_state, gets, modify, throw, mret, io_ret. unfold mbind, io_bind.
  destruct (Z.eqb_spec (s_rests_on slot) 0) as [Hz|Hz].
  { exists (Ok ()), db, n. split_and!; [done|by apply later_refl|done]. }
  assert (Hself : later ls n n db db) by by apply later_refl. destruct (Hwaited ls n db I) as (n' & L).
  repeat case_match; eexists _, _, _; (split; [done|]); (split; [first [exact Hself|exact L]|done]).
Qed.

(** What [apply_batch] reports. *)
Definition batch_outcome (ls gs : group_log) (n' : nat) (sync : bool) (p : WritePlan)
    (r : result (option CommitResult)) (db' : DB) : Prop :=
  match r with
  | Ok (Some c) =>
      ((cr_sequence c = 0 /\ concat gs.*1 = [])
       \/ exists z, gs = [(writes p, z)] /\ log_next next0 ls <= cr_sequence c < z /\ n' = length (ls ++ gs))
      /\ (sync = true -> if cr_sequence c =? 0
                         then log_next next0 (ls ++ gs) - 1 <= durable_seq (state_ db')
                         else cr_sequence c <= durable_seq (state_ db') /\ cr_durable c = true)
  | Ok None => concat gs.*1 = []
  | Err _ => concat gs.*1 = [] \/ refused (state_ db') db' = true
  end.

(** What a covered target says of the published prefix: it holds every group up
    to the one that assigned the target. *)
Lemma covered_published ls n slot db :
  inv ls n db -> covered slot (wait_target slot) (state_ db) = true ->
  wait_target slot < next_seq (state_ db) /\ (s_sync slot = true -> wait_target slot <= durable_seq (state_ db)).
Proof.
  intros I. unfold covered. pose proof (iv_owed _ _ _ _ _ I). destruct (s_sync slot).
  - intros ?%Z.leb_le. split; [lia|done].
  - intros ?%Z.ltb_lt. done.
Qed.

Lemma later_next ls n n' db db' :
  inv ls n db -> later ls n n' db db' -> next_seq (state_ db) <= next_seq (state_ db').
Proof.
  intros I L. rewrite (iv_next _ _ _ _ _ I), (iv_next _ _ _ _ _ (lt_inv _ _ _ _ _ L)).
  apply log_next_le; [apply I|apply L|apply (lt_inv _ _ _ _ _ L)].
Qed.

(** Stage 2 of a slot that is in the log, or that waits for a sync only. *)
Lemma stage2_spec ls n slot c0 db :
  inv ls n db -> s_err slot = None -> waits_for slot db -> s_result slot = Some c0 ->
  exists r db' n', (settled ← commit_wait 3 slot;
                    match settled with
                    | Some slot => _ ← settle_unappended waited slot; mret (s_result slot)
                    | None => throw (LogicError "commit_wait did not settle")
                    end) db = (r, db')
    /\ later ls n n' db db'
    /\ match r with
       | Ok o => wait_target slot < next_seq (state_ db')
                 /\ exists c, o = Some c /\ cr_sequence c = cr_sequence c0
                 /\ (s_sync slot = true -> wait_target slot <= durable_seq (state_ db') /\ cr_durable c = true)
       | Err _ => refused (state_ db') db' = true \/ s_rests_on slot <> 0
       end.
Proof.
  intros I He Hw Hres.
  destruct (commit_wait_total next0 v0 ls n 0 slot db I He Hw) as (r & db1 & n1 & E1 & O & Hc).
  assert (L1 : later ls n n1 db db1).
  { destruct Hc as [[-> ->]|F]; [by apply later_refl|by apply flushed_later]. }
  pose proof (lt_inv _ _ _ _ _ L1) as I1. unfold mbind at 1, io_bind at 1. rewrite E1.
  destruct r as [[s|]|x]; [|done|].
  2: { exists (Err x), db1, n1. split_and!; [done|done|]. left. apply O. }
  destruct O as (Hcov & Hs & Hro). rewrite Hres in Hs. cbn in Hs.
  destruct (settle_unappended_spec ls n1 s db1 I1) as (r & db2 & n2 & E2 & L2 & Hz).
  unfold mbind, io_bind. rewrite E2.
  destruct (covered_published ls n1 slot db1 I1 Hcov) as [Hn Hd].
  pose proof (later_next _ _ _ _ _ I1 L2) as Hmono. pose proof (lt_durable _ _ _ _ _ L2) as Hdm.
  destruct r as [[]|x]; eexists _, db2, n2; (split; [done|]); (split; [by eapply later_trans|]).
  - split; [lia|]. rewrite Hs. eexists. split; [done|]. split; [done|]. intros Hsy. specialize (Hd Hsy).
    split; [lia|]. cbn. apply Z.leb_le. lia.
  - right. intros Hz0. rewrite Hro in Hz. destruct (Hz Hz0). congruence.
Qed.

(** The group a slot is in is published once its sequence is. *)
Lemma published_whole ls z n seq db :
  inv (ls ++ [z]) n db -> log_next next0 ls <= seq -> seq < next_seq (state_ db) -> n = length (ls ++ [z]).
Proof.
  intros I Hge Hlt. pose proof (iv_n _ _ _ _ _ I) as Hn. rewrite (iv_next _ _ _ _ _ I) in Hlt.
  destruct (decide (n <= length ls)%nat) as [Hle|Hgt]; [|rewrite length_app in *; cbn in *; lia].
  pose proof (log_next_le next0 (ls ++ [z]) n (length ls) (iv_log _ _ _ _ _ I) Hle) as Hm.
  rewrite take_app_length in Hm. rewrite length_app in Hm. lia.
Qed.

(** The rest of [apply_batch], once stage 1 has run. *)
Definition finish_batch (slot : EngineSlot) : io DB (option CommitResult) :=
  match s_err slot with
  | Some ex => throw ex
  | None =>
      settled ← (match s_result slot with
                 | Some r => if negb (cr_sequence r =? 0) || negb (s_sync_through slot =? 0)
                             then commit_wait 3 slot else mret (Some slot)
                 | None => mret (Some slot)
                 end);
      match settled with
      | Some slot => _ ← settle_unappended waited slot; mret (s_result slot)
      | None => throw (LogicError "commit_wait did not settle")
      end
  end.

(** A slot that appended its writes. *)
Lemma finish_appended_slot ls z n slot c p db :
  inv (ls ++ [(writes p, z)]) n db -> s_err slot = None -> s_result slot = Some c -> cr_sequence c <> 0 ->
  log_next next0 ls <= cr_sequence c < z -> s_rests_on slot = 0 -> waits_for slot db ->
  exists r db' n', finish_batch slot db = (r, db') /\ later (ls ++ [(writes p, z)]) n n' db db'
    /\ batch_outcome ls [(writes p, z)] n' (s_sync slot) p r db'.
Proof.
  intros I He Hc Hne Hb Hro Hw. unfold finish_batch. rewrite He, Hc. rewrite (proj2 (Z.eqb_neq _ _)) by done. cbn [negb orb].
  destruct (stage2_spec _ n slot c db I He Hw Hc) as (r & db' & n' & E & L & HR).
  exists r, db', n'. split; [exact E|]. split; [done|].
  assert (Ht : wait_target slot = cr_sequence c) by (unfold wait_target; rewrite Hc; by rewrite (proj2 (Z.eqb_neq _ _))).
  destruct r as [o|x].
  - destruct HR as (Hn & c' & -> & Hseq & Hs). rewrite Ht in *. cbn. split.
    + right. exists z. split; [done|]. split; [lia|].
      by apply (published_whole _ _ _ (cr_sequence c) db'); [apply L|lia|].
    + intros Hsy. rewrite (proj2 (Z.eqb_neq _ _)) by lia. rewrite Hseq. by apply Hs.
  - right. by destruct HR.
Qed.

(** A slot that appended nothing: its group, if any, wrote nothing of it. *)
Lemma finish_unappended_slot ls gs n slot p db d :
  inv (ls ++ gs) n db -> refused (state_ db) db = false -> s_err slot = None -> concat gs.*1 = [] ->
  (forall c, s_result slot = Some c -> cr_sequence c = 0) -> waits_for slot db ->
  guarded (next_seq (head_ db) - 1) d slot -> d <= durable_seq (state_ db) ->
  exists r db' n', finish_batch slot db = (r, db') /\ later (ls ++ gs) n n' db db'
    /\ batch_outcome ls gs n' (s_sync slot) p r db'.
Proof.
  intros I Ha He Hgs Hz Hw Hg Hd. unfold finish_batch. rewrite He.
  pose proof (hk_next _ _ _ _ _ (iv_accepts _ _ _ _ _ I Ha)) as Hnext. pose proof (iv_owed _ _ _ _ _ I) as Ho.
  destruct (s_result slot) as [c|] eqn:Hc.
  - specialize (Hz c eq_refl). rewrite Hz. cbn [Z.eqb negb orb].
    assert (Hsync : forall db', durable_seq (state_ db) <= durable_seq (state_ db') ->
      s_sync_through slot <= durable_seq (state_ db') -> s_sync slot = true ->
      log_next next0 (ls ++ gs) - 1 <= durable_seq (state_ db')).
    { intros db' Hdd Ht Hsy. specialize (Hg Hsy c Hc Hz). rewrite <-Hnext. lia. }
    assert (Ht : wait_target slot = s_sync_through slot) by (unfold wait_target; rewrite Hc, Hz; done).
    destruct (Z.eqb_spec (s_sync_through slot) 0) as [H0'|H0']; cbn [negb].
    + destruct (settle_unappended_spec (ls ++ gs) n slot db I) as (r & db' & n' & E & L & _).
      unfold mbind, io_bind, mret, io_ret. rewrite E.
      destruct r as [[]|x]; eexists _, db', n'; (split; [done|]); (split; [done|]); cbn; [|by left].
      rewrite Hc. cbn. split; [by left|]. intros Hsy. rewrite Hz. cbn.
      apply Hsync; [apply L|pose proof (lt_durable _ _ _ _ _ L); lia|done].
    + destruct (stage2_spec (ls ++ gs) n slot c db I He Hw Hc) as (r & db' & n' & E & L & HR).
      exists r, db', n'. split; [exact E|]. split; [done|]. destruct r as [o|x]; [|by left].
      destruct HR as (_ & c' & -> & Hseq & Hs). cbn. rewrite Hz in Hseq. split; [by left|].
      intros Hsy. rewrite Hseq. cbn. apply Hsync; [apply L|rewrite <-Ht; by apply Hs|done].
  - destruct (settle_unappended_spec (ls ++ gs) n slot db I) as (r & db' & n' & E & L & _).
    unfold mbind, io_bind, mret, io_ret. rewrite E.
    destruct r as [[]|x]; eexists _, db', n'; (split; [done|]); (split; [done|]); cbn; [by rewrite Hc|by left].
Qed.

(** What a slot's group says when the slot comes back without an error. *)
Lemma group_slot ls n p slot s db db1 :
  group_result cfg next0 v0 ls n [slot] [s] db db1 -> inv ls n db -> s_plan slot = resolve_snapshot_entries p ->
  s_err s = None ->
  exists gs n1 r db' n', inv (ls ++ gs) n1 db1 /\ (n <= n1)%nat /\ finish_batch s db1 = (r, db')
    /\ later (ls ++ gs) n1 n' db1 db' /\ batch_outcome ls gs n' (s_sync slot) p r db'.
Proof.
  intros [G1 G2 _ G3 G4 G5 G6 G7 G8 G9 (ls' & n1 & I1 & Hn & Hlog)] I Hplan He.
  apply Forall2_cons in G1 as [[Hpl Hsy] _]. rewrite Hplan in Hpl.
  assert (Ha : accepting db1).
  { destruct G5 as [|Hf]; [done|]. apply Forall_cons in Hf as [Hf _]. by destruct Hf. }
  specialize (G4 Ha). specialize (G7 Ha). destruct (G9 Ha) as (Ha0 & _ & Hdm).
  apply Forall_cons in G4 as [Hw _], G7 as [Hg _], G8 as [Hnum _].
  pose proof (hk_next _ _ _ _ _ (iv_accepts _ _ _ _ _ I1 Ha)) as Hn1.
  pose proof (hk_next _ _ _ _ _ (iv_accepts _ _ _ _ _ I Ha0)) as Hn0.
  assert (Hwait : waits_for s db1) by (intros _; exact Hw).
  assert (Hcase : (forall c, s_result s = Some c -> cr_sequence c = 0) \/ exists c, s_result s = Some c /\ cr_sequence c <> 0).
  { destruct (s_result s) as [c|]; [|by left]. destruct (decide (cr_sequence c = 0)); [left|right; eauto].
    by intros ? [= <-]. }
  destruct Hcase as [Hz|(c & Hc & Hne)].
  - assert (Hsw : slot_writes s = []).
    { unfold slot_writes. destruct (s_result s) as [c|]; [|done]. by rewrite (Hz c eq_refl). }
    assert (Hgs : exists gs, ls' = ls ++ gs /\ concat gs.*1 = []).
    { destruct Hlog as [[-> _]|(z & ->)]; [exists []; by rewrite app_nil_r|].
      eexists. split; [done|]. cbn. by rewrite Hsw. }
    destruct Hgs as (gs & -> & Hgs). rewrite <-Hsy.
    destruct (finish_unappended_slot ls gs n1 s p db1 (durable_seq (state_ db)) I1 Ha He Hgs Hz Hwait Hg Hdm)
      as (r & db' & n' & E & L & O). by exists gs, n1, r, db', n'.
  - destruct (Hnum c Hc) as [?|[Hge Hro]]; [done|].
    assert (Ht : wait_target s = cr_sequence c) by (unfold wait_target; rewrite Hc; by rewrite (proj2 (Z.eqb_neq _ _))).
    destruct (Hw He) as [Hb _]. rewrite Ht in Hb.
    destruct Hlog as [[-> _]|(z & ->)]; [rewrite Hn0, <-Hn1 in Hge; lia|].
    assert (Hsw : concat (slot_writes <$> [s]) = writes p).
    { cbn. rewrite app_nil_r. unfold slot_writes. rewrite Hc, (proj2 (Z.eqb_neq _ _)), Hpl by done. apply resolve_writes. }
    rewrite Hsw in *. rewrite log_next_snoc in Hn1. rewrite <-Hsy.
    destruct (finish_appended_slot ls z n1 s c p db1 I1 He Hc Hne) as (r & db' & n' & E & L & O); [lia|done|done|].
    by exists [(writes p, z)], n1, r, db', n'.
Qed.

(** A slot that comes back with an error wrote nothing, or writes are refused. *)
Lemma group_slot_failed ls n slot s db db1 :
  group_result cfg next0 v0 ls n [slot] [s] db db1 -> s_err s <> None ->
  exists gs n1, inv (ls ++ gs) n1 db1 /\ (n <= n1)%nat /\ (concat gs.*1 = [] \/ refused (state_ db1) db1 = true).
Proof.
  intros [_ _ _ _ _ _ G6 _ _ _ (ls' & n1 & I1 & Hn & Hlog)] He. destruct Hlog as [[-> _]|(z & ->)].
  - exists [], n1. rewrite app_nil_r. by split_and!; auto.
  - eexists _, n1. split_and!; [done|done|]. destruct (refused (state_ db1) db1) eqn:Hr; [by right|left].
    specialize (G6 eq_refl). apply Forall_cons in G6 as [Hown _]. cbn. by rewrite (Hown He).
Qed.

Lemma apply_batch_ends ls n sync p db :
  inv ls n db -> room db -> request_ok db p ->
  exists r db' gs n', apply_batch cfg waited sync p db = (r, db') /\ inv (ls ++ gs) n' db' /\ (n <= n')%nat
    /\ batch_outcome ls gs n' sync p r db'.
Proof.
  intros I Hroom Hreq. unfold apply_batch, load_state, gets. do 2 (unfold mbind at 1, io_bind at 1).
  assert (Hstay : forall r, batch_outcome ls [] n sync p r db -> exists r' db' gs n', (r, db) = (r', db')
    /\ inv (ls ++ gs) n' db' /\ (n <= n')%nat /\ batch_outcome ls gs n' sync p r' db').
  { intros r Hr. exists r, db, [], n. rewrite app_nil_r. by split_and!. }
  destruct (write_refusal (state_ db) db) as [x|]; [apply Hstay; by left|].
  rewrite write_bytes_spec by apply Hreq.
  destruct (Z.ltb_spec (max_batch_bytes cfg) (plan_bytes p)) as [|Hb]; [apply Hstay; by left|].
  destruct (is_empty p && negb sync) eqn:Hem.
  { apply andb_true_iff in Hem as [_ Hsy%negb_true_iff]. apply Hstay. split; [by left|]. congruence. }
  set (slot := new_slot _ _).
  destruct (run_batch_one ls n slot db I Hroom) as (s & db1 & E1 & Hcase).
  { by split_and!. }
  { intros _. apply Forall_singleton. by apply request_plan_ok. }
  unfold mbind at 1, io_bind at 1. rewrite E1. fold (finish_batch s).
  destruct (s_err s) as [x|] eqn:He.
  - assert (E2 : finish_batch s db1 = (Err x, db1)) by (unfold finish_batch; by rewrite He).
    destruct Hcase as [(_ & I1 & _)|GR].
    + exists (Err x), db1, [], n. rewrite app_nil_r. split_and!; [exact E2|done|done|by left].
    + destruct (group_slot_failed ls n slot s db db1 GR) as (gs & n1 & I1 & Hn & Ho); [congruence|].
      by exists (Err x), db1, gs, n1.
  - destruct Hcase as [(Hx & _)|GR]; [congruence|].
    destruct (group_slot ls n p slot s db db1 GR I eq_refl He) as (gs & n1 & r & db' & n' & I1 & Hn & E2 & L & O).
    exists r, db', gs, n'. split_and!; [|apply L|pose proof (lt_more _ _ _ _ _ L); lia|done].
    revert E2. unfold finish_batch. by rewrite He.
Qed.


End write_path.
