(* ===== verification/EngineSteps.v ===== *)
(** * The engine as a transition system

    Batches staged under [write_mu_], flushes that start and flushes that
    land, interleaved in any order and with system calls failing in any
    pattern, refine a log store: a log of groups that grows at its end and a
    published prefix that grows towards it.  What the states call durable is on
    disk as long as no call fails right after one that failed.  Then what the
    append-failure handler and a batch of two groups do when a second call
    fails. *)

From S2P Require Import Prelude Codec KeyDir DataFile DataFileProofs FileScan EngineState EngineProofs Db Commit Records StageProofs Faults DbInv Reads StateChecks FlushProofs RotationProofs GroupProofs CommitProofs WritePath.
Import Serialization Types Stats Dir Plan.

(** ** The log store *)

Record LogStore : Type := mkLog { committed : group_log; published : nat }.

Inductive log_step : LogStore -> LogStore -> Prop :=
| log_commit ls n g : log_step (mkLog ls n) (mkLog (ls ++ [g]) n)
| log_publish ls n m : (n <= m <= length ls)%nat -> log_step (mkLog ls n) (mkLog ls m).

(** ** The engine *)

Section steps.
Context `{Crc32cLaws} `{KeyDirKind} `{Apart : FaultSpacing} (cfg : Settings) (next0 : Z) (v0 : gmap bytes bytes).
Context (Hcfg : settings_ok cfg).

Inductive db_step : DB -> DB -> Prop :=
| step_batch batch r db db' :
    Forall fresh_slot batch -> plans_ok cfg db batch -> run_batch cfg batch db = (r, db') -> db_step db db'
| step_flush_start r db db' : in_flight db = None -> flush_start db = (r, db') -> db_step db db'
| step_flush_finish r db db' : flush_finish db = (r, db') -> db_step db db'
| step_barrier r db db' : with_role (mret ()) db = (r, db') -> db_step db db'.

(** What readers see is the published prefix of the log, and the keys a state
    calls durable are on disk if calls fail apart. *)
Definition shows (l : LogStore) (db : DB) : Prop :=
  inv next0 v0 (committed l) (published l) db /\ room cfg db.

Lemma log_commits ls n gs : rtc log_step (mkLog ls n) (mkLog (ls ++ gs) n).
Proof.
  revert ls. induction gs as [|g gs IH]; intros ls; [by rewrite app_nil_r|].
  eapply rtc_l; [apply (log_commit ls n g)|]. specialize (IH (ls ++ [g])). by rewrite <-app_assoc in IH.
Qed.

Lemma log_reaches ls n gs n' :
  (n <= n')%nat -> (n' <= length (ls ++ gs))%nat -> rtc log_step (mkLog ls n) (mkLog (ls ++ gs) n').
Proof.
  intros Hn Hl. etrans; [apply log_commits|]. apply rtc_once. by apply log_publish.
Qed.

(** A flush moves no file, so it leaves the room there was. *)
Lemma room_flushed ls n n' db db' :
  room cfg db -> inv next0 v0 ls n db -> flushed next0 v0 ls n n' db db' -> room cfg db'.
Proof.
  intros Hr I F Ha f' Hf'. rewrite (fd_head _ _ _ _ _ _ _ F) in Hf'.
  assert (Ha0 : refused (state_ db) db = false).
  { destruct (refused (state_ db) db) eqn:E; [|done]. by rewrite (fd_refused _ _ _ _ _ _ _ F E) in Ha. }
  destruct (so_file _ _ (hk_head _ _ _ _ _ (iv_accepts _ _ _ _ _ I Ha0))) as [f Hf].
  destruct (um_same _ _ (fd_unmoved _ _ _ _ _ _ _ F) _ _ Hf) as (g & Hg & Hc & Hl & _).
  assert (g = f') as -> by congruence. rewrite Hl, (fd_head _ _ _ _ _ _ _ F). destruct (Hr Ha0 f Hf) as (? & ? & ?).
  split_and!; try done. apply (framed_same f); [|done]. unfold live. by rewrite Hc, Hl.
Qed.

(** A barrier publishes the whole log, unless writes are refused. *)
Lemma barrier_spec ls n db :
  inv next0 v0 ls n db -> room cfg db ->
  exists db' n', with_role (mret ()) db = (Ok (), db') /\ inv next0 v0 ls n' db' /\ room cfg db' /\ (n <= n')%nat
    /\ (refused (state_ db') db' = true \/ n' = length ls) /\ continued (stem_of cfg) db db'.
Proof.
  intros I Hroom. destruct (quiesce_spec next0 v0 ls n db I) as (db1 & n1 & E & F & Hc).
  pose proof (fd_inv _ _ _ _ _ _ _ F) as I1. pose proof (room_flushed _ _ _ _ _ Hroom I F) as Hr1.
  erewrite with_role_eq; [|exact E|done].
  destruct (release_role_spec next0 v0 ls n1 db1 I1 (fd_free _ _ _ _ _ _ _ F)) as [_ I2].
  { destruct Hc as [?|[? _]]; auto. }
  { intros Ha. pose proof (iv_accepts _ _ _ _ _ I1 Ha) as Hh. pose proof (hk_same _ _ _ _ _ Hh) as Sf.
    rewrite <-(sf_active _ _ Sf), <-(sf_next_file _ _ Sf). split; apply Hh. }
  eexists _, n1. split; [done|]. split; [exact I2|]. split.
  - intros Ha f Hf. change (refused (state_ db1) db1 = false) in Ha.
    pose proof (iv_accepts _ _ _ _ _ I1 Ha) as Hh1. pose proof (hk_same _ _ _ _ _ Hh1) as Sf. cbn in Hf |- *.
    assert (Hst : file_stats (state_ db1) = file_stats (head_ db1)).
    { apply (hk_stats _ _ _ _ _ Hh1). rewrite (iv_next _ _ _ _ _ I1), (hk_next _ _ _ _ _ Hh1).
      destruct Hc as [?|[-> _]]; [congruence|]. by rewrite take_ge by lia. }
    rewrite Hst. rewrite <-(sf_active _ _ Sf) in *. by apply Hr1.
  - split; [apply F|]. split; [destruct Hc as [?|[? _]]; auto|]. by apply (continued_same _ _ db1); [eapply flushed_continued|..].
Qed.

(** A step extends the log, and moves the state on. *)
Lemma db_step_spec l db db' :
  shows l db -> db_step db db' -> exists l', rtc log_step l l' /\ shows l' db' /\ continued (stem_of cfg) db db'.
Proof.
  intros [I Hroom] Hs. destruct l as [ls n]. cbn in I.
  assert (Hflush : forall db1 n1, flushed next0 v0 ls n n1 db db1 ->
    exists l', rtc log_step (mkLog ls n) l' /\ shows l' db1 /\ continued (stem_of cfg) db db1).
  { intros db1 n1 F. exists (mkLog ls n1). pose proof (fd_inv _ _ _ _ _ _ _ F) as I1. split; [|split].
    - apply rtc_once, log_publish. split; [apply F|apply I1].
    - split; [done|by eapply room_flushed].
    - by eapply flushed_continued. }
  destruct Hs as [batch r db db' Hf Hp E|r db db' Hfl E|r db db' E|r db db' E].
  - destruct (execute_slots_spec cfg next0 v0 Hcfg (length batch) ls n batch db I Hroom Hf Hp (Nat.le_refl _))
      as (slots & x & db1 & gs & n' & E1 & _ & A & _).
    unfold run_batch, mbind, io_bind in E. rewrite E1 in E. injection E as _ <-.
    exists (mkLog (ls ++ gs) n'). pose proof (ad_inv _ _ _ _ _ _ _ _ _ A) as I1. split; [|split].
    + apply log_reaches; [apply A|apply I1].
    + split; [done|apply A].
    + apply A.
  - destruct (flush_start_spec next0 v0 ls n db I Hfl) as (db1 & E1 & I1 & S1 & H1' & P1).
    rewrite E1 in E. injection E as _ <-. exists (mkLog ls n). split; [done|]. split; [|by apply (continued_same _ _ db); [apply continued_refl|..]]. split; [done|].
    intros Ha f Hf. rewrite H1', P1 in Hf. rewrite H1'. apply Hroom; [|done]. revert Ha. unfold refused. rewrite S1.
    revert E1. unfold flush_start, modify, mbind, io_bind.
    destruct (flush_load_spec next0 v0 ls n db I) as (o & -> & _). by intros [= <-].
  - destruct (flush_finish_spec next0 v0 ls n db I) as (db1 & n1 & E1 & F). rewrite E1 in E. injection E as _ <-.
    by eapply Hflush.
  - destruct (barrier_spec ls n db I Hroom) as (db1 & n1 & E1 & I1 & Hr1 & Hn & _ & C1). rewrite E1 in E. injection E as _ <-.
    exists (mkLog ls n1). split; [|split; [by split|done]]. apply rtc_once, log_publish. split; [done|apply I1].
Qed.

Lemma run_spec l db db' :
  shows l db -> rtc db_step db db' -> exists l', rtc log_step l l' /\ shows l' db' /\ continued (stem_of cfg) db db'.
Proof.
  intros Hl Hsteps. revert l Hl. induction Hsteps as [db|db db1 db2 Hstep _ IH]; intros l Hl; [exists l; split_and!; [done|done|apply continued_refl]|].
  destruct (db_step_spec l db db1 Hl Hstep) as (l1 & R1 & Hl1 & C1).
  destruct (IH l1 Hl1) as (l2 & R2 & Hl2 & C2). exists l2. split_and!; [by etrans|done|by eapply continued_trans].
Qed.

Lemma run_refines l db db' : shows l db -> rtc db_step db db' -> exists l', rtc log_step l l' /\ shows l' db'.
Proof. intros Hl Hsteps. destruct (run_spec l db db' Hl Hsteps) as (l' & ? & ? & _). by exists l'. Qed.

(** C2: Every run of the engine, from a state that keeps its invariant (a new
    database does), refines a run of the log store.  After any interleaving of
    batches, flushes that start and flushes that land, and barriers, with
    system calls failing in any pattern, there is a run of the log store, which
    only appends groups and publishes longer prefixes, such that the state
    readers load shows exactly the published prefix and the engine's invariant
    is kept.  Provided no call of the run fails right after one that failed
    ([faults_apart]; without it C23 is a counterexample), every key that state
    calls durable has its record on disk. *)
Theorem engine_refines_log l db db' :
  shows l db -> rtc db_step db db' ->
  exists l', rtc log_step l l' /\ shows l' db'
    /\ state_view (heap db') (state_ db') = log_view v0 (take (published l') (committed l'))
    /\ (faults_apart -> durable_to (heap db') (state_ db') (durable_seq (state_ db'))).
Proof.
  intros Hl Hsteps. destruct (run_refines l db db' Hl Hsteps) as (l' & R & Hl'). exists l'.
  split; [done|]. split; [done|]. destruct Hl' as [I _]. split; apply I.
Qed.

(** C38: No run of the engine, from a state that keeps its invariant and with
    system calls failing in any pattern, publishes a state that fails the
    engine's own checks: [validate_state_consistency] passes, the walk of a
    test build included, and the walk a debug build makes before publishing
    finds no violation. *)
Theorem engine_states_consistent testing l db db' :
  shows l db -> rtc db_step db db' ->
  validate_state_consistency testing (state_ db') = Ok () /\ debug_violation (state_ db') = None.
Proof.
  intros Hl Hsteps. destruct (run_refines l db db' Hl Hsteps) as (l' & _ & [I _]).
  split; [apply (validate_ok (heap db'))|apply (debug_ok (heap db'))]; apply I.
Qed.

End steps.

(** ** A concrete engine *)

Module EngineFixture.
Import Castagnoli.

(** Rotation at [threshold]; groups end at [group_bytes]. *)
Definition settings (threshold group_bytes : Z) : Settings :=
  mkSettings threshold (DataFile.mkLimits 8 (2 ^ 30) (2 ^ 20)) group_bytes (2 ^ 30) (fun _ => "data").

Definition empty_state : EngineState :=
  mkEngineState ∅ {[0 := 0]} {[0 := FileStats_zero]} 0 1 1 0 0 Leader false "" false None.

(** A new database whose system calls end as [os] says. *)
Definition empty_db (os : list outcome) : DB :=
  mkDB empty_state empty_state {[0 := empty_file "data"]} os None None false [].

Definition put_plan (k v : bytes) : WritePlan := mkPlan None (Plan.mkLimits 100 100) [PointPut k v] [] [] [].
Definition put_slot (k v : bytes) (sync : bool) : EngineSlot := new_slot (put_plan k v) sync.

Lemma settings_fit : settings_ok (settings 200 (2 ^ 32)).
Proof. split; cbn; lia. Qed.

Lemma empty_heap_ok : heap_ok {[0 := empty_file "data"]}.
Proof. apply map_Forall_singleton. split; unfold size; cbn; lia. Qed.

Lemma empty_state_ok : state_ok {[0 := empty_file "data"]} empty_state.
Proof.
  split; try done.
  - split; cbn; try done.
    + intros f fs. rewrite lookup_singleton_Some. by intros [<- <-].
    + apply map_Forall_singleton. by repeat split.
  - intros id r. cbn. destruct (decide (id = 0)) as [->|]; [rewrite !lookup_singleton_eq; naive_solver|].
    rewrite !lookup_singleton_ne by done. split; [done|]. by intros [_ [? ?]].
  - intros id. cbn. destruct (decide (id = 0)) as [->|]; [done|]. rewrite lookup_singleton_ne by done. by intros [].
  - apply map_Forall_singleton. by left.
Qed.

Lemma empty_inv `{FaultSpacing} os : (faults_apart -> no_double_fault os = true) -> inv 1 ∅ [] 0 (empty_db os).
Proof.
  intros Hos. pose proof empty_state_ok as Hs. pose proof empty_heap_ok as Hok. split; cbn; try done.
  - by repeat constructor.
  - intros _. split; cbn; try done.
    + intros _ f. rewrite lookup_singleton_Some. by intros [_ <-].
    + intros r f Hr. rewrite lookup_singleton_Some. intros [<- _]. lia.
Qed.

Lemma empty_room os : room (settings 200 (2 ^ 32)) (empty_db os).
Proof.
  intros _ f. cbn. rewrite lookup_singleton_Some. intros [_ <-]. split; [done|]. split; [by apply framed_empty|].
  intros fs. rewrite lookup_singleton_Some. by intros [_ <-].
Qed.

Lemma put_requested k v db : size k < 100 -> size v < 100 -> request_ok db (put_plan k v).
Proof.
  intros Hk Hv. split; cbn; try done.
  - repeat constructor; cbn; unfold KeyDirEntry.kMaxValueSize; lia.
  - unfold plan_bytes. cbn [put_plan writes]. rewrite lsum_cons, lsum_nil. cbn. unfold entry_size, DataEntry.kHeaderSize, DataEntry.kCrcSize. lia.
Qed.

(** The barrier another writer's flush is, for a plan that waits on it. *)
Definition flushed_by_other (db : DB) : DB := (flush_finish db).2.

Lemma flushed_by_other_later `{FaultSpacing} ls n db :
  inv 1 ∅ ls n db -> exists n', later 1 ∅ ls n n' db (flushed_by_other db).
Proof.
  intros I. destruct (flush_finish_spec 1 ∅ ls n db I) as (db' & n' & E & F).
  exists n'. unfold flushed_by_other. rewrite E. by apply flushed_later.
Qed.
End EngineFixture.

Section witnesses.
Import Castagnoli EngineFixture.
#[local] Instance blind_leaves : KeyDirKind := true.
#[local] Instance calls_fail_apart : FaultSpacing := True.


(** A batch and the flush after it. *)
Definition written : DB := (run_batch (settings 200 (2 ^ 32)) [put_slot [x61] [x01] true] (empty_db [])).2.

Lemma written_run : rtc (db_step (settings 200 (2 ^ 32))) (empty_db []) (flush_start written).2.
Proof.
  eapply rtc_l; [|apply rtc_once].
  - eapply (step_batch _ [put_slot [x61] [x01] true]); [by repeat constructor| |apply surjective_pairing].
    intros _. apply Forall_singleton. apply (request_plan_ok (empty_db []) (put_plan [x61] [x01])); [by apply put_requested|by vm_compute].
  - eapply step_flush_start; [by vm_compute|apply surjective_pairing].
Qed.

Lemma engine_refines_log_witness :
  exists db' l', rtc (db_step (settings 200 (2 ^ 32))) (empty_db []) db'
    /\ rtc log_step (mkLog [] 0) l' /\ shows (settings 200 (2 ^ 32)) 1 ∅ l' db'
    /\ state_view (heap db') (state_ db') = log_view ∅ (take (published l') (committed l'))
    /\ (faults_apart -> durable_to (heap db') (state_ db') (durable_seq (state_ db'))).
Proof.
  eexists. destruct (engine_refines_log (settings 200 (2 ^ 32)) 1 ∅ settings_fit (mkLog [] 0) (empty_db []) _
    (conj (empty_inv [] (fun _ => eq_refl)) (empty_room [])) written_run) as (l' & HR). exists l'. split; [exact written_run|exact HR].
Defined.

Lemma engine_states_consistent_witness :
  validate_state_consistency true (state_ (flush_start written).2) = Ok () /\ debug_violation (state_ (flush_start written).2) = None.
Proof.
  apply (engine_states_consistent (settings 200 (2 ^ 32)) 1 ∅ settings_fit true (mkLog [] 0) (empty_db []) _
    (conj (empty_inv [] (fun _ => eq_refl)) (empty_room [])) written_run).
Defined.

#[local] Instance disk_reads : ReadFaults := {| record_fails _ _ := false; place_fails _ := false |}.

(** A write, published by a barrier, and read back. *)
Lemma reads_show_log_witness :
  exists db ls n s, engine_reads db s /\ reads_as (heap db) s (log_view ∅ (take n ls)) /\ db_get true [x61] db = (Ok (Some [x01]), db).
Proof.
  set (db1 := (run_batch (settings 200 (2 ^ 32)) [put_slot [x61] [x01] true] (empty_db [])).2).
  destruct (db_step_spec (settings 200 (2 ^ 32)) 1 ∅ settings_fit (mkLog [] 0) (empty_db []) db1) as (l1 & _ & H1 & _).
  { split; [by apply empty_inv|apply empty_room]. }
  { eapply (step_batch _ [put_slot [x61] [x01] true]); [by repeat constructor| |apply surjective_pairing].
    intros _. apply Forall_singleton. apply (request_plan_ok (empty_db []) (put_plan [x61] [x01])); [by apply put_requested|by vm_compute]. }
  destruct (db_step_spec (settings 200 (2 ^ 32)) 1 ∅ settings_fit l1 db1 (with_role (mret ()) db1).2 H1) as (l2 & _ & [I _] & _).
  { eapply step_barrier. apply surjective_pairing. }
  destruct (reads_show_log 1 ∅ (committed l2) (published l2) _ (heap (with_role (mret ()) db1).2) I ltac:(by vm_compute) (heap_le_refl _ (iv_heap _ _ _ _ _ I)))
    as (s & E & R & _).
  exists (with_role (mret ()) db1).2, (committed l2), (published l2), s. split; [exact E|]. split; [exact R|vm_compute; reflexivity].
Defined.

End witnesses.

(** ** Two faults in a row *)

Section findings.
Import Castagnoli EngineFixture.

(** C23: The append-failure handler ignores a failed [fdatasync], and the barrier it
    then takes syncs the same file again.  That second call vouches for
    nothing, but the handler's flush publishes the sync writes waiting ahead of
    it as durable, and they return so; no byte of the record is on disk. *)
Theorem swallowed_sync_acknowledges_lost_write :
  let mine := put_slot [x61] [x01] true in
  let run os :=
    let '(staged, db1) := run_batch (H0 := false) (settings 200 (2 ^ 32)) [mine] (empty_db os) in
    let '(other, db2) := run_batch (H0 := false) (settings 200 (2 ^ 32)) [put_slot [x62] [x02] false] db1 in
    (staged, db2) in
  exists slot db e f slot' c,
    run [Done; Fails 0; Fails 0; Done] = (Ok [slot], db)
    /\ commit_wait 3 slot db = (Ok (Some slot'), db)
    /\ s_result slot' = Some c /\ cr_durable c = true
    /\ key_dir (state_ db) !! [x61] = Some e /\ KeyDirEntry.sequence e <= durable_seq (state_ db)
    /\ heap db !! KeyDirEntry.file_id e = Some f /\ synced_end f <= KeyDirEntry.file_offset e < entry_end [x61] e.
Proof.
  do 6 eexists. do 6 (split; [vm_compute; reflexivity || discriminate|]).
  split; [vm_compute; reflexivity|]. split; [vm_compute; discriminate|vm_compute; reflexivity].
Qed.

(** C24: A batch is split in two groups; reading a key's record fails in the second.
    The first group is published and its write durable, yet its slot gets the
    second group's error, and writes are not refused. *)
Theorem split_batch_fails_published_write :
  exists a b db x,
    run_batch (H0 := true) (settings 20 40) [put_slot [x61] [x01] true; put_slot [x62] [x02] true]
      (empty_db (replicate 10 Done ++ [Fails 0])) = (Ok [a; b], db)
    /\ s_err a = Some x /\ s_err b = Some x
    /\ (exists e f, key_dir (state_ db) !! [x61] = Some e /\ KeyDirEntry.sequence e <= durable_seq (state_ db)
          /\ heap db !! KeyDirEntry.file_id e = Some f /\ entry_end [x61] e <= synced_end f)
    /\ refused (state_ db) db = false.
Proof.
  do 4 eexists. do 3 (split; [vm_compute; reflexivity|]). split; [|vm_compute; reflexivity].
  do 2 eexists. do 3 (split; [vm_compute; reflexivity || discriminate|]). vm_compute. discriminate.
Qed.

End findings.
