(* ===== verification/ResumeProofs.v ===== *)
(** * Resume keeps what was published

    A [resume] that throws, wherever it did, leaves the published state and
    every byte it names alone.  One that returns has published every committed
    entry of the active file, all of it on disk, and the engine accepts writes
    again from a new file. *)

From S2P Require Import Prelude OpenProofs Codec KeyDir DataFile DataFileProofs FileScan EngineState EngineProofs Resume Db Commit Records StageProofs Faults DbInv StateChecks FlushProofs RotationProofs GroupProofs CommitProofs WritePath EngineSteps Resuming.
Import Serialization Types Stats Dir Plan.

(** ** Files cut above what a state names *)

(** Up to some [n] at or above [ext], the bytes are still there and those on
    disk still are. *)
Definition kept (ext : Z) (f f' : DataFile) : Prop :=
  file_ok f' /\ exists n, ext <= n /\ 0 <= n /\ take (Z.to_nat n) (live f) `prefix_of` live f' /\ Z.min (synced_end f) n <= synced_end f'.

Definition extent (s : EngineState) (r : FileRef) : Z :=
  match file_stats s !! r with Some fs => total_bytes fs | None => 0 end.

(** The units a file starts with are still there. *)
Definition units_kept `{Crc32c} (f f' : DataFile) : Prop := forall us, starts_with f us -> starts_with f' us.

Definition heap_kept `{Crc32c} (s : EngineState) (h h' : gmap FileRef DataFile) : Prop :=
  forall r f, h !! r = Some f -> exists f', h' !! r = Some f' /\ kept (extent s r) f f'
    /\ (is_Some (file_stats s !! r) -> units_kept f f').

Lemma units_kept_grown `{Crc32c} f f' : grown f f' -> units_kept f f'.
Proof. intros (_ & _ & d & Hd) us. apply starts_with_grown. by exists d. Qed.

Lemma kept_grown ext f f' : grown f f' -> kept ext f f'.
Proof.
  intros (Hok & Hs & d & Hd). split; [done|]. exists (Z.max 0 (Z.max ext (size (live f)))). unfold size. split_and!; [lia|lia| |lia].
  rewrite take_ge by lia. by exists d.
Qed.

Lemma kept_trans ext a b c : kept ext a b -> kept ext b c -> kept ext a c.
Proof.
  intros [_ (n & Hn & Hn0 & Hp & Hs)] [Hok (m & Hm & Hm0 & Hq & Hr)]. split; [done|]. exists (Z.min n m). split_and!; [lia|lia| |lia].
  assert (Ht : take (Z.to_nat (Z.min n m)) (live a) `prefix_of` take (Z.to_nat m) (live b)).
  { destruct Hp as [d ->]. rewrite take_app, take_take. 
    replace (Z.to_nat (Z.min n m)) with (Z.to_nat m `min` Z.to_nat n)%nat by lia. by eexists. }
  by etrans.
Qed.

Section kept.
Context `{Crc32cLaws}.

Lemma heap_kept_le s h h' : heap_le h h' -> heap_kept s h h'.
Proof.
  intros Hle r f Hf. destruct (Hle r f Hf) as (f' & ? & ?). exists f'.
  split_and!; [done|by apply kept_grown|intros _; by apply units_kept_grown].
Qed.

Lemma heap_kept_refl s h : heap_ok h -> heap_kept s h h.
Proof. intros Hok. by apply heap_kept_le, heap_le_refl. Qed.

Lemma heap_kept_trans s a b c : heap_kept s a b -> heap_kept s b c -> heap_kept s a c.
Proof.
  intros H1 H2 r f Hf. destruct (H1 r f Hf) as (f1 & Hf1 & K1 & U1). destruct (H2 r f1 Hf1) as (f2 & Hf2 & K2 & U2).
  exists f2. split_and!; [done|by eapply kept_trans|]. intros Hr us Hus. by apply U2, U1.
Qed.

Lemma heap_kept_insert s h r f f' :
  heap_ok h -> h !! r = Some f -> kept (extent s r) f f' -> units_kept f f' -> heap_kept s h (<[r := f']> h).
Proof.
  intros Hok Hr Hk Hu x g Hg. destruct (decide (x = r)) as [->|Hne].
  - exists f'. rewrite lookup_insert_eq. split; [done|]. by assert (g = f) as -> by congruence.
  - exists g. rewrite lookup_insert_ne by done. pose proof (grown_refl g (Hok _ _ Hg)).
    split_and!; [done|by apply kept_grown|intros _; by apply units_kept_grown].
Qed.

(** The records that end at or below what a state counts of their file. *)
Definition recs_in (s : EngineState) (h : gmap FileRef DataFile) : records := fun f o =>
  match recs_of h f o with
  | Some e => if o + DataEntry.record_bytes e <=? extent s f then Some e else None
  | None => None
  end.

Lemma recs_in_le s h : recs_le (recs_in s h) (recs_of h).
Proof. intros f o e. unfold recs_in. destruct (recs_of h f o); [|done]. by case_match. Qed.

Lemma recs_in_kept s h h' : heap_ok h -> heap_kept s h h' -> recs_le (recs_in s h) (recs_of h').
Proof.
  intros Hok Hk f o e. unfold recs_in. destruct (recs_of h f o) as [e'|] eqn:E; [|done].
  destruct (Z.leb_spec (o + DataEntry.record_bytes e') (extent s f)) as [Hle|]; [|done]. intros [= ->].
  destruct (h !! f) as [file|] eqn:Hf; [|unfold recs_of in E; by rewrite Hf in E].
  destruct (Hk f file Hf) as (file' & Hf' & [Hok' _] & Hu).
  pose proof (recs_of_below h f file o e (Hok _ _ Hf) Hf E) as [Ho _]. pose proof (record_bytes_pos e).
  destruct (proj1 (recs_of_spec h f file o e (Hok _ _ Hf) Hf) E) as (us & pre & post & Hs & Hus & ->).
  apply (recs_of_spec h' f file' _ e Hok' Hf'). exists us, pre, post. split; [|done]. apply Hu; [|done].
  unfold extent in Hle. destruct (file_stats s !! f); [by eexists|lia].
Qed.

Context (h : gmap FileRef DataFile) (s : EngineState) (Hs : state_ok h s) (Hok : heap_ok h).

Lemma key_in_extent k e : key_dir s !! k = Some e -> entry_end k e <= extent s (KeyDirEntry.file_id e).
Proof.
  intros Hk. destruct (wf_files _ _ (so_wf _ _ Hs) k e Hk) as [fs Hfs]. cbn in Hfs. unfold extent. rewrite Hfs. by apply (so_extent _ _ Hs k e fs).
Qed.

Lemma recs_in_resolves : kd_resolves (recs_in s h) (key_dir s).
Proof.
  intros k e Hk. destruct (wf_resolves _ _ (so_wf _ _ Hs) k e Hk) as [Ho (v & Hr & Hv)]. split; [done|]. exists v. split; [|done].
  unfold recs_in. rewrite Hr, (proj2 (Z.leb_le _ _)); [done|]. pose proof (key_in_extent k e Hk) as He.
  unfold entry_end, entry_size in He. unfold DataEntry.record_bytes. cbn. lia.
Qed.

Context (h' : gmap FileRef DataFile) (Hkept : heap_kept s h h').

Lemma state_ok_kept : state_ok h' s.
Proof.
  pose proof recs_in_resolves as Hr. destruct Hs as [[] ? Hf]. split; try done.
  - split; try done. intros k e Hk. eapply resolves_mono; [by apply recs_in_kept|by apply Hr].
  - destruct Hf as [f Hf]. destruct (Hkept _ _ Hf) as (f' & ? & _). by exists f'.
Qed.

Lemma state_view_kept : state_view h' s = state_view h s.
Proof.
  unfold state_view. rewrite (view_mono (recs_in s h) (recs_of h')), (view_mono (recs_in s h) (recs_of h)); try done;
    try apply recs_in_resolves; [apply recs_in_le|by apply recs_in_kept].
Qed.

Lemma durable_to_kept d : durable_to h s d -> durable_to h' s d.
Proof.
  intros Hd k e Hk Hc. destruct (Hd k e Hk Hc) as (f & Hf & He). destruct (Hkept _ _ Hf) as (f' & Hf' & (_ & n & Hn & _ & _ & Hsy) & _).
  exists f'. split; [done|]. pose proof (key_in_extent k e Hk). lia.
Qed.
End kept.

(** A refused engine whose files kept what is published. *)
Lemma inv_kept `{Crc32cLaws} `{Apart : FaultSpacing} next0 v0 ls n db db' :
  inv next0 v0 ls n db -> refused (state_ db) db = true -> heap_ok (heap db') -> heap_kept (state_ db) (heap db) (heap db') ->
  oracle db' `suffix_of` oracle db -> state_ db' = state_ db -> write_fault db' = write_fault db -> in_flight db' = None ->
  inv next0 v0 ls n db'.
Proof.
  intros I Hr Hok Hk Ho Es Ew Hfl. assert (Hr' : refused (state_ db') db' = true) by (revert Hr; unfold refused; by rewrite Es, Ew).
  pose proof (iv_faults _ _ _ _ _ I) as Hfaults. pose proof (iv_durable _ _ _ _ _ I) as Hdur. destruct I. split; rewrite ?Es in *; try done.
  - by apply (state_ok_kept (heap db)).
  - by rewrite (state_view_kept (heap db)).
  - intros Hap. by apply (durable_to_kept (heap db)); [..|apply Hdur].
  - by rewrite Hr'.
  - intros Hap. by eapply no_double_fault_suffix, Hfaults.
Qed.

(** ** The active file *)

Lemma read_call_cases what f os :
  exists r os', read_call what (mkFileIO f os) = (r, mkFileIO f os') /\ os' `suffix_of` os /\ (os = [] -> r = Ok () /\ os' = []).
Proof.
  unfold read_call, next_outcome, mbind, io_bind. cbn [fio_oracle fio_file].
  destruct os as [|[|n] os]; (eexists _, _; split; [done|]); split; try done; by eexists [_].
Qed.

(** Writing a file back leaves it as it was, however far it came. *)
Lemma rewrite_loop_same fuel off e f os :
  0 <= off -> e <= size (content f) ->
  exists r os', rewrite_loop fuel off e (mkFileIO f os) = (r, mkFileIO f os') /\ os' `suffix_of` os /\ (os = [] -> r = Ok () /\ os' = []).
Proof.
  revert off os. induction fuel as [|fuel IH]; intros off os Ho He; [by exists (Ok ()), os|]. cbn [rewrite_loop].
  destruct (Z.ltb_spec off e) as [Hlt|]; [|by exists (Ok ()), os].
  unfold gets. destruct (read_call_cases "bytecask: rewrite" f os) as (r0 & os0 & E0 & S0 & R0). unfold mbind at 1, io_bind at 1. rewrite E0.
  destruct r0 as [[]|x]; [|exists (Err x), os0; split_and!; [done|done|intros E; by destruct (R0 E)]].
  unfold mbind at 1, io_bind at 1. unfold mbind, io_bind. cbn [fio_file].
  set (n := Z.to_nat (Z.min kRewriteChunk (e - off))).
  destruct (pwrite "bytecask: rewrite" off (subspan (content f) (Z.to_nat off) n) (mkFileIO f os0)) as [r [f1 os1]] eqn:Ew.
  assert (f1 = f /\ os1 `suffix_of` os0 /\ (os0 = [] -> r = Ok () /\ os1 = [])) as (-> & Hs & Hr).
  { pose proof (pwrite_back _ _ n (mkFileIO f os0) r _ Ew ltac:(cbn; lia)) as Hc. cbn in Hc. revert Hc Ew.
    unfold pwrite, next_outcome, update_file, modify, throw, mbind, io_bind. cbn [fio_oracle fio_file].
    destruct os0 as [|[|m] os0]; intros Hc [= <- <- <-]; cbn in Hc; (split; [unfold write_at; rewrite Hc; by destruct f|]); split; try done; by eexists [_]. }
  destruct r as [[]|x].
  - destruct (IH (off + Z.min kRewriteChunk (e - off)) os1) as (r2 & os2 & -> & Hs2 & Hr2); [unfold kRewriteChunk; lia|done|].
    exists r2, os2. split; [done|]. split; [by etrans; [|etrans]|]. intros E. by apply Hr2, Hr, R0.
  - exists (Err x), os1. split; [done|]. split; [by etrans|]. intros E. by destruct (Hr (proj2 (R0 E))).
Qed.

(** All of [f] on disk. *)
Definition rewritten (f : DataFile) : DataFile := set_synced_end (logical_end f) (set_sync_failed false f).

Lemma rewrite_durably_spec f os :
  file_ok f ->
  exists r f' os', rewrite_durably (logical_end f) (mkFileIO f os) = (r, mkFileIO f' os') /\ os' `suffix_of` os
    /\ (os = [] -> r = Ok () /\ os' = []) /\ match r with Ok _ => f' = rewritten f | Err _ => f' = f \/ f' = set_sync_failed true f end.
Proof.
  intros [[He0 He] _ _]. unfold rewrite_durably, gets. unfold mbind at 1, io_bind at 1. cbn [fio_file]. rewrite Z.min_l by done.
  destruct (rewrite_loop_same (Z.to_nat (logical_end f / kRewriteChunk + 1)) 0 (logical_end f) f os) as (r & os1 & E & Hs & Hr); [done|done|].
  unfold mbind, io_bind. rewrite E. destruct r as [[]|x].
  2: { eexists _, _, _. split; [done|]. split_and!; [done|by intros ->; destruct (Hr eq_refl)|by left]. }
  unfold next_outcome, update_file, modify, throw. cbn [fio_oracle fio_file].
  destruct os1 as [|[|m] os1]; (eexists _, _, _; split; [done|]); split_and!; try done; try (by right);
    try (etrans; [|exact Hs]; by eexists [_]); intros E0; by destruct (Hr E0).
Qed.

Section resume_file.
Context `{Crc32cLaws}.

(** The committed entries of a file lie below their end, in it. *)
Lemma resume_scan_ok f es v :
  file_ok f -> resume_scan f = Ok (es, v) ->
  0 <= v <= logical_end f /\ exists us rest, live f = images (concat us) ++ rest /\ Forall unit_of us /\ Forall sweepable (concat us)
    /\ es = resume_entry <$> with_offsets 0 (concat us) /\ v = DataFile.total_bytes (concat us).
Proof.
  intros Hok E. destruct (scan_committed_parses f Hok) as (us & rest & Hl & Hu & Hsw & _ & Hscan). destruct (Hscan DamageThrow) as [E1 E2].
  assert (es = resume_entry <$> with_offsets 0 (concat us) /\ v = DataFile.total_bytes (concat us)) as [-> ->].
  { revert E. unfold resume_scan. rewrite E1, E2. destruct (cs_error _) as [x|]; [destruct (is_runtime_error x)|]; by intros [= <- <-]. }
  split; [|by exists us, rest]. rewrite <-(length_live f Hok), Hl, size_app, length_images. pose proof (total_bytes_nonneg (concat us)). unfold size. lia.
Qed.

Lemma resume_scan_units f us rest :
  file_ok f -> live f = images (concat us ++ rest) -> Forall unit_of us -> unended rest -> Forall sweepable (concat us ++ rest) ->
  resume_scan f = Ok (resume_entry <$> with_offsets 0 (concat us), DataFile.total_bytes (concat us)).
Proof.
  intros Hok Hl Hu Hr Hsw. unfold resume_scan. pose proof (scan_committed_eq f DamageThrow us rest [] [] Hok) as E.
  change (size []) with 0 in E. rewrite E; try done; [|by rewrite app_nil_r]. cbn [cs_error cs_entries cs_offset].
  case_decide; [by subst|done].
Qed.

(** A file cut at the end of its committed units, or above. *)
Lemma committed_kept f f' es v : file_ok f -> resume_scan (rewritten f) = Ok (es, v) -> kept v f f' -> units_kept f f'.
Proof.
  intros Hok E [_ (n & Hn & _ & [d Hd] & _)] us Hs.
  assert (Hokr : file_ok (rewritten f)) by (destruct Hok; split; cbn; lia).
  assert (Ev : v = cs_offset (scan_committed (rewritten f) 0 DamageThrow)).
  { revert E. unfold resume_scan. destruct (cs_error _) as [x|]; [destruct (is_runtime_error x)|]; by intros [= _ <-]. }
  destruct (starts_with_scanned (rewritten f) us Hokr) as (us' & _ & Hscan); [by destruct Hs|].
  destruct (Hscan DamageThrow) as [_ Eo]. rewrite Eo, concat_app, total_bytes_app in Ev. pose proof (total_bytes_nonneg (concat us')).
  destruct Hs as [S1 S2 [rest Hl]]. split; [done|done|]. rewrite Hd, Hl. rewrite take_app_ge, <-app_assoc; [by eexists|].
  pose proof (length_images (concat us)). unfold size in *. lia.
Qed.

(** A file cut at [v] and all on disk. *)
Record cut_at (v : Z) (f f' : DataFile) : Prop := {
  ct_ok : file_ok f';
  ct_live : live f' = take (Z.to_nat v) (live f);
  ct_end : logical_end f' = v;
  ct_size : size (content f') = v;
  ct_synced : synced_end f' = v;
  ct_failed : sync_failed f' = false
}.

(** Cutting a file whose bytes are all on disk. *)
Lemma truncate_spec v f os :
  file_ok f -> 0 <= v <= logical_end f ->
  exists r f' os', truncate v (mkFileIO (rewritten f) os) = (r, mkFileIO f' os') /\ os' `suffix_of` os /\ (os = [] -> r = Ok () /\ os' = [])
    /\ kept v f f' /\ match r with Ok _ => cut_at v f f' | Err _ => True end.
Proof.
  intros Hok Hv. pose proof Hok as [He Hz Hs].
  set (g := set_zeroed_end v (set_synced_end v (set_logical_end v (rewritten f)))).
  set (g' := set_content (take (Z.to_nat v) (content f)) g).
  assert (Hlen : size (take (Z.to_nat v) (content f)) = v) by (unfold size in *; rewrite length_take; lia).
  assert (Hlive : take (Z.to_nat v) (live f) = take (Z.to_nat v) (content f)) by (unfold live; rewrite take_take; f_equal; lia).
  assert (Hg : live g = take (Z.to_nat v) (live f)) by done.
  assert (Hg' : live g' = take (Z.to_nat v) (live f)) by (rewrite Hlive; unfold live; cbn; rewrite take_take; f_equal; lia).
  assert (K : kept v f g) by (split; [split; cbn; lia|]; exists v; cbn; split_and!; [lia|lia|by rewrite Hg|lia]).
  assert (K' : kept v f g').
  { split; [split; cbn; [rewrite Hlen|..]; lia|]. exists v. cbn. split_and!; [lia|lia|by rewrite Hg'|lia]. }
  assert (C : cut_at v f g') by (split; cbn; try done; apply K').
  unfold truncate, ftruncate, next_outcome, update_file, modify, throw, mbind, io_bind. cbn [fio_file fio_oracle].
  assert (Eg : set_zeroed_end v (set_synced_end (Z.min (synced_end (rewritten f)) v) (set_logical_end v (rewritten f))) = g).
  { unfold g. f_equal. cbn. by rewrite Z.min_r by lia. }
  rewrite Eg. assert (Eg' : set_synced_end (Z.min (synced_end g) v) (set_content (take (Z.to_nat v) (content g)) g) = g').
  { unfold g'. cbn. by rewrite Z.min_id. }
  destruct os as [|[|[|m]] os]; cbn [fio_file fio_oracle]; rewrite ?Eg'; (eexists _, _, _; split; [done|]); split_and!; try done; by eexists [_].
Qed.

Lemma resume_file_spec ext f os :
  file_ok f ->
  exists r f' os', resume_file ext (mkFileIO f os) = (r, mkFileIO f' os') /\ os' `suffix_of` os /\ kept ext f f' /\ units_kept f f'
    /\ match r with
       | Ok (es, v) => ext <= v /\ resume_scan (rewritten f) = Ok (es, v) /\ cut_at v f f'
       | Err _ => True
       end
    /\ (forall es v, os = [] -> resume_scan (rewritten f) = Ok (es, v) -> ext <= v -> r = Ok (es, v) /\ os' = []).
Proof.
  intros Hok. unfold resume_file, gets. unfold mbind at 1, io_bind at 1. cbn [fio_file df_size]. unfold df_size.
  assert (Hokr : file_ok (rewritten f)) by (destruct Hok; split; cbn; lia).
  assert (Gr : grown f (rewritten f)) by (split; [done|]; split; [cbn; destruct Hok; lia|]; exists []; by rewrite app_nil_r).
  pose proof (kept_grown ext _ _ Gr) as Kr. pose proof (units_kept_grown _ _ Gr) as Ur.
  destruct (rewrite_durably_spec f os Hok) as (r1 & f1 & os1 & E1 & S1 & R1 & F1). unfold mbind at 1, io_bind at 1. rewrite E1.
  destruct r1 as [[]|x].
  2: { assert (G1 : grown f f1) by (destruct F1 as [-> | ->]; [by apply grown_refl|by apply set_sync_failed_grown]).
       eexists _, _, _. split; [done|]. split_and!; [done|by apply kept_grown|by apply units_kept_grown|done|intros; by destruct (R1 ltac:(done))]. }
  subst f1. unfold mbind at 1, io_bind at 1. cbn [fio_file].
  destruct (read_call_cases "resume: sweep of the active file" (rewritten f) os1) as (r0 & os0 & E0 & S0 & R0). unfold mbind at 1, io_bind at 1. rewrite E0.
  destruct r0 as [[]|x].
  2: { eexists _, _, _. split; [done|]. split_and!; [by etrans|done|done|done|]. intros ? ? E' _ _. by destruct (R0 (proj2 (R1 E'))). }
  assert (S01 : os0 `suffix_of` os) by by etrans. assert (R01 : os = [] -> os0 = []) by (intros E'; by apply R0, R1). clear S0 R0 S1 R1 E1 E0 os1. rename os0 into os1, S01 into S1, R01 into R1.
  unfold lift at 1. unfold mbind at 1, io_bind at 1. cbn [fio_file].
  destruct (resume_scan (rewritten f)) as [[es v]|x] eqn:Es.
  2: { eexists _, _, _. split; [done|]. by split_and!. }
  destruct (resume_scan_ok _ _ _ Hokr Es) as [Hv _]. cbn in Hv.
  unfold lift at 1. unfold mbind at 1, io_bind at 1. destruct (Z.ltb_spec v ext) as [|Hext]; cbn [throw_if].
  { eexists _, _, _. split; [done|]. split_and!; try done. intros ? ? _ [= <- <-]. lia. }
  assert (Hcut : exists r2 f2 os2, (if size (content (rewritten f)) =? v then mret () else truncate v) (mkFileIO (rewritten f) os1) = (r2, mkFileIO f2 os2)
    /\ os2 `suffix_of` os1 /\ (os1 = [] -> r2 = Ok () /\ os2 = []) /\ kept v f f2 /\ match r2 with Ok _ => cut_at v f f2 | Err _ => True end).
  { destruct (Z.eqb_spec (size (content (rewritten f))) v) as [Hsz|]; [|by apply truncate_spec]. cbn in Hsz. destruct Hok as [He Hz Hsy].
    exists (Ok ()), (rewritten f), os1. assert (Hl : live f = take (Z.to_nat v) (live f)) by (unfold live; rewrite take_take; f_equal; lia).
    split_and!; try done.
    - split; [done|]. exists v. cbn. split_and!; [lia|lia| |lia]. change (live (rewritten f)) with (live f). by rewrite <-Hl.
    - split; cbn; try done; lia. }
  destruct Hcut as (r2 & f2 & os2 & E2 & S2 & R2 & K2 & C2). unfold mbind at 1, io_bind at 1. rewrite E2.
  assert (K2' : kept ext f f2) by (destruct K2 as [? (n & ? & ?)]; split; [done|]; exists n; split; [lia|done]).
  pose proof (committed_kept f f2 es v Hok Es K2) as U2. destruct r2 as [[]|x].
  2: { eexists _, _, _. split; [done|]. split_and!; [by etrans|done|done|done|]. intros ? ? E0 _ _. by destruct (R2 (R1 E0)). }
  destruct (fdatasync_end "WritableFileOps::sync: fdatasync failed" f2 os2) as (r3 & [f3 os3] & E3 & F3).
  pose proof (ct_ok _ _ _ C2) as Hok2. unfold mbind, io_bind, sync. rewrite E3. cbn [fio_file] in F3.
  assert (S3 : os3 `suffix_of` os2 /\ (os2 = [] -> r3 = Ok () /\ os3 = [])).
  { revert E3. unfold fdatasync, fdatasync_to, next_outcome, gets, update_file, modify, throw, mbind, io_bind. cbn [fio_oracle].
    destruct os2 as [|[|m] os2]; intros [= <- _ <-]; split; try done; by eexists [_]. }
  destruct S3 as [S3 R3]. destruct r3 as [[]|x].
  - assert (f3 = f2) as ->.
    { subst f3. unfold sync_to. rewrite (ct_failed _ _ _ C2), (ct_end _ _ _ C2), (ct_synced _ _ _ C2), Z.max_id.
      pose proof (ct_synced _ _ _ C2) as Hsy. destruct f2. cbn in *. by subst. }
    eexists _, _, _. split; [done|]. split; [by etrans; [|etrans]|]. split; [done|]. split; [done|]. split; [done|]. intros ? ? E0 [= <- <-] _. split; [done|]. by apply R3, R2, R1.
  - assert (G3 : grown f2 f3) by (subst f3; by apply set_sync_failed_grown).
    eexists _, _, _. split; [done|]. split_and!; [by etrans; [|etrans]|eapply kept_trans; [exact K2'|by apply kept_grown]| |done|].
    + intros us Hus. by apply (units_kept_grown _ _ G3), U2.
    + intros ? ? E0 _ _. by destruct (R3 (proj2 (R2 (R1 E0)))).
Qed.
End resume_file.

(** ** Under the barrier *)

(** One step of the monad that calls nothing. *)
Ltac io_step := unfold mbind at 1, io_bind at 1; try unfold lift at 1; try unfold gets at 1; try unfold modify at 1; cbv beta iota zeta.

Section locked.
Context `{Crc32cLaws} `{KeyDirKind} (testing : bool) (stem_of : Z -> string) (threshold : Z) (Hcap : 0 <= threshold).

(** Nothing that is published changed. *)
Record unharmed (db db' : DB) : Prop := {
  uh_state : state_ db' = state_ db;
  uh_fault : write_fault db' = write_fault db;
  uh_flight : in_flight db' = in_flight db;
  uh_ok : heap_ok (heap db');
  uh_kept : heap_kept (state_ db) (heap db) (heap db');
  uh_oracle : oracle db' `suffix_of` oracle db
}.

Lemma unharmed_trans a b c : unharmed a b -> unharmed b c -> unharmed a c.
Proof.
  intros [S1 W1 F1 O1 K1 U1] [S2 W2 F2 O2 K2 U2]. split; try congruence; [done| |by etrans].
  rewrite S1 in K2. by eapply heap_kept_trans.
Qed.

Lemma unharmed_quiet db db' : quiet_io db db' -> unharmed db db'.
Proof. intros []. split; try done. by apply heap_kept_le. Qed.

(** The active file was cut and sealed, and an empty file waits under the next
    id. *)
Record ready (db db' : DB) (es : list ResumeEntry) (v : Z) : Prop := {
  rd_unharmed : unharmed db db';
  rd_ids : next_file_id (state_ db) <= KeyDirEntry.kMaxFileId;
  rd_file : exists f f', heap db !! active_file_id (state_ db) = Some f /\ heap db' !! active_file_id (state_ db) = Some f'
    /\ published_extent (state_ db) <= v /\ resume_scan (rewritten f) = Ok (es, v) /\ cut_at v f f';
  rd_new : exists g, heap db' !! next_file_id (state_ db) = Some g /\ logical_end g = 0 /\ sync_failed g = false;
  rd_other : forall r, r <> active_file_id (state_ db) -> r <> next_file_id (state_ db) -> heap db' !! r = heap db !! r
}.

(** The next file was created, or not. *)
Lemma ready_created db db3 db4 db5 os es v f f2 :
  state_ok (heap db) (state_ db) -> unharmed db db3 -> next_file_id (state_ db) <= KeyDirEntry.kMaxFileId ->
  db4 = set_hint_queue (hint_queue db3 ++ [active_file_id (state_ db)]) db3 -> os `suffix_of` oracle db4 ->
  (db5 = set_oracle os db4 \/ exists g, db5 = set_oracle os (set_heap (<[next_file_id (state_ db) := g]> (heap db4)) db4)
     /\ file_ok g /\ logical_end g = 0 /\ sync_failed g = false) ->
  heap db !! active_file_id (state_ db) = Some f -> heap db3 !! active_file_id (state_ db) = Some f2 ->
  published_extent (state_ db) <= v -> resume_scan (rewritten f) = Ok (es, v) -> cut_at v f f2 ->
  (forall r, r <> active_file_id (state_ db) -> heap db3 !! r = heap db !! r) ->
  unharmed db db5
  /\ ((exists g, heap db5 !! next_file_id (state_ db) = Some g /\ logical_end g = 0 /\ sync_failed g = false) -> ready db db5 es v).
Proof.
  intros Hs U3 Hmax -> S5 D5 Hf Hf2 Hv Hscan C Hother. pose proof (so_ids _ _ Hs) as Hids. set (nid := next_file_id (state_ db)) in *.
  assert (U5 : unharmed db db5).
  { eapply unharmed_trans; [exact U3|]. destruct D5 as [->|(g & -> & Hg & _)]; split; try done; cbn; try apply (uh_ok _ _ U3).
    - apply heap_kept_refl, U3.
    - apply heap_ok_insert; [apply U3|done].
    - intros x y Hy. destruct (decide (x = nid)) as [->|Hne].
      + assert (Hst : file_stats (state_ db) !! nid = None).
        { apply eq_None_not_Some. intros Hn%(so_below _ _ Hs). unfold nid in *. lia. }
        exists g. rewrite lookup_insert_eq, (uh_state _ _ U3). unfold extent. rewrite Hst. split; [done|]. split; [|by intros []].
        split; [done|]. exists 0. destruct Hg. split_and!; [done|done|apply prefix_nil|lia].
      + exists y. rewrite lookup_insert_ne by done. pose proof (grown_refl y (uh_ok _ _ U3 _ _ Hy)).
        split_and!; [done|by apply kept_grown|intros _; by apply units_kept_grown]. }
  split; [done|]. intros Hnew.
  assert (Hh5 : forall r, r <> nid -> heap db5 !! r = heap db3 !! r).
  { intros r Hne. destruct D5 as [->|(g & -> & _)]; [done|]. cbn. by rewrite lookup_insert_ne. }
  split; [done|done| |done|].
  - exists f, f2. rewrite Hh5 by (unfold nid; lia). by split_and!.
  - intros r H1' H2'. rewrite Hh5 by done. by apply Hother.
Qed.

Lemma resume_seal_spec db :
  heap_ok (heap db) -> state_ok (heap db) (state_ db) ->
  exists r db', resume_seal stem_of threshold (state_ db) db = (r, db') /\ unharmed db db'
    /\ match r with
       | Err _ => True
       | Ok (es, v, rot, t) => ready db db' es v /\ t = reserved (transient (state_ db))
           /\ rot = mkRotation (active_file_id (state_ db)) (next_file_id (state_ db)) (next_file_id (state_ db))
       end
    /\ (oracle db = [] -> next_file_id (state_ db) <= KeyDirEntry.kMaxFileId ->
         (forall f, heap db !! active_file_id (state_ db) = Some f -> exists es v, resume_scan (rewritten f) = Ok (es, v) /\ published_extent (state_ db) <= v) ->
         is_ok r = true).
Proof.
  intros Hok Hs. destruct (so_file _ _ Hs) as [f Hf]. pose proof (so_ids _ _ Hs) as Hids.
  assert (U0 : unharmed db db) by (split; try done; by apply heap_kept_refl).
  unfold resume_seal. cbv zeta. unfold file_ids_left, active_ref. cbn [t_next_file_id t_files t_active_file_id transient]. rewrite (so_active _ _ Hs).
  destruct (Z.ltb_spec KeyDirEntry.kMaxFileId (next_file_id (state_ db))) as [Hmax|Hmax].
  { eexists _, _. split; [done|]. split; [done|]. split; [done|]. lia. }
  rewrite (proj2 (Z.eqb_neq _ _)) by lia. io_step. io_step.
  destruct (resume_file_spec (published_extent (state_ db)) f (oracle db) (Hok _ _ Hf)) as (r2 & f2 & os2 & E2 & S2 & K2 & U & C2 & N2).
  unfold mbind at 1, io_bind at 1. rewrite (on_file_eq _ _ f db Hf), E2. cbn [fio_file fio_oracle]. set (db2 := set_oracle os2 _).
  assert (U2 : unharmed db db2).
  { split; try done; cbn; [apply heap_ok_insert; [done|apply K2]|by apply (heap_kept_insert _ _ _ f)]. }
  destruct r2 as [[es v]|x].
  2: { eexists _, _. split; [done|]. split; [done|]. split; [done|]. intros E0 _ Hscan. destruct (Hscan f Hf) as (es & v & Hv & Hle). by destruct (N2 _ _ E0 Hv Hle). }
  destruct C2 as (Hv & Hscan & C). assert (Hf2 : heap db2 !! active_file_id (state_ db) = Some f2) by apply lookup_insert_eq.
  destruct (open_for_read_spec _ f2 db2 (uh_ok _ _ U2) Hf2) as (r3 & db3 & E3 & Q3 & Hh3 & _ & X3 & N3);
    [by rewrite (ct_size _ _ _ C), (ct_end _ _ _ C)|].
  assert (N3' : oracle db = [] -> r3 = Ok (active_file_id (state_ db)) /\ oracle db3 = []) by (intros E0; apply N3; by destruct (N2 _ _ E0 Hscan Hv)).
  unfold mbind at 1, io_bind at 1. rewrite E3. assert (U3 : unharmed db db3) by (eapply unharmed_trans; [done|by apply unharmed_quiet]).
  destruct r3 as [r3|x].
  2: { eexists _, _. split; [done|]. split; [done|]. split; [done|]. intros E0. by destruct (N3' E0). }
  injection (X3 eq_refl) as ->. unfold reserve_file_id, file_ids_left. cbn [t_next_file_id transient].
  rewrite (proj2 (Z.ltb_ge _ _)) by done. rewrite (proj2 (Z.eqb_neq _ _)) by lia. fold (reserved (transient (state_ db))).
  unfold dispatch_hint. io_step. io_step. set (db4 := set_hint_queue _ db3).
  destruct (create_active_file_run stem_of threshold (next_file_id (state_ db)) db4 Hcap (uh_ok _ _ U3)) as (r5 & db5 & os5 & E5 & S5 & D5 & X5 & N5).
  pose proof (ready_created db db3 db4 db5 os5 es v f f2) as Hr.
  unfold mbind at 1, io_bind at 1. rewrite E5. 
  destruct (Hr Hs U3) as [U5 R5]; try done; [by rewrite Hh3|intros r Hne; rewrite Hh3; cbn; by rewrite lookup_insert_ne|].
  destruct r5 as [r5|x].
  - destruct (X5 eq_refl) as [[= ->] (g & Hg & Lg & Sg & _)]. eexists _, _. split; [done|]. split; [done|]. split; [|done]. split; [by apply R5; exists g|done].
  - eexists _, _. split; [done|]. split; [done|]. split; [done|]. intros E0. destruct (N3' E0) as [_ E3']. by destruct (N5 E3').
Qed.

(** How [resume_locked] ends. *)
Definition publish_resumed (current resumed : EngineState) : io DB unit :=
  _ ← store_state current resumed; _ ← modify (set_flush_error None); modify (set_write_fault false).

Lemma publish_resumed_ok current resumed db : exists db', publish_resumed current resumed db = (Ok (), db').
Proof.
  unfold publish_resumed, store_state. unfold mbind at 1, io_bind at 1.
  destruct (_ <? _); [by eexists|]. destruct (_ <? _); [by eexists|]. destruct (_ <? _); [by eexists|]. destruct (_ <? _); [by eexists|].
  destruct (_ <? _); by eexists.
Qed.

Definition resumed_of (db : DB) (es : list ResumeEntry) (v : Z) : result EngineState :=
  resumed_state testing (reserved (transient (state_ db))) es v
    (mkRotation (active_file_id (state_ db)) (next_file_id (state_ db)) (next_file_id (state_ db))).

Lemma resume_locked_run db :
  heap_ok (heap db) -> state_ok (heap db) (state_ db) -> refused (state_ db) db = true -> closed (state_ db) = false ->
  exists r db', resume_locked testing stem_of threshold db = (r, db')
    /\ match r with
       | Err _ => unharmed db db'
       | Ok _ => exists es v db1 resumed, ready db db1 es v /\ resumed_of db es v = Ok resumed
                   /\ publish_resumed (state_ db) resumed db1 = (Ok (), db')
       end
    /\ (oracle db = [] -> next_file_id (state_ db) <= KeyDirEntry.kMaxFileId ->
         (forall f, heap db !! active_file_id (state_ db) = Some f -> exists es v, resume_scan (rewritten f) = Ok (es, v) /\ published_extent (state_ db) <= v) ->
         (forall es v db1, ready db db1 es v -> is_ok (resumed_of db es v) = true) -> r = Ok ()).
Proof.
  intros Hok Hs Hr Hc. unfold resume_locked, load_state. io_step. rewrite Hc. cbn [throw_if]. io_step. io_step. rewrite Hr. cbn [negb].
  unfold store_head. io_step. set (db1 := set_head (state_ db) db).
  destruct (resume_seal_spec db1 Hok Hs) as (r & db2 & E & U & X & N). change (state_ db1) with (state_ db) in E, X, N.
  assert (U1 : unharmed db db2) by (destruct U; by split). unfold mbind at 1, io_bind at 1. rewrite E. destruct r as [[[[es v] rot] t]|x].
  2: { eexists _, _. split; [done|]. split; [done|]. intros E0 Hid Hscan _. by specialize (N E0 Hid Hscan). }
  destruct X as (R & -> & ->). assert (R' : ready db db2 es v) by (destruct R; by split).
  io_step. fold (resumed_of db es v). destruct (resumed_of db es v) as [resumed|x] eqn:Er.
  - destruct (publish_resumed_ok (state_ db) resumed db2) as (db3 & E3). exists (Ok ()), db3. split; [exact E3|]. split; [by exists es, v, db2, resumed|done].
  - eexists _, _. split; [done|]. split; [done|]. intros _ _ _ Hres. specialize (Hres es v db2 R'). by rewrite Er in Hres.
Qed.
End locked.

(** ** What is replayed *)

(** Change markers stay in order when replayed. *)
Lemma resume_loop_markers `{KeyDirKind} file_id es a t a' t' next :
  resume_loop file_id es a t = Ok (a', t') -> Forall (fun e => 0 < re_sequence e < next) es ->
  markers_ok next (t_change_markers t) -> markers_ok next (t_change_markers t').
Proof.
  revert a t. induction es as [|e es IH]; intros a t; [by intros [= <- <-]|]. cbn [resume_loop]. intros (t1 & E1 & E)%mbind_ok Hes Hm.
  apply Forall_cons in Hes as [He Hes]. apply (IH _ _ E Hes). clear IH E.
  assert (Hone : t_change_markers t1 = t_change_markers t
    \/ (t_change_markers t1 = Some (default [] (t_change_markers t) ++ [mkChangeMarker (re_sequence e) (re_marker_id e)])
        /\ forall ms, t_change_markers t = Some ms -> since_sequence (List.last ms kOriginMarker) < re_sequence e)).
  { revert E1. unfold resume_one. destruct (re_type e).
    - case_match_eqn; [|intros [= <-]; by left]. intros (x & _ & [= <-])%mbind_ok. left. by rewrite remove_live_stats.
    - destruct (kd_get _ _); [case_match_eqn|]; intros [= <-]; left; by rewrite ?remove_live_stats.
    - intros [= <-]. by left.
    - intros [= <-]. by left.
    - intros [= <-]. left. by rewrite remove_live_all_stats.
    - destruct (t_change_markers t) as [ms|] eqn:Et; [destruct (Z.ltb_spec (since_sequence (List.last ms kOriginMarker)) (re_sequence e))|];
        intros [= <-]; rewrite ?Et; [right|by left|right]; unfold append_marker; cbn; rewrite Et; (split; [done|]); by intros ? [= <-].
    - intros [= <-]. by left. }
  destruct Hone as [->|[-> Hlast]]; [done|]. intros l [= <-]. destruct (t_change_markers t) as [ms|]; cbn [default from_option].
  - destruct (Hm ms eq_refl) as [Hsort Hf]. specialize (Hlast ms eq_refl). cbn. split; [|apply Forall_app; split; [done|apply Forall_singleton; cbn; lia]].
    rewrite fmap_app, app_comm_cons. apply StronglySorted_app. split_and!; [|done|by repeat constructor].
    intros x y Hx Hy%list_elem_of_singleton. subst y. cbn.
    destruct ms as [|m ms _] using rev_ind; [apply list_elem_of_singleton in Hx as ->; lia|].
    rewrite last_last in Hlast. rewrite fmap_app, app_comm_cons in Hsort, Hx. apply StronglySorted_app in Hsort as (Hlt & _ & _).
    apply elem_of_app in Hx as [Hx|Hx%list_elem_of_singleton]; [|subst x; lia].
    specialize (Hlt x (since_sequence m) Hx ltac:(by left)). lia.
  - split; [repeat constructor; cbn; lia|apply Forall_singleton; cbn; lia].
Qed.

(** The committed units of a file, as [apply_resume] takes them. *)
Definition resume_entries (us : list (list DataEntry)) : list ResumeEntry := resume_entry <$> with_offsets 0 (concat us).

(** A degraded engine whose active file holds the units [us1 ++ us2] and an
    open batch, over a store [base], and has published [us1]. *)
Record resumable `{Crc32c} (db : DB) (base : KeyDirTree) (us1 us2 : list (list DataEntry)) (rest : list DataEntry) : Prop := {
  ru_live : forall f, heap db !! active_file_id (state_ db) = Some f -> live f = images (concat (us1 ++ us2) ++ rest);
  ru_units : Forall unit_of (us1 ++ us2);
  ru_rest : unended rest;
  ru_sweep : Forall sweepable (concat (us1 ++ us2) ++ rest);
  ru_published : key_dir (state_ db) = replay (active_file_id (state_ db)) (resume_entries us1) base;
  ru_extent : published_extent (state_ db) <= DataFile.total_bytes (concat (us1 ++ us2));
  ru_order : file_order (resume_entries (us1 ++ us2));
  ru_limits : Forall (fun e => de_sequence e <= KeyDirEntry.kMaxSequence /\ size (de_value e) <= KeyDirEntry.kMaxValueSize) (concat (us1 ++ us2));
  ru_end : DataFile.total_bytes (concat (us1 ++ us2)) <= KeyDirEntry.kMaxFileOffset;
  ru_base : before_file base (resume_entries (us1 ++ us2));
  ru_next : forall k x, base !! k = Some x -> KeyDirEntry.sequence x < next_seq (state_ db);
  ru_ids : next_file_id (state_ db) <= KeyDirEntry.kMaxFileId;
  ru_fresh : heap_fresh (heap db) (next_file_id (state_ db))
}.

Lemma resume_entries_app us1 us2 :
  exists es2, resume_entries (us1 ++ us2) = resume_entries us1 ++ es2.
Proof. unfold resume_entries. rewrite concat_app, with_offsets_app, fmap_app. by eexists. Qed.

Lemma elem_of_with_offsets off es d o :
  (d, o) ∈ with_offsets off es -> exists i, es !! i = Some d /\ o = off + DataFile.total_bytes (take i es).
Proof.
  intros (i & Hi)%list_elem_of_lookup_1. exists i. unfold with_offsets in Hi. apply lookup_zip_with_Some in Hi as (d' & o' & [= <- <-] & Hd & Ho).
  rewrite (offsets_from_lookup off es i d Hd) in Ho. by injection Ho as <-.
Qed.

(** A key in a file other than the replayed one was there before. *)
Lemma replay_elsewhere file_id es1 es2 base k x :
  Forall (packs file_id) (es1 ++ es2) -> replay file_id (es1 ++ es2) base !! k = Some x -> KeyDirEntry.file_id x <> file_id ->
  replay file_id es1 base !! k = Some x.
Proof.
  intros Hp Hx Hne. pose proof Hp as [Hp1 Hp2]%Forall_app. rewrite replay_lookup in Hx |- * by done. rewrite foldl_app, in_order_decider in Hx.
  destruct (decider k es2) as [e|] eqn:E; [|done]. exfalso. destruct (decider_elem _ _ _ E) as [Hin _].
  rewrite Forall_forall in Hp2. specialize (Hp2 e Hin). unfold made, packs in *. destruct (re_type e); try done.
  destruct (KeyDirEntry.make_fields _ _ _ _ (Hp2 eq_refl)) as (y & Hy & [_ _ Hf _]). rewrite Hy in Hx. congruence.
Qed.

Lemma resumed_state_eq `{KeyDirKind} testing t es v rot t' :
  apply_resume (t_active_file_id t) es v t = Ok t' -> validate_state_consistency testing (resumed_copy t' rot) = Ok () ->
  resumed_state testing t es v rot = Ok (resumed_copy t' rot).
Proof. intros E V. unfold resumed_state. rewrite E. unfold mbind, result_bind. by rewrite V. Qed.

Section resumed.
Context `{Crc32cLaws} `{KeyDirKind} (db : DB) (base : KeyDirTree) (us1 us2 : list (list DataEntry)) (rest : list DataEntry).
Context (Hok : heap_ok (heap db)) (Hs : state_ok (heap db) (state_ db)) (Hru : resumable db base us1 us2 rest).
Let act := active_file_id (state_ db).
Let nid := next_file_id (state_ db).
Let us := us1 ++ us2.

Lemma resumable_scan f : heap db !! act = Some f -> resume_scan (rewritten f) = Ok (resume_entries us, DataFile.total_bytes (concat us)).
Proof.
  intros Hf. apply (resume_scan_units _ us rest); [|exact (ru_live _ _ _ _ _ Hru f Hf)|apply (ru_units _ _ _ _ _ Hru)|apply (ru_rest _ _ _ _ _ Hru)|apply (ru_sweep _ _ _ _ _ Hru)].
  destruct (Hok _ _ Hf). split; cbn; lia.
Qed.

Context (db1 : DB) (es : list ResumeEntry) (v : Z) (R : ready db db1 es v).

Lemma ready_scan : es = resume_entries us /\ v = DataFile.total_bytes (concat us).
Proof. destruct (rd_file _ _ _ _ R) as (f & f' & Hf & _ & _ & E & _). rewrite (resumable_scan f Hf) in E. by injection E as <- <-. Qed.

(** The sealed file holds exactly the committed units. *)
Lemma ready_sealed : exists f', heap db1 !! act = Some f' /\ live f' = images (concat us) /\ logical_end f' = v /\ synced_end f' = v.
Proof.
  destruct (rd_file _ _ _ _ R) as (f & f' & Hf & Hf' & _ & _ & C). exists f'. split; [done|]. split; [|split; apply C].
  rewrite (ct_live _ _ _ C), (ru_live _ _ _ _ _ Hru f Hf), images_app. destruct ready_scan as [_ ->]. rewrite <-length_images. unfold size.
  rewrite Nat2Z.id. apply take_app_length.
Qed.

Lemma resumable_packs : Forall (packs act) (resume_entries us).
Proof.
  apply Forall_forall. intros e ([d o] & -> & (i & Hi & ->)%elem_of_with_offsets)%list_elem_of_fmap _. cbn.
  pose proof (ru_limits _ _ _ _ _ Hru) as Hl. pose proof (ru_sweep _ _ _ _ _ Hru) as Hsw. apply Forall_app in Hsw as [Hsw _].
  rewrite Forall_forall in Hl, Hsw. fold us in Hl, Hsw. pose proof (list_elem_of_lookup_2 _ _ _ Hi) as Hin.
  destruct (Hl d Hin), (Hsw d Hin) as [[Hq _ _ _ _] _]. pose proof (wf_active_id _ _ (so_wf _ _ Hs)) as Hid. cbn in Hid.
  pose proof (ru_end _ _ _ _ _ Hru) as Hend. fold us in Hend.
  assert (Hpre : 0 <= DataFile.total_bytes (take i (concat us)) <= DataFile.total_bytes (concat us)).
  { rewrite <-(take_drop i (concat us)) at 3. rewrite total_bytes_app. pose proof (total_bytes_nonneg (take i (concat us))).
    pose proof (total_bytes_nonneg (drop i (concat us))). lia. }
  unfold KeyDirEntry.packable. unfold fits in Hq. split_and!; try done; unfold size; lia.
Qed.

Lemma resumable_scanned : scanned_file (recs_of (heap db1)) act base (resume_entries us).
Proof.
  destruct ready_sealed as (f' & Hf' & Hl & _). pose proof (uh_ok _ _ (rd_unharmed _ _ _ _ R) _ _ Hf') as Hok'.
  split; [|apply Hru| |apply Hru].
  - pose proof resumable_packs as Hp. rewrite Forall_forall in Hp |- *. intros e He. split; [by apply Hp|].
    apply list_elem_of_fmap in He as ([d o] & -> & (i & Hi & ->)%elem_of_with_offsets). cbn. intros Ht. exists (de_value d). split; [|done].
    rewrite <-Ht. replace (mkDataEntry _ _ _ _) with d by (by destruct d). apply (recs_of_spec _ _ f' _ d Hok' Hf').
    exists us, (take i (concat us)), (drop (S i) (concat us)). split_and!; [|by rewrite take_drop_middle|done].
    split; [apply Hru|exact (proj1 (proj1 (Forall_app _ _ _) (ru_sweep _ _ _ _ _ Hru)))|by rewrite Hl].
  - apply Forall_forall. intros e ([d o] & -> & (i & Hi & _)%elem_of_with_offsets)%list_elem_of_fmap. cbn.
    apply list_elem_of_lookup_2 in Hi. pose proof (ru_limits _ _ _ _ _ Hru) as Hlim. pose proof (ru_sweep _ _ _ _ _ Hru) as Hsw. apply Forall_app in Hsw as [Hsw _].
    rewrite Forall_forall in Hlim, Hsw. destruct (Hlim d Hi), (Hsw d Hi) as [[Hq _ _ _ _] Hnz]. unfold fits in Hq. lia.
Qed.

(** The working copy with the file replayed. *)
Lemma resumable_replayed :
  exists t', apply_resume act es v (reserved (transient (state_ db))) = Ok t'
    /\ resumed_from (recs_of (heap db1)) act base es v (reserved (transient (state_ db))) t'.
Proof.
  destruct ready_scan as [Ees Hv]. destruct (resume_entries_app us1 us2) as (es2 & Eus). pose proof resumable_scanned as Hsc.
  rewrite Ees. unfold us in *. rewrite Eus in Hsc |- *.
  apply apply_resume_from; [|apply Hru|done|apply Hru|apply (wf_active _ _ (so_wf _ _ Hs))|].
  - pose proof (state_ok_kept _ _ Hs Hok _ (uh_kept _ _ (rd_unharmed _ _ _ _ R))) as Hs1. destruct (so_wf _ _ Hs1). by split.
  - rewrite Hv. pose proof (ru_end _ _ _ _ _ Hru). pose proof (total_bytes_nonneg (concat (us1 ++ us2))). unfold fits, KeyDirEntry.kMaxFileOffset in *. lia.
Qed.

(** Keys of other files were published before, with the bytes their files
    count. *)
Lemma replayed_elsewhere k x : replay act es base !! k = Some x -> KeyDirEntry.file_id x <> act -> key_dir (state_ db) !! k = Some x.
Proof.
  pose proof resumable_packs as Hp. destruct ready_scan as [Ees _]. destruct (resume_entries_app us1 us2) as (es2 & Eus).
  rewrite Ees, (ru_published _ _ _ _ _ Hru). unfold us in *. rewrite Eus in Hp |- *. by apply replay_elsewhere.
Qed.

Lemma replayed_ok t' :
  resumed_from (recs_of (heap db1)) act base es v (reserved (transient (state_ db))) t' -> state_ok (heap db1) (persistent t').
Proof.
  intros F. pose proof (rd_unharmed _ _ _ _ R) as U. pose proof (state_ok_kept _ _ Hs Hok _ (uh_kept _ _ U)) as Hs1.
  pose proof (rf_active _ _ _ _ _ _ _ F) as Fa. pose proof (rf_next_file _ _ _ _ _ _ _ F) as Fn. pose proof (rf_files _ _ _ _ _ _ _ F) as Ff.
  pose proof (so_ids _ _ Hs) as Hids. pose proof (rf_next _ _ _ _ _ _ _ F) as Hn. pose proof (so_seq _ _ Hs) as Hq. cbn in Fa, Fn, Ff, Hn.
  assert (Hother : forall f fs', f <> act -> t_file_stats t' !! f = Some fs' -> exists fs, file_stats (state_ db) !! f = Some fs
    /\ total_bytes fs' = total_bytes fs /\ min_sequence fs' = min_sequence fs /\ max_sequence fs' = max_sequence fs).
  { intros f fs' Hne Hfs'. destruct (rf_other _ _ _ _ _ _ _ F f fs' Hne Hfs') as (fs & Hfs & [B1 B2 B3]). exists fs. split; [done|].
    destruct (wf_fit _ _ (rf_wf _ _ _ _ _ _ _ F) f fs' Hfs') as (T' & _ & _ & _ & _ & M'). destruct (wf_fit _ _ (so_wf _ _ Hs) f fs Hfs) as (T & _ & _ & _ & _ & M).
    rewrite !wrap_small in B1 by done. split_and!; [done|done|lia]. }
  split; cbn.
  - destruct (rf_wf _ _ _ _ _ _ _ F). by split.
  - rewrite Ff, Fa. apply Hs.
  - rewrite Fa. apply Hs1.
  - rewrite Fa, Fn. cbn. lia.
  - lia.
  - intros id r. rewrite Ff, (rf_dom _ _ _ _ _ _ _ F). apply Hs.
  - intros id. rewrite (rf_dom _ _ _ _ _ _ _ F), Fn. intros Hi%(so_below _ _ Hs). cbn. lia.
  - intros f fs' Hfs'. destruct (decide (f = act)) as [->|Hne]; [apply (rf_file _ _ _ _ _ _ _ F fs' Hfs')|].
    destruct (Hother f fs' Hne Hfs') as (fs & Hfs & _ & E1 & E2). unfold coherent. rewrite E1, E2. apply (so_coherent _ _ Hs f fs Hfs).
  - intros k e fs' Hk Hfs'. rewrite (rf_key_dir _ _ _ _ _ _ _ F) in Hk. destruct (decide (KeyDirEntry.file_id e = act)) as [Ef|Hne].
    + rewrite Ef in Hfs'. destruct (rf_file _ _ _ _ _ _ _ F fs' Hfs') as [-> _]. destruct ready_sealed as (f' & Hf' & _ & Hend & _). rewrite <-Hend.
      apply (entry_end_within (recs_of (heap db1)) act); [apply (recs_of_within _ _ f'); [apply (uh_ok _ _ U _ _ Hf')|done]| |done].
      apply (wf_resolves _ _ (rf_wf _ _ _ _ _ _ _ F)). by rewrite (rf_key_dir _ _ _ _ _ _ _ F).
    + destruct (Hother _ _ Hne Hfs') as (fs & Hfs & -> & _). apply (so_extent _ _ Hs k e fs); [by apply replayed_elsewhere|done].
  - destruct (rf_markers _ _ _ _ _ _ _ F) as (t1 & a & E & ->). pose proof (so_markers _ _ Hs) as Hm.
    eapply resume_loop_markers; [exact E| |by eapply markers_ok_mono; [|exact Hm]; cbn; lia].
    apply Forall_forall. intros e He. split; [|by apply (rf_above _ _ _ _ _ _ _ F)]. pose proof (sn_seq _ _ _ _ resumable_scanned) as Hp.
    destruct ready_scan as [Ees _]. rewrite Ees in He. rewrite Forall_forall in Hp. by apply (Hp e He).
Qed.

(** The state resumed into. *)
Record resumed_ok (s : EngineState) : Prop := {
  ro_state : state_ok (heap db1) s;
  ro_key_dir : key_dir s = replay act (resume_entries us) base;
  ro_active : active_file_id s = nid;
  ro_next_file : next_file_id s = nid + 1;
  ro_next : next_seq (state_ db) <= next_seq s;
  ro_durable : durable_seq s = next_seq s - 1;
  ro_requested : sync_requested_seq s = sync_requested_seq (state_ db);
  ro_accepts : degraded s = false;
  ro_stats : file_stats s !! nid = Some FileStats_zero
}.

Lemma apply_sync_all t :
  0 < t_next_seq t -> t_durable_seq t < t_next_seq t ->
  apply_sync (if 0 <? t_next_seq t then t_next_seq t - 1 else 0) t = set_durable_seq (t_next_seq t - 1) t.
Proof.
  intros Hn Hd. rewrite (proj2 (Z.ltb_lt _ _)) by done. unfold apply_sync. destruct (Z.ltb_spec (t_durable_seq t) (t_next_seq t - 1)); [done|].
  replace (t_next_seq t - 1) with (t_durable_seq t) by lia. by destruct t.
Qed.

Lemma resumed_copy_ok t' :
  resumed_from (recs_of (heap db1)) act base es v (reserved (transient (state_ db))) t' ->
  0 <= sync_requested_seq (state_ db) <= durable_seq (state_ db) -> durable_seq (state_ db) < next_seq (state_ db) ->
  resumed_ok (resumed_copy t' (mkRotation act nid nid)).
Proof.
  intros F Hsd Hdn. pose proof (replayed_ok t' F) as Hs'.
  pose proof (rf_active _ _ _ _ _ _ _ F) as Fa. pose proof (rf_next_file _ _ _ _ _ _ _ F) as Fn. pose proof (rf_next _ _ _ _ _ _ _ F) as Hn.
  pose proof (rf_durable _ _ _ _ _ _ _ F) as Fd. pose proof (rf_requested _ _ _ _ _ _ _ F) as Fr. cbn in Fa, Fn, Hn, Fd, Fr.
  destruct (rd_new _ _ _ _ R) as (g & Hg & Lg & _). pose proof (rd_ids _ _ _ _ R) as Hid. pose proof (so_ids _ _ Hs) as Hids. destruct ready_scan as [Ees _].
  unfold resumed_copy. cbv zeta. cbn [sealed next next_id]. fold act in Fa. rewrite <-Fa.
  pose proof (rotate_state_ok (heap db1) t' nid g) as Hrot. set (t2 := apply_rotate_file (t_active_file_id t') nid nid t') in *.
  assert (Hs2 : state_ok (heap db1) (persistent t2)).
  { apply Hrot; try done; [apply R|unfold nid; lia|rewrite Fn; unfold nid; lia|]. intros id. rewrite (rf_dom _ _ _ _ _ _ _ F). apply (so_below _ _ Hs). }
  rewrite (apply_sync_all t2) by (cbn; lia).
  split; cbn; try done; try lia; [by apply (state_ok_same _ (persistent t2))|by rewrite (rf_key_dir _ _ _ _ _ _ _ F), Ees|apply lookup_insert_eq].
Qed.

Lemma resumed_of_ok testing :
  0 <= sync_requested_seq (state_ db) <= durable_seq (state_ db) -> durable_seq (state_ db) < next_seq (state_ db) ->
  exists s, resumed_of testing db es v = Ok s /\ resumed_ok s.
Proof.
  intros Hsd Hdn. destruct resumable_replayed as (t' & E & F). pose proof (resumed_copy_ok t' F Hsd Hdn) as Hro.
  exists (resumed_copy t' (mkRotation act nid nid)). split; [|done]. apply (resumed_state_eq testing (reserved (transient (state_ db))) es v (mkRotation act nid nid) t' E).
  apply (validate_ok (heap db1)); [apply Hro|]. rewrite (ro_requested _ Hro), (ro_durable _ Hro). pose proof (ro_next _ Hro). lia.
Qed.
End resumed.

(** ** Resuming *)

Lemma quiesce_refused `{Crc32cLaws} `{Apart : FaultSpacing} next0 v0 ls n db : inv next0 v0 ls n db -> refused (state_ db) db = true -> quiesce db = (Ok (), db).
Proof.
  intros I Hr. pose proof (iv_refused _ _ _ _ _ I Hr) as Hfl.
  unfold quiesce, flush_finish, gets, try_catch, flush_pending, flush_load, load_head, load_state, gets, mbind, io_bind. rewrite Hfl. unfold mret, io_ret. by rewrite Hr.
Qed.

Lemma with_role_run {A} (m : io DB A) db db1 r db2 :
  quiesce db = (Ok (), db1) -> m db1 = (r, db2) -> with_role m db = (r, set_head (state_ db2) db2).
Proof. intros E1 E2. unfold with_role, attempt, mbind, io_bind. rewrite E1, E2. by destruct r. Qed.

Section resume.
Context `{Crc32cLaws} `{KeyDirKind} `{Apart : FaultSpacing} (cfg : Settings) (next0 : Z) (v0 : gmap bytes bytes) (Hcfg : settings_ok cfg).

(** The engine accepts writes again: an empty log over what was replayed. *)
Lemma resumed_shows ls n db base us1 us2 rest db1 es v s db' :
  inv next0 v0 ls n db -> resumable db base us1 us2 rest -> ready db db1 es v -> resumed_ok db base us1 us2 db1 s ->
  in_flight db1 = None ->
  db' = set_head s (set_write_fault false (set_flush_error None (set_state s db1))) ->
  shows cfg (next_seq s) (state_view (heap db') s) (mkLog [] 0) db' /\ refused (state_ db') db' = false.
Proof.
  intros I Hru R Ro Hfl ->. pose proof (rd_unharmed _ _ _ _ R) as U. pose proof (iv_heap _ _ _ _ _ I) as Hok. pose proof (iv_state _ _ _ _ _ I) as Hs.
  destruct (rd_new _ _ _ _ R) as (g & Hg & Lg & Sg). pose proof (ro_active _ _ _ _ _ _ Ro) as Ea. pose proof (so_ids _ _ Hs) as Hids.
  assert (Hacc : degraded s || false = false) by (by rewrite (ro_accepts _ _ _ _ _ _ Ro)).
  assert (Hg' : forall f, heap db1 !! active_file_id s = Some f -> f = g) by (intros f; rewrite Ea; congruence).
  assert (Hdur : faults_apart -> durable_to (heap db1) s (durable_seq s)).
  { intros Hap k e Hk _. rewrite (ro_key_dir _ _ _ _ _ _ Ro) in Hk. destruct (ready_scan db base us1 us2 rest Hok Hru db1 es v R) as [Ees _].
    destruct (decide (KeyDirEntry.file_id e = active_file_id (state_ db))) as [Ef|Hne].
    - destruct (ready_sealed db base us1 us2 rest Hok Hru db1 es v R) as (f' & Hf' & _ & He & Hsy). exists f'. rewrite Ef. split; [done|]. rewrite Hsy, <-He.
      apply (entry_end_below (heap db1) s); [apply U|apply Ro|by rewrite (ro_key_dir _ _ _ _ _ _ Ro)|by rewrite Ef].
    - apply (durable_to_kept (heap db) _ Hs _ (uh_kept _ _ U) _ (iv_durable _ _ _ _ _ I Hap)); [|by right].
      eapply replayed_elsewhere; try done. by rewrite Ees. }
  pose proof (iv_owed _ _ _ _ _ I) as (Hq0 & Hq1 & Hq2). pose proof (ro_requested _ _ _ _ _ _ Ro) as Er. pose proof (ro_durable _ _ _ _ _ _ Ro) as Ed.
  pose proof (ro_next _ _ _ _ _ _ Ro) as En. pose proof (ro_state _ _ _ _ _ _ Ro) as Hss.
  assert (Hfr : heap_fresh (heap db1) (next_file_id s)).
  { rewrite (ro_next_file _ _ _ _ _ _ Ro). intros r f Hr Hf. rewrite (rd_other _ _ _ _ R) in Hf by lia.
    apply (ru_fresh _ _ _ _ _ Hru r f); [lia|done]. }
  split; [split|exact Hacc].
  - cbn [committed published]. split; cbn; try done; try apply U; try lia.
    + by repeat constructor.
    + intros _. split; cbn; try done; try lia; [intros _ f Hf; by rewrite (Hg' f Hf)|by rewrite Hfl|apply advanced_refl].
    + intros Hap. by eapply no_double_fault_suffix; [apply U|apply I].
  - intros _ f Hf. cbn in Hf |- *. rewrite (Hg' f Hf), Lg. destruct Hcfg. split; [lia|]. split; [by apply framed_empty, empty_live|]. intros fs. rewrite Ea, (ro_stats _ _ _ _ _ _ Ro). by intros [= <-].
Qed.

(** C40: [resume] never loses what was acknowledged.  On any degraded engine
    that keeps its invariant and that no other thread closes or resumes first,
    with system calls failing in any pattern (the reads of the sweep included),
    a resume that throws leaves the engine degraded with the same published
    state, every record that state names still in its file and, where it was on
    disk, still on disk.  Let the active file hold the units [us1 ++ us2] (and
    perhaps a batch that never ended) over a store [base], of which only [us1]
    was published.  Then resume returns unless a system call fails, and when it
    returns, the engine accepts writes again, its key directory is [base] with
    every unit of the file applied in order, the durable sequence covers all of
    it (and what it covers is on disk, provided no call of the engine had failed
    right after one that failed), and later runs refine the log store from
    there. *)
Theorem resume_spec testing others ls n db :
  closed (state_ db) = false -> refused (state_ db) db = true ->
  inv next0 v0 ls n (others db) -> refused (state_ (others db)) (others db) = true -> closed (state_ (others db)) = false ->
  exists r db', resume testing (stem_of cfg) (rotation_threshold cfg) others db = (r, db')
    /\ (is_ok r = false -> inv next0 v0 ls n db' /\ state_ db' = state_ (others db) /\ refused (state_ db') db' = true
          /\ forall d, durable_to (heap (others db)) (state_ (others db)) d -> durable_to (heap db') (state_ db') d)
    /\ forall base us1 us2 rest, resumable (others db) base us1 us2 rest ->
         (oracle (others db) = [] -> r = Ok ())
         /\ (r = Ok () -> shows cfg (next_seq (state_ db')) (state_view (heap db') (state_ db')) (mkLog [] 0) db'
              /\ refused (state_ db') db' = false
              /\ key_dir (state_ db') = replay (active_file_id (state_ (others db))) (resume_entries (us1 ++ us2)) base
              /\ next_seq (state_ (others db)) <= next_seq (state_ db') /\ durable_seq (state_ db') = next_seq (state_ db') - 1
              /\ (faults_apart -> durable_to (heap db') (state_ db') (durable_seq (state_ db')))).
Proof.
  intros Hc0 Hr0 I Hr Hc. set (db0 := others db) in *. pose proof (iv_heap _ _ _ _ _ I) as Hok. pose proof (iv_state _ _ _ _ _ I) as Hs.
  pose proof (iv_owed _ _ _ _ _ I) as (Hq0 & Hq1 & Hq2). pose proof (iv_refused _ _ _ _ _ I Hr) as Hfl.
  unfold resume, load_state. io_step. rewrite Hc0. cbn [throw_if]. io_step. io_step. rewrite Hr0. cbn [negb]. io_step. fold db0.
  destruct (resume_locked_run testing (stem_of cfg) (rotation_threshold cfg) ltac:(destruct Hcfg; lia) db0 Hok Hs Hr Hc) as (r & db1 & E & X & N).
  rewrite (with_role_run _ _ _ _ _ (quiesce_refused next0 v0 ls n db0 I Hr) E). exists r, (set_head (state_ db1) db1). split; [done|]. split.
  { destruct r as [[]|x]; [done|]. intros _. destruct X as [U1 U2 U3 U4 U5 U6]. split; [|split; [done|]].
    - apply (inv_kept next0 v0 ls n db0); try done. cbn. by rewrite U3.
    - split; [cbn; unfold refused; cbn; by rewrite U1, U2|]. intros d Hd. cbn. rewrite U1. by apply (durable_to_kept (heap db0)). }
  intros base us1 us2 rest Hru. assert (Hres : forall es v db2, ready db0 db2 es v -> exists s, resumed_of testing db0 es v = Ok s /\ resumed_ok db0 base us1 us2 db2 s)
    by (intros; by eapply resumed_of_ok).
  split.
  - intros E0. apply N; [done|apply Hru| |].
    + intros f Hf. eexists _, _. split; [by eapply resumable_scan|apply Hru].
    + intros es v db2 R. by destruct (Hres es v db2 R) as (s & -> & _).
  - intros ->. destruct X as (es & v & db2 & s & R & Es & P). destruct (Hres es v db2 R) as (s' & Es' & Ro). rewrite Es in Es'. injection Es' as <-.
    pose proof (ro_durable _ _ _ _ _ _ Ro) as Rd. pose proof (ro_next _ _ _ _ _ _ Ro) as Rn. pose proof (ro_requested _ _ _ _ _ _ Ro) as Rq. pose proof (so_ids _ _ Hs).
    revert P. unfold publish_resumed. unfold mbind at 1, io_bind at 1. rewrite store_state_publishes; [|done|rewrite (ro_active _ _ _ _ _ _ Ro); lia|rewrite (ro_next_file _ _ _ _ _ _ Ro); lia|lia|lia].
    intros [= <-].
    destruct (resumed_shows ls n db0 base us1 us2 rest db2 es v s (set_head s (set_write_fault false (set_flush_error None (set_state s db2)))) I Hru R Ro)
      as [Hsh Hacc]; [by rewrite (uh_flight _ _ (rd_unharmed _ _ _ _ R))|reflexivity|].
    split; [exact Hsh|]. split; [exact Hacc|]. split; [apply Ro|]. split; [done|]. split; [done|]. apply (proj1 Hsh).
Qed.
End resume.

(** ** Witness *)

Section witness.
Import Castagnoli EngineFixture.
#[local] Instance blind_leaves : KeyDirKind := true.
#[local] Instance calls_fail_apart : FaultSpacing := True.

(** A write, published; then one whose [fdatasync] fails. *)
Definition first_write : DB :=
  (with_role (mret ()) (run_batch (settings 200 (2 ^ 32)) [put_slot [x61] [x01] true] (empty_db [Done; Done; Done; Done; Done; Fails 0])).2).2.
Definition second_write : DB := (run_batch (settings 200 (2 ^ 32)) [put_slot [x62] [x02] true] first_write).2.
Definition degraded_db : DB := (flush_finish (flush_start second_write).2).2.

Definition published_units : list (list DataEntry) := [[mkDataEntry 1 Put [x61] [x01]]].
Definition unpublished_units : list (list DataEntry) := [[mkDataEntry 2 Put [x62] [x02]]].

Lemma degraded_run : rtc (db_step (settings 200 (2 ^ 32))) (empty_db [Done; Done; Done; Done; Done; Fails 0]) degraded_db.
Proof.
  eapply rtc_l; [|eapply rtc_l; [|eapply rtc_l; [|eapply rtc_l; [|apply rtc_once]]]].
  - eapply (step_batch _ [put_slot [x61] [x01] true]); [by repeat constructor| |apply surjective_pairing].
    intros _. apply Forall_singleton. apply (request_plan_ok (empty_db _) (put_plan [x61] [x01])); [by apply put_requested|by vm_compute].
  - eapply step_barrier. apply surjective_pairing.
  - eapply (step_batch _ [put_slot [x62] [x02] true]); [by repeat constructor| |apply surjective_pairing].
    intros _. apply Forall_singleton. apply (request_plan_ok first_write (put_plan [x62] [x02])); [by apply put_requested|by vm_compute].
  - eapply step_flush_start; [by vm_compute|apply surjective_pairing].
  - eapply step_flush_finish. apply surjective_pairing.
Qed.

Lemma degraded_resumable : resumable degraded_db ∅ published_units unpublished_units [].
Proof.
  split.
  - intros f. vm_compute. by intros [= <-].
  - by repeat constructor.
  - constructor.
  - repeat constructor; by vm_compute.
  - vm_compute; reflexivity.
  - by vm_compute.
  - repeat constructor; by vm_compute.
  - repeat constructor; by vm_compute.
  - by vm_compute.
  - by split.
  - done.
  - by vm_compute.
  - assert (En : next_file_id (state_ degraded_db) = 1) by (by vm_compute). intros r f Hr Hf. rewrite En in Hr.
    assert (Eh : heap degraded_db = {[0 := default (empty_file "") (heap degraded_db !! 0)]}) by (by vm_compute).
    rewrite Eh, lookup_singleton_ne in Hf by lia. discriminate Hf.
Qed.

Lemma resume_spec_witness :
  exists db', resume true (stem_of (settings 200 (2 ^ 32))) (rotation_threshold (settings 200 (2 ^ 32))) (fun db => db) degraded_db = (Ok (), db')
    /\ shows (settings 200 (2 ^ 32)) (next_seq (state_ db')) (state_view (heap db') (state_ db')) (mkLog [] 0) db'
    /\ refused (state_ db') db' = false
    /\ key_dir (state_ db') = replay (active_file_id (state_ degraded_db)) (resume_entries (published_units ++ unpublished_units)) ∅
    /\ durable_seq (state_ db') = next_seq (state_ db') - 1.
Proof.
  destruct (run_refines (settings 200 (2 ^ 32)) 1 ∅ settings_fit (mkLog [] 0) _ _ (conj (empty_inv [Done; Done; Done; Done; Done; Fails 0] (fun _ => eq_refl)) (empty_room _)) degraded_run) as (l & _ & [I _]).
  destruct (resume_spec (settings 200 (2 ^ 32)) 1 ∅ settings_fit true (fun db => db) (committed l) (published l) degraded_db
    ltac:(by vm_compute) ltac:(by vm_compute) I ltac:(by vm_compute) ltac:(by vm_compute)) as (r & db' & E & _ & X).
  destruct (X ∅ published_units unpublished_units [] degraded_resumable) as [Hr Hok]. specialize (Hr ltac:(by vm_compute)). subst r.
  destruct (Hok eq_refl) as (H1 & H2 & H3 & _ & H5 & _). exists db'. split; [exact E|]. split; [exact H1|]. split; [exact H2|]. split; [exact H3|exact H5].
Defined.
End witness.
