(* ===== verification/VacuumCopy.v ===== *)
(** * What vacuum copies

    The loop over the committed entries of a source file: the staged file
    holds exactly the records that must be kept, in their order, and the scan
    result says where each live one went and what the copy holds. *)

From S2P Require Import Prelude Frames Codec KeyDir DataFile DataFileProofs FileScan EngineState EngineProofs Remap Hints Recovery RecoveryOpen Db Records StageProofs Vacuum.
Import Serialization Types Stats Dir Plan.

(** ** The entries kept *)

Section kept.
Context (nt : NeededTombstones) (snap : EngineState) (fid retain : Z).

Definition moved (p : DataEntry * Z) : bool :=
  bool_decide (de_type p.1 = Put) && is_live (key_dir snap) fid p.2 (de_key p.1).

(** What is appended for an entry, if anything. *)
Definition kept_of (p : DataEntry * Z) : option DataEntry :=
  let e := p.1 in
  match de_type e with
  | Put => if moved p || (retain <? de_sequence e) then Some e else None
  | Delete | RangeDel => if (de_sequence e <=? retain) && droppable nt (de_sequence e) then None else Some e
  | EChangeMarker => Some (mkDataEntry (de_sequence e) (de_type e) [] (de_value e))
  | BulkBegin | BulkEnd => Some (mkDataEntry (de_sequence e) (de_type e) [] [])
  | _ => None
  end.

Abbreviation kept := (omap kept_of).

(** The mapping of an entry copied to [off]. *)
Definition mapping_at (off : Z) (p : DataEntry * Z) : list VacuumMapping :=
  if moved p then [mkMapping (de_key p.1) off (de_sequence p.1) (size (de_value p.1))] else [].

(** The mappings of the entries of [ps], copied from [off] on. *)
Fixpoint mappings_of (off : Z) (ps : list (DataEntry * Z)) : list VacuumMapping :=
  match ps with
  | [] => []
  | p :: ps => mapping_at off p ++ mappings_of (off + DataFile.total_bytes (kept [p])) ps
  end.

Lemma kept_app ps ps' : kept (ps ++ ps') = kept ps ++ kept ps'.
Proof. apply omap_app. Qed.

Lemma mappings_of_app off ps ps' :
  mappings_of off (ps ++ ps') = mappings_of off ps ++ mappings_of (off + DataFile.total_bytes (kept ps)) ps'.
Proof.
  revert off. induction ps as [|p ps IH]; intros off; cbn [app mappings_of].
  - f_equal. unfold DataFile.total_bytes. cbn. rewrite lsum_nil. lia.
  - rewrite IH, <-app_assoc. do 3 f_equal. change (p :: ps) with ([p] ++ ps). rewrite kept_app, total_bytes_app. lia.
Qed.

Lemma moved_kept p : moved p = true -> kept_of p = Some p.1.
Proof.
  unfold kept_of. intros Hm. rewrite Hm. apply andb_true_iff in Hm as [->%bool_decide_eq_true_1 _]. done.
Qed.

(** A mapping is that of an entry copied as it is, behind what was kept before
    it. *)
Lemma mappings_of_elem off ps m :
  m ∈ mappings_of off ps <->
  exists pre p post, ps = pre ++ p :: post /\ moved p = true
    /\ m = mkMapping (de_key p.1) (off + DataFile.total_bytes (kept pre)) (de_sequence p.1) (size (de_value p.1)).
Proof.
  split.
  - revert off. induction ps as [|p ps IH]; intros off; cbn [mappings_of]; [by intros ?%not_elem_of_nil|].
    rewrite elem_of_app. intros [Hm|(pre & q & post & -> & Hq & ->)%IH].
    + unfold mapping_at in Hm. destruct (moved p) eqn:Hp; [|by apply not_elem_of_nil in Hm].
      apply list_elem_of_singleton in Hm as ->. exists [], p, ps. split_and!; [done..|]. f_equal. unfold DataFile.total_bytes. cbn. rewrite lsum_nil. lia.
    + exists (p :: pre), q, post. split_and!; [done..|]. f_equal. change (p :: pre) with ([p] ++ pre). rewrite kept_app, total_bytes_app. lia.
  - intros (pre & p & post & -> & Hp & ->). rewrite mappings_of_app. apply elem_of_app. right. cbn [mappings_of].
    apply elem_of_app. left. unfold mapping_at. rewrite Hp. by left.
Qed.

Lemma kept_elem ps pre p post x : ps = pre ++ p :: post -> kept_of p = Some x -> kept ps = kept pre ++ x :: kept post.
Proof. intros -> Hx. rewrite kept_app. cbn [omap list_omap]. by rewrite Hx. Qed.

(** Copying shrinks records, if anything. *)
Lemma kept_bytes p x : kept_of p = Some x -> DataEntry.record_bytes x <= DataEntry.record_bytes p.1.
Proof.
  unfold kept_of, DataEntry.record_bytes, size. destruct (de_type p.1); repeat case_match; intros [= <-]; cbn; lia.
Qed.

Lemma kept_total ps : DataFile.total_bytes (kept ps) <= DataFile.total_bytes ps.*1.
Proof.
  induction ps as [|p ps IH]; [done|]. change (p :: ps) with ([p] ++ ps) at 1. rewrite kept_app, total_bytes_app.
  change ((p :: ps).*1) with ([p.1] ++ ps.*1). rewrite total_bytes_app. enough (DataFile.total_bytes (kept [p]) <= DataFile.total_bytes [p.1]) by lia.
  unfold DataFile.total_bytes. cbn. pose proof (record_bytes_pos p.1). destruct (kept_of p) eqn:Hx; rewrite ?lsum_cons, ?lsum_nil; [|lia].
  apply kept_bytes in Hx. lia.
Qed.

Lemma kept_sweepable p x : sweepable p.1 -> kept_of p = Some x -> sweepable x.
Proof.
  intros [Hv Hs]. unfold kept_of. destruct (de_type p.1) eqn:Et; repeat case_match; intros [= <-]; try done; (split; [|done]);
    destruct Hv as [V1 V2 V3 V4 V5]; split; cbn; try done; rewrite ?Et; try done; intros _; by destruct (V5 Et).
Qed.

Lemma kept_type p x : kept_of p = Some x -> de_type x = de_type p.1.
Proof. unfold kept_of. destruct (de_type p.1) eqn:Et; repeat case_match; intros [= <-]; done. Qed.

(** ** Committed units stay units *)

Lemma kept_types (P : EntryType -> Prop) ps :
  Forall (fun e => P (de_type e)) ps.*1 -> Forall (fun e => P (de_type e)) (kept ps).
Proof.
  induction ps as [|p ps IH]; [done|]. cbn. intros [Hp Hps]%Forall_cons. destruct (kept_of p) eqn:Hx; [|by apply IH].
  constructor; [by rewrite (kept_type _ _ Hx)|by apply IH].
Qed.

Lemma kept_unit ps : unit_of ps.*1 -> kept ps = [] \/ unit_of (kept ps).
Proof.
  intros Hu. inversion Hu as [e He Hps|b es e Hb He Hes Hps].
  - destruct ps as [|p [|]]; try done. injection Hps as ->. cbn. destruct (kept_of p) as [x|] eqn:Hx; [right|by left].
    constructor. by rewrite (kept_type _ _ Hx).
  - right. destruct ps as [|p ps]; [done|]. injection Hps as -> Hps.
    assert (exists ps' q, ps = ps' ++ [q] /\ es = ps'.*1 /\ e = q.1) as (ps' & q & -> & -> & ->).
    { destruct ps as [|q ps' _] using rev_ind; [by destruct es|]. rewrite fmap_app in Hps. apply app_inj_tail in Hps as [-> ->]. by exists ps', q. }
    assert (Hk : forall r, de_type r.1 = BulkBegin \/ de_type r.1 = BulkEnd -> exists x, kept_of r = Some x /\ de_type x = de_type r.1).
    { intros r Hr. unfold kept_of. destruct Hr as [-> | ->]; by eexists. }
    destruct (Hk p ltac:(by left)) as (x & Hx & Tx). destruct (Hk q ltac:(by right)) as (y & Hy & Ty).
    cbn [omap list_omap]. rewrite Hx, kept_app. cbn [omap list_omap]. rewrite Hy. constructor; [congruence|congruence|].
    apply (kept_types (fun t => t <> BulkEnd /\ t <> EChangeMarker)). exact Hes.
Qed.

(** What is kept of units, swept from some offset, is units again. *)
Lemma kept_units off us :
  Forall unit_of us -> exists us', Forall unit_of us' /\ kept (with_offsets off (concat us)) = concat us'.
Proof.
  intros Hus. revert off. induction Hus as [|u us Hu _ IH]; intros off; [by exists []|].
  cbn [concat]. rewrite with_offsets_app, kept_app. destruct (IH (off + DataFile.total_bytes u)) as (us' & Hus' & ->).
  destruct (kept_unit (with_offsets off u)) as [->|Hk].
  - unfold with_offsets. rewrite fst_zip; [done|]. by rewrite length_offsets_from.
  - by exists us'.
  - exists (kept (with_offsets off u) :: us'). split; [by constructor|done].
Qed.
End kept.

(** ** The loop *)

(** Only the staging area and the loads of [cancel] changed. *)
Record aside (v v' : Vac) : Prop := {
  as_db : v_db v' = v_db v;
  as_others : v_others v' = v_others v;
  as_data : d_data (v_dir v') = d_data (v_dir v)
}.

Lemma aside_trans a b c : aside a b -> aside b c -> aside a c.
Proof. intros [] []. split; congruence. Qed.

#[export] Instance aside_preorder : PreOrder aside.
Proof. split; [by intros v; split|exact aside_trans]. Qed.

(** A statement that does not read what [aside] changes. *)
Definition closed_aside (W : Vac -> Prop) : Prop := forall v v', aside v v' -> W v -> W v'.

(** The statistics the commit takes from a scan. *)
Definition scan_stats (r : VacuumScanResult) : FileStats :=
  mkFileStats (vs_live_bytes r) (vs_total_bytes r) (vs_min_sequence r) (vs_max_sequence r)
    (vs_tombstone_bytes r) (vs_marker_bytes r) (vs_change_marker_bytes r).

Section loop.
Context `{Crc32cLaws} (nt : NeededTombstones) (snap : EngineState) (stem : string) (fid retain : Z).

Abbreviation kept := (omap (kept_of nt snap fid retain)).
Abbreviation mappings_of := (mappings_of nt snap fid retain).

(** The staged file and the scan result once the entries of [ps] are through. *)
Record copied (ps : list (DataEntry * Z)) (f : DataFile) (r : VacuumScanResult) : Prop := {
  cp_ok : file_ok f;
  cp_live : live f = images (kept ps);
  cp_failed : sync_failed f = false;
  cp_mappings : mappings r = mappings_of 0 ps;
  cp_live_bytes : vs_live_bytes r = wrap 64 (lsum mapping_size (mappings r));
  cp_total : vs_total_bytes r = wrap 64 (DataFile.total_bytes (kept ps));
  cp_fits : fs_fits (scan_stats r);
  cp_coherent : coherent (scan_stats r)
}.

Definition staged_as (ps : list (DataEntry * Z)) (r : VacuumScanResult) (v : Vac) : Prop :=
  exists f, d_data_tmp (v_dir v) !! stem = Some f /\ copied ps f r.

Lemma copied_end ps f r : copied ps f r -> logical_end f = DataFile.total_bytes (kept ps).
Proof. intros C. by rewrite <-(length_live f (cp_ok _ _ _ C)), (cp_live _ _ _ C), length_images. Qed.

(** An operation of the staged file. *)
Lemma on_staged_eq {A} (m : io FileIO A) f v :
  d_data_tmp (v_dir v) !! stem = Some f ->
  exists v', on_staged stem m v = ((m (mkFileIO f (d_oracle (v_dir v)))).1, v') /\ aside v v'
    /\ d_data_tmp (v_dir v') !! stem = Some (fio_file (m (mkFileIO f (d_oracle (v_dir v)))).2).
Proof.
  intros Hf. unfold on_staged, on_dir. rewrite Hf. destruct (m _) as [a s]. eexists. split; [done|]. split; [by split|]. apply lookup_insert_eq.
Qed.

(** What a counted entry does to a scan result. *)
Record counted_as (p : DataEntry * Z) (x : DataEntry) (off : Z) (r r' : VacuumScanResult) : Prop := {
  ct_mappings : mappings r' = mappings r ++ mapping_at snap fid off p;
  ct_live : vs_live_bytes r' = wrap 64 (vs_live_bytes r + lsum mapping_size (mapping_at snap fid off p));
  ct_total : vs_total_bytes r' = wrap 64 (vs_total_bytes r + DataEntry.record_bytes x);
  ct_fits : fs_fits (scan_stats r) -> fs_fits (scan_stats r');
  ct_coherent : coherent (scan_stats r) -> coherent (scan_stats r')
}.

Lemma copied_snoc ps p x f f' r r' :
  copied ps f r -> appended f f' [x] -> kept_of nt snap fid retain p = Some x -> counted_as p x (logical_end f) r r' ->
  copied (ps ++ [p]) f' r'.
Proof.
  intros C A Hx [M L T F Co]. pose proof (copied_end _ _ _ C) as He. destruct C as [C1 C2 C3 C4 C5 C6 C7 C8]. destruct A.
  assert (Hk : kept (ps ++ [p]) = kept ps ++ [x]) by (rewrite kept_app; cbn; by rewrite Hx).
  split; try done; rewrite ?Hk; auto.
  - by rewrite ap_live, C2, images_app.
  - congruence.
  - rewrite M, C4, mappings_of_app, He. cbn. by rewrite app_nil_r.
  - by rewrite L, M, lsum_app, C5, wrap_add_l.
  - rewrite T, C6, wrap_add_l, total_bytes_app. do 2 f_equal. unfold DataFile.total_bytes. rewrite lsum_cons, lsum_nil. lia.
Qed.

Lemma copied_skip ps p f r :
  copied ps f r -> kept_of nt snap fid retain p = None -> moved snap fid p = false -> copied (ps ++ [p]) f r.
Proof.
  intros [C1 C2 C3 C4 C5 C6 C7 C8] Hx Hm. assert (Hk : kept (ps ++ [p]) = kept ps) by (rewrite kept_app; cbn; by rewrite Hx, app_nil_r).
  split; try done; rewrite ?Hk; try done. rewrite C4, mappings_of_app. cbn. unfold mapping_at. by rewrite Hm, !app_nil_r.
Qed.

(** The counters of each kind of entry. *)
Lemma track_coherent seq r : 0 < seq -> coherent (scan_stats r) -> coherent (scan_stats (track_seq seq r)).
Proof.
  unfold coherent. cbn. intros Hs [[-> ->]|Hc]; right; [rewrite Z.eqb_refl; lia|]. rewrite (proj2 (Z.eqb_neq _ _)) by lia. lia.
Qed.

Lemma counted_track p x off r r' seq :
  0 < seq -> counted_as p x off r r' -> counted_as p x off r (track_seq seq r').
Proof.
  intros Hs [M L T F C]. split; try done; [|intros Hc; by apply track_coherent, C].
  intros (F1 & F2 & F3 & F4 & F5 & F6)%F. unfold fs_fits. cbn in *. split_and!; try done; [case_match; lia|lia].
Qed.

Lemma counted_live p off r :
  moved snap fid p = true ->
  counted_as p p.1 off r
    (count_live (mkMapping (de_key p.1) off (de_sequence p.1) (size (de_value p.1))) (entry_size (size (de_key p.1)) (size (de_value p.1))) r).
Proof.
  intros Hm. split; unfold mapping_at; rewrite ?Hm; try done.
  - cbn. f_equal. rewrite lsum_cons, lsum_nil. unfold mapping_size. cbn. lia.
  - intros (F1 & F2 & F3 & F4 & F5 & F6). unfold fs_fits. cbn in *. split_and!; try done. by apply wrap_fits.
Qed.

Lemma counted_other p x off r r' sz :
  moved snap fid p = false -> sz = DataEntry.record_bytes x -> mappings r' = mappings r -> vs_live_bytes r' = vs_live_bytes r ->
  fits 64 (vs_live_bytes r) -> vs_total_bytes r' = u64_add (vs_total_bytes r) sz ->
  vs_min_sequence r' = vs_min_sequence r -> vs_max_sequence r' = vs_max_sequence r ->
  (fs_fits (scan_stats r) -> fits 64 (vs_tombstone_bytes r') /\ fits 64 (vs_marker_bytes r') /\ fits 64 (vs_change_marker_bytes r')) ->
  counted_as p x off r r'.
Proof.
  intros Hm -> M L Fl T Mi Ma F. split; unfold mapping_at; rewrite ?Hm, ?app_nil_r; try done.
  - rewrite L, lsum_nil, Z.add_0_r. symmetry. by apply wrap_small.
  - intros Hf. destruct (F Hf) as (? & ? & ?). destruct Hf as (_ & _ & _ & _ & F5 & F6). unfold fs_fits. cbn in *. rewrite Mi, Ma, T.
    split_and!; try done. by apply wrap_fits.
  - unfold coherent. cbn. by rewrite Mi, Ma.
Qed.

(** The scan result after the entry of [p] was copied to [off], or left. *)
Definition count_of (p : DataEntry * Z) (off : Z) (r : VacuumScanResult) : VacuumScanResult :=
  let e := p.1 in
  let sz := entry_size (size (de_key e)) (size (de_value e)) in
  track_seq (de_sequence e)
    (if moved snap fid p then count_live (mkMapping (de_key e) off (de_sequence e) (size (de_value e))) sz r
     else match de_type e with
          | Delete | RangeDel => count_tombstone sz r
          | EChangeMarker => count_change_marker (entry_size 0 (size (de_value e))) r
          | BulkBegin | BulkEnd => count_marker (entry_size 0 0) r
          | _ => count_dead sz r
          end).

Definition skip_of (p : DataEntry * Z) (r : VacuumScanResult) : VacuumScanResult :=
  if bool_decide (de_type p.1 = Put) then r else count_dropped r.

Lemma emit_entry_eq p r v :
  DataEntry.valid_entry p.1 ->
  emit_entry nt snap stem fid retain p r v
  = match kept_of nt snap fid retain p with
    | Some x => (off ← on_staged stem (append_entry x); mret (count_of p off r)) v
    | None => (Ok (skip_of p r), v)
    end.
Proof.
  intros [_ Ht _ Hvs _]. destruct p as [[seq ty key val] off]. cbn [fst de_type de_value] in *.
  unfold emit_entry, kept_of, count_of, skip_of, moved. cbn [fst snd de_sequence de_type de_key de_value].
  destruct ty; try done; rewrite ?bool_decide_eq_true_2, ?bool_decide_eq_false_2 by done; cbn [andb].
  - destruct (is_live (key_dir snap) fid off key); cbn [orb].
    + unfold mbind, io_bind. destruct (on_staged stem _ v) as [[a|x] v']; [|done]. unfold lift. by rewrite (narrow_fits 32 _ Hvs).
    + by destruct (retain <? seq).
  - by destruct ((seq <=? retain) && droppable nt seq).
  - by destruct ((seq <=? retain) && droppable nt seq).
Qed.

Lemma count_of_counted p x off r :
  sweepable p.1 -> kept_of nt snap fid retain p = Some x -> fits 64 (vs_live_bytes r) -> counted_as p x off r (count_of p off r).
Proof.
  intros [Hv Hs0] Hx Hl. pose proof (DataEntry.ve_sequence _ Hv) as [Hs _]. apply counted_track; [lia|].
  destruct (moved snap fid p) eqn:Hm.
  { rewrite (moved_kept nt snap fid retain p Hm) in Hx. injection Hx as <-. by apply counted_live. }
  unfold kept_of in Hx. rewrite Hm in Hx.
  destruct (de_type p.1); repeat case_match; try discriminate; injection Hx as <-;
    (eapply counted_other; [done| |done..|intros (_ & F2 & F3 & F4 & _); cbn; split_and!; try done; by apply wrap_fits]);
    unfold entry_size, DataEntry.record_bytes; cbn; unfold size; cbn; lia.
Qed.

Context (W : Vac -> Prop) (HW : closed_aside W).

Lemma emit_entry_ensures ps p r :
  sweepable p.1 ->
  ensures (fun v => W v /\ staged_as ps r v) (emit_entry nt snap stem fid retain p r)
    (fun r' v => W v /\ staged_as (ps ++ [p]) r' v) W.
Proof.
  intros Hsw v (Hv & f & Hf & C). rewrite emit_entry_eq by apply Hsw. destruct (kept_of nt snap fid retain p) as [x|] eqn:Hx.
  - destruct (kept_sweepable _ _ _ _ _ _ Hsw Hx) as [[_ _ [_ Hk] [_ Hx2] _] _].
    destruct (on_staged_eq (append_entry x) f v Hf) as (v' & E' & A & Hf'). unfold mbind, io_bind. rewrite E'.
    destruct (append_entry_spec x (mkFileIO f (d_oracle (v_dir v))) (cp_ok _ _ _ C)) as (res & s & E & _ & R); [by split|].
    rewrite E in Hf' |- *. cbn [fst snd fio_file] in *. destruct res as [off|ex]; [|by eapply HW].
    destruct R as [-> R]. split; [by eapply HW|]. exists (fio_file s). split; [done|].
    eapply copied_snoc; try done. apply count_of_counted; [done|done|]. rewrite (cp_live_bytes _ _ _ C). by apply wrap_fits.
  - split; [done|]. exists f. split; [done|]. apply (copied_skip _ p) in C; [|done|].
    + unfold skip_of. case_bool_decide; [done|]. by destruct C.
    + destruct (moved snap fid p) eqn:Hm; [|done]. by rewrite (moved_kept nt _ _ retain _ Hm) in Hx.
Qed.

(** The reads an entry costs. *)
Lemma read_ensures ps r :
  ensures (fun v => W v /\ staged_as ps r v) (on_dir (disk_call "pread")) (fun _ v => W v /\ staged_as ps r v) W.
Proof.
  intros v (Hv & f & Hf & C). unfold on_dir, disk_call. assert (A : forall os, aside v (set_v_dir (set_disk_oracle os (v_dir v)) v)) by (by split).
  assert (E : set_v_dir (v_dir v) v = v) by by destruct v.
  destruct (d_oracle (v_dir v)) as [|[|n] os]; cbn [fst snd]; rewrite ?E; [split; [done|by exists f]| |by apply (HW v _ (A os))].
  split; [by apply (HW v _ (A os))|by exists f].
Qed.

(** The whole loop: the sweep is cancelled, throws, or everything was copied. *)
Lemma copy_entries_ensures ps' ps err r :
  Forall (fun p => sweepable p.1) ps' ->
  ensures (fun v => W v /\ staged_as ps r v) (copy_entries nt snap stem fid retain ps' err r)
    (fun r' v => W v /\ (cancelled r' = true \/ err = None /\ staged_as (ps ++ ps') r' v)) W.
Proof.
  revert ps r. induction ps' as [|p ps' IH]; intros ps r Hsw; cbn [copy_entries]; (eapply ensures_bind; [apply read_ensures|]); intros ?; cbn beta.
  - destruct err as [x|]; [by apply ensures_throw; intros v []|]. apply ensures_ret. intros v [Hv Hs]. rewrite app_nil_r. auto.
  - apply Forall_cons in Hsw as [Hp Hsw].
    apply (ensures_bind _ _ _ (fun _ v => W v /\ staged_as ps r v)).
    { intros v (Hv & f & Hf & C). unfold vacuum_cancelled. destruct (v_cancel v) as [|b bs]; (split; [|by exists f]); [done|].
      by apply (HW v). }
    intros [|].
    + apply ensures_ret. intros v [Hv _]. auto.
    + eapply ensures_bind; [by apply emit_entry_ensures|]. intros r'. replace (ps ++ p :: ps') with ((ps ++ [p]) ++ ps') by by rewrite <-app_assoc.
      by apply IH.
Qed.

End loop.
