(* ===== verification/VacuumCommit.v ===== *)
(** * Committing a compaction

    The key directory names records of committed units only, so the sweep of a
    sealed file finds every record it names there, and the scan vacuum copied
    from says of each live key where it went, whatever other threads did since.
    The state the commit publishes, with the keys moved or an empty file
    dropped, is well-formed and as durable as the one before. *)

From S2P Require Import Prelude Codec KeyDir DataFile DataFileProofs FileScan EngineState EngineProofs Remap Hints Recovery RecoveryOpen Db Commit Records StageProofs Faults DbInv FlushProofs RotationProofs GroupProofs ResumeProofs Vacuum VacuumCopy.
Import Serialization Types Stats Dir Plan.

(** ** Sealed files *)

Lemma value_size_bound e : 0 <= KeyDirEntry.value_size e <= KeyDirEntry.kMaxValueSize.
Proof.
  unfold KeyDirEntry.value_size, KeyDirEntry.kMaxValueSize. change 0xFFFFFFF with (Z.ones 28). rewrite Z.land_ones by lia.
  pose proof (Z.mod_pos_bound (Z.shiftr (KeyDirEntry.word1 e) 4) (2 ^ 28)). rewrite wrap_small by (unfold fits; lia). lia.
Qed.

Section sources.
Context `{Crc32cLaws}.

(** The entries of the sweep of a file of the heap. *)
Section sweep_of.
Context (h : gmap FileRef DataFile) (id : Z) (f : DataFile) (Hok : file_ok f) (Hf : h !! id = Some f).
Let ps := cs_entries (scan_committed f 0 DamageThrow).

Lemma swept_entries :
  exists us, ps = with_offsets 0 (concat us) /\ Forall unit_of us /\ Forall sweepable (concat us)
    /\ DataFile.total_bytes (concat us) <= logical_end f.
Proof.
  destruct (scan_committed_parses f Hok) as (us & rest & Hl & Hu & Hsw & _ & Hscan). exists us. destruct (Hscan DamageThrow) as [E _].
  split_and!; try done. rewrite <-(length_live f Hok), Hl, size_app, length_images. unfold size. lia.
Qed.

Lemma swept_sweepable : Forall (fun p => sweepable p.1) ps.
Proof.
  destruct swept_entries as (us & -> & _ & Hsw & _). apply (Forall_fmap fst sweepable). unfold with_offsets. rewrite fst_zip; [done|]. by rewrite length_offsets_from.
Qed.

Lemma swept_records p : p ∈ ps <-> recs_of h id p.2 = Some p.1.
Proof.
  rewrite (recs_of_swept h id f) by done. destruct (scan_committed_parses f Hok) as (us & _ & _ & _ & _ & _ & Hscan).
  unfold ps. destruct (Hscan DamageThrow) as [-> _], (Hscan DamageStop) as [-> _]. by destruct p.
Qed.

Lemma swept_nodup : NoDup ps.*2.
Proof. destruct swept_entries as (us & -> & _). apply with_offsets_nodup. Qed.
End sweep_of.
End sources.

(** ** The scan, when it is committed *)

(** A sealed file of the engine at some moment: registered and not the active
    file. *)
Record sealed_file `{Crc32c} (db : DB) (id : Z) (f : DataFile) : Prop := {
  sl_state : state_ok (heap db) (state_ db);
  sl_heap : heap_ok (heap db);
  sl_file : heap db !! id = Some f;
  sl_registered : is_Some (file_stats (state_ db) !! id);
  sl_sealed : id <> active_file_id (state_ db);
  sl_small : logical_end f <= 2 ^ 32
}.

Section scans.
Context `{Crc32cLaws} (nt : NeededTombstones) (retain : Z).
Context (db0 : DB) (old : Z) (f : DataFile) (S0 : sealed_file db0 old f).

Abbreviation snap := (state_ db0).
Abbreviation ps := (cs_entries (scan_committed f 0 DamageThrow)).
Abbreviation kept := (omap (kept_of nt snap old retain)).
Abbreviation mappings_of := (mappings_of nt snap old retain).

Lemma source_ok : file_ok f.
Proof. apply (sl_heap _ _ _ S0 old), S0. Qed.

Lemma old_below : 0 <= old < next_file_id snap.
Proof. apply (so_below _ _ (sl_state _ _ _ S0)), S0. Qed.

(** A key's record in the source. *)
Lemma source_record k e :
  key_dir snap !! k = Some e -> KeyDirEntry.file_id e = old ->
  exists v, recs_of (heap db0) old (KeyDirEntry.file_offset e) = Some (mkDataEntry (KeyDirEntry.sequence e) Put k v)
    /\ size v = KeyDirEntry.value_size e.
Proof.
  intros Hk Hid. destruct (wf_resolves _ _ (so_wf _ _ (sl_state _ _ _ S0)) k e Hk) as [_ (v & Hr & Hv)].
  exists v. by rewrite <-Hid.
Qed.

(** An entry that is moved is the record of its key. *)
Lemma moved_entry p :
  p ∈ ps -> moved snap old p = true ->
  exists e, key_dir snap !! de_key p.1 = Some e /\ KeyDirEntry.file_id e = old /\ KeyDirEntry.file_offset e = p.2
    /\ p.1 = mkDataEntry (KeyDirEntry.sequence e) Put (de_key p.1) (de_value p.1) /\ size (de_value p.1) = KeyDirEntry.value_size e.
Proof.
  intros Hp [_ Hl]%andb_true_iff. unfold is_live, kd_get in Hl. destruct (key_dir snap !! de_key p.1) as [e|] eqn:Hk; [|done].
  apply andb_true_iff in Hl as [Hid%Z.eqb_eq Ho%Z.eqb_eq]. exists e. split_and!; try done.
  - destruct (source_record _ _ Hk Hid) as (v & Hr & _). rewrite Ho, (proj1 (swept_records _ _ _ source_ok (sl_file _ _ _ S0) p) Hp) in Hr.
    injection Hr as Hr. rewrite Hr. cbn. congruence.
  - destruct (source_record _ _ Hk Hid) as (v & Hr & Hv). rewrite Ho, (proj1 (swept_records _ _ _ source_ok (sl_file _ _ _ S0) p) Hp) in Hr.
    injection Hr as Hr. by rewrite Hr.
Qed.

(** A key of the source is moved. *)
Lemma key_moved k e :
  key_dir snap !! k = Some e -> KeyDirEntry.file_id e = old ->
  exists p, p ∈ ps /\ moved snap old p = true /\ de_key p.1 = k /\ de_sequence p.1 = KeyDirEntry.sequence e.
Proof.
  intros Hk Hid. destruct (source_record k e Hk Hid) as (v & Hr & _). exists (mkDataEntry (KeyDirEntry.sequence e) Put k v, KeyDirEntry.file_offset e).
  split; [by apply (swept_records (heap db0) old f source_ok (sl_file _ _ _ S0))|]. split_and!; try done.
  unfold moved, is_live, kd_get. cbn. by rewrite Hk, Hid, !Z.eqb_refl.
Qed.

(** Later keys of the source were there already. *)
Lemma source_key db k e :
  evolved db0 db -> key_dir (state_ db) !! k = Some e -> KeyDirEntry.file_id e = old -> key_dir snap !! k = Some e.
Proof.
  intros Ev Hk Hid. destruct (ev_keys _ _ Ev k e Hk) as [?|[[Hf|Hf] _]]; [done|..].
  - by destruct (sl_sealed _ _ _ S0); congruence.
  - pose proof old_below. lia.
Qed.

Lemma source_kept db :
  evolved db0 db -> exists f', heap db !! old = Some f' /\ path f' = path f /\ live f `prefix_of` live f'.
Proof.
  intros Ev. destruct (ev_heap _ _ Ev old f) as (f' & Hf' & Hp & _ & Hc & _); [apply old_below|apply S0|]. by exists f'.
Qed.

(** A copy is no larger than its source. *)
Lemma kept_bound : 0 <= DataFile.total_bytes (kept ps) <= 2 ^ 32.
Proof.
  destruct (swept_entries f source_ok) as (us & E & _ & _ & Hle). pose proof (sl_small _ _ _ S0) as Hsz.
  pose proof (kept_total nt snap old retain ps) as Hk. pose proof (total_bytes_nonneg (kept ps)).
  assert (ps.*1 = concat us) as Hfst by (rewrite E; unfold with_offsets; rewrite fst_zip; [done|by rewrite length_offsets_from]).
  rewrite Hfst in Hk. lia.
Qed.

(** A file that holds what was kept holds it in whole units. *)
Lemma copy_units g : live g = images (kept ps) -> exists us, starts_with g us /\ concat us = kept ps.
Proof.
  intros Hl. destruct (swept_entries f source_ok) as (us & E & Hu & _ & _).
  destruct (kept_units nt snap old retain 0 us Hu) as (us' & Hu' & Hk). rewrite <-E in Hk. exists us'. split; [|done].
  split; [done| |by rewrite Hl, Hk]. rewrite <-Hk. pose proof (swept_sweepable f source_ok) as Hall. clear -Hall.
  induction Hall as [|p l Hp _ IH]; [done|]. cbn. destruct (kept_of nt snap old retain p) as [x|] eqn:Hx; [|done].
  constructor; [by eapply kept_sweepable|done].
Qed.

(** The copy of a moved entry, in a file that holds what was kept. *)
Lemma moved_copy (h : gmap FileRef DataFile) dest g pre p post :
  h !! dest = Some g -> file_ok g -> live g = images (kept ps) -> ps = pre ++ p :: post -> moved snap old p = true ->
  recs_of h dest (DataFile.total_bytes (kept pre)) = Some p.1.
Proof.
  intros Hg Hok Hl Hps Hm. pose proof (moved_kept nt snap old retain p Hm) as Hx.
  destruct (copy_units g Hl) as (us & Hs & Hus). apply (recs_of_spec h dest g _ _ Hok Hg). exists us, (kept pre), (kept post).
  split_and!; [done| |done]. by rewrite Hus, (kept_elem nt snap old retain ps pre p post p.1 Hps Hx).
Qed.

(** It lies no later than the entry did. *)
Lemma moved_offset pre p post :
  ps = pre ++ p :: post -> 0 <= DataFile.total_bytes (kept pre) <= p.2 /\ p.2 <= KeyDirEntry.kMaxFileOffset.
Proof.
  intros Hps. destruct (swept_entries f source_ok) as (us & E & _).
  assert (Hp : p ∈ ps) by (rewrite Hps, elem_of_app, elem_of_cons; auto).
  apply (swept_records (heap db0) old f source_ok (sl_file _ _ _ S0)), (recs_of_below _ _ f) in Hp as [_ Hb]; [|apply source_ok|apply S0].
  pose proof (record_bytes_pos p.1). pose proof (sl_small _ _ _ S0). rewrite E in Hps. apply with_offsets_split in Hps as [Ho _].
  pose proof (kept_total nt snap old retain pre). pose proof (total_bytes_nonneg (kept pre)). unfold KeyDirEntry.kMaxFileOffset. lia.
Qed.

Lemma mappings_nodup : NoDup (vm_key <$> mappings_of 0 ps).
Proof.
  enough (Hgen : forall l off, NoDup l.*2 -> Forall (fun p => p ∈ ps) l -> NoDup (vm_key <$> mappings_of off l)).
  { apply Hgen; [apply swept_nodup, source_ok|by apply Forall_forall]. }
  induction l as [|p l IH]; intros off Hnd Hall; [constructor|].
  cbn in Hnd. apply NoDup_cons in Hnd as [Hnin Hnd]. apply Forall_cons in Hall as [Hp Hall]. cbn [VacuumCopy.mappings_of]. rewrite fmap_app.
  apply NoDup_app. split_and!; [unfold mapping_at; case_match; cbn; [apply NoDup_singleton|constructor]| |by apply IH].
  intros k Hk (m & -> & Hm)%list_elem_of_fmap. unfold mapping_at in Hk. destruct (moved snap old p) eqn:Hmv; [|by apply not_elem_of_nil in Hk].
  apply list_elem_of_singleton in Hk. cbn in Hk. apply mappings_of_elem in Hm as (pre & q & post & -> & Hq & ->). cbn in Hk.
  assert (Hqin : q ∈ ps) by (rewrite Forall_forall in Hall; apply Hall; rewrite elem_of_app, elem_of_cons; auto).
  destruct (moved_entry p Hp Hmv) as (e & He & _ & Ho & _). destruct (moved_entry q Hqin Hq) as (e' & He' & _ & Ho' & _).
  apply Hnin. rewrite <-Ho. assert (e' = e) as -> by congruence. rewrite Ho'. apply list_elem_of_fmap. exists q.
  rewrite elem_of_app, elem_of_cons. auto.
Qed.

(** The source is still registered and sealed. *)
Lemma source_sealed db :
  evolved db0 db -> state_ok (heap db) (state_ db) ->
  is_Some (file_stats (state_ db) !! old) /\ old <> active_file_id (state_ db).
Proof.
  intros Ev Hs. pose proof old_below as Hb. pose proof (sl_sealed _ _ _ S0) as Ha. split.
  - destruct (sl_registered _ _ _ S0) as [fs Hfs]. apply (so_files _ _ Hs old old).
    rewrite (ev_files _ _ Ev old) by (done || lia). apply (so_files _ _ (sl_state _ _ _ S0)). by rewrite Hfs.
  - destruct (ev_active _ _ Ev); lia.
Qed.

Section commit.
Context (db : DB) (dest : Z) (g stg : DataFile) (scan : VacuumScanResult).
Context (Ev : evolved db0 db) (Hok : heap_ok (heap db)) (Hs : state_ok (heap db) (state_ db)).
Context (Hg : heap db !! dest = Some g) (Hl : live g = images (kept ps)) (C : copied nt snap old retain ps stg scan).
Context (Hid : 0 <= dest <= KeyDirEntry.kMaxFileId) (Hnew : file_stats (state_ db) !! dest = None).

Lemma old_ne_dest : old <> dest.
Proof. destruct (source_sealed db Ev Hs) as [[fs Hfs] _]. congruence. Qed.

Lemma copied_mapping_ok m :
  m ∈ mappings scan -> mapping_ok (recs_of (heap db)) old dest (key_dir (state_ db)) m.
Proof.
  rewrite (cp_mappings _ _ _ _ _ _ _ C). intros (pre & p & post & Hps & Hm & ->)%mappings_of_elem.
  assert (Hp : p ∈ ps) by (rewrite Hps, elem_of_app, elem_of_cons; auto).
  destruct (moved_entry p Hp Hm) as (e & Hk & Hf & Ho & Hpe & Hv). pose proof (moved_offset pre p post Hps) as [Hoff Hmax].
  pose proof (wf_seq _ _ (so_wf _ _ (sl_state _ _ _ S0)) _ e Hk) as Hseq. cbn in Hseq. pose proof (so_seq _ _ (sl_state _ _ _ S0)) as Hsm.
  assert (Hsq : de_sequence p.1 = KeyDirEntry.sequence e) by (by rewrite Hpe).
  assert (Hrec : recs_of (heap db) old p.2 = Some p.1).
  { destruct (source_kept db Ev) as (f' & Hf' & _ & Hp').
    apply (recs_of_grown (heap db0) (heap db) old f f'); [apply source_ok|by apply (Hok old)|apply S0|done|done|].
    by apply (swept_records (heap db0) old f source_ok (sl_file _ _ _ S0)). }
  split; cbn [vm_sequence new_offset vm_value_size vm_key].
  - pose proof (value_size_bound e). rewrite Hsq, Hv. lia.
  - exists (de_value p.1). rewrite Z.add_0_l. split_and!; [|done|].
    + rewrite (moved_copy (heap db) dest g pre p post); try done; [|by apply (Hok dest)]. by rewrite Hpe at 1; rewrite Hsq.
    + intros cur Hc Hcs. assert (cur = e) as ->.
      { destruct (ev_keys _ _ Ev _ _ Hc) as [Hc0|[_ Hge]]; [congruence|]. rewrite Hcs, Hsq in Hge. cbn in Hge. lia. }
      split; [done|]. unfold value_of. by rewrite Hf, Ho, Hrec, Hpe.
Qed.

Lemma copied_scan_of : scan_of (recs_of (heap db)) (transient (state_ db)) old dest scan.
Proof.
  split; cbn.
  - split; [apply old_ne_dest|done].
  - by apply source_sealed.
  - done.
  - apply Forall_forall. intros m. apply copied_mapping_ok.
  - rewrite (cp_mappings _ _ _ _ _ _ _ C). apply mappings_nodup.
  - intros k e Hk Hf. pose proof (source_key db k e Ev Hk Hf) as Hk0. destruct (key_moved k e Hk0 Hf) as (p & Hp & Hm & Hkey & Hsq).
    apply list_elem_of_split in Hp as (pre & post & Hps). eexists. split.
    + rewrite (cp_mappings _ _ _ _ _ _ _ C). apply mappings_of_elem. by exists pre, p, post.
    + done.
  - apply C.
  - apply C.
Qed.

Lemma copy_size : vs_total_bytes scan = logical_end g /\ logical_end g <= 2 ^ 32.
Proof.
  pose proof kept_bound as Hb.
  assert (logical_end g = DataFile.total_bytes (kept ps)) as ->
    by (by rewrite <-(length_live g (Hok _ _ Hg)), Hl, length_images).
  rewrite (cp_total _ _ _ _ _ _ _ C), wrap_small by (unfold fits; lia). lia.
Qed.

Context (Hnext : dest < next_file_id (state_ db)) (kd' : KeyDirTree) (live_ : Z).

Abbreviation after := (persistent (vacuumed old dest scan dest kd' live_ (transient (state_ db)))).

Context (W : wf (recs_of (heap db)) (vacuumed old dest scan dest kd' live_ (transient (state_ db)))).
Context (R : remapped (recs_of (heap db)) old dest (mappings scan) (key_dir (state_ db)) kd').

(** A key of the new state is where it was, or in the copy. *)
Lemma after_key k e :
  kd' !! k = Some e ->
  key_dir (state_ db) !! k = Some e /\ KeyDirEntry.file_id e <> dest
  \/ KeyDirEntry.file_id e = dest /\ entry_end k e <= logical_end g.
Proof.
  intros Hk. destruct (rm_where _ _ _ _ _ _ R k e Hk) as [(m & Hm & Hkey & [Fs Fo Ff Fv])|[Hk0 _]]; [right|left].
  - split; [done|]. pose proof (rm_resolves _ _ _ _ _ _ R k e Hk) as Hres. eapply entry_end_within; [|exact Hres|exact Ff].
    by apply recs_of_within; [apply (Hok dest)|].
  - split; [done|]. intros Hf. destruct (wf_files _ _ (so_wf _ _ Hs) k e Hk0) as [fs Hfs]. cbn in Hfs. rewrite Hf in Hfs. congruence.
Qed.

Lemma after_ok : state_ok (heap db) after.
Proof.
  pose proof old_ne_dest as Hne. destruct (source_sealed db Ev Hs) as [Hreg Hact]. destruct Hs as [S1 S2 S3 S4 S5 S6 S7 S8 S9 S10].
  assert (Had : active_file_id (state_ db) <> dest) by (intros E; rewrite E in *; destruct (wf_active _ _ S1) as [? Ha]; cbn in Ha; congruence).
  split; cbn [vacuumed persistent transient set_file_stats set_files set_key_dir key_dir files file_stats active_file_id next_file_id next_seq change_markers
    t_key_dir t_files t_file_stats t_active_file_id t_next_file_id t_next_seq t_change_markers]; try done.
  - by rewrite lookup_delete_ne, lookup_insert_ne.
  - intros id r. destruct (decide (id = old)) as [->|Ho]; [rewrite lookup_delete_eq, lookup_insert_ne, lookup_delete_eq by done|].
    { split; [done|]. by intros [_ [? ?]]. }
    rewrite lookup_delete_ne by done. destruct (decide (id = dest)) as [->|Hd]; [rewrite !lookup_insert_eq; naive_solver|].
    rewrite !lookup_insert_ne, lookup_delete_ne by done. apply S6.
  - intros id. destruct (decide (id = dest)) as [->|Hd]; [intros _; lia|]. rewrite lookup_insert_ne by done.
    intros [_ Hi]%lookup_delete_is_Some. by apply S7.
  - apply map_Forall_insert_2; [apply (cp_coherent _ _ _ _ _ _ _ C)|by apply map_Forall_delete].
  - intros k e fs Hk Hfs. destruct (after_key k e Hk) as [[Hk0 Hd]|[Hd Hend]].
    + rewrite lookup_insert_ne in Hfs by done. apply lookup_delete_Some in Hfs as [_ Hfs]. by apply (S9 k e fs).
    + rewrite Hd, lookup_insert_eq in Hfs. injection Hfs as <-. cbn. by rewrite (proj1 copy_size).
Qed.

Lemma after_durable d :
  durable_to (heap db) (state_ db) d -> logical_end g <= synced_end g -> durable_to (heap db) after d.
Proof.
  intros Hd Hsy k e Hk Hc. cbn in Hk, Hc. destruct (after_key k e Hk) as [[Hk0 _]|[Hf Hend]]; [by apply Hd|].
  exists g. rewrite Hf. split; [done|lia].
Qed.

End commit.

End scans.

(** ** Dropping a file nothing names *)

Definition dropped (old : Z) (t : TransientEngineState) : TransientEngineState :=
  set_file_stats (delete old (t_file_stats t)) (set_files (delete old (t_files t)) t).

Lemma apply_vacuum_drops `{KeyDirKind} old t : apply_vacuum old VacuumScanResult_zero None 0 t = Ok (dropped old t).
Proof. done. Qed.

Lemma dropped_ok `{Crc32cLaws} h s old :
  state_ok h s -> old <> active_file_id s -> (forall k e, key_dir s !! k = Some e -> KeyDirEntry.file_id e <> old) ->
  state_ok h (persistent (dropped old (transient s))).
Proof.
  intros [S1 S2 S3 S4 S5 S6 S7 S8 S9 S10] Ha Hno. split; cbn; try done.
  - destruct S1 as [W1 W2 W3 W4 W5 W6 W7 W8 W9]. split; cbn in *; try done.
    + intros id fs [_ Hfs]%lookup_delete_Some. by apply W2.
    + by apply map_Forall_delete.
    + intros k e Hk. apply lookup_delete_is_Some. split; [apply not_eq_sym; by eapply Hno|by eapply W4].
    + by apply lookup_delete_is_Some.
  - by rewrite lookup_delete_ne.
  - intros id r. destruct (decide (id = old)) as [->|]; [rewrite !lookup_delete_eq; split; [done|]; by intros [_ [? ?]]|].
    rewrite !lookup_delete_ne by done. apply S6.
  - intros id [_ Hi]%lookup_delete_is_Some. by apply S7.
  - by apply map_Forall_delete.
  - intros k e fs Hk [_ Hfs]%lookup_delete_Some. by apply (S9 k e fs).
Qed.

Lemma live_weight_nonneg f k e : 0 <= live_weight f k e.
Proof.
  unfold live_weight, entry_size, size. pose proof (value_size_bound e). case_match; lia.
Qed.

Lemma live_sum_delete (f : Z) (kd : KeyDirTree) k e : kd !! k = Some e -> live_sum f kd = live_weight f k e + live_sum f (delete k kd).
Proof. intros Hk. unfold live_sum. rewrite map_sum_delete. unfold contrib. rewrite Hk. lia. Qed.

Lemma live_sum_nonneg f kd : 0 <= live_sum f kd.
Proof.
  unfold live_sum, map_sum. apply lsum_nonneg. intros [k e] _. apply live_weight_nonneg.
Qed.

(** Keys at different records of a file take no more than the records. *)
Lemma live_sum_bound (f : Z) (kd : KeyDirTree) (l : list (DataEntry * Z)) :
  (forall (k : bytes) e, kd !! k = Some e -> KeyDirEntry.file_id e = f ->
     exists p, p ∈ l /\ de_key p.1 = k /\ DataEntry.record_bytes p.1 = entry_size (size k) (KeyDirEntry.value_size e)) ->
  live_sum f kd <= DataFile.total_bytes l.*1.
Proof.
  revert kd. induction l as [|p l IH]; intros kd Hl.
  - rewrite live_sum_none; [done|]. intros k e Hk Hf. by destruct (Hl k e Hk Hf) as (p & ?%not_elem_of_nil & _).
  - cbn [fmap list_fmap]. unfold DataFile.total_bytes. rewrite lsum_cons. fold (DataFile.total_bytes l.*1). pose proof (record_bytes_pos p.1).
    destruct (kd !! de_key p.1) as [e|] eqn:Hk.
    + destruct (decide (KeyDirEntry.file_id e = f /\ DataEntry.record_bytes p.1 = entry_size (size (de_key p.1)) (KeyDirEntry.value_size e))) as [[Hf Hr]|Hn].
      * rewrite (live_sum_delete f kd _ e Hk). unfold live_weight. rewrite Hf, Z.eqb_refl, <-Hr. apply Z.add_le_mono_l, IH.
        intros k e' [Hne Hk']%lookup_delete_Some Hf'. destruct (Hl k e' Hk' Hf') as (q & [->|Hq]%elem_of_cons & Hqk & Hqr); [done|]. by exists q.
      * enough (live_sum f kd <= DataFile.total_bytes l.*1) by lia. apply IH. intros k e' Hk' Hf'.
        destruct (Hl k e' Hk' Hf') as (q & [->|Hq]%elem_of_cons & Hqk & Hqr); [|by exists q]. subst k. simplify_eq. tauto.
    + enough (live_sum f kd <= DataFile.total_bytes l.*1) by lia. apply IH. intros k e' Hk' Hf'.
      destruct (Hl k e' Hk' Hf') as (q & [->|Hq]%elem_of_cons & Hqk & Hqr); [congruence|by exists q].
Qed.

Section empty_sources.
Context `{Crc32cLaws} (db0 : DB) (old : Z) (f : DataFile) (S0 : sealed_file db0 old f).

(** No live bytes, no key. *)
Lemma no_live_no_key fs k e :
  file_stats (state_ db0) !! old = Some fs -> live_bytes fs = 0 -> key_dir (state_ db0) !! k = Some e -> KeyDirEntry.file_id e <> old.
Proof.
  intros Hfs Hl Hk Hf. pose proof (wf_live _ _ (so_wf _ _ (sl_state _ _ _ S0)) old fs Hfs) as Hw. cbn in Hw. rewrite Hl in Hw.
  assert (Hb : live_sum old (key_dir (state_ db0)) <= logical_end f).
  { destruct (swept_entries f (source_ok _ _ _ S0)) as (us & E & _ & _ & Hle). etrans; [|exact Hle].
    assert ((cs_entries (scan_committed f 0 DamageThrow)).*1 = concat us) as <-
      by (rewrite E; unfold with_offsets; rewrite fst_zip; [done|by rewrite length_offsets_from]).
    apply live_sum_bound. intros k' e' Hk' Hf'. destruct (key_moved _ _ _ S0 k' e' Hk' Hf') as (p & Hp & Hm & Hkey & _).
    exists p. split_and!; [done|done|]. destruct (moved_entry _ _ _ S0 p Hp Hm) as (e2 & He2 & _ & _ & _ & Hv).
    rewrite Hkey in He2. assert (e2 = e') as -> by congruence. unfold DataEntry.record_bytes, entry_size. rewrite Hkey, Hv. lia. }
  pose proof (sl_small _ _ _ S0). pose proof (live_sum_nonneg old (key_dir (state_ db0))).
  rewrite wrap_small in Hw by (unfold fits; lia). rewrite (live_sum_delete _ _ _ _ Hk) in Hw.
  pose proof (live_sum_nonneg old (delete k (key_dir (state_ db0)))). unfold live_weight in Hw. rewrite Hf, Z.eqb_refl in Hw.
  unfold entry_size, size in Hw. pose proof (value_size_bound e). unfold DataEntry.kHeaderSize, DataEntry.kCrcSize in Hw. lia.
Qed.

(** Nothing kept, no key. *)
Lemma nothing_kept_no_key nt retain k e :
  omap (kept_of nt (state_ db0) old retain) (cs_entries (scan_committed f 0 DamageThrow)) = [] ->
  key_dir (state_ db0) !! k = Some e -> KeyDirEntry.file_id e <> old.
Proof.
  intros Hnil Hk Hf. destruct (key_moved _ _ _ S0 k e Hk Hf) as (p & Hp & Hm & _).
  apply list_elem_of_split in Hp as (pre & post & Hps).
  rewrite (kept_elem nt (state_ db0) old retain _ pre p post p.1 Hps (moved_kept _ _ _ _ _ Hm)) in Hnil. by destruct (omap _ pre).
Qed.
End empty_sources.
