(* ===== verification/VacuumEngine.v ===== *)
(** * The steps of vacuum that change the engine

    The engine with its directory: its invariant, and a name for every file.
    Each step vacuum
    takes under the write barrier keeps it: reserving the destination, opening
    the copy, and the commit that moves the keys or drops an empty file,
    whether or not the sync the commit may need succeeds. *)

From S2P Require Import Prelude Codec KeyDir DataFile DataFileProofs FileScan EngineState EngineProofs Remap Hints Recovery RecoveryOpen Db Commit Records StageProofs Faults DbInv StateChecks FlushProofs RotationProofs GroupProofs CommitProofs WritePath EngineSteps ResumeProofs Vacuum VacuumCopy VacuumCommit.
Import Serialization Types Stats Dir Plan.

(** ** Publishing under the barrier *)

Section settled.
Context `{Crc32cLaws} `{Apart : FaultSpacing} (cfg : Settings) (next0 : Z) (v0 : gmap bytes bytes).

Abbreviation accepting db := (refused (state_ db) db = false).

(** The flush role is held: the whole log is published, or writes are
    refused. *)
Record settled (ls : group_log) (n : nat) (db : DB) : Prop := {
  se_shows : shows cfg next0 v0 (mkLog ls n) db;
  se_free : in_flight db = None;
  se_all : refused (state_ db) db = true \/ n = length ls
}.

Lemma state_view_same h s s' : key_dir s' = key_dir s -> state_view h s' = state_view h s.
Proof. intros E. unfold state_view. by rewrite E. Qed.

(** A state that shows the same was published, and the head reset to it. *)
Record republished (db db' : DB) : Prop := {
  rp_head : head_ db' = state_ db';
  rp_free : in_flight db' = None;
  rp_oracle : oracle db' `suffix_of` oracle db;
  rp_heap : heap_ok (heap db');
  rp_state : state_ok (heap db') (state_ db');
  rp_view : state_view (heap db') (state_ db') = state_view (heap db) (state_ db);
  rp_next : next_seq (state_ db') = next_seq (state_ db);
  rp_owed : 0 <= sync_requested_seq (state_ db') /\ sync_requested_seq (state_ db') <= durable_seq (state_ db') < next_seq (state_ db');
  rp_durable : faults_apart -> durable_to (heap db') (state_ db') (durable_seq (state_ db'));
  rp_accepts : accepting db' -> accepting db /\ flush_error db' = flush_error db
    /\ active_file_id (state_ db') = active_file_id (state_ db)
    /\ file_stats (state_ db') !! active_file_id (state_ db) = file_stats (state_ db) !! active_file_id (state_ db)
    /\ (forall f', heap db' !! active_file_id (state_ db) = Some f' ->
          exists f, heap db !! active_file_id (state_ db) = Some f /\ live f' = live f /\ logical_end f' = logical_end f /\ sync_failed f' = sync_failed f)
    /\ (heap_fresh (heap db) (next_file_id (state_ db)) -> heap_fresh (heap db') (next_file_id (state_ db')))
}.

Lemma settled_republished ls n db db' : settled ls n db -> republished db db' -> settled ls n db'.
Proof.
  intros [[I Hroom] _ Hall] [R1 R2 R3 R4 R5 R6 R7 R8 R9 R10]. cbn [committed published] in I.
  assert (Hall' : refused (state_ db') db' = true \/ n = length ls).
  { destruct (refused (state_ db') db') eqn:Hno; [by left|right]. destruct (R10 eq_refl) as [Ha _]. destruct Hall; [congruence|done]. }
  assert (Hacc : accepting db' -> n = length ls /\ head_ok next0 v0 ls n db).
  { intros Ha. destruct (R10 Ha) as [Ha0 _]. destruct Hall as [?|?]; [congruence|]. split; [done|by apply (iv_accepts _ _ _ _ _ I)]. }
  split; [split; cbn [committed published]|done|done].
  - destruct I as [I1 I2 I3 I4 I5 I6 I7 I8 I9 I10 I11]. split; try done; [by rewrite R6|by rewrite R7| |intros Hap; by eapply no_double_fault_suffix, I11].
    intros Ha. destruct (Hacc Ha) as [Hn [X1 X2 X3 X4 X5 X6 X7 X8 X9 X10 X11 X12 X13 X14]]. destruct (R10 Ha) as (_ & He & Eact & _ & Hf & Hfr).
    destruct X2 as [Sa Sn _ _ _ _ _]. subst n. rewrite (take_ge ls (length ls)) in I5, I6 by lia.
    split; rewrite ?R1, ?R2; try done; [by rewrite R6|by rewrite R7|lia| |apply Hfr; by rewrite <-Sn|by rewrite He|apply advanced_refl].
    intros Hap f' Hf'. rewrite Eact in Hf'. destruct (Hf f' Hf') as (f & Hff & _ & _ & ->). apply X9; [done|]. by rewrite Sa.
  - intros Ha f' Hf'. destruct (Hacc Ha) as [Hn Hh]. destruct (R10 Ha) as (Ha0 & _ & Eact & Est & Hf & _).
    rewrite R1, Eact in Hf'. rewrite R1, Eact, Est. destruct (Hf f' Hf') as (f & Hff & Hlv & -> & _).
    pose proof (sf_active _ _ (hk_same _ _ _ _ _ Hh)) as Sa.
    assert (Hst : file_stats (state_ db) = file_stats (head_ db)).
    { apply (hk_stats _ _ _ _ _ Hh). by rewrite (iv_next _ _ _ _ _ I), (hk_next _ _ _ _ _ Hh), Hn, take_ge by lia. }
    rewrite Hst, <-Sa. destruct (Hroom Ha0 f) as (? & ? & ?); [by rewrite Sa|]. split_and!; [done|by apply (framed_same f)|done].
Qed.

(** Giving the role back with nothing published. *)
Lemma settled_released ls n db : settled ls n db -> settled ls n (set_head (state_ db) db).
Proof.
  intros S. apply (settled_republished ls n db); [done|]. destruct S as [[I _] Hf _]. destruct I.
  split; cbn; try done. intros Ha. split_and!; try done. intros f Hff. by exists f.
Qed.
End settled.

(** ** The engine and its directory *)

Section engine.
Context `{Crc32cLaws} `{KeyDirKind} `{Apart : FaultSpacing} (cfg : Settings) (next0 : Z) (v0 : gmap bytes bytes).

Abbreviation settled := (settled cfg next0 v0).
Abbreviation accepting db := (refused (state_ db) db = false).
Abbreviation registered db id := (is_Some (file_stats (state_ db) !! id)).

(** Every file the published state names has its own name in the directory. *)
Record linked (db : DB) (d : Disk) : Prop := {
  lk_named : forall id, registered db id -> exists f, heap db !! id = Some f /\ is_Some (d_data d !! path f);
  lk_paths : forall id id' f f', registered db id -> registered db id' -> heap db !! id = Some f -> heap db !! id' = Some f' ->
    path f = path f' -> id = id'
}.

(** The engine after the groups of [ls], the first [n] of them published: its
    invariant, files a key directory can address, and a name in the directory
    for each. *)
Record engine (ls : group_log) (n : nat) (db : DB) (d : Disk) : Prop := {
  en_shows : shows cfg next0 v0 (mkLog ls n) db;
  en_small : heap_small (heap db);
  en_linked : linked db d
}.

Lemma engine_inv ls n db d : engine ls n db d -> inv next0 v0 ls n db.
Proof. intros []. by destruct en_shows0. Qed.

Lemma registered_files h s id : state_ok h s -> is_Some (file_stats s !! id) <-> files s !! id = Some id.
Proof. intros Hs. rewrite (so_files _ _ Hs). tauto. Qed.

(** Same files, under their names. *)
Record files_kept (db db' : DB) : Prop := {
  fk_files : files (state_ db') = files (state_ db);
  fk_heap : forall id f, registered db id -> heap db !! id = Some f -> exists f', heap db' !! id = Some f' /\ path f' = path f;
  fk_small : heap_small (heap db) -> heap_small (heap db')
}.

Lemma files_kept_unmoved db db' : files (state_ db') = files (state_ db) -> unmoved (heap db) (heap db') -> files_kept db db'.
Proof.
  intros Hf Hum. split; [done| |by apply unmoved_small]. intros id f _ Hi. destruct (um_same _ _ Hum id f Hi) as (f' & ? & _ & _ & ?). by exists f'.
Qed.

Lemma engine_kept ls n ls' n' db db' d :
  engine ls n db d -> files_kept db db' -> shows cfg next0 v0 (mkLog ls' n') db' -> engine ls' n' db' d.
Proof.
  intros [[I _] Hsm Hlk] [F1 F4 F5] S'. pose proof (iv_state _ _ _ _ _ I) as Hs. pose proof (iv_state _ _ _ _ _ (proj1 S')) as Hs'. cbn in Hs, Hs'.
  assert (Hreg : forall id, registered db' id <-> registered db id).
  { intros id. by rewrite (registered_files _ _ _ Hs), (registered_files _ _ _ Hs'), F1. }
  assert (Hobj : forall id f', registered db' id -> heap db' !! id = Some f' -> exists f, heap db !! id = Some f /\ path f' = path f).
  { intros id f' Hr Hf'. apply Hreg in Hr. destruct (lk_named _ _ Hlk id Hr) as (f & Hf & _). exists f. split; [done|].
    destruct (F4 id f Hr Hf) as (g & Hg & ?). by assert (g = f') as <- by congruence. }
  split; [done|by apply F5|split].
  - intros id Hr%Hreg. destruct (lk_named _ _ Hlk id Hr) as (f & Hf & Hp). destruct (F4 id f Hr Hf) as (f' & Hf' & Hp').
    exists f'. split; [done|]. by rewrite Hp'.
  - intros id id' f f' Hr Hr' Hf Hf' Hp. destruct (Hobj id f Hr Hf) as (g & Hg & Hpg). destruct (Hobj id' f' Hr' Hf') as (g' & Hg' & Hpg').
    apply (lk_paths _ _ Hlk id id' g g'); [by apply Hreg|by apply Hreg|done|done|congruence].
Qed.

(** After a flush. *)
Lemma flushed_engine ls n n' db db' d :
  engine ls n db d -> flushed next0 v0 ls n n' db db' -> engine ls n' db' d /\ evolved db db'.
Proof.
  intros En F. pose proof En as [[I Hroom] _ _]. split; [|by apply (cn_evolved (stem_of cfg)); eapply flushed_continued].
  apply (engine_kept ls n _ _ db); [done| |split; [apply F|by eapply room_flushed]].
  apply files_kept_unmoved; [apply (av_files _ _ (fd_advanced _ _ _ _ _ _ _ F))|apply F].
Qed.

(** Taking the flush role. *)
Lemma quiesce_engine ls n db d :
  engine ls n db d ->
  exists db1 n1, quiesce db = (Ok (), db1) /\ engine ls n1 db1 d /\ settled ls n1 db1 /\ (n <= n1)%nat /\ evolved db db1.
Proof.
  intros En. pose proof (engine_inv _ _ _ _ En) as I.
  destruct (quiesce_spec next0 v0 ls n db I) as (db1 & n1 & E & F & Hc). exists db1, n1.
  destruct (flushed_engine ls n n1 db db1 d En F) as [En1 Ev]. split_and!; [done..| |apply F|done].
  split; [apply En1|apply (fd_free _ _ _ _ _ _ _ F)|]. destruct Hc as [?|[? _]]; auto.
Qed.

(** ** Reserving the destination and opening the copy *)

Definition with_next (s : EngineState) : EngineState := persistent (set_next_file_id (next_file_id s + 1) (transient s)).

Definition reserved_db (db : DB) : DB := set_head (with_next (state_ db)) (set_state (with_next (state_ db)) db).

Definition opened_db (g : DataFile) (db : DB) : DB :=
  set_heap (<[next_file_id (state_ db) := g]> (heap db)) (reserved_db db).

Lemma reserve_run ls n db :
  settled ls n db ->
  (exists x, reserve_dest db = (Err x, db))
  \/ next_file_id (state_ db) <= KeyDirEntry.kMaxFileId
     /\ reserve_dest db = (Ok (next_file_id (state_ db)), set_state (with_next (state_ db)) db).
Proof.
  intros [[I _] _ _]. pose proof (iv_owed _ _ _ _ _ I) as Ho. cbn in Ho.
  unfold reserve_dest, load_state, gets, lift, reserve_file_id, file_ids_left. unfold mbind, io_bind. cbn [t_next_file_id transient].
  destruct (Z.ltb_spec KeyDirEntry.kMaxFileId (next_file_id (state_ db))); [left; by eexists|]. right. split; [done|].
  rewrite (proj2 (Z.eqb_neq _ _)) by lia. fold (with_next (state_ db)). rewrite store_state_publishes; [done|cbn; lia..].
Qed.

(** A file object under an id nothing uses. *)
Lemma unused_kept (h : gmap FileRef DataFile) s id g :
  heap_ok h -> file_ok g -> file_stats s !! id = None -> heap_kept s h (<[id := g]> h).
Proof.
  intros Hok Hg Hid r f Hr. destruct (decide (r = id)) as [->|Hne].
  - exists g. rewrite lookup_insert_eq. unfold extent. rewrite Hid. split; [done|]. split; [|by intros []]. split; [done|]. exists 0. destruct (Hok _ _ Hr), Hg.
    split_and!; [done|done|apply prefix_nil|lia].
  - exists f. rewrite lookup_insert_ne by done. pose proof (grown_refl f (Hok _ _ Hr)).
    split_and!; [done|by apply kept_grown|intros _; by apply units_kept_grown].
Qed.

Lemma not_registered_next ls n db : settled ls n db -> file_stats (state_ db) !! next_file_id (state_ db) = None.
Proof.
  intros [[I _] _ _]. destruct (file_stats (state_ db) !! next_file_id (state_ db)) as [fs|] eqn:E; [|done].
  pose proof (so_below _ _ (iv_state _ _ _ _ _ I) (next_file_id (state_ db)) ltac:(by eexists)) as Hb. cbn in Hb. lia.
Qed.

Lemma republished_reserved ls n db db' :
  settled ls n db -> head_ db' = with_next (state_ db) -> state_ db' = with_next (state_ db) -> in_flight db' = in_flight db ->
  oracle db' = oracle db -> flush_error db' = flush_error db -> write_fault db' = write_fault db -> heap_ok (heap db') ->
  heap_kept (state_ db) (heap db) (heap db') -> (forall r, r <> next_file_id (state_ db) -> heap db' !! r = heap db !! r) ->
  republished db db'.
Proof.
  intros S Eh Es Ef Eo Ee Ew Hok Hk Hsame. pose proof S as [[I _] Hfl _]. cbn [committed published] in I.
  pose proof (iv_state _ _ _ _ _ I) as Hs. pose proof (iv_heap _ _ _ _ _ I) as Hok0. pose proof (so_ids _ _ Hs) as Hids.
  pose proof (state_ok_kept _ _ Hs Hok0 _ Hk) as Hs1. pose proof (state_view_kept _ _ Hs Hok0 _ Hk) as Hv1.
  pose proof (fun Hap => durable_to_kept _ _ Hs _ Hk _ (iv_durable _ _ _ _ _ I Hap)) as Hd1.
  split; rewrite ?Es; try done.
  - by rewrite Ef.
  - by rewrite Eo.
  - destruct Hs1 as [[] S2 S3 S4 S5 S6 S7 S8 S9 S10]. split; cbn in *; try done; [lia|]. intros id Hi%S7. lia.
  - apply (iv_owed _ _ _ _ _ I).
  - intros Ha. split_and!; try done.
    + revert Ha. unfold refused. by rewrite Ew.
    + intros f' Hf'. exists f'. by rewrite <-Hsame by lia.
    + intros Hfr r f' Hr Hf'. cbn in Hr. rewrite Hsame in Hf' by lia. apply (Hfr r); [lia|done].
Qed.

Lemma reserved_settled ls n db : settled ls n db -> settled ls n (reserved_db db).
Proof.
  intros S. eapply settled_republished; [exact S|]. destruct (proj1 (se_shows _ _ _ _ _ _ S)) as [_ _ Hok _ _ _ _ _ _ _ _].
  apply (republished_reserved ls n); try done. by apply heap_kept_refl.
Qed.

Lemma opened_settled ls n db g : settled ls n db -> file_ok g -> settled ls n (opened_db g db).
Proof.
  intros S Hg. eapply settled_republished; [exact S|]. pose proof (proj1 (se_shows _ _ _ _ _ _ S)) as I. pose proof (iv_heap _ _ _ _ _ I) as Hok.
  apply (republished_reserved ls n); try done.
  - by apply heap_ok_insert.
  - apply unused_kept; [done|done|by eapply not_registered_next].
  - intros r Hr. by apply lookup_insert_ne.
Qed.

Lemma reserved_engine ls n db d : engine ls n db d -> settled ls n db -> engine ls n (reserved_db db) d.
Proof.
  intros En S. apply (engine_kept ls n _ _ db); [done| |apply (reserved_settled _ _ _ S)]. split; try done. intros id f _ Hf. by exists f.
Qed.

Lemma opened_engine ls n db d g :
  engine ls n db d -> settled ls n db -> file_ok g -> logical_end g <= 2 ^ 32 -> engine ls n (opened_db g db) d.
Proof.
  intros En S Hg Hsm. apply (engine_kept ls n _ _ db); [done| |by apply (opened_settled _ _ _ _ S)].
  split; try done; [|by apply heap_small_insert].
  intros id f Hr Hf. exists f. cbn. rewrite lookup_insert_ne; [done|]. intros Eid. rewrite <-Eid in Hr. rewrite (not_registered_next _ _ _ S) in Hr.
  by destruct Hr.
Qed.

Lemma opened_evolved db g : evolved db (opened_db g db).
Proof.
  split; cbn; try done; [by left|by left|lia|]. intros r f Hr Hf. exists f. rewrite lookup_insert_ne by lia. by split_and!.
Qed.
(** ** Before the commit: what the scan saw is durable *)

(** The published state with [dur] confirmed. *)
Definition confirmed_state (dur : Z) (db : DB) : EngineState := persistent (set_durable_seq dur (transient (state_ db))).

Definition confirmed_db (dur : Z) (db db1 : DB) : DB := set_head (confirmed_state dur db) (set_state (confirmed_state dur db) db1).

(** [db1] is [db] with the active file synced as far as [dur] says. *)
Record prepared (db : DB) (decided dur : Z) (db1 : DB) : Prop := {
  pr_quiet : quiet_io db db1;
  pr_unmoved : unmoved (heap db) (heap db1);
  pr_other : forall r, r <> active_file_id (state_ db) -> heap db1 !! r = heap db !! r;
  pr_failed : forall f f', heap db !! active_file_id (state_ db) = Some f -> heap db1 !! active_file_id (state_ db) = Some f' -> sync_failed f' = sync_failed f;
  pr_dur : decided <= dur /\ durable_seq (state_ db) <= dur < next_seq (state_ db);
  pr_durable : faults_apart -> durable_to (heap db1) (state_ db) dur
}.

Lemma prepared_settled ls n db decided dur db1 :
  settled ls n db -> prepared db decided dur db1 -> settled ls n (confirmed_db dur db db1).
Proof.
  intros S [Q Hum Ho Hsf Hdur Hd]. eapply settled_republished; [exact S|]. pose proof S as [[I _] Hfl _]. cbn [committed published] in I.
  pose proof (iv_heap _ _ _ _ _ I) as Hok. pose proof (iv_state _ _ _ _ _ I) as Hs. pose proof (so_ids _ _ Hs) as Hids.
  pose proof (state_ok_mono _ _ _ Hok (qi_le _ _ Q) Hs) as Hs1. pose proof (iv_owed _ _ _ _ _ I) as Hw. destruct (so_file _ _ Hs) as [fa Hfa].
  split; cbn [confirmed_db set_head set_state state_ head_ heap oracle in_flight flush_error]; try done; try apply Q.
  - by rewrite (qi_flight _ _ Q).
  - by apply (state_ok_same _ (state_ db)).
  - rewrite (state_view_same _ (state_ db)) by done. by apply state_view_mono; [|apply Q|].
  - cbn. lia.
  - intros Ha. assert (Ha0 : accepting db).
    { revert Ha. unfold refused. cbn. by rewrite (qi_fault _ _ Q). }
    split_and!; try done; [apply Q| |].
    + intros f' Hf'. destruct (um_same _ _ Hum _ _ Hfa) as (g & Hg & Hct & Hl & _). assert (g = f') as -> by (cbn in *; congruence).
      exists fa. split_and!; [done|unfold live; by rewrite Hct, Hl|done|by apply Hsf].
    + intros Hfr r f' Hr Hf'. cbn in Hr. rewrite Ho in Hf' by lia. by apply (Hfr r).
Qed.

Lemma prepared_kept db decided dur db1 : prepared db decided dur db1 -> files_kept db (confirmed_db dur db db1).
Proof. intros [Q Hum _ _ _ _]. by apply files_kept_unmoved. Qed.

Lemma prepared_evolved db decided dur db1 : prepared db decided dur db1 -> evolved db (confirmed_db dur db db1).
Proof. intros [Q Hum _ _ _ _]. apply advanced_evolved; [by apply advanced_same|by apply unmoved_others|apply Q]. Qed.

(** The commit up to [apply_vacuum]. *)
Definition commit_prepare (decided : Z) (current : EngineState) : io DB TransientEngineState :=
  let t := transient current in
  if t_durable_seq t <? decided then
    no ← gets (refused current);
    reason ← gets degraded_reason_of;
    _ ← lift (throw_if no (DbDegraded reason));
    sync_active_file t current kVacuumSyncFailed
  else mret t.

Lemma vacuum_commit_eq old scan nf dest decided db :
  vacuum_commit old scan nf dest decided db
  = (t ← commit_prepare decided (state_ db);
     t ← lift (apply_vacuum old scan nf dest t);
     store_state (state_ db) (persistent t)) db.
Proof. done. Qed.

(** A sync that failed: the engine degrades and publishes nothing else. *)
Lemma commit_degraded ls n db db1 :
  settled ls n db -> quiet_io db db1 -> unmoved (heap db) (heap db1) ->
  let s := persistent (apply_degrade kVacuumSyncFailed (transient (state_ db))) in
  settled ls n (set_head s (set_write_fault true (set_state s db1))) /\ files_kept db (set_head s (set_write_fault true (set_state s db1))).
Proof.
  intros S Q Hum s. split.
  - eapply settled_republished; [exact S|]. pose proof S as [[I _] Hfl _]. cbn [committed published] in I.
    pose proof (iv_heap _ _ _ _ _ I) as Hok. pose proof (iv_state _ _ _ _ _ I) as Hs. pose proof (iv_owed _ _ _ _ _ I) as Hw.
    split; cbn [set_head set_state set_write_fault state_ head_ heap oracle in_flight]; try done; try apply Q.
    + by rewrite (qi_flight _ _ Q).
    + apply (state_ok_same _ (state_ db)); try done. by apply (state_ok_mono (heap db)); [|apply Q|].
    + rewrite (state_view_same _ (state_ db)) by done. by apply state_view_mono; [|apply Q|].
    + intros Hap. by apply (durable_to_mono (heap db)); [apply Q|apply I].
  - by apply files_kept_unmoved.
Qed.

(** The sync of the active file, when what the scan saw is not all durable. *)
Lemma commit_prepare_syncs h db decided :
  state_ok h (state_ db) -> accepting db -> durable_seq (state_ db) < decided < next_seq (state_ db) ->
  commit_prepare decided (state_ db) db
  = match sync_file (active_file_id (state_ db)) db with
    | (Ok _, db1) => (Ok (transient (confirmed_state (next_seq (state_ db) - 1) db)), db1)
    | (Err x, db1) => (_ ← degrade_transient (transient (state_ db)) (state_ db) kVacuumSyncFailed; throw x) db1
    end.
Proof.
  intros Hs Ha Hd. pose proof (wf_next _ _ (so_wf _ _ Hs)) as Hpos. cbn in Hpos. unfold commit_prepare. cbn [t_durable_seq transient].
  rewrite (proj2 (Z.ltb_lt _ _)) by lia. unfold gets. unfold mbind at 1, io_bind at 1. unfold mbind at 1, io_bind at 1. rewrite Ha.
  unfold lift at 1. unfold mbind at 1, io_bind at 1. cbn [throw_if]. unfold sync_active_file, lift, active_ref. cbn [t_files t_active_file_id transient].
  rewrite (so_active _ _ Hs). unfold mbind at 1, io_bind at 1. unfold try_catch. unfold mbind at 1, io_bind at 1.
  destruct (sync_file _ db) as [[[]|x] db1].
  - unfold mret, io_ret, apply_sync. cbn [t_next_seq t_durable_seq transient]. by rewrite (proj2 (Z.ltb_lt _ _) Hpos), (proj2 (Z.ltb_lt _ _)) by lia.
  - unfold mbind, io_bind. destruct (degrade_transient _ _ _ db1) as [[[]|] ?]; done.
Qed.

Lemma commit_prepare_spec ls n db decided :
  settled ls n db -> decided < next_seq (state_ db) ->
  (exists x db1, commit_prepare decided (state_ db) db = (Err x, db1)
     /\ settled ls n (set_head (state_ db1) db1) /\ files_kept db (set_head (state_ db1) db1))
  \/ exists dur db1, commit_prepare decided (state_ db) db = (Ok (transient (confirmed_state dur db)), db1) /\ prepared db decided dur db1.
Proof.
  intros S Hdec. pose proof S as [[I _] Hfl _]. cbn [committed published] in I. pose proof (iv_heap _ _ _ _ _ I) as Hok.
  pose proof (iv_state _ _ _ _ _ I) as Hs. pose proof (iv_owed _ _ _ _ _ I) as Hw. destruct (so_file _ _ Hs) as [f Hf].
  destruct (Z.le_gt_cases decided (durable_seq (state_ db))) as [Hge|Hlt].
  { right. exists (durable_seq (state_ db)), db. split.
    { unfold commit_prepare. cbn [t_durable_seq transient]. by rewrite (proj2 (Z.ltb_ge _ _)). }
    split; try done; [by apply quiet_io_refl|apply unmoved_refl|congruence|lia|apply I]. }
  destruct (refused (state_ db) db) eqn:Hno.
  { left. eexists _, db. split.
    { unfold commit_prepare, gets, lift. cbn [t_durable_seq transient]. rewrite (proj2 (Z.ltb_lt _ _)) by done. unfold mbind, io_bind. by rewrite Hno. }
    split; [by apply settled_released|]. by apply files_kept_unmoved, unmoved_refl. }
  pose proof (iv_accepts _ _ _ _ _ I Hno) as Hh. pose proof (sf_active _ _ (hk_same _ _ _ _ _ Hh)) as Sa.
  assert (Hsf : faults_apart -> sync_failed f = false) by (intros Hap; apply (hk_file _ _ _ _ _ Hh Hap); by rewrite Sa).
  destruct (sync_to_same (logical_end f) f) as (Tc & Te & Tp & Tx).
  pose proof (fo_end _ (Hok _ _ Hf)) as He.
  destruct (fdatasync_cases "WritableFileOps::sync: fdatasync failed" _ (logical_end f) f db Hok Hf ltac:(lia)) as (res & db1 & E & Q & _ & Hh1 & _).
  assert (Esync : sync_file (active_file_id (state_ db)) db = (res, db1)) by (rewrite <-E; unfold sync_file, sync; by rewrite !(on_file_eq _ _ f)).
  rewrite (commit_prepare_syncs (heap db)), Esync by done. destruct res as [[]|x].
  - right. exists (next_seq (state_ db) - 1), db1. pose proof (wf_next _ _ (so_wf _ _ Hs)) as Hpos. cbn in Hpos.
    split; [done|].
    split; [done|rewrite Hh1; by apply (unmoved_insert _ _ f)| | |lia|].
    + intros r Hr. rewrite Hh1. by apply lookup_insert_ne.
    + intros f0 f' Hf0 Hf'. rewrite Hh1, lookup_insert_eq in Hf'. injection Hf' as <-. congruence.
    + intros Hap k e Hk _. destruct (decide (KeyDirEntry.file_id e = active_file_id (state_ db))) as [Hid|Hid].
      * exists (sync_to (logical_end f) f). rewrite Hid, Hh1, lookup_insert_eq. split; [done|]. pose proof (sync_to_synced (logical_end f) f (Hsf Hap)).
        rewrite <-Hid in Hf. pose proof (entry_end_below (heap db) (state_ db) k e f Hok Hs Hk Hf). lia.
      * eapply (durable_to_mono (heap db)); [apply Q|by apply I|exact Hk|by right].
  - left. unfold mbind, io_bind. rewrite degrade_transient_eq by (cbn; lia). eexists _, _. split; [done|].
    cbn [set_write_fault set_state state_]. apply commit_degraded; [done|done|]. rewrite Hh1. by apply (unmoved_insert _ _ f).
Qed.
(** ** The commit *)

(** What a commit that returns leaves: the old file is not named any more, by
    id or by path, and what the scan saw is durable. *)
Record dropped_file (old decided : Z) (db db' : DB) : Prop := {
  df_stats : file_stats (state_ db') !! old = None;
  df_paths : forall id f fo, registered db' id -> heap db' !! id = Some f -> heap db' !! old = Some fo -> path f <> path fo;
  df_durable : decided <= durable_seq (state_ db');
  df_next : next_seq (state_ db') = next_seq (state_ db)
}.

Definition commit_outcome (ls : group_log) (n : nat) (d : Disk) (old decided : Z) (db : DB) (run : result unit * DB) : Prop :=
  let db' := set_head (state_ run.2) run.2 in
  engine ls n db' d /\ settled ls n db' /\ if is_ok run.1 then dropped_file old decided db db' else files_kept db db'.

(** The commit, for what [apply_vacuum] makes of the confirmed state. *)
Lemma commit_with ls n db d old scan nf dest decided :
  engine ls n db d -> settled ls n db -> decided < next_seq (state_ db) ->
  (forall dur db1, prepared db decided dur db1 -> exists t,
     apply_vacuum old scan nf dest (transient (confirmed_state dur db)) = Ok t
     /\ next_seq (persistent t) = next_seq (state_ db) /\ active_file_id (persistent t) = active_file_id (state_ db)
     /\ next_file_id (persistent t) = next_file_id (state_ db) /\ durable_seq (persistent t) = dur
     /\ sync_requested_seq (persistent t) = sync_requested_seq (state_ db)
     /\ let db' := set_head (persistent t) (set_state (persistent t) db1) in
        republished (confirmed_db dur db db1) db' /\ linked db' d
        /\ dropped_file old decided db db') ->
  commit_outcome ls n d old decided db (vacuum_commit old scan nf dest decided db).
Proof.
  intros En S Hdec Hap. rewrite vacuum_commit_eq. unfold mbind at 1, io_bind at 1.
  destruct (commit_prepare_spec ls n db decided S Hdec) as [(x & db1 & -> & S1 & K1)|(dur & db1 & -> & P)].
  - split; [by apply (engine_kept ls n _ _ db); [..|apply S1]|done].
  - destruct (Hap dur db1 P) as (t & -> & Hn & Ha & Hnf & Hd & Hr & Rp & Hlk & Hdf). unfold lift, mbind, io_bind.
    pose proof (iv_owed _ _ _ _ _ (proj1 (se_shows _ _ _ _ _ _ S))) as Hw. cbn in Hw. destruct (pr_dur _ _ _ _ P).
    rewrite store_state_publishes by lia. unfold commit_outcome. cbn [fst snd set_state state_ is_ok].
    pose proof (settled_republished _ _ _ _ _ _ _ (prepared_settled _ _ _ _ _ _ S P) Rp) as S2.
    split; [split; [apply S2|apply (qi_small _ _ (pr_quiet _ _ _ _ P)), En|done]|]. by split.
Qed.

(** Dropping a file without a key. *)
Lemma commit_drops ls n db d old decided :
  engine ls n db d -> settled ls n db -> decided < next_seq (state_ db) ->
  registered db old -> old <> active_file_id (state_ db) ->
  (forall k e, key_dir (state_ db) !! k = Some e -> KeyDirEntry.file_id e <> old) ->
  commit_outcome ls n d old decided db (vacuum_commit old VacuumScanResult_zero None 0 decided db).
Proof.
  intros En S Hdec Hreg Hact Hno. apply commit_with; try done. intros dur db1 P.
  pose proof (engine_kept _ _ _ _ _ _ _ En (prepared_kept _ _ _ _ P) (se_shows _ _ _ _ _ _ (prepared_settled _ _ _ _ _ _ S P))) as [_ _ Hlk].
  pose proof (prepared_settled _ _ _ _ _ _ S P) as Sc. pose proof (proj1 (se_shows _ _ _ _ _ _ Sc)) as Ic. cbn [committed published] in Ic.
  pose proof (iv_state _ _ _ _ _ Ic) as Hsc. eexists. split; [apply apply_vacuum_drops|]. split_and!; try done.
  assert (Hr : forall id, is_Some (delete old (file_stats (state_ db)) !! id) -> id <> old /\ registered db id).
  { intros id [Hne ?]%lookup_delete_is_Some. by split; [apply not_eq_sym|]. }
  split_and!.
  - destruct Ic as [I1 I2 I3 I4 I5 I6 I7 I8 I9 I10 I11]. split; try done.
    + exact (se_free _ _ _ _ _ _ Sc).
    + apply (dropped_ok _ _ old Hsc); done.
    + intros Ha. split_and!; try done; [|intros f' Hf'; by exists f']. cbn. by rewrite lookup_delete_ne.
  - split.
    + intros id [_ Hi]%Hr. by apply (lk_named _ _ Hlk).
    + intros id id' f f' [_ Hi]%Hr [_ Hi']%Hr. by apply (lk_paths _ _ Hlk).
  - split; cbn; [apply lookup_delete_eq| |apply P|done]. intros id f fo [Hne Hi]%Hr Hf Hfo Hp. apply Hne. by apply (lk_paths _ _ Hlk id old f fo).
Qed.
(** Moving the keys of a file to its copy. *)
Section commit_moves.
Context (nt : NeededTombstones) (retain : Z) (db0 : DB) (old : Z) (f : DataFile) (S0 : sealed_file db0 old f).
Context (dest : Z) (g stg : DataFile) (scan : VacuumScanResult).
Abbreviation ps := (cs_entries (scan_committed f 0 DamageThrow)).
Context (Hl : live g = images (omap (kept_of nt (state_ db0) old retain) ps)) (Hsy : logical_end g <= synced_end g).
Context (C : copied nt (state_ db0) old retain ps stg scan) (Hid : 0 <= dest <= KeyDirEntry.kMaxFileId).

(** The placed copy, open under its id and not registered yet. *)
Record placed_copy (db : DB) (data : gmap string DataFile) : Prop := {
  pc_file : heap db !! dest = Some g;
  pc_new : file_stats (state_ db) !! dest = None;
  pc_next : dest < next_file_id (state_ db);
  pc_linked : is_Some (data !! path g);
  pc_paths : forall id fi, registered db id -> heap db !! id = Some fi -> path fi <> path g
}.

Lemma commit_moves ls n db d decided :
  engine ls n db d -> settled ls n db -> decided < next_seq (state_ db) -> evolved db0 db -> placed_copy db (d_data d) ->
  commit_outcome ls n d old decided db (vacuum_commit old scan (Some dest) dest decided db).
Proof.
  intros En S Hdec Ev [P1 P2 P3 P4 P5]. apply commit_with; try done. intros dur db1 P. set (dbc := confirmed_db dur db db1).
  pose proof (prepared_settled _ _ _ _ _ _ S P) as Sc. pose proof (proj1 (se_shows _ _ _ _ _ _ Sc)) as Ic. cbn [committed published] in Ic.
  pose proof (engine_kept _ _ _ _ _ _ _ En (prepared_kept _ _ _ _ P) (se_shows _ _ _ _ _ _ Sc)) as [_ _ Hlk].
  pose proof (iv_state _ _ _ _ _ Ic) as Hsc. pose proof (iv_heap _ _ _ _ _ Ic) as Hokc.
  pose proof (evolved_trans _ _ _ Ev (prepared_evolved _ _ _ _ P)) as Evc.
  assert (Hact : active_file_id (state_ db) <> dest).
  { intros E. destruct (wf_active _ _ (so_wf _ _ Hsc)) as [fs Hfs]. cbn in Hfs. rewrite E in Hfs. congruence. }
  assert (Hg : heap dbc !! dest = Some g) by (cbn; by rewrite (pr_other _ _ _ _ P)).
  destruct (source_sealed _ _ _ S0 dbc Evc Hsc) as [Hreg Hsl].
  pose proof (copied_scan_of nt retain db0 old f S0 dbc dest g stg scan Evc Hokc Hsc Hg Hl C Hid P2) as Hscan.
  destruct (apply_vacuum_moves (recs_of (heap dbc)) (transient (state_ dbc)) old dest scan dest (so_wf _ _ Hsc) Hscan)
    as (kd' & live_ & E & W & R & Hold).
  eexists. split; [exact E|]. split_and!; try done.
  pose proof (old_ne_dest _ _ _ S0 dbc dest Evc Hsc P2) as Hne.
  assert (Hr : forall id, is_Some (<[dest := scan_stats scan]> (delete old (file_stats (state_ db))) !! id) -> id = dest \/ id <> dest /\ id <> old /\ registered db id).
  { intros id. destruct (decide (id = dest)) as [|Hd]; [by left|]. rewrite lookup_insert_ne by done. intros [? ?]%lookup_delete_is_Some. right. split_and!; [done|by apply not_eq_sym|done]. }
  set (db' := set_head _ _).
  assert (Hr' : forall id, registered db' id -> id = dest \/ id <> dest /\ id <> old /\ registered db id).
  { intros id Hi. apply Hr. cbn in Hi. destruct (decide (id = dest)) as [->|Hd]; [rewrite lookup_insert_eq; by eexists|]. by rewrite lookup_insert_ne in Hi |- * by done. }
  assert (Hpath : forall id fi, id <> dest -> registered db id -> heap db1 !! id = Some fi -> path fi <> path g).
  { intros id fi Hd Hi Hfi Hp. destruct (lk_named _ _ (en_linked _ _ _ _ En) id Hi) as (fo & Hfo & _).
    destruct (um_same _ _ (pr_unmoved _ _ _ _ P) id fo Hfo) as (fi' & Hfi' & _ & _ & Hpi). assert (fi' = fi) as -> by congruence.
    apply (P5 id fo Hi Hfo). congruence. }
  split_and!.
  - pose proof Ic as [_ _ I3 _ _ _ I7 I8 _ _ _]. split; try done.
    + exact (se_free _ _ _ _ _ _ Sc).
    + by apply (after_ok nt retain db0 old f S0 dbc dest g stg scan).
    + apply (rm_view _ _ _ _ _ _ R).
    + intros Hap. apply (after_durable old dbc dest g scan Hokc Hsc Hg P2 kd' live_ R); [by apply I8|done].
    + intros Ha. split_and!; try done; [|intros f' Hf'; by exists f'].
      cbn. rewrite lookup_insert_ne, lookup_delete_ne by done. done.
  - split.
    + intros id [->|(_ & _ & Hi)]%Hr'; [by exists g|]. by apply (lk_named _ _ Hlk).
    + intros id id' fi fi' Hi Hi' Hfi Hfi' Hp. change (heap db1 !! id = Some fi) in Hfi. change (heap db1 !! id' = Some fi') in Hfi'.
      change (heap db1 !! dest = Some g) in Hg.
      destruct (Hr' id Hi) as [->|(Hd & _ & Hri)], (Hr' id' Hi') as [->|(Hd' & _ & Hri')]; [done|..|by apply (lk_paths _ _ Hlk id id' fi fi')].
      * destruct (Hpath id' fi'); [done..|congruence].
      * destruct (Hpath id fi); [done..|congruence].
  - split; cbn; [by rewrite lookup_insert_ne, lookup_delete_eq|..|apply P|done].
    intros id fi fo Hi Hfi Hfo Hp. destruct (Hr' id Hi) as [->|(_ & Hio & Hri)].
    + destruct (Hpath old fo); [done|done|done|]. change (heap db1 !! dest = Some g) in Hg. congruence.
    + apply Hio. by apply (lk_paths _ _ Hlk id old fi fo).
Qed.
End commit_moves.
End engine.
