(* ===== verification/VacuumProofs.v ===== *)
(** * Vacuum keeps the engine's promises

    With other threads writing, rotating and flushing between its steps, with
    system calls failing in any pattern and however it is cancelled, a vacuum
    keeps the engine's invariant: the published state shows the published
    prefix of the log, what it calls durable is on disk (if no call of the
    engine fails right after one that failed), and no file it names is
    unlinked. *)

From S2P Require Import Prelude Frames Codec HintFile KeyDir DataFile DataFileProofs FileScan EngineState EngineProofs Remap Hints Recovery RecoveryOpen Db Commit Records StageProofs Faults DbInv StateChecks FlushProofs RotationProofs GroupProofs CommitProofs WritePath EngineSteps ResumeProofs Vacuum VacuumCopy VacuumCommit VacuumEngine.
Import Serialization Types Stats Dir Plan.

Section vacuum.
Context `{Zstd} `{Crc32cLaws} `{KeyDirKind} `{Apart : FaultSpacing} (cfg : Settings) (next0 : Z) (v0 : gmap bytes bytes).

Abbreviation engine := (engine cfg next0 v0).
Abbreviation settled := (settled cfg next0 v0).
Abbreviation registered db id := (is_Some (file_stats (state_ db) !! id)).

(** ** Other threads *)

(** What other threads do while vacuum does not hold the lock: they take steps
    of the engine, the files a rotation creates are under names no file had
    (a name that is taken ends the process), and the names of the other files
    stay. *)
Record thread_step (db : DB) (d : Disk) (db' : DB) (d' : Disk) : Prop := {
  ts_run : rtc (db_step cfg) db db';
  ts_names : d_data d ⊆ d_data d';
  ts_fresh : forall id, next_file_id (state_ db) <= id < next_file_id (state_ db') -> registered db' id ->
    d_data d !! stem_of cfg id = None /\ is_Some (d_data d' !! stem_of cfg id);
  ts_apart : forall id id', next_file_id (state_ db) <= id < next_file_id (state_ db') -> next_file_id (state_ db) <= id' < next_file_id (state_ db') ->
    registered db' id -> registered db' id' -> stem_of cfg id = stem_of cfg id' -> id = id'
}.

Definition thread (f : DB * Disk -> DB * Disk) : Prop :=
  forall ls n db d, engine ls n db d -> let '(db', d') := f (db, d) in thread_step db d db' d'.

(** What vacuum relies on of them: they move the engine on, leave the names in
    the directory, and create files under names of their own. *)
Record let_be (db : DB) (data : gmap string DataFile) (db' : DB) (data' : gmap string DataFile) : Prop := {
  lb_evolved : evolved db db';
  lb_names : data ⊆ data';
  lb_fresh : forall id f, registered db' id -> ~ registered db id -> heap db' !! id = Some f -> data !! path f = None
}.

Definition guest (f : DB * Disk -> DB * Disk) : Prop :=
  forall ls n db d, engine ls n db d ->
    let '(db', d') := f (db, d) in
    let_be db (d_data d) db' (d_data d')
    /\ exists ls' n', ls `prefix_of` ls' /\ (n <= n')%nat /\ engine ls' n' db' d'.

Lemma log_grows l l' : rtc log_step l l' -> committed l `prefix_of` committed l' /\ (published l <= published l')%nat.
Proof.
  induction 1 as [|l l1 l2 Hs _ [IH1 IH2]]; [done|]. destruct Hs as [ls n g|ls n m Hm]; cbn in *; split; try done; [|lia].
  etrans; [|exact IH1]. by apply prefix_app_r.
Qed.

Lemma thread_guest f : settings_ok cfg -> thread f -> guest f.
Proof.
  intros Hcfg Hf ls n db d En. specialize (Hf ls n db d En). destruct (f (db, d)) as [db' d']. destruct Hf as [T1 T2 T3 T4].
  destruct En as [Hsh Hsm [L1 L2]]. destruct (run_spec cfg next0 v0 Hcfg _ _ _ Hsh T1) as ([ls' n'] & [Hp Hn]%log_grows & Hsh' & [Ev Hnew Hsm']).
  pose proof (iv_state _ _ _ _ _ (proj1 Hsh)) as Hs.
  assert (Hcase : forall id f', registered db' id -> heap db' !! id = Some f' ->
    (registered db id /\ exists f0, heap db !! id = Some f0 /\ path f' = path f0)
    \/ (next_file_id (state_ db) <= id < next_file_id (state_ db') /\ path f' = stem_of cfg id)).
  { intros id f' Hi Hf'. destruct (Hnew id Hi) as [Hr|[Hid (g & Hg & Hpg)]]; [left|right; split; [done|congruence]].
    split; [done|]. destruct (L1 id Hr) as (f0 & Hf0 & _).
    destruct (ev_heap _ _ Ev id f0 ltac:(pose proof (so_below _ _ Hs id Hr); lia) Hf0) as (g & Hg & Hpg & _). exists f0. split; [done|congruence]. }
  assert (Hold : forall id f0, registered db id -> heap db !! id = Some f0 -> is_Some (d_data d !! path f0)).
  { intros id f0 Hr Hf0. destruct (L1 id Hr) as (g & Hg & ?). by assert (g = f0) as <- by congruence. }
  split; [split; [done|done|]|exists ls', n'; split_and!; [done|done|split; [done|by apply Hsm'|split]]].
  - intros id f' Hi Hni Hf'. destruct (Hcase id f' Hi Hf') as [[? _]|[Hid ->]]; [done|]. by apply T3.
  - intros id Hi. destruct (Hnew id Hi) as [Hr|[Hid (g & Hg & Hpg)]].
    + destruct (L1 id Hr) as (f0 & Hf0 & [x Hx]). destruct (ev_heap _ _ Ev id f0 ltac:(pose proof (so_below _ _ Hs id Hr); lia) Hf0) as (g & Hg & Hpg & _).
      exists g. split; [done|]. rewrite Hpg. exists x. by apply (lookup_weaken _ _ _ _ Hx).
    + exists g. split; [done|]. rewrite Hpg. by apply T3.
  - intros id id' g g' Hi Hi' Hg Hg' Hpp.
    destruct (Hcase id g Hi Hg) as [[Hr (f0 & Hf0 & Hp0)]|[Hid Hp0]], (Hcase id' g' Hi' Hg') as [[Hr' (f1 & Hf1 & Hp1)]|[Hid' Hp1]].
    + apply (L2 id id' f0 f1); try done. congruence.
    + destruct (Hold id f0 Hr Hf0) as [x Hx]. destruct (T3 id' Hid' Hi') as [Hn' _]. congruence.
    + destruct (Hold id' f1 Hr' Hf1) as [x Hx]. destruct (T3 id Hid Hi) as [Hn' _]. congruence.
    + apply T4; try done. congruence.
Qed.

(** What holds whatever they do. *)
Definition stable (P : DB -> gmap string DataFile -> Prop) : Prop :=
  forall ls n ls' n' db d db' d', engine ls n db d -> engine ls' n' db' d' -> let_be db (d_data d) db' (d_data d') -> P db (d_data d) -> P db' (d_data d').

Context (ls0 : group_log) (n0 : nat) (others0 : list (DB * Disk -> DB * Disk)).

(** The log has grown since vacuum was called, and only by others. *)
Record grown_log (ls : group_log) (n : nat) (v : Vac) : Prop := {
  gl_prefix : ls0 `prefix_of` ls;
  gl_more : (n0 <= n)%nat;
  gl_alone : others0 = [] -> v_others v = [] /\ ls = ls0;
  gl_guests : Forall guest (v_others v)
}.

Definition running (P : DB -> gmap string DataFile -> Prop) (v : Vac) : Prop :=
  exists ls n, grown_log ls n v /\ engine ls n (v_db v) (v_dir v) /\ P (v_db v) (d_data (v_dir v)).

Abbreviation top := (fun _ _ => True).

Lemma engine_data ls n db d d' : d_data d' = d_data d -> engine ls n db d -> engine ls n db d'.
Proof. intros E [? ? [Hn Hp]]. split; try done. split; [|done]. by rewrite E. Qed.

Lemma running_closed P : closed_aside (running P).
Proof.
  intros v v' [Ed Eo Eda] (ls & n & G & En & HP). exists ls, n. rewrite Ed, Eda. split_and!; [destruct G; split; by rewrite ?Eo| |done].
  by apply (engine_data _ _ _ (v_dir v)).
Qed.

Lemma running_weaken (P P' : DB -> gmap string DataFile -> Prop) v :
  (forall db data, P db data -> P' db data) -> running P v -> running P' v.
Proof. intros HP (ls & n & G & En & ?). exists ls, n. auto. Qed.

Lemma interleave_ensures P E : stable P -> ensures (running P) interleave (fun _ => running P) E.
Proof.
  intros HP v (ls & n & G & En & Hv). unfold interleave. destruct (v_others v) as [|f fs] eqn:Eo; [by exists ls, n|].
  destruct G as [G1 G2 G3 G4]. rewrite Eo in G3, G4. apply Forall_cons in G4 as [Hf G4]. specialize (Hf ls n _ _ En).
  destruct (f (v_db v, v_dir v)) as [db' d'] eqn:Ef. destruct Hf as [Hl (ls' & n' & Hp & Hn & En')].
  exists ls', n'. split_and!; [split; cbn; [by etrans|lia|by intros [? _]%G3|done]|done|]. by eapply HP.
Qed.

(** ** Under the barrier *)

Lemma settled_let_be db db' d :
  evolved db db' -> (forall id, registered db' id -> registered db id) -> let_be db (d_data d) db' (d_data d).
Proof. intros Ev Hr. split; [done|done|]. intros id f Hi Hn. by destruct Hn; apply Hr. Qed.

Lemma with_barrier_ensures {A} P (m : io DB A) (Q : A -> Vac -> Prop) (E : Vac -> Prop) :
  stable P ->
  (forall ls n db v, engine ls n db (v_dir v) -> settled ls n db -> P db (d_data (v_dir v)) -> grown_log ls n v ->
     v_db v = set_head (state_ (m db).2) (m db).2 -> match (m db).1 with Ok a => Q a v | Err _ => E v end) ->
  ensures (running P) (with_barrier m) Q E.
Proof.
  intros HP Hm. unfold with_barrier. eapply ensures_bind; [by apply interleave_ensures|]. intros _ v (ls & n & G & En & Hv).
  destruct (quiesce_engine cfg next0 v0 ls n _ _ En) as (db1 & n1 & Eq & En1 & S1 & Hn & Ev).
  unfold on_db. rewrite (with_role_run m (v_db v) db1 (m db1).1 (m db1).2 Eq) by apply surjective_pairing.
  assert (Hlb : let_be (v_db v) (d_data (v_dir v)) db1 (d_data (v_dir v))).
  { apply settled_let_be; [done|]. intros id. pose proof (engine_inv _ _ _ _ _ _ _ En) as I. pose proof (engine_inv _ _ _ _ _ _ _ En1) as I1.
    rewrite (registered_files _ _ _ (iv_state _ _ _ _ _ I)), (registered_files _ _ _ (iv_state _ _ _ _ _ I1)).
    destruct (quiesce_spec next0 v0 ls n _ I) as (db2 & n2 & Eq2 & F & _). rewrite Eq in Eq2. injection Eq2 as <-.
    by rewrite (av_files _ _ (fd_advanced _ _ _ _ _ _ _ F)). }
  set (v' := set_v_db (set_head (state_ (m db1).2) (m db1).2) v).
  specialize (Hm ls n1 db1 v' En1 S1 (HP _ _ _ _ _ _ _ _ En En1 Hlb Hv)). cbn [v' v_db set_v_db] in Hm.
  assert (G' : grown_log ls n1 v') by (destruct G; split; cbn; try done; lia). specialize (Hm G' eq_refl).
  by destruct (m db1).1.
Qed.
(** ** The directory *)

Definition same_data (d d' : Disk) : Prop := d_data d' = d_data d.

#[local] Instance same_data_preorder : PreOrder same_data.
Proof. split; [done|]. unfold same_data. intros a b c. congruence. Qed.

Lemma disk_call_keeps what : always same_data (disk_call what).
Proof. intros d. unfold disk_call, same_data. by destruct (d_oracle d) as [|[|] os]. Qed.
#[local] Hint Resolve disk_call_keeps : frames.

Lemma flush_hints_for_same f : always same_data (flush_hints_for f None).
Proof. unfold flush_hints_for, run_cut. frames; by apply always_modify. Qed.

Lemma on_dir_ensures {A} P (m : io Disk A) : always same_data m -> ensures (running P) (on_dir m) (fun _ => running P) (running P).
Proof.
  intros Hm v Hv. unfold on_dir. specialize (Hm (v_dir v)). destruct (m (v_dir v)) as [r d'].
  assert (A1 : aside v (set_v_dir d' v)) by (by split). destruct r; by apply (running_closed P v).
Qed.

(** A name nothing registered has can go. *)
Lemma unlink_engine ls n db d p :
  engine ls n db d -> (forall id f, registered db id -> heap db !! id = Some f -> path f <> p) ->
  engine ls n db (set_data (delete p (d_data d)) d).
Proof.
  intros [? ? [Hn Hp]] Hfree. split; try done. split; [|done]. intros id Hi. destruct (Hn id Hi) as (f & Hf & Hl).
  exists f. split; [done|]. cbn. rewrite lookup_delete_ne; [done|]. apply not_eq_sym. by eapply Hfree.
Qed.

(** ** The last step: unlinking the source *)

(** The commit is done: nothing names file [old], and the states up to [lo] are
    durable. *)
Definition gone (old lo : Z) (db : DB) : Prop :=
  file_stats (state_ db) !! old = None /\ lo <= durable_seq (state_ db)
  /\ forall id f fo, registered db id -> heap db !! id = Some f -> heap db !! old = Some fo -> path f <> path fo.

(** A file is gone from the state and from the directory. *)
Definition reclaimed (lo : Z) (db : DB) (data : gmap string DataFile) : Prop :=
  exists old f, heap db !! old = Some f /\ file_stats (state_ db) !! old = None /\ data !! path f = None /\ lo <= durable_seq (state_ db).

Lemma vacuum_unlink_ensures snap old lo :
  files snap !! old = Some old ->
  ensures (running (fun db _ => gone old lo db)) (vacuum_unlink_old_file snap old) (fun _ => running (reclaimed lo)) (running top).
Proof.
  intros Hsnap. unfold vacuum_unlink_old_file, source_of.
  apply ensures_at. intros v Hv. pose proof Hv as (ls & n & G & En & Hst & Hlo & Hfree).
  apply (ensures_bind _ _ _ (fun fo v' => v' = v /\ heap (v_db v) !! old = Some fo)).
  { intros ? <-. unfold gets, lift, mbind, io_bind. rewrite Hsnap. destruct (heap (v_db v) !! old); [done|].
    eapply running_weaken; [|exact Hv]. done. }
  intros fo v' [-> Hfo]. unfold on_dir. unfold mbind at 1, io_bind at 1.
  assert (Hkeep : forall d, same_data (v_dir v) d -> running top (set_v_dir d v)).
  { intros d Hd. apply (running_closed top v); [by split|]. eapply running_weaken; [|exact Hv]. done. }
  pose proof (disk_call_keeps "remove" (v_dir v)) as D1. destruct (disk_call "remove" (v_dir v)) as [[[]|x] d1]; [|by apply Hkeep].
  unfold modify. unfold mbind at 1, io_bind at 1. unfold mbind, io_bind. set (d2 := set_data _ d1).
  pose proof (disk_call_keeps "remove" d2) as D2. destruct (disk_call "remove" d2) as [r d3]. cbn [snd] in D1, D2.
  assert (En2 : engine ls n (v_db v) d2).
  { apply unlink_engine; [by apply (engine_data _ _ _ (v_dir v))|]. intros id f Hi Hf. by apply (Hfree id f fo). }
  assert (Hrun : forall d P, d_data d = d_data d2 -> P (v_db v) (d_data d) -> running P (set_v_dir d v)).
  { intros d P Ed HP. exists ls, n. split_and!; [by destruct G|by apply (engine_data _ _ _ d2)|done]. }
  destruct r as [[]|x]; apply Hrun; try done. exists old, fo. split_and!; try done. cbn. rewrite D2. apply lookup_delete_eq.
Qed.
(** ** Removing a file *)

Definition since (db0 : DB) : DB -> gmap string DataFile -> Prop := fun db _ => evolved db0 db.

Lemma since_stable db0 : stable (since db0).
Proof. intros ls n ls' n' db d db' d' _ _ [Ev _ _] Hs. by eapply evolved_trans. Qed.

Lemma running_since v : running top v -> running (since (v_db v)) v.
Proof. intros (ls & n & G & En & _). exists ls, n. split_and!; [done|done|]. apply evolved_refl. Qed.

Lemma load_state_for_write_ensures P E :
  stable P -> ensures (running P) load_state_for_write (fun s v => s = state_ (v_db v) /\ running P v) E.
Proof.
  intros HP. unfold load_state_for_write. eapply ensures_bind; [by apply interleave_ensures|]. intros _ v Hv. split; [done|]. by destruct v.
Qed.

Lemma decided_at_next h s : state_ok h s -> decided_at s = next_seq s - 1.
Proof. intros Hs. pose proof (wf_next _ _ (so_wf _ _ Hs)) as Hp. cbn in Hp. unfold decided_at. by rewrite (proj2 (Z.ltb_lt _ _) Hp). Qed.

Lemma commit_running ls n v old decided lo db run :
  grown_log ls n v -> commit_outcome cfg next0 v0 ls n (v_dir v) old decided db run -> v_db v = set_head (state_ run.2) run.2 -> lo <= decided ->
  match run.1 with Ok _ => running (fun db _ => gone old lo db) v | Err _ => running (fun db' _ => files_kept db db') v end.
Proof.
  intros G (En & _ & Hd) Ev Hlo. rewrite <-Ev in En, Hd. destruct run.1 as [[]|x]; cbn in Hd; exists ls, n; split_and!; try done.
  destruct Hd as [D1 D2 D3 _]. split_and!; [done|lia|done].
Qed.

Section remove.
Context (dbX : DB) (old : Z) (fX : DataFile) (lo : Z) (SX : sealed_file dbX old fX) (Hlo : lo <= next_seq (state_ dbX) - 1).
Context (Hno : forall k e, key_dir (state_ dbX) !! k = Some e -> KeyDirEntry.file_id e <> old).

Lemma vacuum_remove_ensures :
  ensures (running (since dbX)) (vacuum_remove_file old) (fun _ => running (reclaimed lo)) (running top).
Proof.
  unfold vacuum_remove_file. eapply ensures_bind; [apply load_state_for_write_ensures, since_stable|]. intros snap.
  apply ensures_at. intros v [-> Hv]. pose proof Hv as (ls & n & _ & En & HX). red in HX. set (db1 := v_db v) in *.
  pose proof (engine_inv _ _ _ _ _ _ _ En) as I1. pose proof (iv_state _ _ _ _ _ I1) as Hs1.
  destruct (source_sealed _ _ _ SX db1 HX Hs1) as [Hr1 _].
  assert (Htop : running top v) by (eapply running_weaken; [|exact Hv]; done).
  apply (ensures_bind _ _ _ (fun _ v' => v' = v)).
  { apply ensures_lift; [by intros ? ? _ <-|by intros ? <-]. }
  intros _. apply (ensures_bind _ _ _ (fun _ => running (fun db _ => gone old lo db))).
  - apply (ensures_pre _ (running (since db1))); [by intros ? ->; apply running_since|].
    apply with_barrier_ensures; [apply since_stable|]. intros ls' n' db v' En' S' Ev G' Edb. red in Ev.
    pose proof (engine_inv _ _ _ _ _ _ _ En') as I'. pose proof (evolved_trans _ _ _ HX Ev) as EvX.
    destruct (source_sealed _ _ _ SX db EvX (iv_state _ _ _ _ _ I')) as [Hr Ha].
    pose proof (ev_seq _ _ Ev) as Hq. pose proof (ev_seq _ _ HX) as HqX.
    assert (Hc : commit_outcome cfg next0 v0 ls' n' (v_dir v') old (decided_at (state_ db1)) db
      (vacuum_commit old VacuumScanResult_zero None 0 (decided_at (state_ db1)) db)).
    { apply commit_drops; try done; [rewrite (decided_at_next _ _ Hs1); lia|]. intros k e Hk Hf.
      by apply (Hno k e); [apply (source_key _ _ _ SX db)|]. }
    pose proof (commit_running ls' n' v' old _ lo db _ G' Hc Edb) as Hrun. destruct (vacuum_commit _ _ _ _ _ db).1.
    + apply Hrun. rewrite (decided_at_next _ _ Hs1). lia.
    + eapply running_weaken; [|apply Hrun; rewrite (decided_at_next _ _ Hs1); lia]. done.
  - intros _. apply vacuum_unlink_ensures. by apply (registered_files _ _ _ Hs1).
Qed.
End remove.
(** ** Compacting: up to the rename *)

Section compact.
Context (nt : NeededTombstones) (opts : VacuumOptions) (stem : string) (threshold : Z) (Hth : 0 <= threshold).
Context (db0 : DB) (old : Z) (f : DataFile) (lo : Z) (S0 : sealed_file db0 old f) (Hlo : lo <= next_seq (state_ db0) - 1).

Abbreviation snap := (state_ db0).
Abbreviation ps := (cs_entries (scan_committed f 0 DamageThrow)).
Abbreviation copied := (copied nt snap old (retain_after opts)).
Abbreviation staged_as := (staged_as nt snap stem old (retain_after opts)).

(** A copy that is complete, all of it on disk and nothing after it. *)
Record whole_copy (scan : VacuumScanResult) (fp : DataFile) : Prop := {
  wc_copied : copied ps fp scan;
  wc_synced : synced_end fp = logical_end fp;
  wc_content : content fp = live fp
}.

Section staging.
Context (W : Vac -> Prop) (HW : closed_aside W).

Lemma on_staged_ensures {A} (m : io FileIO A) (F : DataFile -> Prop) (Q : A -> DataFile -> Prop) :
  (forall g os, F g -> match m (mkFileIO g os) with (Ok a, s) => Q a (fio_file s) | (Err _, _) => True end) ->
  ensures (fun v => W v /\ exists g, d_data_tmp (v_dir v) !! stem = Some g /\ F g) (on_staged stem m)
    (fun a v => W v /\ exists g, d_data_tmp (v_dir v) !! stem = Some g /\ Q a g) W.
Proof.
  intros Hm v (Hv & g & Hg & HF). destruct (on_staged_eq stem m g v Hg) as (v' & -> & A1 & Hg').
  specialize (Hm g (d_oracle (v_dir v)) HF). destruct (m _) as [[a|x] s]; cbn [fst snd] in *; [|by eapply HW].
  split; [by eapply HW|]. by eexists.
Qed.

Lemma create_staged_ensures :
  ensures W (create_staged threshold stem) (fun _ v => W v /\ staged_as [] VacuumScanResult_zero v) W.
Proof.
  unfold create_staged. assert (Hdir : forall A (m : io Disk A), always same_data m -> ensures W (on_dir m) (fun _ => W) W).
  { intros A m Hm v Hv. unfold on_dir. specialize (Hm (v_dir v)). destruct (m (v_dir v)) as [[a|x] d']; by apply (HW v). }
  eapply ensures_bind; [by apply Hdir; frames|]. intros hint.
  apply (ensures_bind _ _ _ (fun _ => W)); [by apply ensures_lift|]. intros _.
  eapply ensures_bind; [by apply Hdir; frames|]. intros tmp.
  apply (ensures_bind _ _ _ (fun _ => W)); [by apply ensures_lift|]. intros _.
  apply (ensures_bind _ _ _ (fun _ => W)); [apply Hdir, disk_call_keeps|]. intros _.
  apply (ensures_bind _ _ _ (fun _ v => W v /\ exists g, d_data_tmp (v_dir v) !! stem = Some g /\ g = empty_file stem)).
  { intros v Hv. unfold on_dir, modify. split; [by apply (HW v)|]. eexists. split; [apply lookup_insert_eq|done]. }
  intros _. apply (on_staged_ensures (adopt 0 threshold) (fun g => g = empty_file stem) (fun _ g => copied [] g VacuumScanResult_zero)).
  intros g os ->. destruct (adopt_empty stem threshold os Hth) as (res & s & -> & [Hok _] & Hl & Hsf & _). destruct res as [[]|]; [|done].
  pose proof (empty_live _ Hl). split; try done. by left.
Qed.

(** The sync and the cut of the staged file. *)
Lemma sync_staged_ensures scan :
  ensures (fun v => W v /\ staged_as ps scan v) (on_staged stem sync)
    (fun _ v => W v /\ exists g, d_data_tmp (v_dir v) !! stem = Some g /\ copied ps g scan /\ synced_end g = logical_end g) W.
Proof.
  unfold VacuumCopy.staged_as. apply (on_staged_ensures sync (fun g => copied ps g scan) (fun _ g => copied ps g scan /\ synced_end g = logical_end g)).
  intros g os C. destruct (fdatasync_end "WritableFileOps::sync: fdatasync failed" g os) as (res & s & E & Hs). unfold sync. rewrite E.
  destruct res as [[]|]; [|done]. rewrite Hs. unfold sync_to. rewrite (cp_failed _ _ _ _ _ _ _ C).
  destruct C as [[E1 E2 E3] C2 C3 C4 C5 C6 C7 C8]. split; [|cbn; lia]. split; try done. split; cbn; [done|done|lia].
Qed.

Lemma shrink_staged_ensures scan :
  ensures (fun v => W v /\ exists g, d_data_tmp (v_dir v) !! stem = Some g /\ copied ps g scan /\ synced_end g = logical_end g)
    (on_staged stem shrink_to_fit)
    (fun _ v => W v /\ exists g, d_data_tmp (v_dir v) !! stem = Some g /\ whole_copy scan g) W.
Proof.
  apply (on_staged_ensures shrink_to_fit (fun g => copied ps g scan /\ synced_end g = logical_end g) (fun _ g => whole_copy scan g)).
  intros g os [C Hsy]. pose proof (cp_ok _ _ _ _ _ _ _ C) as Hok. destruct (shrink_to_fit_spec g os Hok) as (res & s & -> & (Hok' & Hsy' & _) & X).
  destruct res as [[]|]; [|done]. destruct X as (_ & Hl & X). destruct (X eq_refl) as [Hc Hf]. pose proof (length_live g Hok) as Hlen.
  assert (Hlive : live (fio_file s) = live g).
  { unfold live at 1. rewrite Hc, Hl, take_ge; [done|]. unfold size in Hlen. lia. }
  destruct Hok' as [E1 E2 E3]. split; [|lia|by rewrite Hc].
  destruct C as [C1 C2 C3 C4 C5 C6 C7 C8]. split; try done; congruence.
Qed.
End staging.

(** No file the state names is called [stem]. *)
Definition free_name (db : DB) : Prop := forall id g, registered db id -> heap db !! id = Some g -> path g <> stem.

(** The copy has its name. *)
Definition renamed (fp : DataFile) : DB -> gmap string DataFile -> Prop := fun db data =>
  evolved db0 db /\ data !! stem = Some fp /\ free_name db.

Lemma free_name_let_be ls n ls' n' db d db' d' :
  engine ls n db d -> engine ls' n' db' d' -> let_be db (d_data d) db' (d_data d') -> is_Some (d_data d !! stem) -> free_name db -> free_name db'.
Proof.
  intros En En' [Ev _ Hnew] [fp Hfp] Hfree id g' Hi Hg' Hp. pose proof (iv_state _ _ _ _ _ (engine_inv _ _ _ _ _ _ _ En)) as Hs.
  destruct (decide (registered db id)) as [Hr|Hr].
  - destruct (lk_named _ _ (en_linked _ _ _ _ _ _ _ En) id Hr) as (g & Hg & _).
    destruct (ev_heap _ _ Ev id g) as (g2 & Hg2 & Hp2 & _); [apply (so_below _ _ Hs id Hr)|done|]. apply (Hfree id g Hr Hg). congruence.
  - pose proof (Hnew id g' Hi Hr Hg') as Hd. congruence.
Qed.

Lemma renamed_stable fp : stable (renamed fp).
Proof.
  intros ls n ls' n' db d db' d' En En' Hl (Ev & Hd & Hfree). split_and!.
  - eapply evolved_trans; [exact Ev|apply Hl].
  - by apply (lookup_weaken _ _ _ _ Hd), Hl.
  - eapply free_name_let_be; [exact En|exact En'|exact Hl|by eexists|done].
Qed.

Lemma rename_ensures scan :
  ensures (fun v => running (since db0) v /\ exists g, d_data_tmp (v_dir v) !! stem = Some g /\ whole_copy scan g) (on_dir (rename_exclusive stem))
    (fun _ v => exists fp, whole_copy scan fp /\ running (renamed fp) v) (running top).
Proof.
  intros v [Hv (g & Hg & C)]. unfold on_dir, rename_exclusive, gets, lift. unfold mbind at 1, io_bind at 1. unfold mbind at 1, io_bind at 1.
  assert (Htop : forall d, same_data (v_dir v) d -> running top (set_v_dir d v)).
  { intros d Hd. apply (running_closed top v); [by split|]. eapply running_weaken; [|exact Hv]. done. }
  destruct (d_data (v_dir v) !! stem) as [taken|] eqn:Hfree; [by apply Htop|]. rewrite bool_decide_eq_false_2 by (by intros [? ?]). cbn [throw_if].
  unfold mbind at 1, io_bind at 1. pose proof (disk_call_keeps "renameDataFileExclusive: cannot rename" (v_dir v)) as D1.
  assert (Htmp : d_data_tmp (disk_call "renameDataFileExclusive: cannot rename" (v_dir v)).2 = d_data_tmp (v_dir v))
    by (unfold disk_call; by destruct (d_oracle (v_dir v)) as [|[|] os]).
  destruct (disk_call "renameDataFileExclusive: cannot rename" (v_dir v)) as [[[]|x] d1]; [|by apply Htop]. cbn [snd] in D1, Htmp.
  unfold mbind, io_bind. rewrite Htmp, Hg. unfold modify. exists g. split; [done|]. destruct Hv as (ls & n & G & En & Ev).
  exists ls, n. cbn. split_and!; [by destruct G| |split_and!; [done|apply lookup_insert_eq|]].
  - destruct En as [E1 E2 [L1 L2]]. split; [done|done|]. split; [|done]. intros id Hi. destruct (L1 id Hi) as (h & Hh & Hp). exists h. split; [done|].
    cbn. rewrite D1, lookup_insert_is_Some'. by right.
  - intros id h Hi Hh Hp. destruct (lk_named _ _ (en_linked _ _ _ _ _ _ _ En) id Hi) as (h' & Hh' & [? Hd]).
    assert (h' = h) as -> by congruence. congruence.
Qed.

(** What ends the attempt early. *)
Definition early (b : bool) (v : Vac) : Prop := if b then running (reclaimed lo) v else running (since db0) v.

Lemma no_copy_no_key scan g k e :
  copied ps g scan -> vs_total_bytes scan = 0 -> key_dir snap !! k = Some e -> KeyDirEntry.file_id e <> old.
Proof.
  intros C Hz. apply (nothing_kept_no_key db0 old f S0 nt (retain_after opts)).
  pose proof (kept_bound nt (retain_after opts) db0 old f S0) as Hb.
  rewrite (cp_total _ _ _ _ _ _ _ C), wrap_small in Hz by (unfold fits; lia).
  destruct (omap _ ps) as [|x l]; [done|]. unfold DataFile.total_bytes in Hz. rewrite lsum_cons in Hz. pose proof (record_bytes_pos x).
  pose proof (total_bytes_nonneg l). unfold DataFile.total_bytes in *. lia.
Qed.

Lemma compact_stage_ensures :
  ensures (fun v => v_db v = db0 /\ running (since db0) v) (compact_stage threshold nt snap old stem opts)
    (fun r v => match r with inl b => early b v | inr scan => exists fp, whole_copy scan fp /\ running (renamed fp) v end) (running top).
Proof.
  unfold compact_stage. assert (Htop : forall v, running (since db0) v -> running top v) by (intros v; by apply running_weaken).
  assert (Hc : closed_aside (running (since db0))) by apply running_closed.
  apply (ensures_bind _ _ _ (fun f' v => f' = f /\ running (since db0) v)).
  { intros v [Edb Hv]. unfold source_of, gets, lift, mbind, io_bind.
    rewrite (proj1 (registered_files _ _ _ (sl_state _ _ _ S0)) (sl_registered _ _ _ S0)), Edb, (sl_file _ _ _ S0). done. }
  intros f'. apply ensures_pure. intros ->.
  eapply ensures_bind; [eapply ensures_exn; [apply (create_staged_ensures _ Hc)|exact Htop]|]. intros ?. cbn beta.
  eapply ensures_bind.
  { unfold vacuum_scan_and_copy. eapply ensures_exn; [apply (copy_entries_ensures nt snap stem old (retain_after opts) _ Hc ps [] (cs_error (scan_committed f 0 DamageThrow)) VacuumScanResult_zero)|exact Htop].
    by apply swept_sweepable, (source_ok _ _ _ S0). }
  intros scan. cbn beta. rewrite app_nil_l. destruct (cancelled scan) eqn:Hcan.
  { apply ensures_ret. by intros v [Hv _]. }
  apply (ensures_pre _ (fun v => running (since db0) v /\ staged_as ps scan v)); [intros v [Hv [?|[_ ?]]]; [congruence|done]|].
  eapply ensures_bind; [eapply ensures_exn; [apply (sync_staged_ensures _ Hc scan)|exact Htop]|]. intros ?. cbn beta.
  eapply ensures_bind; [eapply ensures_exn; [apply (shrink_staged_ensures _ Hc scan)|exact Htop]|]. intros ?. cbn beta.
  apply (ensures_bind _ _ _ (fun _ v => running (since db0) v /\ exists g, d_data_tmp (v_dir v) !! stem = Some g /\ whole_copy scan g)).
  { apply ensures_lift; [done|]. intros v [Hv _]. auto. }
  intros total. destruct (total <=? vs_total_bytes scan); [apply ensures_ret; by intros v [Hv _]|].
  destruct (Z.eqb_spec (vs_total_bytes scan) 0) as [Hz|_].
  - apply ensures_at. intros v [Hv (g & _ & C)]. apply (ensures_pre _ (running (since db0))); [by intros ? <-|].
    eapply ensures_bind; [apply (vacuum_remove_ensures db0 old f lo S0 Hlo)|].
    + intros k e. apply (no_copy_no_key scan g); [apply C|done].
    + intros ?. by apply ensures_ret.
  - eapply ensures_bind; [apply rename_ensures|]. intros ?. by apply ensures_ret.
Qed.

(** ** Cleaning up *)

Lemma remove_path_ensures P p :
  match p with PlacedData s => s = stem /\ forall db data, P db data -> free_name db /\ P db (delete stem data) | _ => True end ->
  ensures (running P) (_ ← on_dir (attempt (remove_path p)); mret ()) (fun _ => running P) (running P).
Proof.
  intros Hp v Hv. unfold on_dir, attempt, remove_path, modify, mbind, io_bind. pose proof (disk_call_keeps "remove" (v_dir v)) as D1.
  destruct (disk_call "remove" (v_dir v)) as [[[]|x] d1]; cbn [snd] in D1; [|by apply (running_closed P v)].
  assert (Hv1 : running P (set_v_dir d1 v)) by by apply (running_closed P v).
  destruct p as [s|s|s|s]; try (by apply (running_closed P (set_v_dir d1 v))).
  destruct Hp as [-> Hp]. destruct Hv1 as (ls & n & G & En & HP). destruct (Hp _ _ HP) as [Hfree HP']. exists ls, n. split_and!; [by destruct G| |exact HP'].
  by apply (unlink_engine ls n (v_db v) d1).
Qed.

Lemma cleanup_ensures P paths :
  (forall s, PlacedData s ∈ paths -> s = stem /\ forall db data, P db data -> free_name db /\ P db (delete stem data)) ->
  ensures (running P) (cleanup paths) (fun _ => running P) (running P).
Proof.
  intros Hp. apply ensures_for_each. intros p Hin. apply remove_path_ensures. destruct p; try done. by apply Hp.
Qed.

Lemma guarded_ensures {A} paths (m : io Vac (bool + A)) P (B B' : bool -> Vac -> Prop) (Q : A -> Vac -> Prop) X E :
  ensures P m (fun r v => match r with inl b => B b v | inr a => Q a v end) X ->
  ensures X (cleanup paths) (fun _ => E) E -> (forall v, X v -> E v) -> (forall b, ensures (B b) (cleanup paths) (fun _ => B' b) E) ->
  ensures P (guarded paths m) (fun r v => match r with inl b => B' b v | inr a => Q a v end) E.
Proof.
  intros Hm HX HE HB. unfold guarded. eapply ensures_bind.
  - eapply ensures_try_catch; [exact Hm|]. intros x. apply (ensures_bind _ _ _ (fun _ => E)); [destruct (is_panic x); [by apply ensures_ret|exact HX]|].
    intros ?. by apply ensures_throw.
  - intros [b|a]; [|by apply ensures_ret]. eapply ensures_bind; [apply HB|]. intros ?. by apply ensures_ret.
Qed.

(** ** Compacting: from the rename to the commit *)

(** The copy is open under [dest]. *)
Definition opened (dest : Z) : DB -> gmap string DataFile -> Prop := fun db data =>
  evolved db0 db /\ exists g, live g = images (omap (kept_of nt snap old (retain_after opts)) ps) /\ logical_end g <= synced_end g
    /\ path g = stem /\ placed_copy dest g db data.

Lemma opened_free dest db data : opened dest db data -> free_name db.
Proof. intros (_ & g & _ & _ & Hp & P) id h Hi Hh. rewrite <-Hp. by apply (pc_paths _ _ _ _ P id). Qed.

Lemma opened_stable dest : stable (opened dest).
Proof.
  intros ls n ls' n' db d db' d' En En' Hlb HO. pose proof (opened_free _ _ _ HO) as Hfree.
  destruct HO as (Ev & g & Hlive & Hsy & Hpath & [P1 P2 P3 P4 P5]). rewrite Hpath in P4.
  pose proof (free_name_let_be _ _ _ _ _ _ _ _ En En' Hlb P4 Hfree) as Hfree'. destruct Hlb as [Ev' Hsub _].
  pose proof (iv_state _ _ _ _ _ (engine_inv _ _ _ _ _ _ _ En)) as Hs. pose proof (iv_state _ _ _ _ _ (engine_inv _ _ _ _ _ _ _ En')) as Hs'.
  assert (Hact : dest <> active_file_id (state_ db)).
  { intros E. destruct (wf_active _ _ (so_wf _ _ Hs)) as [fs Hfs]. cbn in Hfs. rewrite <-E in Hfs. congruence. }
  destruct (ev_heap _ _ Ev' dest g P3 P1) as (g' & Hg' & Hp' & Hsy' & _ & Hc). specialize (Hc Hact).
  assert (Hend : logical_end g' = logical_end g).
  { rewrite <-(length_live g), <-(length_live g'), Hc; [done|by apply (iv_heap _ _ _ _ _ (engine_inv _ _ _ _ _ _ _ En') dest)|by apply (iv_heap _ _ _ _ _ (engine_inv _ _ _ _ _ _ _ En) dest)]. }
  split; [by eapply evolved_trans|]. exists g'. split_and!; [by rewrite Hc|lia|congruence|]. split; [done| |pose proof (ev_next_file _ _ Ev'); lia| |].
  - destruct (file_stats (state_ db') !! dest) as [fs|] eqn:Hfs; [|done]. assert (Hr : registered db' dest) by (by rewrite Hfs).
    apply (registered_files _ _ _ Hs') in Hr. rewrite (ev_files _ _ Ev' dest P3 Hact) in Hr. apply (registered_files _ _ _ Hs) in Hr. rewrite P2 in Hr. by destruct Hr.
  - rewrite Hp', Hpath. destruct P4 as [fp Hfp]. exists fp. by apply (lookup_weaken _ _ _ _ Hfp).
  - rewrite Hp', Hpath. exact Hfree'.
Qed.

(** The id is reserved, and nothing else happened yet. *)
Definition reserved_at (fp : DataFile) (dest : Z) (v : Vac) : Prop :=
  exists ls n db1, grown_log ls n v /\ engine ls n db1 (v_dir v) /\ settled ls n db1 /\ renamed fp db1 (d_data (v_dir v))
    /\ v_db v = reserved_db db1 /\ dest = next_file_id (state_ db1) /\ dest <= KeyDirEntry.kMaxFileId.

(** Where an exception leaves vacuum before the commit. *)
Abbreviation freed := (running (fun db _ => free_name db)).

Lemma reserve_ensures fp : ensures (running (renamed fp)) (with_barrier reserve_dest) (reserved_at fp) freed.
Proof.
  apply with_barrier_ensures; [apply renamed_stable|]. intros ls n db v En S HR G Edb.
  destruct (reserve_run cfg next0 v0 ls n db S) as [[x E]|[Hmax E]]; rewrite E in Edb |- *; cbn [fst snd] in *.
  - exists ls, n. rewrite Edb. split_and!; [done| |apply HR]. apply (engine_kept _ _ _ ls n _ _ db); [done| |apply settled_released, S].
    split; try done. intros id g _ Hg. by exists g.
  - exists ls, n, db. by split_and!.
Qed.

Lemma open_placed_ensures scan fp dest :
  whole_copy scan fp ->
  ensures (reserved_at fp dest) (open_placed stem dest)
    (fun g v => 0 <= dest <= KeyDirEntry.kMaxFileId /\ running (opened dest) v) freed.
Proof.
  intros C v (ls & n & db1 & G & En & S & (Ev & Hd & Hfree) & Edb & -> & Hmax).
  assert (Hbad : forall d, same_data (v_dir v) d -> freed (set_v_dir d v)).
  { intros d Hsd. exists ls, n. cbn [v_db set_v_dir v_dir]. rewrite Edb. split_and!; [by destruct G|apply (engine_data _ _ _ (v_dir v)); [done|by apply reserved_engine]|exact Hfree]. }
  unfold open_placed, open_data, on_dir, gets, lift, on_db, modify, mbind, io_bind.
  pose proof (disk_call_keeps "open failed" (v_dir v)) as D1. destruct (disk_call "open failed" (v_dir v)) as [[[]|x] d1]; cbn [snd] in D1; [|by apply Hbad].
  cbn [v_dir set_v_dir v_db set_v_db]. rewrite D1, Hd.
  set (g := mkDataFile stem (content fp) (size (content fp)) 0 0 (synced_end fp) (sync_failed fp)).
  destruct C as [C Hsy Hc]. pose proof (cp_ok _ _ _ _ _ _ _ C) as Hok. pose proof (length_live fp Hok) as Hlen. rewrite <-Hc in Hlen.
  assert (Hg : file_ok g) by (destruct Hok; split; cbn; unfold size in *; lia).
  assert (Hgl : live g = images (omap (kept_of nt snap old (retain_after opts)) ps)).
  { rewrite <-(cp_live _ _ _ _ _ _ _ C), <-Hc. unfold live. cbn. apply take_ge. unfold size. lia. }
  pose proof (so_ids _ _ (iv_state _ _ _ _ _ (engine_inv _ _ _ _ _ _ _ En))) as Hids.
  split; [lia|]. exists ls, n. cbn. rewrite Edb.
  change (set_heap (<[next_file_id (state_ db1) := g]> (heap (reserved_db db1))) (reserved_db db1)) with (opened_db g db1).
  split_and!; [by destruct G|apply (engine_data _ _ _ (v_dir v)); [done|apply opened_engine; [done|done|done|]]|].
  { rewrite <-(length_live g Hg), Hgl, length_images. apply (kept_bound nt (retain_after opts) db0 old f S0). }
  split; [eapply evolved_trans; [exact Ev|apply opened_evolved]|]. exists g. split_and!; [done|cbn; lia|done|].
  split; cbn; [apply lookup_insert_eq|by eapply not_registered_next|lia|rewrite D1, Hd; by eexists|].
  intros id h Hi Hh. rewrite lookup_insert_ne in Hh; [by apply (Hfree id h)|]. intros E. rewrite <-E in Hi.
  rewrite (not_registered_next _ _ _ _ _ _ S) in Hi. by destruct Hi.
Qed.

Lemma free_name_kept ls n db d db' : engine ls n db d -> files_kept db db' -> state_ok (heap db') (state_ db') -> free_name db -> free_name db'.
Proof.
  intros En [F1 F4 _] Hs' Hfree id g' Hi Hg' Hp. pose proof (iv_state _ _ _ _ _ (engine_inv _ _ _ _ _ _ _ En)) as Hs.
  apply (registered_files _ _ _ Hs') in Hi. rewrite F1 in Hi. apply (registered_files _ _ _ Hs) in Hi.
  destruct (lk_named _ _ (en_linked _ _ _ _ _ _ _ En) id Hi) as (g & Hg & _). destruct (F4 id g Hi Hg) as (g2 & Hg2 & Hp2).
  apply (Hfree id g Hi Hg). congruence.
Qed.

Lemma commit_ensures scan fp dest :
  whole_copy scan fp -> 0 <= dest <= KeyDirEntry.kMaxFileId ->
  ensures (running (opened dest)) (with_barrier (vacuum_commit old scan (Some dest) dest (decided_at snap)))
    (fun _ => running (fun db _ => gone old lo db)) freed.
Proof.
  intros C Hdest. apply with_barrier_ensures; [apply opened_stable|]. intros ls n db v En S HO G Edb. pose proof (opened_free _ _ _ HO) as Hfree.
  destruct HO as (Ev & g & Hlive & Hsy & _ & P). pose proof (ev_seq _ _ Ev) as Hq. pose proof (decided_at_next _ _ (sl_state _ _ _ S0)) as Hda.
  pose proof (commit_moves cfg next0 v0 nt (retain_after opts) db0 old f S0 dest g fp scan Hlive Hsy (wc_copied _ _ C) Hdest
    ls n db (v_dir v) (decided_at snap) En S ltac:(lia) Ev P) as Hc.
  pose proof (commit_running ls n v old _ lo db _ G Hc Edb ltac:(lia)) as Hrun.
  destruct (vacuum_commit _ _ _ _ _ db).1; [done|]. destruct Hrun as (ls' & n' & G' & En' & Hk). exists ls', n'. split_and!; [done|done|].
  eapply (free_name_kept ls n db); [exact En|done| |done]. apply (iv_state _ _ _ _ _ (engine_inv _ _ _ _ _ _ _ En')).
Qed.

(** The copy was given up before anything was committed. *)
Definition given_up (b : bool) : Vac -> Prop := fun v => b = false /\ running (fun db _ => free_name db /\ evolved db0 db) v.

Lemma compact_place_ensures scan fp :
  whole_copy scan fp ->
  ensures (running (renamed fp)) (compact_place snap old stem scan)
    (fun r v => match r with inl b => given_up b v | inr _ => running (fun db _ => gone old lo db) v end) freed.
Proof.
  intros C. unfold compact_place.
  assert (Hfree : forall v, running (renamed fp) v -> freed v) by (intros v; apply running_weaken; by intros db data (_ & _ & ?)).
  apply (ensures_bind _ _ _ (fun _ => running (renamed fp))).
  { eapply ensures_exn; [apply on_dir_ensures, disk_call_keeps|done]. }
  intros _. apply (ensures_bind _ _ _ (fun _ => running (renamed fp))).
  { intros v Hv. unfold vacuum_cancelled. destruct (v_cancel v); [done|]. by apply (running_closed _ v). }
  intros [|].
  { apply ensures_ret. intros v Hv. split; [done|]. eapply running_weaken; [|exact Hv]. by intros db data (? & _ & ?). }
  eapply ensures_bind; [apply reserve_ensures|]. intros dest. eapply ensures_bind; [by eapply open_placed_ensures|]. intros g.
  apply ensures_pure. intros Hdest. apply (ensures_bind _ _ _ (fun _ => running (opened dest))).
  { eapply ensures_exn; [apply on_dir_ensures, flush_hints_for_same|]. intros v. apply running_weaken, opened_free. }
  intros _. eapply ensures_bind; [by eapply commit_ensures|]. intros ?. by apply ensures_ret.
Qed.

(** Both guarded parts, and the unlink. *)
Lemma compact_ensures :
  ensures (fun v => v_db v = db0 /\ running (since db0) v)
    (staged ← guarded [StagedData stem] (compact_stage threshold nt snap old stem opts);
     match staged with
     | inl b => mret b
     | inr scan =>
         placed ← guarded [PlacedHintTmp stem; PlacedHint stem; PlacedData stem] (compact_place snap old stem scan);
         match placed with
         | inl b => mret b
         | inr _ => _ ← vacuum_unlink_old_file snap old; mret true
         end
     end) early (running top).
Proof.
  assert (Htop : forall P v, running P v -> running top v) by (intros P v; by apply running_weaken).
  eapply ensures_bind.
  { apply guarded_ensures with (X := running top) (B := early) (B' := early); [apply compact_stage_ensures| |done|].
    - apply cleanup_ensures. by intros s [?|?%not_elem_of_nil]%elem_of_cons.
    - intros b. unfold early. destruct b; (eapply ensures_exn; [apply cleanup_ensures|apply Htop]);
        by intros s [?|?%not_elem_of_nil]%elem_of_cons. }
  intros [b|scan]; [by apply ensures_ret|]. apply ensures_at. intros v (fp & C & Hv).
  apply (ensures_pre _ (running (renamed fp))); [by intros ? <-|]. eapply ensures_bind.
  { apply guarded_ensures with (X := freed) (B := given_up) (B' := given_up); [by apply compact_place_ensures| |apply Htop|].
    - eapply ensures_weaken; [apply (cleanup_ensures (fun db _ => free_name db))|intros ? Hx; exact Hx|intros ?; apply Htop|apply Htop]. intros s Hs. set_unfold in Hs. naive_solver.
    - intros b v1 [-> Hv1]. pose proof (cleanup_ensures (fun db _ => free_name db /\ evolved db0 db) [PlacedHintTmp stem; PlacedHint stem; PlacedData stem]) as Hcl.
      specialize (Hcl ltac:(intros s Hs; set_unfold in Hs; naive_solver) v1 Hv1). destruct (cleanup _ v1) as [[[]|x] v2]; [by split|by eapply Htop]. }
  intros [b|[]].
  - apply ensures_ret. intros v1 [-> Hv1]. eapply running_weaken; [|exact Hv1]. by intros db data [_ ?].
  - eapply ensures_bind; [apply vacuum_unlink_ensures|].
    + by apply (registered_files _ _ _ (sl_state _ _ _ S0)), (sl_registered _ _ _ S0).
    + intros ?. by apply ensures_ret.
Qed.
End compact.

(** ** The whole of vacuum *)

Lemma engine_sealed ls n db d id :
  engine ls n db d -> registered db id -> id <> active_file_id (state_ db) -> exists f, sealed_file db id f.
Proof.
  intros En Hr Ha. pose proof (engine_inv _ _ _ _ _ _ _ En) as I. destruct (lk_named _ _ (en_linked _ _ _ _ _ _ _ En) id Hr) as (f & Hf & _).
  exists f. split; try done; [apply I|apply I|]. by apply (en_small _ _ _ _ _ _ _ En id).
Qed.

Section loop.
Context (nt : NeededTombstones) (opts : VacuumOptions) (threshold : Z) (Hth : 0 <= threshold).
Context (dbL : DB) (lo : Z) (Hlo : lo <= next_seq (state_ dbL) - 1).

Definition attempted (b : bool) (v : Vac) : Prop := if b then running (reclaimed lo) v else running (since dbL) v.

Lemma vacuum_compact_ensures old fL :
  sealed_file dbL old fL -> ensures (running (since dbL)) (vacuum_compact_file threshold nt old opts) attempted (running top).
Proof.
  intros SL. unfold vacuum_compact_file. eapply ensures_bind; [apply load_state_for_write_ensures, since_stable|]. intros s.
  apply ensures_at. intros v [-> Hv]. pose proof Hv as (ls & n & _ & En & HL). red in HL. set (db0 := v_db v) in *.
  pose proof (iv_state _ _ _ _ _ (engine_inv _ _ _ _ _ _ _ En)) as Hs. destruct (source_sealed _ _ _ SL db0 HL Hs) as [Hr Ha].
  destruct (engine_sealed _ _ _ _ _ En Hr Ha) as [f S0].
  assert (Hstart : v_db v = db0 /\ running (since db0) v) by (split; [done|]; apply running_since; eapply running_weaken; [|exact Hv]; done).
  assert (Htop : forall v, v_db v = db0 /\ running (since db0) v -> running top v) by (intros ? [_ ?]; eapply running_weaken; [|eassumption]; done).
  apply (ensures_pre _ (fun v => v_db v = db0 /\ running (since db0) v)); [by intros ? <-|].
  apply (ensures_bind _ _ _ (fun _ v => v_db v = db0 /\ running (since db0) v)); [by apply ensures_lift|]. intros _.
  apply (ensures_bind _ _ _ (fun _ v => v_db v = db0 /\ running (since db0) v)).
  { intros v1 [E1 H1']. unfold make_data_file_stem. destruct (v_stems v1); [by apply Htop|]. split; [done|]. by apply (running_closed _ v1). }
  intros stem. eapply ensures_weaken; [apply (compact_ensures nt opts stem threshold Hth db0 old f lo S0)|done| |done].
  - pose proof (ev_seq _ _ HL). lia.
  - intros [|] v1; [done|]. apply running_weaken. intros db data Hsn. by eapply evolved_trans.
Qed.

Lemma vacuum_loop_ensures cs :
  Forall (fun c => exists f, sealed_file dbL c.2 f) cs ->
  ensures (running (since dbL)) (vacuum_loop threshold nt opts (file_stats (state_ dbL)) cs) attempted (running top).
Proof.
  intros Hcs. induction Hcs as [|[frag fid] cs [f Hf] _ IH]; cbn [vacuum_loop]; [by apply ensures_ret|]. cbn [snd] in Hf.
  apply (ensures_bind _ _ _ (fun _ => running (since dbL))).
  { intros v Hv. unfold vacuum_cancelled. destruct (v_cancel v); [done|]. by apply (running_closed _ v). }
  intros [|]; [by apply ensures_ret|]. destruct (sl_registered _ _ _ Hf) as [fs Hfs]. rewrite Hfs. change (default FileStats_zero (Some fs)) with fs.
  destruct (_ && _) eqn:Hempty.
  - apply andb_true_iff in Hempty as [[[Hz%Z.eqb_eq _]%andb_true_iff _]%andb_true_iff _].
    eapply ensures_bind; [apply (vacuum_remove_ensures dbL fid f lo Hf Hlo)|].
    + intros k e. by apply (no_live_no_key dbL fid f Hf fs).
    + intros ?. by apply ensures_ret.
  - eapply ensures_bind; [by eapply vacuum_compact_ensures|]. intros [|]; [by apply ensures_ret|exact IH].
Qed.
End loop.

Lemma candidate_sealed ls n opts db d c :
  engine ls n db d -> c ∈ candidates opts (active_file_id (state_ db)) (file_stats (state_ db)) -> exists f, sealed_file db c.2 f.
Proof.
  intros En Hc. unfold candidates in Hc. rewrite merge_sort_Permutation in Hc.
  apply list_elem_of_omap in Hc as ([fid fs] & Hin%elem_of_map_to_list & Hcand). unfold candidate in Hcand.
  destruct (Z.eqb_spec fid (active_file_id (state_ db))) as [|Hne]; [done|]. repeat case_match; try done. injection Hcand as <-.
  apply (engine_sealed _ _ _ _ _ En); [by eexists|done].
Qed.

Lemma drain_hints_ensures db0 : ensures (running (since db0)) drain_hints (fun _ => running (since db0)) (running (since db0)).
Proof.
  unfold drain_hints.
  assert (Hget : forall A (g : DB -> A), ensures (running (since db0)) (on_db (gets g)) (fun _ => running (since db0)) (running (since db0))).
  { intros A g v Hv. by apply (running_closed _ v). }
  eapply ensures_bind; [apply Hget|]. intros refs. eapply ensures_bind; [apply Hget|]. intros objects.
  apply (ensures_bind _ _ _ (fun _ => running (since db0))).
  { apply ensures_for_each. intros r _. destruct (objects !! r) as [g|]; [|by apply ensures_ret].
    eapply ensures_bind; [apply on_dir_ensures; apply always_attempt, flush_hints_for_same|]. intros ?. by apply ensures_ret. }
  intros _ v (ls & n & G & [[I Hroom] Hsw Hlk] & Ev). exists ls, n. cbn. split_and!; [by destruct G| |].
  - split; [split; [|exact Hroom]|exact Hsw|by destruct Hlk]. cbn [committed published] in I |- *.
    apply (inv_io _ _ ls n (v_db v)); [done|split; try done; [apply heap_le_refl, I|apply same_files_but_refl|apply I]|]. intros Ha. pose proof (iv_accepts _ _ _ _ _ I Ha) as Hh. split; apply Hh.
  - by destruct Ev.
Qed.

Lemma vacuum_ensures nt opts threshold db :
  0 <= threshold ->
  ensures (running (since db)) (vacuum threshold nt opts)
    (fun b => if b : bool then running (reclaimed (next_seq (state_ db) - 1)) else running top) (running top).
Proof.
  intros Hth. unfold vacuum. assert (Htop : forall P v, running P v -> running top v) by (intros P v; by apply running_weaken).
  assert (Hget : forall A (g : DB -> A), ensures (running (since db)) (on_db (gets g)) (fun _ => running (since db)) (running top)).
  { intros A g v Hv. by apply (running_closed _ v). }
  assert (Hthrow : forall b x, ensures (running (since db)) (lift (throw_if b x)) (fun _ => running (since db)) (running top)).
  { intros b x. apply ensures_lift; [done|apply Htop]. }
  eapply ensures_bind; [apply Hget|]. intros s. eapply ensures_bind; [apply Hget|]. intros no. eapply ensures_bind; [apply Hget|]. intros reason.
  eapply ensures_bind; [apply Hthrow|]. intros ?. eapply ensures_bind; [apply Hthrow|]. intros ?.
  eapply ensures_bind; [eapply ensures_exn; [apply drain_hints_ensures|apply Htop]|]. intros ?.
  eapply ensures_bind; [apply load_state_for_write_ensures, since_stable|]. intros s'. apply ensures_at. intros v [-> Hv].
  pose proof Hv as (ls & n & _ & En & Ev). red in Ev. apply (ensures_pre _ (running (since (v_db v)))); [intros ? <-; by eapply running_since, Htop|].
  eapply ensures_weaken; [apply (vacuum_loop_ensures nt opts threshold Hth (v_db v) (next_seq (state_ db) - 1))|done| |done].
  - pose proof (ev_seq _ _ Ev). lia.
  - apply Forall_forall. intros c Hc. by eapply candidate_sealed.
  - intros [|] v1; [done|]. apply Htop.
Qed.
End vacuum.

Section theorem.
Context `{Zstd} `{Crc32cLaws} `{KeyDirKind} `{Apart : FaultSpacing} (cfg : Settings) (next0 : Z) (v0 : gmap bytes bytes).

(** C39: Vacuum takes nothing away from an engine that keeps its invariant.
    Whatever other threads do between its steps (they take steps of the engine:
    batches, flushes, barriers, with rotations in them), whatever system calls
    fail, reads of the source included, and whenever it is cancelled, after
    [vacuum] returned or threw the engine's invariant holds for the log as the
    others left it: readers see exactly its published prefix, every key's
    record is found by a sweep of its file, and every file the published state
    names is still in the directory.  If it returned true, a file the state
    does not name any more is gone from the directory, and the durable sequence
    covers everything published when vacuum was called.  What the durable
    sequence covers is on disk, provided no call of the engine failed right
    after one that failed ([faults_apart]). *)
Theorem vacuum_spec nt opts threshold ls n v :
  settings_ok cfg -> 0 <= threshold -> engine cfg next0 v0 ls n (v_db v) (v_dir v) -> Forall (thread cfg next0 v0) (v_others v) ->
  exists r v' ls' n', vacuum threshold nt opts v = (r, v')
    /\ ls `prefix_of` ls' /\ (n <= n')%nat /\ (v_others v = [] -> ls' = ls)
    /\ engine cfg next0 v0 ls' n' (v_db v') (v_dir v')
    /\ state_view (heap (v_db v')) (state_ (v_db v')) = log_view v0 (take n' ls')
    /\ (faults_apart -> durable_to (heap (v_db v')) (state_ (v_db v')) (durable_seq (state_ (v_db v'))))
    /\ (r = Ok true -> reclaimed (next_seq (state_ (v_db v)) - 1) (v_db v') (d_data (v_dir v'))).
Proof.
  intros Hcfg Hth En Ht. assert (Hg : Forall (guest cfg next0 v0) (v_others v)) by (eapply Forall_impl; [exact Ht|]; intros; by apply thread_guest).
  pose proof (vacuum_ensures cfg next0 v0 ls n (v_others v) nt opts threshold (v_db v) Hth v) as Hv.
  destruct (vacuum threshold nt opts v) as [r v'] eqn:E.
  assert (Hrun : running cfg next0 v0 ls n (v_others v) (fun db data => r = Ok true -> reclaimed (next_seq (state_ (v_db v)) - 1) db data) v').
  { specialize (Hv ltac:(exists ls, n; split_and!; [by split|done|apply evolved_refl])).
    destruct r as [[|]|x]; eapply running_weaken; try exact Hv; done. }
  destruct Hrun as (ls' & n' & [G1 G2 G3 _] & En' & HR). exists r, v', ls', n'. pose proof (engine_inv _ _ _ _ _ _ _ En') as I'.
  split_and!; try done; [by intros Ho; destruct (G3 Ho)|apply I'..].
Qed.
End theorem.

(** ** A thread of the engine *)

(** A thread that runs [g]: the files [g] registers get their names, and if one
    of the names is taken the thread ends with nothing done. *)
Section threads.
Context `{Crc32cLaws} `{KeyDirKind} `{Apart : FaultSpacing} (cfg : Settings) (next0 : Z) (v0 : gmap bytes bytes).

Definition new_names (db db' : DB) : list string :=
  stem_of cfg <$> elements (dom (file_stats (state_ db')) ∖ dom (file_stats (state_ db))).

Definition link_names (names : list string) (data : gmap string DataFile) : gmap string DataFile :=
  foldr (fun s => <[s := empty_file s]>) data names.

Definition thread_of (g : DB -> DB) (p : DB * Disk) : DB * Disk :=
  let names := new_names p.1 (g p.1) in
  if bool_decide (NoDup names /\ Forall (fun s => d_data p.2 !! s = None) names)
  then (g p.1, set_data (link_names names (d_data p.2)) p.2)
  else p.

Lemma link_names_sub names data : Forall (fun s => data !! s = None) names -> NoDup names -> data ⊆ link_names names data.
Proof.
  intros Hf Hn. induction names as [|s names IH]; [done|]. apply Forall_cons in Hf as [Hs Hf]. apply NoDup_cons in Hn as [Hni Hn].
  cbn. etrans; [by apply IH|]. apply insert_subseteq. clear IH. induction names as [|s' names IH]; [done|]. cbn.
  apply Forall_cons in Hf as [_ Hf]. apply NoDup_cons in Hn as [_ Hn]. apply not_elem_of_cons in Hni as [Hne Hni].
  rewrite lookup_insert_ne by done. by apply IH.
Qed.

Lemma link_names_in names data s : s ∈ names -> is_Some (link_names names data !! s).
Proof.
  induction 1 as [s names|s s' names _ IH]; cbn; [rewrite lookup_insert_eq; by eexists|]. rewrite lookup_insert_is_Some'. by right.
Qed.

Lemma thread_of_thread g : (forall db, rtc (db_step cfg) db (g db)) -> thread cfg next0 v0 (thread_of g).
Proof.
  intros Hg ls n db d En. unfold thread_of. cbn [fst snd]. case_bool_decide as Hfree; [|split; [done|done|lia|lia]].
  destruct Hfree as [Hnd Hf]. set (names := new_names db (g db)) in *.
  pose proof (iv_state _ _ _ _ _ (engine_inv _ _ _ _ _ _ _ En)) as Hs.
  assert (Hin : forall id, next_file_id (state_ db) <= id -> is_Some (file_stats (state_ (g db)) !! id) ->
    id ∈ elements (dom (file_stats (state_ (g db))) ∖ dom (file_stats (state_ db)))).
  { intros id Hid Hr. rewrite elem_of_elements, elem_of_difference, !elem_of_dom. split; [done|]. intros Hr0%(so_below _ _ Hs). lia. }
  split; [apply Hg|by apply link_names_sub| |].
  - intros id [Hid _] Hr. pose proof (list_elem_of_fmap_2 (stem_of cfg) _ _ (Hin id Hid Hr)) as Hn. split; [by apply (proj1 (Forall_forall _ _) Hf)|by apply link_names_in].
  - intros id id' [Hid _] [Hid' _] Hr Hr' E. unfold names, new_names in Hnd.
    destruct (proj1 (list_elem_of_lookup _ _) (Hin id Hid Hr)) as [i Hi], (proj1 (list_elem_of_lookup _ _) (Hin id' Hid' Hr')) as [i' Hi'].
    assert (i = i') as <-; [|congruence].
    apply (NoDup_lookup _ i i' (stem_of cfg id) Hnd); rewrite list_lookup_fmap; [by rewrite Hi|by rewrite Hi', E].
Qed.
End threads.

Section witness.
Import Castagnoli Stored EngineFixture.
#[local] Instance leaves : KeyDirKind := true.
#[local] Instance calls_fail_apart : FaultSpacing := True.

(** Three writes to files that are full after two: the second write of a key
    leaves garbage in the sealed one. *)
Definition small_files : Settings :=
  mkSettings 40 (DataFile.mkLimits 8 (2 ^ 30) (2 ^ 20)) (2 ^ 32) (2 ^ 30) (fun id => if id =? 1 then "next" else "later").

Definition one_put (k v : bytes) (db : DB) : DB := (run_batch small_files [put_slot k v true] db).2.

Definition put_a : DB := one_put [x61] [x01] (empty_db []).
Definition put_b : DB := one_put [x62] [x02] put_a.
Definition overwritten : DB := (with_role (mret ()) (one_put [x61] [x03] put_b)).2.

Definition small_dir : Disk := mkDisk (<["data" := empty_file "data"]> {["next" := empty_file "next"]}) ∅ ∅ ∅ [] [].

Definition write_c : DB * Disk -> DB * Disk := thread_of small_files (one_put [x63] [x04]).
Definition land_flush : DB * Disk -> DB * Disk := thread_of small_files (fun db => (flush_finish db).2).

Definition small_vac : Vac := mkVac overwritten small_dir [land_flush; write_c; write_c; land_flush] [] ["copy"].

Lemma small_files_fit : settings_ok small_files.
Proof. split; cbn; lia. Qed.

Lemma small_start : shows small_files 1 ∅ (mkLog [] 0) (empty_db []).
Proof.
  split; [by apply empty_inv|]. intros _ f. cbn. rewrite lookup_singleton_Some. intros [_ <-]. split_and!; [done|by apply framed_empty|].
  intros fs. rewrite lookup_singleton_Some. by intros [_ <-].
Qed.

Lemma one_put_step k v db :
  size k < 100 -> size v < 100 -> plan_bytes (put_plan k v) <= 2 ^ 30 -> db_step small_files db (one_put k v db).
Proof.
  intros Hk Hv Hn. eapply (step_batch _ [put_slot k v true]); [by repeat constructor| |apply surjective_pairing].
  intros _. apply Forall_singleton. apply (request_plan_ok db (put_plan k v)); [by apply put_requested|done].
Qed.

Lemma overwritten_run : rtc (db_step small_files) (empty_db []) overwritten.
Proof.
  eapply rtc_l; [|eapply rtc_l; [|eapply rtc_l; [|apply rtc_once]]].
  - apply (one_put_step [x61] [x01]); by vm_compute.
  - apply (one_put_step [x62] [x02]); by vm_compute.
  - apply (one_put_step [x61] [x03]); by vm_compute.
  - eapply step_barrier. apply surjective_pairing.
Qed.

Lemma overwritten_files id : is_Some (file_stats (state_ overwritten) !! id) -> id = 0 \/ id = 1.
Proof.
  intros Hi%elem_of_dom. assert (Hd : dom (file_stats (state_ overwritten)) = {[0; 1]}) by (by vm_compute).
  rewrite Hd in Hi. clear Hd. set_solver.
Qed.

Lemma overwritten_heap :
  exists f g, heap overwritten !! 0 = Some f /\ path f = "data" /\ heap overwritten !! 1 = Some g /\ path g = "next".
Proof.
  exists (default (empty_file "") (heap overwritten !! 0)), (default (empty_file "") (heap overwritten !! 1)). by split_and!; vm_compute.
Qed.

Lemma overwritten_small : heap_small (heap overwritten).
Proof. refine (bool_decide_unpack _ _). vm_compute. exact I. Qed.

Lemma overwritten_engine : exists ls n, engine small_files 1 ∅ ls n overwritten small_dir.
Proof.
  destruct (run_refines small_files 1 ∅ small_files_fit _ _ _ small_start overwritten_run) as ([ls n] & _ & Hs). exists ls, n.
  pose proof overwritten_files as Hreg. pose proof overwritten_small as Hsm. destruct overwritten_heap as (f & g & Hf & Pf & Hg & Pg).
  generalize dependent overwritten. intros db Hs Hreg Hsm Hf Hg. split; [exact Hs|exact Hsm|split].
  - intros id [->| ->]%Hreg; [exists f|exists g]; (split; [done|]); rewrite ?Pf, ?Pg; by eexists.
  - intros id id' a b [->| ->]%Hreg [->| ->]%Hreg Ha Hb Hp; congruence.
Qed.

(** A writer, and the thread that lands the flush. *)
Lemma write_c_thread : thread small_files 1 ∅ write_c.
Proof. apply thread_of_thread. intros db. apply rtc_once, one_put_step; by vm_compute. Qed.

Lemma land_flush_thread : thread small_files 1 ∅ land_flush.
Proof. apply thread_of_thread. intros db. apply rtc_once. eapply step_flush_finish. apply surjective_pairing. Qed.

Lemma small_others : Forall (thread small_files 1 ∅) (v_others small_vac).
Proof. repeat (apply Forall_cons_2; [apply write_c_thread || apply land_flush_thread|]). apply Forall_nil_2. Qed.

Lemma vacuum_spec_witness :
  exists v' ls' n', vacuum 40 (mkNeeded (2 ^ 40) []) (mkVacuumOptions (double_of 0) (2 ^ 40)) small_vac = (Ok true, v')
    /\ engine small_files 1 ∅ ls' n' (v_db v') (v_dir v')
    /\ reclaimed 3 (v_db v') (d_data (v_dir v')).
Proof.
  destruct overwritten_engine as (ls & n & En).
  destruct (vacuum_spec small_files 1 ∅ (mkNeeded (2 ^ 40) []) (mkVacuumOptions (double_of 0) (2 ^ 40)) 40 ls n small_vac)
    as (r & v' & ls' & n' & E & _ & _ & _ & En' & _ & _ & HR); [exact small_files_fit|done|exact En|exact small_others|].
  assert (Hr : (vacuum 40 (mkNeeded (2 ^ 40) []) (mkVacuumOptions (double_of 0) (2 ^ 40)) small_vac).1 = Ok true) by (by vm_compute).
  rewrite E in Hr. cbn in Hr. subst r. exists v', ls', n'. split; [exact E|]. split; [exact En'|].
  assert (Hn : next_seq (state_ (v_db small_vac)) - 1 = 3) by (by vm_compute). rewrite <-Hn. apply HR. reflexivity.
Defined.
End witness.
